(* ===== verification/_CoqProject ===== *)
-Q . S2P
Prelude.v
Prototypes.v
ErrorHandler.v
Instrument.v
Symbols.v
Memory.v
ArrayView.v
Queues.v
MultiQueue.v
RingMemory.v
Allocator.v
SpinLock.v
SpinWait.v
LockMemory.v
World.v
Interface.v
Tickets.v
StringSupport.v
CapacityCtrl.v
PollingPeriod.v
Clock.v
Operations.v
FortranInterface.v
TicketManager.v
OperationManager.v
ManagerProofs.v
TransferProofs.v
PollingProofs.v
System.v
Demo.v
Claims.v
Contract.v
Refinement.v
Interleaving.v
Ordering.v
Runtime.v
Liveness.v
Alpi.v
Polling.v
Tasking.v
PollingTask.v
Environment.v
CApi.v
Startup.v
RuntimeStart.v
Safety.v
