(* ===== verification/Prelude.v ===== *)
(** * Task-Aware MPI (TAMPI): a verification development

    TAMPI lets tasks of a parallel program call MPI operations that block the
    task, or bind the operation to the task's completion, instead of blocking
    the thread.  A task delegates its operation; a polling task issues the
    operations as non-blocking MPI calls, tests the requests and tells the
    tasks when they complete.  This development models the library as Rocq
    definitions and proves what makes it correct.

    ** The program and the files that model it

    - [Prelude.v]: the outcome monad ([Ok], [Fail] for [ErrorHandler::fail],
      [Undef] for violated assertions, uninitialised reads and loops out of
      fuel), machine integers, arrays, lists, and the predicate [post] for
      partial and total correctness.
    - [Prototypes.v]: the tables of function types ([Declarations.hpp],
      [include/TAMPI_Wrappers.h], [ALPI.hpp]).
    - [ErrorHandler.v]: messages, failures and warnings, and how the messages of
      several threads reach the error stream ([util/ErrorHandler.hpp]).
    - [Instrument.v]: instrumentation points, guards and the ovni backend
      ([instrument/]).
    - [Symbols.v]: loading of symbols and the interface to MPI for both
      languages ([Symbol.hpp], [Interface.hpp], [Declarations.hpp]).
    - [Memory.v], [ArrayView.v]: padding, aligned memory on a parametric [mmap],
      and views of arrays ([util/Utils.hpp], [util/ArrayView.hpp]).
    - [Queues.v]: the single-producer queue of Boost as a parameter ([SpscLib],
      [SpscLaws]), the interface [OpQueue]/[OpQueueLaws] between the ticket
      manager and its pre-queues, and [BoostLockFreeQueue]
      ([util/BoostLockFreeQueue.hpp]), the pre-queue of collectives.
    - [MultiQueue.v]: [MultiLockFreeQueue] ([util/MultiLockFreeQueue.hpp]), one
      ring buffer per CPU, the pre-queue of point-to-point operations, at the
      granularity of a push or a pop.
    - [RingMemory.v]: one of its ring buffers instruction by instruction, on a
      memory with the C++ memory orders that the code names: threads read
      possibly old values of the atomic counters, and a plain access races
      when nothing orders it.
    - [Allocator.v]: [FixedSizeStack] and [ObjAllocator] ([Allocator.hpp],
      [util/FixedSizeStack.hpp]).
    - [SpinLock.v], [LockMemory.v]: the ticket array lock ([util/SpinLock.hpp]),
      instruction by instruction, on a sequentially consistent memory and on one
      with the memory orders of the code.
    - [SpinWait.v]: the hints of spin loops to the core ([util/SpinWait.hpp]).
    - [World.v]: the data of operations and contexts, what MPI and the tasking
      runtime (ALPI) have seen as a trace of events, [TaskContext] and
      [CompletionManager] ([TaskContext.hpp], [CompletionManager.hpp]).
    - [Interface.v]: MPI as a parameter ([MpiLib]) with what the MPI standard
      says of its test functions ([MpiLaws]); the standard does not say that
      MPI_Testsome returns ascending indices ([TestsomeAscending]), which the
      compaction of the arrays needs, so the theorems about runs assume it where
      requests are tested with MPI_Testsome and only there ([orderly]);
      [Interface<C>] and [internalTestRequests] ([Interface.hpp],
      [TicketManager.hpp]).
    - [Tickets.v]: [Ticket], the arrays of [TicketManagerInternals] and their
      compaction ([Ticket.hpp], [TicketManagerInternals.hpp]).
    - [StringSupport.v], [CapacityCtrl.v], [PollingPeriod.v]: run-time options
      and the two controllers they configure ([util/StringSupport.hpp],
      [util/EnvironmentVariable.hpp], [TicketManagerCapacityCtrl.hpp],
      [polling/PollingPeriodCtrl.hpp], [polling/SlowStartPollingPeriodCtrl.hpp]).
    - [Clock.v]: the clock in milliseconds as doubles, and the capacity
      controller with it ([util/Clock.hpp]).
    - [Operations.v]: constructing and issuing operations ([Operation.hpp],
      [Operation.cpp]); the class [OpType] stands for the template parameter of
      the ticket manager.
    - [FortranInterface.v]: the specialisations for Fortran ([Interface.hpp],
      [Operation.cpp]).
    - [TicketManager.v], [OperationManager.v]: [TicketManager<C>] and
      [OperationManager::process] ([TicketManager.hpp], [OperationManager.hpp]).
    - [ManagerProofs.v], [TransferProofs.v], [PollingProofs.v]: the lemmas about
      [checkRequests], bottom up.
    - [System.v]: tasks, the polling task and the completion task as a
      transition system, and its invariant.
    - [Demo.v]: a concrete MPI library, runtime and manager on which the
      theorems are evaluated.
    - [Claims.v]: the theorems about polling and about whole runs.
    - [Refinement.v]: a specification of task-aware communication without queues,
      arrays and batches, and the simulation by which the library implements it.
    - [Interleaving.v]: [checkRequests] step by step, with tasks that push and the
      completion task between its steps.
    - [Contract.v]: what the documentation of the tasking interface
      ([ALPI.hpp]) demands of its callers, and that the library's runs obey it.
    - [Ordering.v]: runs with a log of the pushes, and the order in which
      operations reach MPI; the classes [OpLanes]/[OpLanesLaws] state what order
      each pre-queue keeps.
    - [Runtime.v]: what a task that runs may rely on.
    - [Liveness.v]: polling drains the library when MPI sooner or later completes
      the requests that are tested again and again ([MpiFair]).
    - [Alpi.v]: a tasking runtime built from the documentation of [ALPI.hpp]
      (tasks that block, hold events and complete), composed with the library.
    - [Polling.v]: the functions the two polling tasks run
      ([polling/Polling.hpp]).
    - [Tasking.v], [Environment.v]: the loading of the runtime, the life of a
      polling instance, and initialisation and finalisation, which start and
      stop the interface to MPI, the tasking model and the instrumentation
      ([TaskingModel.hpp], [TaskingModel.cpp], [Environment.hpp],
      [c/InitFinalize.cpp], [c/Utils.cpp]).
    - [PollingTask.v]: the body of a polling task statement by statement, in a
      runtime that spawns, pauses, suspends and completes tasks as [ALPI.hpp]
      documents.
    - [CApi.v]: the wrappers of all MPI operations and their TAMPI counterparts
      ([c/*.cpp]), connected to the transition system.
    - [Startup.v]: what is constructed from the environment variables before the
      library runs ([Environment.cpp], [Allocator.cpp], [TicketManager.hpp]), and
      runs with the controllers of the polling periods.
    - [RuntimeStart.v]: the loading of a runtime that reports versions, features,
      CPUs and running tasks as [ALPI.hpp] documents, and the library's queries
      ([TaskingModel.hpp]).
    - [Safety.v]: the composition of all invariants, from start-up to everything
      that a run can do next.

    Paths are relative to [src/src/common] or, for [c/] and [include/], to
    [src/src].

    ** What the theorems show

    - Runs of the whole library ([Claims.v], [CApi.v]): every delegated
      operation is in exactly one place until it is finished, is issued once,
      is finished only when MPI says so, with its own status and ticket; event
      counters balance; every call to the runtime is one that its
      documentation allows at that point ([Contract.v]).  The 44 wrappers
      delegate exactly the MPI call they are named after.
    - No undefined behaviour ([Safety.v]): from every start-up, in every state
      that a run reaches, no call of a wrapper on any CPU, no poll and no run
      of the completion task fails an assertion, reads memory that was not
      written or overruns an array.
    - The library with the documented runtime ([Alpi.v], [Runtime.v]): the
      runtime accepts every call; tasks wait exactly for their operations; when
      a task completes, all its operations are done and their statuses written;
      polling goes on until every task is released, with an MPI that completes
      requests sooner or later.
    - Order ([Ordering.v], [Runtime.v]): collectives reach MPI in the order of
      the pushes, point-to-point operations in that order for each CPU, and a
      blocking operation is a barrier for what its task did before it.
    - The specification ([Refinement.v]): every step of every run, the parts of a
      poll included, is a sequence of steps of the specification, with the same
      calls to MPI, the same reports of MPI, the same memory and the same
      notifications.
    - Polling ([Claims.v], [Interleaving.v], [Liveness.v], [Polling.v]):
      [checkRequests] reaches no undefined state, keeps the manager's invariant,
      and terminates, alone and while other threads push.
      With the completion task, termination needs room in its queue for the
      operations that are not finished ([fits] in [ManagerProofs.v]), since a
      poll that finds it full stops the program.
    - The parts it relies on: the three ways to test requests meet one contract
      ([Interface.v]); compaction loses nothing given ascending indices
      ([Tickets.v]); both pre-queues are first-in first-out ([Queues.v],
      [MultiQueue.v]), and a ring buffer is so on a weak memory up to the first
      data race, of which there would be none if the tail was loaded with
      acquire order ([RingMemory.v]); allocation is fresh ([Allocator.v]), its objects are in
      distinct cache lines of memory of their own, and finalizing gives it back
      ([Memory.v]); the lock excludes and loses no wake-up ([SpinLock.v]) and orders the critical sections
      ([LockMemory.v]); the controllers keep their bounds
      ([CapacityCtrl.v], [PollingPeriod.v]).
    - Starting and stopping ([Tasking.v], [RuntimeStart.v], [Environment.v]): the
      tasking model starts exactly when what it needs is there; modes, polling
      instances and allocators stay consistent, all functions of MPI and of the
      runtime that an enabled mode can call are loaded, a polling instance is
      not used after it was unregistered, and unregistering ends.  Both bodies
      of the polling task are the same loop, which goes on until it is
      unregistered ([PollingTask.v]).
    - From the environment variables to polling ([Startup.v]): start-up stops with
      a message or leaves an initial state of the runs; from there every poll asks for a period
      within the configured bounds.
    - Around the core: the Fortran tests agree with the C ones
      ([FortranInterface.v]); guards nest and their events can be decoded
      ([Instrument.v]); messages are not mixed ([ErrorHandler.v]); the
      prototypes fit each other ([Prototypes.v]); rounded time stamps do not
      run backwards and decide timeouts as exact ones do ([Clock.v]); spin loops
      restore the priority of their thread ([SpinWait.v]).
    - Behaviour that deviates from the intent, as theorems: the data races of a
      ring buffer whose producer loads the tail relaxed and of a thread that
      enters the lock by [try_lock], compaction with
      indices out of order, a second [TAMPI_Init], a capacity of zero, a
      maximum polling period below 10 microseconds, two sends of a task that
      changes its CPU between them, ranges that end at the
      largest integer, [MPI_Alltoallw] without task-awareness.

    ** Bounds and fuel

    Loops are structural where they can be.  [check_loop] has one unit of fuel
    more than twice the queued operations plus the requests in flight, since
    each iteration but the last issues or finishes one; [check_queues] has one
    more than the available capacity; [check_batches] one per pending request;
    the loops of the ring buffers one per element or queue, or two per queue for
    the block policy, which needs one to move on.  [poll_terminates]
    and [multi_pop_fifo] show that it is enough; with other threads pushing, a
    poll makes at most 5 steps, 7 for each unit of that work, and 14 for each
    push.  The range loop of
    [parseIndices] takes its fuel as an argument, because it may not end.
    Counters of 64 bits wrap; the lock is proved for runs of fewer than 2^64
    instructions.  Capacities are those of the code.  The options of the build
    ([Build] in [Prelude.v]: the largest number of CPUs and the two modes) are
    parameters.

    ** What is not modelled

    Memory orders beyond those of a ring buffer and of the lock: in the runs of
    the whole library a push, a pop and a test act atomically.  A poll does not:
    other threads run between its parts ([step_part] in [System.v], [poll_run] in
    [Interleaving.v]), which are a batch taken from a pre-queue and issued, a
    check of the requests in flight, and the evaluation of the capacity.  Of the
    functions that [ALPI.hpp] documents, those that the library does not call
    ([alpi_info_get] and the ones about attributes) are prototypes only.  Floating-point
    parts of messages that are not finite; the tests.  MPI, Boost, ovni, the
    linker and the system calls that map memory are not part of the repository:
    they are parameters with their documented laws.  So is the tasking runtime,
    except in [Alpi.v], [RuntimeStart.v] and [PollingTask.v], where the
    documentation in [ALPI.hpp] is the runtime. *)

From Stdlib Require Export ZArith Lia.
From stdpp Require Export base list gmap strings option sorting.

(** ** Outcomes of C++ code *)

(** The result of running a piece of the library.  [Ok] is a normal return;
    [Fail] is [ErrorHandler::fail], which prints its message and ends the
    process; [Undef] is a state the code must never reach: a violated
    [assert], a read of memory that was never written, or a null dereference. *)
Inductive outcome (A : Type) : Type :=
| Ok (a : A)
| Fail (msg : string)
| Undef (why : string).

Arguments Ok {_} _.
Arguments Fail {_} _.
Arguments Undef {_} _.

#[global] Instance outcome_ret : MRet outcome := @Ok.

#[global] Instance outcome_bind : MBind outcome := λ A B f m,
  match m with
  | Ok a => f a
  | Fail s => Fail s
  | Undef s => Undef s
  end.

#[global] Instance outcome_fmap : FMap outcome := λ A B f m,
  match m with
  | Ok a => Ok (f a)
  | Fail s => Fail s
  | Undef s => Undef s
  end.

#[global] Instance outcome_eq_dec `{EqDecision A} : EqDecision (outcome A).
Proof. solve_decision. Defined.

(** [assert(b)] of a debug build. *)
Definition assert (b : bool) (why : string) : outcome unit :=
  if b then Ok tt else Undef why.

(** [if (b) ErrorHandler::fail(msg)]. *)
Definition fail_if (b : bool) (msg : string) : outcome unit :=
  if b then Fail msg else Ok tt.

(** Reading a cell that may never have been initialised. *)
Definition read {A} (o : option A) (why : string) : outcome A :=
  match o with
  | Some a => Ok a
  | None => Undef why
  end.

Definition is_ok {A} (m : outcome A) : bool :=
  match m with Ok _ => true | _ => false end.

(** ** The build *)

(** What is fixed when the library is built: the largest number of CPUs
    (MAX_SYSTEM_CPUS, which configure sets to the CPUs of the machine or to
    --with-max-cpus), and whether a mode is left out (--disable-blocking-mode,
    --disable-nonblocking-mode). *)
Class Build := {
  MaxSystemCPUs : nat;
  DISABLE_BLOCKING_MODE : bool;
  DISABLE_NONBLOCKING_MODE : bool;
}.

(** Both modes, and the number of CPUs of a build that defines none. *)
Definition default_build : Build :=
  {| MaxSystemCPUs := 64; DISABLE_BLOCKING_MODE := false; DISABLE_NONBLOCKING_MODE := false |}.

(** ** Machine integers *)

(** [uint64_t] and [size_t] arithmetic is modulo 2^64. *)
Definition u64_modulus : Z := 2 ^ 64.
Definition u64 (z : Z) : Z := z `mod` u64_modulus.
Definition is_u64 (z : Z) : Prop := (0 ≤ z < u64_modulus)%Z.

Lemma u64_small z : is_u64 z → u64 z = z.
Proof. intros. by apply Z.mod_small. Qed.

Lemma u64_is_u64 z : is_u64 (u64 z).
Proof. apply Z.mod_pos_bound. done. Qed.

Lemma u64_add_l a b : u64 (u64 a + b) = u64 (a + b).
Proof. unfold u64. by rewrite Zplus_mod_idemp_l. Qed.

(** ** The outcome monad *)

Section outcome_lemmas.
Context {A B : Type}.
Implicit Types (m : outcome A) (f : A → outcome B).

Lemma bind_Ok m f b : m ≫= f = Ok b ↔ ∃ a, m = Ok a ∧ f a = Ok b.
Proof.
  destruct m as [a| |]; simpl; split.
  - intros. by exists a.
  - by intros (? & [= ->] & ?).
  - done.
  - by intros (? & ? & ?).
  - done.
  - by intros (? & ? & ?).
Qed.

Lemma bind_Ok_eq m f a : m = Ok a → m ≫= f = f a.
Proof. by intros ->. Qed.

Lemma assert_Ok b why u : assert b why = Ok u ↔ b = true.
Proof. destruct b, u; naive_solver. Qed.

Lemma fail_if_Ok b msg u : fail_if b msg = Ok u ↔ b = false.
Proof. destruct b, u; naive_solver. Qed.

Lemma read_Ok (o : option A) why a : read o why = Ok a ↔ o = Some a.
Proof. destruct o; naive_solver. Qed.
End outcome_lemmas.

(** [ok_inv H] decomposes a hypothesis [H : m ≫= f = Ok b] into its steps. *)
Ltac ok_step H :=
  lazymatch type of H with
  | _ ≫= _ = Ok _ =>
      let a := fresh "a" in let H1 := fresh "Hok" in
      apply bind_Ok in H as (a & H1 & H); ok_step H1; ok_step H
  | assert _ _ = Ok _ => apply assert_Ok in H
  | fail_if _ _ = Ok _ => apply fail_if_Ok in H
  | read _ _ = Ok _ => apply read_Ok in H
  | Ok _ = Ok _ => simplify_eq H
  | mret _ = Ok _ => unfold mret, outcome_ret in H; simplify_eq H
  | _ => idtac
  end.
Ltac ok_inv H := ok_step H; simplify_eq/=.

(** ** Arrays as finite maps

    A C array whose cells may be uninitialised is a [gmap nat A]; [slice]
    reads [n] consecutive cells, [store] overwrites consecutive cells. *)

Definition slice {A} (m : gmap nat A) (start n : nat) : option (list A) :=
  mapM (λ i, m !! i) (seq start n).

Definition store {A} (start : nat) (l : list A) (m : gmap nat A) : gmap nat A :=
  map_seq start l ∪ m.

Section arrays.
Context {A : Type}.
Implicit Types (m : gmap nat A) (l : list A).

Lemma lookup_store start l m i :
  store start l m !! i =
    if decide (start ≤ i < start + length l) then l !! (i - start) else m !! i.
Proof.
  unfold store. case_decide as Hi.
  - destruct (lookup_lt_is_Some_2 l (i - start)) as [x Hx]; [lia|].
    rewrite Hx. apply lookup_union_Some_l. rewrite lookup_map_seq_Some.
    split; [lia|done].
  - rewrite lookup_union_r; [done|]. rewrite lookup_map_seq_None. lia.
Qed.

Lemma store_nil start m : store start [] m = m.
Proof. unfold store; simpl. by rewrite (left_id_L ∅ (∪)). Qed.

Lemma slice_Some m start n l :
  slice m start n = Some l ↔
  length l = n ∧ ∀ i, i < n → m !! (start + i) = l !! i.
Proof.
  unfold slice. rewrite mapM_Some. split.
  - intros H. pose proof (Forall2_length _ _ _ H) as Hlen.
    rewrite length_seq in Hlen. split; [done|]. intros i Hi.
    destruct (lookup_lt_is_Some_2 l i) as [x Hx]; [lia|].
    rewrite Hx. eapply (Forall2_lookup_lr (λ i y, m !! i = Some y)); [done| |done].
    by apply lookup_seq_lt.
  - intros [Hlen H]. apply Forall2_same_length_lookup_2.
    { by rewrite length_seq. }
    intros i x y [-> Hi]%lookup_seq Hy. by rewrite H.
Qed.

Lemma slice_length m start n l : slice m start n = Some l → length l = n.
Proof. intros [? _]%slice_Some. done. Qed.

Lemma slice_lookup m start n l i :
  slice m start n = Some l → i < n → m !! (start + i) = l !! i.
Proof. intros [_ H]%slice_Some. auto. Qed.

Lemma slice_is_Some m start n :
  (∀ i, start ≤ i < start + n → is_Some (m !! i)) → is_Some (slice m start n).
Proof.
  intros H. unfold slice. apply mapM_is_Some, Forall_forall.
  intros i Hi%elem_of_seq. apply H. lia.
Qed.

Lemma slice_ext m1 m2 start n :
  (∀ i, start ≤ i < start + n → m1 !! i = m2 !! i) →
  slice m1 start n = slice m2 start n.
Proof.
  intros H. unfold slice. assert (Forall (λ i, m1 !! i = m2 !! i) (seq start n)) as HF.
  { apply Forall_forall. intros i Hi%elem_of_seq. apply H. lia. }
  induction HF as [|i ks Hi _ IH]; [done|]. simpl. by rewrite Hi, IH.
Qed.

Lemma slice_app m start n1 n2 l1 l2 :
  slice m start n1 = Some l1 → slice m (start + n1) n2 = Some l2 →
  slice m start (n1 + n2) = Some (l1 ++ l2).
Proof.
  intros [Hl1 H1]%slice_Some [Hl2 H2]%slice_Some. apply slice_Some.
  rewrite length_app. split; [lia|]. intros i Hi.
  destruct (decide (i < n1)).
  - rewrite lookup_app_l by lia. auto.
  - rewrite lookup_app_r by lia. rewrite Hl1, <-H2 by lia. f_equal. lia.
Qed.
End arrays.

(** ** Cyclic positions *)

Lemma mod_wrap a c :
  0 < c → a < 2 * c → a `mod` c = if decide (a < c) then a else a - c.
Proof.
  intros Hc Ha. case_decide.
  - by apply Nat.mod_small.
  - symmetry. apply (Nat.mod_unique a c 1); lia.
Qed.

Lemma mod_lt a c : 0 < c → a `mod` c < c.
Proof. intros. apply Nat.mod_upper_bound. lia. Qed.

(** The positions visited by a loop that starts at [q] and advances modulo [n]. *)
Definition cycle (q n m : nat) : list nat := (λ i, (q + i) `mod` n) <$> seq 0 m.

Lemma elem_of_cycle q n k : q < n → k ∈ cycle q n n ↔ k < n.
Proof.
  intros Hq. unfold cycle. rewrite list_elem_of_fmap. split.
  - intros (i & -> & _). apply mod_lt. lia.
  - intros Hk. destruct (decide (q ≤ k)).
    + exists (k - q). rewrite elem_of_seq, mod_wrap by lia. case_decide; lia.
    + exists (k + n - q). rewrite elem_of_seq, mod_wrap by lia. case_decide; lia.
Qed.

Lemma NoDup_cycle q n m : q < n → m ≤ n → NoDup (cycle q n m).
Proof.
  intros Hq Hm. unfold cycle. apply NoDup_fmap_2_strong; [|apply NoDup_seq].
  intros i j Hi%elem_of_seq Hj%elem_of_seq. rewrite !mod_wrap by lia.
  repeat case_decide; lia.
Qed.

Lemma cycle_Permutation q n : q < n → cycle q n n ≡ₚ seq 0 n.
Proof.
  intros Hq. apply NoDup_Permutation; [by apply NoDup_cycle|apply NoDup_seq|].
  intros k. rewrite elem_of_cycle, elem_of_seq by done. lia.
Qed.

Lemma cycle_S q n m : q < n → cycle q n (S m) = q :: cycle ((q + 1) `mod` n) n m.
Proof.
  intros Hq. unfold cycle. simpl. f_equal.
  - rewrite Nat.add_0_r. by apply Nat.mod_small.
  - rewrite <-fmap_S_seq, <-list_fmap_compose. apply list_fmap_ext.
    intros i j _. simpl. rewrite Nat.Div0.add_mod_idemp_l. f_equal. lia.
Qed.

(** ** Sums *)

Lemma sum_list_fmap_add {A} (f g : A → nat) l :
  sum_list_with (λ x, f x + g x) l = sum_list_with f l + sum_list_with g l.
Proof. induction l; simpl; lia. Qed.

Lemma sum_list_with_ext {A} (f g : A → nat) l :
  (∀ x, x ∈ l → f x = g x) → sum_list_with f l = sum_list_with g l.
Proof.
  induction l as [|x l IH]; intros H; [done|]. simpl. f_equal; [apply H; set_solver|].
  apply IH. set_solver.
Qed.

Lemma sum_list_with_0 {A} (f : A → nat) l x :
  sum_list_with f l = 0 → x ∈ l → f x = 0.
Proof. induction l; [set_solver|]. simpl. intros ? [->|?]%elem_of_cons; [lia|]. apply IHl; [lia|done]. Qed.

Lemma sum_list_with_le {A} (f g : A → nat) l :
  (∀ x, x ∈ l → f x ≤ g x) → sum_list_with f l ≤ sum_list_with g l.
Proof.
  induction l as [|x l IH]; intros H; [done|]. simpl.
  assert (f x ≤ g x) by (apply H; set_solver).
  assert (sum_list_with f l ≤ sum_list_with g l) by (apply IH; set_solver). lia.
Qed.

Lemma sum_list_with_perm {A} (f : A → nat) l1 l2 :
  l1 ≡ₚ l2 → sum_list_with f l1 = sum_list_with f l2.
Proof. induction 1; simpl; lia. Qed.

(** The sum of a list, read through total lookups. *)
Definition sum_upto (f : nat → nat) (n : nat) : nat := sum_list_with f (seq 0 n).

Lemma sum_upto_insert (l : list nat) k x n :
  length l = n → k < n →
  sum_upto (λ i, <[k:=x]> l !!! i) n + l !!! k = sum_upto (λ i, l !!! i) n + x.
Proof.
  intros Hl Hk. unfold sum_upto.
  assert (seq 0 n ≡ₚ k :: filter (λ i, i ≠ k) (seq 0 n)) as Hp.
  { apply NoDup_Permutation; [apply NoDup_seq| |].
    - constructor; [rewrite list_elem_of_filter; naive_solver|]. apply NoDup_filter, NoDup_seq.
    - intros i. rewrite elem_of_cons, list_elem_of_filter, !elem_of_seq.
      destruct (decide (i = k)); naive_solver lia. }
  rewrite !(sum_list_with_perm _ _ _ Hp). simpl.
  rewrite list_lookup_total_insert_eq by lia.
  rewrite (sum_list_with_ext (λ i, <[k:=x]> l !!! i) (λ i, l !!! i)); [lia|].
  intros i [? _]%list_elem_of_filter. by apply list_lookup_total_insert_ne.
Qed.

Lemma concat_Permutation_split {A B} (f g : B → list A) (l : list B) :
  mjoin ((λ k, f k ++ g k) <$> l) ≡ₚ mjoin (f <$> l) ++ mjoin (g <$> l).
Proof.
  induction l as [|k l IH]; [done|]. simpl. rewrite IH.
  rewrite <-!app_assoc. apply Permutation_app_head.
  rewrite !app_assoc. apply Permutation_app_tail, Permutation_app_comm.
Qed.

(** Replacing one component of a list of lists. *)
Lemma mjoin_fmap_split {A B} (f : B → list A) (l : list B) i x :
  l !! i = Some x →
  ∃ rest, mjoin (f <$> l) ≡ₚ f x ++ rest ∧ ∀ y, mjoin (f <$> <[i:=y]> l) ≡ₚ f y ++ rest.
Proof.
  intros Hi. exists (mjoin (f <$> take i l) ++ mjoin (f <$> drop (S i) l)). split.
  - rewrite <-(take_drop_middle l i x Hi) at 1. rewrite fmap_app, join_app. csimpl.
    apply Permutation_app_swap_app.
  - intros y. rewrite insert_take_drop by (by eapply lookup_lt_Some).
    rewrite fmap_app, join_app. csimpl. apply Permutation_app_swap_app.
Qed.

Lemma sum_list_with_bound {A} (f : A → nat) l B :
  Forall (λ x, f x ≤ B) l → sum_list_with f l ≤ length l * B.
Proof. induction 1; simpl; lia. Qed.

(** One component that contributes nothing leaves one bound unused. *)
Lemma sum_list_with_bound_hole {A} (f : A → nat) l B i x :
  Forall (λ x, f x ≤ B) l → l !! i = Some x → f x = 0 →
  sum_list_with f l ≤ (length l - 1) * B.
Proof.
  intros HF Hi Hx. rewrite <-(take_drop_middle l i x Hi) in HF |- *.
  apply Forall_app in HF as [HF1 [_ HF2]%Forall_cons].
  apply sum_list_with_bound in HF1, HF2.
  rewrite sum_list_with_app, length_app. simpl. nia.
Qed.

Lemma length_mjoin_fmap {A B} (f : B → list A) l :
  length (mjoin (f <$> l)) = sum_list_with (λ x, length (f x)) l.
Proof. induction l; [done|]. csimpl. rewrite length_app. lia. Qed.

(** ** Partial maps over lists and ascending lists *)

Lemma omap_length_Some {A B} (f : A → option B) (l : list A) :
  (∀ x, x ∈ l → is_Some (f x)) → length (omap f l) = length l.
Proof.
  induction l as [|x l IH]; intros H; [done|]. csimpl.
  destruct (H x) as [y ->]; [set_solver|]. simpl. f_equal. apply IH. set_solver.
Qed.

Lemma length_omap_le {A B} (f : A → option B) (l : list A) : length (omap f l) ≤ length l.
Proof. induction l as [|x l IH]; [done|]. csimpl. destruct (f x); simpl; lia. Qed.

Lemma omap_ext {A B} (f g : A → option B) (l : list A) :
  (∀ x, x ∈ l → f x = g x) → omap f l = omap g l.
Proof.
  induction l as [|x l IH]; intros H; [done|]. csimpl.
  rewrite H, IH by set_solver. done.
Qed.

(** A partial map over a list, by positions. *)
Lemma omap_seq {A B} (f : A → option B) (l : list A) :
  omap f l = omap (λ j, l !! j ≫= f) (seq 0 (length l)).
Proof.
  induction l as [|x l IH] using rev_ind; [done|].
  rewrite length_app, Nat.add_1_r, seq_S, !omap_app, IH. f_equal.
  - apply omap_ext. intros j Hj%elem_of_seq. by rewrite lookup_app_l by lia.
  - csimpl. by rewrite lookup_app_r, Nat.sub_diag by lia.
Qed.

Lemma omap_filter {A B} (P : A → Prop) `{∀ x, Decision (P x)} (f g : A → option B) (l : list A) :
  (∀ x, x ∈ l → f x = if decide (P x) then g x else None) → omap f l = omap g (filter P l).
Proof.
  induction l as [|x l IH]; intros Hf; [done|]. csimpl. rewrite filter_cons, Hf by set_solver.
  rewrite IH by set_solver. by case_decide.
Qed.

Lemma omap_fmap_Some {A B} (f : A → option B) (l : list A) (k : list B) :
  Forall2 (λ x y, f x = Some y) l k → omap f l = k.
Proof. induction 1 as [|x y l k Hx _ IH]; [done|]. csimpl. by rewrite Hx, IH. Qed.

(** An enumeration splits into a sub-list and the rest. *)
Lemma seq_filter_split n (l : list nat) :
  NoDup l → Forall (λ i, i < n) l → seq 0 n ≡ₚ filter (λ i, i ∉ l) (seq 0 n) ++ l.
Proof.
  intros Hnd Hr. rewrite Forall_forall in Hr. apply NoDup_Permutation.
  - apply NoDup_seq.
  - apply NoDup_app. split_and!; [apply NoDup_filter, NoDup_seq| |done].
    by intros x [Hx _]%list_elem_of_filter.
  - intros x. rewrite elem_of_app, list_elem_of_filter, elem_of_seq.
    destruct (decide (x ∈ l)); naive_solver lia.
Qed.

Lemma StronglySorted_lookup_lt (l : list nat) i j x y :
  StronglySorted lt l → i < j → l !! i = Some x → l !! j = Some y → x < y.
Proof.
  intros Hs. revert i j. induction Hs as [|z l Hs IH Hz]; intros i j Hij Hi Hj; [done|].
  destruct j as [|j]; [lia|]. destruct i as [|i]; simpl in *.
  - simplify_eq. rewrite Forall_forall in Hz. apply Hz. by eapply list_elem_of_lookup_2.
  - by eapply (IH i j); [lia|..].
Qed.

Lemma StronglySorted_NoDup_lt (l : list nat) : StronglySorted lt l → NoDup l.
Proof.
  induction 1 as [|x l _ IH Hx]; constructor; [|done].
  intros Hin. rewrite Forall_forall in Hx. specialize (Hx x Hin). lia.
Qed.

Lemma sorted_length (l : list nat) n :
  StronglySorted lt l → Forall (λ i, i < n) l → length l ≤ n.
Proof.
  intros Hs%StronglySorted_NoDup_lt Hf. rewrite <-(length_seq n 0). apply submseteq_length, NoDup_submseteq; [done|].
  intros x Hx. rewrite Forall_forall in Hf. apply elem_of_seq. specialize (Hf x Hx). lia.
Qed.

Lemma StronglySorted_snoc (l : list nat) x :
  StronglySorted lt l → Forall (λ y, y < x) l → StronglySorted lt (l ++ [x]).
Proof.
  induction 1 as [|y l Hs IH Hy]; intros Hlt; simpl.
  { repeat constructor. }
  apply Forall_cons in Hlt as [Hyx Hlt]. constructor; [by apply IH|].
  apply Forall_app. by repeat constructor.
Qed.

(** ** Postconditions

    [post F Φ m]: running [m] reaches no undefined state; if it returns, its
    result satisfies [Φ]; and it may stop with [ErrorHandler::fail] only if [F]
    holds.  [post False] is total correctness, [post True] allows failures. *)
Definition post {A} (F : Prop) (Φ : A → Prop) (m : outcome A) : Prop :=
  match m with
  | Ok a => Φ a
  | Fail _ => F
  | Undef _ => False
  end.

Section post.
Context {A B : Type} (F : Prop).
Implicit Types (m : outcome A).

Lemma post_bind (Φ : A → Prop) (Ψ : B → Prop) m (f : A → outcome B) :
  post F Φ m → (∀ a, m = Ok a → Φ a → post F Ψ (f a)) → post F Ψ (m ≫= f).
Proof. destruct m; simpl; auto. Qed.

Lemma post_mono (Φ Ψ : A → Prop) m : post F Φ m → (∀ a, Φ a → Ψ a) → post F Ψ m.
Proof. destruct m; simpl; auto. Qed.

Lemma post_weaken (G : Prop) (Φ : A → Prop) m : (F → G) → post F Φ m → post G Φ m.
Proof. destruct m; simpl; auto. Qed.

Lemma post_Ok (Φ : A → Prop) m a : post F Φ m → m = Ok a → Φ a.
Proof. by intros H ->. Qed.

Lemma post_False_Ok (Φ : A → Prop) m : post False Φ m → ∃ a, m = Ok a ∧ Φ a.
Proof. destruct m; simpl; naive_solver. Qed.

Lemma post_assert (b : bool) why (f : unit → outcome B) (Ψ : B → Prop) :
  b = true → post F Ψ (f tt) → post F Ψ (assert b why ≫= f).
Proof. by intros ->. Qed.

Lemma post_fail_if (b : bool) msg (f : unit → outcome B) (Ψ : B → Prop) :
  (b = true → F) → (b = false → post F Ψ (f tt)) → post F Ψ (fail_if b msg ≫= f).
Proof. destruct b; simpl; auto. Qed.

Lemma post_read (o : option A) a why (f : A → outcome B) (Ψ : B → Prop) :
  o = Some a → post F Ψ (f a) → post F Ψ (read o why ≫= f).
Proof. by intros ->. Qed.
End post.

Create HintDb tampi.
#[export] Hint Resolve mod_lt u64_is_u64 : tampi.
