(* ===== verification/Prototypes.v ===== *)
(** * Prototypes of the MPI functions

    The tables of [src/src/common/Declarations.hpp]: the type of every MPI
    function that the library calls or intercepts, for C and for Fortran.  The
    wrappers hand the arguments of a blocking operation to its non-blocking
    counterpart, and a Fortran function takes what its C counterpart takes, by
    reference and with the error code as its last argument; the theorems check
    the tables against that.  The functions of the tasking runtime
    ([src/src/common/ALPI.hpp]) follow. *)

From S2P Require Import Prelude.

(** The types that occur. *)
Inductive ctype :=
| Void | Int | IntPtr | IntArr | ConstIntArr | VoidPtr | ConstVoidPtr | CharPtr
| Datatype | ConstDatatypeArr | Op | Comm | RequestPtr | RequestArr | StatusPtr | StatusArr
| FintPtr | FintArr
| ConstCharPtr | CharBuf | SizeT | U64 | U64Ptr | TaskPtr | TaskPtrPtr | AttrPtr | AttrPtrPtr
| ConstAttrPtr | Callback | InfoEnum | ErrorEnum | SuspendEnum.

#[global] Instance ctype_eq_dec : EqDecision ctype.
Proof. solve_decision. Defined.

(** [SymbolDecl<Ret, Params...>] *)
Record prototype := mkPrototype { ReturnTy : ctype; Params : list ctype }.

#[global] Instance prototype_eq_dec : EqDecision prototype.
Proof. solve_decision. Defined.

Definition Prototypes_C : list (string * prototype) :=
  [("mpi_finalize", mkPrototype Int []);
   ("mpi_init", mkPrototype Int [IntPtr; CharPtr]);
   ("mpi_init_thread", mkPrototype Int [IntPtr; CharPtr; Int; IntPtr]);
   ("mpi_comm_rank", mkPrototype Int [Comm; IntPtr]);
   ("mpi_comm_size", mkPrototype Int [Comm; IntPtr]);
   ("mpi_query_thread", mkPrototype Int [IntPtr]);
   ("mpi_test", mkPrototype Int [RequestPtr; IntPtr; StatusPtr]);
   ("mpi_testall", mkPrototype Int [Int; RequestArr; IntPtr; StatusArr]);
   ("mpi_testany", mkPrototype Int [Int; RequestArr; IntPtr; IntPtr; StatusPtr]);
   ("mpi_testsome", mkPrototype Int [Int; RequestArr; IntPtr; IntArr; StatusArr]);
   ("mpi_wait", mkPrototype Int [RequestPtr; StatusPtr]);
   ("mpi_waitall", mkPrototype Int [Int; RequestArr; StatusArr]);
   ("mpi_bsend", mkPrototype Int [ConstVoidPtr; Int; Datatype; Int; Int; Comm]);
   ("mpi_recv", mkPrototype Int [VoidPtr; Int; Datatype; Int; Int; Comm; StatusPtr]);
   ("mpi_rsend", mkPrototype Int [ConstVoidPtr; Int; Datatype; Int; Int; Comm]);
   ("mpi_sendrecv", mkPrototype Int [ConstVoidPtr; Int; Datatype; Int; Int; VoidPtr; Int;
     Datatype; Int; Int; Comm; StatusPtr]);
   ("mpi_sendrecv_replace", mkPrototype Int [VoidPtr; Int; Datatype; Int; Int; Int; Int; Comm;
     StatusPtr]);
   ("mpi_ssend", mkPrototype Int [ConstVoidPtr; Int; Datatype; Int; Int; Comm]);
   ("mpi_send", mkPrototype Int [ConstVoidPtr; Int; Datatype; Int; Int; Comm]);
   ("mpi_ibsend", mkPrototype Int [ConstVoidPtr; Int; Datatype; Int; Int; Comm; RequestPtr]);
   ("mpi_irecv", mkPrototype Int [VoidPtr; Int; Datatype; Int; Int; Comm; RequestPtr]);
   ("mpi_irsend", mkPrototype Int [ConstVoidPtr; Int; Datatype; Int; Int; Comm; RequestPtr]);
   ("mpi_issend", mkPrototype Int [ConstVoidPtr; Int; Datatype; Int; Int; Comm; RequestPtr]);
   ("mpi_isend", mkPrototype Int [ConstVoidPtr; Int; Datatype; Int; Int; Comm; RequestPtr]);
   ("mpi_allgather", mkPrototype Int [ConstVoidPtr; Int; Datatype; VoidPtr; Int; Datatype; Comm]);
   ("mpi_allgatherv", mkPrototype Int [ConstVoidPtr; Int; Datatype; VoidPtr; ConstIntArr;
     ConstIntArr; Datatype; Comm]);
   ("mpi_allreduce", mkPrototype Int [ConstVoidPtr; VoidPtr; Int; Datatype; Op; Comm]);
   ("mpi_alltoall", mkPrototype Int [ConstVoidPtr; Int; Datatype; VoidPtr; Int; Datatype; Comm]);
   ("mpi_alltoallv", mkPrototype Int [ConstVoidPtr; ConstIntArr; ConstIntArr; Datatype; VoidPtr;
     ConstIntArr; ConstIntArr; Datatype; Comm]);
   ("mpi_alltoallw", mkPrototype Int [ConstVoidPtr; ConstIntArr; ConstIntArr; ConstDatatypeArr;
     VoidPtr; ConstIntArr; ConstIntArr; ConstDatatypeArr; Comm]);
   ("mpi_barrier", mkPrototype Int [Comm]);
   ("mpi_bcast", mkPrototype Int [VoidPtr; Int; Datatype; Int; Comm]);
   ("mpi_gather", mkPrototype Int [ConstVoidPtr; Int; Datatype; VoidPtr; Int; Datatype; Int;
     Comm]);
   ("mpi_gatherv", mkPrototype Int [ConstVoidPtr; Int; Datatype; VoidPtr; ConstIntArr;
     ConstIntArr; Datatype; Int; Comm]);
   ("mpi_reduce", mkPrototype Int [ConstVoidPtr; VoidPtr; Int; Datatype; Op; Int; Comm]);
   ("mpi_reduce_scatter", mkPrototype Int [ConstVoidPtr; VoidPtr; ConstIntArr; Datatype; Op;
     Comm]);
   ("mpi_reduce_scatter_block", mkPrototype Int [ConstVoidPtr; VoidPtr; Int; Datatype; Op; Comm]);
   ("mpi_scatter", mkPrototype Int [ConstVoidPtr; Int; Datatype; VoidPtr; Int; Datatype; Int;
     Comm]);
   ("mpi_scatterv", mkPrototype Int [ConstVoidPtr; ConstIntArr; ConstIntArr; Datatype; VoidPtr;
     Int; Datatype; Int; Comm]);
   ("mpi_scan", mkPrototype Int [ConstVoidPtr; VoidPtr; Int; Datatype; Op; Comm]);
   ("mpi_exscan", mkPrototype Int [ConstVoidPtr; VoidPtr; Int; Datatype; Op; Comm]);
   ("mpi_iallgather", mkPrototype Int [ConstVoidPtr; Int; Datatype; VoidPtr; Int; Datatype;
     Comm; RequestPtr]);
   ("mpi_iallgatherv", mkPrototype Int [ConstVoidPtr; Int; Datatype; VoidPtr; ConstIntArr;
     ConstIntArr; Datatype; Comm; RequestPtr]);
   ("mpi_iallreduce", mkPrototype Int [ConstVoidPtr; VoidPtr; Int; Datatype; Op; Comm;
     RequestPtr]);
   ("mpi_ialltoall", mkPrototype Int [ConstVoidPtr; Int; Datatype; VoidPtr; Int; Datatype; Comm;
     RequestPtr]);
   ("mpi_ialltoallv", mkPrototype Int [ConstVoidPtr; ConstIntArr; ConstIntArr; Datatype;
     VoidPtr; ConstIntArr; ConstIntArr; Datatype; Comm; RequestPtr]);
   ("mpi_ialltoallw", mkPrototype Int [ConstVoidPtr; ConstIntArr; ConstIntArr; ConstDatatypeArr;
     VoidPtr; ConstIntArr; ConstIntArr; ConstDatatypeArr; Comm; RequestPtr]);
   ("mpi_ibarrier", mkPrototype Int [Comm; RequestPtr]);
   ("mpi_ibcast", mkPrototype Int [VoidPtr; Int; Datatype; Int; Comm; RequestPtr]);
   ("mpi_igather", mkPrototype Int [ConstVoidPtr; Int; Datatype; VoidPtr; Int; Datatype; Int;
     Comm; RequestPtr]);
   ("mpi_igatherv", mkPrototype Int [ConstVoidPtr; Int; Datatype; VoidPtr; ConstIntArr;
     ConstIntArr; Datatype; Int; Comm; RequestPtr]);
   ("mpi_ireduce", mkPrototype Int [ConstVoidPtr; VoidPtr; Int; Datatype; Op; Int; Comm;
     RequestPtr]);
   ("mpi_ireduce_scatter", mkPrototype Int [ConstVoidPtr; VoidPtr; ConstIntArr; Datatype; Op;
     Comm; RequestPtr]);
   ("mpi_ireduce_scatter_block", mkPrototype Int [ConstVoidPtr; VoidPtr; Int; Datatype; Op;
     Comm; RequestPtr]);
   ("mpi_iscatter", mkPrototype Int [ConstVoidPtr; Int; Datatype; VoidPtr; Int; Datatype; Int;
     Comm; RequestPtr]);
   ("mpi_iscatterv", mkPrototype Int [ConstVoidPtr; ConstIntArr; ConstIntArr; Datatype; VoidPtr;
     Int; Datatype; Int; Comm; RequestPtr]);
   ("mpi_iscan", mkPrototype Int [ConstVoidPtr; VoidPtr; Int; Datatype; Op; Comm; RequestPtr]);
   ("mpi_iexscan", mkPrototype Int [ConstVoidPtr; VoidPtr; Int; Datatype; Op; Comm; RequestPtr])]%string.

Definition Prototypes_Fortran : list (string * prototype) :=
  [("mpi_finalize", mkPrototype Void [FintPtr]);
   ("mpi_init", mkPrototype Void [FintPtr]);
   ("mpi_init_thread", mkPrototype Void [FintPtr; FintPtr; FintPtr]);
   ("mpi_comm_rank", mkPrototype Void [FintPtr; FintPtr; FintPtr]);
   ("mpi_comm_size", mkPrototype Void [FintPtr; FintPtr; FintPtr]);
   ("mpi_query_thread", mkPrototype Void [FintPtr; FintPtr]);
   ("mpi_test", mkPrototype Void [FintPtr; FintPtr; FintPtr; FintPtr]);
   ("mpi_testall", mkPrototype Void [FintPtr; FintArr; FintPtr; FintArr; FintPtr]);
   ("mpi_testany", mkPrototype Void [FintPtr; FintArr; FintPtr; FintPtr; FintPtr; FintPtr]);
   ("mpi_testsome", mkPrototype Void [FintPtr; FintArr; FintPtr; FintArr; FintArr; FintPtr]);
   ("mpi_wait", mkPrototype Void [FintPtr; FintPtr; FintPtr]);
   ("mpi_waitall", mkPrototype Void [FintPtr; FintArr; FintPtr; FintPtr]);
   ("mpi_bsend", mkPrototype Void [VoidPtr; FintPtr; FintPtr; FintPtr; FintPtr; FintPtr;
     FintPtr]);
   ("mpi_recv", mkPrototype Void [VoidPtr; FintPtr; FintPtr; FintPtr; FintPtr; FintPtr; FintPtr;
     FintPtr]);
   ("mpi_rsend", mkPrototype Void [VoidPtr; FintPtr; FintPtr; FintPtr; FintPtr; FintPtr;
     FintPtr]);
   ("mpi_send", mkPrototype Void [VoidPtr; FintPtr; FintPtr; FintPtr; FintPtr; FintPtr; FintPtr]);
   ("mpi_sendrecv", mkPrototype Void [VoidPtr; FintPtr; FintPtr; FintPtr; FintPtr; VoidPtr;
     FintPtr; FintPtr; FintPtr; FintPtr; FintPtr; FintPtr; FintPtr]);
   ("mpi_sendrecv_replace", mkPrototype Void [VoidPtr; FintPtr; FintPtr; FintPtr; FintPtr;
     FintPtr; FintPtr; FintPtr; FintPtr; FintPtr]);
   ("mpi_ssend", mkPrototype Void [VoidPtr; FintPtr; FintPtr; FintPtr; FintPtr; FintPtr;
     FintPtr]);
   ("mpi_ibsend", mkPrototype Void [VoidPtr; FintPtr; FintPtr; FintPtr; FintPtr; FintPtr;
     FintPtr; FintPtr]);
   ("mpi_irecv", mkPrototype Void [VoidPtr; FintPtr; FintPtr; FintPtr; FintPtr; FintPtr;
     FintPtr; FintPtr]);
   ("mpi_irsend", mkPrototype Void [VoidPtr; FintPtr; FintPtr; FintPtr; FintPtr; FintPtr;
     FintPtr; FintPtr]);
   ("mpi_isend", mkPrototype Void [VoidPtr; FintPtr; FintPtr; FintPtr; FintPtr; FintPtr;
     FintPtr; FintPtr]);
   ("mpi_issend", mkPrototype Void [VoidPtr; FintPtr; FintPtr; FintPtr; FintPtr; FintPtr;
     FintPtr; FintPtr]);
   ("mpi_allgather", mkPrototype Void [VoidPtr; FintPtr; FintPtr; VoidPtr; FintPtr; FintPtr;
     FintPtr; FintPtr]);
   ("mpi_allgatherv", mkPrototype Void [VoidPtr; FintPtr; FintPtr; VoidPtr; FintArr; FintArr;
     FintPtr; FintPtr; FintPtr]);
   ("mpi_allreduce", mkPrototype Void [VoidPtr; VoidPtr; FintPtr; FintPtr; FintPtr; FintPtr;
     FintPtr]);
   ("mpi_alltoall", mkPrototype Void [VoidPtr; FintPtr; FintPtr; VoidPtr; FintPtr; FintPtr;
     FintPtr; FintPtr]);
   ("mpi_alltoallv", mkPrototype Void [VoidPtr; FintArr; FintArr; FintPtr; VoidPtr; FintArr;
     FintArr; FintPtr; FintPtr; FintPtr]);
   ("mpi_alltoallw", mkPrototype Void [VoidPtr; FintArr; FintArr; FintArr; VoidPtr; FintArr;
     FintArr; FintArr; FintPtr; FintPtr]);
   ("mpi_barrier", mkPrototype Void [FintPtr; FintPtr]);
   ("mpi_bcast", mkPrototype Void [VoidPtr; FintPtr; FintPtr; FintPtr; FintPtr; FintPtr]);
   ("mpi_gather", mkPrototype Void [VoidPtr; FintPtr; FintPtr; VoidPtr; FintPtr; FintPtr;
     FintPtr; FintPtr; FintPtr]);
   ("mpi_gatherv", mkPrototype Void [VoidPtr; FintPtr; FintPtr; VoidPtr; FintArr; FintArr;
     FintPtr; FintPtr; FintPtr; FintPtr]);
   ("mpi_reduce", mkPrototype Void [VoidPtr; VoidPtr; FintPtr; FintPtr; FintPtr; FintPtr;
     FintPtr; FintPtr]);
   ("mpi_reduce_scatter", mkPrototype Void [VoidPtr; VoidPtr; FintArr; FintPtr; FintPtr;
     FintPtr; FintPtr]);
   ("mpi_reduce_scatter_block", mkPrototype Void [VoidPtr; VoidPtr; FintPtr; FintPtr; FintPtr;
     FintPtr; FintPtr]);
   ("mpi_scatter", mkPrototype Void [VoidPtr; FintPtr; FintPtr; VoidPtr; FintPtr; FintPtr;
     FintPtr; FintPtr; FintPtr]);
   ("mpi_scatterv", mkPrototype Void [VoidPtr; FintArr; FintArr; FintPtr; VoidPtr; FintPtr;
     FintPtr; FintPtr; FintPtr; FintPtr]);
   ("mpi_scan", mkPrototype Void [VoidPtr; VoidPtr; FintPtr; FintPtr; FintPtr; FintPtr; FintPtr]);
   ("mpi_exscan", mkPrototype Void [VoidPtr; VoidPtr; FintPtr; FintPtr; FintPtr; FintPtr;
     FintPtr]);
   ("mpi_iallgather", mkPrototype Void [VoidPtr; FintPtr; FintPtr; VoidPtr; FintPtr; FintPtr;
     FintPtr; FintPtr; FintPtr]);
   ("mpi_iallgatherv", mkPrototype Void [VoidPtr; FintPtr; FintPtr; VoidPtr; FintArr; FintArr;
     FintPtr; FintPtr; FintPtr; FintPtr]);
   ("mpi_iallreduce", mkPrototype Void [VoidPtr; VoidPtr; FintPtr; FintPtr; FintPtr; FintPtr;
     FintPtr; FintPtr]);
   ("mpi_ialltoall", mkPrototype Void [VoidPtr; FintPtr; FintPtr; VoidPtr; FintPtr; FintPtr;
     FintPtr; FintPtr; FintPtr]);
   ("mpi_ialltoallv", mkPrototype Void [VoidPtr; FintArr; FintArr; FintPtr; VoidPtr; FintArr;
     FintArr; FintPtr; FintPtr; FintPtr; FintPtr]);
   ("mpi_ialltoallw", mkPrototype Void [VoidPtr; FintArr; FintArr; FintArr; VoidPtr; FintArr;
     FintArr; FintArr; FintPtr; FintPtr; FintPtr]);
   ("mpi_ibarrier", mkPrototype Void [FintPtr; FintPtr; FintPtr]);
   ("mpi_ibcast", mkPrototype Void [VoidPtr; FintPtr; FintPtr; FintPtr; FintPtr; FintPtr;
     FintPtr]);
   ("mpi_igather", mkPrototype Void [VoidPtr; FintPtr; FintPtr; VoidPtr; FintPtr; FintPtr;
     FintPtr; FintPtr; FintPtr; FintPtr]);
   ("mpi_igatherv", mkPrototype Void [VoidPtr; FintPtr; FintPtr; VoidPtr; FintArr; FintArr;
     FintPtr; FintPtr; FintPtr; FintPtr; FintPtr]);
   ("mpi_ireduce", mkPrototype Void [VoidPtr; VoidPtr; FintPtr; FintPtr; FintPtr; FintPtr;
     FintPtr; FintPtr; FintPtr]);
   ("mpi_ireduce_scatter", mkPrototype Void [VoidPtr; VoidPtr; FintArr; FintPtr; FintPtr;
     FintPtr; FintPtr; FintPtr]);
   ("mpi_ireduce_scatter_block", mkPrototype Void [VoidPtr; VoidPtr; FintPtr; FintPtr; FintPtr;
     FintPtr; FintPtr; FintPtr]);
   ("mpi_iscatter", mkPrototype Void [VoidPtr; FintPtr; FintPtr; VoidPtr; FintPtr; FintPtr;
     FintPtr; FintPtr; FintPtr; FintPtr]);
   ("mpi_iscatterv", mkPrototype Void [VoidPtr; FintArr; FintArr; FintPtr; VoidPtr; FintPtr;
     FintPtr; FintPtr; FintPtr; FintPtr; FintPtr]);
   ("mpi_iscan", mkPrototype Void [VoidPtr; VoidPtr; FintPtr; FintPtr; FintPtr; FintPtr;
     FintPtr; FintPtr]);
   ("mpi_iexscan", mkPrototype Void [VoidPtr; VoidPtr; FintPtr; FintPtr; FintPtr; FintPtr;
     FintPtr; FintPtr])]%string.

(** The functions of [src/src/include/TAMPI_Wrappers.h], each under the name of the
    non-blocking MPI function that it makes task-aware: [TAMPI_Isend] is at
    [mpi_isend]. *)
Definition TAMPI_Prototypes : list (string * prototype) :=
  [("mpi_ibsend", mkPrototype Int [ConstVoidPtr; Int; Datatype; Int; Int; Comm]);
   ("mpi_irecv", mkPrototype Int [VoidPtr; Int; Datatype; Int; Int; Comm; StatusPtr]);
   ("mpi_irsend", mkPrototype Int [ConstVoidPtr; Int; Datatype; Int; Int; Comm]);
   ("mpi_isend", mkPrototype Int [ConstVoidPtr; Int; Datatype; Int; Int; Comm]);
   ("mpi_issend", mkPrototype Int [ConstVoidPtr; Int; Datatype; Int; Int; Comm]);
   ("mpi_iallgather", mkPrototype Int [ConstVoidPtr; Int; Datatype; VoidPtr; Int; Datatype; Comm]);
   ("mpi_iallgatherv", mkPrototype Int [ConstVoidPtr; Int; Datatype; VoidPtr; ConstIntArr;
     ConstIntArr; Datatype; Comm]);
   ("mpi_iallreduce", mkPrototype Int [ConstVoidPtr; VoidPtr; Int; Datatype; Op; Comm]);
   ("mpi_ialltoall", mkPrototype Int [ConstVoidPtr; Int; Datatype; VoidPtr; Int; Datatype; Comm]);
   ("mpi_ialltoallv", mkPrototype Int [ConstVoidPtr; ConstIntArr; ConstIntArr; Datatype; VoidPtr;
     ConstIntArr; ConstIntArr; Datatype; Comm]);
   ("mpi_ialltoallw", mkPrototype Int [ConstVoidPtr; ConstIntArr; ConstIntArr; ConstDatatypeArr;
     VoidPtr; ConstIntArr; ConstIntArr; ConstDatatypeArr; Comm]);
   ("mpi_ibarrier", mkPrototype Int [Comm]);
   ("mpi_ibcast", mkPrototype Int [VoidPtr; Int; Datatype; Int; Comm]);
   ("mpi_igather", mkPrototype Int [ConstVoidPtr; Int; Datatype; VoidPtr; Int; Datatype; Int;
     Comm]);
   ("mpi_igatherv", mkPrototype Int [ConstVoidPtr; Int; Datatype; VoidPtr; ConstIntArr;
     ConstIntArr; Datatype; Int; Comm]);
   ("mpi_ireduce", mkPrototype Int [ConstVoidPtr; VoidPtr; Int; Datatype; Op; Int; Comm]);
   ("mpi_ireduce_scatter", mkPrototype Int [ConstVoidPtr; VoidPtr; ConstIntArr; Datatype; Op;
     Comm]);
   ("mpi_ireduce_scatter_block", mkPrototype Int [ConstVoidPtr; VoidPtr; Int; Datatype; Op; Comm]);
   ("mpi_iscatter", mkPrototype Int [ConstVoidPtr; Int; Datatype; VoidPtr; Int; Datatype; Int;
     Comm]);
   ("mpi_iscatterv", mkPrototype Int [ConstVoidPtr; ConstIntArr; ConstIntArr; Datatype; VoidPtr;
     Int; Datatype; Int; Comm]);
   ("mpi_iscan", mkPrototype Int [ConstVoidPtr; VoidPtr; Int; Datatype; Op; Comm]);
   ("mpi_iexscan", mkPrototype Int [ConstVoidPtr; VoidPtr; Int; Datatype; Op; Comm])].

(** The prototype of a function. *)
Fixpoint find_prototype (name : string) (l : list (string * prototype)) : option prototype :=
  match l with
  | [] => None
  | (n, p) :: l => if decide (n = name) then Some p else find_prototype name l
  end.

(** ** Operations and their non-blocking counterparts *)

Definition operation_pairs : list (string * string) :=
  [("mpi_bsend", "mpi_ibsend"); ("mpi_recv", "mpi_irecv"); ("mpi_rsend", "mpi_irsend");
   ("mpi_ssend", "mpi_issend"); ("mpi_send", "mpi_isend");
   ("mpi_allgather", "mpi_iallgather"); ("mpi_allgatherv", "mpi_iallgatherv");
   ("mpi_allreduce", "mpi_iallreduce"); ("mpi_alltoall", "mpi_ialltoall");
   ("mpi_alltoallv", "mpi_ialltoallv"); ("mpi_alltoallw", "mpi_ialltoallw");
   ("mpi_barrier", "mpi_ibarrier"); ("mpi_bcast", "mpi_ibcast"); ("mpi_gather", "mpi_igather");
   ("mpi_gatherv", "mpi_igatherv"); ("mpi_reduce", "mpi_ireduce");
   ("mpi_reduce_scatter", "mpi_ireduce_scatter");
   ("mpi_reduce_scatter_block", "mpi_ireduce_scatter_block"); ("mpi_scatter", "mpi_iscatter");
   ("mpi_scatterv", "mpi_iscatterv"); ("mpi_scan", "mpi_iscan"); ("mpi_exscan", "mpi_iexscan")]%string.

(** A request instead of the status. *)
Definition make_nonblocking (p : prototype) : prototype :=
  mkPrototype (ReturnTy p) (filter (λ t, t ≠ StatusPtr) (Params p) ++ [RequestPtr]).

(** Passing by reference: buffers stay untyped, arrays stay arrays. *)
Definition to_fortran (t : ctype) : ctype :=
  match t with
  | VoidPtr | ConstVoidPtr => VoidPtr
  | IntArr | ConstIntArr | ConstDatatypeArr | RequestArr | StatusArr => FintArr
  | _ => FintPtr
  end.

Definition fortran_prototype (p : prototype) : prototype :=
  mkPrototype Void ((to_fortran <$> Params p) ++ [FintPtr]).

(** The Fortran functions that take other arguments: initialisation has no
    command line, and [MPI_Waitall] declares its statuses as a pointer. *)
Definition fortran_exceptions : list string :=
  ["mpi_init"; "mpi_init_thread"; "mpi_waitall"]%string.

(** The prototypes are consistent: each of the 22 operations that the library
    makes task-aware has a non-blocking counterpart that takes the same
    arguments in the same order, with a request instead of the status, if
    any, and a wrapper in the public header that takes what the blocking one
    takes; and each function has a Fortran prototype that takes the same
    arguments by reference and the error code. *)
Theorem prototypes_consistent :
  (∀ blocking nonblocking, (blocking, nonblocking) ∈ operation_pairs →
    ∃ p, find_prototype blocking Prototypes_C = Some p ∧
      find_prototype nonblocking Prototypes_C = Some (make_nonblocking p) ∧
      find_prototype nonblocking TAMPI_Prototypes = Some p) ∧
  (∀ name p, (name, p) ∈ Prototypes_C → name ∉ fortran_exceptions →
    find_prototype name Prototypes_Fortran = Some (fortran_prototype p)).
Proof.
  split.
  - assert (Forall (λ '(b, n), find_prototype n Prototypes_C =
      make_nonblocking <$> find_prototype b Prototypes_C ∧
      find_prototype n TAMPI_Prototypes = find_prototype b Prototypes_C) operation_pairs ∧
      Forall (λ '(b, n), is_Some (find_prototype b Prototypes_C)) operation_pairs) as [H1 H2].
    { split; apply (bool_decide_unpack _); by vm_compute. }
    intros b n Hin. rewrite Forall_forall in H1, H2.
    destruct (H2 _ Hin) as [p Hp]. specialize (H1 _ Hin). cbv beta iota in H1, Hp. rewrite Hp in H1.
    destruct H1 as [-> ->]. by exists p.
  - assert (Forall (λ '(name, p), name ∉ fortran_exceptions →
      find_prototype name Prototypes_Fortran = Some (fortran_prototype p)) Prototypes_C) as HF.
    { apply (bool_decide_unpack _). by vm_compute. }
    rewrite Forall_forall in HF. intros name p Hin. apply (HF _ Hin).
Qed.

(** The remaining functions of the public interface
    ([src/src/include/TAMPI_Decl.h]), for C and for Fortran; the latter are
    declared with a trailing underscore and not defined. *)
Definition TAMPI_Decl_C : list (string * prototype) :=
  [("tampi_property_get", mkPrototype Int [Int; IntPtr]);
   ("tampi_property_set", mkPrototype Int [Int; Int]);
   ("tampi_init", mkPrototype Int [Int; IntPtr]);
   ("tampi_finalize", mkPrototype Int []);
   ("tampi_blocking_enabled", mkPrototype Int [IntPtr]);
   ("tampi_nonblocking_enabled", mkPrototype Int [IntPtr]);
   ("tampi_iwait", mkPrototype Int [RequestPtr; StatusPtr]);
   ("tampi_iwaitall", mkPrototype Int [Int; RequestArr; StatusArr])]%string.

Definition TAMPI_Decl_Fortran : list (string * prototype) :=
  [("tampi_property_get", mkPrototype Void [FintPtr; FintPtr; FintPtr]);
   ("tampi_property_set", mkPrototype Void [FintPtr; FintPtr; FintPtr]);
   ("tampi_init", mkPrototype Void [FintPtr; FintPtr; FintPtr]);
   ("tampi_finalize", mkPrototype Void [FintPtr]);
   ("tampi_blocking_enabled", mkPrototype Void [FintPtr; FintPtr]);
   ("tampi_nonblocking_enabled", mkPrototype Void [FintPtr; FintPtr]);
   ("tampi_iwait", mkPrototype Void [FintPtr; FintPtr; FintPtr]);
   ("tampi_iwaitall", mkPrototype Void [FintPtr; FintArr; FintPtr; FintPtr])]%string.

(** The public functions are translated to Fortran as those of MPI are, with the
    same exception for the statuses of several requests, and they take what the
    MPI functions that they make task-aware take. *)
Theorem public_prototypes_consistent :
  (∀ name p, (name, p) ∈ TAMPI_Decl_C → name ≠ "tampi_iwaitall"%string →
    find_prototype name TAMPI_Decl_Fortran = Some (fortran_prototype p)) ∧
  find_prototype "tampi_iwaitall" TAMPI_Decl_Fortran = find_prototype "mpi_waitall" Prototypes_Fortran ∧
  find_prototype "tampi_iwait" TAMPI_Decl_C = find_prototype "mpi_wait" Prototypes_C ∧
  find_prototype "tampi_iwaitall" TAMPI_Decl_C = find_prototype "mpi_waitall" Prototypes_C ∧
  find_prototype "tampi_finalize" TAMPI_Decl_C = find_prototype "mpi_finalize" Prototypes_C.
Proof.
  split; [|by vm_compute].
  assert (Forall (λ '(name, p), name ≠ "tampi_iwaitall"%string →
    find_prototype name TAMPI_Decl_Fortran = Some (fortran_prototype p)) TAMPI_Decl_C) as HF
    by (apply (bool_decide_unpack _); by vm_compute).
  rewrite Forall_forall in HF. intros name p Hin. apply (HF _ Hin).
Qed.

(** ** The tasking interface *)

(** The functions that [src/src/common/ALPI.hpp] declares. *)
Definition ALPI_Prototypes : list (string * prototype) :=
  [("alpi_error_string", mkPrototype ConstCharPtr [ErrorEnum]);
   ("alpi_info_get", mkPrototype Int [InfoEnum; CharBuf; SizeT; IntPtr]);
   ("alpi_feature_check", mkPrototype Int [Int]);
   ("alpi_version_check", mkPrototype Int [Int; Int]);
   ("alpi_version_get", mkPrototype Int [IntPtr; IntPtr]);
   ("alpi_task_self", mkPrototype Int [TaskPtrPtr]);
   ("alpi_task_block", mkPrototype Int [TaskPtr]);
   ("alpi_task_unblock", mkPrototype Int [TaskPtr]);
   ("alpi_task_waitfor_ns", mkPrototype Int [U64; U64Ptr]);
   ("alpi_task_events_increase", mkPrototype Int [TaskPtr; U64]);
   ("alpi_task_events_test", mkPrototype Int [TaskPtr; U64Ptr]);
   ("alpi_task_events_decrease", mkPrototype Int [TaskPtr; U64]);
   ("alpi_attr_create", mkPrototype Int [AttrPtrPtr]);
   ("alpi_attr_destroy", mkPrototype Int [AttrPtr]);
   ("alpi_attr_init", mkPrototype Int [AttrPtr]);
   ("alpi_attr_size", mkPrototype Int [U64Ptr]);
   ("alpi_task_spawn", mkPrototype Int [Callback; VoidPtr; Callback; VoidPtr; ConstCharPtr;
     ConstAttrPtr]);
   ("alpi_cpu_count", mkPrototype Int [U64Ptr]);
   ("alpi_cpu_logical_id", mkPrototype Int [U64Ptr]);
   ("alpi_cpu_system_id", mkPrototype Int [U64Ptr]);
   ("alpi_task_suspend_mode_set", mkPrototype Int [TaskPtr; SuspendEnum; U64]);
   ("alpi_task_suspend", mkPrototype Int [TaskPtr])]%string.

(** [ALPISymbolDecl] ([src/src/common/TaskingModel.hpp]): the types with which the
    library calls them. *)
Definition ALPISymbolDecl : list (string * prototype) :=
  [("alpi_error_string", mkPrototype ConstCharPtr [Int]);
   ("alpi_info_get", mkPrototype Int [InfoEnum; CharBuf; SizeT; IntPtr]);
   ("alpi_feature_check", mkPrototype Int [Int]);
   ("alpi_version_check", mkPrototype Int [Int; Int]);
   ("alpi_version_get", mkPrototype Int [IntPtr; IntPtr]);
   ("alpi_task_self", mkPrototype Int [TaskPtrPtr]);
   ("alpi_task_block", mkPrototype Int [TaskPtr]);
   ("alpi_task_unblock", mkPrototype Int [TaskPtr]);
   ("alpi_task_waitfor_ns", mkPrototype Int [U64; U64Ptr]);
   ("alpi_task_events_increase", mkPrototype Int [TaskPtr; U64]);
   ("alpi_task_events_test", mkPrototype Int [TaskPtr; U64Ptr]);
   ("alpi_task_events_decrease", mkPrototype Int [TaskPtr; U64]);
   ("alpi_task_spawn", mkPrototype Int [Callback; VoidPtr; Callback; VoidPtr; ConstCharPtr;
     ConstAttrPtr]);
   ("alpi_cpu_count", mkPrototype Int [U64Ptr]);
   ("alpi_cpu_logical_id", mkPrototype Int [U64Ptr]);
   ("alpi_cpu_system_id", mkPrototype Int [U64Ptr]);
   ("alpi_task_suspend_mode_set", mkPrototype Int [TaskPtr; SuspendEnum; U64]);
   ("alpi_task_suspend", mkPrototype Int [TaskPtr])]%string.

(** An enumeration is passed as an [int]. *)
Definition enum_as_int (t : ctype) : ctype := match t with ErrorEnum => Int | _ => t end.
Definition as_called (p : prototype) : prototype :=
  mkPrototype (ReturnTy p) (enum_as_int <$> Params p).

(** Every function of the runtime is called with the type that the interface's
    header declares for it, an error code being passed as an [int], and the
    functions that the header declares and the library does not load are the
    four that manage attributes. *)
Theorem alpi_prototypes_match :
  (∀ name p, (name, p) ∈ ALPISymbolDecl →
    ∃ q, find_prototype name ALPI_Prototypes = Some q ∧ p = as_called q) ∧
  (λ d, d.1) <$> filter (λ d, find_prototype d.1 ALPISymbolDecl = None) ALPI_Prototypes =
    ["alpi_attr_create"; "alpi_attr_destroy"; "alpi_attr_init"; "alpi_attr_size"]%string.
Proof.
  split; [|by vm_compute].
  assert (Forall (λ '(name, p), as_called <$> find_prototype name ALPI_Prototypes = Some p)
    ALPISymbolDecl) as HF by (apply (bool_decide_unpack _); by vm_compute).
  rewrite Forall_forall in HF. intros name p Hin. specialize (HF _ Hin). cbv beta iota in HF.
  apply fmap_Some in HF as (q & Hq & ->). by exists q.
Qed.
