(* ===== verification/ErrorHandler.v ===== *)
(** * Error reporting

    [ErrorHandler] ([src/src/common/util/ErrorHandler.hpp]): the text of errors
    and warnings, what [fail], [failIf], [warn] and [warnIf] do, the helpers
    that write without streams, and the lock that keeps the messages of
    concurrent threads apart. *)

From Stdlib Require Import Ascii QArith Qabs Qround.
From stdpp Require Import pretty.
From S2P Require Import Prelude.

(** ** Messages *)

(** The parts of a reason: strings, and integers printed in decimal. *)
Inductive reason_part := RStr (s : string) | RInt (n : Z).
Coercion RStr : string >-> reason_part.

Definition show_part (p : reason_part) : string :=
  match p with RStr s => s | RInt n => pretty n end.

(** [emitReasonParts(oss, parts...)]: append the parts one by one. *)
Fixpoint emitReasonParts (oss : string) (parts : list reason_part) : string :=
  match parts with
  | [] => oss
  | p :: parts => emitReasonParts (oss +:+ show_part p) parts
  end.

Definition endl : string := String (ascii_of_nat 10) EmptyString.

Definition fail_text (parts : list reason_part) : string :=
  emitReasonParts "Error: " parts +:+ endl.
Definition warn_text (parts : list reason_part) : string :=
  emitReasonParts "Warning: " parts +:+ endl.

(** [fail] prints its message and ends the process. *)
Definition fail {A} (parts : list reason_part) : outcome A := Fail (fail_text parts).

Definition failIf (failure : bool) (parts : list reason_part) : outcome unit :=
  if negb failure then Ok tt else fail parts.

(** [warn] only prints; [err] is what was printed before. *)
Definition warn (parts : list reason_part) (err : list string) : list string :=
  err ++ [warn_text parts].

Definition warnIf (failure : bool) (parts : list reason_part) (err : list string) : list string :=
  if negb failure then err else warn parts err.

(** The parts follow each other in the order of the call. *)
Lemma emitReasonParts_app oss parts parts' :
  emitReasonParts oss (parts ++ parts') = emitReasonParts (emitReasonParts oss parts) parts'.
Proof. revert oss. induction parts as [|p parts IH]; intros oss; [done|]. apply IH. Qed.

Lemma failIf_Ok failure parts u : failIf failure parts = Ok u ↔ failure = false.
Proof. destruct failure, u; naive_solver. Qed.

Lemma post_failIf (F : Prop) {B} (b : bool) parts (f : unit → outcome B) (Ψ : B → Prop) :
  (b = true → F) → (b = false → post F Ψ (f tt)) → post F Ψ (failIf b parts ≫= f).
Proof. destruct b; simpl; auto. Qed.

(** ** Writing without streams *)

Local Notation chars := String.list_ascii_of_string.

(** [safeEmitPart] of a number that prints as [text], with a buffer of [size]
    bytes: [snprintf] stores at most [size - 1] characters and a null
    character, but returns the full length, which [write] is given.  More than
    [size] bytes are read from beyond the buffer. *)
Definition safeEmitText (size : nat) (text : list ascii) : outcome (list ascii) :=
  if length text <? size then Ok text
  else if length text <=? size then Ok (take (size - 1) text ++ [zero])
  else Undef "write(2, buffer, length)".

(** [%f]: the sign, the integer part, and six digits after the point of the
    nearest multiple of 10^-6, ties to even.  A [float] is converted to
    [double] first, which keeps its value; both are finite here. *)
Definition round_even (x : Q) : Z :=
  let fl := Qfloor x in
  match Qcompare (x - inject_Z fl) (1 # 2) with
  | Lt => fl
  | Gt => fl + 1
  | Eq => if Z.even fl then fl else fl + 1
  end.

(** The [k] last decimal digits of [n]. *)
Fixpoint digits (k : nat) (n : Z) : list ascii :=
  match k with
  | 0 => []
  | S k => digits k (n / 10) ++ [ascii_of_nat (48 + Z.to_nat (n `mod` 10))]
  end.

Definition fixed6 (x : Q) : list ascii :=
  let n := round_even (Qabs x * 1000000) in
  (if Qle_bool 0 x then [] else chars "-") ++
  chars (pretty (n / 1000000)%Z) ++ chars "." ++ digits 6 (n `mod` 1000000).

(** The overloads of [safeEmitPart]; strings and characters do not go through
    the buffer. *)
Inductive safe_part :=
| SChar (c : ascii)
| SInt (n : Z)
| SLong (n : Z)
| SStr (s : string)
| SFloat (x : Q)
| SDouble (x : Q).

Definition safeEmitPart (size : nat) (p : safe_part) : outcome (list ascii) :=
  match p with
  | SChar c => Ok [c]
  | SInt n | SLong n => safeEmitText size (chars (pretty n))
  | SStr s => Ok (chars s)
  | SFloat x | SDouble x => safeEmitText size (fixed6 x)
  end.

(** [safeEmitReasonParts]: the parts are written one after the other. *)
Fixpoint safeEmitReasonParts (size : nat) (parts : list safe_part) : outcome (list ascii) :=
  match parts with
  | [] => Ok []
  | p :: parts =>
      out ← safeEmitPart size p;
      rest ← safeEmitReasonParts size parts;
      Ok (out ++ rest)
  end.

(** What a part prints as, with a buffer that is large enough. *)
Definition part_text (p : safe_part) : list ascii :=
  match p with
  | SChar c => [c]
  | SInt n | SLong n => chars (pretty n)
  | SStr s => chars s
  | SFloat x | SDouble x => fixed6 x
  end.

(** Whether a part goes through the buffer. *)
Definition is_number (p : safe_part) : bool :=
  match p with SChar _ | SStr _ => false | _ => true end.

(** A part is written as it prints, unless it is a number whose text does not
    fit: with exactly [size] characters its last one is lost, and with more
    the memory behind the buffer is written. *)
Lemma safeEmitPart_spec size p :
  let text := part_text p in
  safeEmitPart size p =
    if negb (is_number p) || (length text <? size) then Ok text
    else if length text =? size then Ok (take (size - 1) text ++ [zero])
    else Undef "write(2, buffer, length)".
Proof.
  assert (∀ text, safeEmitText size text =
    if length text <? size then Ok text
    else if length text =? size then Ok (take (size - 1) text ++ [zero])
    else Undef "write(2, buffer, length)") as Htext.
  { intros text. unfold safeEmitText.
    destruct (Nat.ltb_spec (length text) size), (Nat.leb_spec (length text) size),
      (Nat.eqb_spec (length text) size); (done || lia). }
  destruct p; simpl; try done; apply Htext.
Qed.

Example fixed6_third : fixed6 (-7 # 3) = chars "-2.333333".
Proof. by vm_compute. Qed.
Example fixed6_half : fixed6 (5 # 2) = chars "2.500000".
Proof. by vm_compute. Qed.

(** The parts of a message whose numbers fit are written one after the other,
    whatever their types. *)
Theorem safe_parts_written size parts :
  Forall (λ p, is_number p = true → length (part_text p) < size) parts →
  safeEmitReasonParts size parts = Ok (parts ≫= part_text).
Proof.
  induction 1 as [|p parts Hp _ IH]; [done|]. simpl. rewrite safeEmitPart_spec, IH. simpl.
  destruct (is_number p); simpl; [|done]. by rewrite (proj2 (Nat.ltb_lt _ _)) by auto.
Qed.

Lemma safe_parts_written_witness :
  safeEmitReasonParts 16 [SStr "took "; SDouble (5 # 2); SChar " "; SLong (-40)] =
    Ok (chars "took 2.500000 -40").
Proof.
  etransitivity; [apply (safe_parts_written 16); repeat constructor; vm_compute; lia|].
  by vm_compute.
Defined.

(** ** Concurrent messages *)

(** A thread that prints: idle, about to lock [_lock] with a message, or
    writing it to the stream character by character. *)
Inductive printer := Silent | Locking (msg : list ascii) | Writing (msg rest : list ascii).

(** The lock, the threads, the characters on the stream, and the messages that
    have been printed completely, oldest first. *)
Record stream := mkStream {
  st_lock : option nat;
  st_threads : gmap nat printer;
  st_output : list ascii;
  st_printed : list (list ascii);
}.

Definition st_printer (t : nat) (s : stream) : printer := default Silent (st_threads s !! t).

Inductive print_step : stream → stream → Prop :=
| print_call t msg s : st_printer t s = Silent →
    print_step s (mkStream (st_lock s) (<[t := Locking msg]> (st_threads s)) (st_output s) (st_printed s))
| print_lock t msg s : st_printer t s = Locking msg → st_lock s = None →
    print_step s (mkStream (Some t) (<[t := Writing msg msg]> (st_threads s)) (st_output s) (st_printed s))
| print_char t msg c rest s : st_printer t s = Writing msg (c :: rest) →
    print_step s (mkStream (st_lock s) (<[t := Writing msg rest]> (st_threads s))
      (st_output s ++ [c]) (st_printed s))
| print_unlock t msg s : st_printer t s = Writing msg [] →
    print_step s (mkStream None (<[t := Silent]> (st_threads s)) (st_output s) (st_printed s ++ [msg])).

Definition new_stream : stream := mkStream None ∅ [] [].

(** Only the thread that holds the lock writes, and the stream ends with what it
    has written of its message. *)
Record stream_inv (s : stream) : Prop := {
  sv_writer t msg rest : st_printer t s = Writing msg rest → st_lock s = Some t;
  sv_output : match st_lock s with
    | None => st_output s = mjoin (st_printed s)
    | Some t => ∃ msg done rest, st_printer t s = Writing msg rest ∧ msg = done ++ rest ∧
        st_output s = mjoin (st_printed s) ++ done
    end;
}.

Lemma st_printer_insert t p s t' l o m :
  st_printer t' (mkStream l (<[t := p]> (st_threads s)) o m) =
    if decide (t = t') then p else st_printer t' s.
Proof.
  unfold st_printer. simpl. case_decide as Ht.
  - subst. by rewrite lookup_insert_eq.
  - by rewrite lookup_insert_ne.
Qed.

Lemma print_step_inv s s' : print_step s s' → stream_inv s → stream_inv s'.
Proof.
  intros Hs [Hw Ho]. destruct Hs as [t msg s Ht|t msg s Ht Hl|t msg c rest s Ht|t msg s Ht]; split;
    cbn [st_lock st_output st_printed]; try (intros t' msg' rest'; rewrite st_printer_insert; case_decide; naive_solver).
  - destruct (st_lock s) as [u|]; [|done]. destruct Ho as (m & d & r & Hu & ? & ?).
    exists m, d, r. rewrite st_printer_insert, decide_False; [done|]. intros ->. congruence.
  - rewrite Hl in Ho. exists msg, [], msg. rewrite st_printer_insert, decide_True by done.
    by rewrite app_nil_r.
  - pose proof (Hw _ _ _ Ht) as Hlock. rewrite Hlock in Ho |- *. destruct Ho as (m & d & r & Hu & -> & Ho).
    rewrite Ht in Hu. simplify_eq. exists (d ++ c :: rest), (d ++ [c]), rest.
    rewrite st_printer_insert, decide_True by done. by rewrite Ho, <-!app_assoc.
  - intros u m r. rewrite st_printer_insert. case_decide; [done|]. intros Hu.
    pose proof (Hw _ _ _ Hu). pose proof (Hw _ _ _ Ht). congruence.
  - pose proof (Hw _ _ _ Ht) as Hlock. rewrite Hlock in Ho. destruct Ho as (m & d & r & Hu & -> & Ho).
    rewrite Ht in Hu. simplify_eq. rewrite Ho, join_app. csimpl. by rewrite !app_nil_r.
Qed.

(** The messages of threads that report concurrently are not mixed: the
    stream is always a sequence of whole messages, followed, while a thread
    prints, by the beginning of that thread's message. *)
Theorem messages_not_mixed s :
  rtc print_step new_stream s →
  ∃ part, st_output s = mjoin (st_printed s) ++ part ∧
    match st_lock s with
    | None => part = []
    | Some t => ∃ msg rest, st_printer t s = Writing msg rest ∧ msg = part ++ rest
    end.
Proof.
  intros Hr. assert (stream_inv s) as [_ Ho].
  { assert (stream_inv new_stream) as Hi by by split.
    revert Hi. induction Hr; eauto using print_step_inv. }
  destruct (st_lock s) as [t|].
  - destruct Ho as (msg & part & rest & ? & ? & ?). exists part. split; [done|]. by exists msg, rest.
  - exists []. by rewrite app_nil_r.
Qed.

Lemma messages_not_mixed_witness :
  ∃ s, rtc print_step new_stream s ∧ st_output s = [zero] ∧
    ∃ part, st_output s = mjoin (st_printed s) ++ part.
Proof.
  pose (s := mkStream (Some 2) (<[2 := Writing [zero; one] [one]]> (<[2 := Writing [zero; one] [zero; one]]>
    (<[1 := Locking [one]]> (<[2 := Locking [zero; one]]> ∅)))) [zero] []).
  assert (rtc print_step new_stream s) as Hr.
  { eapply rtc_l; [by apply (print_call 2 [zero; one])|].
    eapply rtc_l; [by apply (print_call 1 [one])|].
    eapply rtc_l; [by apply (print_lock 2 [zero; one])|].
    apply rtc_once. by apply (print_char 2 [zero; one] zero [one]). }
  exists s. split; [exact Hr|]. split; [reflexivity|].
  destruct (messages_not_mixed s Hr) as (part & Hp & _). by exists part.
Defined.
