(* ===== verification/Instrument.v ===== *)
(** * Instrumentation

    [Instrument] ([src/src/common/instrument/Instrument.hpp], [.cpp]) and its
    only backend, [OvniInstrumentBackend]
    ([src/src/common/instrument/OvniInstrument.hpp]): the choice of the backend,
    the events that entering and leaving an instrumented part of the library
    emits, and the guards that do so for a scope.  The ovni library itself is
    not part of the repository; its calls are recorded in a log. *)

From S2P Require Import Prelude ErrorHandler.

(** ** Points *)

Inductive InstrumentPoint :=
| AddQueues | CheckGlobalRequestArray | CompletedRequest | CreateTicket | IssueNonBlockingOp
| LibraryInterface | LibraryPolling | TestAllRequests | TestRequest | TestSomeRequests
| TransferQueues | WaitTicket.

#[global] Instance InstrumentPoint_eq_dec : EqDecision InstrumentPoint.
Proof. solve_decision. Defined.

Definition points : list InstrumentPoint :=
  [AddQueues; CheckGlobalRequestArray; CompletedRequest; CreateTicket; IssueNonBlockingOp;
   LibraryInterface; LibraryPolling; TestAllRequests; TestRequest; TestSomeRequests;
   TransferQueues; WaitTicket].

(** The table [Subsystems]: the event codes for entering and leaving. *)
Definition Subsystems (p : InstrumentPoint) : string * string :=
  match p with
  | AddQueues => ("TQa", "TQA")
  | CheckGlobalRequestArray => ("TGc", "TGC")
  | CompletedRequest => ("TRc", "TRC")
  | CreateTicket => ("TTc", "TTC")
  | IssueNonBlockingOp => ("TCi", "TCI")
  | LibraryInterface => ("TLi", "TLI")
  | LibraryPolling => ("TLp", "TLP")
  | TestAllRequests => ("TRa", "TRA")
  | TestRequest => ("TRt", "TRT")
  | TestSomeRequests => ("TRs", "TRS")
  | TransferQueues => ("TQt", "TQT")
  | WaitTicket => ("TTw", "TTW")
  end%string.

(** ** The ovni backend *)

(** The calls into ovni, by the thread that makes them. *)
Inductive ovni_call :=
| OvniSetRank (rank nranks : Z)
| OvniRequire (thread : nat) (model version : string)
| OvniEmit (thread : nat) (clock : Z) (mcv : string).

(** The threads whose [_threadInit] is set, and the log. *)
Record Ovni := mkOvni { _threadInit : gset nat; ovni_log : list ovni_call }.

Definition newOvni : Ovni := mkOvni ∅ [].

Definition emitEvent (thread : nat) (now : Z) (mcv : string) (b : Ovni) : Ovni :=
  let b := if decide (thread ∈ _threadInit b) then b
           else mkOvni ({[thread]} ∪ _threadInit b)
                  (ovni_log b ++ [OvniRequire thread "tampi" "1.0.0"]) in
  mkOvni (_threadInit b) (ovni_log b ++ [OvniEmit thread now mcv]).

Definition ovni_initialize (rank nranks : Z) (b : Ovni) : Ovni :=
  mkOvni (_threadInit b) (ovni_log b ++ [OvniSetRank rank nranks]).

(** ** Instrument *)

(** [_backend]: null or the ovni backend. *)
Notation Backend := (option Ovni).

(** [Instrument::initialize]; [instrument] is the value of TAMPI_INSTRUMENT and
    [have_ovni] whether the library was built with ovni. *)
Definition Instrument_initialize (have_ovni : bool) (instrument : string) (rank nranks : Z)
    (b : Backend) : outcome Backend :=
  b ← (if decide (instrument = "ovni") then
         if have_ovni then Ok (Some newOvni)
         else fail [RStr "TAMPI was not configured with ovni support"]
       else if decide (instrument ≠ "none") then
         fail [RStr instrument; RStr " instrumentation not supported"]
       else Ok b);
  Ok (option_map (ovni_initialize rank nranks) b).

(** The ovni backend has nothing to finalise. *)
Definition Instrument_finalize (b : Backend) : Backend := b.

Definition Instrument_enter (p : InstrumentPoint) (thread : nat) (now : Z) (b : Backend) : Backend :=
  emitEvent thread now (Subsystems p).1 <$> b.
Definition Instrument_exit (p : InstrumentPoint) (thread : nat) (now : Z) (b : Backend) : Backend :=
  emitEvent thread now (Subsystems p).2 <$> b.

(** ** Guards *)

(** Nested scopes with a [Guard] each: the guard enters its point where it is
    constructed and leaves it at the end of the scope. *)
Inductive scope := Scope (p : InstrumentPoint) (body : list scope).

(** An event: whether a point is entered, and which. *)
Fixpoint scope_events (s : scope) : list (bool * InstrumentPoint) :=
  match s with
  | Scope p body =>
      (true, p) :: (fix go l := match l with [] => [] | s :: l => scope_events s ++ go l end) body
        ++ [(false, p)]
  end.

Definition scopes_events (l : list scope) : list (bool * InstrumentPoint) := l ≫= scope_events.

(** What a thread does to the backend. *)
Definition run_event (thread : nat) (now : Z) (e : bool * InstrumentPoint) (b : Backend) : Backend :=
  if e.1 then Instrument_enter e.2 thread now b else Instrument_exit e.2 thread now b.

Fixpoint run_events (thread : nat) (now : Z) (es : list (bool * InstrumentPoint)) (b : Backend) :
    Backend :=
  match es with
  | [] => b
  | e :: es => run_events thread now es (run_event thread now e b)
  end.

(** The scopes of [OperationManager::process]. *)
Definition process_scope (blocking : bool) : scope :=
  Scope LibraryInterface (if blocking then [Scope WaitTicket []] else []).

(** ** Reading a trace *)

(** The codes that a thread emitted. *)
Definition emitted (thread : nat) (log : list ovni_call) : list string :=
  omap (λ c, match c with
    | OvniEmit t _ mcv => if decide (t = thread) then Some mcv else None | _ => None end) log.

Definition decode (mcv : string) : option (bool * InstrumentPoint) :=
  match list_find (λ p, (Subsystems p).1 = mcv) points with
  | Some (_, p) => Some (true, p)
  | None => (λ '(_, p), (false, p)) <$> list_find (λ p, (Subsystems p).2 = mcv) points
  end.

(** A trace viewer rebuilds the nesting with a stack: [open] are the points
    entered and not left, each with the scopes inside it so far. *)
Fixpoint rebuild (es : list (bool * InstrumentPoint)) (cur : list scope)
    (open : list (InstrumentPoint * list scope)) : option (list scope) :=
  match es with
  | [] => match open with [] => Some cur | _ => None end
  | (true, p) :: es => rebuild es [] ((p, cur) :: open)
  | (false, p) :: es =>
      match open with
      | (q, outer) :: open =>
          if decide (p = q) then rebuild es (outer ++ [Scope p cur]) open else None
      | [] => None
      end
  end.

(** ** Lemmas *)

Definition code (e : bool * InstrumentPoint) : string :=
  if e.1 then (Subsystems e.2).1 else (Subsystems e.2).2.

Lemma decode_code e : decode (code e) = Some e.
Proof. by destruct e as [[] []]. Qed.

Lemma run_event_log t now e b :
  run_event t now e (Some b) = Some (mkOvni ({[t]} ∪ _threadInit b)
    (ovni_log b ++ (if bool_decide (t ∈ _threadInit b) then [] else [OvniRequire t "tampi" "1.0.0"]) ++
     [OvniEmit t now (code e)])).
Proof.
  unfold run_event, Instrument_enter, Instrument_exit, emitEvent. destruct e as [[] p]; simpl;
    (case_decide; [rewrite bool_decide_eq_true_2 by done|rewrite bool_decide_eq_false_2 by done]);
    simpl; rewrite <-?app_assoc; do 2 f_equal; set_solver.
Qed.

Lemma emitted_app thread l1 l2 : emitted thread (l1 ++ l2) = emitted thread l1 ++ emitted thread l2.
Proof. apply omap_app. Qed.

Lemma run_events_emitted thread now es b :
  ∃ b', run_events thread now es (Some b) = Some b' ∧
    emitted thread (ovni_log b') = emitted thread (ovni_log b) ++ (code <$> es).
Proof.
  revert b. induction es as [|e es IH]; intros b; simpl.
  { exists b. by rewrite app_nil_r. }
  rewrite run_event_log. edestruct IH as (b' & -> & Hb'). exists b'. split; [done|].
  rewrite Hb'. simpl. rewrite !emitted_app, <-!app_assoc. f_equal.
  assert (emitted thread [OvniEmit thread now (code e)] = [code e]) as ->.
  { simpl. by rewrite decide_True. }
  by case_bool_decide.
Qed.

Lemma scope_events_body p body :
  scope_events (Scope p body) = (true, p) :: scopes_events body ++ [(false, p)].
Proof. done. Qed.

(** Induction over scopes and their bodies. *)
Fixpoint scope_induction (P : scope → Prop)
    (H : ∀ p body, Forall P body → P (Scope p body)) (s : scope) : P s :=
  match s with
  | Scope p body => H p body
      ((fix go l : Forall P l :=
          match l with
          | [] => Forall_nil_2 _
          | s :: l => Forall_cons_2 _ _ _ (scope_induction P H s) (go l)
          end) body)
  end.

Lemma rebuild_scopes l es cur open :
  Forall (λ s, ∀ es cur open,
    rebuild (scope_events s ++ es) cur open = rebuild es (cur ++ [s]) open) l →
  rebuild (scopes_events l ++ es) cur open = rebuild es (cur ++ l) open.
Proof.
  intros Hl. revert cur. induction Hl as [|s l Hs _ IH]; intros cur.
  { by rewrite app_nil_r. }
  unfold scopes_events. csimpl. rewrite <-app_assoc, Hs. unfold scopes_events in IH.
  by rewrite IH, <-app_assoc.
Qed.

Lemma rebuild_scope s es cur open :
  rebuild (scope_events s ++ es) cur open = rebuild es (cur ++ [s]) open.
Proof.
  revert es cur open. induction s as [p body IH] using scope_induction. intros es cur open.
  rewrite scope_events_body. simpl. rewrite <-app_assoc, rebuild_scopes by done. simpl.
  by rewrite decide_True.
Qed.

(** From the codes that a thread emits while it runs any nest of guarded
    scopes, the nest can be recovered: every event code is decoded to the point
    and direction it stands for, and enters and exits are properly nested. *)
Theorem guards_roundtrip thread now (l : list scope) :
  ∃ b, run_events thread now (scopes_events l) (Some newOvni) = Some b ∧
    mapM decode (emitted thread (ovni_log b)) ≫= (λ es, rebuild es [] []) = Some l.
Proof.
  destruct (run_events_emitted thread now (scopes_events l) newOvni) as (b & Hb & He).
  exists b. split; [done|]. rewrite He. simpl.
  assert (∀ es, mapM decode (code <$> es) = Some es) as ->.
  { intros es. apply mapM_Some. induction es; constructor; auto using decode_code. }
  simpl. rewrite <-(app_nil_r (scopes_events l)), rebuild_scopes; [done|].
  apply Forall_forall. intros s _. apply rebuild_scope.
Qed.

(** ** Threads *)

(** The calls of one thread. *)
Definition own_call (thread : nat) (c : ovni_call) : Prop :=
  match c with OvniRequire t _ _ | OvniEmit t _ _ => t = thread | OvniSetRank _ _ => False end.
#[global] Instance own_call_dec thread c : Decision (own_call thread c).
Proof. destruct c; simpl; apply _. Defined.

(** Threads emit in any order: each item is a thread, the time and the event. *)
Fixpoint run_threads (l : list (nat * Z * (bool * InstrumentPoint))) (b : Backend) : Backend :=
  match l with
  | [] => b
  | (t, now, e) :: l => run_threads l (run_event t now e b)
  end.

(** What thread [t] should have told ovni. *)
Definition thread_calls (t : nat) (l : list (nat * Z * (bool * InstrumentPoint))) : list ovni_call :=
  let l := filter (λ x, x.1.1 = t) l in
  (if decide (l = []) then [] else [OvniRequire t "tampi" "1.0.0"]) ++
  ((λ x, OvniEmit t x.1.2 (code x.2)) <$> l).

Lemma own_emit t u now mcv :
  filter (own_call t) [OvniEmit u now mcv] = if decide (u = t) then [OvniEmit u now mcv] else [].
Proof. rewrite filter_cons. by repeat case_decide. Qed.

Lemma own_require t u (seen : bool) :
  filter (own_call t) (if seen then [] else [OvniRequire u "tampi" "1.0.0"]) =
    if decide (u = t) then if seen then [] else [OvniRequire u "tampi" "1.0.0"] else [].
Proof. destruct seen; [by case_decide|]. rewrite filter_cons. by repeat case_decide. Qed.

Lemma run_threads_log t l b :
  ∃ b', run_threads l (Some b) = Some b' ∧
    filter (own_call t) (ovni_log b') = filter (own_call t) (ovni_log b) ++
      if decide (t ∈ _threadInit b) then
        (λ x, OvniEmit t x.1.2 (code x.2)) <$> filter (λ x, x.1.1 = t) l
      else thread_calls t l.
Proof.
  revert b. induction l as [|[[u now] e] l IH]; intros b; simpl.
  { exists b. split; [done|]. unfold thread_calls. case_decide; by rewrite app_nil_r. }
  rewrite run_event_log. destruct (IH (mkOvni ({[u]} ∪ _threadInit b) (ovni_log b ++
    (if bool_decide (u ∈ _threadInit b) then [] else [OvniRequire u "tampi" "1.0.0"]) ++
    [OvniEmit u now (code e)]))) as (b' & -> & Hb'). exists b'. split; [done|].
  rewrite Hb'. cbn [_threadInit ovni_log]. clear Hb' b' IH.
  rewrite !filter_app, <-!app_assoc, own_emit, own_require. f_equal. unfold thread_calls.
  rewrite filter_cons. simpl. destruct (decide (u = t)) as [->|Hne].
  - rewrite (decide_True (P:=t ∈ {[t]} ∪ _threadInit b)) by set_solver. by case_bool_decide; case_decide.
  - simpl. destruct (decide (t ∈ _threadInit b)).
    + rewrite (decide_True (P:=t ∈ {[u]} ∪ _)) by set_solver. done.
    + rewrite (decide_False (P:=t ∈ {[u]} ∪ _)) by set_solver. done.
Qed.

(** However the events of the threads interleave, ovni gets from each
    thread that emits the declaration of the event model, once and first, and
    then the codes of its events in the order of the thread. *)
Theorem threads_declare_first (t : nat) (l : list (nat * Z * (bool * InstrumentPoint))) :
  ∃ b, run_threads l (Some newOvni) = Some b ∧
    filter (own_call t) (ovni_log b) = thread_calls t l.
Proof. destruct (run_threads_log t l newOvni) as (b & Hb & Hl). exists b. split; [done|]. exact Hl. Qed.
