(* ===== verification/Symbols.v ===== *)
(** * Symbols

    The functions of MPI and of the tasking runtime are found at run time:
    [Symbol] ([src/src/common/Symbol.hpp]), the names of the MPI functions in C
    and Fortran ([src/src/common/Declarations.hpp]), and [loadSymbols] and
    [initialize] of [Interface] ([src/src/common/Interface.hpp]). *)

From Stdlib Require Import Ascii.
From S2P Require Import Prelude ErrorHandler.

(** ** Symbol *)

Inductive SymbolAttr := Next | First.

(** What [dlsym] finds: the next occurrence of a symbol (RTLD_NEXT) or the
    first (RTLD_DEFAULT); [None] is the null pointer. *)
Definition linker : Type := SymbolAttr → string → option Z.

(** [class Symbol]; [_symbol] is the address that was loaded, or null. *)
Record Symbol := mkSymbol { sym_name : string; _symbol : option Z }.

(** The static symbols of a class, by name. *)
Notation symbols := (gmap string Symbol).

Section symbols.
Context (dlsym : linker).

(** [load(attr, mandatory)] *)
Definition load (attr : SymbolAttr) (mandatory : bool) (s : Symbol) : outcome (bool * Symbol) :=
  match _symbol s with
  | Some _ => Ok (true, s)
  | None =>
      let found := dlsym attr (sym_name s) in
      _ ← failIf (bool_decide (found = None) && mandatory)
            [RStr "Could not find symbol "; RStr (sym_name s)];
      Ok (bool_decide (found ≠ None), mkSymbol (sym_name s) found)
  end.

(** The constructor, which loads the symbol if [preload]. *)
Definition newSymbol (name : string) (preload : bool) : outcome Symbol :=
  if preload then '(_, s) ← load Next true (mkSymbol name None); Ok s
  else Ok (mkSymbol name None).

Definition hasSymbol (s : Symbol) : bool := bool_decide (_symbol s ≠ None).

(** [operator()]: the address that is called; a symbol that was not loaded
    violates an assertion. *)
Definition invoke (s : Symbol) : outcome Z := read (_symbol s) "_symbol != nullptr".

(** ** Sets of symbols *)


(** Nothing is loaded before the program calls [load]. *)
Definition unloaded (names : list string) : symbols :=
  list_to_map ((λ n, (n, mkSymbol n None)) <$> names).

Definition load_one (attr : SymbolAttr) (mandatory : bool) (name : string) (t : symbols) :
    outcome symbols :=
  s ← read (t !! name) "no such symbol";
  '(_, s) ← load attr mandatory s;
  Ok (<[name := s]> t).

Fixpoint load_list (attr : SymbolAttr) (l : list (string * bool)) (t : symbols) :
    outcome symbols :=
  match l with
  | [] => Ok t
  | (name, mandatory) :: l => t ← load_one attr mandatory name t; load_list attr l t
  end.

Definition invoke_named (name : string) (t : symbols) : outcome Z :=
  s ← read (t !! name) "no such symbol"; invoke s.

(** Symbols found so far are those of the linker. *)
Definition resolved (attr : SymbolAttr) (t : symbols) : Prop :=
  ∀ name s, t !! name = Some s → sym_name s = name ∧
    (_symbol s = None ∨ _symbol s = dlsym attr name).

Lemma load_post attr mandatory s :
  post (mandatory = true ∧ dlsym attr (sym_name s) = None ∧ _symbol s = None)
    (λ '(b, s'), sym_name s' = sym_name s ∧
      _symbol s' = match _symbol s with Some a => Some a | None => dlsym attr (sym_name s) end ∧
      b = hasSymbol s' ∧ (mandatory = true → is_Some (_symbol s')))
    (load attr mandatory s).
Proof.
  unfold load. destruct (_symbol s) as [a|] eqn:Hs.
  { simpl. unfold hasSymbol. rewrite Hs. split_and!; try done. }
  apply post_failIf.
  - intros [Hf%bool_decide_eq_true Hm]%andb_true_iff. done.
  - intros Hf. simpl. split_and!; try done. intros ->. rewrite andb_true_r in Hf.
    apply bool_decide_eq_false in Hf. by destruct (dlsym _ _); [eexists|].
Qed.

(** Loading twice is loading once. *)
Lemma load_idempotent attr mandatory s b s' :
  load attr mandatory s = Ok (b, s') → b = true → load attr mandatory s' = Ok (true, s').
Proof.
  intros Hl ->. pose proof (load_post attr mandatory s) as Hp. rewrite Hl in Hp.
  destruct Hp as (_ & _ & Hb & _). unfold load. unfold hasSymbol in Hb. symmetry in Hb.
  apply bool_decide_eq_true in Hb. by destruct (_symbol s').
Qed.

(** Loading one symbol of a resolved set gives it the linker's address; it fails
    exactly when the symbol is mandatory and missing. *)
Lemma load_one_spec attr mandatory name t :
  resolved attr t → is_Some (t !! name) →
  load_one attr mandatory name t =
    if bool_decide (dlsym attr name = None) && mandatory
    then fail [RStr "Could not find symbol "; RStr name]
    else Ok (<[name := mkSymbol name (dlsym attr name)]> t).
Proof.
  intros Hr [s Hs]. destruct (Hr _ _ Hs) as [Hn Ha]. unfold load_one. rewrite Hs. simpl. unfold load.
  destruct s as [n a]. simpl in *. subst n. destruct a as [a|]; simpl.
  - destruct Ha as [|Ha]; [done|]. by rewrite <-Ha, bool_decide_eq_false_2.
  - unfold failIf. by destruct (bool_decide (dlsym attr name = None) && mandatory).
Qed.

Lemma resolved_insert attr name t :
  resolved attr t → resolved attr (<[name := mkSymbol name (dlsym attr name)]> t).
Proof.
  intros Hr n s. rewrite lookup_insert_Some. intros [[<- <-]|[_ Hs]]; [|by apply Hr].
  split; [done|]. by right.
Qed.

(** Loading a list of symbols of the set: each gets the linker's address, the
    others stay as they are, and it fails only when a mandatory one is
    missing. *)
Lemma load_list_post attr l t :
  resolved attr t → (∀ x, x ∈ l → is_Some (t !! x.1)) →
  post (∃ name, (name, true) ∈ l ∧ dlsym attr name = None)
    (λ t', resolved attr t' ∧
      (∀ name m, (name, m) ∈ l → t' !! name = Some (mkSymbol name (dlsym attr name)) ∧
         (m = true → is_Some (dlsym attr name))) ∧
      (∀ name, name ∉ l.*1 → t' !! name = t !! name))
    (load_list attr l t).
Proof.
  revert t. induction l as [|[name m] l IH]; intros t Hr Hin; simpl.
  { split_and!; [done| |done]. by intros ? ? ?%elem_of_nil. }
  rewrite load_one_spec; [|done|by apply (Hin (name, m)), elem_of_cons; left].
  destruct (bool_decide (dlsym attr name = None) && m) eqn:Hf.
  { simpl. apply andb_true_iff in Hf as [Hf%bool_decide_eq_true ->]. exists name.
    split; [by apply elem_of_cons; left|done]. }
  cbn [mbind outcome_bind].
  assert (∀ x, x ∈ l → is_Some (<[name:=mkSymbol name (dlsym attr name)]> t !! x.1)) as Hin'.
  { intros x Hx. apply lookup_insert_is_Some'. right. apply Hin, elem_of_cons. by right. }
  specialize (IH _ (resolved_insert attr name t Hr) Hin').
  destruct (load_list _ _ _) as [t'| |]; simpl in *; [|destruct IH as (n & ? & ?); exists n; split; [by apply elem_of_cons; right|done]|done].
  destruct IH as (Hr' & Hl & Ho). split_and!; [done| |].
  - intros n m' [[= -> ->]|Hn]%elem_of_cons; [|by apply Hl]. split.
    + destruct (decide (name ∈ l.*1)) as [[[n' m''] [-> Hx]]%list_elem_of_fmap|Hx]; [by apply (Hl _ m'')|].
      rewrite Ho by done. by rewrite lookup_insert_eq.
    + intros ->. rewrite andb_true_r in Hf. apply bool_decide_eq_false in Hf.
      destruct (dlsym attr name); [by eexists|done].
  - intros n [Hne Hn]%not_elem_of_cons. rewrite Ho by done. by rewrite lookup_insert_ne.
Qed.

Lemma unloaded_lookup names name :
  name ∈ names → unloaded names !! name = Some (mkSymbol name None).
Proof.
  intros Hin. unfold unloaded.
  destruct (list_to_map ((λ n, (n, mkSymbol n None)) <$> names) !! name) as [s|] eqn:Hs.
  - apply elem_of_list_to_map_2 in Hs. apply list_elem_of_fmap in Hs as (n & [= -> ->] & _). done.
  - apply not_elem_of_list_to_map_2 in Hs. destruct Hs. rewrite <-list_fmap_compose.
    apply list_elem_of_fmap. by exists name.
Qed.

Lemma unloaded_resolved attr names : resolved attr (unloaded names).
Proof.
  intros name s Hs. unfold unloaded in Hs. apply elem_of_list_to_map_2 in Hs.
  apply list_elem_of_fmap in Hs as (n & [= -> ->] & _). split; [done|by left].
Qed.
End symbols.

(** ** Names of the MPI functions *)

Inductive Lang := C | Fortran.

(** The functions that [Interface] calls. *)
Inductive mpi_function :=
| F_test | F_testall | F_testany | F_testsome | F_comm_rank | F_comm_size | F_ibsend
| F_irecv | F_irsend | F_isend | F_issend | F_iallgather | F_iallgatherv | F_iallreduce
| F_ialltoall | F_ialltoallv | F_ialltoallw | F_ibarrier | F_ibcast | F_igather
| F_igatherv | F_ireduce | F_ireduce_scatter | F_ireduce_scatter_block | F_iscatter
| F_iscatterv | F_iscan | F_iexscan
| F_query_thread.

Definition Names_C (f : mpi_function) : string :=
  match f with
  | F_test => "MPI_Test"
  | F_testall => "MPI_Testall"
  | F_testany => "MPI_Testany"
  | F_testsome => "MPI_Testsome"
  | F_comm_rank => "MPI_Comm_rank"
  | F_comm_size => "MPI_Comm_size"
  | F_ibsend => "MPI_Ibsend"
  | F_irecv => "MPI_Irecv"
  | F_irsend => "MPI_Irsend"
  | F_isend => "MPI_Isend"
  | F_issend => "MPI_Issend"
  | F_iallgather => "MPI_Iallgather"
  | F_iallgatherv => "MPI_Iallgatherv"
  | F_iallreduce => "MPI_Iallreduce"
  | F_ialltoall => "MPI_Ialltoall"
  | F_ialltoallv => "MPI_Ialltoallv"
  | F_ialltoallw => "MPI_Ialltoallw"
  | F_ibarrier => "MPI_Ibarrier"
  | F_ibcast => "MPI_Ibcast"
  | F_igather => "MPI_Igather"
  | F_igatherv => "MPI_Igatherv"
  | F_ireduce => "MPI_Ireduce"
  | F_ireduce_scatter => "MPI_Ireduce_scatter"
  | F_ireduce_scatter_block => "MPI_Ireduce_scatter_block"
  | F_iscatter => "MPI_Iscatter"
  | F_iscatterv => "MPI_Iscatterv"
  | F_iscan => "MPI_Iscan"
  | F_iexscan => "MPI_Iexscan"
  | F_query_thread => "MPI_Query_thread"
  end%string.

Definition Names_Fortran (f : mpi_function) : string :=
  match f with
  | F_test => "mpi_test_"
  | F_testall => "mpi_testall_"
  | F_testany => "mpi_testany_"
  | F_testsome => "mpi_testsome_"
  | F_comm_rank => "mpi_comm_rank_"
  | F_comm_size => "mpi_comm_size_"
  | F_ibsend => "mpi_ibsend_"
  | F_irecv => "mpi_irecv_"
  | F_irsend => "mpi_irsend_"
  | F_isend => "mpi_isend_"
  | F_issend => "mpi_issend_"
  | F_iallgather => "mpi_iallgather_"
  | F_iallgatherv => "mpi_iallgatherv_"
  | F_iallreduce => "mpi_iallreduce_"
  | F_ialltoall => "mpi_ialltoall_"
  | F_ialltoallv => "mpi_ialltoallv_"
  | F_ialltoallw => "mpi_ialltoallw_"
  | F_ibarrier => "mpi_ibarrier_"
  | F_ibcast => "mpi_ibcast_"
  | F_igather => "mpi_igather_"
  | F_igatherv => "mpi_igatherv_"
  | F_ireduce => "mpi_ireduce_"
  | F_ireduce_scatter => "mpi_ireduce_scatter_"
  | F_ireduce_scatter_block => "mpi_ireduce_scatter_block_"
  | F_iscatter => "mpi_iscatter_"
  | F_iscatterv => "mpi_iscatterv_"
  | F_iscan => "mpi_iscan_"
  | F_iexscan => "mpi_iexscan_"
  | F_query_thread => "mpi_query_thread_"
  end%string.

Definition Names (lang : Lang) : mpi_function → string :=
  match lang with C => Names_C | Fortran => Names_Fortran end.

(** ** Interface *)

(** The order of [loadSymbols]. *)
Definition load_order : list mpi_function :=
  [F_test; F_testall; F_testany; F_testsome; F_comm_rank; F_comm_size; F_ibsend;
   F_irecv; F_irsend; F_isend; F_issend; F_iallgather; F_iallgatherv; F_iallreduce;
   F_ialltoall; F_ialltoallv; F_ialltoallw; F_ibarrier; F_ibcast; F_igather; F_igatherv;
   F_ireduce; F_ireduce_scatter; F_ireduce_scatter_block; F_iscatter; F_iscatterv;
   F_iscan; F_iexscan].

(** The static members of [Interface<Lang>]. *)
Record MpiInterface := mkInterface {
  if_symbols : symbols;
  if_request_null : Z;
  if_status_ignore : Z;
  if_statuses_ignore : Z;
  if_rank : Z;
  if_nranks : Z;
}.

(** Before initialisation: static members are zero. *)
Definition newInterface (lang : Lang) : MpiInterface :=
  mkInterface (unloaded (Names lang <$> load_order)) 0 0 0 0 0.

(** What MPI provides: its null request, the values that ignore a status and
    statuses, and what [MPI_Comm_rank] and [MPI_Comm_size] write for the world
    communicator, if anything (their error codes are not looked at). *)
Record mpi_world := mkMpiWorld {
  mw_request_null : Z;
  mw_status_ignore : Z;
  mw_statuses_ignore : Z;
  mw_rank : option Z;
  mw_nranks : option Z;
}.

Definition loadSymbols (dlsym : linker) (lang : Lang) (t : symbols) : outcome symbols :=
  load_list dlsym Next ((λ f, (Names lang f, true)) <$> load_order) t.

(** [Interface<Lang>::initialize]; [mw] is what MPI provides to the language.  In
    C the value that ignores one status is used for several, too. *)
Definition Interface_initialize (dlsym : linker) (lang : Lang) (mw : mpi_world)
    (i : MpiInterface) : outcome MpiInterface :=
  let statuses := match lang with C => mw_status_ignore mw | Fortran => mw_statuses_ignore mw end in
  t ← loadSymbols dlsym lang (if_symbols i);
  _ ← invoke_named (Names lang F_comm_rank) t;
  _ ← invoke_named (Names lang F_comm_size) t;
  Ok (mkInterface t (mw_request_null mw) (mw_status_ignore mw) statuses
        (default (if_rank i) (mw_rank mw)) (default (if_nranks i) (mw_nranks mw))).

(** ** Properties *)

Definition lower (c : ascii) : ascii :=
  let n := nat_of_ascii c in
  if (65 <=? n) && (n <=? 90) then ascii_of_nat (n + 32) else c.

(** The Fortran name of a C function: lower case and an underscore. *)
Definition mangle (s : string) : string :=
  String.string_of_list_ascii (lower <$> String.list_ascii_of_string s) +:+ "_".

Lemma Names_load_order lang f :
  f ∈ load_order → (Names lang f, true) ∈ (λ f, (Names lang f, true)) <$> load_order.
Proof. intros Hf. apply list_elem_of_fmap. by exists f. Qed.

(** An interface whose symbols are those of the linker, or not loaded. *)
Definition interface_ok (dlsym : linker) (lang : Lang) (i : MpiInterface) : Prop :=
  resolved dlsym Next (if_symbols i) ∧
  ∀ f, f ∈ load_order → is_Some (if_symbols i !! Names lang f).

Lemma newInterface_ok dlsym lang : interface_ok dlsym lang (newInterface lang).
Proof.
  split; [apply unloaded_resolved|]. intros f Hf. cbn [if_symbols newInterface]. rewrite unloaded_lookup; [done|].
  apply list_elem_of_fmap. by exists f.
Qed.

Lemma Interface_initialize_post dlsym lang mw i :
  interface_ok dlsym lang i →
  post (∃ f, f ∈ load_order ∧ dlsym Next (Names lang f) = None)
    (λ i', interface_ok dlsym lang i' ∧
      ∀ f, f ∈ load_order → is_Some (dlsym Next (Names lang f)) ∧
        if_symbols i' !! Names lang f = Some (mkSymbol (Names lang f) (dlsym Next (Names lang f))))
    (Interface_initialize dlsym lang mw i).
Proof.
  intros [Hr Hin]. unfold Interface_initialize, loadSymbols.
  pose proof (load_list_post dlsym Next ((λ f, (Names lang f, true)) <$> load_order) _ Hr) as Hp.
  destruct (load_list _ _ _ _) as [t|msg|why]; cbn [mbind outcome_bind post] in *.
  2:{ destruct Hp as (name & (f & [= ->] & Hf)%list_elem_of_fmap & Hn); [|by exists f].
      intros x (f & -> & Hf)%list_elem_of_fmap. by apply Hin. }
  2:{ apply Hp. intros x (f & -> & Hf)%list_elem_of_fmap. by apply Hin. }
  destruct Hp as (Hr' & Hl & _).
  { intros x (f & -> & Hf)%list_elem_of_fmap. by apply Hin. }
  assert (∀ f, f ∈ load_order → is_Some (dlsym Next (Names lang f)) ∧
    t !! Names lang f = Some (mkSymbol (Names lang f) (dlsym Next (Names lang f)))) as Hall.
  { intros f Hf. destruct (Hl _ _ (Names_load_order lang f Hf)) as [? Hs]. by split; [apply Hs|]. }
  assert (∀ f, f ∈ load_order → ∃ a, invoke_named (Names lang f) t = Ok a) as Hinv.
  { intros f Hf. destruct (Hall f Hf) as [[a Ha] Ht]. exists a. unfold invoke_named, invoke.
    rewrite Ht. simpl. by rewrite Ha. }
  destruct (Hinv F_comm_rank) as [? ->]; [set_solver|].
  destruct (Hinv F_comm_size) as [? ->]; [set_solver|]. simpl.
  split; [|done]. split; [done|]. intros f Hf. simpl. by rewrite (proj2 (Hall f Hf)).
Qed.

(** [Interface<Lang>::initialize], for both languages, never calls a symbol
    that is not loaded, stops the program exactly when one of the MPI functions
    is missing, and otherwise leaves every function bound to the next
    occurrence of its name, which for Fortran is the C name in lower case
    followed by an underscore; initialising again changes no binding. *)
Theorem interface_initialized dlsym lang mw :
  (∀ f, Names Fortran f = mangle (Names C f)) ∧
  post (∃ f, f ∈ load_order ∧ dlsym Next (Names lang f) = None)
    (λ i, (∀ f, f ∈ load_order → is_Some (dlsym Next (Names lang f)) ∧
        if_symbols i !! Names lang f = Some (mkSymbol (Names lang f) (dlsym Next (Names lang f)))) ∧
      (∃ i', Interface_initialize dlsym lang mw i = Ok i' ∧
        ∀ f, f ∈ load_order → if_symbols i' !! Names lang f = if_symbols i !! Names lang f))
    (Interface_initialize dlsym lang mw (newInterface lang)).
Proof.
  split; [by intros []|].
  pose proof (Interface_initialize_post dlsym lang mw _ (newInterface_ok dlsym lang)) as Hp.
  destruct (Interface_initialize dlsym lang mw (newInterface lang)) as [i| |]; simpl in *; [|done..].
  destruct Hp as [Hok Hall]. split; [done|].
  pose proof (Interface_initialize_post dlsym lang mw i Hok) as Hp.
  destruct (Interface_initialize dlsym lang mw i) as [i'| |]; simpl in *; [|exfalso|done].
  - exists i'. split; [done|]. intros f Hf. by rewrite (proj2 (proj2 Hp f Hf)), (proj2 (Hall f Hf)).
  - destruct Hp as (f & Hf & Hn). destruct (Hall f Hf) as [[a Ha] _]. congruence.
Qed.
