(* ===== verification/Memory.v ===== *)
(** * Padding and aligned memory

    [Padded], [PaddedArray], [Uninitialized] and [Memory]
    ([src/src/common/util/Utils.hpp]), at the level of addresses, and the
    objects that [ObjAllocator] ([src/src/common/Allocator.hpp]) lays out in
    such memory.  The system calls [mmap] and [munmap] are an interface with
    the laws their manual states. *)

From S2P Require Import Prelude ErrorHandler.
From stdpp Require Import list_numbers.

Local Open Scope Z_scope.

(** ** Layouts *)

(** What the code uses of a type. *)
Record layout := mkLayout { sizeof : Z; alignof : Z }.

Record layout_ok (T : layout) : Prop := {
  lo_align : 0 < alignof T;
  lo_size : 0 < sizeof T;
  lo_multiple : (alignof T | sizeof T);
}.

Definition CACHELINE_SIZE : Z := 64.
Definition CacheAlignment : Z := u64 (CACHELINE_SIZE * 2).

(** [Padded::roundup], on [size_t]. *)
Definition roundup (x y : Z) : Z := u64 (u64 (x + u64 (y - 1)) / y * y).

(** The length of [_padding]. *)
Definition padding (T : layout) (Size : Z) : Z := u64 (roundup (sizeof T) Size - sizeof T).

(** How a compiler lays out a structure with a [T] followed by [k] bytes. *)
Definition align_up (n a : Z) : Z := (n + a - 1) / a * a.
Definition struct_layout (T : layout) (k : Z) : layout :=
  mkLayout (align_up (sizeof T + k) (alignof T)) (alignof T).

(** [Padded<T, Size>], and where its [_value] is. *)
Definition Padded (T : layout) (Size : Z) : layout := struct_layout T (padding T Size).
Definition Padded_get (address : Z) : Z := address.

(** [PaddedArray<T, Capacity, Padding>] at the address [_data]. *)
Definition PaddedArray (T : layout) (Capacity Padding : Z) : layout :=
  mkLayout (Capacity * sizeof (Padded T Padding)) (alignof T).

Definition newPaddedArray (_data : Z) : outcome unit :=
  assert (_data `mod` CacheAlignment =? 0) "(uintptr_t) _data % CacheAlignment == 0".

Definition PaddedArray_at (T : layout) (Capacity Padding _data i : Z) : outcome Z :=
  _ ← assert (i <? Capacity) "i < Capacity";
  Ok (Padded_get (_data + i * sizeof (Padded T Padding))).

(** [Uninitialized<T, N>]: [N] times the storage of a [T]. *)
Definition Uninitialized (T : layout) (N : Z) : layout :=
  mkLayout (N * align_up (sizeof T) (alignof T)) (alignof T).
Definition Uninitialized_get (_data : Z) : Z := _data.
Definition Uninitialized_at (T : layout) (_data idx : Z) : Z :=
  Uninitialized_get _data + idx * sizeof T.

(** ** Mapped memory *)

(** The pages that are mapped; [mmap_addr] is the address that the kernel
    chooses for a mapping of a length, if there is one. *)
Class MmapLib := {
  page_size : Z;
  mmap_addr : gset Z → Z → option Z;
}.

(** mmap(2): with a null address the kernel chooses a page boundary where
    nothing is mapped. *)
Class MmapLaws (L : MmapLib) : Prop := {
  page_size_pos : 0 < page_size;
  mmap_boundary m length p : mmap_addr m length = Some p → (page_size | p);
  mmap_unused m length p a :
    mmap_addr m length = Some p → p ≤ a < p + length → a / page_size ∉ m;
}.

Section memory.
Context `{MmapLib}.
Implicit Types (m : gset Z) (T : layout).

Definition pages (address length : Z) : gset Z :=
  list_to_set (seqZ (address / page_size)
    ((address + length - 1) / page_size - address / page_size + 1)).

(** [mmap]; [None] is MAP_FAILED, which a length of zero gives. *)
Definition mmap (length : Z) m : option (Z * gset Z) :=
  if length =? 0 then None
  else (λ p, (p, m ∪ pages p length)) <$> mmap_addr m length.

(** [munmap], whose result the code ignores. *)
Definition munmap (address length : Z) m : gset Z :=
  if (length =? 0) || negb (address `mod` page_size =? 0) then m else m ∖ pages address length.

Definition alignedAlloc T (n : Z) m : outcome (Z * gset Z) :=
  match mmap (u64 (sizeof T * n)) m with
  | None => fail [RStr "Failed to allocate aligned memory"]
  | Some (ptr, m) =>
      _ ← failIf (negb (ptr `mod` CacheAlignment =? 0))
            [RStr "Aligned memory is not aligned to "; RInt CacheAlignment];
      Ok (ptr, m)
  end.

Definition alignedFree T (data n : Z) m : gset Z := munmap data (u64 (sizeof T * n)) m.

(** The loop of [ObjAllocator]'s constructor: the pointers it pushes. *)
Definition object_addresses T (_data _capacity : Z) : list Z :=
  (λ o, Padded_get (_data + o * sizeof (Padded T CacheAlignment))) <$> seqZ 0 _capacity.

(** The memory of an [ObjAllocator<T>]: its constructor and its destructor. *)
Definition newObjects T (capacity : Z) m : outcome (Z * gset Z) :=
  alignedAlloc (Padded T CacheAlignment) capacity m.
Definition deleteObjects T (_data _capacity : Z) m : gset Z :=
  alignedFree (Padded T CacheAlignment) _data _capacity m.

(** [Allocator::initialize] and [Allocator::finalize], for operations of layout
    [T] and collectives of layout [U]. *)
Definition map_allocators T U (n k : Z) m : outcome (Z * Z * gset Z) :=
  '(p2p, m) ← newObjects T n m;
  '(coll, m) ← newObjects U k m;
  Ok (p2p, coll, m).
Definition unmap_allocators T U (n k p2p coll : Z) m : gset Z :=
  deleteObjects U coll k (deleteObjects T p2p n m).
End memory.

(** ** Padded objects *)

Lemma align_up_multiple n a : 0 < a → (a | n) → align_up n a = n.
Proof.
  intros Ha [k ->]. unfold align_up. replace (k * a + a - 1) with (a - 1 + k * a) by lia.
  rewrite Z.div_add by lia. rewrite Z.div_small by lia. lia.
Qed.

(** Without overflow [roundup] gives the least multiple that is not less. *)
Lemma roundup_spec x y :
  0 < x → 0 < y → x + y ≤ u64_modulus →
  (y | roundup x y) ∧ x ≤ roundup x y < x + y.
Proof.
  intros Hx Hy Hm. unfold roundup. assert (y < u64_modulus) by lia.
  rewrite (u64_small (y - 1)), (u64_small (x + (y - 1))) by (unfold is_u64; lia).
  pose proof (Z.div_mod (x + (y - 1)) y ltac:(lia)) as Hd.
  pose proof (Z.mod_pos_bound (x + (y - 1)) y Hy) as Hb.
  rewrite u64_small by (unfold is_u64; nia).
  split; [apply Z.divide_factor_r|]. nia.
Qed.

Lemma sizeof_Padded T Size :
  layout_ok T → 0 < Size → (alignof T | Size) → sizeof T + Size ≤ u64_modulus →
  sizeof (Padded T Size) = roundup (sizeof T) Size.
Proof.
  intros [Ha Hs Hm] HS Hd Ho. destruct (roundup_spec (sizeof T) Size) as [Hr Hb]; [done..|].
  unfold Padded, padding. cbn [sizeof struct_layout].
  rewrite u64_small by (unfold is_u64; lia).
  rewrite align_up_multiple; [lia|done|].
  replace (sizeof T + (roundup (sizeof T) Size - sizeof T)) with (roundup (sizeof T) Size) by lia.
  by transitivity Size.
Qed.

Lemma PaddedArray_at_Ok T Capacity Padding _data i p :
  PaddedArray_at T Capacity Padding _data i = Ok p →
  i < Capacity ∧ p = _data + i * sizeof (Padded T Padding).
Proof.
  intros Hp. apply bind_Ok in Hp as (u & Hi%assert_Ok%Z.ltb_lt & Hp). split; [done|].
  by inversion Hp.
Qed.

(** Two objects that start at different multiples of the padded size from an
    aligned address have no byte in a common block. *)
Lemma blocks_disjoint (B size base i j a b : Z) :
  0 < B → (B | size) → base `mod` B = 0 → i ≠ j →
  base + i * size ≤ a < base + i * size + size →
  base + j * size ≤ b < base + j * size + size → a / B ≠ b / B.
Proof.
  intros HB [k ->] Hbase Hij Ha Hb Hab. apply Z.mod_divide in Hbase as [c ->]; [|lia].
  pose proof (Z.div_mod a B ltac:(lia)). pose proof (Z.mod_pos_bound a B HB).
  pose proof (Z.div_mod b B ltac:(lia)). pose proof (Z.mod_pos_bound b B HB).
  rewrite <-Hab in *. set (d := a / B) in *.
  assert (c + i * k ≤ d < c + i * k + k) by nia. assert (c + j * k ≤ d < c + j * k + k) by nia.
  nia.
Qed.

(** ** Pages *)

Section memory_proofs.
Context `{L : MmapLib} `{!MmapLaws L}.
Implicit Types (m : gset Z) (T : layout).

Lemma elem_of_pages address length k :
  0 < length → k ∈ pages address length ↔
  ∃ a, address ≤ a < address + length ∧ a / page_size = k.
Proof.
  intros Hl. pose proof page_size_pos as Hp. unfold pages. rewrite elem_of_list_to_set, elem_of_seqZ.
  split.
  - intros [Hk1 Hk2]. assert (k ≤ (address + length - 1) / page_size) as Hk3 by lia.
    exists (Z.max address (k * page_size)).
    assert (k * page_size ≤ address + length - 1).
    { pose proof (Z.mul_div_le (address + length - 1) page_size Hp). nia. }
    split; [lia|]. destruct (Z.max_spec address (k * page_size)) as [[? ->]|[? ->]].
    + apply Z.div_mul. lia.
    + assert (k ≤ address / page_size) by (apply Z.div_le_lower_bound; lia). lia.
  - intros (a & Ha & <-).
    assert (address / page_size ≤ a / page_size) by (apply Z.div_le_mono; lia).
    assert (a / page_size ≤ (address + length - 1) / page_size) by (apply Z.div_le_mono; lia). lia.
Qed.

Lemma pages_disjoint m length p :
  0 < length → mmap_addr m length = Some p → pages p length ## m.
Proof.
  intros Hl Hp k Hk Hm. apply elem_of_pages in Hk as (a & Ha & <-); [|done].
  by apply (mmap_unused m length p a).
Qed.

(** A successful allocation maps unused pages and aligned memory; [alignedFree]
    with the same arguments unmaps these pages. *)
Lemma alignedAlloc_pages T n m ptr m' :
  0 < sizeof T → 0 ≤ n → sizeof T * n < u64_modulus → alignedAlloc T n m = Ok (ptr, m') →
  ptr `mod` CacheAlignment = 0 ∧ 0 < sizeof T * n ∧
  m' = m ∪ pages ptr (sizeof T * n) ∧ pages ptr (sizeof T * n) ## m ∧
  ∀ m'', alignedFree T ptr n m'' = m'' ∖ pages ptr (sizeof T * n).
Proof.
  intros Hs Hn Ho Ha. unfold alignedAlloc, alignedFree, mmap, munmap in *.
  rewrite u64_small in * by (unfold is_u64; nia).
  destruct (Z.eqb_spec (sizeof T * n) 0) as [|Hnz]; [done|]. cbn [orb] in *.
  assert (0 < sizeof T * n) as Hpos by nia.
  destruct (mmap_addr m _) as [p|] eqn:Hp; [|done]. simpl in Ha.
  apply bind_Ok in Ha as (u & Hal%failIf_Ok & Ha). simplify_eq.
  apply negb_false_iff, Z.eqb_eq in Hal. split_and!; [done|done|done|by apply pages_disjoint|].
  intros m''. assert (ptr `mod` page_size = 0) as ->; [|done].
  pose proof page_size_pos. apply Z.mod_divide; [lia|]. by eapply mmap_boundary.
Qed.

(** The pages cover every byte of the objects. *)
Lemma alignedAlloc_Ok T n m ptr m' :
  0 < sizeof T → 0 ≤ n → sizeof T * n < u64_modulus → alignedAlloc T n m = Ok (ptr, m') →
  ptr `mod` CacheAlignment = 0 ∧
  (∀ a, ptr ≤ a < ptr + sizeof T * n → a / page_size ∈ m' ∧ a / page_size ∉ m) ∧
  alignedFree T ptr n m' = m.
Proof.
  intros Hs Hn Ho Ha. apply alignedAlloc_pages in Ha as (Hal & Hpos & -> & Hd & Hf); [|done..].
  split_and!; [done| |rewrite Hf; apply leibniz_equiv; set_solver].
  intros a Hb. assert (a / page_size ∈ pages ptr (sizeof T * n)) by (apply elem_of_pages; [done|by exists a]).
  set_solver.
Qed.

(** The address of the object that the constructor pushes at a position. *)
Lemma lookup_object_addresses T _data _capacity i p :
  object_addresses T _data _capacity !! i = Some p ↔
  p = _data + Z.of_nat i * sizeof (Padded T CacheAlignment) ∧ Z.of_nat i < _capacity.
Proof.
  unfold object_addresses, Padded_get. rewrite list_lookup_fmap, fmap_Some. split.
  - by intros (o & [-> ?]%lookup_seqZ & ->).
  - intros [-> Hi]. exists (Z.of_nat i). by rewrite lookup_seqZ_lt.
Qed.

(** The elements of a [PaddedArray] whose constructor's assertion holds
    share no cache line, nor a pair of lines that is fetched together:
    whatever the element type (with an alignment that divides the padding),
    no byte of one element is in the same [CacheAlignment]-sized block as a
    byte of another, so that threads that work on different elements do not
    contend. *)
Theorem padded_array_no_false_sharing T Capacity _data i j p q a b :
  layout_ok T → (alignof T | CacheAlignment) → sizeof T + CacheAlignment ≤ u64_modulus →
  newPaddedArray _data = Ok tt → i ≠ j →
  PaddedArray_at T Capacity CacheAlignment _data i = Ok p →
  PaddedArray_at T Capacity CacheAlignment _data j = Ok q →
  p ≤ a < p + sizeof T → q ≤ b < q + sizeof T →
  a / CacheAlignment ≠ b / CacheAlignment.
Proof.
  intros Hok Hal Ho Hn Hij Hp Hq Ha Hb. apply assert_Ok, Z.eqb_eq in Hn.
  apply PaddedArray_at_Ok in Hp as [_ ->], Hq as [_ ->].
  rewrite sizeof_Padded in Ha, Hb by done.
  destruct (roundup_spec (sizeof T) CacheAlignment) as [Hr Hb']; [apply Hok|done|done|].
  apply (blocks_disjoint CacheAlignment (roundup (sizeof T) CacheAlignment) _data i j a b);
    [done|done|done|done|lia|lia].
Qed.

(** The objects of one allocator. *)
Lemma objects_memory T capacity m data m' :
  layout_ok T → (alignof T | CacheAlignment) → sizeof T + CacheAlignment ≤ u64_modulus →
  0 ≤ capacity → sizeof (Padded T CacheAlignment) * capacity < u64_modulus →
  newObjects T capacity m = Ok (data, m') →
  let objects := object_addresses T data capacity in
  NoDup objects ∧
  (∀ i p a, objects !! i = Some p → p ≤ a < p + sizeof T →
     a / page_size ∈ m' ∧ a / page_size ∉ m) ∧
  (∀ i j p q a b, i ≠ j → objects !! i = Some p → objects !! j = Some q →
     p ≤ a < p + sizeof T → q ≤ b < q + sizeof T → a / CacheAlignment ≠ b / CacheAlignment).
Proof.
  intros Hok Hal Ho Hc Hsz Ha objects.
  pose proof (sizeof_Padded T CacheAlignment Hok ltac:(done) Hal Ho) as HsP.
  destruct (roundup_spec (sizeof T) CacheAlignment) as [Hr Hb]; [apply Hok|done|done|].
  rewrite <-HsP in Hr, Hb. pose proof (lo_size _ Hok) as Hpos.
  apply alignedAlloc_Ok in Ha as (Halign & Hmap & Hfree); [|lia|done|done].
  assert (∀ i j p q a b, i ≠ j → objects !! i = Some p → objects !! j = Some q →
    p ≤ a < p + sizeof T → q ≤ b < q + sizeof T → a / CacheAlignment ≠ b / CacheAlignment) as Hdis.
  { intros i j p q a b Hij [-> _]%lookup_object_addresses [-> _]%lookup_object_addresses Hpa Hqb.
    apply (blocks_disjoint CacheAlignment (sizeof (Padded T CacheAlignment)) data
      (Z.of_nat i) (Z.of_nat j) a b); [done|done|done|lia|lia|lia]. }
  split_and!; [| |exact Hdis].
  - apply NoDup_alt. intros i j p Hi Hj. destruct (decide (i = j)) as [|Hij]; [done|].
    by destruct (Hdis i j p p p p Hij Hi Hj ltac:(lia) ltac:(lia)).
  - intros i p a [-> Hi]%lookup_object_addresses Hp. apply Hmap. nia.
Qed.

(** An allocation by an allocator whose objects fit [size_t]. *)
Record sized (T : layout) (n : Z) : Prop := {
  sz_layout : layout_ok T;
  sz_align : (alignof T | CacheAlignment);
  sz_object : sizeof T + CacheAlignment ≤ u64_modulus;
  sz_count : 0 ≤ n;
  sz_total : sizeof (Padded T CacheAlignment) * n < u64_modulus;
}.

Lemma sized_pos T n : sized T n → 0 < sizeof (Padded T CacheAlignment).
Proof.
  intros [Hok Hal Ho _ _]. rewrite sizeof_Padded by done. pose proof (lo_size _ Hok).
  destruct (roundup_spec (sizeof T) CacheAlignment); [done..|lia].
Qed.

(** The pages of an allocator were unused, and its destructor gives them back. *)
Lemma newObjects_pages T n m ptr m' :
  sized T n → newObjects T n m = Ok (ptr, m') →
  ∃ ps, m' = m ∪ ps ∧ ps ## m ∧ ∀ m'', deleteObjects T ptr n m'' = m'' ∖ ps.
Proof.
  intros Hsz Ha. apply alignedAlloc_pages in Ha as (_ & _ & -> & Hd & Hf);
    [by eexists|by eapply sized_pos|apply Hsz..].
Qed.

(** C24: the memory of the two object allocators, from [Allocator::initialize]
    to [Allocator::finalize].  If the memory for the operations and for the
    collectives could be mapped (their total sizes fit [size_t]), then in each
    allocator the pointers that the constructor pushes are distinct; every byte
    of every object is in memory that was not mapped before; objects at
    different positions share no [CacheAlignment]-sized block; no operation
    shares a page with a collective; and finalizing gives back exactly what was
    mapped, although it does so in the order of the allocations. *)
Theorem allocator_memory T U n k m p2p coll m' :
  sized T n → sized U k → map_allocators T U n k m = Ok (p2p, coll, m') →
  let separate V data count := let objects := object_addresses V data count in
    NoDup objects ∧
    (∀ i p a, objects !! i = Some p → p ≤ a < p + sizeof V → a / page_size ∈ m' ∖ m) ∧
    (∀ i j p q a b, i ≠ j → objects !! i = Some p → objects !! j = Some q →
       p ≤ a < p + sizeof V → q ≤ b < q + sizeof V → a / CacheAlignment ≠ b / CacheAlignment) in
  separate T p2p n ∧ separate U coll k ∧
  (∀ i j p q a b, object_addresses T p2p n !! i = Some p → object_addresses U coll k !! j = Some q →
     p ≤ a < p + sizeof T → q ≤ b < q + sizeof U → a / page_size ≠ b / page_size) ∧
  unmap_allocators T U n k p2p coll m' = m.
Proof.
  intros HT HU Ha. apply bind_Ok in Ha as ([p m1] & Hp & Ha). apply bind_Ok in Ha as ([c m2] & Hc & Ha).
  simplify_eq. cbv zeta.
  destruct (newObjects_pages _ _ _ _ _ HT Hp) as (ps & -> & Hd1 & Hf1).
  destruct (newObjects_pages _ _ _ _ _ HU Hc) as (qs & -> & Hd2 & Hf2).
  destruct (objects_memory T n m _ _ (sz_layout _ _ HT) (sz_align _ _ HT) (sz_object _ _ HT)
    (sz_count _ _ HT) (sz_total _ _ HT) Hp) as (Hn1 & Hm1 & Hs1).
  destruct (objects_memory U k _ _ _ (sz_layout _ _ HU) (sz_align _ _ HU) (sz_object _ _ HU)
    (sz_count _ _ HU) (sz_total _ _ HU) Hc) as (Hn2 & Hm2 & Hs2).
  split_and!; [done| |done|done| |done| |].
  - intros i p a Hi Hb. destruct (Hm1 i p a Hi Hb). set_solver.
  - intros i p a Hi Hb. destruct (Hm2 i p a Hi Hb). set_solver.
  - intros i j p q a b Hi Hj Hb Hb' Heq. destruct (Hm1 i p a Hi Hb), (Hm2 j q b Hj Hb').
    rewrite Heq in *. set_solver.
  - unfold unmap_allocators. rewrite Hf2, Hf1. apply leibniz_equiv. set_solver.
Qed.
End memory_proofs.

(** The storage of [Uninitialized<T, N>] holds its [N] elements, next to each
    other. *)
Lemma uninitialized_bounds T N _data idx :
  layout_ok T → 0 ≤ idx < N →
  _data ≤ Uninitialized_at T _data idx ∧
  Uninitialized_at T _data idx + sizeof T ≤ _data + sizeof (Uninitialized T N) ∧
  Uninitialized_at T _data idx + sizeof T = Uninitialized_at T _data (idx + 1).
Proof.
  intros [Ha Hs Hm] Hi. unfold Uninitialized_at, Uninitialized_get. cbn [sizeof Uninitialized].
  rewrite align_up_multiple by done. nia.
Qed.

(** ** Witnesses *)

(** A kernel that maps after the last mapped page, in pages of 4096 bytes. *)
Definition last_page (m : gset Z) : Z := set_fold Z.max 0 m.

#[local] Instance demo_mmap : MmapLib :=
  {| page_size := 4096; mmap_addr m _ := Some ((last_page m + 1) * 4096) |}.

Lemma last_page_le m k : k ∈ m → k ≤ last_page m.
Proof.
  unfold last_page. revert k. apply (set_fold_ind_L (λ r X, ∀ k, k ∈ X → k ≤ r)); [set_solver|].
  intros x X r _ IH k [->%elem_of_singleton|Hk]%elem_of_union; [lia|]. specialize (IH k Hk). lia.
Qed.

#[local] Instance demo_mmap_laws : MmapLaws demo_mmap.
Proof.
  split; simpl; [lia| |].
  - intros m length p [= <-]. apply Z.divide_factor_r.
  - intros m length p a [= <-] Ha Hm. apply last_page_le in Hm.
    assert (last_page m + 1 ≤ a / 4096) by (apply Z.div_le_lower_bound; lia). lia.
Qed.

(** An operation of 72 bytes. *)
Definition demo_layout : layout := mkLayout 72 8.

Lemma demo_layout_ok : layout_ok demo_layout.
Proof. split; [done|done|]. by exists 9. Qed.

Lemma padded_array_no_false_sharing_witness :
  PaddedArray_at demo_layout 4 CacheAlignment 1024 1 = Ok 1152 ∧ 1223 / CacheAlignment ≠ 1280 / CacheAlignment.
Proof.
  split; [reflexivity|].
  apply (padded_array_no_false_sharing demo_layout 4 1024 1 2 1152 1280 1223 1280);
    [exact demo_layout_ok|by exists 16|done|reflexivity|done|reflexivity|reflexivity|
     simpl; lia|simpl; lia].
Defined.

Lemma demo_sized n : 0 ≤ n < 2 ^ 32 → sized demo_layout n.
Proof.
  intros Hn. split; [exact demo_layout_ok|by exists 16|done|lia|].
  assert (sizeof (Padded demo_layout CacheAlignment) = 128) as -> by reflexivity. unfold u64_modulus. lia.
Qed.

Lemma allocator_memory_witness :
  map_allocators demo_layout demo_layout 2 3 ∅ = Ok (4096, 8192, {[1; 2]}) ∧
  NoDup (object_addresses demo_layout 4096 2) ∧
  unmap_allocators demo_layout demo_layout 2 3 4096 8192 {[1; 2]} = ∅.
Proof.
  assert (map_allocators demo_layout demo_layout 2 3 ∅ = Ok (4096, 8192, {[1; 2]})) as Ha
    by (vm_compute; reflexivity).
  split; [exact Ha|].
  destruct (allocator_memory demo_layout demo_layout 2 3 ∅ 4096 8192 {[1; 2]}
    (demo_sized 2 ltac:(lia)) (demo_sized 3 ltac:(lia)) Ha) as ((Hn & _) & _ & _ & Hf).
  split; [exact Hn|exact Hf].
Defined.
