(* ===== verification/ArrayView.v ===== *)
(** * Array views

    [ArrayView], [reverse_adaptor] and [reverse]
    ([src/src/common/util/ArrayView.hpp]).  The array that a view refers to is
    a list; a pointer into it is an index, one past the end included, and
    pointer arithmetic that leaves the array is undefined.  *)

From S2P Require Import Prelude.

Local Open Scope Z_scope.

(** Conversion of a 64-bit integer to [int]. *)
Definition int_of (z : Z) : Z := (z + 2 ^ 31) `mod` 2 ^ 32 - 2 ^ 31.

Lemma int_of_small z : - 2 ^ 31 ≤ z < 2 ^ 31 → int_of z = z.
Proof. intros. unfold int_of. rewrite Z.mod_small by lia. lia. Qed.

Section array_view.
Context {T : Type} (array : list T).

(** [p + n] on pointers; [*p]. *)
Definition ptr_add (p n : Z) : outcome Z :=
  _ ← assert (bool_decide (0 ≤ p + n ≤ Z.of_nat (length array))) "pointer arithmetic";
  Ok (p + n).

Definition deref (p : Z) : outcome T :=
  _ ← assert (0 <=? p) "pointer dereference";
  read (array !! Z.to_nat p) "pointer dereference".

Record ArrayView := mkView { _begin : Z; _end : Z }.
Implicit Types v : ArrayView.

(** The two constructors: [static_cast<size_t>] makes a negative [int] huge. *)
Definition ArrayView_int (begin length : Z) : outcome ArrayView :=
  _end ← ptr_add begin (u64 length);
  _ ← assert (0 <=? length) "length >= 0";
  Ok (mkView begin _end).

Definition ArrayView_size (begin length : Z) : outcome ArrayView :=
  _end ← ptr_add begin length;
  Ok (mkView begin _end).

(** [begin] and [end], of a constant view or not. *)
Definition begin v : Z := _begin v.
Definition end_of v : Z := _end v.

(** [size], an [int]; [empty]; [operator[]]; [data]. *)
Definition size v : Z := int_of (end_of v - begin v).
Definition empty v : bool := begin v =? end_of v.
Definition at_position v (position : Z) : outcome T :=
  p ← ptr_add (_begin v) position; deref p.
Definition data v : Z := _begin v.

(** A [T *], or a [std::reverse_iterator] with its base. *)
Inductive iterator := Pointer (p : Z) | ReverseIterator (base : Z).

Definition it_deref (i : iterator) : outcome T :=
  match i with
  | Pointer p => deref p
  | ReverseIterator base => p ← ptr_add base (-1); deref p
  end.

Definition it_next (i : iterator) : outcome iterator :=
  match i with
  | Pointer p => p ← ptr_add p 1; Ok (Pointer p)
  | ReverseIterator base => p ← ptr_add base (-1); Ok (ReverseIterator p)
  end.

#[global] Instance iterator_eq_dec : EqDecision iterator.
Proof. solve_decision. Defined.

(** What [reverse] can be given: a view or the result of [reverse]. *)
Inductive iterable := View (v : ArrayView) | reverse (it : iterable).

(** [begin], [end], [rbegin] and [rend]; [true] selects the reverse pair. *)
Fixpoint first (reversed : bool) (it : iterable) : iterator :=
  match it with
  | View v => if reversed then ReverseIterator (end_of v) else Pointer (begin v)
  | reverse it => first (negb reversed) it
  end.

Fixpoint last_of (reversed : bool) (it : iterable) : iterator :=
  match it with
  | View v => if reversed then ReverseIterator (begin v) else Pointer (end_of v)
  | reverse it => last_of (negb reversed) it
  end.

(** [for (T &x : it)]: the elements that the body sees. *)
Fixpoint for_range (fuel : nat) (i last : iterator) : outcome (list T) :=
  if decide (i = last) then Ok []
  else match fuel with
       | O => Undef "fuel"
       | S fuel =>
           x ← it_deref i;
           i ← it_next i;
           l ← for_range fuel i last;
           Ok (x :: l)
       end.

Definition loop (fuel : nat) (it : iterable) : outcome (list T) :=
  for_range fuel (first false it) (last_of false it).

(** The elements of a view. *)
Definition elements v : list T :=
  take (Z.to_nat (_end v - _begin v)) (drop (Z.to_nat (_begin v)) array).

Definition view_ok v : Prop := 0 ≤ _begin v ≤ _end v ∧ _end v ≤ Z.of_nat (length array).

Lemma ptr_add_Ok p n : 0 ≤ p + n ≤ Z.of_nat (length array) → ptr_add p n = Ok (p + n).
Proof. intros Hp. unfold ptr_add. by rewrite bool_decide_eq_true_2. Qed.

Lemma deref_Ok (p : nat) x : array !! p = Some x → deref (Z.of_nat p) = Ok x.
Proof.
  intros Hx. unfold deref. rewrite (proj2 (Z.leb_le _ _)) by lia. simpl. by rewrite Nat2Z.id, Hx.
Qed.

(** Both constructors give the view of the elements that were asked for. *)
Lemma ArrayView_int_ok (begin n : nat) :
  (begin + n ≤ length array)%nat → (Z.of_nat n < u64_modulus)%Z →
  ArrayView_int (Z.of_nat begin) (Z.of_nat n) = Ok (mkView (Z.of_nat begin) (Z.of_nat (begin + n))).
Proof.
  intros Hn Hu. unfold ArrayView_int. rewrite u64_small by (unfold is_u64; lia).
  rewrite ptr_add_Ok by lia. simpl. rewrite (proj2 (Z.leb_le _ _)) by lia. simpl. f_equal. f_equal. lia.
Qed.

(** A negative length is always stopped. *)
Lemma ArrayView_int_negative begin n : n < 0 → ¬ ∃ v, ArrayView_int begin n = Ok v.
Proof.
  intros Hn [v Hv]. unfold ArrayView_int in Hv. apply bind_Ok in Hv as (e & _ & Hv).
  apply bind_Ok in Hv as (u & Ha%assert_Ok & _). apply Z.leb_le in Ha. lia.
Qed.

Lemma for_range_forward fuel (p n : nat) :
  (n ≤ fuel)%nat → (p + n ≤ length array)%nat →
  for_range fuel (Pointer (Z.of_nat p)) (Pointer (Z.of_nat (p + n))) = Ok (take n (drop p array)).
Proof.
  revert fuel p. induction n as [|n IH]; intros fuel p Hf Hn.
  { rewrite Nat.add_0_r. destruct fuel; simpl; by rewrite decide_True. }
  destruct fuel as [|fuel]; [lia|]. simpl. rewrite decide_False by (intros [= ?]; lia).
  destruct (lookup_lt_is_Some_2 array p) as [x Hx]; [lia|].
  rewrite (deref_Ok p x Hx). simpl. rewrite ptr_add_Ok by lia. simpl.
  replace (Z.of_nat p + 1) with (Z.of_nat (S p)) by lia.
  replace (p + S n)%nat with (S p + n)%nat by lia. rewrite IH by lia. simpl.
  by rewrite (drop_S array x p Hx).
Qed.

Lemma for_range_backward fuel (p n : nat) :
  (n ≤ fuel)%nat → (p + n ≤ length array)%nat →
  for_range fuel (ReverseIterator (Z.of_nat (p + n))) (ReverseIterator (Z.of_nat p)) =
    Ok (rev (take n (drop p array))).
Proof.
  revert fuel. induction n as [|n IH]; intros fuel Hf Hn.
  { rewrite Nat.add_0_r. destruct fuel; simpl; by rewrite decide_True. }
  destruct fuel as [|fuel]; [lia|]. simpl. rewrite decide_False by (intros [= ?]; lia).
  destruct (lookup_lt_is_Some_2 array (p + n)) as [x Hx]; [lia|].
  rewrite ptr_add_Ok by lia. replace (Z.of_nat (p + S n) + -1) with (Z.of_nat (p + n)) by lia.
  simpl. rewrite (deref_Ok _ x Hx). simpl. rewrite IH by lia. simpl.
  rewrite (take_S_r _ n x) by (by rewrite lookup_drop). by rewrite rev_app_distr.
Qed.

(** How often [reverse] was applied, modulo two. *)
Fixpoint reversed (it : iterable) : bool :=
  match it with View _ => false | reverse it => negb (reversed it) end.
Fixpoint view_of (it : iterable) : ArrayView :=
  match it with View v => v | reverse it => view_of it end.

Lemma first_reversed b it : first b it = first (xorb b (reversed it)) (View (view_of it)).
Proof.
  revert b. induction it as [v|it IH]; intros b; [by destruct b|]. cbn [first reversed view_of].
  rewrite IH. by destruct b, (reversed it).
Qed.

Lemma last_reversed b it : last_of b it = last_of (xorb b (reversed it)) (View (view_of it)).
Proof.
  revert b. induction it as [v|it IH]; intros b; [by destruct b|]. cbn [last_of reversed view_of].
  rewrite IH. by destruct b, (reversed it).
Qed.

(** A range-based loop over a view, or over the result of any number of
    [reverse]s of it, ends after as many steps as the view has elements and
    sees exactly these, in order or in the opposite order. *)
Theorem array_view_loops it fuel :
  view_ok (view_of it) → (length (elements (view_of it)) ≤ fuel)%nat →
  loop fuel it = Ok (if reversed it then rev (elements (view_of it)) else elements (view_of it)).
Proof.
  unfold loop. rewrite first_reversed, last_reversed. generalize (view_of it) as v.
  intros [b e] [[Hb Hbe] He] Hf. unfold elements in *. cbn [_begin _end] in *.
  rewrite length_take_le in Hf by (rewrite length_drop; lia).
  rewrite <-(Z2Nat.id b) by lia. replace e with (Z.of_nat (Z.to_nat b + Z.to_nat (e - b))) by lia.
  rewrite !Nat2Z.id. replace (Z.to_nat (Z.of_nat (Z.to_nat b + Z.to_nat (e - b)) - Z.of_nat (Z.to_nat b)))
    with (Z.to_nat (e - b)) by lia.
  destruct (reversed it); cbn [first last_of xorb begin end_of _begin _end]; [apply for_range_backward|apply for_range_forward]; lia.
Qed.

(** [size] is the number of elements when that fits an [int]. *)
Lemma size_elements v :
  view_ok v → Z.of_nat (length (elements v)) < 2 ^ 31 → size v = Z.of_nat (length (elements v)).
Proof.
  intros [[Hb Hbe] He] Hn. unfold elements, size, begin, end_of in *.
  rewrite length_take_le in * by (rewrite length_drop; lia). rewrite Z2Nat.id in * by lia.
  apply int_of_small. lia.
Qed.

(** A longer view, which the constructor from [size_t] can make, has a size below
    zero. *)
Lemma size_truncated v :
  view_ok v → 2 ^ 31 ≤ Z.of_nat (length (elements v)) < 2 ^ 32 → size v < 0.
Proof.
  intros [[Hb Hbe] He] Hn. unfold elements, size, begin, end_of, int_of in *.
  rewrite length_take_le in Hn by (rewrite length_drop; lia). rewrite Z2Nat.id in Hn by lia.
  rewrite <-(Z.mod_unique (_end v - _begin v + 2 ^ 31) (2 ^ 32) 1 (_end v - _begin v - 2 ^ 31)); lia.
Qed.

Lemma empty_elements v : view_ok v → empty v = bool_decide (elements v = []).
Proof.
  intros [[Hb Hbe] He]. apply eq_bool_prop_intro. unfold empty, begin, end_of. rewrite bool_decide_spec.
  rewrite <-length_zero_iff_nil. unfold elements.
  rewrite length_take_le by (rewrite length_drop; lia). rewrite Is_true_true, Z.eqb_eq. lia.
Qed.

(** [operator[]] does not check the position: it reads any element of the
    array after the begin of the view. *)
Lemma at_position_elements v (i : nat) x :
  view_ok v → elements v !! i = Some x → at_position v (Z.of_nat i) = Ok x.
Proof.
  intros [[Hb Hbe] He] Hx. unfold elements in Hx. apply lookup_take_Some in Hx as [Hx Hi].
  rewrite lookup_drop in Hx. unfold at_position. apply lookup_lt_Some in Hx as Hl.
  rewrite ptr_add_Ok by lia. simpl.
  replace (_begin v + Z.of_nat i) with (Z.of_nat (Z.to_nat (_begin v) + i)) by lia. by apply deref_Ok.
Qed.
End array_view.

Lemma array_view_loops_witness :
  loop [1; 2; 3; 4]%nat 2 (reverse (View (mkView 1 3))) = Ok [3; 2]%nat.
Proof.
  apply (array_view_loops [1; 2; 3; 4]%nat (reverse (View (mkView 1 3))) 2);
    [split; simpl; lia|simpl; lia].
Defined.
