(* ===== verification/Queues.v ===== *)
(** * Bounded queues

    The queue of [boost::lockfree], as an interface with laws; the
    [BoostLockFreeQueue] of [src/src/common/util/BoostLockFreeQueue.hpp] built
    on it; and [OpQueue], what [TicketManager] needs of its two pre-queues. *)

From S2P Require Import Prelude.

(** ** The third-party single-producer single-consumer queue *)

(** Operations of [boost::lockfree::spsc_queue].  [spsc_push] and [spsc_pop]
    are the array variants: they push or pop as many elements as fit and report
    how many.  [spsc_contents] is the logical state, oldest element first. *)
Class SpscLib := {
  spsc : Type → Type;
  spsc_new {A} : nat → spsc A;
  spsc_push {A} : list A → spsc A → nat * spsc A;
  spsc_pop {A} : nat → spsc A → list A * spsc A;
  spsc_read_available {A} : spsc A → nat;
  spsc_contents {A} : spsc A → list A;
  spsc_capacity {A} : spsc A → nat;
}.

(** The documented behaviour of those operations: a bounded FIFO. *)
Class SpscLaws `{SpscLib} := {
  spsc_new_spec {A} n :
    spsc_contents (A:=A) (spsc_new n) = [] ∧ spsc_capacity (A:=A) (spsc_new n) = n;
  spsc_push_spec {A} (l : list A) q :
    let k := length l `min` (spsc_capacity q - length (spsc_contents q)) in
    (spsc_push l q).1 = k ∧
    spsc_contents (spsc_push l q).2 = spsc_contents q ++ take k l ∧
    spsc_capacity (spsc_push l q).2 = spsc_capacity q;
  spsc_pop_spec {A} n (q : spsc A) :
    (spsc_pop n q).1 = take n (spsc_contents q) ∧
    spsc_contents (spsc_pop n q).2 = drop n (spsc_contents q) ∧
    spsc_capacity (spsc_pop n q).2 = spsc_capacity q;
  spsc_read_available_spec {A} (q : spsc A) :
    spsc_read_available q = length (spsc_contents q);
}.

(** A reference implementation, a list with a bound; it shows that the laws
    are satisfiable and lets the operations below be evaluated. *)
Module ListSpsc.
#[export] Instance list_spsc : SpscLib := {|
  spsc A := (nat * list A)%type;
  spsc_new A n := (n, []);
  spsc_push A l q :=
    let k := length l `min` (q.1 - length q.2) in (k, (q.1, q.2 ++ take k l));
  spsc_pop A n q := (take n q.2, (q.1, drop n q.2));
  spsc_read_available A q := length q.2;
  spsc_contents A q := q.2;
  spsc_capacity A q := q.1;
|}.

#[export] Instance list_spsc_laws : SpscLaws.
Proof. by split. Qed.
End ListSpsc.

(** ** What the ticket manager needs of a pre-queue *)

(** A queue of operations.  [q_pop] may return fewer elements than asked for, but
    something whenever there is something.  [q_push cpu x q] is one attempt of a
    producer on CPU [cpu]: when it yields [false] the producer keeps spinning. *)
Class OpQueue (Q A : Type) := {
  q_push : nat → A → Q → outcome (bool * Q);
  q_pop : nat → Q → outcome (list A * Q);
  q_contents : Q → list A;
  q_inv : Q → Prop;
  q_cpu : Q → nat → Prop;
}.

Class OpQueueLaws (Q A : Type) `{OpQueue Q A} := {
  q_pop_spec n (q : Q) :
    q_inv q →
    ∃ vs q', q_pop n q = Ok (vs, q') ∧ q_inv q' ∧
      length vs ≤ n ∧ q_contents q ≡ₚ vs ++ q_contents q' ∧
      (0 < n → q_contents q ≠ [] → vs ≠ []);
  q_push_spec cpu x (q : Q) :
    q_inv q → q_cpu q cpu →
    post True (λ '(pushed, q'), q_inv q' ∧
        q_contents q' ≡ₚ if (pushed : bool) then x :: q_contents q else q_contents q)
      (q_push cpu x q);
  q_pop_cpu n (q q' : Q) vs :
    q_inv q → q_pop n q = Ok (vs, q') → ∀ cpu, q_cpu q' cpu ↔ q_cpu q cpu;
  q_push_cpu cpu x (q q' : Q) pushed :
    q_inv q → q_cpu q cpu → q_push cpu x q = Ok (pushed, q') → ∀ cpu', q_cpu q' cpu' ↔ q_cpu q cpu';
}.

(** ** BoostLockFreeQueue *)

Module Boost.
Section boost.
Context `{SpscLib} {A : Type}.

(** The adder spinlock only serialises producers; see [SpinLock.v]. *)
Record BoostLockFreeQueue := mkBoost {
  _multipleProducers : bool;
  _fullFailure : bool;
  _queue : spsc A;
}.

Definition set_queue (b : BoostLockFreeQueue) (q : spsc A) : BoostLockFreeQueue :=
  mkBoost (_multipleProducers b) (_fullFailure b) q.

(** [BoostLockFreeQueue(multipleProducers)], with the value of
    TAMPI_QUEUES_FULL_FAILURE (false when the envar is absent). *)
Definition Size : nat := 32 * 1024.
Definition new (multipleProducers fullFailure : bool) : BoostLockFreeQueue :=
  mkBoost multipleProducers fullFailure (spsc_new Size).

Definition pushOrFail (elements : list A) (b : BoostLockFreeQueue) :
    outcome BoostLockFreeQueue :=
  let '(pushed, q) := spsc_push elements (_queue b) in
  if decide (pushed = length elements) then Ok (set_queue b q)
  else Fail "BoostLockFreeQueue is full".

(** The retry loop of [pushCont].  [env] says how many elements the consumer
    pops during each [SpinWait::wait]; the result is the number of elements
    pushed when the loop leaves, or when the schedule ends, together with the
    elements the consumer took meanwhile. *)
Fixpoint pushCont_loop (env : list nat) (elements : list A) (pushed : nat)
    (q : spsc A) : nat * list A * spsc A :=
  match env with
  | [] => (pushed, [], q)
  | n :: env =>
      let '(popped, q) := spsc_pop n q in
      let '(k, q) := spsc_push (drop pushed elements) q in
      if pushed + k <? length elements then
        let '(pushed', popped', q') := pushCont_loop env elements (pushed + k) q in
        (pushed', popped ++ popped', q')
      else (pushed + k, popped, q)
  end.

Definition pushCont (env : list nat) (elements : list A) (b : BoostLockFreeQueue) :
    nat * list A * BoostLockFreeQueue :=
  let '(pushed, q) := spsc_push elements (_queue b) in
  if decide (pushed = length elements) then (pushed, [], set_queue b q)
  else let '(pushed, popped, q) := pushCont_loop env elements pushed q in
       (pushed, popped, set_queue b q).

(** [push(elements, count)]: the elements pushed, those the consumer took
    while the producer was spinning, and the queue. *)
Definition push (env : list nat) (elements : list A) (b : BoostLockFreeQueue) :
    outcome (nat * list A * BoostLockFreeQueue) :=
  if _fullFailure b then
    b ← pushOrFail elements b; Ok (length elements, [], b)
  else Ok (pushCont env elements b).

Definition pop (count : nat) (b : BoostLockFreeQueue) : list A * BoostLockFreeQueue :=
  let '(vs, q) := spsc_pop count (_queue b) in (vs, set_queue b q).

Definition contents (b : BoostLockFreeQueue) : list A := spsc_contents (_queue b).
Definition capacity (b : BoostLockFreeQueue) : nat := spsc_capacity (_queue b).
End boost.
Arguments BoostLockFreeQueue {_} _.

Section boost_proofs.
Context `{SpscLib, !SpscLaws} {A : Type}.
Implicit Types (b : BoostLockFreeQueue A) (q : spsc A).

Lemma pop_contents n b :
  contents b = (pop n b).1 ++ contents (pop n b).2.
Proof.
  unfold pop, contents. pose proof (spsc_pop_spec n (_queue b)) as (Hv & Hc & _).
  destruct (spsc_pop n (_queue b)) as [vs q]; simpl in *. subst vs.
  by rewrite Hc, take_drop.
Qed.

Lemma pop_length n b : length (pop n b).1 = n `min` length (contents b).
Proof.
  unfold pop, contents. pose proof (spsc_pop_spec n (_queue b)) as (Hv & _).
  destruct (spsc_pop n (_queue b)) as [vs q]; simpl in *. subst vs.
  by rewrite length_take.
Qed.

(** The loop neither loses nor reorders elements. *)
Lemma pushCont_loop_fifo env elements pushed q :
  pushed ≤ length elements →
  let '(pushed', popped, q') := pushCont_loop env elements pushed q in
  pushed ≤ pushed' ≤ length elements ∧
  popped ++ spsc_contents q' =
    spsc_contents q ++ drop pushed (take pushed' elements).
Proof.
  revert pushed q. induction env as [|n env IH]; intros pushed q Hle; simpl.
  { split; [lia|]. rewrite drop_ge by (rewrite length_take; lia).
    by rewrite app_nil_r. }
  destruct (spsc_pop n q) as [popped q1] eqn:Hpop.
  pose proof (spsc_pop_spec n q) as (Hp & Hq1 & _). rewrite Hpop in Hp, Hq1; simpl in *.
  destruct (spsc_push (drop pushed elements) q1) as [k q2] eqn:Hpush.
  pose proof (spsc_push_spec (drop pushed elements) q1) as (Hk & Hq2 & _).
  rewrite Hpush in Hk, Hq2. simpl in *. rewrite length_drop in Hk. rewrite length_drop in Hq2.
  rewrite <-Hk in Hq2.
  assert (∀ m, pushed + k ≤ m → m ≤ length elements →
    drop pushed (take m elements) =
      take k (drop pushed elements) ++ drop (pushed + k) (take m elements)) as Hsplit.
  { intros m Hm1 Hm2. rewrite <-(take_drop k (drop pushed (take m elements))), drop_drop.
    f_equal. rewrite skipn_firstn_comm, take_take. f_equal. lia. }
  destruct (Nat.ltb_spec (pushed + k) (length elements)).
  - specialize (IH (pushed + k) q2 ltac:(lia)).
    destruct (pushCont_loop env elements (pushed + k) q2) as [[pushed' popped'] q'].
    destruct IH as [Hr IH]. split; [lia|].
    rewrite <-app_assoc, IH, Hq2, Hq1, (Hsplit pushed') by lia.
    by rewrite Hp, !app_assoc, take_drop.
  - split; [lia|]. rewrite Hq2, Hq1, (Hsplit (pushed + k)) by lia.
    rewrite (drop_ge (take (pushed + k) elements)) by (rewrite length_take; lia).
    rewrite app_nil_r, Hp, app_assoc. by rewrite take_drop.
Qed.

(** Once the consumer makes room, the loop makes progress: as many schedule
    entries with at least one pop as there are elements left are enough. *)
Lemma pushCont_loop_progress env elements pushed q :
  pushed < length elements →
  length elements - pushed ≤ length env →
  Forall (λ n, 0 < n) env →
  0 < spsc_capacity q →
  length (spsc_contents q) ≤ spsc_capacity q →
  (pushCont_loop env elements pushed q).1.1 = length elements.
Proof.
  revert pushed q. induction env as [|n env IH]; intros pushed q Hlt Hlen Hpos Hcap Hb;
    simpl in *; [lia|].
  apply Forall_cons in Hpos as [Hn Hpos].
  destruct (spsc_pop n q) as [popped q1] eqn:Hpop.
  pose proof (spsc_pop_spec n q) as (_ & Hq1 & Hc1). rewrite Hpop in Hq1, Hc1; simpl in *.
  destruct (spsc_push (drop pushed elements) q1) as [k q2] eqn:Hpush.
  pose proof (spsc_push_spec (drop pushed elements) q1) as (Hk & Hq2 & Hc2).
  rewrite Hpush in Hk, Hq2, Hc2; simpl in *. rewrite length_drop, Hq1, length_drop in Hk.
  destruct (Nat.ltb_spec (pushed + k) (length elements)) as [Hlt'|]; [|simpl; lia].
  specialize (IH (pushed + k) q2).
  destruct (pushCont_loop env elements (pushed + k) q2) as [[? ?] ?]; simpl in *.
  apply IH; [lia|lia|done|lia|].
  rewrite Hq2, length_app, length_take, Hq1, !length_drop. lia.
Qed.

#[global] Instance boost_op_queue : OpQueue (BoostLockFreeQueue A) A := {|
  q_push _ x b := '(pushed, _, b) ← push [] [x] b; Ok (bool_decide (pushed = 1), b);
  q_pop n b := Ok (pop n b);
  q_contents := contents;
  q_inv _ := True;
  q_cpu _ _ := True;
|}.

(** One attempt to push one element. *)
Lemma push_one_post x b :
  post True (λ '(pushed, _, b'), contents b' =
      if bool_decide (pushed = 1) then contents b ++ [x] else contents b)
    (push [] [x] b).
Proof.
  pose proof (spsc_push_spec [x] (_queue b)) as (Hk & Hc & _).
  unfold push, pushOrFail, pushCont.
  destruct (spsc_push [x] (_queue b)) as [k q] eqn:Heq; cbn [fst snd length] in *.
  unfold contents in *. destruct (_fullFailure b); simpl; case_decide as Hd; simpl; try done.
  - rewrite Hc, <-Hk, Hd. done.
  - rewrite Hc, <-Hk, Hd. done.
  - rewrite bool_decide_eq_false_2 by done. rewrite Hc, <-Hk.
    assert (k = 0) as -> by lia. simpl. by rewrite app_nil_r.
Qed.

#[global] Instance boost_op_queue_laws : OpQueueLaws (BoostLockFreeQueue A) A.
Proof.
  split; [| |done..].
  2:{ intros cpu x b _ _. cbn [q_push q_contents q_inv boost_op_queue].
      eapply post_bind; [apply push_one_post|]. intros [[pushed popped] b'] _ Hc. simpl.
      split; [done|]. rewrite Hc. case_bool_decide; solve_Permutation. }
  intros n b _. exists (pop n b).1, (pop n b).2.
  pose proof (pop_contents n b) as Hc. pose proof (pop_length n b) as Hl.
  simpl. split_and!; [by destruct (pop n b)|done|lia|by rewrite <-Hc|].
  intros Hn Hne Hnil. apply Hne, nil_length_inv. rewrite Hnil in Hl. simpl in Hl. lia.
Qed.
End boost_proofs.

(** ** Properties *)

(** C25: pushing a batch of elements, with any amount of consumption while the
    producer spins, neither loses nor reorders anything: what the consumer
    took followed by what is queued is what was queued followed by the elements
    pushed so far.  With TAMPI_QUEUES_FULL_FAILURE the call either pushes all
    elements or stops with the message. *)
Theorem boost_push_fifo `{SpscLib, !SpscLaws} {A} (env : list nat) (elements : list A)
    (b : BoostLockFreeQueue A) :
  match push env elements b with
  | Ok (pushed, popped, b') =>
      pushed ≤ length elements ∧
      popped ++ contents b' = contents b ++ take pushed elements ∧
      (_fullFailure b = true → pushed = length elements ∧ popped = [])
  | Fail msg => msg = "BoostLockFreeQueue is full" ∧ _fullFailure b = true ∧
      capacity b < length (contents b) + length elements
  | Undef _ => False
  end.
Proof.
  unfold push, pushOrFail, pushCont, contents, capacity.
  pose proof (spsc_push_spec elements (_queue b)) as (Hk & Hc & _).
  destruct (spsc_push elements (_queue b)) as [k q] eqn:Heq; cbn [fst snd] in *.
  rewrite <-Hk in Hc. destruct (_fullFailure b).
  - case_decide as Hd; simpl; [|split_and!; [done..|lia]].
    split_and!; [done| |done]. by rewrite Hc, Hd.
  - case_decide as Hd; simpl; [split_and!; [lia|by rewrite Hc, Hd|done]|].
    pose proof (pushCont_loop_fifo env elements k q ltac:(lia)) as Hf.
    destruct (pushCont_loop env elements k q) as [[pushed popped] q'].
    destruct Hf as [Hr Hf]. simpl. split_and!; [lia| |done].
    rewrite Hf, Hc, <-app_assoc. f_equal.
    rewrite <-(take_drop k (take pushed elements)) at 2. rewrite take_take.
    by replace (k `min` pushed) with k by lia.
Qed.

(** A producer that spins on a full queue gets through: once the consumer
    has popped something as many times as there are elements left, all
    elements are pushed. *)
Theorem boost_push_progress `{SpscLib, !SpscLaws} {A} (env : list nat) (elements : list A)
    (b : BoostLockFreeQueue A) :
  _fullFailure b = false → 0 < capacity b → length (contents b) ≤ capacity b →
  Forall (λ n, 0 < n) env → length elements ≤ length env →
  ∃ popped b', push env elements b = Ok (length elements, popped, b').
Proof.
  unfold push, pushCont, contents, capacity. intros -> Hcap Hle Henv Hlen.
  pose proof (spsc_push_spec elements (_queue b)) as (Hk & Hc & Hc').
  destruct (spsc_push elements (_queue b)) as [k q] eqn:Heq; cbn [fst snd] in *.
  case_decide as Hd; [subst k; by rewrite Hd; eexists _, _|].
  pose proof (pushCont_loop_progress env elements k q ltac:(lia) ltac:(lia) Henv) as Hp.
  rewrite Hc', Hc, length_app, length_take in Hp. specialize (Hp Hcap ltac:(lia)).
  destruct (pushCont_loop env elements k q) as [[pushed popped] q']. simpl in Hp. subst pushed.
  by eexists _, _.
Qed.

Section boost_witness.
Import ListSpsc.

(** A full queue of capacity 2. *)
Definition full_pair : BoostLockFreeQueue nat :=
  mkBoost true false (spsc_push [5; 6] (spsc_new 2)).2.

(** The consumer takes one element while the producer spins: one of two new
    elements gets in. *)
Lemma boost_push_fifo_witness :
  ∃ popped b', push [1] [7; 8] full_pair = Ok (1, popped, b') ∧
    popped ++ contents b' = [5; 6; 7].
Proof.
  pose proof (boost_push_fifo [1] [7; 8] full_pair) as Hf.
  destruct (push [1] [7; 8] full_pair) as [[[pushed popped] b']| |] eqn:Hp; [|by vm_compute in Hp..].
  assert (pushed = 1) as -> by (vm_compute in Hp; congruence).
  exists popped, b'. destruct Hf as (_ & Hf & _). split; [reflexivity|exact Hf].
Defined.

Lemma boost_push_progress_witness :
  ∃ popped b', push [1; 2; 1] [7; 8; 9] full_pair = Ok (3, popped, b').
Proof.
  apply (boost_push_progress [1; 2; 1] [7; 8; 9] full_pair);
    [reflexivity|vm_compute; lia..|repeat constructor|vm_compute; lia].
Defined.
End boost_witness.
End Boost.
