(* ===== verification/MultiQueue.v ===== *)
(** * MultiLockFreeQueue

    The pre-queue of point-to-point operations,
    [src/src/common/util/MultiLockFreeQueue.hpp]: one ring buffer per logical
    CPU, filled by the tasks of that CPU and drained by the polling task, with
    counters cached on both sides.  Operations are atomic here; [RingMemory.v]
    takes one ring buffer apart into its memory accesses. *)

From S2P Require Import Prelude Queues.

(** ** The code *)

Section code.
Context {A : Type}.

Record MultiLockFreeQueue := mkMLFQ {
  _capacity : nat;
  _queues : nat;
  _data : gmap nat A;
  _fullFailure : bool;
  _tail : list nat;
  _remaining : list nat;
  _head : list nat;
  _available : list nat;
  _totalRemaining : nat;
  _current : nat;
}.
Implicit Types s : MultiLockFreeQueue.

Definition set_data (d : gmap nat A) s := mkMLFQ (_capacity s) (_queues s) d
  (_fullFailure s) (_tail s) (_remaining s) (_head s) (_available s) (_totalRemaining s) (_current s).
Definition set_tail (l : list nat) s := mkMLFQ (_capacity s) (_queues s) (_data s)
  (_fullFailure s) l (_remaining s) (_head s) (_available s) (_totalRemaining s) (_current s).
Definition set_remaining (l : list nat) s := mkMLFQ (_capacity s) (_queues s) (_data s)
  (_fullFailure s) (_tail s) l (_head s) (_available s) (_totalRemaining s) (_current s).
Definition set_head (l : list nat) s := mkMLFQ (_capacity s) (_queues s) (_data s)
  (_fullFailure s) (_tail s) (_remaining s) l (_available s) (_totalRemaining s) (_current s).
Definition set_available (l : list nat) s := mkMLFQ (_capacity s) (_queues s) (_data s)
  (_fullFailure s) (_tail s) (_remaining s) (_head s) l (_totalRemaining s) (_current s).
Definition set_total (n : nat) s := mkMLFQ (_capacity s) (_queues s) (_data s)
  (_fullFailure s) (_tail s) (_remaining s) (_head s) (_available s) n (_current s).
Definition set_current (n : nat) s := mkMLFQ (_capacity s) (_queues s) (_data s)
  (_fullFailure s) (_tail s) (_remaining s) (_head s) (_available s) (_totalRemaining s) n.

Definition MaxQueues {B : Build} : nat := MaxSystemCPUs.

(** The constructor; [ncpus] is [TaskingModel::getNumLogicalCPUs()] and
    [fullFailure] the value of TAMPI_QUEUES_FULL_FAILURE. *)
Definition new {B : Build} (Capacity ncpus : nat) (fullFailure : bool) : outcome MultiLockFreeQueue :=
  _ ← fail_if (MaxQueues <? ncpus) "Maximum number of queues exceeded";
  Ok (mkMLFQ Capacity ncpus ∅ fullFailure (replicate ncpus 0) (replicate ncpus 0)
        (replicate ncpus 0) (replicate ncpus 0) 0 0).

(** [size_t] subtraction wraps: the second branch is computed modulo 2^64. *)
Definition ring_distance (capacity head tail : nat) : nat :=
  if tail <=? head then head - tail
  else Z.to_nat (u64 (u64 (Z.of_nat head - Z.of_nat tail) + Z.of_nat capacity)).

Definition getRemaining (queue : nat) s : outcome nat :=
  _ ← assert (queue <? _queues s) "queue < _queues";
  head ← read (_head s !! queue) "_head";
  tail ← read (_tail s !! queue) "_tail";
  _ ← assert (head <? _capacity s) "head < _capacity";
  _ ← assert (tail <? _capacity s) "tail < _capacity";
  Ok (ring_distance (_capacity s) head tail).

(** The loop of [updateRemaining] from queue [q] on. *)
Fixpoint updateRemaining_loop (n q total : nat) s : outcome (nat * MultiLockFreeQueue) :=
  match n with
  | 0 => Ok (total, s)
  | S n =>
      val ← getRemaining q s;
      updateRemaining_loop n (S q) (total + val) (set_remaining (<[q := val]> (_remaining s)) s)
  end.
Definition updateRemaining s : outcome (nat * MultiLockFreeQueue) :=
  updateRemaining_loop (_queues s) 0 0 s.

Definition getAvailable (queue : nat) s : outcome nat :=
  _ ← assert (queue <? _queues s) "queue < _queues";
  r ← getRemaining queue s;
  Ok (_capacity s - (r + 1)).

Definition unsafePush (queue : nat) (elems : list A) s : outcome MultiLockFreeQueue :=
  let n := length elems in
  _ ← assert (queue <? _queues s) "queue < _queues";
  _ ← assert (0 <? n) "n > 0";
  av ← read (_available s !! queue) "_available";
  _ ← assert (n <=? av) "n <= _available[queue]";
  let s := set_available (<[queue := av - n]> (_available s)) s in
  let base := queue * _capacity s in
  head ← read (_head s !! queue) "_head";
  let n0 := n `min` (_capacity s - head) in
  let s := set_data (store (base + head) (take n0 elems) (_data s)) s in
  let s := set_data (store base (drop n0 elems) (_data s)) s in
  Ok (set_head (<[queue := (head + n) `mod` _capacity s]> (_head s)) s).

Definition unsafePop (queue n : nat) s : outcome (list A * MultiLockFreeQueue) :=
  _ ← assert (queue <? _queues s) "queue < _queues";
  _ ← assert (0 <? n) "n > 0";
  rm ← read (_remaining s !! queue) "_remaining";
  _ ← assert (n <=? rm) "n <= _remaining[queue]";
  let s := set_remaining (<[queue := rm - n]> (_remaining s)) s in
  let base := queue * _capacity s in
  tail ← read (_tail s !! queue) "_tail";
  let n0 := n `min` (_capacity s - tail) in
  values0 ← read (slice (_data s) (base + tail) n0) "data[tail + i]";
  values1 ← read (slice (_data s) base (n - n0)) "data[i]";
  Ok (values0 ++ values1,
      set_tail (<[queue := (tail + n) `mod` _capacity s]> (_tail s)) s).

(** The inner [for] loop of [cyclicRoundRobinPop]: [n] iterations are left. *)
Fixpoint cyclic_for (n queues perQueue missing : nat) (remaining : list nat) (current : nat) :
    outcome (nat * list nat * nat) :=
  match n with
  | 0 => Ok (missing, remaining, current)
  | S n =>
      if missing =? 0 then Ok (missing, remaining, current) else
      _ ← assert (current <? queues) "_current < _queues";
      r ← read (remaining !! current) "remaining[_current]";
      let avail := r `min` perQueue in
      cyclic_for n queues perQueue (missing - avail)
        (<[current := r - avail]> remaining) ((current + 1) `mod` queues)
  end.

(** The outer [while (missing > 0)] loop; [fuel] bounds its iterations. *)
Fixpoint cyclic_while (fuel queues missing : nat) (remaining : list nat) (current : nat) :
    outcome (list nat * nat) :=
  match fuel with
  | 0 => Undef "cyclicRoundRobinPop does not terminate"
  | S fuel =>
      if missing =? 0 then Ok (remaining, current) else
      let perQueue := (missing / queues) `max` 1 in
      '(missing, remaining, current) ← cyclic_for queues queues perQueue missing remaining current;
      cyclic_while fuel queues missing remaining current
  end.

(** The copy loop [while (i < n)]; [todo] is [n - i], so the loop ends when
    [todo] is zero (the code would not notice an overshoot either). *)
Fixpoint cyclic_copy (fuel : nat) (remaining : list nat) (q todo : nat) s :
    outcome (list A * MultiLockFreeQueue) :=
  match fuel with
  | 0 => Undef "cyclicRoundRobinPop does not terminate"
  | S fuel =>
      if todo =? 0 then Ok ([], s) else
      _ ← assert (q <? _queues s) "q < _queues";
      r0 ← read (_remaining s !! q) "_remaining[q]";
      r1 ← read (remaining !! q) "remaining[q]";
      let assigned := r0 - r1 in
      let q' := (q + 1) `mod` _queues s in
      if 0 <? assigned then
        '(vs, s) ← unsafePop q assigned s;
        '(vs', s) ← cyclic_copy fuel remaining q' (todo - assigned) s;
        Ok (vs ++ vs', s)
      else cyclic_copy fuel remaining q' todo s
  end.

(** The common head of both pop policies: refresh the cached counters when
    they do not cover the request, and clip the request. *)
Definition refresh (n : nat) s : outcome (nat * MultiLockFreeQueue) :=
  if _totalRemaining s <? n then
    '(total, s) ← updateRemaining s;
    Ok (n `min` total, set_total total s)
  else Ok (n, s).

Definition cyclicRoundRobinPop (n : nat) s : outcome (list A * MultiLockFreeQueue) :=
  if n =? 0 then Ok ([], s) else
  '(n, s) ← refresh n s;
  if n =? 0 then Ok ([], s) else
  let queue0 := _current s in
  '(remaining, current) ← cyclic_while (S n) (_queues s) n (_remaining s) (_current s);
  let s := set_total (_totalRemaining s - n) (set_current current s) in
  cyclic_copy (S (_queues s)) remaining queue0 n s.

(** [while (i < n)] of [blockRoundRobinPop], [todo] being [n - i]. *)
Fixpoint block_copy (fuel todo : nat) s : outcome (list A * MultiLockFreeQueue) :=
  match fuel with
  | 0 => Undef "blockRoundRobinPop does not terminate"
  | S fuel =>
      if todo =? 0 then Ok ([], s) else
      _ ← assert (_current s <? _queues s) "_current < _queues";
      r ← read (_remaining s !! _current s) "_remaining[_current]";
      let assigned := r `min` todo in
      if assigned =? 0 then
        block_copy fuel todo (set_current ((_current s + 1) `mod` _queues s) s)
      else
        '(vs, s) ← unsafePop (_current s) assigned s;
        '(vs', s) ← block_copy fuel (todo - assigned) s;
        Ok (vs ++ vs', s)
  end.

Definition blockRoundRobinPop (n : nat) s : outcome (list A * MultiLockFreeQueue) :=
  if n =? 0 then Ok ([], s) else
  '(n, s) ← refresh n s;
  if n =? 0 then Ok ([], s) else
  let s := set_total (_totalRemaining s - n) s in
  block_copy (2 * _queues s + 2) n s.

(** [pop(values, n)] with the policy of the queue, and [pop(element)]. *)
Inductive MultiQueuePopPolicy := CyclicRoundRobin | BlockRoundRobin.

Definition pop (Policy : MultiQueuePopPolicy) (n : nat) s : outcome (list A * MultiLockFreeQueue) :=
  match Policy with
  | CyclicRoundRobin => cyclicRoundRobinPop n s
  | BlockRoundRobin => blockRoundRobinPop n s
  end.

Definition pop_one (Policy : MultiQueuePopPolicy) s : outcome (option A * MultiLockFreeQueue) :=
  '(vs, s) ← pop Policy 1 s;
  Ok (if length vs =? 1 then head vs else None, s).

(** [push(element, queue)] *)
Definition tryPush (element : A) (queue : nat) s : outcome (bool * MultiLockFreeQueue) :=
  av ← read (_available s !! queue) "_available[queue]";
  '(av, s) ← (if av =? 0 then
                av ← getAvailable queue s;
                Ok (av, set_available (<[queue := av]> (_available s)) s)
              else Ok (av, s));
  if av =? 0 then Ok (false, s)
  else s ← unsafePush queue [element] s; Ok (true, s).

(** [push(element)] on logical CPU [cpu].  Without TAMPI_QUEUES_FULL_FAILURE
    a full queue makes the caller spin; the result [false] says that it is
    still spinning after this attempt. *)
Definition push (element : A) (cpu : nat) s : outcome (bool * MultiLockFreeQueue) :=
  _ ← assert (cpu <? _queues s) "queue < _queues";
  '(pushed, s) ← tryPush element cpu s;
  if (pushed : bool) then Ok (true, s)
  else if _fullFailure s then Fail "MultiLockFreeQueue is full" else Ok (false, s).

Definition empty s : outcome (bool * MultiLockFreeQueue) :=
  if _totalRemaining s =? 0 then
    '(total, s) ← updateRemaining s;
    Ok (total =? 0, set_total total s)
  else Ok (false, s).
End code.
Arguments MultiLockFreeQueue : clear implicits.

(** ** Abstraction and invariant *)

(** The elements of a ring of [capacity] cells at [base]: [n] cells from
    [tail] on, wrapping around. *)
Definition ring_list {A} (capacity : nat) (data : gmap nat A) (base tail n : nat) : list A :=
  omap (λ j, data !! (base + (tail + j) `mod` capacity)) (seq 0 n).

Definition count {A} (s : MultiLockFreeQueue A) (k : nat) : nat :=
  ring_distance (_capacity s) (_head s !!! k) (_tail s !!! k).

(** The elements queued by logical CPU [k], oldest first. *)
Definition contents {A} (s : MultiLockFreeQueue A) (k : nat) : list A :=
  ring_list (_capacity s) (_data s) (k * _capacity s) (_tail s !!! k) (count s k).

Definition all_contents {A} (s : MultiLockFreeQueue A) : list A :=
  mjoin (contents s <$> seq 0 (_queues s)).

(** One ring: indices in range, the consumer's cached counter no larger than
    the number of elements, the producer's no larger than the free space (one
    cell always stays empty), and every queued cell written. *)
Record ring_ok {A} (s : MultiLockFreeQueue A) (k : nat) : Prop := {
  ro_head : _head s !!! k < _capacity s;
  ro_tail : _tail s !!! k < _capacity s;
  ro_remaining : _remaining s !!! k ≤ count s k;
  ro_available : _available s !!! k + count s k + 1 ≤ _capacity s;
  ro_data j : j < count s k →
    is_Some (_data s !! (k * _capacity s + (_tail s !!! k + j) `mod` _capacity s));
}.

Record rings_ok {A} (s : MultiLockFreeQueue A) : Prop := {
  rs_capacity : 0 < _capacity s;
  rs_width : (Z.of_nat (_capacity s) < u64_modulus)%Z;
  rs_queues : 0 < _queues s;
  rs_head : length (_head s) = _queues s;
  rs_tail : length (_tail s) = _queues s;
  rs_remaining : length (_remaining s) = _queues s;
  rs_available : length (_available s) = _queues s;
  rs_ring k : k < _queues s → ring_ok s k;
}.

Record inv {A} (s : MultiLockFreeQueue A) : Prop := {
  inv_rings : rings_ok s;
  inv_current : _current s < _queues s;
  inv_total : _totalRemaining s = sum_upto (λ k, _remaining s !!! k) (_queues s);
}.

(** ** Rings *)

Section rings.
Context {A : Type}.
Implicit Types (data : gmap nat A) (s : MultiLockFreeQueue A).

Lemma ring_distance_eq capacity h t :
  (Z.of_nat capacity < u64_modulus)%Z → h < capacity → t < capacity →
  ring_distance capacity h t = if decide (t ≤ h) then h - t else h + capacity - t.
Proof.
  intros Hc Hh Ht. unfold ring_distance.
  destruct (Nat.leb_spec t h); case_decide; try lia.
  rewrite u64_add_l, u64_small by (unfold is_u64; lia). lia.
Qed.

Lemma ring_list_length capacity data base tail n :
  (∀ j, j < n → is_Some (data !! (base + (tail + j) `mod` capacity))) →
  length (ring_list capacity data base tail n) = n.
Proof.
  intros H. unfold ring_list. rewrite <-(length_seq n 0) at 2.
  assert (∀ j, j ∈ seq 0 n → is_Some (data !! (base + (tail + j) `mod` capacity))) as H'.
  { intros j Hj%elem_of_seq. apply H. lia. }
  clear H. induction (seq 0 n) as [|j l IH]; [done|]. csimpl.
  destruct (H' j) as [x Hx]; [set_solver|]. rewrite Hx. csimpl. f_equal. apply IH. set_solver.
Qed.

Lemma ring_list_ext capacity data1 data2 base1 base2 tail1 tail2 n :
  (∀ j, j < n → data1 !! (base1 + (tail1 + j) `mod` capacity) =
                data2 !! (base2 + (tail2 + j) `mod` capacity)) →
  ring_list capacity data1 base1 tail1 n = ring_list capacity data2 base2 tail2 n.
Proof.
  intros H. unfold ring_list.
  assert (∀ j, j ∈ seq 0 n → data1 !! (base1 + (tail1 + j) `mod` capacity) =
                data2 !! (base2 + (tail2 + j) `mod` capacity)) as H'.
  { intros j Hj%elem_of_seq. apply H. lia. }
  clear H. induction (seq 0 n) as [|j l IH]; [done|]. csimpl.
  rewrite (H' j) by set_solver. rewrite IH by set_solver. done.
Qed.

Lemma ring_list_app capacity data base tail n m :
  ring_list capacity data base tail (n + m) =
  ring_list capacity data base tail n ++
  ring_list capacity data base ((tail + n) `mod` capacity) m.
Proof.
  unfold ring_list. rewrite seq_app, omap_app. f_equal. simpl.
  rewrite <-(Nat.add_0_r n) at 1. rewrite <-fmap_add_seq.
  generalize (seq 0 m) as l. induction l as [|j l IH]; [done|]. csimpl.
  rewrite Nat.Div0.add_mod_idemp_l, Nat.add_assoc, IH. done.
Qed.

Lemma ring_list_lookup capacity data base tail n i :
  (∀ j, j < n → is_Some (data !! (base + (tail + j) `mod` capacity))) →
  i < n →
  ring_list capacity data base tail n !! i = data !! (base + (tail + i) `mod` capacity).
Proof.
  intros Hsome Hi. replace n with (i + S (n - i - 1)) by lia.
  assert (length (ring_list capacity data base tail i) = i) as Hlen.
  { apply ring_list_length. intros; apply Hsome; lia. }
  rewrite ring_list_app, lookup_app_r, Hlen, Nat.sub_diag by lia.
  unfold ring_list. csimpl. rewrite Nat.add_0_r, Nat.Div0.mod_mod.
  by destruct (Hsome i Hi) as [x ->].
Qed.

(** Reading a ring with the two loops of [unsafePop]. *)
Lemma ring_read capacity data base tail n :
  0 < capacity → tail < capacity → n ≤ capacity →
  (∀ j, j < n → is_Some (data !! (base + (tail + j) `mod` capacity))) →
  let n0 := n `min` (capacity - tail) in
  ∃ l0 l1, slice data (base + tail) n0 = Some l0 ∧ slice data base (n - n0) = Some l1 ∧
    l0 ++ l1 = ring_list capacity data base tail n.
Proof.
  intros Hc Ht Hn Hsome n0.
  assert (∀ j, j < n0 → base + (tail + j) `mod` capacity = base + tail + j) as Hlo.
  { intros j Hj. rewrite mod_wrap by lia. case_decide; lia. }
  assert (∀ j, j < n - n0 → base + (tail + (n0 + j)) `mod` capacity = base + j) as Hhi.
  { intros j Hj. rewrite mod_wrap by lia. case_decide; lia. }
  destruct (slice_is_Some data (base + tail) n0) as [l0 Hl0].
  { intros i Hi. replace i with (base + tail + (i - base - tail)) by lia.
    rewrite <-Hlo by lia. apply Hsome. lia. }
  destruct (slice_is_Some data base (n - n0)) as [l1 Hl1].
  { intros i Hi. replace i with (base + (i - base)) by lia.
    rewrite <-Hhi by lia. apply Hsome. lia. }
  exists l0, l1. split_and!; [done..|].
  apply slice_Some in Hl0 as [Hlen0 Hl0]. apply slice_Some in Hl1 as [Hlen1 Hl1].
  apply list_eq. intros i. unfold ring_list.
  destruct (decide (i < n)) as [Hi|Hi].
  2:{ rewrite lookup_ge_None_2 by (rewrite length_app; lia). symmetry.
      apply lookup_ge_None_2. fold (ring_list capacity data base tail n).
      rewrite ring_list_length by done. lia. }
  fold (ring_list capacity data base tail n). rewrite ring_list_lookup by done.
  destruct (decide (i < n0)).
  - rewrite lookup_app_l, <-Hl0, <-Hlo by lia. done.
  - rewrite lookup_app_r, Hlen0, <-Hl1, <-Hhi by lia.
    do 3 f_equal. lia.
Qed.

(** Writing [elems] with the two loops of [unsafePush]. *)
Lemma ring_write capacity data base head (elems : list A) i :
  0 < capacity → head < capacity → length elems ≤ capacity → i < capacity →
  let n0 := length elems `min` (capacity - head) in
  store base (drop n0 elems) (store (base + head) (take n0 elems) data)
    !! (base + (head + i) `mod` capacity) =
  if decide (i < length elems) then elems !! i
  else data !! (base + (head + i) `mod` capacity).
Proof.
  intros Hc Hh Hlen Hi n0. rewrite !lookup_store, length_drop, length_take, mod_wrap by lia.
  repeat case_decide; try lia; try done.
  - rewrite lookup_drop. f_equal. lia.
  - rewrite lookup_take_lt by lia. f_equal. lia.
Qed.
End rings.

(** ** Pushing and popping on one ring *)

(** Everything but the ring of queue [k] is untouched. *)
Definition same_shape {A} (s s' : MultiLockFreeQueue A) : Prop :=
  _capacity s' = _capacity s ∧ _queues s' = _queues s ∧ _fullFailure s' = _fullFailure s.

Section ring_ops.
Context {A : Type}.
Implicit Types (s : MultiLockFreeQueue A).

Lemma ring_cells_disjoint capacity j k p q :
  j ≠ k → p < capacity → q < capacity → j * capacity + p ≠ k * capacity + q.
Proof. intros Hne Hp Hq Heq. apply Hne. nia. Qed.

Lemma store_other_ring capacity (data : gmap nat A) j k p start (l : list A) :
  j ≠ k → p < capacity → start + length l ≤ capacity →
  store (k * capacity + start) l data !! (j * capacity + p) = data !! (j * capacity + p).
Proof.
  intros Hne Hp Hl. rewrite lookup_store. case_decide as Hd; [|done]. exfalso.
  destruct (decide (j < k)); nia.
Qed.

Lemma getRemaining_spec s k :
  rings_ok s → k < _queues s → getRemaining k s = Ok (count s k).
Proof.
  intros Hs Hk. pose proof (rs_ring s Hs k Hk) as [Hh Ht _ _ _].
  unfold getRemaining. rewrite !list_lookup_lookup_total_lt
    by (rewrite ?(rs_head s Hs), ?(rs_tail s Hs); lia). simpl.
  rewrite !(proj2 (Nat.ltb_lt _ _)) by lia. done.
Qed.

Lemma count_lt s k : rings_ok s → k < _queues s → count s k < _capacity s.
Proof. intros Hs Hk. pose proof (rs_ring s Hs k Hk) as [_ _ _ Ha _]. lia. Qed.

Lemma contents_length s k :
  rings_ok s → k < _queues s → length (contents s k) = count s k.
Proof. intros Hs Hk. apply ring_list_length. apply (ro_data _ _ (rs_ring s Hs k Hk)). Qed.

Lemma getAvailable_spec s k :
  rings_ok s → k < _queues s → getAvailable k s = Ok (_capacity s - (count s k + 1)).
Proof.
  intros Hs Hk. unfold getAvailable. rewrite getRemaining_spec by done.
  by rewrite (proj2 (Nat.ltb_lt _ _)) by lia.
Qed.

(** A ring whose fields and cells are those of [s] is well formed and holds
    the same elements. *)
Lemma ring_frame s s' j :
  _capacity s' = _capacity s →
  _head s' !!! j = _head s !!! j → _tail s' !!! j = _tail s !!! j →
  _remaining s' !!! j ≤ _remaining s !!! j →
  _available s' !!! j ≤ _available s !!! j →
  (∀ p, p < _capacity s → _data s' !! (j * _capacity s + p) = _data s !! (j * _capacity s + p)) →
  0 < _capacity s →
  ring_ok s j → ring_ok s' j ∧ contents s' j = contents s j.
Proof.
  intros Hc Hh Ht Hr Ha Hd Hpos [H1 H2 H3 H4 H5].
  assert (count s' j = count s j) as Hcount by (unfold count; congruence).
  split.
  - constructor; rewrite ?Hcount, ?Hc, ?Hh, ?Ht; try lia.
    intros i Hi. rewrite Hd by (by apply mod_lt). auto.
  - unfold contents. rewrite Hcount, Hc, Ht. apply ring_list_ext. intros i Hi.
    by rewrite Hd by (by apply mod_lt).
Qed.

Lemma ring_tail_distance capacity h t :
  (Z.of_nat capacity < u64_modulus)%Z → h < capacity → t < capacity →
  (t + ring_distance capacity h t) `mod` capacity = h.
Proof.
  intros Hc Hh Ht. rewrite ring_distance_eq by done.
  rewrite mod_wrap by (repeat case_decide; lia). repeat case_decide; lia.
Qed.

Lemma ring_distance_push capacity h t n :
  (Z.of_nat capacity < u64_modulus)%Z → h < capacity → t < capacity →
  ring_distance capacity h t + n < capacity →
  ring_distance capacity ((h + n) `mod` capacity) t = ring_distance capacity h t + n.
Proof.
  intros Hc Hh Ht. rewrite !ring_distance_eq; [|try done; apply mod_lt; lia..].
  intros Hn. rewrite mod_wrap by (repeat case_decide; lia). repeat case_decide; lia.
Qed.

Lemma ring_distance_pop capacity h t n :
  (Z.of_nat capacity < u64_modulus)%Z → h < capacity → t < capacity →
  n ≤ ring_distance capacity h t →
  ring_distance capacity h ((t + n) `mod` capacity) = ring_distance capacity h t - n.
Proof.
  intros Hc Hh Ht. rewrite !ring_distance_eq; [|try done; apply mod_lt; lia..].
  intros Hn. rewrite mod_wrap by (repeat case_decide; lia). repeat case_decide; lia.
Qed.

(** The cells of a ring after [elems] were written at its head. *)
Lemma ring_push_cells capacity (data : gmap nat A) base h t (elems : list A) j :
  let d := ring_distance capacity h t in
  let n0 := length elems `min` (capacity - h) in
  let data' := store base (drop n0 elems) (store (base + h) (take n0 elems) data) in
  (Z.of_nat capacity < u64_modulus)%Z → h < capacity → t < capacity →
  d + length elems < capacity → j < d + length elems →
  data' !! (base + (t + j) `mod` capacity) =
    if decide (j < d) then data !! (base + (t + j) `mod` capacity) else elems !! (j - d).
Proof.
  intros d n0 data' Hc Hh Ht Hlen Hj.
  pose proof (ring_tail_distance capacity h t Hc Hh Ht) as Hd. fold d in Hd.
  assert (∀ i, (h + i) `mod` capacity = (t + (d + i)) `mod` capacity) as Hpos.
  { intros i. rewrite <-Hd, Nat.Div0.add_mod_idemp_l. f_equal. lia. }
  case_decide.
  - assert ((t + j) `mod` capacity = (h + (capacity - d + j)) `mod` capacity) as ->.
    { rewrite Hpos. replace (t + (d + (capacity - d + j))) with (t + j + 1 * capacity) by lia.
      by rewrite Nat.Div0.mod_add. }
    unfold data', n0. rewrite ring_write by lia. by case_decide; [lia|].
  - replace (t + j) with (t + (d + (j - d))) by lia. rewrite <-Hpos.
    unfold data', n0. rewrite ring_write by lia. by case_decide; [|lia].
Qed.

Lemma unsafePush_spec s k elems :
  rings_ok s → k < _queues s → 0 < length elems ≤ _available s !!! k →
  ∃ s', unsafePush k elems s = Ok s' ∧ rings_ok s' ∧ same_shape s s' ∧
    contents s' k = contents s k ++ elems ∧
    (∀ j, j < _queues s → j ≠ k → contents s' j = contents s j) ∧
    _remaining s' = _remaining s ∧ _totalRemaining s' = _totalRemaining s ∧
    _current s' = _current s.
Proof.
  intros Hs Hk [Hn0 Hn]. pose proof (rs_ring s Hs k Hk) as [Hh Ht Hr Ha Hd].
  destruct Hs as [Hcap Hw Hq Lh Lt Lr La Hring].
  unfold unsafePush. rewrite (proj2 (Nat.ltb_lt k _)), (proj2 (Nat.ltb_lt 0 _)) by lia.
  rewrite list_lookup_lookup_total_lt by lia. simpl.
  rewrite (proj2 (Nat.leb_le _ _)), list_lookup_lookup_total_lt by lia. simpl.
  eexists; split; [done|].
  match goal with |- rings_ok ?x ∧ _ => set (s' := x) end.
  assert (∀ j, j < _queues s → j ≠ k → ring_ok s' j ∧ contents s' j = contents s j) as Hother.
  { intros j Hj Hne. apply ring_frame; simpl; rewrite ?list_lookup_total_insert_ne by done;
      try done; [|by apply Hring].
    intros p Hp. rewrite <-(Nat.add_0_r (k * _capacity s)) at 1.
    rewrite !store_other_ring; [done|..]; rewrite ?length_drop, ?length_take; lia. }
  assert (count s' k = count s k + length elems) as Hcount.
  { unfold count in *; simpl. rewrite list_lookup_total_insert_eq by lia.
    apply ring_distance_push; [done..|lia]. }
  pose proof (λ j, ring_push_cells (_capacity s) (_data s) (k * _capacity s) _ _ elems j
    Hw Hh Ht ltac:(unfold count in Ha; lia)) as Hcells; simpl in Hcells.
  fold (count s k) in Hcells.
  assert (∀ j, j < count s' k → is_Some
    (_data s' !! (k * _capacity s + (_tail s !!! k + j) `mod` _capacity s))) as Hsome.
  { intros j Hj. rewrite Hcount in Hj. simpl. rewrite Hcells by lia.
    case_decide; [auto|]. apply lookup_lt_is_Some. lia. }
  split_and!; try done; [constructor; try done; simpl; rewrite ?length_insert; try done|..].
  - intros j Hj. destruct (decide (j = k)) as [->|]; [|by apply Hother].
    constructor; try done; rewrite ?Hcount; simpl; rewrite ?list_lookup_total_insert_eq by lia;
      try lia. by apply mod_lt.
  - apply list_eq. intros i. unfold contents. simpl.
    destruct (decide (i < count s' k)) as [Hi|Hi].
    + rewrite ring_list_lookup by done. rewrite Hcount in Hi. rewrite Hcells by done.
      case_decide.
      * rewrite lookup_app_l by (rewrite ring_list_length; done). by rewrite ring_list_lookup.
      * rewrite lookup_app_r; rewrite ring_list_length; try done; lia.
    + rewrite !lookup_ge_None_2; [done|..]; rewrite ?length_app, !ring_list_length by done; lia.
  - intros j Hj Hne. by apply Hother.
Qed.

Lemma unsafePop_spec s k n :
  rings_ok s → k < _queues s → 0 < n ≤ _remaining s !!! k →
  ∃ s', unsafePop k n s = Ok (take n (contents s k), s') ∧ rings_ok s' ∧ same_shape s s' ∧
    contents s' k = drop n (contents s k) ∧
    (∀ j, j < _queues s → j ≠ k → contents s' j = contents s j) ∧
    _remaining s' = <[k := _remaining s !!! k - n]> (_remaining s) ∧
    _totalRemaining s' = _totalRemaining s ∧ _current s' = _current s.
Proof.
  intros Hs Hk [Hn0 Hn]. pose proof (rs_ring s Hs k Hk) as [Hh Ht Hr Ha Hd].
  destruct Hs as [Hcap Hw Hq Lh Lt Lr La Hring].
  destruct (ring_read (_capacity s) (_data s) (k * _capacity s) (_tail s !!! k) n)
    as (l0 & l1 & Hl0 & Hl1 & Hl); [lia..| |]; [intros; apply Hd; lia|].
  assert (contents s k = (l0 ++ l1) ++ ring_list (_capacity s) (_data s) (k * _capacity s)
    ((_tail s !!! k + n) `mod` _capacity s) (count s k - n)) as Hcont.
  { unfold contents. rewrite Hl, <-ring_list_app. f_equal. lia. }
  assert (length (l0 ++ l1) = n) as Hlen.
  { rewrite Hl. apply ring_list_length. intros. apply Hd. lia. }
  unfold unsafePop. rewrite (proj2 (Nat.ltb_lt k _)), (proj2 (Nat.ltb_lt 0 _)) by lia.
  rewrite list_lookup_lookup_total_lt by lia. simpl.
  rewrite (proj2 (Nat.leb_le _ _)), list_lookup_lookup_total_lt by lia. simpl.
  rewrite Hl0, Hl1; simpl. eexists; split.
  { do 2 f_equal. by rewrite Hcont, take_app_le, take_ge by lia. }
  match goal with |- rings_ok ?x ∧ _ => set (s' := x) end.
  assert (∀ j, j < _queues s → j ≠ k → ring_ok s' j ∧ contents s' j = contents s j) as Hother.
  { intros j Hj Hne. apply ring_frame; simpl; rewrite ?list_lookup_total_insert_ne by done;
      try done. by apply Hring. }
  assert (count s' k = count s k - n) as Hcount.
  { unfold count in *; simpl. rewrite list_lookup_total_insert_eq by lia.
    apply ring_distance_pop; [done..|lia]. }
  assert (_tail s' !!! k = (_tail s !!! k + n) `mod` _capacity s) as Htail.
  { simpl. by rewrite list_lookup_total_insert_eq by lia. }
  split_and!; try done; [constructor; try done; simpl; rewrite ?length_insert; try done|..].
  - intros j Hj. destruct (decide (j = k)) as [->|]; [|by apply Hother].
    constructor; rewrite ?Htail, ?Hcount; simpl; rewrite ?list_lookup_total_insert_eq by lia;
      try lia; [by apply mod_lt|].
    intros i Hi. rewrite Nat.Div0.add_mod_idemp_l, <-Nat.add_assoc. apply Hd. lia.
  - rewrite Hcont, drop_app_ge, Hlen, Nat.sub_diag, drop_0 by lia.
    unfold contents. by rewrite Htail, Hcount.
  - intros j Hj Hne. by apply Hother.
Qed.
End ring_ops.

(** ** The distribution loop of the cyclic policy *)

Section cyclic.
Context (queues : nat).
Implicit Types (rem : list nat).

(** What both loops preserve: the counters only go down, and by exactly what
    is removed from [missing]. *)
Definition distributed rem rem' (m m' : nat) : Prop :=
  length rem' = queues ∧ m' ≤ m ∧
  (∀ k, k < queues → rem' !!! k ≤ rem !!! k) ∧
  sum_upto (λ k, rem' !!! k) queues + m = sum_upto (λ k, rem !!! k) queues + m'.

Lemma distributed_trans rem1 rem2 rem3 m1 m2 m3 :
  distributed rem1 rem2 m1 m2 → distributed rem2 rem3 m2 m3 →
  distributed rem1 rem3 m1 m3.
Proof.
  intros (? & ? & Hle1 & ?) (? & ? & Hle2 & ?). split_and!; [done|lia| |lia].
  intros k Hk. specialize (Hle1 k Hk). specialize (Hle2 k Hk). lia.
Qed.

Lemma cyclic_for_spec n perQueue m rem cur :
  length rem = queues → cur < queues → 0 < perQueue → n * perQueue ≤ m ∨ perQueue = 1 →
  ∃ m' rem' cur', cyclic_for n queues perQueue m rem cur = Ok (m', rem', cur') ∧
    cur' < queues ∧ distributed rem rem' m m' ∧
    (0 < m → m' = m → ∀ k, k ∈ cycle cur queues n → rem !!! k = 0).
Proof.
  revert m rem cur. induction n as [|n IH]; intros m rem cur Hlen Hcur Hpq Hm.
  { simpl. eexists _, _, _. split_and!; try done. by intros _ _ k ?%elem_of_nil. }
  simpl. destruct (Nat.eqb_spec m 0) as [->|Hm0].
  { eexists _, _, _. split_and!; try done. lia. }
  rewrite (proj2 (Nat.ltb_lt _ _)) by done. rewrite list_lookup_lookup_total_lt by lia. simpl.
  set (avail := (rem !!! cur) `min` perQueue).
  assert (avail ≤ m) by (unfold avail; lia).
  destruct (IH (m - avail) (<[cur := rem !!! cur - avail]> rem) ((cur + 1) `mod` queues))
    as (m' & rem' & cur' & -> & Hcur' & Hdist & Hzero);
    [by rewrite length_insert|apply mod_lt; lia|done|unfold avail; lia|].
  eexists _, _, _. split; [done|]. split; [done|]. split.
  - eapply distributed_trans; [|done]. split_and!; [by rewrite length_insert|lia| |].
    + intros k Hk. destruct (decide (k = cur)) as [->|].
      * rewrite list_lookup_total_insert_eq by lia. lia.
      * by rewrite list_lookup_total_insert_ne.
    + pose proof (sum_upto_insert rem cur (rem !!! cur - avail) queues Hlen Hcur).
      unfold avail in *. lia.
  - intros _ Heq k. destruct Hdist as (_ & Hle & _).
    assert (avail = 0) as Ha by lia. rewrite cycle_S by done.
    assert (rem !!! cur = 0) as Hz by (unfold avail in Ha; lia).
    intros [->|Hk]%elem_of_cons; [done|].
    specialize (Hzero ltac:(lia) ltac:(lia) k Hk).
    destruct (decide (k = cur)) as [->|]; [done|].
    by rewrite list_lookup_total_insert_ne in Hzero.
Qed.

Lemma cyclic_while_spec fuel m rem cur :
  length rem = queues → cur < queues → m < fuel →
  m ≤ sum_upto (λ k, rem !!! k) queues →
  ∃ rem' cur', cyclic_while fuel queues m rem cur = Ok (rem', cur') ∧
    cur' < queues ∧ distributed rem rem' m 0.
Proof.
  revert m rem cur. induction fuel as [|fuel IH]; intros m rem cur Hlen Hcur Hfuel Hsum; [lia|].
  simpl. destruct (Nat.eqb_spec m 0) as [->|Hm0].
  { eexists _, _. split_and!; done. }
  destruct (cyclic_for_spec queues ((m / queues) `max` 1) m rem cur)
    as (m' & rem' & cur' & -> & Hcur' & Hdist & Hzero); [done|done|lia| |].
  { destruct (decide (1 ≤ m / queues)).
    - left. rewrite Nat.max_l by lia. apply Nat.Div0.mul_div_le.
    - right. lia. }
  simpl. assert (m' < m).
  { pose proof Hdist as (_ & Hle & _). destruct (decide (m' = m)) as [->|]; [|lia]. exfalso.
    assert (sum_upto (λ k, rem !!! k) queues = 0); [|lia].
    unfold sum_upto. rewrite <-(sum_list_with_perm _ _ _ (cycle_Permutation cur queues Hcur)).
    induction (cycle cur queues queues) as [|k l IHl]; [done|]. simpl.
    rewrite Hzero, IHl; [done| |lia..|set_solver].
    intros. apply Hzero; [lia..|set_solver]. }
  pose proof Hdist as (Hlen' & _ & _ & Hsum').
  destruct (IH m' rem' cur') as (rem'' & cur'' & -> & ? & Hdist'); [done..|lia|lia|].
  eexists _, _. split_and!; [done..|]. by eapply distributed_trans.
Qed.
End cyclic.

(** ** Pops *)

Section pops.
Context {A : Type}.
Implicit Types (s : MultiLockFreeQueue A).

(** The effect of a pop that takes [a k] elements from ring [k]. *)
Definition popped (a : nat → nat) s s' : Prop :=
  ∀ k, k < _queues s → contents s' k = drop (a k) (contents s k).

Definition taken (a : nat → nat) s (ks : list nat) : list A :=
  mjoin ((λ k, take (a k) (contents s k)) <$> ks).

Lemma updateRemaining_loop_spec n q total s :
  rings_ok s → q + n = _queues s →
  ∃ s', updateRemaining_loop n q total s =
      Ok (total + sum_list_with (count s) (seq q n), s') ∧
    rings_ok s' ∧ same_shape s s' ∧ _current s' = _current s ∧
    (∀ k, contents s' k = contents s k ∧ count s' k = count s k) ∧
    (∀ k, k < q → _remaining s' !!! k = _remaining s !!! k) ∧
    (∀ k, q ≤ k < _queues s → _remaining s' !!! k = count s k).
Proof.
  revert q total s. induction n as [|n IH]; intros q total s Hs Hq; simpl.
  { exists s. rewrite Nat.add_0_r. split_and!; try done. lia. }
  rewrite getRemaining_spec by (done || lia). simpl.
  set (s1 := set_remaining (<[q := count s q]> (_remaining s)) s).
  assert (rings_ok s1) as Hs1.
  { destruct Hs as [Hcap Hw Hqs Lh Lt Lr La Hring].
    constructor; try done; simpl; rewrite ?length_insert; try done.
    intros k Hk. destruct (Hring k Hk) as [H1 H2 H3 H4 H5]. constructor; try done.
    simpl. destruct (decide (k = q)) as [->|].
    - by rewrite list_lookup_total_insert_eq by lia.
    - by rewrite list_lookup_total_insert_ne. }
  destruct (IH (S q) (total + count s q) s1 Hs1 ltac:(simpl; lia))
    as (s' & -> & Hs' & (Hc & Hqq & Hf) & Hcur & Hcont & Hlo & Hhi).
  exists s'. split; [by rewrite <-Nat.add_assoc|].
  pose proof (rs_remaining s Hs) as Hlr. simpl in *.
  split_and!; try done.
  - intros k Hk. rewrite Hlo by lia. by rewrite list_lookup_total_insert_ne by lia.
  - intros k Hk. destruct (decide (k = q)) as [->|].
    + rewrite Hlo by lia. by rewrite list_lookup_total_insert_eq by lia.
    + apply Hhi. lia.
Qed.

Lemma all_contents_length s :
  rings_ok s → length (all_contents s) = sum_upto (count s) (_queues s).
Proof.
  intros Hs. unfold all_contents, sum_upto.
  assert (∀ k, k ∈ seq 0 (_queues s) → length (contents s k) = count s k) as H.
  { intros k Hk%elem_of_seq. apply contents_length; [done|lia]. }
  induction (seq 0 (_queues s)) as [|k l IH]; [done|]. csimpl.
  rewrite length_app, H, IH by set_solver. done.
Qed.

Lemma remaining_le_all s :
  rings_ok s → sum_upto (λ k, _remaining s !!! k) (_queues s) ≤ length (all_contents s).
Proof.
  intros Hs. rewrite all_contents_length by done. apply sum_list_with_le.
  intros k Hk%elem_of_seq. apply (ro_remaining _ _ (rs_ring s Hs k ltac:(lia))).
Qed.

(** [refresh] leaves a request the cached counters cover. *)
Lemma refresh_spec n s :
  inv s →
  ∃ n' s', refresh n s = Ok (n', s') ∧ inv s' ∧ same_shape s s' ∧
    (∀ k, contents s' k = contents s k) ∧ _current s' = _current s ∧
    n' ≤ n ∧ n' ≤ _totalRemaining s' ∧
    (_totalRemaining s < n → n' = n `min` length (all_contents s)) ∧
    (n ≤ _totalRemaining s → n' = n).
Proof.
  intros [Hs Hcur Htot]. unfold refresh. destruct (Nat.ltb_spec (_totalRemaining s) n) as [Hlt|Hge].
  2:{ exists n, s. split_and!; try done. lia. }
  unfold updateRemaining.
  destruct (updateRemaining_loop_spec (_queues s) 0 0 s Hs ltac:(lia))
    as (s' & -> & Hs' & (Hc & Hq & Hf) & Hcur' & Hcont & _ & Hrem). simpl.
  eexists _, _. split; [done|]. fold (sum_upto (count s) (_queues s)).
  rewrite all_contents_length by done. split.
  { destruct Hs' as [Hcap Hw Hqs Lh Lt Lr La Hring].
    constructor; simpl; [|by rewrite Hcur', Hq|].
    - constructor; try done. intros k Hk. by destruct (Hring k Hk).
    - rewrite Hq. apply sum_list_with_ext. intros k Hk%elem_of_seq. rewrite Hrem by lia. done. }
  split_and!; try done; simpl; try lia. intros k. apply Hcont.
Qed.

Lemma taken_ext a a' s s' ks :
  (∀ k, k ∈ ks → a k = a' k ∧ contents s k = contents s' k) → taken a s ks = taken a' s' ks.
Proof.
  intros H. unfold taken. f_equal. apply list_fmap_ext. intros i k Hk%list_elem_of_lookup_2.
  by destruct (H k Hk) as [-> ->].
Qed.

Lemma taken_zero a s ks : (∀ k, k ∈ ks → a k = 0) → taken a s ks = [].
Proof.
  intros Ha. unfold taken. induction ks as [|k l IHl]; [done|]. csimpl.
  rewrite Ha by set_solver. apply IHl. set_solver.
Qed.

(** The rings [ks] were popped down to what [rem] leaves of each; [vs] is what
    was taken. *)
Record copied (rem ks : list nat) s (vs : list A) s' : Prop := {
  cp_values : vs = taken (λ k, _remaining s !!! k - rem !!! k) s ks;
  cp_rings : rings_ok s';
  cp_shape : same_shape s s';
  cp_in k : k ∈ ks →
    contents s' k = drop (_remaining s !!! k - rem !!! k) (contents s k) ∧
    _remaining s' !!! k = rem !!! k;
  cp_out k : k < _queues s → k ∉ ks →
    contents s' k = contents s k ∧ _remaining s' !!! k = _remaining s !!! k;
  cp_total : _totalRemaining s' = _totalRemaining s;
  cp_current : _current s' = _current s;
}.

Lemma copied_nothing rem ks s :
  rings_ok s → (∀ k, k ∈ ks → rem !!! k = _remaining s !!! k) → copied rem ks s [] s.
Proof.
  intros Hs Hr. split; try done.
  - rewrite taken_zero; [done|]. intros k Hk. rewrite Hr by done. lia.
  - intros k Hk. rewrite Hr, Nat.sub_diag by done. done.
Qed.

Lemma copied_skip rem q ks s vs s' :
  q < _queues s → q ∉ ks → rem !!! q = _remaining s !!! q →
  copied rem ks s vs s' → copied rem (q :: ks) s vs s'.
Proof.
  intros Hq Hnotin Hr [Hv ? ? Hin Hout ? ?]. split; try done.
  - rewrite Hv. unfold taken. csimpl. by rewrite Hr, Nat.sub_diag.
  - intros k [->|Hk]%elem_of_cons; [|by apply Hin].
    destruct (Hout q Hq Hnotin) as [-> ->]. by rewrite Hr, Nat.sub_diag.
  - intros k Hk Hnk. apply Hout; [done|set_solver].
Qed.

Lemma copied_pop rem q ks s s1 vs s' :
  rings_ok s → q < _queues s → q ∉ ks → (∀ k, k ∈ ks → k < _queues s) →
  rem !!! q < _remaining s !!! q →
  unsafePop q (_remaining s !!! q - rem !!! q) s =
    Ok (take (_remaining s !!! q - rem !!! q) (contents s q), s1) →
  copied rem ks s1 vs s' →
  copied rem (q :: ks) s (take (_remaining s !!! q - rem !!! q) (contents s q) ++ vs) s'.
Proof.
  intros Hs Hq Hnotin Hks Hle Hpop [Hv Hr' (Hc' & Hqs' & Hf') Hin Hout Htot' Hcur'].
  destruct (unsafePop_spec s q (_remaining s !!! q - rem !!! q) Hs Hq) as
    (s1' & Hpop' & _ & (Hc & Hqs & Hf) & Hcq & Hother & Hrem & Htot & Hcur); [lia|].
  rewrite Hpop in Hpop'. simplify_eq.
  assert (∀ k, k < _queues s → k ≠ q →
    _remaining s1' !!! k = _remaining s !!! k ∧ contents s1' k = contents s k) as Hsame.
  { intros k Hk Hne. split; [by rewrite Hrem, list_lookup_total_insert_ne|by apply Hother]. }
  assert (∀ k, k ∈ ks → k ≠ q) as Hne by (by intros k Hk ->).
  pose proof (rs_remaining s Hs) as Hlr. split; try (done || congruence).
  - unfold taken at 2. csimpl. f_equal. apply taken_ext. intros k Hk.
    destruct (Hsame k (Hks k Hk) (Hne k Hk)) as [-> ->]. done.
  - unfold same_shape. split_and!; congruence.
  - intros k [->|Hk]%elem_of_cons.
    + destruct (Hout q ltac:(lia) Hnotin) as [-> ->]. split; [done|].
      rewrite Hrem, list_lookup_total_insert_eq by lia. lia.
    + destruct (Hin k Hk) as [-> ->]. by destruct (Hsame k (Hks k Hk) (Hne k Hk)) as [-> ->].
  - intros k Hk [Hkq Hnk]%not_elem_of_cons.
    destruct (Hout k ltac:(lia) Hnk) as [-> ->]. by apply and_comm, Hsame.
Qed.

Lemma cyclic_copy_spec m rem q todo s :
  rings_ok s → q < _queues s → m ≤ _queues s →
  let ks := cycle q (_queues s) m in
  length rem = _queues s →
  (∀ k, k ∈ ks → rem !!! k ≤ _remaining s !!! k) →
  todo = sum_list_with (λ k, _remaining s !!! k - rem !!! k) ks →
  ∃ vs s', cyclic_copy (S m) rem q todo s = Ok (vs, s') ∧ copied rem ks s vs s'.
Proof.
  revert q todo s. induction m as [|m IH]; intros q todo s Hs Hq Hm ks Hlen Hle ->.
  { simpl. exists [], s. split; [done|]. apply copied_nothing; set_solver. }
  assert (∀ k, k ∈ ks → k < _queues s) as Hks.
  { intros k (i & -> & _)%list_elem_of_fmap. apply mod_lt. lia. }
  set (a k := _remaining s !!! k - rem !!! k).
  remember (S m) as m1 eqn:Hm1. simpl. fold a.
  destruct (Nat.eqb_spec (sum_list_with a ks) 0) as [H0|_].
  { eexists [], s. split; [done|]. apply copied_nothing; [done|]. intros k Hk.
    pose proof (sum_list_with_0 _ _ k H0 Hk) as Ha. specialize (Hle k Hk). unfold a in Ha. lia. }
  rewrite (proj2 (Nat.ltb_lt _ _)) by done. pose proof (rs_remaining s Hs) as Hlr.
  rewrite !list_lookup_lookup_total_lt by lia. simpl. fold (a q). subst m1.
  set (ks' := cycle ((q + 1) `mod` _queues s) (_queues s) m).
  assert (ks = q :: ks') as Hcons by (by apply cycle_S). rewrite Hcons in *.
  assert (q ∉ ks') as Hnotin.
  { assert (NoDup ks) as Hnd by (by apply NoDup_cycle). rewrite Hcons in Hnd.
    by apply NoDup_cons in Hnd as [? _]. }
  cbn [sum_list_with]. pose proof (Hle q ltac:(set_solver)) as Hleq.
  destruct (Nat.ltb_spec 0 (a q)) as [Hpos|Hz].
  - destruct (unsafePop_spec s q (a q) Hs Hq) as
      (s1 & Hpop & Hs1 & (_ & Hqs & _) & _ & Hother & Hrem & _); [unfold a in *; lia|].
    rewrite Hpop. cbn [mbind outcome_bind].
    replace (a q + sum_list_with a ks' - a q) with (sum_list_with a ks') by lia.
    assert (∀ k, k ∈ ks' → _remaining s1 !!! k = _remaining s !!! k) as Hk1.
    { intros k Hk. rewrite Hrem, list_lookup_total_insert_ne; [done|by intros ->]. }
    rewrite <-Hqs. destruct (IH ((q + 1) `mod` _queues s) (sum_list_with a ks') s1)
      as (vs & s' & Heq & Hcp); rewrite ?Hqs in *; try (done || lia); try (apply mod_lt; lia).
    { intros k Hk. rewrite Hk1 by done. apply Hle. set_solver. }
    { apply sum_list_with_ext. intros k Hk. by rewrite Hk1. }
    rewrite Heq. eexists _, s'. split; [done|]. eapply copied_pop; [..|exact Hcp]; try done; [set_solver|unfold a in Hpos; lia].
  - replace (a q + sum_list_with a ks') with (sum_list_with a ks') by lia.
    destruct (IH ((q + 1) `mod` _queues s) (sum_list_with a ks') s)
      as (vs & s' & -> & Hcp); try (done || lia).
    { apply mod_lt. lia. }
    { intros k Hk. apply Hle. set_solver. }
    exists vs, s'. split; [done|]. apply copied_skip; try done. unfold a in Hz. lia.
Qed.

(** ** The loop of the block policy *)

Lemma rings_ok_current c s : rings_ok s → rings_ok (set_current c s).
Proof. intros []. constructor; try done. intros k Hk. by destruct (rs_ring0 k Hk). Qed.

Lemma unsafePop_current c q n s vs s1 :
  unsafePop q n s = Ok (vs, s1) → unsafePop q n (set_current c s) = Ok (vs, set_current c s1).
Proof.
  intros Hp.
  assert (unsafePop q n (set_current c s) =
    (λ '(vs, s), (vs, set_current c s)) <$> unsafePop q n s) as ->; [|by rewrite Hp].
  clear. unfold unsafePop. simpl.
  destruct (assert (q <? _queues s) _); simpl; [|done..]. destruct (assert (0 <? n) _); simpl; [|done..].
  destruct (read (_remaining s !! q) _) as [r| |]; simpl; [|done..].
  destruct (assert (n <=? r) _); simpl; [|done..].
  destruct (read (_tail s !! q) _) as [tl| |]; simpl; [|done..].
  destruct (read (slice _ (q * _capacity s + tl) _) _) as [v0| |]; simpl; [|done..].
  by destruct (read (slice _ (q * _capacity s) _) _).
Qed.

Lemma set_current_id s : set_current (_current s) s = s.
Proof. by destruct s. Qed.

Lemma sum_sub_diag (f : nat → nat) l : sum_list_with (λ k, f k - f k) l = 0.
Proof. induction l; simpl; lia. Qed.

(** The loop took [todo] elements from the rings [ks] and moved [_current]. *)
Definition block_result (ks : list nat) (todo : nat) s (r : outcome (list A * MultiLockFreeQueue A)) :
    Prop :=
  ∃ rem c vs s', r = Ok (vs, s') ∧ c < _queues s ∧ copied rem ks (set_current c s) vs s' ∧
    (∀ k, k < _queues s → k ∉ ks → rem !!! k = _remaining s !!! k) ∧
    (∀ k, k < _queues s → rem !!! k ≤ _remaining s !!! k) ∧
    todo = sum_list_with (λ k, _remaining s !!! k - rem !!! k) ks.

Lemma block_nothing ks s :
  rings_ok s → _current s < _queues s → block_result ks 0 s (Ok ([], s)).
Proof.
  intros Hs Hc. exists (_remaining s), (_current s), [], s. rewrite sum_sub_diag.
  split_and!; try done. rewrite set_current_id. by apply copied_nothing.
Qed.

Lemma block_skip q q' ks todo s r :
  q < _queues s → q ∉ ks → block_result ks todo (set_current q' s) r →
  block_result (q :: ks) todo s r.
Proof.
  intros Hq Hnotin (rem & c & vs & s' & Heq & Hcq & Hcp & Hout & Hle & Hall). simpl in *.
  exists rem, c, vs, s'. split_and!; try done.
  - apply copied_skip; [done|done|by apply Hout|done].
  - intros k Hk [_ Hnk]%not_elem_of_cons. by apply Hout.
  - cbn [sum_list_with]. rewrite (Hout q) by done. lia.
Qed.

Lemma block_stay q' ks todo s r : block_result ks todo (set_current q' s) r → block_result ks todo s r.
Proof. done. Qed.

(** Popping [n] elements of a ring before the rest of the loop. *)
Lemma block_pop q ks n todo s s1 r :
  rings_ok s → q < _queues s → q ∉ ks → (∀ k, k ∈ ks → k < _queues s) →
  0 < n ≤ _remaining s !!! q → n ≤ todo →
  unsafePop q n s = Ok (take n (contents s q), s1) → block_result ks (todo - n) s1 r →
  block_result (q :: ks) todo s ('(vs, s2) ← r; Ok (take n (contents s q) ++ vs, s2)).
Proof.
  intros Hs Hq Hnotin Hks Hn Hnt Hpop (rem & c & vs & s' & -> & Hcq & Hcp & Hout & Hle & Hall).
  destruct (unsafePop_spec s q n Hs Hq) as (s1' & Hpop' & _ & (_ & Hqs & _) & _ & _ & Hrem & _); [lia|].
  rewrite Hpop in Hpop'. simplify_eq. pose proof (rs_remaining s Hs) as Hlr.
  assert (∀ k, k ≠ q → _remaining s1' !!! k = _remaining s !!! k) as Hk1.
  { intros k Hk. by rewrite Hrem, list_lookup_total_insert_ne. }
  assert (_remaining s1' !!! q = _remaining s !!! q - n) as Hq1
    by (by rewrite Hrem, list_lookup_total_insert_eq by lia).
  rewrite Hqs in *. assert (rem !!! q = _remaining s !!! q - n) as Hremq by (by rewrite Hout, Hq1).
  assert (_remaining s !!! q - rem !!! q = n) as Hn' by lia.
  exists rem, c, (take n (contents s q) ++ vs), s'. split_and!; [done|done| | | |].
  - rewrite <-Hn'. apply (copied_pop rem q ks (set_current c s) (set_current c s1')); try done;
      [by apply rings_ok_current|simpl; lia|].
    simpl. rewrite Hn'. by apply unsafePop_current.
  - intros k Hk [Hne Hnk]%not_elem_of_cons. by rewrite Hout, Hk1.
  - intros k Hk. specialize (Hle k Hk). destruct (decide (k = q)) as [->|Hne]; [lia|].
    by rewrite Hk1 in Hle.
  - cbn [sum_list_with]. rewrite Hn'.
    enough (sum_list_with (λ k, _remaining s !!! k - rem !!! k) ks = todo - n) by lia.
    rewrite Hall. apply sum_list_with_ext. intros k Hk. rewrite Hk1; [done|by intros ->].
Qed.

(** From the ring [_current] on, with enough in the [m] rings to visit, the loop
    empties rings until the request is met: one iteration for each pop and one
    for each move. *)
Lemma block_copy_spec m fuel todo s :
  rings_ok s → _current s < _queues s → m ≤ _queues s → 2 * m + 1 ≤ fuel →
  let ks := cycle (_current s) (_queues s) m in
  todo ≤ sum_list_with (λ k, _remaining s !!! k) ks → block_result ks todo s (block_copy fuel todo s).
Proof.
  revert fuel todo s. induction m as [|m IH]; intros fuel todo s Hs Hc Hm Hf ks Hsum;
    (destruct fuel as [|fuel]; [lia|]); cbn [block_copy];
    (destruct (Nat.eqb_spec todo 0) as [->|Htodo]; [by apply block_nothing|]).
  { simpl in Hsum. lia. }
  pose proof (rs_remaining s Hs) as Hlr.
  rewrite (proj2 (Nat.ltb_lt _ _)), list_lookup_lookup_total_lt by lia. cbn [assert read mbind outcome_bind].
  set (q := _current s) in *. set (ks' := cycle ((q + 1) `mod` _queues s) (_queues s) m).
  assert (ks = q :: ks') as Hcons by (by apply cycle_S).
  assert (q ∉ ks') as Hnotin.
  { assert (NoDup ks) as Hnd by (by apply NoDup_cycle). rewrite Hcons in Hnd.
    by apply NoDup_cons in Hnd as [? _]. }
  assert (∀ k, k ∈ ks' → k < _queues s) as Hks.
  { intros k (i & -> & _)%list_elem_of_fmap. apply mod_lt. lia. }
  assert ((q + 1) `mod` _queues s < _queues s) as Hq' by (apply mod_lt; lia).
  rewrite Hcons in *. cbn [sum_list_with] in Hsum.
  destruct (Nat.eqb_spec (_remaining s !!! q `min` todo) 0) as [Hz|Hpos].
  { apply (block_skip q ((q + 1) `mod` _queues s)); [done..|].
    apply IH; simpl; fold ks'; [by apply rings_ok_current|done|lia..]. }
  destruct (unsafePop_spec s q (_remaining s !!! q `min` todo) Hs Hc) as
    (s1 & Hpop & Hs1 & (_ & Hqs & _) & _ & _ & Hrem & _ & Hcur1); [lia|].
  rewrite Hpop. cbn [mbind outcome_bind]. apply (block_pop q ks' _ todo s s1); try (done || lia).
  (* The next iteration ends the loop or moves on. *)
  destruct fuel as [|fuel]; [lia|]. cbn [block_copy].
  destruct (Nat.eqb_spec (todo - _remaining s !!! q `min` todo) 0) as [->|Hmore].
  { apply block_nothing; [done|by rewrite Hcur1, Hqs]. }
  pose proof (rs_remaining s1 Hs1) as Hlr1. rewrite Hcur1. fold q.
  rewrite (proj2 (Nat.ltb_lt _ _)), list_lookup_lookup_total_lt by lia. cbn [assert read mbind outcome_bind].
  rewrite Hrem, list_lookup_total_insert_eq by lia.
  replace (_remaining s !!! q - _remaining s !!! q `min` todo) with 0 by lia. cbn [Nat.min Nat.eqb].
  rewrite Hqs. apply (block_stay ((q + 1) `mod` _queues s)).
  specialize (IH fuel (todo - _remaining s !!! q `min` todo) (set_current ((q + 1) `mod` _queues s) s1)).
  cbn [set_current _current _queues _remaining] in IH. rewrite Hqs in IH. fold ks' in IH.
  apply IH; [by apply rings_ok_current|done|lia|lia|].
  rewrite Hrem, (sum_list_with_ext _ (λ k, _remaining s !!! k)); [lia|].
  intros k Hk. apply list_lookup_total_insert_ne. by intros ->.
Qed.
End pops.

(** ** The public operations *)

Section operations.
Context {A : Type}.
Implicit Types (s : MultiLockFreeQueue A).

Lemma new_inv {B : Build} Capacity ncpus ff :
  0 < Capacity → (Z.of_nat Capacity < u64_modulus)%Z → 0 < ncpus ≤ MaxQueues →
  ∃ s, new (A:=A) Capacity ncpus ff = Ok s ∧ inv s ∧ all_contents s = [] ∧
    _queues s = ncpus ∧ _capacity s = Capacity.
Proof.
  intros Hc Hw Hn. unfold new. rewrite (proj2 (Nat.ltb_ge _ _)) by lia. simpl.
  eexists; split; [done|].
  match goal with |- inv ?x ∧ _ => set (s := x) end.
  assert (∀ k, k < ncpus → count s k = 0) as Hcount.
  { intros k Hk. unfold count; simpl. rewrite lookup_total_replicate_2 by done.
    rewrite ring_distance_eq by done. done. }
  split_and!; try done.
  - constructor; simpl; [|lia|].
    + constructor; simpl; rewrite ?length_replicate; try (done || lia).
      intros k Hk. constructor; rewrite ?Hcount by done; simpl;
        rewrite ?lookup_total_replicate_2 by done; lia.
    + unfold sum_upto. rewrite (sum_list_with_ext _ (λ _, 0)).
      { induction (seq 0 ncpus); done. }
      intros k Hk%elem_of_seq. apply lookup_total_replicate_2. lia.
  - unfold all_contents; simpl. assert (∀ k, k ∈ seq 0 ncpus → contents s k = []) as H.
    { intros k Hk%elem_of_seq. unfold contents. by rewrite Hcount by lia. }
    induction (seq 0 ncpus) as [|k l IH]; [done|]. csimpl. rewrite H, IH by set_solver. done.
Qed.

(** One attempt to push: on success the element is appended to the ring of
    the calling CPU; it is refused only when that ring holds [_capacity - 1]
    elements. *)
Lemma tryPush_spec s x k :
  inv s → k < _queues s →
  ∃ b s', tryPush x k s = Ok (b, s') ∧ inv s' ∧ same_shape s s' ∧
    (∀ j, j < _queues s → j ≠ k → contents s' j = contents s j) ∧
    if b then contents s' k = contents s k ++ [x]
    else contents s' k = contents s k ∧ length (contents s k) = _capacity s - 1.
Proof.
  intros [Hs Hcur Htot] Hk. unfold tryPush.
  pose proof (rs_available s Hs) as La.
  rewrite list_lookup_lookup_total_lt by lia. simpl.
  assert (∃ av s1, (if _available s !!! k =? 0 then
      av ← getAvailable k s; Ok (av, set_available (<[k:=av]> (_available s)) s)
    else Ok (_available s !!! k, s)) = Ok (av, s1) ∧ inv s1 ∧ same_shape s s1 ∧
    (∀ j, contents s1 j = contents s j) ∧ _available s1 !!! k = av ∧
    (av = 0 → length (contents s k) = _capacity s - 1)) as
    (av & s1 & -> & [Hs1 Hcur1 Htot1] & Hsh1 & Hc1 & Hav & Hfull).
  { destruct (Nat.eqb_spec (_available s !!! k) 0) as [H0|H0].
    2:{ eexists _, _. split_and!; try done. }
    rewrite getAvailable_spec by done. simpl. eexists _, _. split; [done|].
    rewrite contents_length by done. pose proof (count_lt s k Hs Hk) as Hlt.
    split; [|split_and!; try done; simpl; rewrite ?list_lookup_total_insert_eq by lia; lia].
    constructor; [|done..]. destruct Hs as [Hcap Hw Hq Lh Lt Lr La' Hring].
    constructor; try done; simpl; rewrite ?length_insert; try done.
    intros j Hj. destruct (Hring j Hj) as [H1 H2 H3 H4 H5]. constructor; try done.
    simpl. unfold count in *; simpl in *. destruct (decide (j = k)) as [->|].
    - rewrite list_lookup_total_insert_eq by lia. lia.
    - by rewrite list_lookup_total_insert_ne. }
  simpl. destruct Hsh1 as (Hcap1 & Hq1 & Hf1). destruct (Nat.eqb_spec av 0) as [->|Hav0].
  - exists false, s1. split_and!; try done; intros; rewrite ?Hc1; auto.
  - destruct (unsafePush_spec s1 k [x] Hs1) as
      (s2 & -> & Hs2 & (Hcap2 & Hq2 & Hf2) & Hk2 & Hother & Hr2 & Ht2 & Hcu2);
      [lia|simpl; lia|]. simpl.
    exists true, s2. split_and!; try done.
    + constructor; [done|by rewrite Hcu2, Hq2|]. by rewrite Ht2, Hr2, Hq2.
    + unfold same_shape. split_and!; congruence.
    + intros j Hj Hne. rewrite Hother by (done || lia). apply Hc1.
    + by rewrite Hk2, Hc1.
Qed.

Lemma taken_popped_perm a s s' :
  same_shape s s' → popped a s s' → _current s < _queues s →
  all_contents s ≡ₚ taken a s (cycle (_current s) (_queues s) (_queues s)) ++ all_contents s'.
Proof.
  intros (_ & Hq & _) Hpop Hcur. unfold all_contents, taken. rewrite Hq.
  rewrite (cycle_Permutation _ _ Hcur).
  rewrite <-concat_Permutation_split. apply reflexive_eq. f_equal.
  apply list_fmap_ext. intros i k Hk%list_elem_of_lookup_2.
  apply elem_of_seq in Hk. rewrite Hpop by lia. by rewrite take_drop.
Qed.

Lemma taken_length a s ks :
  rings_ok s → (∀ k, k ∈ ks → k < _queues s ∧ a k ≤ count s k) →
  length (taken a s ks) = sum_list_with a ks.
Proof.
  intros Hs Ha. unfold taken. induction ks as [|k ks IH]; [done|]. csimpl.
  destruct (Ha k) as [Hk Hle]; [set_solver|].
  rewrite length_app, length_take, contents_length, IH by set_solver. lia.
Qed.

(** What a pop of [n] elements promises. *)
Definition pop_ok n s (r : outcome (list A * MultiLockFreeQueue A)) : Prop :=
  ∃ a s', r = Ok (taken a s (cycle (_current s) (_queues s) (_queues s)), s') ∧
    inv s' ∧ same_shape s s' ∧ popped a s s' ∧
    length (taken a s (cycle (_current s) (_queues s) (_queues s))) =
      n `min` length (all_contents s).

Lemma pop_ok_empty n s s1 :
  inv s1 → same_shape s s1 → (∀ k, contents s1 k = contents s k) →
  n `min` length (all_contents s) = 0 → pop_ok n s (Ok ([], s1)).
Proof.
  intros H1 H2 H3 Hz. exists (λ _, 0), s1. rewrite taken_zero by done.
  split_and!; try done. intros k Hk. by rewrite H3.
Qed.

Lemma sum_upto_sub (r rem : nat → nat) n :
  (∀ k, k < n → rem k ≤ r k) → sum_upto (λ k, r k - rem k) n + sum_upto rem n = sum_upto r n.
Proof.
  intros Hle. unfold sum_upto. rewrite <-sum_list_fmap_add. apply sum_list_with_ext.
  intros k Hk%elem_of_seq. specialize (Hle k ltac:(lia)). lia.
Qed.

(** The elements of each ring were copied as they were distributed. *)
Lemma copied_pop_ok n n' rem cur s s1 vs s' :
  inv s → inv s1 → same_shape s s1 → (∀ k, contents s1 k = contents s k) →
  _current s1 = _current s → n' = n `min` length (all_contents s) → cur < _queues s1 →
  (∀ k, k < _queues s1 → rem !!! k ≤ _remaining s1 !!! k) →
  sum_upto (λ k, _remaining s1 !!! k - rem !!! k) (_queues s1) = n' →
  copied rem (cycle (_current s1) (_queues s1) (_queues s1))
    (set_total (_totalRemaining s1 - n') (set_current cur s1)) vs s' →
  pop_ok n s (Ok (vs, s')).
Proof.
  intros Hinv [Hs1 Hcu1 Ht1] (Hcap & Hq & Hf) Hc1 Hcur1 Hn' Hcur Hrle Hsuma
    [-> Hs' (Hcap' & Hq' & Hf') Hin _ Htot' Hcur']. simpl in *.
  pose proof (sum_upto_sub _ _ _ Hrle) as Hsub.
  exists (λ k, _remaining s1 !!! k - rem !!! k), s'. rewrite <-Hcur1, <-Hq. split_and!.
  - do 2 f_equal. apply taken_ext. intros k _. split; [done|]. apply Hc1.
  - constructor; [done|rewrite Hcur', Hq'; done|]. rewrite Htot', Hq', Ht1.
    transitivity (sum_upto (λ k, rem !!! k) (_queues s1)); [lia|].
    apply sum_list_with_ext. intros k Hk%elem_of_seq.
    symmetry. apply Hin. apply elem_of_cycle; [done|lia].
  - unfold same_shape. split_and!; congruence.
  - intros k Hk. destruct (Hin k) as [-> _]; [apply elem_of_cycle; [done|lia]|]. f_equal. apply Hc1.
  - rewrite taken_length; [|apply (inv_rings s Hinv)|].
    + rewrite (sum_list_with_perm _ _ _ (cycle_Permutation _ _ Hcu1)).
      fold (sum_upto (λ k, _remaining s1 !!! k - rem !!! k) (_queues s1)). congruence.
    + intros k Hk%elem_of_cycle; [|done]. split; [lia|].
      pose proof (ro_remaining _ _ (rs_ring s1 Hs1 k ltac:(lia))).
      rewrite <-contents_length, <-Hc1, contents_length by (done || lia || apply Hinv). lia.
Qed.

(** After [refresh] the request is what can be popped. *)
Lemma refresh_request n s :
  inv s →
  ∃ s1, refresh n s = Ok (n `min` length (all_contents s), s1) ∧ inv s1 ∧ same_shape s s1 ∧
    (∀ k, contents s1 k = contents s k) ∧ _current s1 = _current s ∧
    n `min` length (all_contents s) ≤ _totalRemaining s1.
Proof.
  intros Hinv. destruct (refresh_spec n s Hinv) as
    (n' & s1 & -> & Hinv1 & Hsh & Hc1 & Hcur1 & Hle & Htot & Hlt & Hge).
  assert (n' = n `min` length (all_contents s)) as <-; [|by exists s1].
  destruct (decide (_totalRemaining s < n)); [auto|].
  rewrite (Hge ltac:(lia)). pose proof (remaining_le_all s (inv_rings s Hinv)).
  rewrite <-(inv_total s Hinv) in *. lia.
Qed.

Lemma cyclicRoundRobinPop_spec n s : inv s → pop_ok n s (cyclicRoundRobinPop n s).
Proof.
  intros Hinv. unfold cyclicRoundRobinPop.
  destruct (Nat.eqb_spec n 0) as [->|Hn0]; [by apply pop_ok_empty|].
  destruct (refresh_request n s Hinv) as (s1 & -> & Hinv1 & Hsh & Hc1 & Hcur1 & Htot).
  cbn [mbind outcome_bind]. remember (n `min` length (all_contents s)) as n' eqn:Hn'.
  destruct (Nat.eqb_spec n' 0) as [->|Hn'0]; [by apply pop_ok_empty|].
  pose proof Hinv1 as [Hs1 Hcu1 Ht1].
  destruct (cyclic_while_spec (_queues s1) (S n') n' (_remaining s1) (_current s1))
    as (rem & cur & -> & Hcur & (Hlen & _ & Hrle & Hsum)); [apply (rs_remaining s1 Hs1)|done|lia|lia|].
  cbn [mbind outcome_bind].
  assert (sum_upto (λ k, _remaining s1 !!! k - rem !!! k) (_queues s1) = n') as Hsuma.
  { pose proof (sum_upto_sub (λ k, _remaining s1 !!! k) (λ k, rem !!! k) _ Hrle). lia. }
  set (s2 := set_total (_totalRemaining s1 - n') (set_current cur s1)).
  destruct (cyclic_copy_spec (_queues s2) rem (_current s1) n' s2)
    as (vs & s' & Heq & Hcp); try done.
  - destruct Hs1 as [? ? ? ? ? ? ? Hring]. constructor; try done.
    intros k Hk. by destruct (Hring k Hk).
  - intros k Hk%elem_of_cycle; [|done]. by apply Hrle.
  - simpl. rewrite <-Hsuma. unfold sum_upto.
    by rewrite <-(sum_list_with_perm _ _ _ (cycle_Permutation _ _ Hcu1)).
  - change (_queues (set_total _ _)) with (_queues s2). fold s2. rewrite Heq.
    by eapply copied_pop_ok.
Qed.

Lemma blockRoundRobinPop_spec n s : inv s → pop_ok n s (blockRoundRobinPop n s).
Proof.
  intros Hinv. unfold blockRoundRobinPop.
  destruct (Nat.eqb_spec n 0) as [->|Hn0]; [by apply pop_ok_empty|].
  destruct (refresh_request n s Hinv) as (s1 & -> & Hinv1 & Hsh & Hc1 & Hcur1 & Htot).
  cbn [mbind outcome_bind]. remember (n `min` length (all_contents s)) as n' eqn:Hn'.
  destruct (Nat.eqb_spec n' 0) as [->|Hn'0]; [by apply pop_ok_empty|].
  pose proof Hinv1 as [Hs1 Hcu1 Ht1]. set (s2 := set_total (_totalRemaining s1 - n') s1).
  destruct (block_copy_spec (_queues s2) (2 * _queues s2 + 2) n' s2)
    as (rem & cur & vs & s' & Heq & Hcur & Hcp & _ & Hrle & Hsum); try (done || lia).
  - destruct Hs1 as [? ? ? ? ? ? ? Hring]. constructor; try done.
    intros k Hk. by destruct (Hring k Hk).
  - simpl. rewrite (sum_list_with_perm _ _ _ (cycle_Permutation _ _ Hcu1)). unfold sum_upto in Ht1. lia.
  - rewrite Heq. apply (copied_pop_ok n n' rem cur s s1); try done.
    unfold sum_upto. rewrite <-(sum_list_with_perm _ _ _ (cycle_Permutation _ _ Hcu1)). by symmetry.
Qed.

Lemma policy_pop_spec Policy n s : inv s → pop_ok n s (pop Policy n s).
Proof. destruct Policy; [apply cyclicRoundRobinPop_spec|apply blockRoundRobinPop_spec]. Qed.
End operations.

#[export] Instance multi_op_queue {A} : OpQueue (MultiLockFreeQueue A) A := {|
  q_push cpu x s := push x cpu s;
  q_pop := pop CyclicRoundRobin;
  q_contents := all_contents;
  q_inv := inv;
  q_cpu s cpu := cpu < _queues s;
|}.

(** One attempt to push adds the element to all that is queued, or nothing. *)
Lemma push_all_contents {A} (s : MultiLockFreeQueue A) (x : A) (cpu : nat) :
  inv s → cpu < _queues s →
  post True (λ '(pushed, s'), inv s' ∧
      all_contents s' ≡ₚ if (pushed : bool) then x :: all_contents s else all_contents s)
    (push x cpu s).
Proof.
  intros Hs Hk. destruct (tryPush_spec s x cpu Hs Hk) as
    (b & s' & Heq & Hs' & (Hc & Hq & Hf) & Hother & Hb).
  unfold push. rewrite (proj2 (Nat.ltb_lt _ _)) by done. simpl. rewrite Heq. simpl.
  assert (∀ l, NoDup l → (∀ k, k ∈ l → k < _queues s) →
    mjoin (contents s' <$> l) ≡ₚ
      if decide (cpu ∈ l) then (if b then [x] else []) ++ mjoin (contents s <$> l)
      else mjoin (contents s <$> l)) as Hall.
  { induction l as [|k l IH]; intros Hnd Hl; [done|]. apply NoDup_cons in Hnd as [Hnk Hnd].
    csimpl. rewrite IH by set_solver. destruct (decide (k = cpu)) as [->|Hne].
    - rewrite decide_False by done. rewrite decide_True by set_solver.
      destruct b; [|by destruct Hb as [-> _]]. rewrite Hb. solve_Permutation.
    - rewrite Hother by set_solver.
      destruct (decide (cpu ∈ l)), (decide (cpu ∈ k :: l)); try set_solver.
      destruct b; simpl; solve_Permutation. }
  specialize (Hall (seq 0 (_queues s)) (NoDup_seq _ _)). rewrite decide_True in Hall
    by (apply elem_of_seq; lia). unfold all_contents.
  destruct b; simpl.
  - split; [done|]. rewrite Hq. apply Hall. intros k ?%elem_of_seq. lia.
  - destruct (_fullFailure s'); [done|]. simpl. split; [done|]. rewrite Hq.
    apply Hall. intros k ?%elem_of_seq. lia.
Qed.

#[export] Instance multi_op_queue_laws {A} : OpQueueLaws (MultiLockFreeQueue A) A.
Proof.
  split; [|by intros; apply push_all_contents|..].
  2:{ intros n s s' vs Hs Heq cpu. destruct (policy_pop_spec CyclicRoundRobin n s Hs) as (a & s1 & Heq' & _ & (_ & Hq & _) & _).
      change (pop CyclicRoundRobin n s = Ok (vs, s')) in Heq. rewrite Heq' in Heq. injection Heq as _ <-. simpl. by rewrite Hq. }
  2:{ intros cpu x s s' pushed Hs Hk Heq cpu'. destruct (tryPush_spec s x cpu Hs Hk) as (b & s1 & Ht & _ & (_ & Hq & _) & _).
      simpl in Heq, Hk. unfold push in Heq. rewrite (proj2 (Nat.ltb_lt _ _)), Ht in Heq by done. simpl in Heq.
      destruct b; [|destruct (_fullFailure s1); [done|]]; injection Heq as _ <-; simpl; by rewrite Hq. }
  intros n s Hs. destruct (policy_pop_spec CyclicRoundRobin n s Hs) as (a & s' & Heq & Hs' & Hsh & Hp & Hlen).
  eexists _, s'. split; [exact Heq|]. split; [done|]. split; [rewrite Hlen; lia|]. split.
  - apply taken_popped_perm; [done..|apply Hs].
  - simpl in *. intros Hn Hne Hnil. rewrite Hnil in Hlen. apply Hne, nil_length_inv.
    simpl in Hlen. lia.
Qed.

(** ** Properties *)

(** A two-CPU queue of capacity 4 in which CPU 0 queued 10 and 11 and CPU 1
    queued 20, with nothing consumed yet. *)
Definition sample : MultiLockFreeQueue nat :=
  mkMLFQ 4 2 (<[0 := 10]> (<[1 := 11]> (<[4 := 20]> ∅))) true
    [0; 0] [0; 0] [2; 1] [1; 2] 0 0.

Lemma sample_inv : inv sample.
Proof.
  constructor; [constructor| |]; simpl; try (lia || done).
  intros [|[|k]] Hk; [| |lia]; constructor; vm_compute; try lia;
    intros [|[|j]] ?; (by eexists) || lia.
Qed.

(** C22: popping up to [n] operations, with either policy, always returns; it
    returns exactly [min n (number queued)] of them; what it returns is, ring by
    ring from [_current] on, a prefix of what that CPU queued, and the rest of
    every ring stays queued in order: no operation is lost, duplicated or
    reordered with respect to others of its CPU. *)
Theorem multi_pop_fifo {A} (Policy : MultiQueuePopPolicy) (s : MultiLockFreeQueue A) (n : nat) :
  inv s →
  ∃ a s',
    let vs := taken a s (cycle (_current s) (_queues s) (_queues s)) in
    pop Policy n s = Ok (vs, s') ∧ inv s' ∧
    length vs = n `min` length (all_contents s) ∧
    (∀ k, k < _queues s → contents s k = take (a k) (contents s k) ++ contents s' k) ∧
    all_contents s ≡ₚ vs ++ all_contents s'.
Proof.
  intros Hs. destruct (policy_pop_spec Policy n s Hs) as (a & s' & Heq & Hs' & Hsh & Hp & Hlen).
  exists a, s'. simpl. split_and!; try done.
  - intros k Hk. by rewrite (Hp k Hk), take_drop.
  - apply taken_popped_perm; [done..|apply Hs].
Qed.

Lemma multi_pop_fifo_witness :
  ∃ a s', pop BlockRoundRobin 2 sample = Ok (taken a sample [0; 1], s') ∧ inv s' ∧
    length (taken a sample [0; 1]) = 2.
Proof.
  destruct (multi_pop_fifo BlockRoundRobin sample 2 sample_inv) as (a & s' & H1 & H2 & H3 & _).
  exists a, s'. split; [exact H1|]. split; [exact H2|]. etransitivity; [exact H3|]. by vm_compute.
Defined.

(** An operation pushed by a task goes to the end of the ring of the CPU it
    runs on and disturbs no other ring; the push does not go through only when
    that ring holds [_capacity - 1] elements, in which case the library fails
    with its message when TAMPI_QUEUES_FULL_FAILURE is set and the caller keeps
    spinning, with the contents unchanged, otherwise. *)
Theorem multi_push_spec {A} (s : MultiLockFreeQueue A) (x : A) (cpu : nat) :
  inv s → cpu < _queues s →
  (∃ s', push x cpu s = Ok (true, s') ∧ inv s' ∧ contents s' cpu = contents s cpu ++ [x] ∧
     ∀ k, k < _queues s → k ≠ cpu → contents s' k = contents s k) ∨
  (length (contents s cpu) = _capacity s - 1 ∧
   if _fullFailure s then push x cpu s = Fail "MultiLockFreeQueue is full"
   else ∃ s', push x cpu s = Ok (false, s') ∧ inv s' ∧
     ∀ k, k < _queues s → contents s' k = contents s k).
Proof.
  intros Hs Hk. destruct (tryPush_spec s x cpu Hs Hk) as
    (b & s' & Heq & Hs' & (Hc & Hq & Hf) & Hother & Hb).
  unfold push. rewrite (proj2 (Nat.ltb_lt _ _)) by done. simpl. rewrite Heq. simpl.
  destruct b; [left; by exists s'|right]. destruct Hb as [Hb1 Hb2]. split; [done|].
  rewrite Hf. destruct (_fullFailure s); [done|]. exists s'. split_and!; try done.
  intros k Hlt. destruct (decide (k = cpu)) as [->|]; auto.
Qed.

Lemma multi_push_spec_witness :
  (∃ s', push 12 0 sample = Ok (true, s') ∧ inv s' ∧ contents s' 0 = [10; 11; 12] ∧
     ∀ k, k < 2 → k ≠ 0 → contents s' k = contents sample k).
Proof.
  destruct (multi_push_spec sample 12 0 sample_inv ltac:(simpl; lia)) as [H|[H _]].
  - exact H.
  - by vm_compute in H.
Defined.
