(* ===== verification/RingMemory.v ===== *)
(** * One ring buffer under the memory orders of the code

    [MultiLockFreeQueue] ([src/src/common/util/MultiLockFreeQueue.hpp]) gives
    each CPU a ring buffer that the tasks of the CPU fill and the polling task
    drains concurrently, with an atomic [_head] and [_tail] and no lock.  Here
    both sides run instruction by instruction, each atomic access with the
    memory order the code gives it: a load may return an old value, and only an
    acquire load that reads from a release store orders the plain accesses to
    [_data] of the two threads.  A plain access that is not ordered after the
    other thread's access to the same cell is a data race. *)

From S2P Require Import Prelude Queues MultiQueue.

(** ** Memory *)

Inductive memory_order := relaxed | acquire | release.
#[global] Instance memory_order_eq_dec : EqDecision memory_order.
Proof. solve_decision. Defined.

(** The orders of the four accesses that the two threads share: [getRemaining]
    loads [_head] and [_tail], [unsafePush] stores [_head] and [unsafePop]
    stores [_tail]. *)
Record orders := mkOrders {
  head_load : memory_order;
  tail_load : memory_order;
  head_store : memory_order;
  tail_store : memory_order;
}.

Definition code_orders : orders := mkOrders acquire relaxed release release.

(** A value stored to an atomic counter.  [msg_clock] is the clock that the
    storing thread releases with it: how many accesses to [_data] it made
    before, zero when the store releases nothing. *)
Record message := mkMsg { msg_value : nat; msg_clock : nat }.

Definition stored (o : memory_order) (value clock : nat) : message :=
  mkMsg value (if decide (o = release) then clock else 0).

(** What a thread knows of the other thread's clock after it loads [m]. *)
Definition synchronise (o : memory_order) (known : nat) (m : message) : nat :=
  if decide (o = acquire) then known `max` msg_clock m else known.

Section ring.
Context {A : Type}.

(** A cell of [_data]: its value, the producer's clock when it was written and
    the consumer's clock when it was last read. *)
Record cell := mkCell { cell_value : A; cell_written : nat; cell_read : nat }.

(** ** The two threads *)

(** Where the producer is in [push(element, queue)]: outside, at the two loads
    of [getAvailable], and at the load, the write and the store of
    [unsafePush]. *)
Inductive producer_pc :=
| PIdle
| PAvailHead (x : A)
| PAvailTail (x : A) (head : nat)
| PUnsafe (x : A)
| PWrite (x : A) (head : nat)
| PStore (x : A) (head : nat).

(** Where the consumer is: between operations, at the two loads of
    [getRemaining], and in [unsafePop] of [n] elements with the values copied
    so far. *)
Inductive consumer_pc :=
| CIdle
| CRemHead
| CRemTail (head : nat)
| CUnsafe (n : nat)
| CCopy (tail n : nat) (values : list A).

(** The producer: where it is, the cached [_available], its clock, the clock of
    the consumer it knows, and the newest store to [_tail] it has seen. *)
Record producer := mkProducer {
  p_pc : producer_pc;
  p_available : nat;
  p_clock : nat;
  p_known : nat;
  p_seen : nat;
}.

(** The consumer, with the cached [_remaining]. *)
Record consumer := mkConsumer {
  c_pc : consumer_pc;
  c_remaining : nat;
  c_clock : nat;
  c_known : nat;
  c_seen : nat;
}.

(** The ring: the stores to both counters, oldest first, the cells, both
    threads, what was pushed and popped, and whether a plain write or read was
    a race or a read found nothing. *)
Record ring := mkRing {
  r_head : list message;
  r_tail : list message;
  r_data : gmap nat cell;
  r_producer : producer;
  r_consumer : consumer;
  r_pushed : list A;
  r_popped : list A;
  r_write_race : bool;
  r_read_race : bool;
  r_undefined : bool;
}.

(** A step of a thread.  [Load i] reads the [i]-th store to the counter that
    the other thread writes. *)
Inductive ring_action :=
| Push (x : A)
| Producer
| ProducerLoad (i : nat)
| Refresh
| Pop (n : nat)
| Consumer
| ConsumerLoad (i : nat).
End ring.
Arguments cell : clear implicits.
Arguments producer_pc : clear implicits.
Arguments consumer_pc : clear implicits.
Arguments producer : clear implicits.
Arguments consumer : clear implicits.
Arguments ring : clear implicits.
Arguments ring_action : clear implicits.

Section ring_steps.
Context {A : Type} (o : orders) (capacity : nat).
Implicit Types (s : ring A) (x : A).

Definition new_ring : ring A :=
  mkRing [mkMsg 0 0] [mkMsg 0 0] ∅ (mkProducer PIdle 0 0 0 0) (mkConsumer CIdle 0 0 0 0)
    [] [] false false false.

Definition set_producer (p : producer A) s : ring A :=
  mkRing (r_head s) (r_tail s) (r_data s) p (r_consumer s) (r_pushed s) (r_popped s)
    (r_write_race s) (r_read_race s) (r_undefined s).
Definition set_consumer (c : consumer A) s : ring A :=
  mkRing (r_head s) (r_tail s) (r_data s) (r_producer s) c (r_pushed s) (r_popped s)
    (r_write_race s) (r_read_race s) (r_undefined s).

(** The newest store, which is what the thread that stores reads. *)
Definition newest (l : list message) : nat := from_option msg_value 0 (last l).

(** [push(element, queue)] up to its first shared access. *)
Definition push_start x s : ring A :=
  let p := r_producer s in
  set_producer (mkProducer (if p_available p =? 0 then PAvailHead x else PUnsafe x)
    (p_available p) (p_clock p) (p_known p) (p_seen p)) s.

(** [getRemaining] in [getAvailable], the load of [_tail], and the rest of
    [push] up to [unsafePush]. *)
Definition avail_tail x head (i : nat) (m : message) s : ring A :=
  let p := r_producer s in
  let available := capacity - (ring_distance capacity head (msg_value m) + 1) in
  set_producer (mkProducer (if available =? 0 then PIdle else PUnsafe x) available
    (p_clock p) (synchronise (tail_load o) (p_known p) m) i) s.

(** The write [data[head] = element] of [unsafePush], which races with a read of
    the cell that the producer does not know to be over. *)
Definition write_cell x head s : ring A :=
  let p := r_producer s in
  let old := from_option cell_read 0 (r_data s !! head) in
  mkRing (r_head s) (r_tail s) (<[head := mkCell x (S (p_clock p)) old]> (r_data s))
    (mkProducer (PStore x head) (p_available p) (S (p_clock p)) (p_known p) (p_seen p))
    (r_consumer s) (r_pushed s) (r_popped s)
    (r_write_race s || (p_known p <? old)) (r_read_race s)
    (r_undefined s || negb (head <? capacity)).

(** [_head[queue].store((head + 1) % _capacity)]. *)
Definition store_head x head s : ring A :=
  let p := r_producer s in
  mkRing (r_head s ++ [stored (head_store o) ((head + 1) `mod` capacity) (p_clock p)])
    (r_tail s) (r_data s)
    (mkProducer PIdle (p_available p) (p_clock p) (p_known p) (p_seen p))
    (r_consumer s) (r_pushed s ++ [x]) (r_popped s)
    (r_write_race s) (r_read_race s) (r_undefined s).

(** The producer's steps that load nothing the consumer writes. *)
Definition producer_step s : option (ring A) :=
  let p := r_producer s in
  match p_pc p with
  | PAvailHead x => Some (set_producer (mkProducer (PAvailTail x (newest (r_head s)))
      (p_available p) (p_clock p) (p_known p) (p_seen p)) s)
  | PUnsafe x => Some (set_producer (mkProducer (PWrite x (newest (r_head s)))
      (p_available p - 1) (p_clock p) (p_known p) (p_seen p)) s)
  | PWrite x head => Some (write_cell x head s)
  | PStore x head => Some (store_head x head s)
  | _ => None
  end.

(** The position of the [k]-th element that [unsafePop] copies: the first
    [n0] come from the tail on, the others from the start of the buffer. *)
Definition pop_position (tail n k : nat) : nat :=
  let n0 := n `min` (capacity - tail) in
  if k <? n0 then tail + k else k - n0.

(** Copying one element in [unsafePop].  The value means nothing when the read
    races: [ring_behaves] below lets anything follow. *)
Definition read_cell (tail n : nat) (values : list A) s : ring A :=
  let c := r_consumer s in
  let i := pop_position tail n (length values) in
  match r_data s !! i with
  | None =>
      mkRing (r_head s) (r_tail s) (r_data s) (r_producer s) c (r_pushed s) (r_popped s)
        (r_write_race s) (r_read_race s) true
  | Some d =>
      mkRing (r_head s) (r_tail s)
        (<[i := mkCell (cell_value d) (cell_written d) (S (c_clock c))]> (r_data s))
        (r_producer s)
        (mkConsumer (CCopy tail n (values ++ [cell_value d])) (c_remaining c)
          (S (c_clock c)) (c_known c) (c_seen c))
        (r_pushed s) (r_popped s) (r_write_race s)
        (r_read_race s || (c_known c <? cell_written d)) (r_undefined s)
  end.

(** [_tail[queue].store((tail + n) % _capacity)]. *)
Definition store_tail (tail n : nat) (values : list A) s : ring A :=
  let c := r_consumer s in
  mkRing (r_head s)
    (r_tail s ++ [stored (tail_store o) ((tail + n) `mod` capacity) (c_clock c)])
    (r_data s) (r_producer s)
    (mkConsumer CIdle (c_remaining c) (c_clock c) (c_known c) (c_seen c))
    (r_pushed s) (r_popped s ++ values) (r_write_race s) (r_read_race s) (r_undefined s).

(** The consumer's steps that load nothing the producer writes. *)
Definition consumer_step s : option (ring A) :=
  let c := r_consumer s in
  match c_pc c with
  | CRemTail head => Some (set_consumer (mkConsumer CIdle
      (ring_distance capacity head (newest (r_tail s))) (c_clock c) (c_known c) (c_seen c)) s)
  | CUnsafe n => Some (set_consumer (mkConsumer (CCopy (newest (r_tail s)) n [])
      (c_remaining c - n) (c_clock c) (c_known c) (c_seen c)) s)
  | CCopy tail n values =>
      Some (if length values <? n then read_cell tail n values s
            else store_tail tail n values s)
  | _ => None
  end.

(** One step of either thread.  A load may return any store to the counter
    from the newest the thread has seen on. *)
Definition ring_step (a : ring_action A) s : option (ring A) :=
  let p := r_producer s in
  let c := r_consumer s in
  match a with
  | Push x => match p_pc p with PIdle => Some (push_start x s) | _ => None end
  | Producer => producer_step s
  | ProducerLoad i =>
      match p_pc p, r_tail s !! i with
      | PAvailTail x head, Some m =>
          if p_seen p <=? i then Some (avail_tail x head i m s) else None
      | _, _ => None
      end
  | Refresh =>
      match c_pc c with
      | CIdle => Some (set_consumer (mkConsumer CRemHead (c_remaining c) (c_clock c)
          (c_known c) (c_seen c)) s)
      | _ => None
      end
  | Pop n =>
      match c_pc c with
      | CIdle =>
          if (0 <? n) && (n <=? c_remaining c) then
            Some (set_consumer (mkConsumer (CUnsafe n) (c_remaining c) (c_clock c)
              (c_known c) (c_seen c)) s)
          else None
      | _ => None
      end
  | Consumer => consumer_step s
  | ConsumerLoad i =>
      match c_pc c, r_head s !! i with
      | CRemHead, Some m =>
          if c_seen c <=? i then
            Some (set_consumer (mkConsumer (CRemTail (msg_value m)) (c_remaining c)
              (c_clock c) (synchronise (head_load o) (c_known c) m) i) s)
          else None
      | _, _ => None
      end
  end.

Definition ring_trans (s s' : ring A) : Prop := ∃ a, ring_step a s = Some s'.

Fixpoint ring_run (acts : list (ring_action A)) s : option (ring A) :=
  match acts with
  | [] => Some s
  | a :: acts => s ← ring_step a s; ring_run acts s
  end.

Lemma ring_run_rtc acts s s' : ring_run acts s = Some s' → rtc ring_trans s s'.
Proof.
  revert s. induction acts as [|a acts IH]; simpl; intros s Hr; [by simplify_eq|].
  apply bind_Some in Hr as (s1 & Ha & Hr). eapply rtc_l; [by exists a|]. by apply IH.
Qed.
End ring_steps.

(** ** Positions modulo the capacity *)

Section positions.
Context (capacity : nat) (Hpos : 0 < capacity).

Lemma mod_add_small a d :
  d < capacity →
  (a + d) `mod` capacity =
    if decide (a `mod` capacity + d < capacity) then a `mod` capacity + d
    else a `mod` capacity + d - capacity.
Proof.
  intros Hd. rewrite <-Nat.Div0.add_mod_idemp_l. apply mod_wrap; [done|].
  pose proof (mod_lt a capacity Hpos). lia.
Qed.

(** Positions less than a round apart. *)
Lemma ring_distance_mod a b :
  (Z.of_nat capacity < u64_modulus)%Z → b ≤ a → a < b + capacity →
  ring_distance capacity (a `mod` capacity) (b `mod` capacity) = a - b.
Proof.
  intros Hw Hba Hab. rewrite ring_distance_eq by (done || by apply mod_lt).
  replace a with (b + (a - b)) by lia. rewrite mod_add_small by lia.
  pose proof (mod_lt b capacity Hpos). repeat case_decide; lia.
Qed.

(** Two positions of the same cell are a round apart. *)
Lemma mod_same_cell a b :
  a `mod` capacity = b `mod` capacity → a < b → a + capacity ≤ b.
Proof.
  intros He Hab. destruct (decide (a + capacity ≤ b)) as [|Hn]; [done|exfalso].
  replace b with (a + (b - a)) in He by lia. rewrite mod_add_small in He by lia.
  pose proof (mod_lt a capacity Hpos). revert He. case_decide; lia.
Qed.

Lemma pop_position_mod a n k :
  n ≤ capacity → k < n → pop_position capacity (a `mod` capacity) n k = (a + k) `mod` capacity.
Proof.
  intros Hn Hk. unfold pop_position. rewrite mod_add_small by lia.
  pose proof (mod_lt a capacity Hpos).
  destruct (Nat.ltb_spec k (n `min` (capacity - a `mod` capacity))); case_decide; lia.
Qed.
End positions.

(** ** The invariant *)

Section invariant.
Context {A : Type} (o : orders) (capacity : nat).
Context (Hpos : 0 < capacity) (Hwidth : (Z.of_nat capacity < u64_modulus)%Z).
Context (Hhl : head_load o = acquire) (Hhs : head_store o = release)
  (Hts : tail_store o = release).
Implicit Types (s : ring A) (x : A).

(** The elements written to the cells, and those copied out of them. *)
Definition written s : list A :=
  r_pushed s ++ match p_pc (r_producer s) with PStore x _ => [x] | _ => [] end.
Definition was_read s : list A :=
  r_popped s ++ match c_pc (r_consumer s) with CCopy _ _ values => values | _ => [] end.

(** The room that the producer has claimed and not filled, and the elements
    that the consumer has claimed and not given back. *)
Definition claimed s : nat := match p_pc (r_producer s) with PWrite _ _ => 1 | _ => 0 end.
Definition popping s : nat := match c_pc (r_consumer s) with CCopy _ n _ => n | _ => 0 end.

(** The producer: its clock counts the writes, the head it loaded is the
    current one, and its room ends before what the newest tail it saw leaves
    unread. *)
Record producer_ok s : Prop := {
  po_clock : p_clock (r_producer s) = length (written s);
  po_pc : match p_pc (r_producer s) with
    | PUnsafe _ => 0 < p_available (r_producer s)
    | PAvailTail _ h | PWrite _ h | PStore _ h => h = length (r_pushed s) `mod` capacity
    | _ => True
    end;
  po_room : ∃ m, r_tail s !! p_seen (r_producer s) = Some m ∧
    length (written s) + claimed s + p_available (r_producer s) + 1 ≤ msg_clock m + capacity ∧
    (tail_load o = acquire → msg_clock m ≤ p_known (r_producer s));
}.

(** The consumer: its clock counts the reads, and what it may read was
    released with the newest head it saw. *)
Record consumer_ok s : Prop := {
  co_clock : c_clock (r_consumer s) = length (was_read s);
  co_pc : match c_pc (r_consumer s) with
    | CRemTail h => h = c_seen (r_consumer s) `mod` capacity
    | CUnsafe n => 0 < n ≤ c_remaining (r_consumer s)
    | CCopy t n values => t = length (r_popped s) `mod` capacity ∧ length values ≤ n
    | _ => True
    end;
  co_seen : c_seen (r_consumer s) ≤ length (r_pushed s);
  co_known : c_seen (r_consumer s) ≤ c_known (r_consumer s);
  co_credit : length (r_popped s) + c_remaining (r_consumer s) + popping s ≤
    c_seen (r_consumer s);
  co_fifo : was_read s `prefix_of` r_pushed s;
}.

(** The stores to the counters: each carries the clock of its position. *)
Record stores_ok s : Prop := {
  so_head : r_head s =
    (λ j, mkMsg (j `mod` capacity) j) <$> seq 0 (S (length (r_pushed s)));
  so_tail m : m ∈ r_tail s →
    msg_value m = msg_clock m `mod` capacity ∧ msg_clock m ≤ length (r_popped s);
  so_tail_mono i j m m' : i ≤ j → r_tail s !! i = Some m → r_tail s !! j = Some m' →
    msg_clock m ≤ msg_clock m';
  so_tail_last : last (r_tail s) =
    Some (mkMsg (length (r_popped s) `mod` capacity) (length (r_popped s)));
}.

(** The cells of the last round hold what was written to them. *)
Record cells_ok s : Prop := {
  ce_written k x : written s !! k = Some x → length (written s) ≤ k + capacity →
    ∃ d, r_data s !! (k `mod` capacity) = Some d ∧ cell_value d = x ∧ cell_written d = S k;
  ce_read i d : r_data s !! i = Some d → cell_read d = 0 ∨
    (cell_read d ≤ c_clock (r_consumer s) ∧ (cell_read d - 1) `mod` capacity = i);
  ce_no_read_race : r_read_race s = false;
  ce_defined : r_undefined s = false;
  ce_no_write_race : tail_load o = acquire → r_write_race s = false;
}.

Record ring_inv s : Prop := {
  ri_producer : producer_ok s;
  ri_consumer : consumer_ok s;
  ri_stores : stores_ok s;
  ri_cells : cells_ok s;
}.

Lemma new_ring_inv : ring_inv new_ring.
Proof.
  split; split; simpl; try done; try lia.
  - exists (mkMsg 0 0). simpl. split_and!; [done|lia|done].
  - rewrite Nat.Div0.mod_0_l. done.
  - intros m ->%list_elem_of_singleton. simpl. by rewrite Nat.Div0.mod_0_l.
  - intros i j m m' _ Hm Hm'. apply list_lookup_singleton_Some in Hm as [_ <-].
    apply list_lookup_singleton_Some in Hm' as [_ <-]. done.
  - by rewrite Nat.Div0.mod_0_l.
Qed.

(** ** Consequences of the invariant *)

Lemma newest_head s : stores_ok s → newest (r_head s) = length (r_pushed s) `mod` capacity.
Proof.
  intros [-> _ _ _]. unfold newest.
  rewrite seq_S, fmap_app. csimpl. by rewrite last_snoc.
Qed.

Lemma newest_tail s : stores_ok s → newest (r_tail s) = length (r_popped s) `mod` capacity.
Proof. intros [_ _ _ Hl]. unfold newest. by rewrite Hl. Qed.

(** The producer never runs more than a round ahead of the consumer. *)
Lemma written_bound s : ring_inv s →
  length (written s) + claimed s + p_available (r_producer s) < length (r_popped s) + capacity.
Proof using Type.
  intros [[_ _ (m & Hm & Hroom & _)] _ [_ Ht _ _] _].
  apply list_elem_of_lookup_2 in Hm. apply Ht in Hm as [_ ?]. clear Hpos. lia.
Qed.

Lemma pushed_le_written s : length (r_pushed s) ≤ length (written s).
Proof using Type. unfold written. rewrite length_app. apply Nat.le_add_r. Qed.

(** ** Steps of the producer *)

(** A step that only moves the producer. *)
Lemma producer_frame s p :
  written (set_producer p s) = written s → ring_inv s →
  producer_ok (set_producer p s) → ring_inv (set_producer p s).
Proof.
  intros Hw [_ Hc Hs [Hcw ? ? ? ?]] Hp. split; [done|by destruct Hc|by destruct Hs|].
  split; [|done..]. intros k x. rewrite Hw. apply Hcw.
Qed.

Lemma push_start_inv s x :
  p_pc (r_producer s) = PIdle → ring_inv s → ring_inv (push_start x s).
Proof.
  intros Hpc Hi. pose proof Hi as [[Hcl Hp Hroom] _ _ _].
  unfold push_start, written, claimed in *. rewrite Hpc in *.
  assert (written (set_producer (mkProducer (if p_available (r_producer s) =? 0
    then PAvailHead x else PUnsafe x) (p_available (r_producer s)) (p_clock (r_producer s))
    (p_known (r_producer s)) (p_seen (r_producer s))) s) = written s) as Hw.
  { unfold written. rewrite Hpc. simpl. by destruct (_ =? _). }
  apply producer_frame; [done|done|]. split; rewrite ?Hw; unfold written, claimed; rewrite ?Hpc; simpl.
  - done.
  - destruct (Nat.eqb_spec (p_available (r_producer s)) 0); [done|lia].
  - destruct (_ =? _); done.
Qed.

Lemma avail_tail_inv s x head i m :
  p_pc (r_producer s) = PAvailTail x head → r_tail s !! i = Some m →
  p_seen (r_producer s) ≤ i → ring_inv s → ring_inv (avail_tail o capacity x head i m s).
Proof.
  intros Hpc Hm Hi Hinv. pose proof Hinv as [[Hcl Hp (m0 & Hm0 & Hroom & Hk)] [_ _ Hcs _ Hcr Hff] Hst _].
  pose proof (written_bound s Hinv) as Hb. unfold written, claimed in *. rewrite Hpc, app_nil_r in *.
  destruct (so_tail s Hst m) as [Hv Hle]; [by eapply list_elem_of_lookup_2|].
  pose proof (so_tail_mono s Hst _ _ _ _ Hi Hm0 Hm) as Hmono.
  unfold avail_tail. subst head. rewrite Hv, ring_distance_mod by (done || lia).
  set (av := capacity - _). apply producer_frame; [|done|].
  { unfold written. rewrite Hpc. simpl. by destruct (_ =? _). }
  split; unfold written, claimed; simpl.
  - rewrite Hcl. destruct (_ =? _); by rewrite app_nil_r.
  - destruct (Nat.eqb_spec av 0); [done|lia].
  - exists m. split_and!; [done|destruct (_ =? _); rewrite ?app_nil_r; lia|].
    intros Ha. unfold synchronise. rewrite decide_True by done. lia.
Qed.

Lemma write_cell_inv s x head :
  p_pc (r_producer s) = PWrite x head → ring_inv s → ring_inv (write_cell capacity x head s).
Proof.
  intros Hpc Hinv. pose proof Hinv as [[Hcl Hp (m & Hm & Hroom & Hk)] Hc Hst [Hw Hr Hrr Hu Hwr]].
  pose proof Hc as [Hccl _ Hcs _ Hcr Hff]. apply prefix_length in Hff.
  unfold claimed in Hroom. rewrite Hpc in Hp, Hroom.
  assert (written s = r_pushed s) as Hws by (unfold written; by rewrite Hpc, app_nil_r).
  assert (written (write_cell capacity x head s) = r_pushed s ++ [x]) as Hws' by done.
  rewrite Hws in Hcl, Hroom, Hw. subst head. split.
  - split; rewrite ?Hws', ?length_app; unfold claimed; simpl; [lia|done|].
    exists m. split_and!; [done|lia|done].
  - by destruct Hc.
  - by destruct Hst.
  - split; rewrite ?Hws', ?length_app; simpl.
    + intros k y [Hy|[Hk' Hy]]%lookup_app_Some Hlen; simpl in *.
      * pose proof (lookup_lt_Some _ _ _ Hy). destruct (Hw k y Hy) as (d & Hd & ? & ?); [lia|].
        exists d. split_and!; [|done..]. rewrite lookup_insert_ne; [done|].
        intros He. symmetry in He. apply mod_same_cell in He; [lia|done..].
      * apply list_lookup_singleton_Some in Hy as [Hk0 <-].
        replace k with (length (r_pushed s)) by lia. eexists. rewrite lookup_insert_eq.
        split_and!; [done|done|]. simpl. lia.
    + intros i d. rewrite lookup_insert_Some. intros [[<- <-]|[_ Hd]]; [|by apply Hr].
      simpl. destruct (r_data s !! _) as [d'|] eqn:Hd; simpl; [by apply Hr|by left].
    + done.
    + rewrite Hu. simpl. apply negb_false_iff, Nat.ltb_lt. by apply mod_lt.
    + intros Ha. rewrite (Hwr Ha). simpl. apply Nat.ltb_ge.
      destruct (r_data s !! _) as [d'|] eqn:Hd; simpl; [|lia].
      destruct (Hr _ _ Hd) as [->|[Hle Hmod]]; [lia|]. specialize (Hk Ha).
      destruct (decide (cell_read d' = 0)); [lia|].
      apply mod_same_cell in Hmod; [lia|done|lia].
Qed.

Lemma store_head_inv s x head :
  p_pc (r_producer s) = PStore x head → ring_inv s → ring_inv (store_head o capacity x head s).
Proof.
  intros Hpc [[Hcl Hp (m & Hm & Hroom & Hk)] [? ? ? ? ? Hff] [Hh Ht Htm Htl] [Hw Hr Hrr Hu Hwr]].
  rewrite Hpc in Hp. unfold claimed in Hroom. rewrite Hpc in Hroom. subst head.
  assert (written (store_head o capacity x (length (r_pushed s) `mod` capacity) s) = written s) as Hws.
  { unfold written. rewrite Hpc. simpl. by rewrite app_nil_r. }
  assert (length (written s) = length (r_pushed s) + 1) as Hlen.
  { unfold written. by rewrite Hpc, length_app. }
  split.
  - split; rewrite ?Hws; [done|done|]. exists m. unfold claimed. simpl. split_and!; [done|lia|done].
  - split; try done; simpl; rewrite ?length_app; simpl; [lia|]. by apply prefix_app_r.
  - split; try done. unfold store_head. cbn [r_head r_pushed].
    assert (stored (head_store o) ((length (r_pushed s) `mod` capacity + 1) `mod` capacity)
      (p_clock (r_producer s)) =
      mkMsg (S (length (r_pushed s)) `mod` capacity) (S (length (r_pushed s)))) as ->.
    { unfold stored. rewrite Hhs, decide_True, Nat.Div0.add_mod_idemp_l by done.
      rewrite Hcl, Hlen, Nat.add_1_r. done. }
    by rewrite Hh, length_app, Nat.add_1_r, (seq_S (S _)), fmap_app.
  - split; rewrite ?Hws; done.
Qed.

Lemma producer_step_inv s s' : producer_step o capacity s = Some s' → ring_inv s → ring_inv s'.
Proof.
  intros Hstep Hinv. unfold producer_step in Hstep. pose proof Hinv as [[Hcl Hp Hroom] _ Hst _].
  destruct (p_pc (r_producer s)) as [|x|x h|x|x h|x h] eqn:Hpc; simplify_eq.
  - apply producer_frame; [by unfold written; rewrite Hpc|done|].
    split; unfold written, claimed in *; rewrite Hpc in *; [done|by apply (newest_head s)|done].
  - apply producer_frame; [by unfold written; rewrite Hpc|done|].
    destruct Hroom as (m & Hm & Hroom & Hk).
    split; unfold written, claimed in *; rewrite Hpc in *; simpl; [done|by apply (newest_head s)|].
    exists m. split_and!; [done|lia|done].
  - by apply write_cell_inv.
  - by apply store_head_inv.
Qed.

(** ** Steps of the consumer *)

(** A step that only moves the consumer, and counts no read. *)
Lemma consumer_frame s c :
  c_clock c = c_clock (r_consumer s) → ring_inv s →
  consumer_ok (set_consumer c s) → ring_inv (set_consumer c s).
Proof.
  intros Hc [Hp _ Hs [? Hr ? ? ?]] Hco. split; [by destruct Hp|done|by destruct Hs|].
  split; try done. simpl. by rewrite Hc.
Qed.

(** Such a step that holds no element either. *)
Lemma consumer_move s c :
  match c_pc (r_consumer s) with CCopy _ _ _ => False | _ => True end →
  ring_inv s → c_clock c = c_clock (r_consumer s) →
  match c_pc c with
  | CRemTail h => h = c_seen c `mod` capacity
  | CUnsafe n => 0 < n ≤ c_remaining c
  | CCopy t n values =>
      t = length (r_popped s) `mod` capacity ∧ values = []
  | _ => True
  end →
  c_seen c ≤ length (r_pushed s) → c_seen c ≤ c_known c →
  length (r_popped s) + c_remaining c + popping (set_consumer c s) ≤ c_seen c →
  ring_inv (set_consumer c s).
Proof.
  intros Hpc Hinv Hcl Hpc' Hs Hk Hcr. pose proof Hinv as [_ [Hcc _ _ _ _ Hff] _ _].
  assert (was_read (set_consumer c s) = was_read s) as Hr.
  { unfold was_read. simpl. f_equal. destruct (c_pc (r_consumer s)); try done;
      destruct (c_pc c); try done; by destruct Hpc' as [_ ->]. }
  apply consumer_frame; [done|done|]. split; rewrite ?Hr; try done; simpl; [congruence|].
  destruct (c_pc c); try done. destruct Hpc' as [-> ->]. split; [done|simpl; lia].
Qed.

Lemma read_cell_inv s t n values :
  c_pc (r_consumer s) = CCopy t n values → length values < n → ring_inv s →
  ring_inv (read_cell capacity t n values s).
Proof.
  intros Hpc Hlt Hinv. pose proof (written_bound s Hinv) as Hb. pose proof (pushed_le_written s) as Hpw.
  pose proof Hinv as [Hp [Hcl Hc Hs Hk Hcr Hff] Hst [Hw Hr Hrr Hu Hwr]].
  unfold popping in Hcr. rewrite Hpc in Hc, Hcr. destruct Hc as [-> Hle].
  assert (was_read s = r_popped s ++ values) as Hwas by (unfold was_read; by rewrite Hpc).
  assert (length (was_read s) = length (r_popped s) + length values) as Hlen
    by by rewrite Hwas, length_app.
  destruct (lookup_lt_is_Some_2 (r_pushed s) (length (was_read s))) as [x Hx]; [lia|].
  destruct (Hw (length (was_read s)) x) as (d & Hd & Hval & Hwrt);
    [unfold written; by apply lookup_app_l_Some|lia|].
  unfold read_cell. rewrite pop_position_mod by lia. rewrite <-Hlen, Hd.
  match goal with |- ring_inv ?s1 => set (s' := s1) end.
  assert (was_read s' = was_read s ++ [x]) as Hwas'.
  { unfold was_read at 1. subst s'. simpl. by rewrite Hval, Hwas, app_assoc. }
  split; [by destruct Hp| |by destruct Hst|].
  - split; rewrite ?Hwas'; try done; simpl; rewrite ?length_app; simpl.
    + lia.
    + split; [done|lia].
    + destruct Hff as [rest Hff]. rewrite Hff in Hx |- *. rewrite lookup_app_r, Nat.sub_diag in Hx by lia.
      destruct rest as [|y rest]; [done|]. simplify_eq/=. exists rest. by rewrite <-app_assoc.
  - split; simpl; try done.
    + intros k y Hy Hlen'. destruct (Hw k y Hy Hlen') as (d' & Hd' & ? & ?).
      destruct (decide (length (was_read s) `mod` capacity = k `mod` capacity)) as [He|Hne].
      * rewrite <-He in *. rewrite lookup_insert_eq. simplify_eq. by eexists.
      * rewrite lookup_insert_ne by done. by exists d'.
    + intros i d'. rewrite lookup_insert_Some. intros [[<- <-]|[_ Hd']].
      * right. simpl. split; [lia|]. rewrite Hcl. f_equal. lia.
      * destruct (Hr _ _ Hd') as [|[? ?]]; [by left|right; lia].
    + rewrite Hrr. simpl. apply Nat.ltb_ge. lia.
Qed.

Lemma store_tail_inv s t n values :
  c_pc (r_consumer s) = CCopy t n values → n ≤ length values → ring_inv s →
  ring_inv (store_tail o capacity t n values s).
Proof.
  intros Hpc Hge [[Hpcl Hppc (m & Hm & Hroom & Hkn)] [Hcl Hc Hs Hk Hcr Hff] [Hh Ht Htm Htl]
    [Hw Hr Hrr Hu Hwr]].
  unfold popping in Hcr. rewrite Hpc in Hc, Hcr. destruct Hc as [-> Hle].
  assert (was_read s = r_popped s ++ values) as Hwas by (unfold was_read; by rewrite Hpc).
  assert (stored (tail_store o) ((length (r_popped s) `mod` capacity + n) `mod` capacity)
    (c_clock (r_consumer s)) =
    mkMsg (length (r_popped s ++ values) `mod` capacity) (length (r_popped s ++ values))) as Hst.
  { unfold stored. rewrite Hts, decide_True, Nat.Div0.add_mod_idemp_l by done.
    rewrite Hcl, Hwas, length_app. do 3 f_equal. lia. }
  assert (∀ m, m ∈ r_tail s → msg_clock m ≤ length (r_popped s ++ values)) as Hlt.
  { intros m' Hin. rewrite length_app. apply Ht in Hin as [_ ?]. lia. }
  unfold store_tail. rewrite Hst. match goal with |- ring_inv ?s1 => set (s' := s1) end.
  assert (was_read s' = was_read s) as Hwas' by (by rewrite Hwas; unfold was_read; rewrite app_nil_r).
  split.
  - split; [done..|]. exists m. pose proof (lookup_lt_Some _ _ _ Hm).
    cbn [r_tail r_producer s']. by rewrite lookup_app_l by done.
  - split; rewrite ?Hwas'; try done. unfold popping. simpl. rewrite length_app. lia.
  - split; simpl; [done| | |by rewrite last_snoc].
    + intros m' [Hin|Hin%list_elem_of_singleton]%elem_of_app; [|by subst].
      split; [by apply Ht|by apply Hlt].
    + intros i j m1 m2 Hij H1 H2. pose proof (lookup_lt_Some _ _ _ H2) as Hj.
      apply lookup_app_Some in H2 as [H2|[Hj' H2]].
      * apply lookup_lt_Some in H2 as Hj2. rewrite lookup_app_l in H1 by lia. by apply (Htm i j).
      * apply list_lookup_singleton_Some in H2 as [? <-]. simpl.
        apply lookup_app_Some in H1 as [H1|[_ H1]].
        -- apply Hlt. by eapply list_elem_of_lookup_2.
        -- apply list_lookup_singleton_Some in H1 as [_ <-]. done.
  - split; done.
Qed.

Lemma consumer_step_inv s s' : consumer_step o capacity s = Some s' → ring_inv s → ring_inv s'.
Proof.
  intros Hstep Hinv. pose proof (written_bound s Hinv) as Hb. pose proof (pushed_le_written s) as Hpw.
  pose proof Hinv as [_ [Hcl Hc Hs Hk Hcr Hff] Hst _].
  unfold consumer_step, popping in *. rewrite (newest_tail s Hst) in Hstep.
  destruct (c_pc (r_consumer s)) as [| |h|n|t n values] eqn:Hpc; simplify_eq.
  - rewrite ring_distance_mod by (done || lia).
    apply consumer_move; simpl; rewrite ?Hpc; try done. unfold popping. simpl. lia.
  - apply consumer_move; simpl; rewrite ?Hpc; try done. unfold popping. simpl. lia.
  - destruct (Nat.ltb_spec (length values) n).
    + by apply read_cell_inv.
    + by apply store_tail_inv.
Qed.

(** ** Every step *)

Lemma ring_step_inv a s s' : ring_step o capacity a s = Some s' → ring_inv s → ring_inv s'.
Proof.
  intros Hstep Hinv. pose proof Hinv as [_ [Hcl Hc Hs Hk Hcr Hff] Hst _].
  destruct a as [x| |i| |n| |i]; simpl in Hstep.
  - destruct (p_pc _) eqn:Hpc; simplify_eq. by apply push_start_inv.
  - by eapply producer_step_inv.
  - destruct (p_pc _) eqn:Hpc; try done. destruct (r_tail s !! i) eqn:Hm; [|done].
    destruct (Nat.leb_spec (p_seen (r_producer s)) i); simplify_eq. by apply avail_tail_inv.
  - unfold popping in Hcr. destruct (c_pc _) eqn:Hpc; simplify_eq.
    apply consumer_move; simpl; rewrite ?Hpc; done.
  - unfold popping in Hcr. destruct (c_pc _) eqn:Hpc; simplify_eq.
    destruct (Nat.ltb_spec 0 n), (Nat.leb_spec n (c_remaining (r_consumer s))); simplify_eq/=.
    apply consumer_move; simpl; rewrite ?Hpc; done.
  - by eapply consumer_step_inv.
  - unfold popping in Hcr. destruct (c_pc _) eqn:Hpc; try done.
    destruct (r_head s !! i) as [m|] eqn:Hm; [|done].
    destruct (Nat.leb_spec (c_seen (r_consumer s)) i); simplify_eq.
    rewrite (so_head s Hst), list_lookup_fmap_Some in Hm.
    destruct Hm as (j & -> & [-> Hj]%lookup_seq). simpl.
    apply consumer_move; simpl; rewrite ?Hpc; try done; unfold synchronise, popping; simpl; try lia.
    rewrite decide_True by done. simpl. lia.
Qed.

Lemma ring_run_inv s : rtc (ring_trans o capacity) new_ring s → ring_inv s.
Proof.
  intros Hr. assert (ring_inv new_ring) as Hi by apply new_ring_inv. revert Hi.
  induction Hr as [|s1 s2 s3 [a Ha] _ IH]; [done|]. intros Hi. by apply IH, (ring_step_inv a s1).
Qed.
End invariant.

(** ** The abstract queue *)

(** A bounded queue: push at the end while there is room, and take any number
    of elements from the front. *)
Inductive fifo_step {A} (capacity : nat) : list A → list A → Prop :=
| fifo_push q x : S (length q) < capacity → fifo_step capacity q (q ++ [x])
| fifo_pop values q : fifo_step capacity (values ++ q) q.

(** What is in the ring. *)
Definition ring_contents {A} (s : ring A) : list A := drop (length (r_popped s)) (r_pushed s).

Section refinement.
Context {A : Type} (o : orders) (capacity : nat).
Context (Hpos : 0 < capacity) (Hwidth : (Z.of_nat capacity < u64_modulus)%Z).
Implicit Types (s : ring A) (x : A).

Lemma ring_split s : ring_inv o capacity s → r_pushed s = r_popped s ++ ring_contents s.
Proof.
  intros [_ [_ _ _ _ _ [rest Hff]] _ _]. unfold ring_contents.
  rewrite Hff at 2. unfold was_read. rewrite <-!app_assoc, drop_app_length, app_assoc. done.
Qed.

Lemma store_head_fifo s x h :
  p_pc (r_producer s) = PStore x h → ring_inv o capacity s →
  fifo_step capacity (ring_contents s) (ring_contents (store_head o capacity x h s)).
Proof.
  intros Hpc Hinv. pose proof (written_bound o capacity s Hinv) as Hb.
  pose proof (ring_split s Hinv) as Hsp. apply (f_equal length) in Hsp as Hl.
  unfold written, claimed in Hb. rewrite Hpc, length_app in Hb. rewrite length_app in Hl. simpl in Hb.
  unfold ring_contents at 2. simpl. rewrite Hsp, <-app_assoc, drop_app_length.
  apply fifo_push. lia.
Qed.

Lemma store_tail_fifo s t n values :
  c_pc (r_consumer s) = CCopy t n values → ring_inv o capacity s →
  fifo_step capacity (ring_contents s) (ring_contents (store_tail o capacity t n values s)).
Proof.
  intros Hpc [_ [_ _ _ _ _ [rest Hff]] _ _]. unfold was_read in Hff. rewrite Hpc in Hff.
  unfold ring_contents. simpl. rewrite Hff, drop_app_length, <-app_assoc, drop_app_length.
  apply fifo_pop.
Qed.

(** Each step leaves the contents alone or is one step of the queue. *)
Lemma ring_step_fifo a s s' :
  ring_step o capacity a s = Some s' → ring_inv o capacity s →
  rtc (fifo_step capacity) (ring_contents s) (ring_contents s').
Proof.
  intros Hstep Hinv. destruct a; simpl in Hstep;
    unfold producer_step, consumer_step in Hstep; repeat case_match; simplify_eq; try done.
  - by eapply rtc_once, store_head_fifo.
  - unfold read_cell. by case_match.
  - by eapply rtc_once, store_tail_fifo.
Qed.

Lemma ring_run_fifo s :
  head_load o = acquire → head_store o = release → tail_store o = release →
  rtc (ring_trans o capacity) new_ring s →
  rtc (fifo_step capacity) [] (ring_contents s).
Proof.
  intros Hhl Hhs Hts Hr.
  assert (∀ s1, rtc (ring_trans o capacity) s1 s → ring_inv o capacity s1 →
    rtc (fifo_step capacity) (ring_contents s1) (ring_contents s)) as Hgen.
  { induction 1 as [|s1 s2 s3 [a Ha] _ IH]; [done|]. intros Hi.
    etrans; [by eapply ring_step_fifo|]. apply IH; [done|].
    by eapply (ring_step_inv o capacity). }
  by apply (Hgen new_ring), new_ring_inv.
Qed.
End refinement.

(** ** Races *)

(** A run in which an access raced, or read nothing. *)
Definition raced {A} (s : ring A) : bool := r_write_race s || r_read_race s || r_undefined s.

(** What the language promises: the step of a thread, and nothing after a race. *)
Definition ring_behaves {A} (o : orders) (capacity : nat) (s s' : ring A) : Prop :=
  if raced s then raced s' = true else ring_trans o capacity s s'.

(** The orders with an acquire load of [_tail]. *)
Definition acquire_tail : orders :=
  mkOrders (head_load code_orders) acquire (head_store code_orders) (tail_store code_orders).

(** What was pushed and popped so far came about by steps of the bounded queue. *)
Definition is_fifo {A} (capacity : nat) (s : ring A) : Prop :=
  rtc (fifo_step capacity) [] (ring_contents s) ∧
  r_pushed s = r_popped s ++ ring_contents s ∧ length (ring_contents s) < capacity.

Section behaviour.
Context {A : Type} (o : orders) (capacity : nat).
Context (Hpos : 0 < capacity) (Hwidth : (Z.of_nat capacity < u64_modulus)%Z).
Implicit Types s : ring A.

Lemma race_stays s1 s : rtc (ring_behaves o capacity) s1 s → raced s1 = true → raced s = true.
Proof.
  induction 1 as [|s0 s2 s3 Hs _ IH]; [done|]. intros Hx. apply IH.
  unfold ring_behaves in Hs. by rewrite Hx in Hs.
Qed.

(** A run without a race consists of steps. *)
Lemma ring_behaves_run s1 s : rtc (ring_behaves o capacity) s1 s → raced s = false → rtc (ring_trans o capacity) s1 s.
Proof.
  intros Hr Hn. pose proof race_stays as Hstays. induction Hr as [|s1 s2 s3 Hs Hr IH]; [done|]. destruct (raced s1) eqn:Hx.
  { rewrite (Hstays s1 s3) in Hn; [done| |done]. by eapply rtc_l. }
  unfold ring_behaves in Hs. rewrite Hx in Hs. eapply rtc_l; [exact Hs|]. by apply IH.
Qed.

(** Steps that do not race. *)
Fixpoint quiet_run (acts : list (ring_action A)) s : option (ring A) :=
  match acts with
  | [] => Some s
  | a :: acts => if raced s then None else s ← ring_step o capacity a s; quiet_run acts s
  end.

Lemma quiet_run_behaves acts s1 s : quiet_run acts s1 = Some s → rtc (ring_behaves o capacity) s1 s.
Proof.
  revert s1. induction acts as [|a acts IH]; simpl; intros s1 Hr; [by simplify_eq|].
  destruct (raced s1) eqn:Hn; [done|]. apply bind_Some in Hr as (s2 & Ha & Hr). eapply rtc_l; [|by apply IH].
  unfold ring_behaves. rewrite Hn. by exists a.
Qed.

Lemma inv_not_raced s : tail_load o = acquire → ring_inv o capacity s → raced s = false.
Proof. intros Ha [_ _ _ [_ _ Hr Hu Hw]]. unfold raced. by rewrite Hr, Hu, (Hw Ha). Qed.

Lemma race_free_run s1 s :
  head_load o = acquire → head_store o = release → tail_store o = release → tail_load o = acquire →
  ring_inv o capacity s1 → rtc (ring_behaves o capacity) s1 s →
  rtc (ring_trans o capacity) s1 s ∧ ring_inv o capacity s.
Proof.
  intros Hhl Hhs Hts Htl Hi Hr. induction Hr as [|s1 s2 s3 Hs _ IH]; [done|].
  unfold ring_behaves in Hs. rewrite (inv_not_raced s1 Htl Hi) in Hs. destruct Hs as [a Ha].
  destruct IH as [Hr Hi']; [by apply (ring_step_inv o capacity Hpos Hwidth Hhl Hhs Hts a s1)|].
  split; [|done]. eapply rtc_l; [by exists a|done].
Qed.

Lemma ring_inv_fifo s :
  head_load o = acquire → head_store o = release → tail_store o = release →
  rtc (ring_trans o capacity) new_ring s → ring_inv o capacity s → is_fifo capacity s.
Proof.
  intros Hhl Hhs Hts Hr Hinv. pose proof (ring_split _ _ s Hinv) as Hsp.
  apply (f_equal length) in Hsp as Hl. rewrite length_app in Hl.
  pose proof (written_bound _ _ s Hinv) as Hb. pose proof (pushed_le_written s).
  split_and!; [by apply (ring_run_fifo o)|done|lia].
Qed.
End behaviour.

(** ** The race of the relaxed load *)

Section race.
Context {A : Type} (capacity : nat) (x : A).
Context (Htwo : 2 ≤ capacity) (Hwidth : (Z.of_nat capacity < u64_modulus)%Z).
Implicit Types (s : ring A).
Notation step := (ring_trans code_orders capacity).

(** The cells that were read stay marked as read, and the relaxed load teaches
    the producer nothing. *)
Record unordered s : Prop := {
  un_known : p_known (r_producer s) = 0;
  un_read k : k < c_clock (r_consumer s) →
    ∃ d, r_data s !! (k `mod` capacity) = Some d ∧ 0 < cell_read d;
}.

Lemma unordered_write s y head : unordered s → unordered (write_cell capacity y head s).
Proof.
  intros [Hk Hr]. split; [done|]. intros k Hlt. destruct (Hr k Hlt) as (d & Hd & Hpos). simpl.
  destruct (decide (head = k `mod` capacity)) as [->|].
  - rewrite lookup_insert_eq. eexists. split; [done|]. simpl. by rewrite Hd.
  - rewrite lookup_insert_ne by done. by exists d.
Qed.

Lemma unordered_read s t n values :
  c_pc (r_consumer s) = CCopy t n values → length values < n →
  ring_inv code_orders capacity s → unordered s → unordered (read_cell capacity t n values s).
Proof.
  intros Hpc Hlt Hinv [Hk Hr]. unfold read_cell.
  destruct (r_data s !! _) as [d0|] eqn:Hd0; [|done]. split; [done|]. simpl. intros k Hk'.
  pose proof (written_bound _ _ s Hinv) as Hb. pose proof (pushed_le_written s) as Hpw.
  destruct Hinv as [_ [Hcl Hc Hs _ Hcr _] _ _]. unfold popping, was_read in *.
  rewrite Hpc in Hc, Hcr, Hcl. rewrite length_app in Hcl. destruct Hc as [-> Hle].
  rewrite pop_position_mod in * by lia.
  destruct (decide ((length (r_popped s) + length values) `mod` capacity = k `mod` capacity)) as [<-|].
  - rewrite lookup_insert_eq. eexists. split; [done|]. simpl. lia.
  - rewrite lookup_insert_ne by done. apply Hr.
    destruct (decide (k = c_clock (r_consumer s))) as [->|]; [congruence|lia].
Qed.

Lemma unordered_step s s' :
  step s s' → ring_inv code_orders capacity s → unordered s → unordered s'.
Proof.
  intros [a Hstep] Hinv Hu. pose proof Hu as [Hk Hr].
  destruct a; simpl in Hstep; unfold producer_step, consumer_step in Hstep;
    repeat case_match; simplify_eq; try done.
  - by apply unordered_write.
  - apply unordered_read; [done|by apply Nat.ltb_lt|done..].
Qed.

Lemma reachable_unordered s : rtc step new_ring s → ring_inv code_orders capacity s ∧ unordered s.
Proof.
  assert (∀ s1, rtc step s1 s → ring_inv code_orders capacity s1 ∧ unordered s1 →
    ring_inv code_orders capacity s ∧ unordered s) as Hgen.
  { induction 1 as [|s1 s2 s3 Hs _ IH]; [done|]. intros [Hi Hu]. apply IH.
    split; [|by eapply unordered_step]. destruct Hs as [a Ha].
    eapply (ring_step_inv code_orders capacity); [lia|done..]. }
  intros Hr. apply (Hgen _ Hr). split; [apply new_ring_inv; lia|].
  split; [done|]. simpl. lia.
Qed.

(** Both threads are between operations and the ring is empty after [k]
    elements. *)
Record quiet (k : nat) s : Prop := {
  qu_reach : rtc step new_ring s;
  qu_producer : p_pc (r_producer s) = PIdle;
  qu_consumer : c_pc (r_consumer s) = CIdle;
  qu_pushed : length (r_pushed s) = k;
  qu_popped : length (r_popped s) = k;
}.

(** From an empty ring the producer gets to its write. *)
Lemma reach_write k s :
  quiet k s → ∃ s', rtc step s s' ∧ p_pc (r_producer s') = PWrite x (k `mod` capacity) ∧
    r_consumer s' = r_consumer s ∧ r_pushed s' = r_pushed s ∧ r_popped s' = r_popped s.
Proof.
  intros [Hr Hp Hc Hpu Hpo]. destruct (reachable_unordered s Hr) as [[[_ _ (m & Hm & _)] _ Hst _] _].
  pose proof (newest_head capacity s Hst) as Hnh. rewrite Hpu in Hnh.
  destruct (decide (p_available (r_producer s) = 0)) as [H0|H0].
  - pose proof (so_tail_last capacity s Hst) as Hlast. rewrite last_lookup, Hpo in Hlast.
    pose proof (lookup_lt_Some _ _ _ Hm) as Hlt.
    eexists. split.
    + apply (ring_run_rtc _ _ [Push x; Producer; ProducerLoad (pred (length (r_tail s))); Producer]).
      simpl. rewrite Hp. simpl. unfold push_start. rewrite H0. simpl. rewrite Hlast.
      rewrite (proj2 (Nat.leb_le _ _)) by lia. simpl. unfold avail_tail. simpl. rewrite Hnh.
      rewrite ring_distance_mod by (done || lia). rewrite Nat.sub_diag.
      rewrite (proj2 (Nat.eqb_neq _ _)) by lia. unfold producer_step. simpl. reflexivity.
    + simpl. by rewrite Hnh.
  - eexists. split.
    + apply (ring_run_rtc _ _ [Push x; Producer]). simpl. rewrite Hp. simpl. unfold push_start.
      rewrite (proj2 (Nat.eqb_neq _ _)) by lia. unfold producer_step. simpl. reflexivity.
    + simpl. by rewrite Hnh.
Qed.

(** Then it writes and stores the head. *)
Lemma reach_pushed k s :
  quiet k s → ∃ s', rtc step s s' ∧ p_pc (r_producer s') = PIdle ∧
    r_consumer s' = r_consumer s ∧ length (r_pushed s') = S k ∧ r_popped s' = r_popped s.
Proof.
  intros Hq. destruct (reach_write k s Hq) as (s1 & Hr & Hpc & Hc & Hpu & Hpo).
  eexists. split.
  - etrans; [exact Hr|]. apply (ring_run_rtc _ _ [Producer; Producer]). simpl.
    unfold producer_step. rewrite Hpc. simpl. reflexivity.
  - simpl. rewrite length_app, Hpu, (qu_pushed k s Hq). simpl. split_and!; [done..|lia|done].
Qed.

(** The consumer takes the element. *)
Lemma reach_popped k s :
  rtc step new_ring s → p_pc (r_producer s) = PIdle → c_pc (r_consumer s) = CIdle →
  length (r_pushed s) = S k → length (r_popped s) = k → ∃ s', quiet (S k) s'.
Proof.
  intros Hr Hp Hc Hpu Hpo. pose proof (reachable_unordered s Hr) as [Hinv _].
  pose proof Hinv as [_ [_ _ Hs _ _ Hff] Hst [Hw _ _ _ _]].
  pose proof (newest_tail capacity s Hst) as Hnt. rewrite Hpo in Hnt.
  assert (r_head s !! S k = Some (mkMsg (S k `mod` capacity) (S k))) as Hh.
  { rewrite (so_head capacity s Hst), list_lookup_fmap, Hpu, lookup_seq_lt by lia. done. }
  destruct (lookup_lt_is_Some_2 (r_pushed s) k) as [y Hy]; [lia|].
  assert (written s = r_pushed s) as Hws by (unfold written; by rewrite Hp, app_nil_r).
  destruct (Hw k y) as (d & Hd & _); rewrite ?Hws; [done|lia|].
  eexists. split.
  - etrans; [exact Hr|].
    apply (ring_run_rtc _ _ [Refresh; ConsumerLoad (S k); Consumer; Pop 1; Consumer; Consumer; Consumer]).
    simpl. rewrite Hc. simpl. rewrite Hh, (proj2 (Nat.leb_le _ _)) by lia. simpl.
    unfold consumer_step. simpl. rewrite Hnt, ring_distance_mod by (done || lia).
    replace (S k - k) with 1 by lia. simpl. rewrite Hnt. unfold read_cell. simpl. rewrite pop_position_mod, Nat.add_0_r, Hd by lia. simpl. reflexivity.
  - done.
  - done.
  - done.
  - simpl. rewrite length_app. simpl. lia.
Qed.

(** The ring can be emptied any number of times. *)
Lemma reach_quiet k : ∃ s, quiet k s.
Proof.
  induction k as [|k [s Hq]]; [by exists new_ring|].
  destruct (reach_pushed k s Hq) as (s1 & Hr & Hp & Hc & Hpu & Hpo).
  apply (reach_popped k s1); [|done| |done|by rewrite Hpo; apply Hq].
  - etrans; [apply Hq|done].
  - rewrite Hc. apply Hq.
Qed.
End race.

(** ** Properties *)

(** C12: in every run up to the first data race, with the memory orders of the
    code, however the tasks of a CPU and the polling task interleave and however
    old the counters they load are, the ring buffer of the CPU is a bounded
    first-in first-out queue: what was pushed is what was popped followed by
    what is in the ring, every store to a counter is a step of the queue, and
    the next step is no racing read and no read of a cell never written.  After
    a race, which is undefined in C++, anything may follow.  If [_tail] was
    loaded with acquire order, the other three orders being those of the code,
    no run would have a race, and all of them would be runs of such a queue. *)
Theorem ring_refines_fifo {A} (capacity : nat) (s : ring A) :
  0 < capacity → (Z.of_nat capacity < u64_modulus)%Z →
  (rtc (ring_behaves code_orders capacity) new_ring s → raced s = false →
   is_fifo capacity s ∧
   ∀ s', ring_trans code_orders capacity s s' → r_read_race s' = false ∧ r_undefined s' = false) ∧
  (rtc (ring_behaves acquire_tail capacity) new_ring s → raced s = false ∧ is_fifo capacity s).
Proof.
  intros Hpos Hw. split.
  - intros Hr Hn. apply ring_behaves_run in Hr; [|done].
    assert (ring_inv code_orders capacity s) as Hinv by by apply ring_run_inv.
    split; [by apply (ring_inv_fifo code_orders)|]. intros s' [a Ha].
    assert (ring_inv code_orders capacity s') as [_ _ _ [_ _ ? ? _]]; [|done].
    by apply (ring_step_inv code_orders capacity Hpos Hw eq_refl eq_refl eq_refl a s).
  - intros Hr. assert (rtc (ring_trans acquire_tail capacity) new_ring s ∧ ring_inv acquire_tail capacity s) as [Hr' Hinv].
    { apply (race_free_run acquire_tail); [done..|apply new_ring_inv; lia|done]. }
    split; [by apply (inv_not_raced acquire_tail capacity)|by apply (ring_inv_fifo acquire_tail)].
Qed.

(** Two pushes on a ring of four; the consumer then sees the first only. *)
Definition stale_run : list (ring_action nat) :=
  [Push 7; Producer; ProducerLoad 0; Producer; Producer; Producer;
   Push 8; Producer; Producer; Producer;
   Refresh; ConsumerLoad 1; Consumer; Pop 1; Consumer; Consumer; Consumer].

Definition stale_ring : ring nat := default new_ring (ring_run code_orders 4 stale_run new_ring).

Lemma ring_refines_fifo_witness :
  r_popped stale_ring = [7] ∧ ring_contents stale_ring = [8] ∧ is_fifo 4 stale_ring.
Proof.
  split; [reflexivity|]. split; [reflexivity|].
  destruct (ring_refines_fifo 4 stale_ring) as [Hf _]; [lia|by vm_compute|].
  apply Hf; [|reflexivity]. apply (quiet_run_behaves _ _ stale_run). by vm_compute.
Defined.

(** C39: with the relaxed load of [_tail] that the code has, a ring of every
    capacity (of at least two) has a run in which the producer writes a cell
    that the consumer has read without the read being ordered before the
    write: a data race in the sense of the C++ standard. *)
Theorem ring_relaxed_tail_races {A} (capacity : nat) (x : A) :
  2 ≤ capacity → (Z.of_nat capacity < u64_modulus)%Z →
  ∃ s : ring A, rtc (ring_trans code_orders capacity) new_ring s ∧ r_write_race s = true.
Proof.
  intros Htwo Hw. destruct (reach_quiet capacity x Htwo Hw capacity) as [s Hq].
  destruct (reach_write capacity x Htwo Hw capacity s Hq) as (s1 & Hr & Hpc & Hc & _ & Hpo).
  assert (rtc (ring_trans code_orders capacity) new_ring s1) as Hr1 by (etrans; [apply Hq|done]).
  destruct (reachable_unordered capacity Htwo Hw s1 Hr1) as [[_ [Hcl _ _ _ _ _] _ _] [Hk Hread]].
  exists (write_cell capacity x (capacity `mod` capacity) s1). split.
  - eapply rtc_r; [done|]. exists Producer. simpl. unfold producer_step. by rewrite Hpc.
  - destruct (Hread 0) as (d & Hd & Hpos).
    { rewrite Hcl. unfold was_read. rewrite Hpo, length_app, (qu_popped _ _ _ Hq). lia. }
    rewrite Nat.Div0.mod_0_l in Hd. simpl. rewrite Nat.Div0.mod_same, Hd, Hk. simpl.
    apply orb_true_iff. right. by apply Nat.ltb_lt.
Qed.

Lemma ring_relaxed_tail_races_witness :
  ∃ s : ring nat, rtc (ring_trans code_orders 32768) new_ring s ∧ r_write_race s = true.
Proof. apply (ring_relaxed_tail_races 32768 7); [by apply Nat.leb_le; vm_compute|by vm_compute]. Defined.
