(* ===== verification/Allocator.v ===== *)
(** * Object allocation

    The fixed-size stack ([src/src/common/util/FixedSizeStack.hpp]) and the
    object allocator of operations ([src/src/common/Allocator.hpp]).  A [T *]
    handed out by an allocator is the index of its object in the allocator's
    array [_data], a [nat]. *)

From S2P Require Import Prelude Queues.

Notation ptr := nat (only parsing).

(** ** FixedSizeStack *)

Module Stack.
Section stack.
Context {A : Type} (Capacity : nat).

Record FixedSizeStack := mkStack { _array : gmap nat A; _size : nat }.
Implicit Types s : FixedSizeStack.

Definition new : FixedSizeStack := mkStack ∅ 0.
Definition empty s : bool := _size s =? 0.
Definition size s : nat := _size s.
Definition capacity : nat := Capacity.

Definition push (element : A) s : outcome FixedSizeStack :=
  _ ← assert (_size s <? Capacity) "_size < Capacity";
  Ok (mkStack (<[_size s := element]> (_array s)) (S (_size s))).

Definition push_many (elements : list A) s : outcome FixedSizeStack :=
  _ ← assert (_size s + length elements <=? Capacity) "_size + n <= Capacity";
  Ok (mkStack (store (_size s) elements (_array s)) (_size s + length elements)).

(** [false] leaves the out parameter untouched, hence the option. *)
Definition pop s : outcome (option A * FixedSizeStack) :=
  if _size s =? 0 then Ok (None, s)
  else
    element ← read (_array s !! (_size s - 1)) "_array[_size]";
    Ok (Some element, mkStack (_array s) (_size s - 1)).

(** The elements, bottom first. *)
Definition to_list s : list A := default [] (slice (_array s) 0 (_size s)).

Definition wf s : Prop :=
  _size s ≤ Capacity ∧ ∀ i, i < _size s → is_Some (_array s !! i).

Lemma to_list_slice s : wf s → slice (_array s) 0 (_size s) = Some (to_list s).
Proof.
  intros [_ H]. unfold to_list.
  destruct (slice_is_Some (_array s) 0 (_size s)) as [l ->]; [|done].
  intros i Hi. apply H. lia.
Qed.

Lemma to_list_length s : wf s → length (to_list s) = _size s.
Proof. intros H%to_list_slice. by eapply slice_length. Qed.

Lemma to_list_eq s l :
  length l = _size s → (∀ i, i < _size s → _array s !! i = l !! i) → to_list s = l.
Proof.
  intros Hl H. unfold to_list.
  assert (slice (_array s) 0 (_size s) = Some l) as ->; [|done].
  by apply slice_Some.
Qed.

Lemma new_wf : wf new.
Proof. split; simpl; lia. Qed.

(** Pushing several elements stacks them in order. *)
Lemma push_many_spec s l :
  wf s → _size s + length l ≤ Capacity →
  ∃ s', push_many l s = Ok s' ∧ wf s' ∧ to_list s' = to_list s ++ l.
Proof.
  intros Hwf Hle. pose proof (to_list_slice s Hwf) as [Hl Hs]%slice_Some.
  unfold push_many. rewrite (proj2 (Nat.leb_le _ _)) by done. simpl.
  eexists; split; [done|].
  assert (∀ i, i < _size s + length l →
    store (_size s) l (_array s) !! i = (to_list s ++ l) !! i) as Hlk.
  { intros i Hi. rewrite lookup_store. case_decide.
    - rewrite lookup_app_r by lia. f_equal. lia.
    - rewrite lookup_app_l by lia. by rewrite <-Hs by lia. }
  split.
  - split; simpl; [done|]. intros i Hi. rewrite Hlk by done.
    apply lookup_lt_is_Some. rewrite length_app. lia.
  - apply to_list_eq; simpl; [rewrite length_app; lia|done].
Qed.

Lemma push_spec s x :
  wf s → _size s < Capacity →
  ∃ s', push x s = Ok s' ∧ wf s' ∧ to_list s' = to_list s ++ [x].
Proof.
  intros Hwf Hlt. destruct (push_many_spec s [x] Hwf) as (s' & Heq & Hs'); [simpl; lia|].
  exists s'. split; [|done]. unfold push_many, push in *. simpl in Heq.
  rewrite (proj2 (Nat.ltb_lt _ _)) by done.
  rewrite (proj2 (Nat.leb_le _ _)) in Heq by lia. simpl in *. injection Heq as <-.
  do 2 f_equal; [|lia]. apply map_eq. intros i. rewrite lookup_store, lookup_insert. simpl.
  repeat case_decide; subst; try lia; [|done]. by rewrite Nat.sub_diag.
Qed.

(** Popping returns the most recently pushed element. *)
Lemma pop_spec s :
  wf s →
  (to_list s = [] ∧ pop s = Ok (None, s)) ∨
  ∃ x s', pop s = Ok (Some x, s') ∧ wf s' ∧ to_list s = to_list s' ++ [x].
Proof.
  intros Hwf. pose proof (to_list_slice s Hwf) as [Hl Hs]%slice_Some.
  destruct Hwf as [Hle Hsome]. unfold pop. destruct (Nat.eqb_spec (_size s) 0) as [H0|H0].
  { left. split; [|done]. apply nil_length_inv. lia. }
  right. destruct (Hsome (_size s - 1)) as [x Hx]; [lia|]. rewrite Hx. simpl.
  eexists _, _. split; [done|].
  assert (wf (mkStack (_array s) (_size s - 1))) as Hwf'.
  { split; simpl; [lia|]. intros i Hi. apply Hsome. lia. }
  split; [done|]. pose proof (to_list_slice _ Hwf') as [Hl' Hs']%slice_Some. simpl in *.
  apply list_eq. intros i. destruct (decide (i < _size s)).
  - rewrite <-Hs by lia. destruct (decide (i = _size s - 1)) as [->|].
    + rewrite lookup_app_r, Hl', Nat.sub_diag by lia. done.
    + rewrite lookup_app_l, <-Hs' by lia. done.
  - rewrite !lookup_ge_None_2; [done|..]; rewrite ?length_app; simpl; lia.
Qed.
End stack.
Arguments FixedSizeStack : clear implicits.
Arguments new {_}.
End Stack.

(** ** ObjAllocator *)

Module Obj.
Import Stack (FixedSizeStack).
Section obj.
Context `{SpscLib}.

Definition MaxCaches {B : Build} : nat := MaxSystemCPUs.
Definition BatchSize : nat := 64.

Record ObjAllocator := mkObj {
  _capacity : nat;
  _ncaches : nat;
  _caches : list (FixedSizeStack ptr);
  _central : spsc ptr;
}.
Implicit Types st : ObjAllocator.

Definition set_caches (l : list (FixedSizeStack ptr)) st : ObjAllocator :=
  mkObj (_capacity st) (_ncaches st) l (_central st).
Definition set_central (q : spsc ptr) st : ObjAllocator :=
  mkObj (_capacity st) (_ncaches st) (_caches st) q.

(** [ObjAllocator(capacity)]; [ncpus] is [TaskingModel::getNumLogicalCPUs()].
    The loop pushes every object of [_data] into the central queue. *)
Definition new {B : Build} (capacity ncpus : nat) : outcome ObjAllocator :=
  _ ← fail_if (MaxCaches <? ncpus) "Maximum number of queues exceeded";
  Ok (mkObj capacity ncpus (replicate MaxCaches Stack.new)
        (foldl (λ q o, (spsc_push [o] q).2) (spsc_new capacity) (seq 0 capacity))).

(** [alloc] on logical CPU [cache]; constructing the object is the caller's. *)
Definition alloc (cache : nat) st : outcome (ptr * ObjAllocator) :=
  _ ← assert (cache <? _ncaches st) "cache < _ncaches";
  stack ← read (_caches st !! cache) "_caches[cache]";
  '(object, stack) ← Stack.pop stack;
  match object with
  | Some object => Ok (object, set_caches (<[cache := stack]> (_caches st)) st)
  | None =>
      let '(objects, central) := spsc_pop BatchSize (_central st) in
      let st := set_central central st in
      match objects with
      | [] => Fail "Unavailable allocator objects"
      | object :: rest =>
          if decide (rest = []) then Ok (object, st)
          else
            stack ← Stack.push_many BatchSize rest stack;
            Ok (object, set_caches (<[cache := stack]> (_caches st)) st)
      end
  end.

Definition free (objects : list ptr) st : outcome ObjAllocator :=
  let '(pushed, central) := spsc_push objects (_central st) in
  _ ← assert (pushed =? length objects) "pushed == n";
  Ok (set_central central st).

Definition localFree (cache : nat) (objects : list ptr) st : outcome ObjAllocator :=
  _ ← assert (cache <? _ncaches st) "cache < _ncaches";
  stack ← read (_caches st !! cache) "_caches[cache]";
  stack ← Stack.push_many BatchSize objects stack;
  Ok (set_caches (<[cache := stack]> (_caches st)) st).

(** The objects nobody holds: in the central queue or in some cache. *)
Definition available st : list ptr :=
  spsc_contents (_central st) ++ mjoin (Stack.to_list <$> _caches st).

(** [live] are the objects in use: together with the available ones they
    are exactly the objects of the allocator, each once. *)
Record inv (live : list ptr) st : Prop := {
  inv_objects : available st ++ live ≡ₚ seq 0 (_capacity st);
  inv_caches : Forall (λ s, Stack.wf BatchSize s ∧ Stack._size s < BatchSize) (_caches st);
  inv_ncaches : _ncaches st ≤ length (_caches st);
  inv_unused k : _ncaches st ≤ k → ∀ s, _caches st !! k = Some s → Stack.to_list s = [];
  inv_central : spsc_capacity (_central st) = _capacity st;
}.
End obj.

Section obj_proofs.
Context `{SpscLib, !SpscLaws}.
Implicit Types st : ObjAllocator.

Lemma inv_length live st :
  inv live st → length (available st) + length live = _capacity st.
Proof.
  intros Hi. rewrite <-length_app, (inv_objects _ _ Hi). by rewrite length_seq.
Qed.

Lemma inv_fresh live st p : inv live st → p ∈ available st → p ∉ live.
Proof.
  intros Hi Hp Hl. assert (NoDup (available st ++ live)) as Hnd.
  { rewrite (inv_objects _ _ Hi). apply NoDup_seq. }
  apply NoDup_app in Hnd as (_ & Hnd & _). by apply (Hnd p).
Qed.

Lemma fill_central capacity n :
  n ≤ capacity →
  let q := foldl (λ q o, (spsc_push [o] q).2) (spsc_new capacity) (seq 0 n) in
  spsc_contents q = seq 0 n ∧ spsc_capacity q = capacity.
Proof.
  induction n as [|n IH]; intros Hn.
  { simpl. pose proof (spsc_new_spec (A:=nat) capacity). done. }
  cbv zeta. rewrite seq_S, foldl_app. simpl.
  destruct (IH ltac:(lia)) as [Hc Hcap]. simpl in Hc, Hcap.
  set (q := foldl _ _ _) in *.
  pose proof (spsc_push_spec [n] q) as (_ & Hc' & Hcap').
  rewrite Hcap, Hc, length_seq in Hc'. rewrite Hc', Hcap', Hcap.
  by rewrite take_ge by (cbn [length]; lia).
Qed.

Lemma new_spec {B : Build} capacity ncpus :
  ncpus ≤ MaxCaches →
  ∃ st, new capacity ncpus = Ok st ∧ inv [] st ∧ _capacity st = capacity ∧ _ncaches st = ncpus.
Proof.
  intros Hn. unfold new. rewrite (proj2 (Nat.ltb_ge _ _)) by done.
  cbn [fail_if mbind outcome_bind]. eexists; split; [done|].
  pose proof (fill_central capacity capacity ltac:(lia)) as [Hc Hcap]; simpl in Hc, Hcap.
  split; [|done]. constructor; cbn [_central _caches _capacity _ncaches].
  - unfold available. cbn [_central _caches]. rewrite Hc, app_nil_r.
    assert (∀ n, mjoin (Stack.to_list <$> replicate n (Stack.new (A:=ptr))) = []) as ->.
    { induction n; [done|]. by csimpl. }
    by rewrite app_nil_r.
  - apply Forall_replicate. split; [apply Stack.new_wf|simpl; unfold BatchSize; lia].
  - by rewrite length_replicate.
  - intros k _ s [-> _]%lookup_replicate. done.
  - done.
Qed.

(** Replacing a cache by one that holds [l'] instead of what it held. *)
Lemma available_set_cache st k s s' extra :
  _caches st !! k = Some s → Stack.to_list s ≡ₚ extra ++ Stack.to_list s' →
  available st ≡ₚ extra ++ available (set_caches (<[k := s']> (_caches st)) st).
Proof.
  intros Hk Hs. unfold available; cbn [_central _caches set_caches].
  destruct (mjoin_fmap_split Stack.to_list (_caches st) k s Hk) as (rest & -> & ->).
  rewrite Hs. solve_Permutation.
Qed.

Lemma inv_set_cache live live' st k s s' :
  inv live st → _caches st !! k = Some s → k < _ncaches st →
  Stack.wf BatchSize s' → Stack._size s' < BatchSize →
  available (set_caches (<[k := s']> (_caches st)) st) ++ live' ≡ₚ available st ++ live →
  inv live' (set_caches (<[k := s']> (_caches st)) st).
Proof.
  intros [H1 H2 H3 H4 H5] Hk Hlt Hwf Hsz Hp. constructor; simpl.
  - by rewrite Hp.
  - by apply Forall_insert.
  - by rewrite length_insert.
  - intros j Hj s0. rewrite list_lookup_insert_ne by lia. by apply H4.
  - done.
Qed.

Lemma alloc_spec live st cache :
  inv live st → cache < _ncaches st →
  (∃ p st', alloc cache st = Ok (p, st') ∧ p ∈ available st ∧ inv (p :: live) st' ∧
     _capacity st' = _capacity st ∧ _ncaches st' = _ncaches st) ∨
  (alloc cache st = Fail "Unavailable allocator objects" ∧ spsc_contents (_central st) = [] ∧
   ∃ s, _caches st !! cache = Some s ∧ Stack.to_list s = []).
Proof.
  intros Hi Hlt. pose proof (inv_ncaches _ _ Hi) as Hnc.
  destruct (lookup_lt_is_Some_2 (_caches st) cache) as [s Hs]; [lia|].
  pose proof (Forall_lookup_1 _ _ _ _ (inv_caches _ _ Hi) Hs) as [Hwf Hsz].
  unfold alloc. rewrite (proj2 (Nat.ltb_lt _ _)) by done. rewrite Hs. simpl.
  destruct (Stack.pop_spec BatchSize s Hwf) as [[Hempty ->]|(x & s' & -> & Hwf' & Hl)]; simpl.
  2:{ left. pose proof (available_set_cache st cache s s' [x] Hs) as Hav.
      rewrite Hl in Hav. specialize (Hav ltac:(solve_Permutation)).
      eexists _, _. split; [done|]. split; [rewrite Hav; set_solver|]. split; [|done].
      eapply inv_set_cache; try done.
      - pose proof (Stack.to_list_length _ _ Hwf). pose proof (Stack.to_list_length _ _ Hwf').
        rewrite Hl, length_app in *. simpl in *. lia.
      - rewrite Hav. solve_Permutation. }
  pose proof (spsc_pop_spec BatchSize (_central st)) as (Hp & Hc & Hcap).
  destruct (spsc_pop BatchSize (_central st)) as [objects central]; cbn [fst snd] in *.
  destruct objects as [|p rest].
  { right. split_and!; [done| |by exists s].
    destruct (spsc_contents (_central st)); [done|]. by inversion Hp. }
  left. set (st1 := set_central central st).
  assert (available st ≡ₚ p :: rest ++ available st1) as Hav.
  { unfold available; cbn [_central _caches st1 set_central].
    rewrite Hc, <-(take_drop BatchSize (spsc_contents (_central st))) at 1.
    rewrite <-Hp. simpl. by rewrite <-!app_assoc. }
  assert (length rest < BatchSize) as Hrest.
  { assert (length (p :: rest) ≤ BatchSize) by (rewrite Hp, length_take; lia). simpl in *. lia. }
  assert (inv (p :: rest ++ live) st1) as Hi1.
  { destruct Hi as [H1 H2 H3 H4 H5]. constructor; try done; [|simpl; by rewrite Hcap].
    etransitivity; [|exact H1]. rewrite Hav. solve_Permutation. }
  assert (p ∈ available st) by (rewrite Hav; set_solver).
  case_decide as Hnil.
  { subst rest. eexists _, _. by split_and!. }
  destruct (Stack.push_many_spec BatchSize s rest Hwf) as (s' & -> & Hwf' & Hl').
  { rewrite <-(Stack.to_list_length _ _ Hwf), Hempty. simpl. lia. }
  eexists _, _. split; [done|]. split; [done|]. split; [|done].
  apply (inv_set_cache (p :: rest ++ live) _ st1 cache s s'); try done.
  - rewrite <-(Stack.to_list_length _ _ Hwf'), Hl', Hempty. simpl. lia.
  - pose proof (available_set_cache (set_caches (<[cache := s']> (_caches st1)) st1)
      cache s' s rest) as Hav'. cbn [_caches set_caches] in Hav'.
    rewrite list_insert_insert_eq, (list_insert_id _ _ s) in Hav' by done.
    rewrite Hav'; [|by apply list_lookup_insert_eq; simpl; lia|].
    + destruct st1. simpl. solve_Permutation.
    + rewrite Hl', Hempty. by rewrite app_nil_r.
Qed.

Lemma free_spec live st objects rest :
  inv live st → live ≡ₚ objects ++ rest →
  ∃ st', free objects st = Ok st' ∧ inv rest st' ∧
    _capacity st' = _capacity st ∧ _ncaches st' = _ncaches st.
Proof.
  intros Hi Hl. pose proof (inv_length _ _ Hi) as Hlen.
  rewrite Hl, length_app in Hlen. unfold available in Hlen. rewrite length_app in Hlen.
  pose proof (spsc_push_spec objects (_central st)) as (Hp & Hc & Hcap).
  rewrite (inv_central _ _ Hi), Nat.min_l in Hp, Hc by lia. rewrite take_ge in Hc by lia.
  unfold free. destruct (spsc_push objects (_central st)) as [pushed central]; cbn [fst snd] in *.
  rewrite Hp, Nat.eqb_refl. simpl. eexists; split; [done|]. split; [|done].
  destruct Hi as [H1 H2 H3 H4 H5]. constructor; try done; [|simpl; by rewrite Hcap].
  cbn [_capacity set_central]. rewrite <-H1, Hl. unfold available. cbn [_central _caches set_central].
  rewrite Hc. solve_Permutation.
Qed.

(** When [alloc] gives up, objects may still sit in the caches of other CPUs,
    but not many: fewer than a batch per CPU. *)
Lemma alloc_failure_bound live st cache s :
  inv live st → cache < _ncaches st →
  spsc_contents (_central st) = [] → _caches st !! cache = Some s → Stack.to_list s = [] →
  _capacity st ≤ length live + (_ncaches st - 1) * (BatchSize - 1).
Proof.
  intros Hi Hlt Hc Hs Hempty. rewrite <-(inv_length _ _ Hi). unfold available.
  rewrite Hc, length_app, length_mjoin_fmap. cbn [length].
  pose proof (inv_ncaches _ _ Hi) as Hnc.
  rewrite <-(take_drop (_ncaches st) (_caches st)), sum_list_with_app.
  assert (sum_list_with (λ x, length (Stack.to_list x)) (drop (_ncaches st) (_caches st)) = 0) as ->.
  { assert (Forall (λ x, length (Stack.to_list x) ≤ 0) (drop (_ncaches st) (_caches st))) as HF.
    { apply Forall_lookup. intros i x. rewrite lookup_drop. intros Hx.
      by rewrite (inv_unused _ _ Hi (_ncaches st + i) ltac:(lia) x Hx). }
    apply sum_list_with_bound in HF. lia. }
  assert (sum_list_with (λ x, length (Stack.to_list x)) (take (_ncaches st) (_caches st)) ≤
    (length (take (_ncaches st) (_caches st)) - 1) * (BatchSize - 1)) as Hb.
  { apply (sum_list_with_bound_hole _ _ _ cache s); [|by rewrite lookup_take_lt|by rewrite Hempty].
    apply Forall_take. eapply Forall_impl; [apply (inv_caches _ _ Hi)|].
    intros x [Hwf Hx]. rewrite (Stack.to_list_length _ _ Hwf). lia. }
  rewrite length_take_le in Hb by done. lia.
Qed.
End obj_proofs.

(** ** Properties *)

(** C23: with [live] the objects in use, an allocation on a valid CPU returns an
    object of the allocator that nobody else holds and keeps the allocator
    consistent; or it stops the process with its message, and then at least all
    objects but a batch less one for each of the other CPUs are in use. *)
Theorem alloc_fresh_or_exhausted `{SpscLib, !SpscLaws} (live : list ptr) (st : ObjAllocator)
    (cache : nat) :
  inv live st → cache < _ncaches st →
  (∃ p st', alloc cache st = Ok (p, st') ∧ p ∉ live ∧ p < _capacity st ∧ inv (p :: live) st') ∨
  (alloc cache st = Fail "Unavailable allocator objects" ∧
   _capacity st ≤ length live + (_ncaches st - 1) * (BatchSize - 1)).
Proof.
  intros Hi Hlt. destruct (alloc_spec live st cache Hi Hlt) as
    [(p & st' & Heq & Hp & Hi' & _)|(Heq & Hc & s & Hs & Hempty)].
  - left. exists p, st'. split_and!; [done|by eapply inv_fresh| |done].
    assert (p ∈ available st ++ live) as Hin by set_solver.
    rewrite (inv_objects _ _ Hi), elem_of_seq in Hin. lia.
  - right. split; [done|]. by eapply alloc_failure_bound.
Qed.

(** Freeing objects that are in use always succeeds (the central queue has
    room for them, so the assertion of the code holds) and makes exactly those
    objects available again. *)
Theorem free_returns_objects `{SpscLib, !SpscLaws} (live objects rest : list ptr)
    (st : ObjAllocator) :
  inv live st → live ≡ₚ objects ++ rest →
  ∃ st', free objects st = Ok st' ∧ inv rest st' ∧ available st' ≡ₚ objects ++ available st.
Proof.
  intros Hi Hl. destruct (free_spec live st objects rest Hi Hl) as (st' & Heq & Hi' & Hcap & _).
  exists st'. split_and!; [done..|]. apply (Permutation_app_inv_r rest).
  rewrite (inv_objects _ _ Hi'), Hcap, <-(inv_objects _ _ Hi), Hl. solve_Permutation.
Qed.

Section witnesses.
Import ListSpsc.
#[local] Existing Instance default_build.

Lemma alloc_fresh_or_exhausted_witness :
  ∃ st, new 3 2 = Ok st ∧ ∃ p st', alloc 1 st = Ok (p, st') ∧ p ∉ [] ∧ p < _capacity st ∧
    inv [p] st'.
Proof.
  destruct (new_spec 3 2 ltac:(by apply Nat.leb_le)) as (st & Heq & Hi & Hcap & Hn).
  exists st. split; [exact Heq|].
  destruct (alloc_fresh_or_exhausted [] st 1 Hi ltac:(rewrite Hn; lia)) as [Hok|[Hfail _]].
  - exact Hok.
  - exfalso. vm_compute in Heq. injection Heq as <-. by vm_compute in Hfail.
Defined.

Lemma free_returns_objects_witness :
  ∃ st st' st'', new 3 2 = Ok st ∧ alloc 1 st = Ok (0, st') ∧ free [0] st' = Ok st'' ∧
    inv [] st''.
Proof.
  destruct (new_spec 3 2 ltac:(by apply Nat.leb_le)) as (st & Heq & Hi & Hcap & Hn).
  destruct (alloc_spec [] st 1 Hi ltac:(rewrite Hn; lia)) as
    [(p & st' & Ha & _ & Hi' & _)|[Hfail _]];
    [|exfalso; vm_compute in Heq; injection Heq as <-; by vm_compute in Hfail].
  assert (p = 0) as ->.
  { vm_compute in Heq. injection Heq as <-. vm_compute in Ha. by injection Ha as <- _. }
  destruct (free_returns_objects [0] [0] [] st' Hi' ltac:(done)) as (st'' & Hf & Hi'' & _).
  exists st, st', st''. by split_and!.
Defined.
End witnesses.
End Obj.
