(* ===== verification/SpinLock.v ===== *)
(** * The ticket array spinlock

    [SpinLock] ([src/src/common/util/SpinLock.hpp]), which serialises the
    producers of [BoostLockFreeQueue] and the threads that allocate and return
    objects.  Threads run its operations instruction by instruction, in any
    interleaving of a sequentially consistent memory ([LockMemory.v] has the
    memory orders of the code); the counters have 64 bits. *)

From S2P Require Import Prelude.
From stdpp Require Import list_numbers.

(** ** The lock *)

Section lock.
(** [Size], the maximum number of CPUs of the system. *)
Context (Size : nat).

Record SpinLock := mkLock {
  _buffer : list Z;
  _head : Z;
  _next : Z;
}.
Implicit Types l : SpinLock.

Definition new_lock : SpinLock := mkLock (replicate Size 0%Z) 0 0.

Definition slot (head : Z) : nat := Z.to_nat (head `mod` Z.of_nat Size).

(** [_head.fetch_add(1)] *)
Definition take_ticket l : Z * SpinLock :=
  (_head l, mkLock (_buffer l) (u64 (_head l + 1)) (_next l)).

(** [_buffer[head % Size].load() == head] *)
Definition granted l (head : Z) : bool := bool_decide (_buffer l !! slot head = Some head).

(** The exchange of [try_lock], if it succeeds. *)
Definition exchange l (head : Z) : option SpinLock :=
  if decide (_head l = head) then Some (mkLock (_buffer l) (u64 (head + 1)) (_next l)) else None.

(** The two halves of [unlock]: [++_next] and the store. *)
Definition advance l : SpinLock := mkLock (_buffer l) (_head l) (u64 (_next l + 1)).
Definition publish l : SpinLock :=
  mkLock (<[slot (_next l) := _next l]> (_buffer l)) (_head l) (_next l).

(** ** Threads *)

(** Where a thread is: outside, in the loop of [lock] with its ticket, in
    [try_lock] after its first load and after its second, in the critical
    section, or in [unlock] after the increment.  In the last two the ticket
    is a ghost. *)
Inductive phase :=
| Outside
| Spinning (head : Z)
| Loaded (head : Z)
| Checked (head : Z)
| Critical (head : Z)
| Releasing (head : Z).

Definition ticket (p : phase) : option Z :=
  match p with Spinning h | Critical h | Releasing h => Some h | _ => None end.
Definition holds (p : phase) : bool :=
  match p with Critical _ | Releasing _ => true | _ => false end.

(** What one thread can do next. *)
Inductive thread_step : SpinLock → phase → SpinLock → phase → Prop :=
| lock_take l : thread_step l Outside (take_ticket l).2 (Spinning (take_ticket l).1)
| lock_wait l h : granted l h = false → thread_step l (Spinning h) l (Spinning h)
| lock_enter l h : granted l h = true → thread_step l (Spinning h) l (Critical h)
| try_load l : thread_step l Outside l (Loaded (_head l))
| try_busy l h : granted l h = false → thread_step l (Loaded h) l Outside
| try_check l h : granted l h = true → thread_step l (Loaded h) l (Checked h)
| try_lose l h : exchange l h = None → thread_step l (Checked h) l Outside
| try_win l l' h : exchange l h = Some l' → thread_step l (Checked h) l' (Critical h)
| unlock_advance l h : thread_step l (Critical h) (advance l) (Releasing h)
| unlock_publish l h : thread_step l (Releasing h) (publish l) Outside.

Inductive lock_step : SpinLock * list phase → SpinLock * list phase → Prop :=
| step_thread l l' p p' ts1 ts2 :
    thread_step l p l' p' → lock_step (l, ts1 ++ p :: ts2) (l', ts1 ++ p' :: ts2).
End lock.

Lemma seqZ_snoc a b : (0 ≤ b)%Z → seqZ a (b + 1) = seqZ a b ++ [(a + b)%Z].
Proof. intros Hb. by rewrite seqZ_app by lia. Qed.

(** ** Invariant *)

Section lock_proofs.
Context (Size : nat) (Hsize : 0 < Size).
Implicit Types (l : SpinLock) (ts : list phase).

(** [served] tickets have been released. *)
Definition phase_ok l (served : Z) (p : phase) : Prop :=
  match p with
  | Outside | Spinning _ => True
  | Loaded h => 0 ≤ h ≤ _head l
  | Checked h => 0 ≤ h ≤ served
  | Critical h => h = served ∧ _next l = served
  | Releasing h => h = served ∧ _next l = served + 1
  end%Z.

Record lock_inv (served : Z) l ts : Prop := {
  li_served : (0 ≤ served ≤ _head l)%Z;
  li_length : length (_buffer l) = Size;
  li_tickets : omap ticket ts ≡ₚ seqZ served (_head l - served);
  li_granted h : (0 ≤ h)%Z → granted Size l h = true → (h ≤ served)%Z;
  li_turn : granted Size l served = true;
  li_phases : Forall (phase_ok l served) ts;
  li_next : (∀ h, Releasing h ∉ ts) → _next l = served;
}.

Lemma slot_lt h : slot Size h < Size.
Proof. unfold slot. pose proof (Z.mod_pos_bound h (Z.of_nat Size)). lia. Qed.

Lemma new_lock_inv n : lock_inv 0 (new_lock Size) (replicate n Outside).
Proof.
  assert (∀ h, (0 ≤ h)%Z → granted Size (new_lock Size) h = bool_decide (h = 0)%Z) as Hg.
  { intros h Hh. unfold granted. simpl. rewrite lookup_replicate_2 by apply slot_lt.
    apply bool_decide_ext. naive_solver. }
  split; simpl.
  - lia.
  - apply length_replicate.
  - rewrite seqZ_nil by lia. by induction n.
  - intros h Hh. rewrite Hg by done. intros ->%bool_decide_eq_true. lia.
  - by rewrite Hg.
  - apply Forall_replicate. done.
  - done.
Qed.

(** Two threads with one ticket are the same thread. *)
Lemma NoDup_omap_index {A B} (f : A → option B) (xs : list A) i j x y b :
  NoDup (omap f xs) → xs !! i = Some x → xs !! j = Some y → f x = Some b → f y = Some b → i = j.
Proof.
  revert i j. induction xs as [|z xs IH]; [done|]. intros i j Hnd Hi Hj Hx Hy. csimpl in *.
  assert (∀ k u, xs !! k = Some u → f u = Some b → b ∈ omap f xs) as Hin.
  { intros k u Hk Hu. apply list_elem_of_omap. exists u. split; [by eapply list_elem_of_lookup_2|done]. }
  assert (NoDup (omap f xs)) as Hnd' by (destruct (f z); [by apply NoDup_cons in Hnd as [_ ?]|done]).
  destruct i as [|i], j as [|j]; simplify_eq/=; [done| | |f_equal; by eapply IH].
  - rewrite Hx in Hnd. apply NoDup_cons in Hnd as [[] _]. eauto.
  - rewrite Hy in Hnd. apply NoDup_cons in Hnd as [[] _]. eauto.
Qed.

Lemma lock_exclusive served l ts i j p q :
  lock_inv served l ts → ts !! i = Some p → ts !! j = Some q →
  holds p = true → holds q = true → i = j.
Proof.
  intros [_ _ Ht _ _ Hph _] Hi Hj Hp Hq. rewrite Forall_lookup in Hph.
  apply (NoDup_omap_index ticket ts i j p q served); try done.
  - rewrite Ht. apply NoDup_seqZ.
  - specialize (Hph _ _ Hi). destruct p; naive_solver.
  - specialize (Hph _ _ Hj). destruct q; naive_solver.
Qed.

(** ** Steps *)

(** Replacing one thread. *)
Lemma tickets_replace (ts1 ts2 : list phase) p :
  omap ticket (ts1 ++ p :: ts2) ≡ₚ option_list (ticket p) ++ omap ticket (ts1 ++ ts2).
Proof.
  rewrite !omap_app. csimpl. destruct (ticket p); simpl; [|done]. solve_Permutation.
Qed.

Lemma Forall_middle_split (P : phase → Prop) ts1 ts2 p :
  Forall P (ts1 ++ p :: ts2) → Forall P ts1 ∧ P p ∧ Forall P ts2.
Proof. by rewrite Forall_app, Forall_cons. Qed.

(** A step that leaves the lock alone and keeps the ticket. *)
Lemma keep_inv served l ts1 ts2 p p' :
  ticket p' = ticket p → phase_ok l served p' → (∀ h, p ≠ Releasing h) →
  lock_inv served l (ts1 ++ p :: ts2) → lock_inv served l (ts1 ++ p' :: ts2).
Proof.
  intros Ht Hok Hr []. split; try done.
  - by rewrite tickets_replace, Ht, <-tickets_replace.
  - rewrite Forall_app, Forall_cons in *. naive_solver.
  - intros Hn. apply li_next0. intros h Hin. apply (Hn h). set_solver.
Qed.

(** Taking the next ticket, with the phase it leads to. *)
Lemma take_inv served l ts1 ts2 p p' :
  (_head l + 1 < u64_modulus)%Z → ticket p = None → ticket p' = Some (_head l) →
  phase_ok (take_ticket l).2 served p' → (∀ h, p' ≠ Releasing h) →
  lock_inv served l (ts1 ++ p :: ts2) → lock_inv served (take_ticket l).2 (ts1 ++ p' :: ts2).
Proof.
  intros Hw Hp Hp' Hok Hr []. unfold take_ticket in *. simpl in *.
  assert (u64 (_head l + 1) = _head l + 1)%Z as Hu by (apply u64_small; unfold is_u64; lia).
  rewrite Hu in *. split; simpl; try done; try lia.
  - rewrite tickets_replace, Hp'. rewrite tickets_replace, Hp in li_tickets0. simpl in *.
    rewrite li_tickets0. replace (_head l + 1 - served)%Z with (_head l - served + 1)%Z by lia.
    rewrite seqZ_snoc by lia. replace (served + (_head l - served))%Z with (_head l) by lia.
    by rewrite Permutation_app_comm.
  - rewrite Forall_app, Forall_cons in *. destruct li_phases0 as (H1 & _ & H2).
    split_and!; [|done|].
    + eapply Forall_impl; [exact H1|]. intros []; simpl; naive_solver lia.
    + eapply Forall_impl; [exact H2|]. intros []; simpl; naive_solver lia.
  - intros Hn. apply li_next0. intros h Hin. apply (Hn h).
    apply elem_of_app in Hin as [|[<-|]%elem_of_cons]; [set_solver|done|set_solver].
Qed.

Lemma tickets_bounds served l ts p h :
  lock_inv served l ts → p ∈ ts → ticket p = Some h → (served ≤ h < _head l)%Z.
Proof.
  intros [] Hp Hh. assert (h ∈ omap ticket ts) as Hin by (apply list_elem_of_omap; eauto).
  rewrite li_tickets0, elem_of_seqZ in Hin. lia.
Qed.

(** No other thread has the ticket of a thread. *)
Lemma ticket_alone served l ts1 ts2 p q h :
  lock_inv served l (ts1 ++ p :: ts2) → ticket p = Some h → q ∈ ts1 ++ ts2 → ticket q ≠ Some h.
Proof.
  intros [] Hp Hq Hh. assert (NoDup (omap ticket (ts1 ++ p :: ts2))) as Hnd
    by (rewrite li_tickets0; apply NoDup_seqZ).
  rewrite tickets_replace, Hp in Hnd. apply NoDup_cons in Hnd as [[] _].
  apply list_elem_of_omap. eauto.
Qed.

Lemma holder_alone served l ts1 ts2 p :
  lock_inv served l (ts1 ++ p :: ts2) → ticket p = Some served →
  Forall (λ q, holds q = false) (ts1 ++ ts2).
Proof.
  intros Hi Hp. apply Forall_forall. intros q Hq. destruct (holds q) eqn:Hh; [exfalso|done].
  apply (ticket_alone _ _ _ _ p q served Hi Hp Hq).
  pose proof (li_phases _ _ _ Hi) as Hph. rewrite Forall_forall in Hph.
  specialize (Hph q ltac:(set_solver)). destruct q; naive_solver.
Qed.

Lemma others_ok served l l' served' (ts : list phase) :
  Forall (λ q, holds q = false) ts → (_head l ≤ _head l')%Z → (served ≤ served')%Z →
  Forall (phase_ok l served) ts → Forall (phase_ok l' served') ts.
Proof.
  intros Hh Hle Hs Hok. rewrite Forall_forall in *. intros q Hq.
  specialize (Hh q Hq). specialize (Hok q Hq). destruct q; simpl in *; naive_solver lia.
Qed.

Lemma advance_inv served l ts1 ts2 h :
  (_head l + 1 < u64_modulus)%Z →
  lock_inv served l (ts1 ++ Critical h :: ts2) →
  lock_inv served (advance l) (ts1 ++ Releasing h :: ts2).
Proof.
  intros Hw Hi. pose proof (li_phases _ _ _ Hi) as (Hl & [-> Hn] & Hr)%Forall_middle_split.
  pose proof (holder_alone _ _ _ _ _ Hi eq_refl) as [Ha1 Ha2]%Forall_app. destruct Hi.
  split; try done.
  - by rewrite tickets_replace in *.
  - apply Forall_app; split; [|apply Forall_cons; split].
    + eapply others_ok; [done| | |exact Hl]; simpl; lia.
    + split; [done|]. simpl. rewrite Hn. apply u64_small. unfold is_u64. lia.
    + eapply others_ok; [done| | |exact Hr]; simpl; lia.
  - intros Hnone. destruct (Hnone served). set_solver.
Qed.

Lemma publish_granted l h :
  length (_buffer l) = Size →
  granted Size (publish Size l) h = true ↔ if decide (slot Size h = slot Size (_next l))
    then h = _next l else granted Size l h = true.
Proof.
  intros Hl. unfold granted, publish. simpl. rewrite !bool_decide_eq_true. case_decide as Hs.
  - rewrite Hs, list_lookup_insert_eq by (rewrite Hl; apply slot_lt). naive_solver.
  - rewrite list_lookup_insert_ne by congruence. by rewrite bool_decide_eq_true.
Qed.

Lemma publish_inv served l ts1 ts2 h :
  lock_inv served l (ts1 ++ Releasing h :: ts2) →
  lock_inv (served + 1) (publish Size l) (ts1 ++ Outside :: ts2).
Proof.
  intros Hi. pose proof (li_phases _ _ _ Hi) as (Hl & [-> Hn] & Hr)%Forall_middle_split.
  pose proof (tickets_bounds _ _ _ (Releasing served) served Hi ltac:(set_solver) eq_refl) as Hb.
  pose proof (holder_alone _ _ _ _ _ Hi eq_refl) as [Ha1 Ha2]%Forall_app. destruct Hi.
  split.
  - simpl. lia.
  - simpl. by rewrite length_insert.
  - rewrite tickets_replace in *. simpl in *. rewrite seqZ_cons in li_tickets0 by lia.
    apply Permutation_cons_inv in li_tickets0. rewrite li_tickets0.
    by replace (Z.pred (_head l - served)) with (_head l - (served + 1))%Z by lia.
  - intros k Hk. rewrite publish_granted by done. case_decide; [lia|].
    intros Hg%li_granted0; [lia|done].
  - rewrite publish_granted by done. by rewrite decide_True by congruence.
  - apply Forall_app; split; [|apply Forall_cons; split].
    + eapply others_ok; [done| | |exact Hl]; simpl; lia.
    + done.
    + eapply others_ok; [done| | |exact Hr]; simpl; lia.
  - simpl. lia.
Qed.

(** The thread whose turn it is, if it has not entered, finds nobody inside. *)
Lemma turn_next served l ts1 ts2 p :
  lock_inv served l (ts1 ++ p :: ts2) → ticket p = Some served → holds p = false →
  _next l = served.
Proof.
  intros Hi Hp Hh. apply (li_next _ _ _ Hi). intros k Hk.
  pose proof (holder_alone _ _ _ _ _ Hi Hp) as Ha. rewrite Forall_forall in Ha.
  assert (Releasing k ∈ ts1 ++ ts2) as Hin by (destruct p; set_solver). by apply Ha in Hin.
Qed.

Lemma enter_inv served l ts1 ts2 h :
  granted Size l h = true → lock_inv served l (ts1 ++ Spinning h :: ts2) →
  lock_inv served l (ts1 ++ Critical h :: ts2).
Proof.
  intros Hg Hi. eapply keep_inv; [..|exact Hi]; [done| |done].
  pose proof (tickets_bounds _ _ _ (Spinning h) h Hi ltac:(set_solver) eq_refl) as Hb.
  pose proof (li_served _ _ _ Hi) as Hs. pose proof (li_granted _ _ _ Hi h ltac:(lia) Hg).
  assert (h = served) as -> by lia. split; [done|]. by eapply turn_next.
Qed.

Lemma win_inv served l ts1 ts2 h l' :
  (_head l + 1 < u64_modulus)%Z → exchange l h = Some l' →
  lock_inv served l (ts1 ++ Checked h :: ts2) → l' = (take_ticket l).2 ∧
  lock_inv served l' (ts1 ++ Critical h :: ts2).
Proof.
  intros Hw Hx Hi. unfold exchange in Hx. case_decide as Hh; [|done]. simplify_eq.
  pose proof (li_served _ _ _ Hi) as Hs.
  pose proof (li_phases _ _ _ Hi) as (_ & Hc & _)%Forall_middle_split. simpl in Hc.
  assert (_head l = served) as Hsv by lia. split; [done|].
  apply (take_inv served l ts1 ts2 (Checked (_head l)) (Critical (_head l))); try done.
  split; [done|]. apply (li_next _ _ _ Hi). intros k Hk.
  pose proof (tickets_bounds _ _ _ (Releasing k) k Hi Hk eq_refl). lia.
Qed.

Lemma lock_step_inv served l ts l' ts' :
  lock_step Size (l, ts) (l', ts') → (_head l + 1 < u64_modulus)%Z → lock_inv served l ts →
  (_head l' ≤ _head l + 1)%Z ∧ ∃ served', lock_inv served' l' ts'.
Proof.
  intros Hstep Hw Hi. inversion Hstep as [? ? p p' ts1 ts2 Ht]; subst.
  pose proof (li_served _ _ _ Hi) as Hs.
  assert (u64 (_head l + 1) = _head l + 1)%Z as Hu by (apply u64_small; unfold is_u64; lia).
  inversion Ht; subst; simpl.
  - split; [lia|]. exists served. by eapply take_inv; [..|exact Hi].
  - split; [lia|by exists served].
  - split; [lia|]. exists served. by apply enter_inv.
  - split; [lia|]. exists served. eapply keep_inv; [..|exact Hi]; [done|simpl; lia|done].
  - split; [lia|]. exists served. by eapply keep_inv; [..|exact Hi].
  - split; [lia|]. exists served. eapply keep_inv; [..|exact Hi]; [done| |done].
    pose proof (li_phases _ _ _ Hi) as (_ & Hc & _)%Forall_middle_split. simpl in *.
    pose proof (li_granted _ _ _ Hi h ltac:(lia)). naive_solver.
  - split; [lia|]. exists served. by eapply keep_inv; [..|exact Hi].
  - edestruct win_inv as [-> Hi']; [done..|]. simpl. split; [lia|by exists served].
  - split; [lia|]. exists served. by apply advance_inv.
  - split; [lia|]. exists (served + 1)%Z. by eapply publish_inv.
Qed.

Lemma lock_run_inv n k s :
  nsteps (lock_step Size) k (new_lock Size, replicate n Outside) s →
  (Z.of_nat k < u64_modulus)%Z →
  (_head s.1 ≤ Z.of_nat k)%Z ∧ ∃ served, lock_inv served s.1 s.2.
Proof.
  revert s. induction k as [|k IH]; intros s Hrun Hk.
  - inversion Hrun; subst. split; [done|]. exists 0%Z. apply new_lock_inv.
  - apply nsteps_inv_r in Hrun as ([l ts] & Hrun & Hstep).
    destruct (IH _ Hrun) as (Hh & served & Hi); [lia|]. simpl in *. destruct s as [l' ts'].
    destruct (lock_step_inv served l ts l' ts' Hstep) as [Hh' Hi']; [lia|done|].
    split; [simpl; lia|done].
Qed.

(** ** Properties *)

(** C26: in every run of fewer than 2^64 instructions, by any number of threads,
    at most one thread is between acquiring the lock, by [lock] or by
    [try_lock], and releasing it; and threads in [lock] that have not entered
    took their tickets later than it did, so the lock is first come, first
    served. *)
Theorem lock_mutual_exclusion n k s i p :
  nsteps (lock_step Size) k (new_lock Size, replicate n Outside) s →
  (Z.of_nat k < u64_modulus)%Z → s.2 !! i = Some p → holds p = true →
  (∀ j q, s.2 !! j = Some q → holds q = true → i = j) ∧
  (∀ j h h', ticket p = Some h → s.2 !! j = Some (Spinning h') → (h < h')%Z).
Proof.
  intros Hrun Hk Hp Hh. destruct (lock_run_inv _ _ _ Hrun Hk) as (_ & served & Hi).
  split; [intros j q Hq Hj; by eapply lock_exclusive|]. intros j h h' Ht Hj.
  pose proof (li_phases _ _ _ Hi) as Hph. rewrite Forall_lookup in Hph.
  assert (h = served) as -> by (specialize (Hph _ _ Hp); destruct p; naive_solver).
  pose proof (tickets_bounds _ _ _ _ h' Hi (list_elem_of_lookup_2 _ _ _ Hj) eq_refl) as Hb.
  assert (served ≠ h') as Hne; [|lia]. intros <-.
  assert (i = j) as <-; [|by rewrite Hp in Hj; simplify_eq].
  apply (NoDup_omap_index ticket s.2 i j p (Spinning served) served); try done.
  rewrite (li_tickets _ _ _ Hi). apply NoDup_seqZ.
Qed.

(** C27: no wake-up is lost: in every such run, while a thread waits in [lock],
    some thread holds the lock, or some waiting thread finds its ticket in
    the buffer the next time it looks and enters. *)
Theorem lock_no_lost_wakeup n k s i h :
  nsteps (lock_step Size) k (new_lock Size, replicate n Outside) s →
  (Z.of_nat k < u64_modulus)%Z → s.2 !! i = Some (Spinning h) →
  ∃ j q, s.2 !! j = Some q ∧ (holds q = true ∨ ∃ h', q = Spinning h' ∧
    thread_step Size s.1 q s.1 (Critical h')).
Proof.
  intros Hrun Hk Hp. destruct (lock_run_inv _ _ _ Hrun Hk) as (_ & served & Hi).
  pose proof (tickets_bounds _ _ _ _ h Hi (list_elem_of_lookup_2 _ _ _ Hp) eq_refl) as Hb.
  assert (served ∈ omap ticket s.2) as (q & [j Hj]%list_elem_of_lookup_1 & Hq)%list_elem_of_omap.
  { rewrite (li_tickets _ _ _ Hi), elem_of_seqZ. lia. }
  exists j, q. split; [done|]. destruct q as [|h'| | | |]; simplify_eq/=; [|by left..].
  right. exists served. split; [done|]. apply lock_enter, Hi.
Qed.
End lock_proofs.

(** ** An execution *)

(** Two threads, two slots: the first is inside, the second waits. *)
Definition demo_lock : SpinLock := mkLock [0%Z; 0%Z] 2 0.

Lemma demo_lock_run :
  nsteps (lock_step 2) 3 (new_lock 2, replicate 2 Outside) (demo_lock, [Critical 0; Spinning 1]).
Proof.
  eapply nsteps_l; [eapply (step_thread 2 _ _ _ _ [] [Outside]), lock_take|].
  eapply nsteps_l; [eapply (step_thread 2 _ _ _ _ [] [Outside]), lock_enter; by vm_compute|].
  eapply nsteps_once, (step_thread 2 _ _ _ _ [Critical 0] []), lock_take.
Qed.

Lemma lock_mutual_exclusion_witness :
  holds (Critical 0) = true ∧
  (∀ j q, [Critical 0; Spinning 1] !! j = Some q → holds q = true → 0 = j) ∧
  (∀ j h h', ticket (Critical 0) = Some h → [Critical 0; Spinning 1] !! j = Some (Spinning h') →
    (h < h')%Z).
Proof.
  split; [reflexivity|].
  exact (lock_mutual_exclusion 2 Nat.lt_0_2 2 3 _ 0 (Critical 0) demo_lock_run
    eq_refl eq_refl eq_refl).
Defined.

Lemma lock_no_lost_wakeup_witness : ∃ j q, [Critical 0; Spinning 1] !! j = Some q ∧
  (holds q = true ∨ ∃ h', q = Spinning h' ∧ thread_step 2 demo_lock q demo_lock (Critical h')).
Proof.
  exact (lock_no_lost_wakeup 2 Nat.lt_0_2 2 3 _ 1 1 demo_lock_run eq_refl eq_refl).
Defined.
