(* ===== verification/SpinWait.v ===== *)
(** * Pausing while spinning

    [SpinWait] ([src/src/common/util/SpinWait.hpp]): the hint that a thread gives
    to its core while it spins.  On POWER the hint is the priority of the
    hardware thread, which stays as it is until it is set again, so that every
    spin loop of the library ([src/src/common/util/SpinLock.hpp],
    [src/src/common/util/MultiLockFreeQueue.hpp],
    [src/src/common/util/BoostLockFreeQueue.hpp]) has to restore it. *)

From S2P Require Import Prelude.

(** ** Targets and hints *)

(** The macros that the header derives from those of the compiler. *)
Record target := mkTarget {
  SSE2_ARCH_FEATURE : bool;
  POWER9_ARCH : bool;
  X86_ARCH : bool;
  ARM_ARCH : bool;
}.

Inductive priority := VeryLow | Low | MediumLow | Medium | MediumHigh | High.

Inductive hint := MmPause | Hmt (p : priority) | Pause | Yield.

#[global] Instance priority_eq_dec : EqDecision priority.
Proof. solve_decision. Defined.

Section spin_wait.
Context (a : target).

Definition wait : list hint :=
  if SSE2_ARCH_FEATURE a then [MmPause]
  else if POWER9_ARCH a then [Hmt Low]
  else if X86_ARCH a then [Pause]
  else if ARM_ARCH a then [Yield]
  else [].

Definition release : list hint := if POWER9_ARCH a then [Hmt Medium] else [].

(** The priority of the hardware thread after some hints. *)
Definition after (p : priority) (hs : list hint) : priority :=
  foldl (λ p h, match h with Hmt q => q | _ => p end) p hs.

(** ** The spin loops *)

(** [while (!test()) SpinWait::wait();] over the results of the tests: the
    hints so far, and whether the loop was left. *)
Fixpoint spin_while (tests : list bool) : list hint * bool :=
  match tests with
  | [] => ([], false)
  | true :: _ => ([], true)
  | false :: tests => let '(hs, out) := spin_while tests in (wait ++ hs, out)
  end.

(** The hints of [SpinLock::lock], whose loads of [_buffer[idx]] compare as
    [loads] say. *)
Definition lock_hints (loads : list bool) : list hint * bool :=
  let '(hs, out) := spin_while loads in
  if out then (hs ++ release, true) else (hs, false).

(** The hints of a push that tries once and then spins: the attempts give
    [attempts].  It is [MultiLockFreeQueue::push] and
    [BoostLockFreeQueue::pushCont]. *)
Definition push_hints (attempts : list bool) : list hint * bool :=
  match attempts with
  | [] => ([], false)
  | true :: _ => ([], true)
  | false :: attempts =>
      let '(hs, out) := spin_while attempts in
      if out then (wait ++ hs ++ release, true) else (wait ++ hs, false)
  end.

End spin_wait.

(** ** Priorities *)

Lemma after_app p hs hs' : after p (hs ++ hs') = after (after p hs) hs'.
Proof. apply foldl_app. Qed.

Lemma after_wait a p :
  after p (wait a) =
    if negb (SSE2_ARCH_FEATURE a) && POWER9_ARCH a then Low else p.
Proof. unfold wait. by destruct (SSE2_ARCH_FEATURE a), (POWER9_ARCH a), (X86_ARCH a), (ARM_ARCH a). Qed.

Lemma after_release a p : after p (release a) = if POWER9_ARCH a then Medium else p.
Proof. unfold release. by destruct (POWER9_ARCH a). Qed.

(** Off POWER a spin loop does not touch the priority. *)
Lemma after_spin a p tests :
  POWER9_ARCH a = false → after p (spin_while a tests).1 = p.
Proof.
  intros Ha. induction tests as [|[] tests IH]; [done..|]. simpl.
  destruct (spin_while a tests) as [hs out]. simpl in *. rewrite after_app, after_wait, Ha, andb_false_r. done.
Qed.

(** ** Properties *)

(** A thread that leaves [SpinLock::lock] runs its critical section at medium
    priority on POWER, however often it waited, and at the priority it had
    elsewhere; no thread enters a critical section at the low priority of the
    spin loop. *)
Theorem lock_restores_priority a p loads hs :
  lock_hints a loads = (hs, true) →
  after p hs = if POWER9_ARCH a then Medium else p.
Proof.
  unfold lock_hints. destruct (spin_while a loads) as [hs' []] eqn:Hs; intros Hl; simplify_eq.
  rewrite after_app, after_release. destruct (POWER9_ARCH a) eqn:Ha; [done|].
  pose proof (after_spin a p loads Ha) as Hp. by rewrite Hs in Hp.
Qed.

(** A push that returns leaves the priority as it was when it did not have to
    wait, and at medium on POWER when it did. *)
Theorem push_restores_priority a p attempts hs :
  push_hints a attempts = (hs, true) →
  after p hs =
    match attempts with false :: _ => if POWER9_ARCH a then Medium else p | _ => p end.
Proof.
  destruct attempts as [|[] attempts]; simpl; intros Hl; simplify_eq; [done|].
  destruct (spin_while a attempts) as [hs' []] eqn:Hs; simplify_eq.
  rewrite !after_app, after_release, after_wait. destruct (POWER9_ARCH a) eqn:Ha; [done|].
  rewrite andb_false_r. pose proof (after_spin a p attempts Ha) as Hp. by rewrite Hs in Hp.
Qed.

Definition power9 : target := mkTarget false true false false.

Lemma lock_restores_priority_witness :
  lock_hints power9 [false; false; true] = ([Hmt Low; Hmt Low; Hmt Medium], true) ∧
  after High [Hmt Low; Hmt Low; Hmt Medium] = Medium.
Proof. split; [reflexivity|]. exact (lock_restores_priority power9 High [false; false; true] _ eq_refl). Defined.

Lemma push_restores_priority_witness :
  push_hints power9 [false; true] = ([Hmt Low; Hmt Medium], true) ∧
  after Medium [Hmt Low; Hmt Medium] = Medium.
Proof. split; [reflexivity|]. exact (push_restores_priority power9 Medium [false; true] _ eq_refl). Defined.
