(* ===== verification/LockMemory.v ===== *)
(** * The spinlock under the memory orders of the code

    [SpinLock] ([src/src/common/util/SpinLock.hpp]) again, now on a memory with
    the C++ orders that the code gives its accesses: a load may return any value
    that was ever stored to the location, read-modify-write operations return
    the newest, and plain accesses of different threads are ordered only by an
    acquire operation, or an acquire fence after a relaxed load, that reads
    from a release store.  The plain accesses are those to the data that the
    lock protects, to which its own [_next] belongs. *)

From S2P Require Import Prelude SpinLock RingMemory.
From stdpp Require Import list_numbers.

(** ** Memory *)

(** The orders of the fence of [lock], of the second load of [try_lock], of its
    exchange, and of the store of [unlock].  All other accesses are relaxed. *)
Record lock_orders := mkLockOrders {
  lo_fence : memory_order;
  lo_check : memory_order;
  lo_exchange : memory_order;
  lo_store : memory_order;
}.

Definition code_lock_orders : lock_orders := mkLockOrders acquire relaxed acquire release.

(** A value stored to an atomic object, and how many accesses to the protected
    data happen before an acquire operation that reads it. *)
Record lmsg := mkLmsg { m_value : Z; m_view : nat }.

(** The stores to every atomic object, oldest first; the plain [_next]; how many
    accesses to the protected data there were, and whether one of them was not
    ordered after all earlier ones. *)
Record lock_memory := mkLM {
  lm_buffer : list (list lmsg);
  lm_head : list lmsg;
  lm_next : Z;
  lm_accesses : nat;
  lm_race : bool;
}.
Implicit Types m : lock_memory.

(** ** Threads *)

(** As in [SpinLock.v], with the place between the loop and the fence. *)
Inductive place :=
| Away
| Waiting (head : Z)
| Fencing (head : Z)
| TryLoaded (head : Z)
| TryChecked (head : Z)
| Inside (head : Z)
| Leaving (head : Z).

(** [t_view] accesses to the data happen before what the thread does next, and
    [t_pending] after its next acquire fence. *)
Record thread := mkThread { t_place : place; t_view : nat; t_pending : nat }.
Implicit Types t : thread.

Definition place_ticket (p : place) : option Z :=
  match p with Waiting h | Fencing h | Inside h | Leaving h => Some h | _ => None end.
Definition inside (p : place) : bool := match p with Inside _ | Leaving _ => true | _ => false end.

(** What a thread may do; a load has the position of the store it reads. *)
Inductive lock_action :=
| Take | Spin (i : nat) | Fence
| TryLoad (i : nat) | TryCheck (i : nat) | TryFail (i : nat) | TryExchange
| Access | Advance | Publish.

Section lock_memory.
Context (Size : nat) (o : lock_orders).

(** A load of order [ord] that reads [x]. *)
Definition load_msg (ord : memory_order) (x : lmsg) (p : place) t : thread :=
  mkThread p (if decide (ord = acquire) then t_view t `max` m_view x else t_view t)
    (t_pending t `max` m_view x).

(** The newest store to [_head], and a read-modify-write that stores [value]: it
    releases nothing itself but continues the release sequence. *)
Definition newest_head m : lmsg := default (mkLmsg 0 0) (last (lm_head m)).
Definition update_head (value : Z) m : lock_memory :=
  mkLM (lm_buffer m) (lm_head m ++ [mkLmsg value (m_view (newest_head m))]) (lm_next m)
    (lm_accesses m) (lm_race m).

(** [_buffer[head % Size]], at a position of its modification order. *)
Definition buffer_msg (head : Z) (i : nat) m : option lmsg :=
  msgs ← lm_buffer m !! slot Size head; msgs !! i.

(** A plain access to the protected data. *)
Definition access t m : thread * lock_memory :=
  (mkThread (t_place t) (S (lm_accesses m)) (t_pending t),
   mkLM (lm_buffer m) (lm_head m) (lm_next m) (S (lm_accesses m))
     (lm_race m || (t_view t <? lm_accesses m))).

(** [++_next] and the store of [unlock]. *)
Definition leave (h : Z) t m : thread * lock_memory :=
  let '(t, m) := access t m in
  (mkThread (Leaving h) (t_view t) (t_pending t),
   mkLM (lm_buffer m) (lm_head m) (u64 (lm_next m + 1)) (lm_accesses m) (lm_race m)).

Definition publish_next t m : lock_memory :=
  let x := mkLmsg (lm_next m) (if decide (lo_store o = release) then t_view t else 0) in
  mkLM (alter (λ msgs, msgs ++ [x]) (slot Size (lm_next m)) (lm_buffer m)) (lm_head m)
    (lm_next m) (lm_accesses m) (lm_race m).

(** One step of a thread; [use_try] says whether threads call [try_lock]. *)
Definition lock_act (use_try : bool) (a : lock_action) t m : option (thread * lock_memory) :=
  match a, t_place t with
  | Take, Away =>
      let x := newest_head m in
      Some (load_msg relaxed x (Waiting (m_value x)) t, update_head (u64 (m_value x + 1)) m)
  | Spin i, Waiting h =>
      x ← buffer_msg h i m;
      Some (load_msg relaxed x (if decide (m_value x = h) then Fencing h else Waiting h) t, m)
  | Fence, Fencing h =>
      Some (mkThread (Inside h)
        (if decide (lo_fence o = acquire) then t_view t `max` t_pending t else t_view t)
        (t_pending t), m)
  | TryLoad i, Away =>
      if use_try then x ← lm_head m !! i; Some (load_msg relaxed x (TryLoaded (m_value x)) t, m)
      else None
  | TryCheck i, TryLoaded h =>
      x ← buffer_msg h i m;
      Some (load_msg (lo_check o) x (if decide (m_value x = h) then TryChecked h else Away) t, m)
  | TryExchange, TryChecked h =>
      let x := newest_head m in
      if decide (m_value x = h) then
        Some (load_msg (lo_exchange o) x (Inside h) t, update_head (u64 (h + 1)) m)
      else None
  | TryFail i, TryChecked h =>
      x ← lm_head m !! i;
      if decide (m_value x = h) then None else Some (load_msg relaxed x Away t, m)
  | Access, Inside h => Some (access t m)
  | Advance, Inside h => Some (leave h t m)
  | Publish, Leaving h => Some (mkThread Away (t_view t) (t_pending t), publish_next t m)
  | _, _ => None
  end.

Inductive lock_mem_step (use_try : bool) :
    lock_memory * list thread → lock_memory * list thread → Prop :=
| lock_mem_thread a t t' m m' ts1 ts2 :
    lock_act use_try a t m = Some (t', m') →
    lock_mem_step use_try (m, ts1 ++ t :: ts2) (m', ts1 ++ t' :: ts2).

Definition new_lock_memory : lock_memory :=
  mkLM (replicate Size [mkLmsg 0 0]) [mkLmsg 0 0] 0 0 false.
Definition new_thread : thread := mkThread Away 0 0.
End lock_memory.

(** ** Invariant *)

Section lock_memory_proofs.
Context (Size : nat) (o : lock_orders) (use_try : bool) (Hsize : 0 < Size).
Implicit Types ts : list thread.

(** What orders the critical sections. *)
Definition ordered : Prop :=
  lo_fence o = acquire ∧ lo_store o = release ∧ (use_try = true → lo_check o = acquire).

Definition ticket_of t : option Z := place_ticket (t_place t).
Definition is_inside t : bool := inside (t_place t).

(** The lock was released [served] times, after [base] accesses to the data. *)
Definition thread_ok (served : Z) (base : nat) m t : Prop :=
  match t_place t with
  | Away | Waiting _ => True
  | Fencing h => h = served ∧ (ordered → base ≤ t_pending t)
  | TryLoaded _ => use_try = true
  | TryChecked h => use_try = true ∧ (0 ≤ h ≤ served)%Z ∧ (ordered → h = served → base ≤ t_view t)
  | Inside h => h = served ∧ lm_next m = served ∧ (ordered → lm_accesses m ≤ t_view t)
  | Leaving h => h = served ∧ lm_next m = (served + 1)%Z ∧ (ordered → lm_accesses m ≤ t_view t)
  end.

Definition head_value m : Z := m_value (newest_head m).

Record lock_mem_inv (served : Z) (base : nat) m ts : Prop := {
  wi_served : (0 ≤ served ≤ head_value m)%Z;
  wi_values i msgs x : lm_buffer m !! i = Some msgs → x ∈ msgs →
    (0 ≤ m_value x ≤ served)%Z ∧ (ordered → m_value x = served → base ≤ m_view x);
  wi_tickets : omap ticket_of ts ≡ₚ seqZ served (head_value m - served);
  wi_threads : Forall (thread_ok served base m) ts;
  wi_next : (∀ t h, t ∈ ts → t_place t ≠ Leaving h) → lm_next m = served;
  wi_idle : Forall (λ t, is_inside t = false) ts → lm_accesses m = base;
  wi_race : ordered → lm_race m = false;
}.

Lemma new_lock_memory_inv n :
  lock_mem_inv 0 0 (new_lock_memory Size) (replicate n new_thread).
Proof.
  split; simpl; try done.
  - intros i msgs x [-> _]%lookup_replicate. intros ->%list_elem_of_singleton. simpl. lia.
  - rewrite seqZ_nil by done. by induction n.
  - by apply Forall_replicate.
Qed.

Lemma ticket_of_middle ts1 ts2 t :
  omap ticket_of (ts1 ++ t :: ts2) ≡ₚ option_list (ticket_of t) ++ omap ticket_of (ts1 ++ ts2).
Proof. rewrite !omap_app. csimpl. destruct (ticket_of t); simpl; [|done]. solve_Permutation. Qed.

Lemma ticket_bounds served base m ts t h :
  lock_mem_inv served base m ts → t ∈ ts → ticket_of t = Some h → (served ≤ h < head_value m)%Z.
Proof.
  intros Hi Ht Hh. assert (h ∈ omap ticket_of ts) as Hin by (apply list_elem_of_omap; eauto).
  rewrite (wi_tickets _ _ _ _ Hi), elem_of_seqZ in Hin. lia.
Qed.

(** The thread whose ticket is served is alone with it, so no other is inside. *)
Lemma served_alone served base m ts1 ts2 t u :
  lock_mem_inv served base m (ts1 ++ t :: ts2) → ticket_of t = Some served → u ∈ ts1 ++ ts2 →
  ticket_of u ≠ Some served ∧ is_inside u = false.
Proof.
  intros Hi Ht Hu. assert (ticket_of u ≠ Some served) as Hne.
  { intros Hh. assert (NoDup (omap ticket_of (ts1 ++ t :: ts2))) as Hnd
      by (rewrite (wi_tickets _ _ _ _ Hi); apply NoDup_seqZ).
    rewrite ticket_of_middle, Ht in Hnd. apply NoDup_cons in Hnd as [[] _].
    apply list_elem_of_omap. eauto. }
  split; [done|]. pose proof (wi_threads _ _ _ _ Hi) as Hth. rewrite Forall_forall in Hth.
  specialize (Hth u ltac:(set_solver)). unfold is_inside, ticket_of, thread_ok in *.
  destruct (t_place u); simpl in *; naive_solver.
Qed.

Lemma Forall_middle {A} (P Q : A → Prop) l1 l2 x y :
  Forall P (l1 ++ x :: l2) → (∀ z, z ∈ l1 ++ l2 → P z → Q z) → Q y → Forall Q (l1 ++ y :: l2).
Proof.
  rewrite !Forall_forall. intros HP HQ Hy z [Hz|[->|Hz]%elem_of_cons]%elem_of_app; [|done|];
    apply HQ; set_solver.
Qed.

(** Steps of a thread that is not inside, which change no more than [_head]. *)
Lemma replace_inv served base m m' ts1 ts2 t t' :
  lock_mem_inv served base m (ts1 ++ t :: ts2) → is_inside t = false →
  thread_ok served base m t' → (∀ h, t_place t' ≠ Leaving h) →
  lm_buffer m' = lm_buffer m → lm_next m' = lm_next m → lm_accesses m' = lm_accesses m →
  lm_race m' = lm_race m → (served ≤ head_value m')%Z →
  omap ticket_of (ts1 ++ t' :: ts2) ≡ₚ seqZ served (head_value m' - served) →
  lock_mem_inv served base m' (ts1 ++ t' :: ts2).
Proof.
  intros [Hs Hv Ht Hth Hn Hid Hr] Hin Hok Hl Eb En Ea Er Hh Ht'. split.
  - lia.
  - by rewrite Eb.
  - done.
  - apply (Forall_middle (thread_ok served base m) _ _ _ t); [done| |].
    + intros u _. unfold thread_ok. by rewrite En, Ea.
    + revert Hok. unfold thread_ok. by rewrite En, Ea.
  - rewrite En. intros Hno. apply Hn. intros u h [Hu|[->|Hu]%elem_of_cons]%elem_of_app.
    + apply Hno. set_solver.
    + intros Hp. unfold is_inside in Hin. by rewrite Hp in Hin.
    + apply Hno. set_solver.
  - rewrite Ea. intros Hall. apply Hid. by apply (Forall_middle (λ t, is_inside t = false) _ _ _ t').
  - by rewrite Er.
Qed.

(** Steps that change nothing in memory and keep the ticket. *)
Lemma keep_ticket_inv served base m ts1 ts2 t t' :
  lock_mem_inv served base m (ts1 ++ t :: ts2) → is_inside t = false →
  thread_ok served base m t' → (∀ h, t_place t' ≠ Leaving h) → ticket_of t' = ticket_of t →
  lock_mem_inv served base m (ts1 ++ t' :: ts2).
Proof.
  intros Hi Hin Hok Hl Ht. apply (replace_inv served base m m ts1 ts2 t t'); try done.
  - apply Hi.
  - by rewrite ticket_of_middle, Ht, <-ticket_of_middle, (wi_tickets _ _ _ _ Hi).
Qed.

(** Steps that take the next ticket. *)
Lemma next_ticket_inv served base m ts1 ts2 t t' :
  lock_mem_inv served base m (ts1 ++ t :: ts2) → (head_value m + 1 < u64_modulus)%Z →
  is_inside t = false → ticket_of t = None → ticket_of t' = Some (head_value m) →
  thread_ok served base m t' → (∀ h, t_place t' ≠ Leaving h) →
  lock_mem_inv served base (update_head (u64 (head_value m + 1)) m) (ts1 ++ t' :: ts2).
Proof.
  intros Hi Hw Hin Ht Ht' Hok Hl. pose proof (wi_served _ _ _ _ Hi) as Hs.
  assert (head_value (update_head (u64 (head_value m + 1)) m) = head_value m + 1)%Z as Hh.
  { unfold head_value at 1, newest_head, update_head. cbn [lm_head]. rewrite last_snoc.
    apply u64_small. unfold is_u64. lia. }
  apply (replace_inv served base m _ ts1 ts2 t t'); try done; rewrite ?Hh; [lia|].
  pose proof (wi_tickets _ _ _ _ Hi) as Hts. rewrite ticket_of_middle, Ht in Hts. simpl in Hts.
  rewrite ticket_of_middle, Ht'. simpl. rewrite Hts.
  replace (head_value m + 1 - served)%Z with (head_value m - served + 1)%Z by lia.
  rewrite seqZ_snoc by lia. replace (served + (head_value m - served))%Z with (head_value m) by lia.
  by rewrite Permutation_app_comm.
Qed.

(** Nobody is inside before the thread whose turn it is enters. *)
Lemma turn_idle served base m ts :
  lock_mem_inv served base m ts → Forall (λ t, is_inside t = false) ts →
  lm_next m = served ∧ lm_accesses m = base.
Proof.
  intros Hi Hall. split; [|by apply Hi]. apply Hi. intros t h Ht Hp.
  rewrite Forall_forall in Hall. specialize (Hall t Ht). unfold is_inside in Hall. by rewrite Hp in Hall.
Qed.

Lemma idle_middle served base m ts1 ts2 t :
  lock_mem_inv served base m (ts1 ++ t :: ts2) → is_inside t = false → ticket_of t = Some served →
  Forall (λ t, is_inside t = false) (ts1 ++ t :: ts2).
Proof.
  intros Hi Hin Ht. rewrite Forall_forall.
  intros u [Hu|[->|Hu]%elem_of_cons]%elem_of_app; [|done|];
    eapply (served_alone served base m ts1 ts2 t u Hi Ht); set_solver.
Qed.

(** A message with the ticket of a waiting thread tells it that its turn came. *)
Lemma buffer_msg_inv served base m ts h i x :
  lock_mem_inv served base m ts → buffer_msg Size h i m = Some x →
  (0 ≤ m_value x ≤ served)%Z ∧ (ordered → m_value x = served → base ≤ m_view x).
Proof.
  intros Hi Hx. unfold buffer_msg in Hx. apply bind_Some in Hx as (msgs & Hm & Hx).
  eapply wi_values; [done..|]. by eapply list_elem_of_lookup_2.
Qed.

(** ** Steps *)

Lemma spin_inv served base m ts1 ts2 t h i x :
  lock_mem_inv served base m (ts1 ++ t :: ts2) → t_place t = Waiting h →
  buffer_msg Size h i m = Some x →
  lock_mem_inv served base m
    (ts1 ++ load_msg relaxed x (if decide (m_value x = h) then Fencing h else Waiting h) t :: ts2).
Proof.
  intros Hi Hp Hx. apply (keep_ticket_inv served base m ts1 ts2 t); try done.
  - unfold is_inside. by rewrite Hp.
  - unfold thread_ok. simpl. case_decide as Hv; [|done].
    destruct (buffer_msg_inv _ _ _ _ _ _ _ Hi Hx) as [Hb Hview].
    destruct (ticket_bounds _ _ _ _ t h Hi) as [Hle _]; [set_solver|unfold ticket_of; by rewrite Hp|].
    assert (h = served) as -> by lia. split; [done|]. intros Ho. specialize (Hview Ho Hv). simpl. lia.
  - intros h'. simpl. by case_decide.
  - unfold ticket_of. simpl. rewrite Hp. by case_decide.
Qed.

Lemma fence_inv served base m ts1 ts2 t h :
  lock_mem_inv served base m (ts1 ++ t :: ts2) → t_place t = Fencing h →
  lock_mem_inv served base m (ts1 ++ mkThread (Inside h)
    (if decide (lo_fence o = acquire) then t_view t `max` t_pending t else t_view t)
    (t_pending t) :: ts2).
Proof.
  intros Hi Hp. pose proof (wi_threads _ _ _ _ Hi) as Hth. rewrite Forall_app, Forall_cons in Hth.
  destruct Hth as (_ & Ht & _). unfold thread_ok in Ht. rewrite Hp in Ht. destruct Ht as [-> Hpend].
  assert (is_inside t = false) as Hin by (unfold is_inside; by rewrite Hp).
  assert (ticket_of t = Some served) as Htk by (unfold ticket_of; by rewrite Hp).
  destruct (turn_idle _ _ _ _ Hi (idle_middle _ _ _ _ _ _ Hi Hin Htk)) as [Hn Ha].
  apply (keep_ticket_inv served base m ts1 ts2 t); try done.
  unfold thread_ok. simpl. split_and!; [done|done|]. intros Ho. specialize (Hpend Ho).
  destruct Ho as (-> & _). rewrite decide_True by done. lia.
Qed.

Lemma check_inv served base m ts1 ts2 t h i x :
  lock_mem_inv served base m (ts1 ++ t :: ts2) → t_place t = TryLoaded h →
  buffer_msg Size h i m = Some x →
  lock_mem_inv served base m
    (ts1 ++ load_msg (lo_check o) x (if decide (m_value x = h) then TryChecked h else Away) t :: ts2).
Proof.
  intros Hi Hp Hx. pose proof (wi_threads _ _ _ _ Hi) as Hth. rewrite Forall_app, Forall_cons in Hth.
  destruct Hth as (_ & Ht & _). unfold thread_ok in Ht. rewrite Hp in Ht.
  apply (keep_ticket_inv served base m ts1 ts2 t); try done.
  - unfold is_inside. by rewrite Hp.
  - unfold thread_ok. simpl. case_decide as Hv; [|done].
    destruct (buffer_msg_inv _ _ _ _ _ _ _ Hi Hx) as [Hb Hview]. subst h.
    split_and!; [done|lia|lia|]. intros Ho Hs. specialize (Hview Ho Hs).
    destruct Ho as (_ & _ & Hc). rewrite decide_True by auto. lia.
  - intros h'. simpl. by case_decide.
  - unfold ticket_of. simpl. rewrite Hp. by case_decide.
Qed.

Lemma exchange_inv served base m ts1 ts2 t h :
  lock_mem_inv served base m (ts1 ++ t :: ts2) → (head_value m + 1 < u64_modulus)%Z →
  t_place t = TryChecked h → head_value m = h →
  lock_mem_inv served base (update_head (u64 (h + 1)) m)
    (ts1 ++ load_msg (lo_exchange o) (newest_head m) (Inside h) t :: ts2).
Proof.
  intros Hi Hw Hp Hh. pose proof (wi_threads _ _ _ _ Hi) as Hth. rewrite Forall_app, Forall_cons in Hth.
  destruct Hth as (_ & Ht & _). unfold thread_ok in Ht. rewrite Hp in Ht.
  destruct Ht as (_ & Hle & Hview). pose proof (wi_served _ _ _ _ Hi) as Hs.
  assert (h = served) as -> by lia.
  assert (Forall (λ t, is_inside t = false) (ts1 ++ t :: ts2)) as Hall.
  { apply Forall_forall. intros u Hu. destruct (is_inside u) eqn:Hin; [exfalso|done].
    assert (is_Some (ticket_of u)) as [h Hu'].
    { unfold is_inside, ticket_of in *. destruct (t_place u); simpl in *; try discriminate; by eexists. }
    pose proof (ticket_bounds _ _ _ _ u h Hi Hu Hu'). lia. }
  destruct (turn_idle _ _ _ _ Hi Hall) as [Hn Ha].
  replace (u64 (served + 1)) with (u64 (head_value m + 1)) by (by rewrite Hh).
  apply (next_ticket_inv served base m ts1 ts2 t); try done.
  - unfold is_inside. by rewrite Hp.
  - unfold ticket_of. by rewrite Hp.
  - by rewrite Hh.
  - unfold thread_ok. simpl. split_and!; [done|done|]. intros Ho. specialize (Hview Ho eq_refl).
    case_decide; lia.
Qed.

(** The thread inside accesses the data; [next] is 1 if it leaves by that. *)
Lemma access_inv served base m m' ts1 ts2 t t' :
  lock_mem_inv served base m (ts1 ++ t :: ts2) → t_place t = Inside served →
  lm_buffer m' = lm_buffer m → lm_head m' = lm_head m → lm_accesses m' = S (lm_accesses m) →
  lm_race m' = lm_race m || (t_view t <? lm_accesses m) → is_inside t' = true →
  thread_ok served base m' t' →
  lock_mem_inv served base m' (ts1 ++ t' :: ts2).
Proof.
  intros Hi Hp Eb Eh Ea Er Hin Hok.
  assert (ticket_of t = Some served) as Htk by (unfold ticket_of; by rewrite Hp).
  assert (ticket_of t' = Some served) as Htk'.
  { unfold is_inside, ticket_of, thread_ok in *. destruct (t_place t'); simpl in *; naive_solver. }
  assert (head_value m' = head_value m) as Hh by (unfold head_value, newest_head; by rewrite Eh).
  pose proof (λ u, served_alone _ _ _ _ _ _ u Hi Htk) as Hothers.
  pose proof Hi as [Hs Hv Ht Hth Hn Hid Hr]. split.
  - by rewrite Hh.
  - by rewrite Eb.
  - by rewrite Hh, ticket_of_middle, Htk', <-Htk, <-ticket_of_middle.
  - apply (Forall_middle (thread_ok served base m) _ _ _ t); [done| |done].
    intros u Hu. destruct (Hothers u Hu) as [_ Hou]. unfold thread_ok, is_inside in *.
    by destruct (t_place u).
  - intros Hno. unfold thread_ok, is_inside in *. destruct (t_place t') eqn:Hp'; try done.
    + by destruct Hok as (_ & ? & _).
    + by destruct (Hno t' head ltac:(set_solver)).
  - intros Hall. rewrite Forall_app, Forall_cons in Hall. destruct Hall as (_ & Hf & _). congruence.
  - intros Ho. rewrite Er, (Hr Ho). simpl. apply Nat.ltb_ge. rewrite Forall_app, Forall_cons in Hth.
    destruct Hth as (_ & Htt & _). unfold thread_ok in Htt. rewrite Hp in Htt. by apply Htt.
Qed.

Lemma publish_next_inv served base m ts1 ts2 t h :
  lock_mem_inv served base m (ts1 ++ t :: ts2) → t_place t = Leaving h →
  lock_mem_inv (served + 1) (lm_accesses m) (publish_next Size o t m)
    (ts1 ++ mkThread Away (t_view t) (t_pending t) :: ts2).
Proof.
  intros Hi Hp. pose proof (wi_threads _ _ _ _ Hi) as Hth. rewrite Forall_app, Forall_cons in Hth.
  destruct Hth as (_ & Ht & _). unfold thread_ok in Ht. rewrite Hp in Ht.
  destruct Ht as (-> & Hnext & Hview).
  assert (ticket_of t = Some served) as Htk by (unfold ticket_of; by rewrite Hp).
  pose proof (λ u, served_alone _ _ _ _ _ _ u Hi Htk) as Hothers.
  destruct (ticket_bounds _ _ _ _ t served Hi) as [_ Hlt]; [set_solver|done|].
  pose proof Hi as [Hs Hv Htks Hth Hn Hid Hr]. split; cbn [publish_next lm_accesses lm_race lm_next].
  - unfold head_value, newest_head in *. simpl. lia.
  - intros i msgs x Hl Hx. unfold publish_next in Hl. cbn [lm_buffer] in Hl.
    assert (x = mkLmsg (lm_next m) (if decide (lo_store o = release) then t_view t else 0) ∨
      ∃ msgs', lm_buffer m !! i = Some msgs' ∧ x ∈ msgs') as [->|(msgs' & Hm & Hx')].
    { rewrite list_lookup_alter in Hl. case_decide; [subst i|by eauto].
      apply fmap_Some in Hl as (msgs' & Hm & ->).
      apply elem_of_app in Hx as [Hx| ->%list_elem_of_singleton]; eauto. }
    + simpl. split; [lia|]. intros Ho _. specialize (Hview Ho). destruct Ho as (_ & -> & _).
      by rewrite decide_True.
    + destruct (Hv _ _ _ Hm Hx') as [? _]. split; [lia|]. intros _ ?. lia.
  - rewrite ticket_of_middle in Htks |- *. rewrite Htk in Htks. simpl in *.
    change (head_value (publish_next Size o t m)) with (head_value m).
    rewrite seqZ_cons in Htks by lia. apply Permutation_cons_inv in Htks. rewrite Htks.
    f_equiv; lia.
  - apply (Forall_middle (thread_ok served base m) _ _ _ t); [done| |done].
    intros u Hu. destruct (Hothers u Hu) as [Hno Hou]. unfold thread_ok, is_inside, ticket_of in *.
    destruct (t_place u); simpl in *; try done; [naive_solver|].
    intros (? & ? & ?). split_and!; [done|lia|lia|]. intros _ ?. lia.
  - intros _. lia.
  - done.
  - done.
Qed.

Lemma lock_mem_step_inv served base m ts m' ts' :
  lock_mem_step Size o use_try (m, ts) (m', ts') → (head_value m + 1 < u64_modulus)%Z →
  lock_mem_inv served base m ts →
  (head_value m' ≤ head_value m + 1)%Z ∧ ∃ served' base', lock_mem_inv served' base' m' ts'.
Proof.
  intros Hstep Hw Hi. inversion Hstep as [a t t' m1 m1' ts1 ts2 Hact]; subst. clear Hstep.
  assert (head_value (update_head (u64 (head_value m + 1)) m) = head_value m + 1)%Z as Hup.
  { unfold head_value at 1, newest_head, update_head. cbn [lm_head]. rewrite last_snoc.
    apply u64_small. pose proof (wi_served _ _ _ _ Hi). unfold is_u64. lia. }
  destruct a, (t_place t) eqn:Hp; unfold lock_act in Hact; rewrite Hp in Hact; cbv zeta in Hact;
    fold (head_value m) in Hact; try discriminate.
  - simplify_eq. split; [rewrite Hup; lia|]. exists served, base.
    apply (next_ticket_inv served base m ts1 ts2 t); try done;
      [unfold is_inside; by rewrite Hp|unfold ticket_of; by rewrite Hp].
  - apply bind_Some in Hact as (x & Hx & Hact). simplify_eq. split; [lia|].
    exists served, base. by eapply spin_inv.
  - simplify_eq. split; [lia|]. exists served, base. by eapply fence_inv.
  - destruct use_try eqn:Hu; [|done]. apply bind_Some in Hact as (x & Hx & Hact). simplify_eq.
    split; [lia|]. exists served, base.
    apply (keep_ticket_inv served base _ ts1 ts2 t); try done;
      [unfold is_inside; by rewrite Hp|unfold ticket_of; by rewrite Hp].
  - apply bind_Some in Hact as (x & Hx & Hact). simplify_eq. split; [lia|].
    exists served, base. by eapply check_inv.
  - apply bind_Some in Hact as (x & Hx & Hact). case_decide; [done|]. simplify_eq.
    split; [lia|]. exists served, base.
    apply (keep_ticket_inv served base _ ts1 ts2 t); try done;
      [unfold is_inside; by rewrite Hp|unfold ticket_of; by rewrite Hp].
  - case_decide as Hd; [|done]. simplify_eq. split; [rewrite Hup; lia|]. exists served, base.
    by apply exchange_inv.
  - unfold leave, access in Hact. simplify_eq.
    split; [unfold head_value, newest_head; simpl; lia|]. exists served, base.
    pose proof (wi_threads _ _ _ _ Hi) as Hth. rewrite Forall_app, Forall_cons in Hth.
    destruct Hth as (_ & Ht & _). unfold thread_ok in Ht. rewrite Hp in Ht. destruct Ht as (-> & Hn & _).
    apply (access_inv served base m _ ts1 ts2 t); try done.
    + unfold is_inside. simpl. by rewrite Hp.
    + unfold thread_ok. simpl. by rewrite Hp.
  - unfold leave, access in Hact. simplify_eq.
    split; [unfold head_value, newest_head; simpl; lia|]. exists served, base.
    pose proof (wi_threads _ _ _ _ Hi) as Hth. rewrite Forall_app, Forall_cons in Hth.
    destruct Hth as (_ & Ht & _). unfold thread_ok in Ht. rewrite Hp in Ht. destruct Ht as (-> & Hn & _).
    apply (access_inv served base m _ ts1 ts2 t); try done.
    unfold thread_ok. simpl. split_and!; [done| |done]. rewrite Hn. apply u64_small.
    pose proof (wi_served _ _ _ _ Hi). unfold is_u64. lia.
  - simplify_eq. split; [unfold head_value, newest_head; simpl; lia|].
    exists (served + 1)%Z, (lm_accesses m). by eapply publish_next_inv.
Qed.

Lemma lock_mem_run_inv n k s :
  nsteps (lock_mem_step Size o use_try) k (new_lock_memory Size, replicate n new_thread) s →
  (Z.of_nat k < u64_modulus)%Z →
  (head_value s.1 ≤ Z.of_nat k)%Z ∧ ∃ served base, lock_mem_inv served base s.1 s.2.
Proof.
  revert s. induction k as [|k IH]; intros s Hrun Hk.
  - inversion Hrun; subst. split; [done|]. exists 0%Z, 0. apply new_lock_memory_inv.
  - apply nsteps_inv_r in Hrun as ([m ts] & Hrun & Hstep).
    destruct (IH _ Hrun) as (Hh & served & base & Hi); [lia|]. simpl in *. destruct s as [m' ts'].
    destruct (lock_mem_step_inv served base m ts m' ts' Hstep) as [Hh' Hi']; [lia|done|].
    split; [simpl; lia|done].
Qed.

Lemma inside_unique n k s i j t u :
  nsteps (lock_mem_step Size o use_try) k (new_lock_memory Size, replicate n new_thread) s →
  (Z.of_nat k < u64_modulus)%Z → s.2 !! i = Some t → s.2 !! j = Some u →
  is_inside t = true → is_inside u = true → i = j.
Proof.
  intros Hrun Hk Ht Hu Hit Hiu. destruct (lock_mem_run_inv n k s Hrun Hk) as (_ & served & base & Hi).
  pose proof (wi_threads _ _ _ _ Hi) as Hth. rewrite Forall_lookup in Hth.
  assert (∀ i t, s.2 !! i = Some t → is_inside t = true → ticket_of t = Some served) as Htk.
  { intros i' t' Hi' Hin. specialize (Hth _ _ Hi'). unfold thread_ok, is_inside, ticket_of in *.
    destruct (t_place t'); simpl in *; naive_solver. }
  apply (NoDup_omap_index ticket_of s.2 i j t u served); eauto.
  rewrite (wi_tickets _ _ _ _ Hi). apply NoDup_seqZ.
Qed.
End lock_memory_proofs.

(** ** Properties *)

(** C28: with the memory orders of the code, threads that enter by [lock], as all
    of the library do, exclude each other however old the values are that they
    load, and everything a thread does to the protected data (and to [_next])
    inside happens after all that earlier threads did inside: no data race. *)
Theorem critical_sections_ordered Size n k s :
  0 < Size →
  nsteps (lock_mem_step Size code_lock_orders false) k
    (new_lock_memory Size, replicate n new_thread) s →
  (Z.of_nat k < u64_modulus)%Z →
  lm_race s.1 = false ∧
  ∀ i j t u, s.2 !! i = Some t → s.2 !! j = Some u →
    inside (t_place t) = true → inside (t_place u) = true → i = j.
Proof.
  intros Hsize Hrun Hk. split.
  - destruct (lock_mem_run_inv Size code_lock_orders false Hsize n k s Hrun Hk) as (_ & served & base & Hi).
    by apply Hi.
  - intros i j t u Ht Hu Hit Hiu.
    by apply (inside_unique Size code_lock_orders false Hsize n k s i j t u).
Qed.

(** With an acquire load in [try_lock] the same would hold for it. *)
Definition acquire_check : lock_orders := mkLockOrders acquire acquire acquire release.

Lemma acquire_check_ordered Size n k s :
  0 < Size →
  nsteps (lock_mem_step Size acquire_check true) k
    (new_lock_memory Size, replicate n new_thread) s →
  (Z.of_nat k < u64_modulus)%Z → lm_race s.1 = false.
Proof.
  intros Hsize Hrun Hk.
  destruct (lock_mem_run_inv Size acquire_check true Hsize n k s Hrun Hk) as (_ & served & base & Hi).
  by apply Hi.
Qed.

(** The memory after a thread has locked and unlocked once: ticket 1 is at the
    second position of its slot, released after the access to [_next]. *)
Definition released_memory (Size : nat) : lock_memory :=
  mkLM (alter (λ msgs, msgs ++ [mkLmsg 1 1]) (slot Size 1) (replicate Size [mkLmsg 0 0]))
    [mkLmsg 0 0; mkLmsg 1 0] 1 1 false.

Lemma released_msg Size :
  0 < Size → buffer_msg Size 1 1 (released_memory Size) = Some (mkLmsg 1 1).
Proof.
  intros Hsize. unfold buffer_msg, released_memory. cbn [lm_buffer].
  rewrite list_lookup_alter, decide_True by done.
  by rewrite lookup_replicate_2 by by apply slot_lt.
Qed.

(** The steps of the first and of the second of two threads. *)
Lemma step_first Size o b a t t' u m m' s :
  lock_act Size o b a t m = Some (t', m') → rtc (lock_mem_step Size o b) (m', [t'; u]) s →
  rtc (lock_mem_step Size o b) (m, [t; u]) s.
Proof. intros Ha. by apply rtc_l, (lock_mem_thread Size o b a t t' m m' [] [u]). Qed.

Lemma step_second Size o b a t u u' m m' s :
  lock_act Size o b a u m = Some (u', m') → rtc (lock_mem_step Size o b) (m', [t; u']) s →
  rtc (lock_mem_step Size o b) (m, [t; u]) s.
Proof. intros Ha. by apply rtc_l, (lock_mem_thread Size o b a u u' m m' [t] []). Qed.

Lemma lock_unlock_run Size :
  0 < Size →
  rtc (lock_mem_step Size code_lock_orders true)
    (new_lock_memory Size, [new_thread; new_thread])
    (released_memory Size, [mkThread Away 1 0; new_thread]).
Proof.
  intros Hsize. set (buffer := replicate Size [mkLmsg 0 0]).
  set (taken := mkLM buffer [mkLmsg 0 0; mkLmsg 1 0] 0 0 false).
  assert (buffer_msg Size 0 0 taken = Some (mkLmsg 0 0)) as Hb.
  { unfold buffer_msg. cbn [taken lm_buffer]. unfold buffer.
    by rewrite lookup_replicate_2 by by apply slot_lt. }
  apply (step_first _ _ _ Take _ (mkThread (Waiting 0) 0 0) _ _ taken); [done|].
  apply (step_first _ _ _ (Spin 0) _ (mkThread (Fencing 0) 0 0) _ _ taken).
  { cbn -[buffer_msg]. by rewrite Hb. }
  apply (step_first _ _ _ Fence _ (mkThread (Inside 0) 0 0) _ _ taken); [done|].
  apply (step_first _ _ _ Advance _ (mkThread (Leaving 0) 1 0) _ _
    (mkLM buffer [mkLmsg 0 0; mkLmsg 1 0] 1 1 false)); [done|].
  by apply (step_first _ _ _ Publish _ (mkThread Away 1 0) _ _ (released_memory Size)).
Qed.

(** [try_lock] loads the buffer relaxed and has no fence, and its acquire
    exchange is on [_head], which nothing releases: with a lock of any size
    there is a run in which a thread that entered by [try_lock] accesses the
    data without being ordered after the thread that was inside before: a data
    race, on [_next] itself. *)
Theorem try_lock_races Size :
  0 < Size →
  ∃ s, rtc (lock_mem_step Size code_lock_orders true)
    (new_lock_memory Size, [new_thread; new_thread]) s ∧ lm_race s.1 = true.
Proof.
  intros Hsize. pose proof (released_msg Size Hsize) as Hb.
  set (head := [mkLmsg 0 0; mkLmsg 1 0; mkLmsg 2 0]).
  exists (mkLM (lm_buffer (released_memory Size)) head 2 2 true,
    [mkThread Away 1 0; mkThread (Leaving 1) 2 1]). split; [|done].
  etrans; [by apply lock_unlock_run|].
  apply (step_second _ _ _ (TryLoad 1) _ _ (mkThread (TryLoaded 1) 0 0) _ (released_memory Size)); [done|].
  apply (step_second _ _ _ (TryCheck 1) _ _ (mkThread (TryChecked 1) 0 1) _ (released_memory Size)).
  { cbn -[buffer_msg released_memory]. by rewrite Hb. }
  apply (step_second _ _ _ TryExchange _ _ (mkThread (Inside 1) 0 1) _
    (mkLM (lm_buffer (released_memory Size)) head 1 1 false)); [done|].
  by apply (step_second _ _ _ Advance _ _ (mkThread (Leaving 1) 2 1) _
    (mkLM (lm_buffer (released_memory Size)) head 2 2 true)).
Qed.

(** ** An execution *)

Lemma critical_sections_ordered_witness :
  ∃ s, nsteps (lock_mem_step 2 code_lock_orders false) 5
      (new_lock_memory 2, replicate 2 new_thread) s ∧
    lm_accesses s.1 = 2 ∧ lm_race s.1 = false.
Proof.
  assert (∃ s, nsteps (lock_mem_step 2 code_lock_orders false) 5
    (new_lock_memory 2, replicate 2 new_thread) s ∧ lm_accesses s.1 = 2) as (s & Hs & Ha).
  { eexists. split.
    - eapply nsteps_l; [by eapply (lock_mem_thread _ _ _ Take _ _ _ _ [])|].
      eapply nsteps_l; [by eapply (lock_mem_thread _ _ _ (Spin 0) _ _ _ _ [])|].
      eapply nsteps_l; [by eapply (lock_mem_thread _ _ _ Fence _ _ _ _ [])|].
      eapply nsteps_l; [by eapply (lock_mem_thread _ _ _ Access _ _ _ _ [])|].
      eapply nsteps_once. by eapply (lock_mem_thread _ _ _ Advance _ _ _ _ []).
    - reflexivity. }
  exists s. split; [exact Hs|]. split; [exact Ha|].
  exact (proj1 (critical_sections_ordered 2 2 5 s Nat.lt_0_2 Hs eq_refl)).
Defined.

Lemma try_lock_races_witness :
  ∃ s, rtc (lock_mem_step 64 code_lock_orders true)
    (new_lock_memory 64, [new_thread; new_thread]) s ∧ lm_race s.1 = true.
Proof. exact (try_lock_races 64 (Nat.lt_0_succ 63)). Defined.
