(* ===== verification/World.v ===== *)
(** * The environment of the library

    Everything the ticket manager acts on besides its own state: the MPI
    library and the tasking runtime (ALPI), both outside the repository and
    hence parameters; the memory of the user's statuses; the operation objects
    and their allocators; and the queue of the completion manager.  Also the
    parts that talk to the runtime: [TaskContext]
    ([src/src/common/TaskContext.hpp]), the ALPI calls of [TaskingModel]
    ([src/src/common/TaskingModel.hpp]) and [CompletionManager]
    ([src/src/common/CompletionManager.hpp]). *)

From S2P Require Import Prelude ErrorHandler Queues Allocator.

(** ** Data *)

(** Handles and pointers are machine words; the null pointer is 0. *)
Notation request := Z (only parsing).
Notation status := Z (only parsing).
Notation pointer := Z (only parsing).
Notation task_handle_t := Z (only parsing).
Definition nullptr : Z := 0.

(** The non-blocking MPI operations that the library issues, with their
    arguments in the order of the MPI standard (the request excluded). *)
Inductive mpi_call :=
| Isend (buf count datatype dest tag comm : Z)
| Ibsend (buf count datatype dest tag comm : Z)
| Irsend (buf count datatype dest tag comm : Z)
| Issend (buf count datatype dest tag comm : Z)
| Irecv (buf count datatype source tag comm : Z)
| Iallgather (sendbuf sendcount sendtype recvbuf recvcount recvtype comm : Z)
| Iallgatherv (sendbuf sendcount sendtype recvbuf recvcounts displs recvtype comm : Z)
| Iallreduce (sendbuf recvbuf count datatype op comm : Z)
| Ialltoall (sendbuf sendcount sendtype recvbuf recvcount recvtype comm : Z)
| Ialltoallv (sendbuf sendcounts sdispls sendtype recvbuf recvcounts rdispls recvtype comm : Z)
| Ialltoallw (sendbuf sendcounts sdispls sendtypes recvbuf recvcounts rdispls recvtypes comm : Z)
| Ibarrier (comm : Z)
| Ibcast (buffer count datatype root comm : Z)
| Iexscan (sendbuf recvbuf count datatype op comm : Z)
| Igather (sendbuf sendcount sendtype recvbuf recvcount recvtype root comm : Z)
| Igatherv (sendbuf sendcount sendtype recvbuf recvcounts displs recvtype root comm : Z)
| Ireduce (sendbuf recvbuf count datatype op root comm : Z)
| Ireduce_scatter (sendbuf recvbuf recvcounts datatype op comm : Z)
| Ireduce_scatter_block (sendbuf recvbuf recvcount datatype op comm : Z)
| Iscan (sendbuf recvbuf count datatype op comm : Z)
| Iscatter (sendbuf sendcount sendtype recvbuf recvcount recvtype root comm : Z)
| Iscatterv (sendbuf sendcounts displs sendtype recvbuf recvcount recvtype root comm : Z).

#[global] Instance mpi_call_eq_dec : EqDecision mpi_call.
Proof. solve_decision. Defined.

(** The calls into the tasking runtime made on behalf of operations. *)
Inductive alpi_call :=
| TaskBlock (task : task_handle_t)
| TaskUnblock (task : task_handle_t)
| TaskEventsIncrease (task : task_handle_t) (increment : Z)
| TaskEventsDecrease (task : task_handle_t) (decrement : Z).

(** What happened, oldest first: the answers of MPI and of the runtime may
    depend on it, and theorems read off it who was notified. *)
Inductive event :=
| EvIssue (c : mpi_call) (r : request)
| EvTest (requests : list request) (completed : list nat) (statuses : list status)
| EvAlpi (c : alpi_call).

Inductive OpCode :=
| NONE | BSEND | RECV | RSEND | SEND | SSEND
| ALLGATHER | ALLGATHERV | ALLREDUCE | ALLTOALL | ALLTOALLV | ALLTOALLW | BARRIER | BCAST
| EXSCAN | GATHER | GATHERV | REDUCE | REDUCESCATTER | REDUCESCATTERBLOCK | SCAN | SCATTER
| SCATTERV.

Inductive OpNature := BLK | NONBLK.

#[global] Instance OpCode_eq_dec : EqDecision OpCode.
Proof. solve_decision. Defined.
#[global] Instance OpNature_eq_dec : EqDecision OpNature.
Proof. solve_decision. Defined.

(** [struct Operation] *)
Record Operation := mkOperation {
  _task : task_handle_t;
  _status : pointer;
  _buffer : pointer;
  _count : Z;
  _datatype : Z;
  _comm : Z;
  _rank : Z;
  _tag : Z;
  _code : OpCode;
  _nature : OpNature;
}.

(** The anonymous unions of [struct CollOperation]: which member was written. *)
Inductive count_union := Count (n : Z) | Counts (array : pointer).
Inductive type_union := Type_ (t : Z) | Types_ (array : pointer).

(** [struct CollOperation]; a displacement array that the constructor did not
    initialise is [None]. *)
Record CollOperation := mkCollOperation {
  c_task : task_handle_t;
  _sendbuf : pointer;
  _recvbuf : pointer;
  _senddispls : option pointer;
  _recvdispls : option pointer;
  _send_count : count_union;
  _recv_count : count_union;
  _send_type : type_union;
  _recv_type : type_union;
  c_comm : Z;
  c_rank : Z;
  _op : Z;
  c_code : OpCode;
  c_nature : OpNature;
}.

(** [class TaskContext] *)
Record TaskContext := mkContext {
  _blocking : bool;
  _taskHandle : task_handle_t;
}.

#[global] Instance TaskContext_eq_dec : EqDecision TaskContext.
Proof. solve_decision. Defined.

(** ** The tasking runtime *)

(** The error code the runtime returns for a call, given the past, and its
    description of the codes. *)
Class AlpiLib := {
  alpi_error : list event → alpi_call → Z;
  alpi_error_string : Z → string;
}.

(** ** The world *)

Section world.
Context `{SpscLib}.

Record world := mkWorld {
  w_trace : list event;
  w_status : gmap Z status;
  w_p2p : gmap ptr Operation;
  w_coll : gmap ptr CollOperation;
  w_p2pAlloc : Obj.ObjAllocator;
  w_collAlloc : Obj.ObjAllocator;
  w_enabled : bool;
  w_queue : spsc TaskContext;
}.
Implicit Types w : world.

Definition w_log (e : event) w : world :=
  mkWorld (w_trace w ++ [e]) (w_status w) (w_p2p w) (w_coll w) (w_p2pAlloc w)
    (w_collAlloc w) (w_enabled w) (w_queue w).
Definition w_set_status (m : gmap Z status) w : world :=
  mkWorld (w_trace w) m (w_p2p w) (w_coll w) (w_p2pAlloc w) (w_collAlloc w)
    (w_enabled w) (w_queue w).
Definition w_set_p2p (m : gmap ptr Operation) (a : Obj.ObjAllocator) w : world :=
  mkWorld (w_trace w) (w_status w) m (w_coll w) a (w_collAlloc w)
    (w_enabled w) (w_queue w).
Definition w_set_coll (m : gmap ptr CollOperation) (a : Obj.ObjAllocator) w : world :=
  mkWorld (w_trace w) (w_status w) (w_p2p w) m (w_p2pAlloc w) a
    (w_enabled w) (w_queue w).
Definition w_set_queue (q : spsc TaskContext) w : world :=
  mkWorld (w_trace w) (w_status w) (w_p2p w) (w_coll w) (w_p2pAlloc w)
    (w_collAlloc w) (w_enabled w) q.

Context `{AlpiLib}.

(** [ALPISymbol::operator()]: call the runtime and fail on an error code. *)
Definition alpi (name : string) (c : alpi_call) w : outcome world :=
  let err := alpi_error (w_trace w) c in
  if decide (err = 0)%Z then Ok (w_log (EvAlpi c) w)
  else fail [RStr "Failed "; RStr name; RStr ": "; RStr (alpi_error_string err)].

Definition blockCurrentTask (task : task_handle_t) w : outcome world :=
  alpi "alpi_task_block" (TaskBlock task) w.
Definition unblockTask (task : task_handle_t) w : outcome world :=
  alpi "alpi_task_unblock" (TaskUnblock task) w.
Definition increaseCurrentTaskEvents (task : task_handle_t) (increment : Z) w : outcome world :=
  alpi "alpi_task_events_increase" (TaskEventsIncrease task increment) w.
Definition decreaseTaskEvents (task : task_handle_t) (decrement : Z) w : outcome world :=
  alpi "alpi_task_events_decrease" (TaskEventsDecrease task decrement) w.

(** ** TaskContext *)

(** [TaskContext(blocking, taskHandle)] *)
Definition newContext (blocking : bool) (taskHandle : task_handle_t) : outcome TaskContext :=
  _ ← assert (negb (taskHandle =? nullptr)%Z) "taskHandle != nullptr";
  Ok (mkContext blocking taskHandle).

Definition bindEvents (c : TaskContext) (num : Z) w : outcome world :=
  _ ← assert (0 <? num)%Z "num > 0";
  if negb (_blocking c) then increaseCurrentTaskEvents (_taskHandle c) num w else Ok w.

Definition completeEvents (c : TaskContext) (num : Z) (allCompleted : bool) w : outcome world :=
  _ ← assert (0 <? num)%Z "num > 0";
  if negb (_blocking c) then decreaseTaskEvents (_taskHandle c) num w
  else if allCompleted then unblockTask (_taskHandle c) w
  else Ok w.

Definition waitEventsCompletion (c : TaskContext) w : outcome world :=
  _ ← assert (_blocking c) "_blocking";
  blockCurrentTask (_taskHandle c) w.

(** ** CompletionManager *)

Definition isEnabled w : bool := w_enabled w.

Definition transfer (contexts : list TaskContext) w : outcome world :=
  let '(pushed, q) := spsc_push contexts (w_queue w) in
  if decide (pushed = length contexts) then Ok (w_set_queue q w)
  else Fail "Failed to push task contexts".

(** [consume_all]: complete the contexts in queue order. *)
Fixpoint consume_all (contexts : list TaskContext) w : outcome world :=
  match contexts with
  | [] => Ok w
  | c :: contexts => w ← completeEvents c 1 true w; consume_all contexts w
  end.

Definition process w : outcome (nat * world) :=
  if spsc_read_available (w_queue w) =? 0 then Ok (0, w)
  else
    let '(contexts, q) := spsc_pop (spsc_read_available (w_queue w)) (w_queue w) in
    w ← consume_all contexts (w_set_queue q w);
    Ok (length contexts, w).
End world.

(** ** Who has been notified *)

(** The contexts whose waiting an event ends: a blocking task is unblocked, a
    non-blocking one loses some of its pending events. *)
Definition event_contexts (e : event) : list TaskContext :=
  match e with
  | EvAlpi (TaskUnblock t) => [mkContext true t]
  | EvAlpi (TaskEventsDecrease t n) => replicate (Z.to_nat n) (mkContext false t)
  | _ => []
  end.

Definition notified (trace : list event) : list TaskContext := trace ≫= event_contexts.

(** The events a task bound before it delegated its operations. *)
Definition event_bound (e : event) : list TaskContext :=
  match e with
  | EvAlpi (TaskEventsIncrease t n) => replicate (Z.to_nat n) (mkContext false t)
  | _ => []
  end.

Definition bound (trace : list event) : list TaskContext := trace ≫= event_bound.

(** The operations handed to MPI, with the requests it returned. *)
Definition event_issues (e : event) : list (mpi_call * request) :=
  match e with EvIssue c r => [(c, r)] | _ => [] end.

Definition issues (trace : list event) : list (mpi_call * request) := trace ≫= event_issues.

(** The requests that MPI reported as completed, with their statuses. *)
Definition reported (reqs : list request) (completed : list nat) (sts : list status) :
    list (request * status) := zip (omap (reqs !!.) completed) sts.

Definition event_reports (e : event) : list (request * status) :=
  match e with
  | EvTest reqs completed sts => reported reqs completed sts
  | _ => []
  end.

Definition reports (trace : list event) : list (request * status) := trace ≫= event_reports.

Section deliveries.
Context `{SpscLib, AlpiLib}.
Implicit Types w : world.

(** Completions handed over: the runtime was told, or the completion task
    will tell it. *)
Definition delivered w : list TaskContext :=
  notified (w_trace w) ++ spsc_contents (w_queue w).

(** The parts of the world that completing operations leaves alone. *)
Definition same_objects w w' : Prop :=
  w_p2p w' = w_p2p w ∧ w_coll w' = w_coll w ∧ w_p2pAlloc w' = w_p2pAlloc w ∧
  w_collAlloc w' = w_collAlloc w ∧ w_enabled w' = w_enabled w.

#[export] Instance same_objects_preorder : PreOrder same_objects.
Proof.
  split.
  - intros w. by split_and!.
  - intros w1 w2 w3 (?&?&?&?&?) (?&?&?&?&?). unfold same_objects. split_and!; congruence.
Qed.

Definition alpi_ok : Prop := ∀ t c, alpi_error t c = 0%Z.
End deliveries.
#[export] Hint Extern 0 (same_objects _ _) => reflexivity : tampi.

Section delivery_proofs.
Context `{SpscLib, !SpscLaws, AlpiLib}.
Implicit Types w : world.

Lemma notified_app t1 t2 : notified (t1 ++ t2) = notified t1 ++ notified t2.
Proof. apply bind_app. Qed.

Lemma issues_app t1 t2 : issues (t1 ++ t2) = issues t1 ++ issues t2.
Proof. apply bind_app. Qed.

Lemma reports_app t1 t2 : reports (t1 ++ t2) = reports t1 ++ reports t2.
Proof. apply bind_app. Qed.

Lemma bound_app t1 t2 : bound (t1 ++ t2) = bound t1 ++ bound t2.
Proof. apply bind_app. Qed.

(** An event that notifies a task does nothing else. *)
Lemma notifying_quiet e c :
  event_contexts (EvAlpi e) = [c] → event_bound (EvAlpi e) = [].
Proof. by destruct e. Qed.

Lemma alpi_post F name c w :
  F ∨ alpi_ok → post F (λ w', w' = w_log (EvAlpi c) w) (alpi name c w).
Proof.
  intros HF. unfold alpi. case_decide as Hc; [done|]. simpl.
  destruct HF as [|Hok]; [done|]. by destruct Hc.
Qed.

(** Completing one event of a task notifies exactly that task. *)
Lemma completeEvents_post F c w :
  F ∨ alpi_ok →
  post F (λ w', ∃ e, w' = w_log (EvAlpi e) w ∧ event_contexts (EvAlpi e) = [c])
    (completeEvents c 1 true w).
Proof.
  intros HF. unfold completeEvents. simpl. destruct c as [[] t]; simpl.
  - eapply post_mono; [by apply alpi_post|]. intros w' ->. by eexists.
  - eapply post_mono; [by apply alpi_post|]. intros w' ->. by eexists.
Qed.

Lemma delivered_log e c w :
  event_contexts e = [c] → delivered (w_log e w) ≡ₚ c :: delivered w.
Proof.
  intros He. unfold delivered. simpl. rewrite notified_app. unfold notified at 2. simpl.
  rewrite He. solve_Permutation.
Qed.

Lemma transfer_post F cs w :
  (F ∨ length cs ≤ spsc_capacity (w_queue w) - length (spsc_contents (w_queue w))) →
  post F (λ w', ∃ q, w' = w_set_queue q w ∧ spsc_contents q = spsc_contents (w_queue w) ++ cs ∧
            spsc_capacity q = spsc_capacity (w_queue w))
    (transfer cs w).
Proof.
  intros HF. unfold transfer. pose proof (spsc_push_spec cs (w_queue w)) as (Hp & Hc & Hcap).
  destruct (spsc_push cs (w_queue w)) as [pushed q]; cbn [fst snd] in *.
  case_decide as Hd; simpl.
  - exists q. split_and!; try done. rewrite Hc, <-Hp, Hd. by rewrite take_ge.
  - destruct HF; [done|]. lia.
Qed.

Lemma consume_all_post F cs w :
  F ∨ alpi_ok →
  post F (λ w', ∃ es, w_trace w' = w_trace w ++ es ∧ notified es = cs ∧
            (issues es = [] ∧ reports es = [] ∧ bound es = []) ∧ same_objects w w' ∧ w_status w' = w_status w ∧ w_queue w' = w_queue w)
    (consume_all cs w).
Proof.
  intros HF. revert w. induction cs as [|c cs IH]; intros w.
  { simpl. exists []. rewrite app_nil_r. split_and!; auto with tampi. }
  eapply post_bind; [by apply completeEvents_post|]. intros ? _ (e & -> & He).
  pose proof (notifying_quiet e c He) as Hb.
  eapply post_mono; [apply IH|]. intros w' (es & Htr & Hes & (Hi & Hr & Hbs) & Hsame & Hst & Hq).
  cbn [w_trace w_log] in Htr.
  exists (EvAlpi e :: es). rewrite Htr, <-app_assoc. split_and!; try done.
  - change (event_contexts (EvAlpi e) ++ notified es = c :: cs). by rewrite He, Hes.
  - change (event_bound (EvAlpi e) ++ bound es = []). by rewrite Hb, Hbs.
Qed.

Lemma process_post F w :
  F ∨ alpi_ok →
  post F (λ '(n, w'), n = length (spsc_contents (w_queue w)) ∧
            spsc_contents (w_queue w') = [] ∧
            (∃ es, w_trace w' = w_trace w ++ es ∧ notified es = spsc_contents (w_queue w) ∧
               issues es = [] ∧ reports es = [] ∧ bound es = []) ∧
            same_objects w w' ∧ w_status w' = w_status w)
    (process w).
Proof.
  intros HF. unfold process. rewrite spsc_read_available_spec.
  destruct (Nat.eqb_spec (length (spsc_contents (w_queue w))) 0) as [Hz|Hz].
  { simpl. split_and!; [done|by apply nil_length_inv| |done|done].
    exists []. rewrite app_nil_r. apply nil_length_inv in Hz. by rewrite Hz. }
  pose proof (spsc_pop_spec (length (spsc_contents (w_queue w))) (w_queue w)) as (Hp & Hc & _).
  destruct (spsc_pop _ _) as [cs q]; cbn [fst snd] in *.
  rewrite take_ge in Hp by done. rewrite drop_ge in Hc by done. subst cs.
  eapply post_bind; [by apply consume_all_post|]. intros w' _ (es & Htr & Hes & Hquiet & Hsame & Hst & Hq).
  simpl in *. split_and!; [done|by rewrite Hq| |exact Hsame|exact Hst]. by exists es.
Qed.
End delivery_proofs.
