(* ===== verification/Interface.v ===== *)
(** * The MPI interface

    The MPI library as a parameter with its documented behaviour, the wrappers
    of [Interface<C>] that test requests ([src/src/common/Interface.hpp]), and
    the testing approaches of the ticket manager
    ([TicketManager::internalTestRequests],
    [src/src/common/TicketManager.hpp]). *)

From S2P Require Import Prelude Queues Allocator World.

(** ** The MPI library *)

(** Results of [MPI_Test], [MPI_Testany] and [MPI_Testsome]: the error code and
    the out parameters.  [None] stands for [MPI_UNDEFINED]. *)
Record test_out := { to_err : Z; to_flag : bool; to_request : request; to_status : status }.
Record testany_out := { ta_err : Z; ta_index : option nat; ta_flag : bool;
  ta_requests : list request; ta_status : status }.
Record testsome_out := { ts_err : Z; ts_outcount : option nat; ts_indices : list nat;
  ts_requests : list request; ts_statuses : list status }.

(** The calls the library makes, as functions of what happened before. *)
Class MpiLib := {
  MPI_REQUEST_NULL : request;
  MPI_STATUS_IGNORE : pointer;
  mpi_issue : list event → mpi_call → Z * request;
  mpi_test : list event → request → test_out;
  mpi_testany : list event → list request → testany_out;
  mpi_testsome : list event → list request → testsome_out;
}.

(** [MPI_SUCCESS] is zero in every MPI library. *)
Definition MPI_SUCCESS : Z := 0.

(** What a test does to its requests: the completed ones become null. *)
Definition marked `{MpiLib} (completed : list nat) (reqs reqs' : list request) : Prop :=
  length reqs' = length reqs ∧
  ∀ i, i < length reqs →
    reqs' !! i = if decide (i ∈ completed) then Some MPI_REQUEST_NULL else reqs !! i.

(** The MPI standard's description of the three test functions, for arrays of
    active requests and successful calls. *)
Class MpiLaws `{MpiLib} := {
  mpi_test_law t r :
    r ≠ MPI_REQUEST_NULL → to_err (mpi_test t r) = MPI_SUCCESS →
    to_request (mpi_test t r) = if to_flag (mpi_test t r) then MPI_REQUEST_NULL else r;
  mpi_testany_law t reqs :
    Forall (λ r, r ≠ MPI_REQUEST_NULL) reqs → reqs ≠ [] →
    ta_err (mpi_testany t reqs) = MPI_SUCCESS →
    if ta_flag (mpi_testany t reqs) then
      ∃ i, ta_index (mpi_testany t reqs) = Some i ∧ i < length reqs ∧
        marked [i] reqs (ta_requests (mpi_testany t reqs))
    else ta_requests (mpi_testany t reqs) = reqs;
  mpi_testsome_law t reqs :
    Forall (λ r, r ≠ MPI_REQUEST_NULL) reqs → reqs ≠ [] →
    ts_err (mpi_testsome t reqs) = MPI_SUCCESS →
    ts_outcount (mpi_testsome t reqs) = Some (length (ts_indices (mpi_testsome t reqs))) ∧
    length (ts_statuses (mpi_testsome t reqs)) = length (ts_indices (mpi_testsome t reqs)) ∧
    NoDup (ts_indices (mpi_testsome t reqs)) ∧
    Forall (λ i, i < length reqs) (ts_indices (mpi_testsome t reqs)) ∧
    marked (ts_indices (mpi_testsome t reqs)) reqs (ts_requests (mpi_testsome t reqs));
}.

(** An MPI library whose [MPI_Testsome] returns ascending indices.  The standard
    does not order them, so this is not one of the laws. *)
Definition TestsomeAscending `{MpiLib} : Prop :=
  ∀ t reqs, StronglySorted lt (ts_indices (mpi_testsome t reqs)).

(** No MPI call fails. *)
Definition mpi_ok `{MpiLib} : Prop :=
  (∀ t c, (mpi_issue t c).1 = MPI_SUCCESS) ∧
  (∀ t r, to_err (mpi_test t r) = MPI_SUCCESS) ∧
  (∀ t rs, ta_err (mpi_testany t rs) = MPI_SUCCESS) ∧
  (∀ t rs, ts_err (mpi_testsome t rs) = MPI_SUCCESS).

Section interface.
Context `{SpscLib, MpiLib}.
Implicit Types w : world.

(** Constants set by [Interface<C>::initialize]. *)
Definition REQUEST_NULL : request := MPI_REQUEST_NULL.
Definition STATUS_IGNORE : pointer := MPI_STATUS_IGNORE.
Definition STATUSES_IGNORE : pointer := MPI_STATUS_IGNORE.

(** [Interface<C>::test]: whether the request completed, its new value and
    the status. *)
Definition test (r : request) w : outcome (bool * request * status * world) :=
  let o := mpi_test (w_trace w) r in
  _ ← fail_if (bool_decide (to_err o ≠ MPI_SUCCESS)) "Unexpected return code from MPI_Test";
  Ok (to_flag o, to_request o, to_status o,
      w_log (EvTest [r] (if to_flag o then [0] else []) (if to_flag o then [to_status o] else [])) w).

(** [Interface<C>::testany]; [None] says that no request completed. *)
Definition testany (reqs : list request) w :
    outcome (option nat * list request * status * world) :=
  let o := mpi_testany (w_trace w) reqs in
  _ ← fail_if (bool_decide (ta_err o ≠ MPI_SUCCESS)) "Unexpected return code from MPI_Testany";
  if ta_flag o then
    match ta_index o with
    | None => Fail "Unexpected output from MPI_Testany"
    | Some i => Ok (Some i, ta_requests o, ta_status o, w_log (EvTest reqs [i] [ta_status o]) w)
    end
  else Ok (None, ta_requests o, ta_status o, w_log (EvTest reqs [] []) w).

(** [Interface<C>::testsome]: the completed indices with their statuses. *)
Definition testsome (reqs : list request) w :
    outcome (list nat * list request * list status * world) :=
  let o := mpi_testsome (w_trace w) reqs in
  _ ← fail_if (bool_decide (ts_err o ≠ MPI_SUCCESS)) "Unexpected return code from MPI_Testsome";
  match ts_outcount o with
  | None => Fail "Unexpected output from MPI_Testsome"
  | Some completed =>
      let indices := take completed (ts_indices o) in
      let statuses := take completed (ts_statuses o) in
      Ok (indices, ts_requests o, statuses, w_log (EvTest reqs indices statuses) w)
  end.

(** ** Testing approaches *)

Inductive TestingApproach := Test | TestSome | TestAny | None_.

#[global] Instance TestingApproach_eq_dec : EqDecision TestingApproach.
Proof. solve_decision. Defined.

(** The approaches that return ascending indices, on which the compaction of the
    arrays relies: TestSome only with a library that does, TestAny and Test with
    every MPI library. *)
Definition orderly (approach : TestingApproach) : Prop := approach = TestSome → TestsomeAscending.

(** [while (cont && processed < count)] of the TestAny approach; [processed]
    requests are behind, [indices] and [statuses] filled so far. *)
Fixpoint testany_loop (fuel processed : nat) (reqs : list request) (indices : list nat)
    (statuses : list status) w : outcome (list nat * list request * list status * world) :=
  if length reqs <=? processed then Ok (indices, reqs, statuses, w) else
  match fuel with
  | 0 => Undef "internalTestRequests does not terminate"
  | S fuel =>
      '(found, rest, st, w) ← testany (drop processed reqs) w;
      let reqs := take processed reqs ++ rest in
      match found with
      | None => Ok (indices, reqs, statuses, w)
      | Some index =>
          let index := index + processed in
          testany_loop fuel (index + 1) reqs (indices ++ [index]) (statuses ++ [st]) w
      end
  end.

(** [for (r = 0; r < count; ++r)] of the Test approach; [r] requests were
    tested, [todo] are left. *)
Fixpoint test_loop (r : nat) (done todo : list request) (indices : list nat)
    (statuses : list status) w : outcome (list nat * list request * list status * world) :=
  match todo with
  | [] => Ok (indices, done, statuses, w)
  | req :: todo =>
      '(flag, req, st, w) ← test req w;
      if (flag : bool) then
        test_loop (S r) (done ++ [req]) todo (indices ++ [r]) (statuses ++ [st]) w
      else test_loop (S r) (done ++ [req]) todo indices statuses w
  end.

(** The requests that completed, as indices into [reqs], the array of
    requests after the test, and the statuses of the completed requests. *)
Definition internalTestRequests (approach : TestingApproach) (reqs : list request) w :
    outcome (list nat * list request * list status * world) :=
  match approach with
  | TestSome => testsome reqs w
  | TestAny => testany_loop (length reqs) 0 reqs [] [] w
  | Test => test_loop 0 [] reqs [] [] w
  | None_ => Ok ([], reqs, [], w)
  end.
End interface.

(** ** What a test establishes *)

(** The result of testing [reqs]: distinct indices in range, one status for
    each, and exactly those requests set to null. *)
Record tested `{MpiLib} (reqs : list request) (indices : list nat) (reqs' : list request)
    (statuses : list status) : Prop := {
  tested_nodup : NoDup indices;
  tested_range : Forall (λ i, i < length reqs) indices;
  tested_statuses : length statuses = length indices;
  tested_marked : marked indices reqs reqs';
}.

(** A test only adds test events to the trace; they report [rep]. *)
Definition only_tests `{SpscLib} (w w' : world) (rep : list (request * status)) : Prop :=
  (∃ es, w_trace w' = w_trace w ++ es ∧ notified es = [] ∧ issues es = [] ∧ bound es = [] ∧
     reports es = rep) ∧
  same_objects w w' ∧ w_status w' = w_status w ∧ w_queue w' = w_queue w.

Section testing_proofs.
Context `{SpscLib, MpiLib, !MpiLaws}.
Implicit Types w : world.

Lemma only_tests_refl w : only_tests w w [].
Proof. split_and!; try done. exists []. by rewrite app_nil_r. Qed.

Lemma only_tests_trans w1 w2 w3 rep rep' :
  only_tests w1 w2 rep → only_tests w2 w3 rep' → only_tests w1 w3 (rep ++ rep').
Proof.
  intros ((es & He & Hn & Hi & Hb & Hr) & ? & ? & ?) ((es' & He' & Hn' & Hi' & Hb' & Hr') & ? & ? & ?).
  split_and!; [|by etransitivity|congruence..].
  exists (es ++ es'). rewrite He', He, notified_app, issues_app, reports_app, bound_app.
  by rewrite Hn, Hn', Hi, Hi', Hb, Hb', Hr, Hr', app_assoc.
Qed.

Lemma only_tests_log w rs ix sts :
  only_tests w (w_log (EvTest rs ix sts) w) (event_reports (EvTest rs ix sts)).
Proof.
  split_and!; try done. exists [EvTest rs ix sts]. split_and!; try done.
  unfold reports. cbn [mbind list_bind]. by rewrite app_nil_r.
Qed.

Lemma marked_nil reqs reqs' : marked [] reqs reqs' → reqs' = reqs.
Proof.
  intros [Hlen Hm]. apply list_eq. intros i. destruct (decide (i < length reqs)).
  - rewrite Hm by done. by rewrite decide_False by set_solver.
  - rewrite !lookup_ge_None_2 by lia. done.
Qed.

Lemma marked_refl reqs : marked [] reqs reqs.
Proof. split; [done|]. intros i _. by rewrite decide_False by set_solver. Qed.

Lemma testsome_post F reqs w :
  F ∨ mpi_ok → Forall (λ r, r ≠ MPI_REQUEST_NULL) reqs → reqs ≠ [] →
  post F (λ '(ix, reqs', sts, w'), tested reqs ix reqs' sts ∧
      only_tests w w' (reported reqs ix sts) ∧ (TestsomeAscending → StronglySorted lt ix))
    (testsome reqs w).
Proof.
  intros HF Hact Hne. unfold testsome. apply post_fail_if.
  { intros Herr%bool_decide_eq_true. destruct HF as [|(_ & _ & _ & Hok)]; [done|]. by destruct Herr. }
  intros Herr%bool_decide_eq_false. apply dec_stable in Herr.
  destruct (mpi_testsome_law (w_trace w) reqs Hact Hne Herr) as (-> & Hst & Hnd & Hr & Hm).
  rewrite !take_ge by lia. simpl. split_and!; [by split|apply only_tests_log|].
  intros Hasc. apply Hasc.
Qed.

Lemma test_post F r w :
  F ∨ mpi_ok → r ≠ MPI_REQUEST_NULL →
  post F (λ '(flag, r', st, w'), only_tests w w' (if (flag : bool) then [(r, st)] else []) ∧
      r' = if (flag : bool) then MPI_REQUEST_NULL else r)
    (test r w).
Proof.
  intros HF Hne. unfold test. apply post_fail_if.
  { intros Herr%bool_decide_eq_true. destruct HF as [|(_ & Hok & _ & _)]; [done|]. by destruct Herr. }
  intros Herr%bool_decide_eq_false. apply dec_stable in Herr. simpl.
  split; [|by apply mpi_test_law].
  pose proof (only_tests_log w [r] (if to_flag (mpi_test (w_trace w) r) then [0] else [])
    (if to_flag (mpi_test (w_trace w) r) then [to_status (mpi_test (w_trace w) r)] else [])) as Hl.
  by destruct (to_flag _).
Qed.

Lemma testany_post F reqs w :
  F ∨ mpi_ok → Forall (λ r, r ≠ MPI_REQUEST_NULL) reqs → reqs ≠ [] →
  post F (λ '(i, reqs', st, w'),
      match i with
      | None => reqs' = reqs ∧ only_tests w w' []
      | Some i => i < length reqs ∧ marked [i] reqs reqs' ∧ only_tests w w' (reported reqs [i] [st])
      end)
    (testany reqs w).
Proof.
  intros HF Hact Hne. unfold testany. apply post_fail_if.
  { intros Herr%bool_decide_eq_true. destruct HF as [|(_ & _ & Hok & _)]; [done|]. by destruct Herr. }
  intros Herr%bool_decide_eq_false. apply dec_stable in Herr.
  pose proof (mpi_testany_law (w_trace w) reqs Hact Hne Herr) as Hlaw.
  destruct (ta_flag _).
  - destruct Hlaw as (i & -> & Hi & Hm). simpl. split_and!; [done..|apply only_tests_log].
  - simpl. split; [done|apply only_tests_log].
Qed.

(** Completing one more request behind all completed so far. *)
Lemma tested_step reqs ix reqs' sts p i rest st :
  tested reqs ix reqs' sts → Forall (λ i, i < p) ix → p ≤ length reqs →
  i < length reqs - p → marked [i] (drop p reqs') rest →
  tested reqs (ix ++ [i + p]) (take p reqs' ++ rest) (sts ++ [st]).
Proof.
  intros [Hs Hr Hst [Hlen Hm]] Hlt Hp Hi [Hlr Hmr]. rewrite length_drop in Hlr, Hmr.
  split.
  - apply NoDup_app. split_and!; [done| |apply NoDup_singleton]. rewrite Forall_forall in Hlt.
    intros j Hj ->%list_elem_of_singleton. specialize (Hlt _ Hj). lia.
  - apply Forall_app. split; [done|]. constructor; [lia|done].
  - rewrite !length_app. simpl. lia.
  - split; [rewrite length_app, length_take; lia|]. intros j Hj.
    destruct (decide (j < p)).
    + rewrite lookup_app_l, lookup_take_lt, Hm by (rewrite ?length_take; lia).
      repeat case_decide; set_solver by lia.
    + rewrite lookup_app_r; rewrite length_take, Nat.min_l by lia; [|lia].
      rewrite Hmr by lia. rewrite lookup_drop. replace (p + (j - p)) with j by lia.
      rewrite Hm by done. rewrite Forall_forall in Hlt.
      destruct (decide (j ∈ ix)) as [Hin|]; [specialize (Hlt j Hin); lia|].
      repeat case_decide; set_solver by lia.
Qed.

(** The report of that request extends the report of the others. *)
Lemma reported_step reqs ix reqs' sts p i st :
  tested reqs ix reqs' sts → Forall (λ i, i < p) ix → i < length reqs - p →
  reported reqs (ix ++ [i + p]) (sts ++ [st]) =
    reported reqs ix sts ++ reported (drop p reqs') [i] [st].
Proof.
  intros [Hs Hr Hst [Hlen Hm]] Hlt Hi. unfold reported. rewrite omap_app, zip_with_app.
  2:{ rewrite omap_length_Some; [done|]. intros j Hj. rewrite Forall_forall in Hr.
      apply lookup_lt_is_Some. by apply Hr. }
  f_equal. f_equal. csimpl. rewrite lookup_drop, (Nat.add_comm p i), Hm by lia.
  rewrite decide_False; [done|]. intros Hin. rewrite Forall_forall in Hlt.
  specialize (Hlt _ Hin). lia.
Qed.

(** The requests not yet looked at are still active. *)
Lemma tested_rest_active reqs ix reqs' sts p :
  tested reqs ix reqs' sts → Forall (λ i, i < p) ix →
  Forall (λ r, r ≠ MPI_REQUEST_NULL) reqs →
  Forall (λ r, r ≠ MPI_REQUEST_NULL) (drop p reqs').
Proof.
  intros [_ _ _ [Hlen Hm]] Hlt Hact. apply Forall_lookup. intros j r. rewrite lookup_drop.
  intros Hj. pose proof (lookup_lt_Some _ _ _ Hj). rewrite Hm in Hj by lia.
  rewrite Forall_forall in Hlt. case_decide as Hin; [specialize (Hlt _ Hin); lia|].
  by eapply (Forall_lookup_1 _ _ _ _ Hact).
Qed.

Lemma testany_loop_post F fuel p reqs reqs' ix sts w w0 :
  F ∨ mpi_ok → Forall (λ r, r ≠ MPI_REQUEST_NULL) reqs →
  tested reqs ix reqs' sts → Forall (λ i, i < p) ix → length reqs ≤ fuel + p →
  only_tests w0 w (reported reqs ix sts) → StronglySorted lt ix →
  post F (λ '(ix', reqs'', sts', w'), tested reqs ix' reqs'' sts' ∧
      only_tests w0 w' (reported reqs ix' sts') ∧ StronglySorted lt ix')
    (testany_loop fuel p reqs' ix sts w).
Proof.
  intros HF Hact. revert p reqs' ix sts w.
  induction fuel as [|fuel IH]; intros p reqs' ix sts w Ht Hlt Hfuel Hw Hso;
    simpl; pose proof (tested_marked _ _ _ _ Ht) as [Hlen _];
    destruct (Nat.leb_spec (length reqs') p); try done; [lia|].
  eapply post_bind; [apply testany_post; [done|by eapply tested_rest_active|]|].
  { intros Hnil%(f_equal length). rewrite length_drop in Hnil. simpl in Hnil. lia. }
  intros [[[found rest] st] w'] _ Hfound. destruct found as [i|].
  - destruct Hfound as (Hi & Hm & Hw'). rewrite length_drop in Hi. apply IH.
    + apply (tested_step _ _ _ _ p); (done || lia).
    + apply Forall_app. split; [eapply Forall_impl; [done|simpl; lia]|].
      constructor; [lia|done].
    + lia.
    + rewrite (reported_step _ _ reqs') by (done || lia). by eapply only_tests_trans.
    + apply StronglySorted_snoc; [done|]. eapply Forall_impl; [done|]. simpl. lia.
  - simpl. destruct Hfound as [-> Hw']. rewrite take_drop. split_and!; [done| |done].
    rewrite <-(app_nil_r (reported _ _ _)). by eapply only_tests_trans.
Qed.

Lemma test_loop_post F r dn todo ix sts w w0 reqs :
  F ∨ mpi_ok → Forall (λ r, r ≠ MPI_REQUEST_NULL) reqs →
  length dn = r → drop r reqs = todo → r ≤ length reqs →
  tested reqs ix (dn ++ todo) sts → Forall (λ i, i < r) ix →
  only_tests w0 w (reported reqs ix sts) → StronglySorted lt ix →
  post F (λ '(ix', reqs'', sts', w'), tested reqs ix' reqs'' sts' ∧
      only_tests w0 w' (reported reqs ix' sts') ∧ StronglySorted lt ix')
    (test_loop r dn todo ix sts w).
Proof.
  intros HF Hact. revert r dn ix sts w.
  induction todo as [|req todo IH]; intros r dn ix sts w Hdn Htodo Hr Ht Hlt Hw Hso; simpl.
  { rewrite app_nil_r in Ht. done. }
  assert (reqs !! r = Some req) as Hreq.
  { rewrite <-(Nat.add_0_r r), <-lookup_drop, Htodo. done. }
  assert (drop (S r) reqs = todo) as Htodo'.
  { rewrite <-Nat.add_1_r, <-drop_drop, Htodo. done. }
  pose proof (lookup_lt_Some _ _ _ Hreq) as Hrlt.
  pose proof (Forall_lookup_1 _ _ _ _ Hact Hreq) as Hne; simpl in Hne.
  eapply post_bind; [by apply test_post|].
  intros [[[flag req'] st] w'] _ [Hw' ->]. destruct flag.
  - apply IH; rewrite ?length_app; simpl; try (done || lia).
    + rewrite <-app_assoc. simpl.
      pose proof (tested_step _ _ _ _ r 0 (MPI_REQUEST_NULL :: todo) st Ht Hlt Hr) as Hstep.
      rewrite drop_app_ge, Hdn, Nat.sub_diag, take_app_le, take_ge in Hstep by lia.
      apply Hstep; [lia|]. split; [done|]. intros [|j] Hj; case_decide; set_solver.
    + apply Forall_app. split; [eapply Forall_impl; [done|simpl; lia]|].
      constructor; [lia|done].
    + replace r with (0 + r) by lia. rewrite (reported_step _ _ (dn ++ req :: todo)) by (done || lia).
      eapply only_tests_trans; [done|]. rewrite drop_app_ge, Hdn, Nat.sub_diag by lia. exact Hw'.
    + by apply StronglySorted_snoc.
  - apply IH; rewrite ?length_app; simpl; try (done || lia).
    + by rewrite <-app_assoc.
    + eapply Forall_impl; [done|simpl; lia].
    + rewrite <-(app_nil_r (reported _ _ _)). by eapply only_tests_trans.
Qed.

(** Whatever the approach, testing active requests yields the indices of
    completed requests with their statuses, and clears those requests. *)
Lemma internalTestRequests_post F approach reqs w :
  F ∨ mpi_ok → Forall (λ r, r ≠ MPI_REQUEST_NULL) reqs → reqs ≠ [] →
  post F (λ '(ix, reqs', sts, w'), tested reqs ix reqs' sts ∧
      only_tests w w' (reported reqs ix sts) ∧ (orderly approach → StronglySorted lt ix))
    (internalTestRequests approach reqs w).
Proof.
  intros HF Hact Hne.
  assert (tested reqs [] reqs []) as Hinit.
  { split; [constructor|constructor|done|apply marked_refl]. }
  destruct approach; simpl.
  - eapply post_mono; [apply (test_loop_post F 0 [] reqs [] [] w w reqs);
      (done || (by constructor) || lia || apply only_tests_refl)|].
    by intros [[[ix ?] ?] ?] (? & ? & ?).
  - eapply post_mono; [by apply testsome_post|]. intros [[[ix ?] ?] ?] (? & ? & Hs).
    split_and!; [done..|]. intros Ho. by apply Hs, Ho.
  - eapply post_mono; [apply (testany_loop_post F _ 0 reqs reqs [] [] w w); try done; [lia|apply only_tests_refl|constructor]|].
    by intros [[[ix ?] ?] ?] (? & ? & ?).
  - split_and!; [done|apply only_tests_refl|constructor].
Qed.
End testing_proofs.

(** ** Properties *)

(** C16: whatever the testing approach (TestSome, TestAny, Test or none), testing
    a batch of active requests reaches no undefined state, terminates, and
    yields the indices of requests that MPI completed, without duplicates and
    with one status each; exactly those requests become null and nothing but
    test calls is made, which report exactly those requests with those
    statuses.  The indices ascend with every approach but TestSome, which keeps
    the order of MPI. *)
Theorem testing_approaches_sound `{SpscLib, MpiLib, !MpiLaws}
    (approach : TestingApproach) (reqs : list request) (w : world) :
  Forall (λ r, r ≠ MPI_REQUEST_NULL) reqs → reqs ≠ [] →
  post True (λ '(ix, reqs', sts, w'), tested reqs ix reqs' sts ∧
      only_tests w w' (reported reqs ix sts) ∧
      if decide (approach = TestSome) then ix = ts_indices (mpi_testsome (w_trace w) reqs)
      else StronglySorted lt ix)
    (internalTestRequests approach reqs w).
Proof.
  intros Ha Hne. pose proof (internalTestRequests_post True approach reqs w (or_introl I) Ha Hne) as Hp.
  destruct (internalTestRequests _ _ _) as [[[[ix reqs'] sts] w']| |] eqn:Ht; [|done..].
  destruct Hp as (Htested & Ho & Hs). split_and!; [done..|].
  case_decide as Hd; [subst approach|apply Hs; by intros ->]. simpl in Ht. unfold testsome in Ht.
  apply bind_Ok in Ht as (u & Herr%fail_if_Ok & Ht). apply bool_decide_eq_false, dec_stable in Herr.
  destruct (mpi_testsome_law (w_trace w) reqs Ha Hne Herr) as (Hc & _). rewrite Hc in Ht. simplify_eq.
  by rewrite take_ge.
Qed.
