(* ===== verification/Tickets.v ===== *)
(** * Tickets and the arrays of in-flight requests

    [Ticket] ([src/src/common/Ticket.hpp]), [TicketManagerInternals]
    ([src/src/common/TicketManagerInternals.hpp]) and the replacement loop that
    keeps its arrays compact ([TicketManager::internalCheckRequests],
    [src/src/common/TicketManager.hpp]). *)

From S2P Require Import Prelude Queues Allocator World Interface.

(** ** Ticket *)

Record Ticket := mkTicket {
  _taskContext : TaskContext;
  _firstStatus : pointer;
}.

Section ticket.
Context `{SpscLib, AlpiLib, MpiLib}.
Implicit Types w : world.

(** [Ticket(const Operation &)] *)
Definition Ticket_of_Operation (o : Operation) : outcome Ticket :=
  c ← newContext (bool_decide (_nature o = BLK)) (_task o);
  Ok (mkTicket c (_status o)).

(** [Ticket(const CollOperation &)] *)
Definition Ticket_of_CollOperation (o : CollOperation) : outcome Ticket :=
  c ← newContext (bool_decide (c_nature o = BLK)) (c_task o);
  Ok (mkTicket c STATUS_IGNORE).

Definition addPendingOperation (t : Ticket) (num : Z) w : outcome world :=
  bindEvents (_taskContext t) num w.

Definition complete (t : Ticket) w : outcome world :=
  completeEvents (_taskContext t) 1 true w.

Definition getTaskContext (t : Ticket) : TaskContext := _taskContext t.

Definition wait (t : Ticket) w : outcome world :=
  waitEventsCompletion (_taskContext t) w.

Definition ignoreStatus (t : Ticket) : bool :=
  bool_decide (_firstStatus t = STATUS_IGNORE) || bool_decide (_firstStatus t = STATUSES_IGNORE).

Definition storeStatus (t : Ticket) (st : status) (statusPosition : Z) w : outcome world :=
  _ ← assert (negb (_firstStatus t =? nullptr)%Z) "_firstStatus != nullptr";
  _ ← assert (0 <=? statusPosition)%Z "statusPosition >= 0";
  Ok (w_set_status (<[(_firstStatus t + statusPosition)%Z := st]> (w_status w)) w).
End ticket.

(** ** TicketManagerInternals *)

(** [struct Mapping]; the ticket pointer always points into [_tickets] and is
    represented by the position there. *)
Record Mapping := mkMapping { m_ticket : nat; m_localPosition : Z }.

Record Internals := mkInternals {
  _requests : gmap nat request;
  _mappings : gmap nat Mapping;
  _tickets : gmap nat Ticket;
}.

Section internals.
Context (Capacity : nat).
Implicit Types a : Internals.

(** Freshly allocated arrays hold nothing that may be read. *)
Definition newInternals : Internals := mkInternals ∅ ∅ ∅.

Definition getRequest (position : nat) a : outcome request :=
  read (_requests a !! position) "_requests[position]".

Definition getAssociatedTicket (position : nat) a : outcome Ticket :=
  m ← read (_mappings a !! position) "_mappings[position]";
  read (_tickets a !! m_ticket m) "*ticket".

Definition getLocalPositionInTicket (position : nat) a : outcome Z :=
  m ← read (_mappings a !! position) "_mappings[position]";
  _ ← assert (0 <=? m_localPosition m)%Z "localPosition >= 0";
  Ok (m_localPosition m).

(** Returns the position of the ticket, i.e. the reference to it. *)
Definition allocateTicket (position : nat) (t : Ticket) a : outcome (nat * Internals) :=
  _ ← assert (position <? Capacity) "position within the arrays";
  Ok (position, mkInternals (_requests a) (_mappings a) (<[position := t]> (_tickets a))).

Definition associateRequest (position : nat) (r : request) (ticket : nat) (localPosition : Z) a :
    outcome Internals :=
  _ ← assert (position <? Capacity) "position within the arrays";
  Ok (mkInternals (<[position := r]> (_requests a))
        (<[position := mkMapping ticket localPosition]> (_mappings a)) (_tickets a)).

Definition moveRequest (source destination : nat) a : outcome Internals :=
  _ ← assert (negb (source =? destination)) "source != destination";
  _ ← assert (destination <? Capacity) "destination within the arrays";
  r ← read (_requests a !! source) "_requests[source]";
  m ← read (_mappings a !! source) "_mappings[source]";
  let a := mkInternals (<[destination := r]> (_requests a)) (<[destination := m]> (_mappings a))
             (_tickets a) in
  if m_ticket m =? source then
    t ← read (_tickets a !! source) "_tickets[source]";
    Ok (mkInternals (_requests a)
          (<[destination := mkMapping destination (m_localPosition m)]> (_mappings a))
          (<[destination := t]> (_tickets a)))
  else Ok a.

(** ** Compaction *)

(** [while (replacement > current)]: skip the completed requests at the end.
    The result says whether there is a replacement, and the two cursors. *)
Fixpoint find_replacement (indices : list nat) (current replacement : nat) (reverse : Z) :
    outcome (bool * nat * Z) :=
  if current <? replacement then
    last ← read (if decide (0 ≤ reverse)%Z then indices !! Z.to_nat reverse else None)
             "indices[reverse]";
    if negb (replacement =? last) then Ok (true, replacement, reverse)
    else match replacement with
         | 0 => Ok (false, replacement, reverse)
         | S replacement => find_replacement indices current replacement (reverse - 1)
         end
  else Ok (false, replacement, reverse).

(** [for (c = ...; c < completed; ++c)] of the replacement; [todo] iterations
    are left. *)
Fixpoint compact_loop (todo c : nat) (indices : list nat) (replacement : nat) (reverse : Z) a :
    outcome Internals :=
  match todo with
  | 0 => Ok a
  | S todo =>
      current ← read (indices !! c) "indices[c]";
      '(replace, replacement, reverse) ← find_replacement indices current replacement reverse;
      if (replace : bool) then
        a ← moveRequest replacement current a;
        compact_loop todo (S c) indices (replacement - 1) reverse a
      else compact_loop todo (S c) indices replacement reverse a
  end.

(** Remove the requests at [indices] from the [pending] first positions. *)
Definition compact (indices : list nat) (pending : nat) a : outcome Internals :=
  compact_loop (length indices) 0 indices (pending - 1) (Z.of_nat (length indices) - 1) a.
End internals.

(** ** The contents of the arrays *)

(** A request and the ticket it is associated with. *)
Definition entry (a : Internals) (i : nat) : option (request * Ticket) :=
  r ← _requests a !! i; m ← _mappings a !! i; t ← _tickets a !! m_ticket m; Some (r, t).

Definition inflight (a : Internals) (n : nat) : list (request * Ticket) :=
  omap (entry a) (seq 0 n).

(** The first [n] positions are in use: each holds a request mapped to the
    ticket stored at the same position. *)
Definition arrays_ok (a : Internals) (n : nat) : Prop :=
  ∀ i, i < n → ∃ r t, _requests a !! i = Some r ∧ _mappings a !! i = Some (mkMapping i 0) ∧
    _tickets a !! i = Some t.

Lemma arrays_ok_entry a n i :
  arrays_ok a n → i < n → ∃ r t, entry a i = Some (r, t) ∧ _requests a !! i = Some r ∧
    _mappings a !! i = Some (mkMapping i 0) ∧ _tickets a !! i = Some t.
Proof.
  intros Ha Hi. destruct (Ha i Hi) as (r & t & Hr & Hm & Ht). exists r, t.
  unfold entry. rewrite Hr, Hm. simpl. rewrite Ht. done.
Qed.

Lemma inflight_length a n : arrays_ok a n → length (inflight a n) = n.
Proof.
  intros Ha. unfold inflight. rewrite omap_length_Some; [apply length_seq|].
  intros i Hi%elem_of_seq. destruct (arrays_ok_entry a n i Ha ltac:(lia)) as (? & ? & -> & _). done.
Qed.

(** Moving a request copies its entry and leaves all others alone. *)
Lemma moveRequest_spec Capacity a n source destination :
  arrays_ok a n → n ≤ Capacity → source < n → destination < n → source ≠ destination →
  ∃ a', moveRequest Capacity source destination a = Ok a' ∧ arrays_ok a' n ∧
    entry a' destination = entry a source ∧
    ∀ i, i < n → i ≠ destination → entry a' i = entry a i.
Proof.
  intros Ha Hc Hs Hd Hne.
  destruct (arrays_ok_entry a n source Ha Hs) as (r & t & He & Hr & Hm & Ht).
  unfold moveRequest. rewrite (proj2 (Nat.eqb_neq _ _)) by done.
  rewrite (proj2 (Nat.ltb_lt _ _)) by lia. rewrite Hr, Hm. simpl.
  rewrite Nat.eqb_refl, Ht. simpl. eexists; split; [done|].
  assert (∀ i, i < n → i ≠ destination → ∃ r t, _requests a !! i = Some r ∧
    _mappings a !! i = Some (mkMapping i 0) ∧ _tickets a !! i = Some t) as Hother.
  { intros i Hi _. by apply Ha. }
  split_and!.
  - intros i Hi. simpl. destruct (decide (i = destination)) as [->|Hni].
    + exists r, t. by simplify_map_eq.
    + destruct (Ha i Hi) as (ri & ti & ? & ? & ?). exists ri, ti. by simplify_map_eq.
  - rewrite He. unfold entry. simpl. by simplify_map_eq.
  - intros i Hi Hni. destruct (Ha i Hi) as (ri & ti & H1 & H2 & H3). unfold entry. simpl.
    by simplify_map_eq.
Qed.

(** ** Correctness of the compaction *)

Section compaction.
Context (Capacity n : nat) (indices : list nat).
Context (Hcap : n ≤ Capacity).
Context (Hsorted : StronglySorted lt indices).
Context (Hrange : Forall (λ i, i < n) indices).

(** The positions still to be filled when the loop is at [c] and [top]
    entries of [indices] have not been skipped from the end. *)
Definition holes (c top : nat) : list nat := take (top - c) (drop c indices).

(** The positions up to [R] that hold a surviving request. *)
Definition alive (c top R : nat) : list nat :=
  filter (λ i, i ∉ holes c top) (seq 0 (S R)).

Lemma elem_of_holes c top x :
  x ∈ holes c top ↔ ∃ j, c ≤ j < top ∧ indices !! j = Some x.
Proof.
  unfold holes. rewrite list_elem_of_lookup. split.
  - intros [j Hj]. pose proof (lookup_lt_Some _ _ _ Hj) as Hlt. rewrite length_take in Hlt.
    rewrite lookup_take_lt, lookup_drop in Hj by lia. exists (c + j). split; [lia|done].
  - intros (j & Hj & Hx). exists (j - c). rewrite lookup_take_lt, lookup_drop by lia.
    rewrite <-Hx. f_equal. lia.
Qed.

Lemma elem_of_alive c top R x : x ∈ alive c top R ↔ x ≤ R ∧ x ∉ holes c top.
Proof. unfold alive. rewrite list_elem_of_filter, elem_of_seq. naive_solver lia. Qed.

Lemma NoDup_alive c top R : NoDup (alive c top R).
Proof. apply NoDup_filter, NoDup_seq. Qed.

(** The loop invariant: [R] is the replacement cursor, [reverse] is
    [top - 1]; completed requests beyond the cursor were skipped, the other
    completed ones are not beyond it, and the surviving entries are [survivors]. *)
Record loop_inv (survivors : list (request * Ticket)) (c top R : nat) (a : Internals) : Prop := {
  li_arrays : arrays_ok a n;
  li_R : R < n;
  li_top : top ≤ length indices;
  li_above j x : top ≤ j → indices !! j = Some x → R < x;
  li_below j x : j < top → indices !! j = Some x → x ≤ R;
  li_alive : omap (entry a) (alive c top R) ≡ₚ survivors;
}.

(** Skipping a completed request at the cursor. *)
Lemma skip_inv S c top R a current :
  loop_inv S c top R a → indices !! c = Some current → current < R →
  indices !! (top - 1) = Some R → loop_inv S c (top - 1) (R - 1) a.
Proof.
  intros [Ha HR Ht Habove Hbelow Hal] Hc Hlt Hlast.
  assert (c < top) as Hct.
  { destruct (decide (c < top)); [done|]. specialize (Habove c current ltac:(lia) Hc). lia. }
  assert (alive c (top - 1) (R - 1) ≡ₚ alive c top R) as Hal'.
  { apply NoDup_Permutation; [apply NoDup_alive..|]. intros x.
    rewrite !elem_of_alive, !elem_of_holes. split.
    - intros [Hx Hnot]. split; [lia|]. intros (j & Hj & Hjx).
      destruct (decide (j = top - 1)) as [->|]; [simplify_eq; lia|].
      apply Hnot. exists j. split; [lia|done].
    - intros [Hx Hnot]. split; [|intros (j & Hj & Hjx); apply Hnot; exists j; split; [lia|done]].
      destruct (decide (x = R)) as [->|]; [|lia]. exfalso. apply Hnot.
      exists (top - 1). split; [lia|done]. }
  split; [done|lia|lia| | |by rewrite Hal'].
  - intros j x Hj Hx. destruct (decide (j = top - 1)) as [->|]; [simplify_eq; lia|].
    specialize (Habove j x ltac:(lia) Hx). lia.
  - intros j x Hj Hx.
    pose proof (StronglySorted_lookup_lt indices j (top - 1) x R Hsorted ltac:(lia) Hx Hlast). lia.
Qed.

Lemma find_replacement_spec S c top R a current :
  loop_inv S c top R a → indices !! c = Some current →
  ∃ b R' top', find_replacement indices current R (Z.of_nat top - 1) =
      Ok (b, R', Z.of_nat top' - 1)%Z ∧ loop_inv S c top' R' a ∧
    if b then current < R' ∧ R' ∉ indices else R' ≤ current.
Proof.
  revert top. induction R as [|R IH]; intros top Hi Hc; cbn [find_replacement].
  { eexists false, 0, top. split_and!; [by destruct current|done|lia]. }
  destruct (Nat.ltb_spec current (Datatypes.S R)) as [Hlt|Hge].
  2:{ eexists false, _, top. by split_and!. }
  assert (c < top) as Hct.
  { destruct (decide (c < top)); [done|].
    pose proof (li_above _ _ _ _ _ Hi c current ltac:(lia) Hc). lia. }
  pose proof (li_top _ _ _ _ _ Hi) as Htop.
  destruct (lookup_lt_is_Some_2 indices (top - 1)) as [last Hlast]; [lia|].
  rewrite decide_True by lia. replace (Z.to_nat (Z.of_nat top - 1)) with (top - 1) by lia.
  rewrite Hlast. cbn [read mbind outcome_bind].
  destruct (Nat.eqb_spec (Datatypes.S R) last) as [<-|Hne].
  - pose proof (skip_inv _ _ _ _ _ _ Hi Hc Hlt Hlast) as Hi'.
    simpl in Hi'. rewrite Nat.sub_0_r in Hi'.
    destruct (IH _ Hi' Hc) as (b & R' & top' & Heq & Hi'' & Hb).
    exists b, R', top'. split; [|done]. cbn [negb].
    replace (Z.of_nat top - 1 - 1)%Z with (Z.of_nat (top - 1) - 1)%Z by lia. exact Heq.
  - exists true, (Datatypes.S R), top. cbn [negb]. split_and!; [done..|].
    intros (j & Hj)%list_elem_of_lookup. destruct (decide (top ≤ j)).
    { pose proof (li_above _ _ _ _ _ Hi j _ ltac:(done) Hj). lia. }
    pose proof (li_below _ _ _ _ _ Hi (top - 1) last ltac:(lia) Hlast).
    destruct (decide (j = top - 1)) as [->|]; [simplify_eq|].
    pose proof (StronglySorted_lookup_lt indices j (top - 1) _ _ Hsorted ltac:(lia) Hj Hlast). lia.
Qed.

(** Moving the replacement into the current hole. *)
Lemma move_inv S c top R a current :
  loop_inv S c top R a → indices !! c = Some current → current < R → R ∉ indices →
  ∃ a', moveRequest Capacity R current a = Ok a' ∧ loop_inv S (c + 1) top (R - 1) a'.
Proof.
  intros [Ha HR Ht Habove Hbelow Hal] Hc Hlt HnR.
  assert (c < top) as Hct.
  { destruct (decide (c < top)); [done|]. specialize (Habove c current ltac:(lia) Hc). lia. }
  destruct (moveRequest_spec Capacity a n R current Ha Hcap HR ltac:(lia) ltac:(lia))
    as (a' & Heq & Ha' & Hcur & Hother).
  exists a'. split; [done|].
  set (X := filter (λ i, i ≠ current) (alive (c + 1) top (R - 1))).
  assert (∀ x, x ∈ holes (c + 1) top ↔ x ∈ holes c top ∧ x ≠ current) as Hholes.
  { intros x. rewrite !elem_of_holes. split.
    - intros (j & Hj & Hx). split; [exists j; split; [lia|done]|]. intros ->.
      pose proof (StronglySorted_lookup_lt indices c j _ _ Hsorted ltac:(lia) Hc Hx). lia.
    - intros [(j & Hj & Hx) Hne]. exists j. split; [|done].
      destruct (decide (j = c)) as [->|]; [simplify_eq|lia]. }
  assert (alive c top R ≡ₚ R :: X) as HX.
  { apply NoDup_Permutation; [apply NoDup_alive| |].
    - constructor; [|apply NoDup_filter, NoDup_alive].
      unfold X. rewrite list_elem_of_filter, elem_of_alive. lia.
    - intros x. rewrite elem_of_cons. unfold X. rewrite list_elem_of_filter, !elem_of_alive, Hholes.
      destruct (decide (x = R)) as [->|].
      + split; [by left|]. intros _. split; [lia|]. intros (j & _ & Hj)%elem_of_holes.
        apply HnR. by eapply list_elem_of_lookup_2.
      + split.
        * intros [Hx Hnot]. right. split; [|split; [lia|tauto]]. intros ->. apply Hnot.
          apply elem_of_holes. by exists c.
        * intros [?|(? & ? & ?)]; [done|]. split; [lia|tauto]. }
  assert (alive (c + 1) top (R - 1) ≡ₚ current :: X) as HX'.
  { apply NoDup_Permutation; [apply NoDup_alive| |].
    - constructor; [|apply NoDup_filter, NoDup_alive]. unfold X. rewrite list_elem_of_filter. tauto.
    - intros x. rewrite elem_of_cons. unfold X. rewrite list_elem_of_filter, !elem_of_alive, Hholes.
      destruct (decide (x = current)) as [->|]; [|tauto]. split; [by left|]. intros _.
      split; [lia|tauto]. }
  assert (∀ j x, j < top → indices !! j = Some x → x ≤ R - 1) as Hbelow'.
  { intros j x Hj Hx. specialize (Hbelow j x Hj Hx).
    assert (x ≠ R); [|lia]. intros ->. apply HnR. by eapply list_elem_of_lookup_2. }
  split; [done|lia|done| |done|].
  - intros j x Hj Hx. specialize (Habove j x Hj Hx). lia.
  - rewrite HX', <-Hal, HX. csimpl. rewrite Hcur.
    rewrite (omap_ext (entry a') (entry a) X); [done|].
    intros x [Hxc Hx]%list_elem_of_filter. apply elem_of_alive in Hx as [Hx _].
    apply Hother; [lia|done].
Qed.

(** Once the cursor has reached the current hole nothing moves any more. *)
Lemma compact_loop_done todo c R reverse a current :
  indices !! c = Some current → R ≤ current → c + todo ≤ length indices →
  compact_loop Capacity todo c indices R reverse a = Ok a.
Proof.
  revert c current. induction todo as [|todo IH]; intros c current Hc HR Hlen; [done|].
  simpl. rewrite Hc. cbn [read mbind outcome_bind].
  assert (find_replacement indices current R reverse = Ok (false, R, reverse)) as ->.
  { destruct R; cbn [find_replacement]; by rewrite (proj2 (Nat.ltb_ge _ _)) by lia. }
  cbn [mbind outcome_bind]. destruct (decide (todo = 0)) as [->|]; [done|].
  destruct (lookup_lt_is_Some_2 indices (Datatypes.S c)) as [next Hnext]; [lia|].
  apply (IH _ next); [done| |lia].
  pose proof (StronglySorted_lookup_lt indices c (Datatypes.S c) _ _ Hsorted ltac:(lia) Hc Hnext). lia.
Qed.

(** When the positions up to the cursor that survive are an initial segment,
    they are the first positions of the compacted array. *)
Lemma loop_inv_finish S c top R m a :
  loop_inv S c top R a → (∀ x, x ∈ alive c top R ↔ x < m) → m ≤ n →
  length S = n - length indices →
  m = n - length indices ∧ inflight a m ≡ₚ S.
Proof.
  intros [Ha HR Ht Habove Hbelow Hal] Hm Hmn HS.
  assert (alive c top R ≡ₚ seq 0 m) as Hp.
  { apply NoDup_Permutation; [apply NoDup_alive|apply NoDup_seq|].
    intros x. rewrite Hm, elem_of_seq. lia. }
  rewrite Hp in Hal. fold (inflight a m) in Hal. split; [|done].
  rewrite <-HS, <-Hal, inflight_length; [done|]. intros i Hi. apply Ha. lia.
Qed.

Lemma compact_loop_spec S todo c top R a :
  loop_inv S c top R a → c + todo = length indices → length S = n - length indices →
  ∃ a', compact_loop Capacity todo c indices R (Z.of_nat top - 1) a = Ok a' ∧
    arrays_ok a' n ∧ inflight a' (n - length indices) ≡ₚ S.
Proof.
  revert c top R a. induction todo as [|todo IH]; intros c top R a Hi Hc HS.
  { exists a. split; [done|]. split; [by apply Hi|].
    destruct (loop_inv_finish S c top R (Datatypes.S R) a Hi) as [<- ?]; try done.
    - intros x. rewrite elem_of_alive, elem_of_holes. split; [lia|]. intros Hx. split; [lia|].
      intros (j & Hj & Hjx). apply lookup_lt_Some in Hjx. lia.
    - by apply Hi. }
  destruct (lookup_lt_is_Some_2 indices c) as [current Hcur]; [lia|].
  destruct (find_replacement_spec _ _ _ _ _ _ Hi Hcur) as (b & R' & top' & Heq & Hi' & Hb).
  simpl. rewrite Hcur. cbn [read mbind outcome_bind]. rewrite Heq. cbn [mbind outcome_bind].
  destruct b.
  - destruct Hb as [Hlt HnR].
    destruct (move_inv _ _ _ _ _ _ Hi' Hcur Hlt HnR) as (a' & -> & Hi'').
    cbn [mbind outcome_bind]. rewrite <-Nat.add_1_r. apply IH; [done|lia|done].
  - exists a. split_and!; [|by apply Hi|].
    { destruct todo as [|todo]; [done|].
      destruct (lookup_lt_is_Some_2 indices (Datatypes.S c)) as [next Hnext]; [lia|].
      apply (compact_loop_done _ _ _ _ _ next); [done| |lia].
      pose proof (StronglySorted_lookup_lt indices c (Datatypes.S c) _ _ Hsorted ltac:(lia) Hcur Hnext). lia. }
    assert (∀ x j, c ≤ j → indices !! j = Some x → R' ≤ x) as Hge.
    { intros x j Hj Hx. destruct (decide (j = c)) as [->|]; [by simplify_eq|].
      pose proof (StronglySorted_lookup_lt indices c j _ _ Hsorted ltac:(lia) Hcur Hx). lia. }
    pose proof (li_R _ _ _ _ _ Hi') as HR'.
    destruct (decide (R' ∈ holes c top')) as [Hin|Hnin].
    + destruct (loop_inv_finish S c top' R' R' a Hi') as [<- ?]; try (done || lia).
      intros x. rewrite elem_of_alive. split.
      * intros [Hx Hnx]. destruct (decide (x = R')) as [->|]; [done|lia].
      * intros Hx. split; [lia|]. intros (j & Hj & Hjx)%elem_of_holes.
        specialize (Hge x j ltac:(lia) Hjx). lia.
    + destruct (loop_inv_finish S c top' R' (Datatypes.S R') a Hi') as [<- ?]; try (done || lia).
      intros x. rewrite elem_of_alive. split; [lia|]. intros Hx. split; [lia|].
      destruct (decide (x = R')) as [->|]; [done|]. intros (j & Hj & Hjx)%elem_of_holes.
      specialize (Hge x j ltac:(lia) Hjx). lia.
Qed.

Lemma filter_not_in_length : length (filter (λ i, i ∉ indices) (seq 0 n)) = n - length indices.
Proof.
  assert (NoDup indices) as Hnd.
  { clear Hrange Hcap. induction Hsorted as [|x l Hs IH Hx]; constructor; [|by apply IH].
    intros Hin. rewrite Forall_forall in Hx. specialize (Hx x Hin). lia. }
  assert (seq 0 n ≡ₚ indices ++ filter (λ i, i ∉ indices) (seq 0 n)) as Hp.
  { apply NoDup_Permutation; [apply NoDup_seq| |].
    - apply NoDup_app. split_and!; [done| |apply NoDup_filter, NoDup_seq].
      intros x Hx. rewrite list_elem_of_filter. tauto.
    - intros x. rewrite elem_of_app, list_elem_of_filter, elem_of_seq.
      rewrite Forall_forall in Hrange. destruct (decide (x ∈ indices)) as [Hin|]; [|naive_solver lia].
      specialize (Hrange x Hin). naive_solver lia. }
  apply Permutation_length in Hp. rewrite length_app, length_seq in Hp. lia.
Qed.

(** The compacted arrays hold, in their first positions, exactly the entries
    whose request did not complete. *)
Lemma compact_spec a :
  0 < n → arrays_ok a n →
  ∃ a', compact Capacity indices n a = Ok a' ∧ arrays_ok a' n ∧
    inflight a' (n - length indices) ≡ₚ omap (entry a) (filter (λ i, i ∉ indices) (seq 0 n)).
Proof.
  intros Hn Ha. unfold compact. apply (compact_loop_spec _ (length indices) 0 (length indices)).
  - split; [done|lia|done| | |].
    + intros j x Hj Hx%lookup_lt_Some. lia.
    + intros j x _ Hx. pose proof (Forall_lookup_1 _ _ _ _ Hrange Hx). simpl in *. lia.
    + unfold alive, holes. rewrite drop_0, take_ge by lia.
      by replace (Datatypes.S (n - 1)) with n by lia.
  - done.
  - rewrite omap_length_Some; [apply filter_not_in_length|].
    intros i [_ Hi]%list_elem_of_filter. apply elem_of_seq in Hi.
    destruct (arrays_ok_entry a n i Ha ltac:(lia)) as (? & ? & -> & _). done.
Qed.
End compaction.

(** ** Properties *)

(** C18: removing the completed requests, given their indices in ascending
    order, from the first [n] positions of the arrays succeeds (every position
    it reads is initialised and every move is between different positions of
    the arrays) and leaves, in the first [n - completed] positions, exactly the
    requests that did not complete, each with the ticket it had. *)
Theorem compact_keeps_incomplete Capacity n indices a :
  n ≤ Capacity → 0 < n → StronglySorted lt indices → Forall (λ i, i < n) indices →
  arrays_ok a n →
  ∃ a', compact Capacity indices n a = Ok a' ∧ arrays_ok a' (n - length indices) ∧
    inflight a' (n - length indices) ≡ₚ omap (entry a) (filter (λ i, i ∉ indices) (seq 0 n)).
Proof.
  intros Hc Hn Hs Hr Ha. destruct (compact_spec Capacity n indices Hc Hs Hr a Hn Ha)
    as (a' & Heq & Ha' & Hp). exists a'. split_and!; [done| |done]. intros i Hi. apply Ha'. lia.
Qed.

(** Four requests in flight, 100 to 103. *)
Definition sample_ticket (i : nat) : Ticket := mkTicket (mkContext false (Z.of_nat i + 1)) 1.
Definition sample_arrays : Internals :=
  mkInternals (list_to_map ((λ i, (i, Z.of_nat (100 + i))) <$> seq 0 4))
    (list_to_map ((λ i, (i, mkMapping i 0)) <$> seq 0 4))
    (list_to_map ((λ i, (i, sample_ticket i)) <$> seq 0 4)).

Lemma sample_arrays_ok : arrays_ok sample_arrays 4.
Proof.
  intros i Hi. do 4 (destruct i as [|i]; [by eexists _, _|]). lia.
Qed.

Lemma compact_keeps_incomplete_witness :
  ∃ a', compact 8 [0; 2] 4 sample_arrays = Ok a' ∧
    inflight a' 2 = [(103%Z, sample_ticket 3); (101%Z, sample_ticket 1)] ∧
    arrays_ok a' 2.
Proof.
  destruct (compact_keeps_incomplete 8 4 [0; 2] sample_arrays) as (a' & Heq & Ha' & _);
    [lia|lia|repeat constructor|repeat constructor; lia|apply sample_arrays_ok|].
  exists a'. split; [exact Heq|]. split; [|exact Ha'].
  vm_compute in Heq. injection Heq as <-. by vm_compute.
Defined.

(** The ascending order of the indices, which the MPI standard does not
    promise for [MPI_Testsome], is needed: when requests 2 and 0 of three are
    reported in this order, the compaction keeps the completed request 2 and
    loses request 1, which is still in flight. *)
Theorem compact_needs_order :
  ∃ a', compact 8 [2; 0] 3 sample_arrays = Ok a' ∧
    inflight a' (3 - 2) = [(102%Z, sample_ticket 2)] ∧
    omap (entry sample_arrays) (filter (λ i, i ∉ [2; 0]) (seq 0 3)) = [(101%Z, sample_ticket 1)].
Proof. eexists. split; [by vm_compute|]. split; by vm_compute. Qed.
