(* ===== verification/StringSupport.v ===== *)
(** * Parsing of run-time options

    [StringSupport] ([src/src/common/util/StringSupport.hpp]) and
    [EnvironmentVariable] ([src/src/common/util/EnvironmentVariable.hpp]), with
    the parts of the C++ standard library they use: [std::getline] and the
    extraction of integers from an input stream.  A [std::string] is the list
    of its characters. *)

From Stdlib Require Import Ascii.
From S2P Require Import Prelude.

Definition str (s : string) : list ascii := String.list_ascii_of_string s.

(** ** Standard library *)

(** The components that [while (std::getline(stream, component, delim))] reads.
    [cur] holds the characters read since the last delimiter; the loop ends at
    the first [getline] that finds no character at all. *)
Fixpoint getline_loop (delim : ascii) (cur l : list ascii) : list (list ascii) :=
  match l with
  | [] => if decide (cur = []) then [] else [cur]
  | c :: l =>
      if decide (c = delim) then cur :: getline_loop delim [] l
      else getline_loop delim (cur ++ [c]) l
  end.

Definition getlines (delim : ascii) (l : list ascii) : list (list ascii) :=
  getline_loop delim [] l.

Definition digit (c : ascii) : option Z :=
  let n := Z.of_N (N_of_ascii c) in
  if decide (48 ≤ n ≤ 57)%Z then Some (n - 48)%Z else None.

Definition is_space (c : ascii) : bool :=
  let n := N_of_ascii c in bool_decide (n = 32 ∨ 9 ≤ n ≤ 13)%N.

Fixpoint skip_ws (l : list ascii) : list ascii :=
  match l with
  | c :: l' => if is_space c then skip_ws l' else l
  | [] => []
  end.

(** The value of the leading decimal digits, [None] if there is none. *)
Fixpoint digits (acc : option Z) (l : list ascii) : option Z :=
  match l with
  | c :: l =>
      match digit c with
      | Some d => digits (Some (default 0 acc * 10 + d)%Z) l
      | None => acc
      end
  | [] => acc
  end.

(** [stream >> v] for an integer: the value, or a failed stream with what was
    written to [v] ([None]: nothing, the sentry already failed). *)
Inductive extraction := Got (v : Z) | Bad (written : option Z).

Definition sign_and_digits (l : list ascii) : bool * option Z :=
  match l with
  | "-"%char :: l => (true, digits None l)
  | "+"%char :: l => (false, digits None l)
  | _ => (false, digits None l)
  end.

(** [uint64_t]: a negative number is negated modulo 2^64, as [strtoull] does. *)
Definition extract_u64 (l : list ascii) : extraction :=
  match skip_ws l with
  | [] => Bad None
  | l =>
      match sign_and_digits l with
      | (_, None) => Bad (Some 0%Z)
      | (neg, Some v) =>
          if decide (u64_modulus ≤ v)%Z then Bad (Some (u64_modulus - 1)%Z)
          else Got (if neg then u64 (- v) else v)
      end
  end.

(** [bool] without [boolalpha]: a [long] that must be 0 or 1. *)
Definition extract_bool (l : list ascii) : option bool :=
  match skip_ws l with
  | [] => None
  | l =>
      match sign_and_digits l with
      | (neg, Some v) =>
          if decide (v = 0)%Z then Some false
          else if decide (neg = false ∧ v = 1)%Z then Some true else None
      | (_, None) => None
      end
  end.

(** [std::to_string] of an unsigned integer; [fuel] bounds the digits. *)
Definition digit_char (d : Z) : ascii := ascii_of_N (Z.to_N (48 + d)).
Fixpoint to_digits (fuel : nat) (n : Z) : list ascii :=
  match fuel with
  | 0 => []
  | S fuel =>
      (if decide (n < 10)%Z then [] else to_digits fuel (n / 10)%Z) ++ [digit_char (n `mod` 10)%Z]
  end.
(** 20 digits are enough for a [uint64_t]. *)
Definition to_string (n : Z) : list ascii := to_digits 20 n.

(** ** StringSupport *)

Definition split (s : list ascii) (delim : ascii) : list (list ascii) :=
  filter (λ component, component ≠ []) (getlines delim s).

(** [parse<uint64_t>], [parse<bool>] and [parse<std::string>]: [None] when the
    function returns false and leaves the value alone. *)
Definition parse_u64 (s : list ascii) : option Z :=
  match extract_u64 s with Got v => Some v | Bad _ => None end.
Definition parse_bool (s : list ascii) : option bool := extract_bool s.
Definition parse_string (s : list ascii) : option (list ascii) := Some s.

Definition count_char (delim : ascii) (s : list ascii) : nat :=
  length (filter (λ c, c = delim) s).

(** [parse(str, present, value1, value2, delim)]: [None] when it returns
    false; otherwise the values of the components that are present. *)
Definition parse2 {T1 T2} (p1 : list ascii → option T1) (p2 : list ascii → option T2)
    (s : list ascii) (delim : ascii) : option (option T1 * option T2) :=
  let components := split s delim in
  if decide (length components ≠ count_char delim s + 1 ∨ 2 < length components) then None
  else match components with
       | [] => Some (None, None)
       | c1 :: cs =>
           v1 ← p1 c1;
           match cs with
           | [] => Some (Some v1, None)
           | c2 :: _ => v2 ← p2 c2; Some (Some v1, Some v2)
           end
       end.

Definition parse3 {T1 T2 T3} (p1 : list ascii → option T1) (p2 : list ascii → option T2)
    (p3 : list ascii → option T3) (s : list ascii) (delim : ascii) :
    option (option T1 * option T2 * option T3) :=
  let components := split s delim in
  if decide (length components ≠ count_char delim s + 1 ∨ 3 < length components) then None
  else match components with
       | [] => Some (None, None, None)
       | c1 :: cs =>
           v1 ← p1 c1;
           match cs with
           | [] => Some (Some v1, None, None)
           | c2 :: cs =>
               v2 ← p2 c2;
               match cs with
               | [] => Some (Some v1, Some v2, None)
               | c3 :: _ => v3 ← p3 c3; Some (Some v1, Some v2, Some v3)
               end
           end
       end.

(** [for (i = begin; i <= end; ++i) indices.push_back(i)] on [uint64_t], for at
    most [fuel] evaluations of the condition. *)
Fixpoint range_loop (fuel : nat) (i e : Z) (indices : list Z) : outcome (list Z) :=
  match fuel with
  | 0 => Undef "parseIndices: out of fuel"
  | S fuel =>
      if decide (i ≤ e)%Z then range_loop fuel (u64 (i + 1)) e (indices ++ [i]) else Ok indices
  end.

Fixpoint parseIndices_loop (fuel : nat) (ranges : list (list ascii)) (indices : list Z) :
    outcome (bool * list Z) :=
  match ranges with
  | [] => Ok (true, indices)
  | range :: ranges =>
      if decide (range = []) then parseIndices_loop fuel ranges indices else
      if decide ("-"%char ∈ range) then
        match split range "-" with
        | [r0; r1] =>
            match parse_u64 r0, parse_u64 r1 with
            | Some b, Some e =>
                if decide (e < b)%Z then Ok (false, indices)
                else indices ← range_loop fuel b e indices; parseIndices_loop fuel ranges indices
            | _, _ => Ok (false, indices)
            end
        | _ => Ok (false, indices)
        end
      else
        match parse_u64 range with
        | Some b => parseIndices_loop fuel ranges (indices ++ [b])
        | None => Ok (false, indices)
        end
  end.

(** The result and the vector of indices, to which indices are appended; [fuel]
    bounds the loop over one range. *)
Definition parseIndices (fuel : nat) (s : list ascii) (indices : list Z) : outcome (bool * list Z) :=
  parseIndices_loop fuel (split s ",") indices.

(** ** EnvironmentVariable *)

Record EnvironmentVariable (T : Type) := mkEnv {
  _value : T;
  _isPresent : bool;
  _name : string;
}.
Arguments mkEnv {_} _ _ _.
Arguments _value {_} _.
Arguments _isPresent {_} _.
Arguments _name {_} _.

(** The constructor; [value] is what [getenv(name)] returns.  The second
    component says whether the "Invalid value" warning is printed. *)
Definition newEnv {T} (parse : list ascii → option T) (name : string) (defaultValue : T)
    (value : option (list ascii)) : EnvironmentVariable T * bool :=
  match value with
  | None => (mkEnv defaultValue false name, false)
  | Some s =>
      match parse s with
      | Some v => (mkEnv v true name, false)
      | None => (mkEnv defaultValue false name, true)
      end
  end.

Definition set {T} (value : T) (makePresent : bool) (e : EnvironmentVariable T) :
    EnvironmentVariable T :=
  mkEnv value (_isPresent e || makePresent) (_name e).

(** ** Fields and delimiters *)

Fixpoint join (delim : ascii) (cs : list (list ascii)) : list ascii :=
  match cs with
  | [] => []
  | [c] => c
  | c :: cs => c ++ delim :: join delim cs
  end.

(** All fields of a string, empty ones included. *)
Fixpoint fields (delim : ascii) (cur l : list ascii) : list (list ascii) :=
  match l with
  | [] => [cur]
  | c :: l => if decide (c = delim) then cur :: fields delim [] l else fields delim (cur ++ [c]) l
  end.

(** A field as the format of an option allows it. *)
Definition field_ok (delim : ascii) (c : list ascii) : Prop := c ≠ [] ∧ delim ∉ c.

Section fields.
Context (delim : ascii).

Lemma fields_not_nil cur l : fields delim cur l ≠ [].
Proof.
  revert cur. induction l as [|c l IH]; intros cur; simpl; [done|]. case_decide; [done|]. apply IH.
Qed.

Lemma split_fields l : split l delim = filter (λ c, c ≠ []) (fields delim [] l).
Proof.
  assert (∀ cur, filter (λ c, c ≠ []) (getline_loop delim cur l) =
    filter (λ c, c ≠ []) (fields delim cur l)) as H; [|apply H].
  induction l as [|c l IH]; intros cur; simpl.
  - case_decide; [subst; by rewrite filter_cons_False by naive_solver|done].
  - case_decide; [|apply IH]. rewrite !filter_cons. by rewrite IH.
Qed.

Lemma fields_length cur l : length (fields delim cur l) = count_char delim l + 1.
Proof.
  unfold count_char. revert cur. induction l as [|c l IH]; intros cur; simpl; [done|].
  rewrite filter_cons. case_decide; simpl; by rewrite IH.
Qed.

Lemma fields_join cur l : join delim (fields delim cur l) = cur ++ l.
Proof.
  revert cur. induction l as [|c l IH]; intros cur; simpl; [by rewrite app_nil_r|].
  case_decide as Hc.
  - subst c. specialize (IH []). simpl in IH.
    pose proof (fields_not_nil [] l). destruct (fields delim [] l) as [|f fs]; [done|].
    change (join delim (cur :: f :: fs)) with (cur ++ delim :: join delim (f :: fs)).
    by rewrite IH.
  - rewrite IH. by rewrite <-app_assoc.
Qed.

Lemma fields_delim_free cur l :
  delim ∉ cur → Forall (λ c, delim ∉ c) (fields delim cur l).
Proof.
  revert cur. induction l as [|c l IH]; intros cur Hcur; simpl; [by constructor|].
  case_decide; [constructor; [done|apply IH; set_solver]|]. apply IH. set_solver.
Qed.

Lemma fields_app cur c l :
  delim ∉ c → fields delim cur (c ++ delim :: l) = (cur ++ c) :: fields delim [] l.
Proof.
  revert cur. induction c as [|x c IH]; intros cur Hc; simpl.
  - by rewrite decide_True, app_nil_r by done.
  - rewrite decide_False by set_solver. rewrite IH by set_solver. by rewrite <-app_assoc.
Qed.

Lemma fields_last cur c : delim ∉ c → fields delim cur c = [cur ++ c].
Proof.
  revert cur. induction c as [|x c IH]; intros cur Hc; simpl; [by rewrite app_nil_r|].
  rewrite decide_False by set_solver. rewrite IH by set_solver. by rewrite <-app_assoc.
Qed.

Lemma join_fields cs :
  cs ≠ [] → Forall (λ c, delim ∉ c) cs → fields delim [] (join delim cs) = cs.
Proof.
  intros Hne HF. induction HF as [|c cs Hc HF IH]; [done|]. destruct cs as [|c' cs].
  - simpl. by apply fields_last.
  - change (join delim (c :: c' :: cs)) with (c ++ delim :: join delim (c' :: cs)).
    rewrite fields_app by done. simpl app. by rewrite IH.
Qed.

(** The components of [split] are as many as the delimiters demand exactly
    when no field is empty. *)
Lemma split_full l :
  length (split l delim) = count_char delim l + 1 ↔
  Forall (λ c, c ≠ []) (fields delim [] l).
Proof.
  rewrite split_fields, <-(fields_length [] l). split.
  - intros Hlen. induction (fields delim [] l) as [|c cs IH]; [constructor|].
    rewrite filter_cons in Hlen. case_decide.
    + constructor; [done|]. apply IH. simpl in Hlen. lia.
    + pose proof (length_filter (λ c : list ascii, c ≠ []) cs). simpl in *. lia.
  - intros HF. induction HF as [|c cs Hc HF IH]; [done|].
    rewrite filter_cons_True by done. simpl. by rewrite IH.
Qed.

Lemma split_join cs :
  cs ≠ [] → Forall (field_ok delim) cs →
  split (join delim cs) delim = cs ∧ count_char delim (join delim cs) + 1 = length cs.
Proof.
  intros Hne HF. rewrite <-(fields_length []), split_fields.
  rewrite join_fields; [|done|eapply Forall_impl; [exact HF|by intros c [_ ?]]].
  split; [|done]. induction HF as [|c cs [Hc ?] HF IH]; [done|].
  rewrite filter_cons_True by done. f_equal. destruct cs; [done|]. by apply IH.
Qed.

Lemma split_inv l :
  length (split l delim) = count_char delim l + 1 →
  l = join delim (split l delim) ∧ Forall (field_ok delim) (split l delim) ∧ split l delim ≠ [].
Proof.
  intros Hlen. pose proof (proj1 (split_full l) Hlen) as HF.
  assert (split l delim = fields delim [] l) as ->.
  { rewrite split_fields. clear Hlen. induction HF as [|c cs Hc HF IH]; [done|].
    by rewrite filter_cons_True, IH by done. }
  split_and!; [by rewrite fields_join|apply Forall_and; split; [done|]|apply fields_not_nil].
  apply fields_delim_free. set_solver.
Qed.
End fields.

(** ** Numbers *)

Lemma digit_digit_char d : (0 ≤ d < 10)%Z → digit (digit_char d) = Some d.
Proof.
  intros Hd. unfold digit, digit_char. rewrite N_ascii_embedding by lia.
  rewrite Z2N.id by lia. rewrite decide_True by lia. f_equal. lia.
Qed.

Lemma digits_app acc l c d :
  Forall (λ c, is_Some (digit c)) l → digit c = Some d →
  digits acc (l ++ [c]) = Some (default 0 (digits acc l) * 10 + d)%Z.
Proof.
  intros HF. revert acc. induction HF as [|x l [dx Hx] HF IH]; intros acc Hc; simpl.
  - by rewrite Hc.
  - rewrite Hx. by rewrite IH.
Qed.

Lemma to_digits_spec fuel n :
  (0 ≤ n < 10 ^ Z.of_nat fuel)%Z → 0 < fuel →
  Forall (λ c, is_Some (digit c)) (to_digits fuel n) ∧ digits None (to_digits fuel n) = Some n ∧
  to_digits fuel n ≠ [].
Proof.
  revert n. induction fuel as [|fuel IH]; intros n Hn Hf; [lia|]. simpl.
  assert (0 ≤ n `mod` 10 < 10)%Z as Hmod by (apply Z.mod_pos_bound; lia).
  pose proof (digit_digit_char _ Hmod) as Hd.
  case_decide as Hlt.
  - simpl. rewrite Hd. split_and!; [by constructor|simpl|done].
    f_equal. rewrite Z.mod_small by lia. lia.
  - assert (0 < fuel) as Hf'.
    { destruct fuel; [|lia]. simpl in Hn. lia. }
    destruct (IH (n / 10)%Z) as (HF & Hdig & Hne); [|done|].
    { rewrite Nat2Z.inj_succ, Z.pow_succ_r in Hn by lia. split; [apply Z.div_pos; lia|].
      apply Z.div_lt_upper_bound; lia. }
    split_and!.
    + apply Forall_app. split; [done|]. by constructor.
    + erewrite digits_app by done. rewrite Hdig. simpl. f_equal.
      pose proof (Z.div_mod n 10). lia.
    + by destruct (to_digits fuel (n / 10)%Z).
Qed.

Lemma digits_nonneg acc l v :
  (∀ a, acc = Some a → (0 ≤ a)%Z) → digits acc l = Some v → (0 ≤ v)%Z.
Proof.
  revert acc. induction l as [|c l IH]; intros acc Ha; simpl; [by apply Ha|].
  destruct (digit c) as [d|] eqn:Hd; [|by apply Ha]. apply IH. intros a [= <-].
  unfold digit in Hd. case_decide; simplify_eq. destruct acc as [a|]; simpl; [|lia].
  specialize (Ha a eq_refl). lia.
Qed.

(** Whatever is written to the variable is a [uint64_t]. *)
Lemma extract_u64_range l :
  match extract_u64 l with Got v | Bad (Some v) => is_u64 v | Bad None => True end.
Proof.
  unfold extract_u64. destruct (skip_ws l) as [|x l']; [done|].
  destruct (sign_and_digits (x :: l')) as [neg [v|]] eqn:Hs; [|by unfold is_u64, u64_modulus].
  assert (0 ≤ v)%Z as Hv.
  { assert (∃ l', digits None l' = Some v) as [l1 Hl1].
    { unfold sign_and_digits in Hs. repeat case_match; simplify_eq; by eexists. }
    by eapply (digits_nonneg None). }
  case_decide; [by unfold is_u64, u64_modulus|]. destruct neg; [apply u64_is_u64|unfold is_u64; lia].
Qed.

Lemma parse_u64_range l v : parse_u64 l = Some v → is_u64 v.
Proof.
  unfold parse_u64. pose proof (extract_u64_range l) as Hr. destruct (extract_u64 l); naive_solver.
Qed.

Lemma digit_not_space c : is_Some (digit c) → is_space c = false.
Proof.
  unfold digit, is_space. intros [d Hd]. case_decide; [|done]. apply bool_decide_eq_false. lia.
Qed.

Lemma parse_u64_digits l v :
  l ≠ [] → Forall (λ c, is_Some (digit c)) l → digits None l = Some v → (v < u64_modulus)%Z →
  parse_u64 l = Some v.
Proof.
  intros Hne HF Hd Hv. destruct l as [|c l]; [done|]. apply Forall_cons in HF as [Hc HF].
  unfold parse_u64, extract_u64. cbn [skip_ws]. rewrite (digit_not_space c Hc).
  assert (sign_and_digits (c :: l) = (false, Some v)) as ->.
  { rewrite <-Hd. destruct Hc as [d Hc]. destruct c as [[] [] [] [] [] [] [] []]; by vm_compute in Hc || reflexivity. }
  by rewrite decide_False by lia.
Qed.

Lemma parse_to_string n : is_u64 n → parse_u64 (to_string n) = Some n.
Proof.
  intros Hn. unfold to_string. destruct (to_digits_spec 20 n) as (HF & Hd & Hne).
  - unfold is_u64, u64_modulus in Hn. lia.
  - lia.
  - apply parse_u64_digits; [done..|apply Hn].
Qed.

(** ** Lists of ranges *)

(** A range as the user writes it: a number, or two with a hyphen. *)
Definition print_range (r : Z * Z) : list ascii :=
  if decide (r.1 = r.2) then to_string r.1 else to_string r.1 ++ "-"%char :: to_string r.2.

Definition print_ranges (rs : list (Z * Z)) : list ascii := join "," (print_range <$> rs).

Definition range_ok (r : Z * Z) : Prop := (0 ≤ r.1 ≤ r.2)%Z ∧ (r.2 < u64_modulus - 1)%Z.

Lemma to_string_digits n :
  is_u64 n → Forall (λ c, is_Some (digit c)) (to_string n) ∧ to_string n ≠ [].
Proof.
  intros Hn. destruct (to_digits_spec 20 n) as (HF & _ & Hne); [|lia|done].
  unfold is_u64, u64_modulus in Hn. lia.
Qed.

#[local] Opaque to_string.

Lemma digits_no_char c l : digit c = None → Forall (λ c, is_Some (digit c)) l → c ∉ l.
Proof.
  intros Hc HF Hin. rewrite Forall_forall in HF. destruct (HF c Hin) as [d Hd]. congruence.
Qed.

Lemma range_bounds r : range_ok r → is_u64 r.1 ∧ is_u64 r.2.
Proof. intros [? ?]. unfold is_u64. lia. Qed.

Lemma print_range_ok r : range_ok r → field_ok "," (print_range r).
Proof.
  intros [H1 H2]%range_bounds. unfold print_range.
  destruct (to_string_digits _ H1) as [D1 N1]. destruct (to_string_digits _ H2) as [D2 N2].
  pose proof (digits_no_char "," _ eq_refl D1). pose proof (digits_no_char "," _ eq_refl D2).
  case_decide; split; try done; [|set_solver].
  intros Hnil%(f_equal length). rewrite length_app in Hnil. simpl in Hnil. lia.
Qed.

(** The loop over a range ends when its end is not the largest integer, and
    never ends otherwise. *)
Lemma range_loop_spec fuel b e indices :
  (0 ≤ b ≤ e + 1)%Z → (e < u64_modulus - 1)%Z → (e - b + 1 < Z.of_nat fuel)%Z →
  range_loop fuel b e indices = Ok (indices ++ seqZ b (e - b + 1)).
Proof.
  revert b indices. induction fuel as [|fuel IH]; intros b indices Hb He Hf; [lia|]. simpl.
  case_decide as Hle.
  - rewrite u64_small by (unfold is_u64; lia). rewrite IH by lia.
    rewrite <-app_assoc, (seqZ_cons b) by lia. simpl. do 4 f_equal; lia.
  - rewrite seqZ_nil by lia. by rewrite app_nil_r.
Qed.

Lemma range_loop_diverges fuel b indices :
  is_u64 b → range_loop fuel b (u64_modulus - 1) indices = Undef "parseIndices: out of fuel".
Proof.
  revert b indices. induction fuel as [|fuel IH]; intros b indices Hb; [done|]. simpl.
  rewrite decide_True by (destruct Hb; lia). apply IH, u64_is_u64.
Qed.

(** Enough iterations for the ranges of a list. *)
Definition range_fuel (fuel : nat) (r : Z * Z) : Prop := (r.2 - r.1 + 1 < Z.of_nat fuel)%Z.

(** One printed range is read back as its numbers. *)
Lemma parse_range_step fuel r ranges indices :
  range_ok r → range_fuel fuel r →
  parseIndices_loop fuel (print_range r :: ranges) indices =
    parseIndices_loop fuel ranges (indices ++ seqZ r.1 (r.2 - r.1 + 1)).
Proof.
  intros Hr Hfuel. destruct (range_bounds r Hr) as [H1 H2]. destruct Hr as [Hle Hlt].
  destruct (to_string_digits _ H1) as [D1 N1]. destruct (to_string_digits _ H2) as [D2 N2].
  pose proof (digits_no_char "-" _ eq_refl D1) as M1. pose proof (digits_no_char "-" _ eq_refl D2) as M2.
  cbn [parseIndices_loop]. unfold print_range. destruct (decide (r.1 = r.2)) as [Heq|Heq].
  - rewrite decide_False by done. rewrite decide_False by done. rewrite parse_to_string by done.
    by replace (r.2 - r.1 + 1)%Z with 1%Z by lia.
  - rewrite decide_False by (by destruct (to_string r.1)). rewrite decide_True by set_solver.
    destruct (split_join "-" [to_string r.1; to_string r.2]) as [Hs _].
    + done.
    + repeat constructor; done.
    + change (join "-" [to_string r.1; to_string r.2]) with
        (to_string r.1 ++ "-"%char :: to_string r.2) in Hs. rewrite Hs.
      rewrite !parse_to_string by done. rewrite decide_False by lia.
      by rewrite range_loop_spec by (done || lia).
Qed.

Lemma parse_ranges_loop fuel rs indices :
  Forall range_ok rs → Forall (range_fuel fuel) rs →
  parseIndices_loop fuel (print_range <$> rs) indices =
    Ok (true, indices ++ (rs ≫= λ r, seqZ r.1 (r.2 - r.1 + 1))).
Proof.
  intros HF. revert indices. induction HF as [|r rs Hr HF IH]; intros indices Hfuel.
  { simpl. by rewrite app_nil_r. }
  apply Forall_cons in Hfuel as [? ?].
  rewrite fmap_cons, parse_range_step, IH by done. simpl. by rewrite <-app_assoc.
Qed.

(** ** Properties *)

(** A string of up to three values (the format of TAMPI_POLLING_PERIOD and of
    the like) is accepted exactly when it consists of one to three non-empty
    fields separated by single delimiters, each of which its parser accepts;
    the result is the parsed values, in order. *)
Theorem parse3_format {T1 T2 T3} (p1 : list ascii → option T1) (p2 : list ascii → option T2)
    (p3 : list ascii → option T3) (s : list ascii) (delim : ascii) r :
  parse3 p1 p2 p3 s delim = Some r ↔
  ∃ cs, s = join delim cs ∧ Forall (field_ok delim) cs ∧
    match cs, r with
    | [c1], (v1, None, None) => v1 = p1 c1 ∧ is_Some v1
    | [c1; c2], (v1, v2, None) => v1 = p1 c1 ∧ v2 = p2 c2 ∧ is_Some v1 ∧ is_Some v2
    | [c1; c2; c3], (v1, v2, v3) =>
        v1 = p1 c1 ∧ v2 = p2 c2 ∧ v3 = p3 c3 ∧ is_Some v1 ∧ is_Some v2 ∧ is_Some v3
    | _, _ => False
    end.
Proof.
  unfold parse3. split.
  - case_decide as Hd; [done|]. intros Hp.
    destruct (split_inv delim s) as (Hs & HF & Hne); [lia|].
    exists (split s delim). split_and!; [done..|].
    destruct (split s delim) as [|c1 [|c2 [|c3 [|c4 cs]]]]; [done|..|simpl in Hd; lia].
    all: destruct (p1 c1); simpl in Hp; [|done].
    all: try (destruct (p2 c2); simpl in Hp; [|done]).
    all: try (destruct (p3 c3); simpl in Hp; [|done]).
    all: simplify_eq; by split_and!.
  - intros (cs & -> & HF & Hm).
    destruct cs as [|c1 cs]; [done|].
    destruct (split_join delim (c1 :: cs) ltac:(done) HF) as [-> Hc].
    rewrite decide_False; [|destruct r as [[[?|] [?|]] [?|]], cs as [|? [|? [|? ?]]]; simpl in *; lia || done].
    destruct r as [[v1 v2] v3].
    destruct cs as [|c2 [|c3 [|c4 cs]]]; destruct v1, v2, v3; try done;
      destruct_and? Hm; try (exfalso; by eapply is_Some_None); simpl;
      repeat match goal with Hp : Some _ = _ |- _ => rewrite <-Hp; clear Hp; simpl end; done.
Qed.

(** C38: a list of indices printed as comma-separated numbers and ranges, each
    ending below 2^64 - 1, is read back as exactly the numbers it denotes, in
    order; the loop over each range needs one iteration more than the range has
    numbers.  (A range that ends at 2^64 - 1 is never read back: see
    [parseIndices_largest_end_diverges].) *)
Theorem parseIndices_roundtrip fuel rs indices :
  rs ≠ [] → Forall range_ok rs → Forall (range_fuel fuel) rs →
  parseIndices fuel (print_ranges rs) indices =
    Ok (true, indices ++ (rs ≫= λ r, seqZ r.1 (r.2 - r.1 + 1))).
Proof.
  intros Hne HF Hfuel. unfold parseIndices, print_ranges.
  destruct (split_join "," (print_range <$> rs)) as [-> _].
  - by destruct rs.
  - apply Forall_fmap. eapply Forall_impl; [exact HF|]. apply print_range_ok.
  - by apply parse_ranges_loop.
Qed.

#[local] Transparent to_string.

Lemma parseIndices_roundtrip_witness :
  print_ranges [(0, 0); (2, 2); (5, 9); (11, 11)]%Z = str "0,2,5-9,11" ∧
  parseIndices 8 (str "0,2,5-9,11") [] = Ok (true, [0; 2; 5; 6; 7; 8; 9; 11]%Z).
Proof.
  split; [by vm_compute|].
  change (str "0,2,5-9,11") with (print_ranges [(0, 0); (2, 2); (5, 9); (11, 11)]%Z).
  rewrite (parseIndices_roundtrip 8 [(0, 0); (2, 2); (5, 9); (11, 11)]%Z []).
  - reflexivity.
  - done.
  - repeat constructor; vm_compute; done.
  - repeat constructor; vm_compute; done.
Defined.

#[local] Opaque to_string.

(** A range that ends at the largest [uint64_t] is not handled: the loop
    over it goes on after any number of iterations, because the counter wraps
    around to zero. *)
Theorem parseIndices_largest_end_diverges fuel b :
  is_u64 b → (b < u64_modulus - 1)%Z →
  parseIndices fuel (print_range (b, u64_modulus - 1)%Z) [] = Undef "parseIndices: out of fuel".
Proof.
  intros Hb Hlt.
  assert (is_u64 (u64_modulus - 1)) as He by (unfold is_u64, u64_modulus; lia).
  destruct (to_string_digits _ Hb) as [D1 N1]. destruct (to_string_digits _ He) as [D2 N2].
  pose proof (digits_no_char "-" _ eq_refl D1) as M1. pose proof (digits_no_char "-" _ eq_refl D2) as M2.
  pose proof (digits_no_char "," _ eq_refl D1) as K1. pose proof (digits_no_char "," _ eq_refl D2) as K2.
  unfold print_range. cbn [fst snd]. rewrite decide_False by lia.
  destruct (split_join "-" [to_string b; to_string (u64_modulus - 1)]) as [Hs _];
    [done|by repeat constructor|].
  destruct (split_join "," [to_string b ++ "-"%char :: to_string (u64_modulus - 1)]) as [Hs' _];
    [done|repeat constructor; [by destruct (to_string b)|set_solver]|].
  simpl in Hs, Hs'. unfold parseIndices. rewrite Hs'. cbn [parseIndices_loop].
  rewrite decide_False by (by destruct (to_string b)). rewrite decide_True by set_solver. rewrite Hs.
  rewrite !parse_to_string by done. rewrite decide_False by lia.
  by rewrite range_loop_diverges.
Qed.

#[local] Transparent to_string.

Lemma parseIndices_largest_end_diverges_witness :
  parseIndices 100 (str "7-18446744073709551615") [] = Undef "parseIndices: out of fuel".
Proof.
  change (str "7-18446744073709551615") with (print_range (7, u64_modulus - 1)%Z).
  apply (parseIndices_largest_end_diverges 100 7); [split; vm_compute; done|vm_compute; done].
Defined.
