(* ===== verification/CapacityCtrl.v ===== *)
(** * The capacity controller

    [TicketManagerCapacityCtrl]
    ([src/src/common/TicketManagerCapacityCtrl.hpp]) bounds how many requests
    the ticket manager keeps in flight and raises the bound when the manager
    has been saturated for too long. *)

From Stdlib Require Import Ascii.
From S2P Require Import Prelude StringSupport.

(** ** The code *)

Definition CapacityLimit : Z := 32 * 1024.

Record TicketManagerCapacityCtrl := mkCtrl {
  _capacityMin : Z;
  _capacityMax : Z;
  _dynamic : bool;
  _capacity : Z;
  _timeout : Z;
  _saturation : bool;
  _saturationBegin : Z;
}.
Implicit Types st : TicketManagerCapacityCtrl.

(** The value a local [uint64_t] has after [std::istringstream(c) >> v]: when
    the component holds nothing but white space, [v] stays uninitialised. *)
Definition extracted (c : list ascii) : outcome Z :=
  match extract_u64 c with
  | Got v => Ok v
  | Bad (Some v) => Ok v
  | Bad None => Undef "uninitialised capacity"
  end.

Definition parseCapacities (policy : list ascii) : outcome (Z * Z) :=
  match getlines ":" policy with
  | [c0] => min ← extracted c0; Ok (min, min)
  | [c0; c1] => min ← extracted c0; max ← extracted c1; Ok (min, max)
  | _ => Fail "TAMPI_CAPACITY has format '<min capacity>[:<max capacity>]'"
  end.

(** The constructor; the arguments are the values of the TAMPI_CAPACITY and
    TAMPI_CAPACITY_TIMEOUT environment variables. *)
Definition newCtrl (policy timeout : option (list ascii)) : outcome TicketManagerCapacityCtrl :=
  let policy := (newEnv parse_string "TAMPI_CAPACITY" [] policy).1 in
  let timeout := (newEnv parse_u64 "TAMPI_CAPACITY_TIMEOUT" 0%Z timeout).1 in
  let t := if _isPresent timeout then _value timeout else 10%Z in
  if _isPresent policy then
    '(min, max) ← parseCapacities (_value policy);
    _ ← fail_if (bool_decide (max < min)%Z) "Minimum capacity cannot be greater than maximum";
    let cmin := Z.min min CapacityLimit in
    let cmax := Z.min max CapacityLimit in
    Ok (mkCtrl cmin cmax (bool_decide (cmin ≠ cmax)) cmin t false 0)
  else Ok (mkCtrl 128 CapacityLimit true 128 t false 0).

Definition get st : nat := Z.to_nat (_capacity st).
Definition max : nat := Z.to_nat CapacityLimit.

(** [evaluate(pending, completed)] at time [now]; times are in nanoseconds,
    the timeout in milliseconds, and the time stamps (a [double] in the code)
    are exact. *)
Definition evaluate (pending completed now : Z) st : TicketManagerCapacityCtrl :=
  if (_capacity st =? _capacityMax st)%Z then st
  else if bool_decide (pending = _capacity st ∧ completed = 0)%Z then
    if negb (_saturation st) then
      mkCtrl (_capacityMin st) (_capacityMax st) (_dynamic st) (_capacity st) (_timeout st) true now
    else if (_timeout st * 1000000 <? now - _saturationBegin st)%Z then
      mkCtrl (_capacityMin st) (_capacityMax st) (_dynamic st)
        (Z.min (u64 (_capacity st * 2)) (_capacityMax st)) (_timeout st) false (_saturationBegin st)
    else st
  else mkCtrl (_capacityMin st) (_capacityMax st) (_dynamic st) (_capacity st) (_timeout st) false
         (_saturationBegin st).

(** ** Invariant *)

Record ctrl_ok st : Prop := {
  ok_min : (0 ≤ _capacityMin st ≤ _capacity st)%Z;
  ok_max : (_capacity st ≤ _capacityMax st ≤ CapacityLimit)%Z;
}.

Lemma get_le_max st : ctrl_ok st → get st ≤ max.
Proof. intros [? ?]. unfold get, max. lia. Qed.

Lemma double_no_overflow st : ctrl_ok st → u64 (_capacity st * 2) = (_capacity st * 2)%Z.
Proof.
  intros [? ?]. apply u64_small. unfold is_u64, u64_modulus, CapacityLimit in *. lia.
Qed.

Lemma evaluate_capacity pending completed now st :
  ctrl_ok st →
  _capacity (evaluate pending completed now st) = _capacity st ∨
  (pending = _capacity st ∧ completed = 0%Z ∧ _saturation st = true ∧
   (_timeout st * 1000000 < now - _saturationBegin st)%Z ∧
   _capacity (evaluate pending completed now st) = Z.min (_capacity st * 2) (_capacityMax st)).
Proof.
  intros Hok. unfold evaluate. destruct (Z.eqb_spec (_capacity st) (_capacityMax st)); [by left|].
  case_bool_decide as Hs; [|by left]. destruct (_saturation st); [|by left]. simpl.
  destruct (Z.ltb_spec (_timeout st * 1000000) (now - _saturationBegin st)); [|by left].
  right. simpl. rewrite double_no_overflow by done. naive_solver.
Qed.

Lemma evaluate_frame pending completed now st :
  _capacityMin (evaluate pending completed now st) = _capacityMin st ∧
  _capacityMax (evaluate pending completed now st) = _capacityMax st ∧
  _timeout (evaluate pending completed now st) = _timeout st.
Proof. unfold evaluate. repeat case_match; done. Qed.

Lemma evaluate_ok pending completed now st :
  ctrl_ok st → ctrl_ok (evaluate pending completed now st).
Proof.
  intros Hok. destruct (evaluate_frame pending completed now st) as (Hmin & Hmax & _).
  pose proof (evaluate_capacity pending completed now st Hok) as Hc. destruct Hok as [? ?].
  split; rewrite ?Hmin, ?Hmax; destruct Hc as [->|(_ & _ & _ & _ & ->)]; lia.
Qed.

Lemma evaluate_get_mono pending completed now st :
  ctrl_ok st → get st ≤ get (evaluate pending completed now st).
Proof.
  intros Hok. pose proof (evaluate_capacity pending completed now st Hok) as Hc.
  destruct Hok as [? ?]. unfold get. destruct Hc as [->|(_ & _ & _ & _ & ->)]; lia.
Qed.

(** ** Construction *)

Lemma extracted_nonneg c : post True (λ v, (0 ≤ v)%Z) (extracted c) ∨ extracted c = Undef "uninitialised capacity".
Proof.
  unfold extracted. pose proof (extract_u64_range c) as Hr.
  destruct (extract_u64 c) as [v|[v|]]; [left; apply Hr..|by right].
Qed.

(** The components of the policy: a value that was read, or nothing. *)
Lemma parseCapacities_nonneg policy min max :
  parseCapacities policy = Ok (min, max) → (0 ≤ min)%Z.
Proof.
  unfold parseCapacities. intros Hp.
  destruct (getlines ":" policy) as [|c0 [|c1 [|c2 cs]]]; try done;
    apply bind_Ok in Hp as (v & Hv & Hp);
    (destruct (extracted_nonneg c0) as [Hn|Hn]; rewrite Hv in Hn; [simpl in Hn|done]).
  - by simplify_eq.
  - apply bind_Ok in Hp as (v' & _ & Hp). by simplify_eq.
Qed.

Lemma newCtrl_ok policy timeout st : newCtrl policy timeout = Ok st → ctrl_ok st.
Proof.
  unfold newCtrl. destruct policy as [p|]; simpl.
  - intros Hn. apply bind_Ok in Hn as ([min max] & Hp & Hn). apply bind_Ok in Hn as (u & Hf & Hn).
    apply fail_if_Ok, bool_decide_eq_false in Hf. pose proof (parseCapacities_nonneg _ _ _ Hp).
    simplify_eq. unfold CapacityLimit. split; simpl; unfold CapacityLimit; lia.
  - intros [= <-]. unfold CapacityLimit. split; simpl; unfold CapacityLimit; lia.
Qed.

(** ** Growth *)

(** Two polls of a saturated manager, more than the timeout apart, that
    complete nothing. *)
Definition saturated_round (t1 t2 : Z) st : TicketManagerCapacityCtrl :=
  evaluate (_capacity st) 0 t2 (evaluate (_capacity st) 0 t1 st).

Lemma saturated_round_spec t1 t2 st :
  ctrl_ok st → _saturation st = false → (_timeout st * 1000000 < t2 - t1)%Z →
  _capacity (saturated_round t1 t2 st) = Z.min (_capacity st * 2) (_capacityMax st) ∧
  _saturation (saturated_round t1 t2 st) = false ∧
  _capacityMax (saturated_round t1 t2 st) = _capacityMax st ∧
  _timeout (saturated_round t1 t2 st) = _timeout st ∧ ctrl_ok (saturated_round t1 t2 st).
Proof.
  intros Hok Hsat Ht. assert (ctrl_ok (saturated_round t1 t2 st)) as Hok'
    by (unfold saturated_round; auto using evaluate_ok).
  split_and!; try done; unfold saturated_round, evaluate; rewrite ?Hsat;
    destruct (Z.eqb_spec (_capacity st) (_capacityMax st)) as [Heq|Hne].
  all: try (rewrite ?(proj2 (Z.eqb_eq _ _) Heq)).
  all: try (destruct Hok; lia || done).
  all: rewrite bool_decide_eq_true_2 by done; simpl.
  all: rewrite (proj2 (Z.eqb_neq _ _) Hne), bool_decide_eq_true_2 by done; simpl.
  all: rewrite (proj2 (Z.ltb_lt _ _) Ht); simpl; try done.
  by rewrite double_no_overflow.
Qed.

Fixpoint saturated_rounds (ts : list (Z * Z)) st : TicketManagerCapacityCtrl :=
  match ts with
  | [] => st
  | (t1, t2) :: ts => saturated_rounds ts (saturated_round t1 t2 st)
  end.

(** A history of polls: the requests in flight, the completions and the time
    each call of [evaluate] was given. *)
Fixpoint evaluations (polls : list (Z * Z * Z)) st : TicketManagerCapacityCtrl :=
  match polls with
  | [] => st
  | (pending, completed, now) :: polls => evaluations polls (evaluate pending completed now st)
  end.

(** ** Properties *)

(** Whatever TAMPI_CAPACITY and TAMPI_CAPACITY_TIMEOUT hold, a controller
    that is constructed starts at its minimum, with minimum, capacity and
    maximum ordered and at most 32768, and not saturated; without
    TAMPI_CAPACITY it starts at 128 and may grow to 32768. *)
Theorem capacity_constructed policy timeout st :
  newCtrl policy timeout = Ok st →
  ctrl_ok st ∧ _capacity st = _capacityMin st ∧ _saturation st = false ∧
  (policy = None → _capacity st = 128%Z ∧ _capacityMax st = CapacityLimit).
Proof.
  intros Hn. split; [by eapply newCtrl_ok|]. unfold newCtrl in Hn.
  destruct policy as [p|]; simpl in Hn; [|by simplify_eq].
  apply bind_Ok in Hn as ([min max] & Hp & Hn). apply bind_Ok in Hn as (u & Hf & Hn).
  by simplify_eq.
Qed.

Lemma capacity_constructed_witness :
  ∃ st, newCtrl (Some (str "64:100000")) (Some (str "5")) = Ok st ∧ ctrl_ok st ∧
    _capacity st = 64%Z ∧ _capacityMax st = 32768%Z ∧ _timeout st = 5%Z.
Proof.
  eexists. split; [reflexivity|].
  split; [exact (proj1 (capacity_constructed (Some (str "64:100000")) (Some (str "5")) _ eq_refl))|].
  by vm_compute.
Defined.



(** A manager that stays saturated is not kept small: after [k] rounds of
    two saturated polls more than the timeout apart, the capacity is
    [min (2^k * capacity) maximum]. *)
Theorem capacity_reaches_maximum (ts : list (Z * Z)) st :
  ctrl_ok st → _saturation st = false →
  Forall (λ t, (_timeout st * 1000000 < t.2 - t.1)%Z) ts →
  _capacity (saturated_rounds ts st) =
    Z.min (2 ^ Z.of_nat (length ts) * _capacity st) (_capacityMax st).
Proof.
  intros Hok Hsat HF. remember (_timeout st) as timeout eqn:Htime. revert st Hok Hsat Htime.
  induction HF as [|[t1 t2] ts Ht HF IH]; intros st Hok Hsat Htime.
  { change (2 ^ Z.of_nat (length []))%Z with 1%Z. simpl. destruct Hok. lia. }
  cbn [saturated_rounds length]. rewrite Htime in Ht.
  destruct (saturated_round_spec t1 t2 st Hok Hsat Ht) as (Hc & Hs & Hm & Hti & Hok').
  rewrite IH by (done || congruence). rewrite Hc, Hm, Nat2Z.inj_succ, Z.pow_succ_r by lia.
  pose proof (Z.pow_pos_nonneg 2 (Z.of_nat (length ts))). destruct Hok.
  destruct (Z.min_spec (_capacity st * 2) (_capacityMax st)) as [[? ->]|[? ->]]; nia.
Qed.

Lemma capacity_reaches_maximum_witness :
  _capacity (saturated_rounds [(0, 20000000)%Z; (30000000, 50000000)%Z]
    (mkCtrl 128 400 true 128 10 false 0)) = 400%Z.
Proof.
  rewrite (capacity_reaches_maximum [(0, 20000000)%Z; (30000000, 50000000)%Z]
    (mkCtrl 128 400 true 128 10 false 0)).
  - reflexivity.
  - split; simpl; unfold CapacityLimit; lia.
  - reflexivity.
  - repeat constructor.
Defined.

(** A capacity of zero, which TAMPI_CAPACITY=0 and values that are not
    numbers give, is kept forever: no sequence of polls raises it. *)
Theorem capacity_zero_is_stuck timeout polls :
  ∃ st, newCtrl (Some (str "0:128")) timeout = Ok st ∧ get (evaluations polls st) = 0.
Proof.
  unfold newCtrl. simpl. eexists. split; [reflexivity|].
  match goal with |- get (evaluations polls ?st) = 0 =>
    assert (ctrl_ok st) as Hok by (split; simpl; unfold CapacityLimit; lia);
    assert (_capacity st = 0%Z) as Hz by done; revert Hok Hz; generalize st end.
  induction polls as [|[[pending completed] now] polls IH]; intros st Hok Hz.
  { unfold get. simpl. by rewrite Hz. }
  apply IH; [by apply evaluate_ok|].
  pose proof (ok_max _ (evaluate_ok pending completed now st Hok)).
  pose proof (evaluate_capacity pending completed now st Hok) as [->|(_&_&_&_&->)]; [done|].
  rewrite Hz. destruct Hok. lia.
Qed.
