(* ===== verification/PollingPeriod.v ===== *)
(** * The polling period

    [SlowStartPollingPeriodCtrl]
    ([src/src/common/polling/SlowStartPollingPeriodCtrl.hpp]) and
    [PollingPeriodCtrl] ([src/src/common/polling/PollingPeriodCtrl.hpp] and
    [.cpp]): how long the polling task waits before it polls again. *)

From S2P Require Import Prelude StringSupport.
From Stdlib Require Import Ascii QArith Qround Lqa.

(** ** Doubles *)

(** The finite values of [double] are rationals and each operation is the exact
    one followed by [rnd].  IEEE 754 rounding, in any of its modes, is monotone
    and exact on the halves of integers of up to 53 bits. *)
Class Doubles := {
  rnd : Q → Q;
  rnd_mono x y : (x <= y)%Q → (rnd x <= rnd y)%Q;
  rnd_exact (n : Z) : (Z.abs n < 2 ^ 53)%Z → (rnd (n # 2) == n # 2)%Q;
}.

Section slowstart.
Context `{Doubles}.

Definition fmul (x y : Q) : Q := rnd (x * y).
Definition fadd (x y : Q) : Q := rnd (x + y).
Definition fdiv (x y : Q) : Q := rnd (x / y).

(** [std::max] and [std::min]. *)
Definition fltb (x y : Q) : bool := negb (Qle_bool y x).
Definition fmax (x y : Q) : Q := if fltb x y then y else x.
Definition fmin (x y : Q) : Q := if fltb y x then y else x.

(** Conversions from and to [uint64_t]; the second truncates. *)
Definition of_u64 (n : Z) : Q := rnd (inject_Z n).
Definition to_u64 (x : Q) : Z := Qfloor x.

(** ** SlowStartPollingPeriodCtrl *)

Definition Tolerance : Z := 50.
Definition Penalty : Q := 2.
Definition MinBase : Q := 10.

Record SlowStart := mkSlowStart {
  ss_minPeriod : Q;
  ss_maxPeriod : Q;
  ss_period : Q;
  ss_factor : Q;
  ss_misses : Z;
}.
Implicit Types st : SlowStart.

Definition newSlowStart (periodMin periodMax : Z) : SlowStart :=
  mkSlowStart (of_u64 periodMin) (of_u64 periodMax) (of_u64 periodMax) 2 0.

(** [run(completedUnits, _)] *)
Definition run (completedUnits : Z) st : outcome (Z * SlowStart) :=
  let misses := if (completedUnits =? 0)%Z then (ss_misses st + 1)%Z else ss_misses st in
  if (completedUnits =? 0)%Z && (misses <? Tolerance)%Z then
    Ok (to_u64 (ss_period st),
        mkSlowStart (ss_minPeriod st) (ss_maxPeriod st) (ss_period st) (ss_factor st) misses)
  else
    let st :=
      if (completedUnits =? 0)%Z then
        let period := fmax (fmin (fmul (ss_period st) Penalty) (ss_maxPeriod st)) MinBase in
        let factor := fdiv (fadd (fmul (3 # 2) (ss_maxPeriod st)) (fmul (1 # 2) period))
                        (ss_maxPeriod st) in
        mkSlowStart (ss_minPeriod st) (ss_maxPeriod st) period factor 0
      else
        mkSlowStart (ss_minPeriod st) (ss_maxPeriod st)
          (fmax (fdiv (ss_period st) (ss_factor st)) (ss_minPeriod st)) (ss_factor st) 0 in
    _ ← assert (Qle_bool (3 # 2) (ss_factor st) && Qle_bool (ss_factor st) 2)
          "_factor >= 1.5 && _factor <= 2.0";
    _ ← assert (Qle_bool (ss_period st) (ss_maxPeriod st) &&
                Qle_bool (ss_minPeriod st) (ss_period st))
          "_period <= _maxPeriod && _period >= _minPeriod";
    Ok (to_u64 (ss_period st), st).
End slowstart.

(** ** Bounds *)

Section slowstart_proofs.
Context `{Doubles} (mn mx : Z) (Hmn : (0 ≤ mn ≤ mx)%Z) (Hmx : (10 ≤ mx < 2 ^ 51)%Z).
Implicit Types st : SlowStart.
Local Open Scope Q_scope.

Lemma rnd_eq x y : x == y → rnd x == rnd y.
Proof. intros Hxy. apply Qle_antisym; apply rnd_mono; lra. Qed.

Lemma half_inject (n : Z) : n # 2 == (1 # 2) * inject_Z n.
Proof. unfold Qeq. simpl. destruct n; lia. Qed.

(** Rounding stays within representable bounds. *)
Lemma rnd_le (n : Z) x :
  (Z.abs n < 2 ^ 53)%Z → x <= (1 # 2) * inject_Z n → rnd x <= (1 # 2) * inject_Z n.
Proof.
  intros Hn Hx. rewrite <-half_inject in *. pose proof (rnd_exact n Hn).
  pose proof (rnd_mono _ _ Hx). lra.
Qed.
Lemma rnd_ge (n : Z) x :
  (Z.abs n < 2 ^ 53)%Z → (1 # 2) * inject_Z n <= x → (1 # 2) * inject_Z n <= rnd x.
Proof.
  intros Hn Hx. rewrite <-half_inject in *. pose proof (rnd_exact n Hn).
  pose proof (rnd_mono _ _ Hx). lra.
Qed.

Lemma fltb_true x y : fltb x y = true ↔ x < y.
Proof.
  unfold fltb. rewrite negb_true_iff. rewrite <-not_true_iff_false, Qle_bool_iff.
  split; [apply Qnot_le_lt|apply Qlt_not_le].
Qed.

Lemma fmax_spec x y : (x <= fmax x y) ∧ (y <= fmax x y) ∧ (fmax x y = x ∨ fmax x y = y).
Proof.
  unfold fmax. destruct (fltb x y) eqn:Hb.
  - apply fltb_true in Hb. split_and!; [lra|lra|by right].
  - assert (¬ x < y) by (by rewrite <-fltb_true, Hb). split_and!; [lra|lra|by left].
Qed.

Lemma fmin_spec x y : (fmin x y <= x) ∧ (fmin x y <= y) ∧ (fmin x y = x ∨ fmin x y = y).
Proof.
  unfold fmin. destruct (fltb y x) eqn:Hb.
  - apply fltb_true in Hb. split_and!; [lra|lra|by right].
  - assert (¬ y < x) by (by rewrite <-fltb_true, Hb). split_and!; [lra|lra|by left].
Qed.

Notation qmn := (inject_Z mn).
Notation qmx := (inject_Z mx).

Lemma inject_mul (k n : Z) : inject_Z (k * n) == inject_Z k * inject_Z n.
Proof. by rewrite inject_Z_mult. Qed.

(** The bounds used below, at the multiples of a half that occur. *)
Lemma rnd_within (a b : Z) x :
  (Z.abs a < 2 ^ 53)%Z → (Z.abs b < 2 ^ 53)%Z →
  (1 # 2) * inject_Z a <= x <= (1 # 2) * inject_Z b →
  (1 # 2) * inject_Z a <= rnd x <= (1 # 2) * inject_Z b.
Proof. intros Ha Hb [Hx Hy]. split; [by apply rnd_ge|by apply rnd_le]. Qed.

Lemma rnd_integers (a b : Z) x :
  (Z.abs a < 2 ^ 52)%Z → (Z.abs b < 2 ^ 52)%Z →
  inject_Z a <= x <= inject_Z b → inject_Z a <= rnd x <= inject_Z b.
Proof.
  intros Ha Hb Hx. pose proof (inject_mul 2 a) as Ea. pose proof (inject_mul 2 b) as Eb.
  change (inject_Z 2) with 2 in *.
  destruct (rnd_within (2 * a) (2 * b) x); [lia|lia|lra|lra].
Qed.

Lemma inject_le (a b : Z) : (a ≤ b)%Z → inject_Z a <= inject_Z b.
Proof. by rewrite <-Zle_Qle. Qed.

Lemma bounds_inject : 0 <= qmn ∧ qmn <= qmx ∧ 10 <= qmx.
Proof. split_and!; [apply (inject_le 0)|apply inject_le|apply (inject_le 10)]; lia. Qed.

Lemma of_u64_exact (n : Z) : (0 ≤ n < 2 ^ 51)%Z → of_u64 n == inject_Z n.
Proof.
  intros Hn. unfold of_u64. destruct (rnd_integers n n (inject_Z n)); [lia|lia|lra|lra].
Qed.

Record ss_inv st : Prop := {
  ss_min : ss_minPeriod st == qmn;
  ss_max : ss_maxPeriod st == qmx;
  ss_bounds : qmn <= ss_period st <= qmx;
  ss_factor_bounds : 3 # 2 <= ss_factor st <= 2;
  ss_misses_bounds : (0 ≤ ss_misses st < Tolerance)%Z;
}.

Lemma newSlowStart_inv : ss_inv (newSlowStart mn mx).
Proof.
  pose proof bounds_inject as Hb.
  pose proof (of_u64_exact mn ltac:(lia)) as En. pose proof (of_u64_exact mx ltac:(lia)) as Ex.
  split; simpl; [done|done|lra|lra|unfold Tolerance; lia].
Qed.

(** ** One poll *)

(** The new period after a miss. *)
Lemma penalty_bounds p x :
  x == qmx → qmn <= p <= qmx →
  qmn <= fmax (fmin (fmul p Penalty) x) MinBase <= qmx.
Proof.
  intros Hx Hp. pose proof bounds_inject as Hb. unfold fmul, Penalty, MinBase.
  pose proof (fmin_spec (rnd (p * 2)) x) as (H1 & H2 & H3).
  pose proof (fmax_spec (fmin (rnd (p * 2)) x) 10) as (H4 & H5 & H6).
  pose proof (inject_mul 2 mn) as E. change (inject_Z 2) with 2 in E.
  assert (qmn <= rnd (p * 2)) as H7.
  { destruct (rnd_integers (2 * mn) (2 * mx) (p * 2)) as [H7 _]; [lia|lia| |lra].
    pose proof (inject_mul 2 mx) as E'. change (inject_Z 2) with 2 in E'. lra. }
  assert (qmn <= fmin (rnd (p * 2)) x) by (destruct H3 as [-> | ->]; lra).
  split; [lra|]. destruct H6 as [-> | ->]; lra.
Qed.

(** The factor recomputed from it. *)
Lemma factor_bounds p x :
  x == qmx → qmn <= p <= qmx →
  3 # 2 <= fdiv (fadd (fmul (3 # 2) x) (fmul (1 # 2) p)) x <= 2.
Proof.
  intros Hx Hp. pose proof bounds_inject as Hb. unfold fdiv, fadd, fmul.
  pose proof (inject_mul 3 mx) as E3. change (inject_Z 3) with 3 in E3.
  pose proof (inject_mul 4 mx) as E4. change (inject_Z 4) with 4 in E4.
  destruct (rnd_within (3 * mx) (3 * mx) ((3 # 2) * x)) as [Ha1 Ha2]; [lia|lia|lra|].
  destruct (rnd_within 0 mx ((1 # 2) * p)) as [Hc1 Hc2]; [lia|lia|change (inject_Z 0) with 0; lra|].
  change (inject_Z 0) with 0 in Hc1.
  destruct (rnd_within (3 * mx) (4 * mx) (rnd ((3 # 2) * x) + rnd ((1 # 2) * p)))
    as [Hs1 Hs2]; [lia|lia|lra|].
  destruct (rnd_within 3 4 (rnd (rnd ((3 # 2) * x) + rnd ((1 # 2) * p)) / x)) as [Hf1 Hf2].
  - lia.
  - lia.
  - change (inject_Z 3) with 3. change (inject_Z 4) with 4.
    split; [apply Qle_shift_div_l|apply Qle_shift_div_r]; lra.
  - change (inject_Z 3) with 3 in Hf1. change (inject_Z 4) with 4 in Hf2. lra.
Qed.

(** The new period after a completion. *)
Lemma decrease_bounds p f x :
  x == qmn → qmn <= p <= qmx → 3 # 2 <= f <= 2 → qmn <= fmax (fdiv p f) x <= qmx.
Proof.
  intros Hx Hp Hf. pose proof bounds_inject as Hb. unfold fdiv.
  pose proof (fmax_spec (rnd (p / f)) x) as (H1 & H2 & H3). split; [lra|].
  assert (rnd (p / f) <= qmx) as H4.
  { destruct (rnd_integers 0 mx (p / f)) as [_ H4]; [lia|lia| |done].
    change (inject_Z 0) with 0. split.
    - apply Qle_shift_div_l; lra.
    - apply Qle_shift_div_r; [lra|]. nra. }
  destruct H3 as [-> | ->]; lra.
Qed.

Lemma asserts_hold st :
  ss_inv st →
  Qle_bool (3 # 2) (ss_factor st) && Qle_bool (ss_factor st) 2 = true ∧
  Qle_bool (ss_period st) (ss_maxPeriod st) && Qle_bool (ss_minPeriod st) (ss_period st) = true.
Proof.
  intros []. rewrite !andb_true_iff, !Qle_bool_iff. split_and!; lra.
Qed.

Lemma floor_bounds x : qmn <= x <= qmx → (mn ≤ to_u64 x ≤ mx)%Z.
Proof.
  intros [H1 H2]. unfold to_u64. rewrite <-(Qfloor_Z mn), <-(Qfloor_Z mx) at 1.
  split; by apply Qfloor_resp_le.
Qed.

Lemma run_spec c st :
  ss_inv st → ∃ p st', run c st = Ok (p, st') ∧ (mn ≤ p ≤ mx)%Z ∧ ss_inv st'.
Proof.
  intros Hi. pose proof Hi as []. unfold run. destruct (c =? 0)%Z eqn:Hc.
  - destruct (Z.ltb_spec (ss_misses st + 1) Tolerance); cbn [andb].
    + do 2 eexists. split; [done|]. split; [by apply floor_bounds|]. split; simpl; try done; lia.
    + pose proof (penalty_bounds _ _ ss_max0 ss_bounds0) as Hp.
      pose proof (factor_bounds _ _ ss_max0 Hp) as Hf.
      set (st' := mkSlowStart _ _ _ _ _). assert (ss_inv st') as Hi' by (split; simpl; lia || done).
      destruct (asserts_hold _ Hi') as [-> ->]. cbn [assert mbind outcome_bind].
      do 2 eexists. split; [done|]. split; [by apply floor_bounds|done].
  - cbn [andb]. pose proof (decrease_bounds _ _ _ ss_min0 ss_bounds0 ss_factor_bounds0) as Hp.
    set (st' := mkSlowStart _ _ _ _ _). assert (ss_inv st') as Hi' by (split; simpl; lia || done).
    destruct (asserts_hold _ Hi') as [-> ->]. cbn [assert mbind outcome_bind].
    do 2 eexists. split; [done|]. split; [by apply floor_bounds|done].
Qed.
End slowstart_proofs.

(** ** PollingPeriodCtrl *)

Section period_ctrl.
Context `{Doubles}.

Definition DefaultPeriodUs : Z := 100.
Definition DefaultPolicy : list ascii := str "slowstart".

Record PollingPeriodCtrl := mkPeriodCtrl {
  pp_minPeriod : Z;
  pp_maxPeriod : Z;
  pp_dynamic : bool;
  pp_policy : list ascii;
  pp_dynamicCtrl : option SlowStart;
}.

(** The constructor; [envar] is the value of the environment variable. *)
Definition newPeriodCtrl (name : string) (envar : option (list ascii)) :
    outcome PollingPeriodCtrl :=
  let value := _value (newEnv parse_string name (to_string DefaultPeriodUs) envar).1 in
  match parse3 parse_u64 parse_u64 parse_string value ":" with
  | None => Fail "Invalid format TAMPI_POLLING_PERIOD=minperiod[:maxperiod[:policy]]"
  | Some (v1, v2, v3) =>
      let minPeriod := default DefaultPeriodUs v1 in
      let maxPeriod := default minPeriod v2 in
      let policy := default DefaultPolicy v3 in
      _ ← fail_if (maxPeriod <? minPeriod)%Z
            "TAMPI_POLLING_PERIOD has a minperiod greater than maxperiod";
      if bool_decide (maxPeriod ≠ minPeriod) then
        if bool_decide (policy = str "slowstart" ∨ policy = str "default") then
          Ok (mkPeriodCtrl minPeriod maxPeriod true policy (Some (newSlowStart minPeriod maxPeriod)))
        else Fail "TAMPI_POLLING_PERIOD has an invalid policy"
      else Ok (mkPeriodCtrl minPeriod maxPeriod false policy None)
  end.

(** [getPeriod(completed, _)] *)
Definition getPeriod (completed : Z) (c : PollingPeriodCtrl) : outcome (Z * PollingPeriodCtrl) :=
  if negb (pp_dynamic c) then Ok (pp_maxPeriod c, c)
  else
    d ← read (pp_dynamicCtrl c) "_dynamicCtrl != nullptr";
    '(p, d) ← run completed d;
    Ok (p, mkPeriodCtrl (pp_minPeriod c) (pp_maxPeriod c) true (pp_policy c) (Some d)).

Fixpoint getPeriods (completed : list Z) (c : PollingPeriodCtrl) :
    outcome (list Z * PollingPeriodCtrl) :=
  match completed with
  | [] => Ok ([], c)
  | n :: ns => '(p, c) ← getPeriod n c; '(ps, c) ← getPeriods ns c; Ok (p :: ps, c)
  end.
End period_ctrl.

Section period_proofs.
Context `{Doubles}.
Implicit Types c : PollingPeriodCtrl.

(** The controller of [mn] to [mx] microseconds. *)
Definition period_inv (mn mx : Z) c : Prop :=
  (0 ≤ mn ≤ mx)%Z ∧ pp_maxPeriod c = mx ∧
  if pp_dynamic c then ∃ d, pp_dynamicCtrl c = Some d ∧ ss_inv mn mx d else mn = mx.

Lemma newPeriodCtrl_inv name envar c :
  newPeriodCtrl name envar = Ok c → (10 ≤ pp_maxPeriod c < 2 ^ 51)%Z →
  period_inv (pp_minPeriod c) (pp_maxPeriod c) c.
Proof.
  unfold newPeriodCtrl. intros Hn Hmx.
  destruct (parse3 _ _ _ _ _) as [[[v1 v2] v3]|] eqn:Hp; [|done].
  assert (0 ≤ default DefaultPeriodUs v1)%Z as Hv1.
  { apply parse3_format in Hp as (cs & _ & _ & Hm).
    assert (∃ l, v1 = parse_u64 l) as [l ->].
    { destruct cs as [|c1 [|c2 [|c3 [|c4 cs]]]], v2, v3; try done; naive_solver. }
    destruct (parse_u64 l) eqn:Hl; [by apply parse_u64_range in Hl as []|done]. }
  set (mn := default DefaultPeriodUs v1) in *. set (mx := default mn v2) in *.
  destruct (Z.ltb_spec mx mn); [done|]. simpl in Hn.
  repeat case_bool_decide; simplify_eq; simpl in *.
  - split; [done|]. split; [done|]. eexists. split; [done|]. by apply newSlowStart_inv.
  - split; [done|]. split; [done|]. simpl. lia.
Qed.

Lemma getPeriod_inv mn mx n c :
  (10 ≤ mx < 2 ^ 51)%Z → period_inv mn mx c →
  ∃ p c', getPeriod n c = Ok (p, c') ∧ (mn ≤ p ≤ mx)%Z ∧ period_inv mn mx c'.
Proof.
  intros Hmx (Hb & Hx & Hd). unfold getPeriod. destruct (pp_dynamic c) eqn:Hdyn; simpl.
  - destruct Hd as (d & -> & Hi). simpl.
    destruct (run_spec mn mx Hb Hmx n d Hi) as (p & d' & -> & Hp & Hi'). simpl.
    do 2 eexists. split; [done|]. split; [done|]. split; [done|]. split; [done|]. by exists d'.
  - do 2 eexists. split; [done|]. split; [lia|]. unfold period_inv. by rewrite Hdyn.
Qed.

Lemma getPeriods_inv mn mx ns c :
  (10 ≤ mx < 2 ^ 51)%Z → period_inv mn mx c →
  ∃ ps c', getPeriods ns c = Ok (ps, c') ∧ length ps = length ns ∧
    Forall (λ p, mn ≤ p ≤ mx)%Z ps.
Proof.
  intros Hmx. revert c. induction ns as [|n ns IH]; intros c Hi; [by exists [], c|].
  destruct (getPeriod_inv mn mx n c Hmx Hi) as (p & c1 & Hg & Hp & Hi1).
  destruct (IH c1 Hi1) as (ps & c2 & Hgs & Hl & HF).
  exists (p :: ps), c2. simpl. rewrite Hg. simpl. rewrite Hgs. simpl. by rewrite Hl; auto.
Qed.
End period_proofs.

(** ** Properties *)

Section period_claims.
Context `{Doubles}.

(** However the polling period is configured, with a maximum of at least 10
    microseconds (and below 2^51), every poll of every sequence of polls gets
    a period, and it is between the configured minimum and maximum; the
    assertions on the period and on the factor hold at every step, whatever
    the rounding of floating-point operations. *)
Theorem polling_period_bounded name envar ns c :
  newPeriodCtrl name envar = Ok c → (10 ≤ pp_maxPeriod c < 2 ^ 51)%Z →
  ∃ ps c', getPeriods ns c = Ok (ps, c') ∧ length ps = length ns ∧
    Forall (λ p, pp_minPeriod c ≤ p ≤ pp_maxPeriod c)%Z ps.
Proof.
  intros Hn Hmx. eapply getPeriods_inv; [done|]. by eapply newPeriodCtrl_inv.
Qed.

Lemma misses_accumulate k st :
  (Z.of_nat k + ss_misses st < Tolerance)%Z →
  ∀ c, pp_dynamic c = true → pp_dynamicCtrl c = Some st →
  ∃ ps, getPeriods (replicate k 0%Z) c = Ok (ps, mkPeriodCtrl (pp_minPeriod c) (pp_maxPeriod c)
    true (pp_policy c) (Some (mkSlowStart (ss_minPeriod st) (ss_maxPeriod st) (ss_period st)
      (ss_factor st) (Z.of_nat k + ss_misses st)))).
Proof.
  revert st. induction k as [|k IH]; intros st Hk c Hd Hc.
  - exists []. destruct c, st; simpl in *. by simplify_eq.
  - cbn [replicate getPeriods]. unfold getPeriod. rewrite Hd, Hc. cbn [negb read mbind outcome_bind].
    unfold run. cbn [Z.eqb andb]. rewrite (proj2 (Z.ltb_lt _ _)) by lia.
    cbn [mbind outcome_bind].
    set (st1 := mkSlowStart (ss_minPeriod st) (ss_maxPeriod st) (ss_period st) (ss_factor st)
      (ss_misses st + 1)).
    destruct (IH st1 ltac:(simpl; lia) (mkPeriodCtrl (pp_minPeriod c) (pp_maxPeriod c) true
      (pp_policy c) (Some st1)) eq_refl eq_refl) as [ps Hps].
    rewrite Hps. eexists. cbn. do 5 f_equal. lia.
Qed.

(** A miss beyond the tolerance raises the period to 10 microseconds. *)
Lemma run_over_maximum st :
  (Tolerance ≤ ss_misses st + 1)%Z → ss_maxPeriod st < 10 → ∃ why, run 0 st = Undef why.
Proof.
  intros Hm Hx. unfold run. cbn [Z.eqb andb]. rewrite (proj2 (Z.ltb_ge _ _)) by lia.
  cbn [ss_factor ss_period ss_maxPeriod ss_minPeriod].
  destruct (fmax_spec (fmin (fmul (ss_period st) Penalty) (ss_maxPeriod st)) MinBase) as (_ & Hp & _).
  unfold MinBase in Hp at 1.
  destruct (Qle_bool (3 # 2) _ && _); cbn [assert mbind outcome_bind]; [|by eexists].
  rewrite (proj2 (andb_false_iff _ _)); [by eexists|]. left. apply not_true_iff_false.
  rewrite Qle_bool_iff. lra.
Qed.

(** With a maximum below 10 microseconds and a smaller minimum, for
    instance "1:5", the fiftieth consecutive poll that completes nothing
    violates an assertion of the controller: the period is raised to the
    minimum base of 10 microseconds, above the configured maximum. *)
Theorem small_maximum_violated name envar c :
  newPeriodCtrl name envar = Ok c → pp_dynamic c = true → (0 ≤ pp_maxPeriod c < 10)%Z →
  ∃ ps c' why, getPeriods (replicate 49 0%Z) c = Ok (ps, c') ∧ getPeriod 0 c' = Undef why.
Proof.
  intros Hn Hd Hmx.
  assert (pp_dynamicCtrl c = Some (newSlowStart (pp_minPeriod c) (pp_maxPeriod c))) as Hc.
  { unfold newPeriodCtrl in Hn. destruct (parse3 _ _ _ _ _) as [[[v1 v2] v3]|]; [|done].
    apply bind_Ok in Hn as (u & _ & Hn). repeat case_bool_decide; simplify_eq; done. }
  destruct (misses_accumulate 49 (newSlowStart (pp_minPeriod c) (pp_maxPeriod c)) eq_refl c Hd Hc) as [ps Hps].
  destruct (run_over_maximum (mkSlowStart (of_u64 (pp_minPeriod c)) (of_u64 (pp_maxPeriod c))
    (of_u64 (pp_maxPeriod c)) 2 49)) as [why Hw]; [done| |].
  { simpl. rewrite of_u64_exact by lia. change 10 with (inject_Z 10). rewrite <-Zlt_Qlt. lia. }
  exists ps. eexists. exists why. split; [exact Hps|].
  unfold getPeriod. cbn [pp_dynamic pp_dynamicCtrl negb read mbind outcome_bind].
  change (run 0 _) with (run 0 (mkSlowStart (of_u64 (pp_minPeriod c)) (of_u64 (pp_maxPeriod c))
    (of_u64 (pp_maxPeriod c)) 2 49)). by rewrite Hw.
Qed.
End period_claims.

Section period_witnesses.
(** Rounding down to multiples of 2^-10, which is exact on halves. *)
Definition demo_rnd (x : Q) : Q := Qfloor (x * 1024) # 1024.

Lemma demo_rnd_mono x y : x <= y → demo_rnd x <= demo_rnd y.
Proof.
  intros Hxy. unfold demo_rnd, Qle. cbn [Qnum Qden].
  assert (Qfloor (x * 1024) ≤ Qfloor (y * 1024))%Z by (apply Qfloor_resp_le; lra). lia.
Qed.

Lemma demo_rnd_exact (n : Z) : (Z.abs n < 2 ^ 53)%Z → demo_rnd (n # 2) == n # 2.
Proof.
  intros _. unfold demo_rnd.
  assert ((n # 2) * 1024 == inject_Z (n * 512)) as He by (unfold Qeq; simpl; lia).
  rewrite (Qfloor_comp _ _ He), Qfloor_Z. unfold Qeq. simpl. lia.
Qed.

#[local] Instance demo_doubles : Doubles :=
  {| rnd := demo_rnd; rnd_mono := demo_rnd_mono; rnd_exact := demo_rnd_exact |}.

Definition demo_period (s : string) : PollingPeriodCtrl :=
  match newPeriodCtrl "TAMPI_POLLING_PERIOD" (Some (str s)) with
  | Ok c => c | _ => mkPeriodCtrl 0 0 false [] None end.

Lemma polling_period_bounded_witness :
  ∃ ps c', getPeriods [1; 3; 0; 2]%Z (demo_period "5:100") = Ok (ps, c') ∧ length ps = 4%nat ∧
    Forall (λ p, pp_minPeriod (demo_period "5:100") ≤ p ≤ pp_maxPeriod (demo_period "5:100"))%Z ps.
Proof.
  apply (polling_period_bounded "TAMPI_POLLING_PERIOD" (Some (str "5:100")) [1; 3; 0; 2]%Z);
    [reflexivity|split; [discriminate|reflexivity]].
Defined.

Lemma small_maximum_violated_witness :
  ∃ ps c' why, getPeriods (replicate 49 0%Z) (demo_period "1:5") = Ok (ps, c') ∧
    getPeriod 0 c' = Undef why.
Proof.
  apply (small_maximum_violated "TAMPI_POLLING_PERIOD" (Some (str "1:5")));
    [reflexivity|reflexivity|split; [discriminate|reflexivity]].
Defined.
End period_witnesses.
