(* ===== verification/Clock.v ===== *)
(** * The clock

    [Clock::now_ms] ([src/src/common/util/Clock.hpp]) reads the monotonic clock
    of the system as a [double] in milliseconds.  The time stamps never run
    backwards, and they are precise enough for the only decision taken on them,
    the saturation timeout of
    [src/src/common/TicketManagerCapacityCtrl.hpp]: the controller with its
    [double] time stamps does what the one of [CapacityCtrl.v] does with exact
    nanoseconds, unless the timeout expires within a hundredth of a
    millisecond. *)

From S2P Require Import Prelude StringSupport CapacityCtrl PollingPeriod.
From Stdlib Require Import QArith Qround Lqa.

(** ** Precision *)

(** In every mode, IEEE 754 rounding of a nonnegative number that does not
    overflow is off by at most one unit in the last of 53 bits, or by the least
    positive number, which is far below 2^-100. *)
Definition ulp : Q := 1 # 4503599627370496.
Definition tiny : Q := 1 # 1267650600228229401496703205376.

Class PreciseDoubles `{Doubles} := {
  rnd_near x : (0 <= x)%Q → (x - x * ulp - tiny <= rnd x <= x + x * ulp + tiny)%Q;
}.

Section clock.
Context `{Doubles}.
Local Open Scope Q_scope.

(** What [clock_gettime] stores. *)
Record timespec := mkTimespec { tv_sec : Z; tv_nsec : Z }.

(** Conversion from [time_t] and [long], and the constant [1.0e-6]. *)
Definition of_long (n : Z) : Q := rnd (inject_Z n).
Definition e_minus_6 : Q := rnd (1 # 1000000).

Definition now_ms (tp : timespec) : Q :=
  fadd (fmul (of_long (tv_sec tp)) 1000) (fmul (of_long (tv_nsec tp)) e_minus_6).

(** [evaluate(pending, completed)] when the clock shows [tp]; [begin_] is
    [_saturationBegin], which the state [st] of [CapacityCtrl.v] has in
    nanoseconds. *)
Definition evaluate_ms (pending completed : Z) (tp : timespec) (st : TicketManagerCapacityCtrl)
    (begin_ : Q) : TicketManagerCapacityCtrl * Q :=
  if (_capacity st =? _capacityMax st)%Z then (st, begin_)
  else if bool_decide (pending = _capacity st ∧ completed = 0)%Z then
    if negb (_saturation st) then
      (mkCtrl (_capacityMin st) (_capacityMax st) (_dynamic st) (_capacity st) (_timeout st) true
         (tv_sec tp * 1000000000 + tv_nsec tp), now_ms tp)
    else if fltb (of_u64 (_timeout st)) (rnd (now_ms tp - begin_)) then
      (mkCtrl (_capacityMin st) (_capacityMax st) (_dynamic st)
         (Z.min (u64 (_capacity st * 2)) (_capacityMax st)) (_timeout st) false (_saturationBegin st),
       begin_)
    else (st, begin_)
  else (mkCtrl (_capacityMin st) (_capacityMax st) (_dynamic st) (_capacity st) (_timeout st) false
          (_saturationBegin st), begin_).
End clock.

(** ** Readings of the clock *)

(** The clock counts from the start of the system: less than 2^33 seconds, which
    are 272 years, and less than 10^9 nanoseconds. *)
Definition valid_time (tp : timespec) : Prop :=
  (0 ≤ tv_sec tp < 2 ^ 33)%Z ∧ (0 ≤ tv_nsec tp < 1000000000)%Z.

(** The reading in nanoseconds. *)
Definition nanoseconds (tp : timespec) : Z := tv_sec tp * 1000000000 + tv_nsec tp.

Section clock_proofs.
Context `{PreciseDoubles}.
Implicit Types tp : timespec.
Local Open Scope Q_scope.

Lemma e_minus_6_bounds : 0 <= e_minus_6 /\ (1 # 1000000) - (1 # 1180591620717411303424) <= e_minus_6 <= (1 # 1000000) + (1 # 1180591620717411303424).
Proof.
  pose proof (rnd_near (1 # 1000000) ltac:(lra)) as Hn. unfold e_minus_6, ulp, tiny in *.
  lra.
Qed.

Lemma of_long_exact n : (0 ≤ n < 2 ^ 51)%Z → of_long n == inject_Z n.
Proof.
  intros Hn. unfold of_long. rewrite <-(rnd_eq (2 * n # 2) (inject_Z n)), rnd_exact; [|lia|];
    unfold Qeq; simpl; lia.
Qed.

(** The whole seconds, exactly, and the fraction of a second, nearly. *)
Definition sec_ms tp : Q := fmul (of_long (tv_sec tp)) 1000.
Definition frac_ms tp : Q := fmul (of_long (tv_nsec tp)) e_minus_6.

Lemma sec_ms_exact tp : valid_time tp → sec_ms tp == inject_Z (tv_sec tp * 1000).
Proof.
  intros [Hs _]. unfold sec_ms, fmul.
  rewrite (rnd_eq _ (inject_Z (tv_sec tp * 1000))); [apply (of_long_exact (tv_sec tp * 1000)); lia|].
  rewrite of_long_exact by lia. by rewrite inject_Z_mult.
Qed.

Lemma frac_ms_bounds tp :
  valid_time tp → 0 <= frac_ms tp /\ frac_ms tp <= 1000 /\
  inject_Z (tv_nsec tp) * (1 # 1000000) - (1 # 34359738368) <= frac_ms tp <=
    inject_Z (tv_nsec tp) * (1 # 1000000) + (1 # 34359738368).
Proof.
  intros [_ Hn]. pose proof e_minus_6_bounds as [He0 [He1 He2]].
  assert (0 <= inject_Z (tv_nsec tp) <= 999999999) as [Hn0 Hn1].
  { split; [change 0 with (inject_Z 0)|change 999999999 with (inject_Z 999999999)]; rewrite <-Zle_Qle; lia. }
  set (n := inject_Z (tv_nsec tp)) in *.
  assert (frac_ms tp == rnd (n * e_minus_6)) as ->.
  { unfold frac_ms, fmul. apply rnd_eq. by rewrite of_long_exact by lia. }
  assert (n * (1 # 1000000) - n * (1 # 1180591620717411303424) <= n * e_minus_6 <= n * (1 # 1000000) + n * (1 # 1180591620717411303424)) as [Hm1 Hm2].
  { split; nra. }
  pose proof (rnd_near (n * e_minus_6) (Qmult_le_0_compat _ _ Hn0 He0)) as Hr. unfold ulp, tiny in Hr.
  pose proof (rnd_ge 0 (n * e_minus_6) eq_refl) as H0'. change (inject_Z 0) with 0 in H0'.
  split; [|split; [|split]]; [|lra..].
  assert ((1 # 2) * 0 <= rnd (n * e_minus_6)) by (apply H0'; pose proof (Qmult_le_0_compat _ _ Hn0 He0); lra).
  lra.
Qed.

(** ** Monotonicity *)

Lemma nanoseconds_le tp tp' :
  valid_time tp → valid_time tp' → (nanoseconds tp ≤ nanoseconds tp')%Z →
  (tv_sec tp < tv_sec tp')%Z ∨ tv_sec tp = tv_sec tp' ∧ (tv_nsec tp ≤ tv_nsec tp')%Z.
Proof. unfold valid_time, nanoseconds. lia. Qed.

Lemma frac_ms_mono tp tp' :
  valid_time tp → valid_time tp' → (tv_nsec tp ≤ tv_nsec tp')%Z → frac_ms tp <= frac_ms tp'.
Proof.
  intros [_ ?] [_ ?] Hle. pose proof e_minus_6_bounds as [He _]. unfold frac_ms, fmul.
  apply rnd_mono, Qmult_le_compat_r; [|done]. rewrite !of_long_exact by lia. by rewrite <-Zle_Qle.
Qed.

Lemma now_ms_mono tp tp' :
  valid_time tp → valid_time tp' → (nanoseconds tp ≤ nanoseconds tp')%Z → now_ms tp <= now_ms tp'.
Proof.
  intros Hv Hv' Hle. unfold now_ms, fadd. apply rnd_mono. fold (sec_ms tp) (sec_ms tp') (frac_ms tp) (frac_ms tp').
  pose proof (sec_ms_exact tp Hv) as Hs. pose proof (sec_ms_exact tp' Hv') as Hs'.
  destruct (nanoseconds_le _ _ Hv Hv' Hle) as [Hlt|[Heq Hn]].
  - destruct (frac_ms_bounds tp Hv) as (_ & Hf & _). destruct (frac_ms_bounds tp' Hv') as (Hf' & _).
    assert (inject_Z (tv_sec tp * 1000) + 1000 <= inject_Z (tv_sec tp' * 1000)).
    { change 1000 with (inject_Z 1000). rewrite <-inject_Z_plus, <-Zle_Qle. lia. }
    lra.
  - rewrite Heq in Hs. pose proof (frac_ms_mono tp tp' Hv Hv' Hn). lra.
Qed.

(** ** Precision *)

(** A reading is off by less than 1/400 of a millisecond. *)
Lemma now_ms_near tp :
  valid_time tp →
  inject_Z (nanoseconds tp) * (1 # 1000000) - (1 # 400) <= now_ms tp <=
    inject_Z (nanoseconds tp) * (1 # 1000000) + (1 # 400).
Proof.
  intros Hv. pose proof (sec_ms_exact tp Hv) as Hs.
  destruct (frac_ms_bounds tp Hv) as (Hf0 & Hf1 & Hf2 & Hf3).
  unfold now_ms, fadd. fold (sec_ms tp) (frac_ms tp).
  assert (0 <= inject_Z (tv_sec tp) <= 8589934592) as [Hb0 Hb1].
  { destruct Hv as [? _]. split; [change 0 with (inject_Z 0)|change 8589934592 with (inject_Z 8589934592)];
      rewrite <-Zle_Qle; lia. }
  assert (inject_Z (nanoseconds tp) == inject_Z (tv_sec tp) * 1000000000 + inject_Z (tv_nsec tp)) as ->.
  { unfold nanoseconds. by rewrite inject_Z_plus, inject_Z_mult. }
  rewrite inject_Z_mult in Hs. change (inject_Z 1000) with 1000 in Hs.
  pose proof (rnd_near (sec_ms tp + frac_ms tp) ltac:(lra)) as Hr. unfold ulp, tiny in Hr. lra.
Qed.

(** The time between two readings, as the controller computes it, is off by less
    than 1/100 of a millisecond. *)
Lemma elapsed_near tp tp' :
  valid_time tp → valid_time tp' → (nanoseconds tp ≤ nanoseconds tp')%Z →
  inject_Z (nanoseconds tp' - nanoseconds tp) * (1 # 1000000) - (1 # 100) <= rnd (now_ms tp' - now_ms tp) <=
    inject_Z (nanoseconds tp' - nanoseconds tp) * (1 # 1000000) + (1 # 100).
Proof.
  intros Hv Hv' Hle. pose proof (now_ms_near tp Hv) as Hn. pose proof (now_ms_near tp' Hv') as Hn'.
  pose proof (now_ms_mono tp tp' Hv Hv' Hle) as Hm.
  assert (inject_Z (nanoseconds tp' - nanoseconds tp) == inject_Z (nanoseconds tp') - inject_Z (nanoseconds tp)) as ->.
  { unfold Qminus. rewrite <-inject_Z_opp, <-inject_Z_plus. done. }
  assert (0 <= inject_Z (nanoseconds tp) /\ inject_Z (nanoseconds tp') <= 8589934593000000000) as [Hb0 Hb1].
  { unfold valid_time, nanoseconds in *. split; [change 0 with (inject_Z 0)
      |change 8589934593000000000 with (inject_Z 8589934593000000000)]; rewrite <-Zle_Qle; lia. }
  assert (0 <= now_ms tp' - now_ms tp) as Hd by lra.
  pose proof (rnd_near _ Hd) as Hr. unfold ulp, tiny in Hr. lra.
Qed.

(** While the controller is saturated its time stamp is a reading of the clock
    not later than [tp]. *)
Definition stamped tp (st : TicketManagerCapacityCtrl) (begin_ : Q) : Prop :=
  _saturation st = true →
  ∃ tb, valid_time tb ∧ (nanoseconds tb ≤ nanoseconds tp)%Z ∧
    begin_ = now_ms tb ∧ _saturationBegin st = nanoseconds tb.

Lemma inject_le_iff a b c :
  inject_Z a * (1 # 1000000) + inject_Z b < inject_Z c * (1 # 1000000) ↔ (a + b * 1000000 < c)%Z.
Proof.
  rewrite Zlt_Qlt, inject_Z_plus, inject_Z_mult. change (inject_Z 1000000) with 1000000. split; lra.
Qed.

(** The comparison of the timeout. *)
Lemma timeout_decision tb tp (timeout : Z) :
  valid_time tb → valid_time tp → (nanoseconds tb ≤ nanoseconds tp)%Z → (0 ≤ timeout < 2 ^ 51)%Z →
  (10000 < Z.abs (nanoseconds tp - nanoseconds tb - timeout * 1000000))%Z →
  fltb (of_u64 timeout) (rnd (now_ms tp - now_ms tb)) =
    (timeout * 1000000 <? nanoseconds tp - nanoseconds tb)%Z.
Proof.
  intros Hvb Hv Hle Ht Hgap. pose proof (elapsed_near tb tp Hvb Hv Hle) as [Hn1 Hn2].
  pose proof (of_long_exact timeout Ht) as He. change (of_long timeout) with (of_u64 timeout) in He.
  set (e := (nanoseconds tp - nanoseconds tb)%Z) in *. set (r := rnd _) in *.
  destruct (Z.ltb_spec (timeout * 1000000) e) as [Hlt|Hge].
  - apply fltb_true. rewrite He.
    pose proof (proj2 (inject_le_iff 10000 timeout e) ltac:(lia)) as Hq.
    change (inject_Z 10000) with 10000 in Hq. lra.
  - apply not_true_is_false. intros Hb%fltb_true. rewrite He in Hb.
    assert (inject_Z e * (1 # 1000000) + (1 # 100) < inject_Z timeout); [|lra].
    assert (inject_Z (e + 10000) < inject_Z (timeout * 1000000)) as Hq by (rewrite <-Zlt_Qlt; lia).
    rewrite inject_Z_plus, inject_Z_mult in Hq. change (inject_Z 1000000) with 1000000 in Hq.
    change (inject_Z 10000) with 10000 in Hq. lra.
Qed.
End clock_proofs.

(** ** Properties *)

Section clock_claims.
Context `{PreciseDoubles}.

(** The time stamps never run backwards: a later reading of the clock gives a
    [double] that is not smaller, although it is rounded three times. *)
Theorem clock_monotone tp tp' :
  valid_time tp → valid_time tp' → (nanoseconds tp ≤ nanoseconds tp')%Z →
  (now_ms tp <= now_ms tp')%Q.
Proof. apply now_ms_mono. Qed.

(** C33: the capacity controller with its time stamps in [double] milliseconds
    does exactly what the controller with exact nanoseconds does, on every
    branch, unless it is saturated and its timeout expires within 0.01 ms of
    now; and it stays in step with it at every later time. *)
Theorem saturation_timeout_precise pending completed tp st begin_ :
  valid_time tp → (0 ≤ _timeout st < 2 ^ 51)%Z → stamped tp st begin_ →
  (_saturation st = true →
   10000 < Z.abs (nanoseconds tp - _saturationBegin st - _timeout st * 1000000))%Z →
  ∃ begin', evaluate_ms pending completed tp st begin_ =
      (evaluate pending completed (nanoseconds tp) st, begin') ∧
    ∀ tp', (nanoseconds tp ≤ nanoseconds tp')%Z →
      stamped tp' (evaluate pending completed (nanoseconds tp) st) begin'.
Proof.
  intros Hv Ht Hst Hgap.
  assert (∀ tp' b, (nanoseconds tp ≤ nanoseconds tp')%Z → stamped tp st b → stamped tp' st b) as Hlater.
  { intros tp' b Hle Hs Hsat. destruct (Hs Hsat) as (tb & ? & ? & ?). exists tb. split_and!; [done|lia|naive_solver..]. }
  unfold evaluate_ms, evaluate. destruct (_ =? _)%Z; [by eauto|]. case_bool_decide; [|by eexists].
  destruct (_saturation st) eqn:Hsat; simpl.
  - destruct (Hst Hsat) as (tb & Hvb & Hle & -> & Hb). rewrite Hb in *.
    rewrite (timeout_decision tb tp) by auto. destruct (_ <? _)%Z; [by eexists|]. eauto.
  - eexists. split; [done|]. intros tp' Hle _. by exists tp.
Qed.
End clock_claims.

Section clock_witnesses.
Local Open Scope Q_scope.

(** Rounding down to multiples of 2^-100. *)
Definition fine_rnd (x : Q) : Q := Qfloor (x * 1267650600228229401496703205376) # 1267650600228229401496703205376.

Lemma fine_rnd_mono x y : x <= y → fine_rnd x <= fine_rnd y.
Proof.
  intros Hxy. unfold fine_rnd, Qle. cbn [Qnum Qden].
  assert (Qfloor (x * 1267650600228229401496703205376) ≤ Qfloor (y * 1267650600228229401496703205376))%Z
    by (apply Qfloor_resp_le; lra). lia.
Qed.

Lemma fine_rnd_exact (n : Z) : (Z.abs n < 2 ^ 53)%Z → fine_rnd (n # 2) == n # 2.
Proof.
  intros _. unfold fine_rnd.
  assert ((n # 2) * 1267650600228229401496703205376 == inject_Z (n * 633825300114114700748351602688)) as He
    by (unfold Qeq; simpl; lia).
  rewrite (Qfloor_comp _ _ He), Qfloor_Z. unfold Qeq. simpl. lia.
Qed.

#[local] Instance fine_doubles : Doubles :=
  {| rnd := fine_rnd; rnd_mono := fine_rnd_mono; rnd_exact := fine_rnd_exact |}.

#[local] Instance fine_precise : PreciseDoubles.
Proof.
  split. intros x Hx. simpl. unfold fine_rnd, ulp, tiny.
  pose proof (Qfloor_le (x * 1267650600228229401496703205376)) as H1.
  pose proof (Qlt_floor (x * 1267650600228229401496703205376)) as H2. rewrite inject_Z_plus in H2.
  change (inject_Z 1) with 1 in H2. set (f := Qfloor _) in *.
  assert (f # 1267650600228229401496703205376 == inject_Z f * (1 # 1267650600228229401496703205376)) as ->
    by (unfold Qeq; simpl; lia). lra.
Qed.

(** Saturated since second 5, with a timeout of 10 ms, at 5.02 s: the capacity is
    doubled. *)
Definition saturated_ctrl : TicketManagerCapacityCtrl := mkCtrl 1 4 true 1 10 true 5000000000.

Lemma clock_monotone_witness : now_ms (mkTimespec 5 999999999) <= now_ms (mkTimespec 6 0).
Proof. apply clock_monotone; unfold valid_time, nanoseconds; simpl; lia. Defined.

Lemma saturation_timeout_precise_witness :
  ∃ begin', evaluate_ms 1 0 (mkTimespec 5 20000000) saturated_ctrl (now_ms (mkTimespec 5 0)) =
    (mkCtrl 1 4 true 2 10 false 5000000000, begin').
Proof.
  destruct (saturation_timeout_precise 1 0 (mkTimespec 5 20000000) saturated_ctrl
    (now_ms (mkTimespec 5 0))) as (b & Hb & _).
  - unfold valid_time. simpl. lia.
  - simpl. lia.
  - intros _. exists (mkTimespec 5 0). unfold valid_time, nanoseconds. simpl. repeat split; lia || reflexivity.
  - unfold nanoseconds. simpl. lia.
  - exists b. exact Hb.
Defined.
End clock_witnesses.
