(* ===== verification/Operations.v ===== *)
(** * Operations

    Constructing and issuing the operations that tasks delegate
    ([src/src/common/Operation.hpp], [src/src/common/Operation.cpp]), and what
    the ticket manager needs of an operation type, so that its templates are
    modelled once. *)

From S2P Require Import Prelude Queues Allocator World Interface Tickets.

(** ** Constructors *)

Definition newOperation (task : task_handle_t) (code : OpCode) (nature : OpNature)
    (buffer count datatype rank tag comm : Z) (status : pointer) : Operation :=
  mkOperation task status buffer count datatype comm rank tag code nature.

Section coll_constructors.
Context (task : task_handle_t) (code : OpCode) (nature : OpNature) (comm : Z).

(** The five constructors of [CollOperation], by which of the two sides has
    arrays of counts (v) and arrays of types (w). *)
Definition newColl (sendbuf sendcount sendtype recvbuf recvcount recvtype op rank : Z) :
    CollOperation :=
  mkCollOperation task sendbuf recvbuf None None (Count sendcount) (Count recvcount)
    (Type_ sendtype) (Type_ recvtype) comm rank op code nature.

Definition newColl_sendv
    (sendbuf sendcounts senddispls sendtype recvbuf recvcount recvtype op rank : Z) :
    CollOperation :=
  mkCollOperation task sendbuf recvbuf (Some senddispls) None (Counts sendcounts)
    (Count recvcount) (Type_ sendtype) (Type_ recvtype) comm rank op code nature.

Definition newColl_recvv
    (sendbuf sendcount sendtype recvbuf recvcounts recvdispls recvtype op rank : Z) :
    CollOperation :=
  mkCollOperation task sendbuf recvbuf None (Some recvdispls) (Count sendcount)
    (Counts recvcounts) (Type_ sendtype) (Type_ recvtype) comm rank op code nature.

Definition newColl_v (sendbuf sendcounts senddispls sendtype
    recvbuf recvcounts recvdispls recvtype op rank : Z) : CollOperation :=
  mkCollOperation task sendbuf recvbuf (Some senddispls) (Some recvdispls) (Counts sendcounts)
    (Counts recvcounts) (Type_ sendtype) (Type_ recvtype) comm rank op code nature.

Definition newColl_w (sendbuf sendcounts senddispls sendtypes
    recvbuf recvcounts recvdispls recvtypes op rank : Z) : CollOperation :=
  mkCollOperation task sendbuf recvbuf (Some senddispls) (Some recvdispls) (Counts sendcounts)
    (Counts recvcounts) (Types_ sendtypes) (Types_ recvtypes) comm rank op code nature.
End coll_constructors.

(** ** Issuing *)

(** The call selected by the [switch] of [Operation<C>::issue]. *)
Definition Operation_call (o : Operation) : outcome mpi_call :=
  match _code o with
  | SEND => Ok (Isend (_buffer o) (_count o) (_datatype o) (_rank o) (_tag o) (_comm o))
  | BSEND => Ok (Ibsend (_buffer o) (_count o) (_datatype o) (_rank o) (_tag o) (_comm o))
  | RSEND => Ok (Irsend (_buffer o) (_count o) (_datatype o) (_rank o) (_tag o) (_comm o))
  | SSEND => Ok (Issend (_buffer o) (_count o) (_datatype o) (_rank o) (_tag o) (_comm o))
  | RECV => Ok (Irecv (_buffer o) (_count o) (_datatype o) (_rank o) (_tag o) (_comm o))
  | _ => Fail "Invalid operation"
  end.

(** Reading a union member other than the one last written is undefined. *)
Definition as_count (u : count_union) : outcome Z :=
  match u with Count n => Ok n | Counts _ => Undef "count read from a union of counts" end.
Definition as_counts (u : count_union) : outcome pointer :=
  match u with Counts a => Ok a | Count _ => Undef "counts read from a union of a count" end.
Definition as_type (u : type_union) : outcome Z :=
  match u with Type_ t => Ok t | Types_ _ => Undef "type read from a union of types" end.
Definition as_types (u : type_union) : outcome pointer :=
  match u with Types_ a => Ok a | Type_ _ => Undef "types read from a union of a type" end.

(** The call selected by the [switch] of [CollOperation<C>::issue]. *)
Definition CollOperation_call (o : CollOperation) : outcome mpi_call :=
  let sendcount := as_count (_send_count o) in
  let sendcounts := as_counts (_send_count o) in
  let recvcount := as_count (_recv_count o) in
  let recvcounts := as_counts (_recv_count o) in
  let sendtype := as_type (_send_type o) in
  let sendtypes := as_types (_send_type o) in
  let recvtype := as_type (_recv_type o) in
  let recvtypes := as_types (_recv_type o) in
  let senddispls := read (_senddispls o) "_senddispls" in
  let recvdispls := read (_recvdispls o) "_recvdispls" in
  let sb := _sendbuf o in let rb := _recvbuf o in let comm := c_comm o in
  let op := _op o in let root := c_rank o in
  match c_code o with
  | ALLGATHER =>
      sc ← sendcount; st ← sendtype; rc ← recvcount; rt ← recvtype;
      Ok (Iallgather sb sc st rb rc rt comm)
  | ALLGATHERV =>
      sc ← sendcount; st ← sendtype; rc ← recvcounts; rd ← recvdispls; rt ← recvtype;
      Ok (Iallgatherv sb sc st rb rc rd rt comm)
  | ALLREDUCE => sc ← sendcount; st ← sendtype; Ok (Iallreduce sb rb sc st op comm)
  | ALLTOALL =>
      sc ← sendcount; st ← sendtype; rc ← recvcount; rt ← recvtype;
      Ok (Ialltoall sb sc st rb rc rt comm)
  | ALLTOALLV =>
      sc ← sendcounts; sd ← senddispls; st ← sendtype;
      rc ← recvcounts; rd ← recvdispls; rt ← recvtype;
      Ok (Ialltoallv sb sc sd st rb rc rd rt comm)
  | ALLTOALLW =>
      sc ← sendcounts; sd ← senddispls; st ← sendtypes;
      rc ← recvcounts; rd ← recvdispls; rt ← recvtypes;
      Ok (Ialltoallw sb sc sd st rb rc rd rt comm)
  | BARRIER => Ok (Ibarrier comm)
  | BCAST => rc ← recvcount; rt ← recvtype; Ok (Ibcast rb rc rt root comm)
  | EXSCAN => sc ← sendcount; st ← sendtype; Ok (Iexscan sb rb sc st op comm)
  | GATHER =>
      sc ← sendcount; st ← sendtype; rc ← recvcount; rt ← recvtype;
      Ok (Igather sb sc st rb rc rt root comm)
  | GATHERV =>
      sc ← sendcount; st ← sendtype; rc ← recvcounts; rd ← recvdispls; rt ← recvtype;
      Ok (Igatherv sb sc st rb rc rd rt root comm)
  | REDUCE => sc ← sendcount; st ← sendtype; Ok (Ireduce sb rb sc st op root comm)
  | REDUCESCATTER => rc ← recvcounts; st ← sendtype; Ok (Ireduce_scatter sb rb rc st op comm)
  | REDUCESCATTERBLOCK =>
      rc ← recvcount; st ← sendtype; Ok (Ireduce_scatter_block sb rb rc st op comm)
  | SCAN => sc ← sendcount; st ← sendtype; Ok (Iscan sb rb sc st op comm)
  | SCATTER =>
      sc ← sendcount; st ← sendtype; rc ← recvcount; rt ← recvtype;
      Ok (Iscatter sb sc st rb rc rt root comm)
  | SCATTERV =>
      sc ← sendcounts; sd ← senddispls; st ← sendtype; rc ← recvcount; rt ← recvtype;
      Ok (Iscatterv sb sc sd st rb rc rt root comm)
  | _ => Fail "Invalid large operation"
  end.

Section issue.
Context `{SpscLib, MpiLib}.

(** The rest of both [issue] functions: call MPI, fail on an error code, and
    return the request. *)
Definition issue_call (call : outcome mpi_call) (w : world) : outcome (request * world) :=
  c ← call;
  let '(err, r) := mpi_issue (w_trace w) c in
  _ ← fail_if (bool_decide (err ≠ MPI_SUCCESS)) "Operation with code failed";
  Ok (r, w_log (EvIssue c r) w).

Definition Operation_issue (o : Operation) : world → outcome (request * world) :=
  issue_call (Operation_call o).
Definition CollOperation_issue (o : CollOperation) : world → outcome (request * world) :=
  issue_call (CollOperation_call o).

(** ** Operation types *)

(** What the templates of the ticket manager use of their operation type:
    the objects in memory, their allocator, and the two overloads. *)
Class OpType (Op : Type) := {
  op_heap : world → gmap ptr Op;
  op_alloc : world → Obj.ObjAllocator;
  op_set : gmap ptr Op → Obj.ObjAllocator → world → world;
  op_ticket : Op → outcome Ticket;
  op_call : Op → outcome mpi_call;
}.

Definition op_issue `{OpType Op} (o : Op) : world → outcome (request * world) :=
  issue_call (op_call o).

(** [Allocator::free(operations, count)]; the objects may not be read again. *)
Definition op_free `{OpType Op} (operations : list ptr) (w : world) : outcome world :=
  a ← Obj.free operations (op_alloc w);
  Ok (op_set (foldr delete (op_heap w) operations) a w).

(** [Allocator::alloc<Op>(args...)] on logical CPU [cpu]: the object is
    constructed from its arguments, here as [o]. *)
Definition op_new `{OpType Op} (cpu : nat) (o : Op) (w : world) : outcome (ptr * world) :=
  '(p, a) ← Obj.alloc cpu (op_alloc w);
  Ok (p, op_set (<[p := o]> (op_heap w)) a w).

#[export] Instance p2p_type : OpType Operation := {|
  op_heap := w_p2p; op_alloc := w_p2pAlloc; op_set := w_set_p2p;
  op_ticket := Ticket_of_Operation; op_call := Operation_call;
|}.

#[export] Instance coll_type : OpType CollOperation := {|
  op_heap := w_coll; op_alloc := w_collAlloc; op_set := w_set_coll;
  op_ticket := Ticket_of_CollOperation; op_call := CollOperation_call;
|}.
End issue.

(** ** Well-formed operations *)

Section op_ok.
Context `{SpscLib, MpiLib}.

(** Replacing the objects of one type changes nothing else of that type's
    view of the world; the two instances satisfy it by computation. *)
Class OpTypeLaws (Op : Type) `{!OpType Op} := {
  op_heap_set m a w : op_heap (op_set m a w) = m;
  op_alloc_set m a w : op_alloc (op_set m a w) = a;
  op_trace_set m a w : w_trace (op_set m a w) = w_trace w;
  op_status_set m a w : w_status (op_set m a w) = w_status w;
  op_queue_set m a w : w_queue (op_set m a w) = w_queue w;
  op_enabled_set m a w : w_enabled (op_set m a w) = w_enabled w;
  op_set_id w : op_set (op_heap w) (op_alloc w) w = w;
  op_same w w' : same_objects w w' → op_heap w' = op_heap w ∧ op_alloc w' = op_alloc w;
}.

#[export] Instance p2p_type_laws : OpTypeLaws Operation.
Proof. split; try done; [by intros []|]. by intros w w' (?&?&?&?&?). Qed.
#[export] Instance coll_type_laws : OpTypeLaws CollOperation.
Proof. split; try done; [by intros []|]. by intros w w' (?&?&?&?&?). Qed.

(** The call an operation will make and the ticket it will get. *)
Definition op_data `{OpType Op} (o : Op) : option (mpi_call * Ticket) :=
  match op_call o, op_ticket o with
  | Ok c, Ok t => Some (c, t)
  | _, _ => None
  end.

(** A status can be stored through the ticket, or is not wanted. *)
Definition status_ok (t : Ticket) : Prop :=
  ignoreStatus t = true ∨ _firstStatus t ≠ nullptr.

Definition op_ok `{OpType Op} (o : Op) : Prop :=
  ∃ c t, op_call o = Ok c ∧ op_ticket o = Ok t ∧ status_ok t.

(** The data of the operations at [ps], and that they are in memory, valid,
    distinct, and accounted for by their allocator. *)
Definition queued_data `{OpType Op} (w : world) (ps : list ptr) : list (mpi_call * Ticket) :=
  omap (λ p, op_heap w !! p ≫= op_data) ps.

Definition objects_ok `{OpType Op} (w : world) (ps : list ptr) : Prop :=
  (∃ held, Obj.inv (ps ++ held) (op_alloc w)) ∧
  ∀ p, p ∈ ps → ∃ o, op_heap w !! p = Some o ∧ op_ok o.
End op_ok.

Section op_proofs.
Context `{SpscLib, !SpscLaws, MpiLib} `{!OpType Op, !OpTypeLaws Op}.
Implicit Types w : world.

Lemma objects_ok_NoDup w ps : objects_ok (Op:=Op) w ps → NoDup ps.
Proof.
  intros [(held & Hi) _]. assert (NoDup (ps ++ held)) as Hnd.
  { assert (NoDup (Obj.available (op_alloc w) ++ ps ++ held)) as Hall.
    { rewrite (Obj.inv_objects _ _ Hi). apply NoDup_seq. }
    by apply NoDup_app in Hall as (_ & _ & ?). }
  by apply NoDup_app in Hnd as (? & _ & _).
Qed.

Lemma objects_ok_perm w ps ps' : ps ≡ₚ ps' → objects_ok (Op:=Op) w ps → objects_ok (Op:=Op) w ps'.
Proof.
  intros Hp [(held & Hi) Hok]. split.
  - exists held. destruct Hi. split; try done. by rewrite <-Hp.
  - intros p Hin. apply Hok. by rewrite Hp.
Qed.

Lemma queued_data_perm w ps ps' :
  ps ≡ₚ ps' → queued_data (Op:=Op) w ps ≡ₚ queued_data (Op:=Op) w ps'.
Proof. intros Hp. unfold queued_data. by rewrite Hp. Qed.

Lemma queued_data_ext w w' ps :
  (∀ p, p ∈ ps → op_heap (Op:=Op) w !! p = op_heap (Op:=Op) w' !! p) →
  queued_data (Op:=Op) w ps = queued_data (Op:=Op) w' ps.
Proof. intros Hp. apply omap_ext. intros p Hin. by rewrite Hp. Qed.

Lemma queued_data_app w ps ps' :
  queued_data (Op:=Op) w (ps ++ ps') = queued_data (Op:=Op) w ps ++ queued_data (Op:=Op) w ps'.
Proof. apply omap_app. Qed.

Lemma length_queued_data w ps :
  objects_ok (Op:=Op) w ps → length (queued_data (Op:=Op) w ps) = length ps.
Proof.
  intros [_ Hok]. apply omap_length_Some. intros p Hp.
  destruct (Hok p Hp) as (o & -> & c & t & Hc & Ht & _). simpl. unfold op_data.
  by rewrite Hc, Ht.
Qed.

Lemma objects_ok_app w ps rest :
  objects_ok (Op:=Op) w (ps ++ rest) → objects_ok (Op:=Op) w ps ∧ objects_ok (Op:=Op) w rest.
Proof.
  intros [(held & Hi) Hok]. split; (split; [|intros p Hp; apply Hok; set_solver]).
  - exists (rest ++ held). destruct Hi. split; try done. rewrite <-inv_objects. solve_Permutation.
  - exists (ps ++ held). destruct Hi. split; try done. rewrite <-inv_objects. solve_Permutation.
Qed.

Lemma lookup_foldr_delete {A} (m : gmap ptr A) (ps : list ptr) p :
  p ∉ ps → foldr delete m ps !! p = m !! p.
Proof.
  induction ps as [|x ps IH]; [done|]. intros [Hne Hin]%not_elem_of_cons. simpl.
  rewrite lookup_delete_ne by done. by apply IH.
Qed.

(** Freeing operations keeps the others. *)
Lemma op_free_spec w ps rest :
  objects_ok (Op:=Op) w (ps ++ rest) →
  ∃ a, op_free (Op:=Op) ps w = Ok (op_set (foldr delete (op_heap w) ps) a w) ∧
    objects_ok (Op:=Op) (op_set (foldr delete (op_heap w) ps) a w) rest ∧
    (∀ p, p ∈ rest → op_heap (op_set (foldr delete (op_heap w) ps) a w) !! p = op_heap w !! p) ∧
    Obj._ncaches a = Obj._ncaches (op_alloc (Op:=Op) w).
Proof.
  intros Hok. pose proof (objects_ok_NoDup _ _ Hok) as Hnd.
  apply NoDup_app in Hnd as (_ & Hdisj & _). destruct Hok as [(held & Hi) Hok].
  destruct (Obj.free_spec _ _ ps (rest ++ held) Hi) as (a & Hf & Hi' & _ & Hn).
  { by rewrite app_assoc. }
  exists a. unfold op_free. rewrite Hf. split_and!; [done| | |done].
  - split; [exists held; by rewrite op_alloc_set|]. intros p Hin.
    rewrite op_heap_set, lookup_foldr_delete by (intros ?; by eapply Hdisj).
    apply Hok. set_solver.
  - intros p Hin. rewrite op_heap_set, lookup_foldr_delete by (intros ?; by eapply Hdisj). done.
Qed.

(** A new operation is valid and does not disturb the others. *)
Lemma op_new_spec w ps cpu o :
  objects_ok (Op:=Op) w ps → cpu < Obj._ncaches (op_alloc (Op:=Op) w) → op_ok o →
  (∃ p a, op_new cpu o w = Ok (p, op_set (<[p := o]> (op_heap w)) a w) ∧
    objects_ok (Op:=Op) (op_set (<[p := o]> (op_heap w)) a w) (ps ++ [p]) ∧ p ∉ ps) ∨
  op_new cpu o w = Fail "Unavailable allocator objects".
Proof.
  intros [(held & Hi) Hok] Hcpu Ho. unfold op_new.
  destruct (Obj.alloc_spec _ _ cpu Hi Hcpu) as [(p & a & -> & Hp & Hi' & _)|[-> _]];
    [left|by right].
  pose proof (Obj.inv_fresh _ _ _ Hi Hp) as Hfresh.
  apply not_elem_of_app in Hfresh as [Hfresh _].
  exists p, a. split_and!; [done| |].
  - split.
    + exists held. rewrite op_alloc_set. destruct Hi'. split; try done.
      rewrite <-inv_objects. solve_Permutation.
    + intros p'. rewrite elem_of_app, list_elem_of_singleton, op_heap_set.
      intros [Hin | ->]; [|exists o; by rewrite lookup_insert_eq].
      rewrite lookup_insert_ne by congruence. by apply Hok.
  - done.
Qed.

Lemma queued_data_insert w ps p o a :
  p ∉ ps →
  queued_data (Op:=Op) (op_set (<[p := o]> (op_heap w)) a w) ps = queued_data (Op:=Op) w ps.
Proof.
  intros Hp. apply queued_data_ext. intros p' Hin.
  by rewrite op_heap_set, lookup_insert_ne by congruence.
Qed.

Lemma issue_post F c w :
  F ∨ mpi_ok →
  post F (λ '(r, w'), w' = w_log (EvIssue c r) w) (issue_call (Ok c) w).
Proof.
  intros HF. unfold issue_call. cbn [mbind outcome_bind].
  destruct (mpi_issue (w_trace w) c) as [err r] eqn:Heq. apply post_fail_if; [|done].
  intros Herr%bool_decide_eq_true. destruct HF as [|[Hok _]]; [done|].
  destruct Herr. by rewrite <-(Hok (w_trace w) c), Heq.
Qed.
End op_proofs.
