(* ===== verification/FortranInterface.v ===== *)
(** * The MPI interface for Fortran

    The test functions of [Interface<Fortran>]
    ([src/src/common/Interface.hpp]), which call MPI's Fortran functions: these
    count from one and return the error code through an argument.  Also
    [testall] of both languages and the operations of Fortran
    ([src/src/common/Operation.cpp]).  The theorem relates the Fortran functions
    to those for C. *)

From S2P Require Import Prelude ErrorHandler Queues Allocator World Interface Operations.

(** ** The Fortran functions of MPI *)

(** What they write to their arguments; logicals and indices are integers. *)
Record f_test_out := { ft_err : Z; ft_flag : Z; ft_request : request; ft_status : status }.
Record f_testany_out := { fa_err : Z; fa_index : Z; fa_flag : Z; fa_requests : list request;
  fa_status : status }.
Record f_testsome_out := { fs_err : Z; fs_outcount : Z; fs_indices : list Z;
  fs_requests : list request; fs_statuses : list status }.

(** The functions, the conversions of request handles, and the value of
    MPI_UNDEFINED. *)
Class FortranLib := {
  MPI_UNDEFINED : Z;
  MPI_Request_c2f : request → request;
  MPI_Request_f2c : request → request;
  f_mpi_test : list event → request → f_test_out;
  f_mpi_testany : list event → list request → f_testany_out;
  f_mpi_testsome : list event → list request → f_testsome_out;
}.

(** What the MPI standard says of them: they do what the C functions do to the
    converted handles, with indices from one. *)
Class FortranLaws `{MpiLib, FortranLib} := {
  undefined_negative : (MPI_UNDEFINED < 0)%Z;
  f2c_c2f r : MPI_Request_f2c (MPI_Request_c2f r) = r;
  f_test_law t r :
    let f := f_mpi_test t (MPI_Request_c2f r) in let c := mpi_test t r in
    ft_err f = to_err c ∧ (ft_flag f ≠ 0%Z ↔ to_flag c = true) ∧
    ft_request f = MPI_Request_c2f (to_request c) ∧ ft_status f = to_status c;
  f_testany_law t rs :
    let f := f_mpi_testany t (MPI_Request_c2f <$> rs) in let c := mpi_testany t rs in
    fa_err f = ta_err c ∧ (fa_flag f ≠ 0%Z ↔ ta_flag c = true) ∧
    fa_index f = match ta_index c with Some i => Z.of_nat i + 1 | None => MPI_UNDEFINED end%Z ∧
    fa_requests f = MPI_Request_c2f <$> ta_requests c ∧ fa_status f = ta_status c;
  f_testsome_law t rs :
    let f := f_mpi_testsome t (MPI_Request_c2f <$> rs) in let c := mpi_testsome t rs in
    fs_err f = ts_err c ∧
    fs_outcount f = match ts_outcount c with Some n => Z.of_nat n | None => MPI_UNDEFINED end ∧
    fs_indices f = (λ i, Z.of_nat i + 1)%Z <$> ts_indices c ∧
    fs_requests f = MPI_Request_c2f <$> ts_requests c ∧ fs_statuses f = ts_statuses c;
}.

Section fortran.
Context `{SpscLib, MpiLib, FortranLib}.
Implicit Types w : world.

(** [return completed], an integer converted to bool. *)
Definition to_bool (z : Z) : bool := bool_decide (z ≠ 0%Z).

(** [Interface<Fortran>::test] *)
Definition F_test (r : request) w : outcome (bool * request * status * world) :=
  let o := f_mpi_test (w_trace w) r in
  let completed := to_bool (ft_flag o) in
  _ ← fail_if (bool_decide (ft_err o ≠ MPI_SUCCESS)) "Unexpected return code from MPI_Test";
  Ok (completed, ft_request o, ft_status o,
      w_log (EvTest [MPI_Request_f2c r] (if completed then [0] else [])
               (if completed then [ft_status o] else [])) w).

(** [Interface<Fortran>::testany]; the index is decreased by one when a request
    completed. *)
Definition F_testany (reqs : list request) w :
    outcome (option Z * list request * status * world) :=
  let o := f_mpi_testany (w_trace w) reqs in
  let completed := to_bool (fa_flag o) in
  let log index sts := w_log (EvTest (MPI_Request_f2c <$> reqs) index sts) w in
  _ ← fail_if (bool_decide (fa_err o ≠ MPI_SUCCESS)) "Unexpected return code from MPI_Testany";
  _ ← fail_if (completed && bool_decide (fa_index o = MPI_UNDEFINED)) "Unexpected output from MPI_Testany";
  if completed then
    let index := (fa_index o - 1)%Z in
    Ok (Some index, fa_requests o, fa_status o, log [Z.to_nat index] [fa_status o])
  else Ok (None, fa_requests o, fa_status o, log [] []).

(** [for (r = 0; r < completed; ++r) indices[r] = indices[r] - 1]; the entries
    behind the completed ones stay. *)
Fixpoint decrease_indices (completed : nat) (indices : list Z) : list Z :=
  match completed, indices with
  | S completed, i :: indices => (i - 1)%Z :: decrease_indices completed indices
  | _, _ => indices
  end.

(** [Interface<Fortran>::testsome]: the first [completed] indices and statuses. *)
Definition F_testsome (reqs : list request) w :
    outcome (list Z * list request * list status * world) :=
  let o := f_mpi_testsome (w_trace w) reqs in
  _ ← fail_if (bool_decide (fs_err o ≠ MPI_SUCCESS)) "Unexpected return code from MPI_Testsome";
  _ ← fail_if (bool_decide (fs_outcount o = MPI_UNDEFINED)) "Unexpected output from MPI_Testsome";
  let completed := Z.to_nat (fs_outcount o) in
  let indices := take completed (decrease_indices completed (fs_indices o)) in
  let statuses := take completed (fs_statuses o) in
  Ok (indices, fs_requests o, statuses,
      w_log (EvTest (MPI_Request_f2c <$> reqs) (Z.to_nat <$> indices) statuses) w).

(** [Operation<Fortran>::issue] and [CollOperation<Fortran>::issue]. *)
Definition F_Operation_issue (o : Operation) w : outcome (request * world) :=
  fail [RStr "Fortran not supported"].
Definition F_CollOperation_issue (o : CollOperation) w : outcome (request * world) :=
  fail [RStr "Fortran not supported"].
End fortran.

(** ** testall *)

(** What [MPI_Testall] returns, for either language. *)
Record testall_out := { tl_err : Z; tl_flag : Z; tl_requests : list request;
  tl_statuses : list status }.

(** [Interface<C>::testall] and [Interface<Fortran>::testall] on MPI's answer. *)
Definition testall (o : testall_out) : outcome (bool * list request * list status) :=
  _ ← fail_if (bool_decide (tl_err o ≠ MPI_SUCCESS)) "Unexpected return code from MPI_Testall";
  Ok (to_bool (tl_flag o), tl_requests o, tl_statuses o).

(** ** The two interfaces agree *)

Section agreement.
Context `{SpscLib, MpiLib, FortranLib, !FortranLaws}.
Implicit Types w : world.

(** A result of the C interface in terms of Fortran handles. *)
Definition c2f_test (x : bool * request * status * world) : bool * request * status * world :=
  let '(b, r, st, w) := x in (b, MPI_Request_c2f r, st, w).
Definition c2f_testany (x : option nat * list request * status * world) :
    option Z * list request * status * world :=
  let '(i, rs, st, w) := x in (Z.of_nat <$> i, MPI_Request_c2f <$> rs, st, w).
Definition c2f_testsome (x : list nat * list request * list status * world) :
    list Z * list request * list status * world :=
  let '(ix, rs, sts, w) := x in (Z.of_nat <$> ix, MPI_Request_c2f <$> rs, sts, w).

Lemma f2c_list (rs : list request) : MPI_Request_f2c <$> (MPI_Request_c2f <$> rs) = rs.
Proof. rewrite <-list_fmap_compose. rewrite <-(list_fmap_id rs) at 2. apply list_fmap_ext. intros _ r _. apply f2c_c2f. Qed.

Lemma to_bool_flag z (b : bool) : (z ≠ 0%Z ↔ b = true) → to_bool z = b.
Proof.
  intros Hz. unfold to_bool. destruct b; [by apply bool_decide_eq_true_2, Hz|].
  apply bool_decide_eq_false_2. naive_solver.
Qed.

Lemma decrease_indices_take n (l : list nat) :
  take n (decrease_indices n ((λ i, Z.of_nat i + 1)%Z <$> l)) = Z.of_nat <$> take n l.
Proof.
  revert l. induction n as [|n IH]; intros [|i l]; [done..|]. csimpl. rewrite IH. f_equal. lia.
Qed.

Lemma to_nat_of_nat_list (l : list nat) : Z.to_nat <$> (Z.of_nat <$> l) = l.
Proof. rewrite <-list_fmap_compose. rewrite <-(list_fmap_id l) at 2. apply list_fmap_ext. intros _ i _. simpl. lia. Qed.

(** C17: the functions that test requests behave alike in both languages: called
    with the Fortran handles of the requests, each Fortran function fails when
    the C function fails and otherwise reports the same requests (with
    indices from zero), the same statuses, and the Fortran handles of the
    requests that C leaves. *)
Theorem fortran_tests_agree w :
  (∀ r, F_test (MPI_Request_c2f r) w = c2f_test <$> test r w) ∧
  (∀ rs : list request, F_testany (MPI_Request_c2f <$> rs) w = c2f_testany <$> testany rs w) ∧
  (∀ rs : list request, F_testsome (MPI_Request_c2f <$> rs) w = c2f_testsome <$> testsome rs w).
Proof.
  split_and!.
  - intros r. unfold F_test, test. destruct (f_test_law (w_trace w) r) as (-> & Hf & -> & ->).
    rewrite (to_bool_flag _ _ Hf), f2c_c2f. by destruct (bool_decide (to_err _ ≠ MPI_SUCCESS)).
  - intros rs. unfold F_testany, testany.
    destruct (f_testany_law (w_trace w) rs) as (-> & Hf & -> & -> & ->).
    rewrite (to_bool_flag _ _ Hf), f2c_list.
    destruct (bool_decide (ta_err _ ≠ MPI_SUCCESS)); [done|]. simpl.
    destruct (ta_flag _); [|done]. pose proof undefined_negative. destruct (ta_index _) as [i|].
    + rewrite bool_decide_eq_false_2 by lia. simpl. replace (Z.of_nat i + 1 - 1)%Z with (Z.of_nat i) by lia.
      by rewrite Nat2Z.id.
    + by rewrite bool_decide_eq_true_2.
  - intros rs. unfold F_testsome, testsome.
    destruct (f_testsome_law (w_trace w) rs) as (-> & -> & -> & -> & ->).
    rewrite f2c_list. destruct (bool_decide (ts_err _ ≠ MPI_SUCCESS)); [done|]. simpl. pose proof undefined_negative.
    destruct (ts_outcount _) as [n|]; [|by rewrite bool_decide_eq_true_2].
    rewrite bool_decide_eq_false_2 by lia. simpl. rewrite Nat2Z.id, decrease_indices_take.
    by rewrite to_nat_of_nat_list.
Qed.
End agreement.

(** ** Fortran functions made from C functions *)

Section derived.
Context `{MpiLib}.

(** Fortran handles are C handles plus 1000 and MPI_UNDEFINED is -32766. *)
#[local] Instance derived_fortran : FortranLib := {|
  MPI_UNDEFINED := -32766;
  MPI_Request_c2f r := (r + 1000)%Z;
  MPI_Request_f2c r := (r - 1000)%Z;
  f_mpi_test t r :=
    let c := mpi_test t (r - 1000) in
    {| ft_err := to_err c; ft_flag := Z.b2z (to_flag c); ft_request := to_request c + 1000;
       ft_status := to_status c |};
  f_mpi_testany t rs :=
    let c := mpi_testany t ((λ r, r - 1000)%Z <$> rs) in
    {| fa_err := ta_err c;
       fa_index := match ta_index c with Some i => Z.of_nat i + 1 | None => -32766 end%Z;
       fa_flag := Z.b2z (ta_flag c); fa_requests := (λ r, r + 1000)%Z <$> ta_requests c;
       fa_status := ta_status c |};
  f_mpi_testsome t rs :=
    let c := mpi_testsome t ((λ r, r - 1000)%Z <$> rs) in
    {| fs_err := ts_err c;
       fs_outcount := match ts_outcount c with Some n => Z.of_nat n | None => -32766 end%Z;
       fs_indices := (λ i, Z.of_nat i + 1)%Z <$> ts_indices c;
       fs_requests := (λ r, r + 1000)%Z <$> ts_requests c; fs_statuses := ts_statuses c |};
|}.

Lemma derived_fortran_laws : FortranLaws.
Proof.
  assert (∀ rs : list Z, (λ r, r - 1000)%Z <$> ((λ r, r + 1000)%Z <$> rs) = rs) as Hconv.
  { intros rs. rewrite <-list_fmap_compose. rewrite <-(list_fmap_id rs) at 2. apply list_fmap_ext.
    intros _ r _. simpl. lia. }
  assert (∀ b, Z.b2z b ≠ 0%Z ↔ b = true) as Hb by (intros []; simpl; naive_solver lia).
  split; simpl.
  - lia.
  - intros r. lia.
  - intros t r. replace (r + 1000 - 1000)%Z with r by lia. by split_and!.
  - intros t rs. rewrite Hconv. by split_and!.
  - intros t rs. rewrite Hconv. by split_and!.
Qed.
End derived.
