(* ===== verification/TicketManager.v ===== *)
(** * The ticket manager

    [TicketManager] ([src/src/common/TicketManager.hpp]): it takes the delegated
    operations from two pre-queues, issues them, keeps the requests that are in
    flight in its arrays, tests them, and notifies the tasks whose requests
    completed. *)

From Stdlib Require Import Ascii.
From S2P Require Import Prelude Queues Allocator World Interface Tickets Operations StringSupport CapacityCtrl.

Section manager.
Context `{SpscLib, AlpiLib, MpiLib} {QP QC : Type} `{!OpQueue QP ptr, !OpQueue QC ptr}.
Implicit Types w : world.

Definition BatchSize : nat := 64.

Record TicketManager := mkManager {
  _generalTesting : TestingApproach;
  _immediateTesting : TestingApproach;
  _capacityCtrl : TicketManagerCapacityCtrl;
  _pending : nat;
  _arrays : Internals;
  _p2pOperations : QP;
  _collOperations : QC;
}.
Implicit Types m : TicketManager.

Definition set_arrays (pending : nat) (a : Internals) m : TicketManager :=
  mkManager (_generalTesting m) (_immediateTesting m) (_capacityCtrl m) pending a
    (_p2pOperations m) (_collOperations m).
Definition set_p2p (q : QP) m : TicketManager :=
  mkManager (_generalTesting m) (_immediateTesting m) (_capacityCtrl m) (_pending m) (_arrays m)
    q (_collOperations m).
Definition set_coll (q : QC) m : TicketManager :=
  mkManager (_generalTesting m) (_immediateTesting m) (_capacityCtrl m) (_pending m) (_arrays m)
    (_p2pOperations m) q.
Definition set_ctrl (c : TicketManagerCapacityCtrl) m : TicketManager :=
  mkManager (_generalTesting m) (_immediateTesting m) c (_pending m) (_arrays m)
    (_p2pOperations m) (_collOperations m).

(** ** Construction *)

(** [parseTestingOption(name, defaultValue)]; [value] is what the environment
    holds for the variable. *)
Definition parseTestingOption (name : string) (value : option (list ascii))
    (defaultValue : TestingApproach) : outcome TestingApproach :=
  let env := (newEnv parse_string name [] value).1 in
  if negb (_isPresent env) then Ok defaultValue
  else if decide (_value env = str "testsome") then Ok TestSome
  else if decide (_value env = str "testany") then Ok TestAny
  else if decide (_value env = str "test") then Ok Test
  else if decide (_value env = str "none") then Ok None_
  else Fail (name +:+ " has invalid value").

(** The environment variables the constructor reads. *)
Record manager_env := {
  env_testing : option (list ascii);
  env_immediate : option (list ascii);
  env_capacity : option (list ascii);
  env_timeout : option (list ascii);
}.

Definition newManager (e : manager_env) (p2p : QP) (coll : QC) : outcome TicketManager :=
  general ← parseTestingOption "TAMPI_REQUESTS_TESTING" (env_testing e) TestSome;
  immediate ← parseTestingOption "TAMPI_REQUESTS_IMMEDIATE_TESTING" (env_immediate e) general;
  ctrl ← newCtrl (env_capacity e) (env_timeout e);
  _ ← fail_if (bool_decide (general = None_)) "Invalid approach for general request testing";
  Ok (mkManager general immediate ctrl 0 newInternals p2p coll).

(** ** Notification *)

(** A completed ticket is completed on the spot, or its context is kept for
    the completion manager. *)
Definition finish (useCompletionManager : bool) (t : Ticket) (contexts : list TaskContext) w :
    outcome (list TaskContext * world) :=
  if useCompletionManager then Ok (contexts ++ [getTaskContext t], w)
  else w ← complete t w; Ok (contexts, w).

Definition hand_over (useCompletionManager : bool) (contexts : list TaskContext) w :
    outcome world :=
  if useCompletionManager && (0 <? length contexts) then transfer contexts w else Ok w.

Definition save_status (t : Ticket) (statuses : list status) (c : nat) (local : Z) w :
    outcome world :=
  if ignoreStatus t then Ok w
  else st ← read (statuses !! c) "statuses[c]"; storeStatus t st local w.

(** ** Checking the requests in flight *)

(** [for (c = 0; c < batchCompleted; ++c)]; [ix] are the indices left, relative
    to the batch that starts at [checked]. *)
Fixpoint complete_batch (useCompletionManager : bool) (checked c : nat) (ix : list nat)
    (statuses : list status) (a : Internals) (contexts : list TaskContext) w :
    outcome (list TaskContext * world) :=
  match ix with
  | [] => Ok (contexts, w)
  | i :: ix =>
      let index := i + checked in
      local ← getLocalPositionInTicket index a;
      t ← getAssociatedTicket index a;
      w ← save_status t statuses c local w;
      '(contexts, w) ← finish useCompletionManager t contexts w;
      complete_batch useCompletionManager checked (S c) ix statuses a contexts w
  end.

(** The [do ... while (checked < _pending)] loop over batches. *)
Fixpoint check_batches (fuel : nat) (use : bool) (approach : TestingApproach)
    (pending checked : nat) (indices : list nat) (a : Internals) w :
    outcome (list nat * Internals * world) :=
  match fuel with
  | 0 => Undef "internalCheckRequests does not terminate"
  | S fuel =>
      let count := (pending - checked) `min` BatchSize in
      reqs ← read (slice (_requests a) checked count) "_requests";
      '(ix, reqs, statuses, w) ← internalTestRequests approach reqs w;
      let a := mkInternals (store checked reqs (_requests a)) (_mappings a) (_tickets a) in
      '(contexts, w) ← complete_batch use checked 0 ix statuses a [] w;
      w ← hand_over use contexts w;
      let indices := indices ++ ((λ i, i + checked) <$> ix) in
      let checked := checked + count in
      if checked <? pending then check_batches fuel use approach pending checked indices a w
      else Ok (indices, a, w)
  end.

Definition internalCheckRequests m w : outcome (nat * TicketManager * world) :=
  _ ← assert (0 <? _pending m) "_pending > 0";
  let useCompletionManager := isEnabled w in
  '(indices, a, w) ← check_batches (_pending m) useCompletionManager (_generalTesting m)
                       (_pending m) 0 [] (_arrays m) w;
  a ← compact max indices (_pending m) a;
  Ok (length indices, set_arrays (_pending m - length indices) a m, w).

(** ** Transferring operations *)

Section transfer.
Context {Op : Type} `{!OpType Op}.

(** [for (e = 0; e < count; ++e)]: build the tickets and issue the
    operations.  The results are the arrays [tickets], [requests],
    [req2entry] and [complentries]. *)
Fixpoint issue_loop (e : nat) (operations : list ptr) (tickets : list Ticket)
    (requests : list request) (req2entry complentries : list nat) w :
    outcome (list Ticket * list request * list nat * list nat * world) :=
  match operations with
  | [] => Ok (tickets, requests, req2entry, complentries, w)
  | p :: operations =>
      o ← read (op_heap (Op:=Op) w !! p) "*operations[e]";
      t ← op_ticket o;
      '(r, w) ← op_issue o w;
      if bool_decide (r ≠ REQUEST_NULL) then
        issue_loop (S e) operations (tickets ++ [t]) (requests ++ [r]) (req2entry ++ [e])
          complentries w
      else
        issue_loop (S e) operations (tickets ++ [t]) requests req2entry
          (complentries ++ [e]) w
  end.
End transfer.

(** [for (c = 0; c < ntestcompl; ++c)]: the immediately completed requests.
    [None] is the entry [-1]. *)
Fixpoint filter_loop (c : nat) (ix : list nat) (statuses : list status)
    (tickets : list Ticket) (req2entry : list (option nat)) (complentries : list nat) w :
    outcome (list (option nat) * list nat * world) :=
  match ix with
  | [] => Ok (req2entry, complentries, w)
  | req :: ix =>
      entry ← read (mjoin (req2entry !! req)) "req2entry[req]";
      t ← read (tickets !! entry) "tickets[entry]";
      w ← save_status t statuses c 0 w;
      filter_loop (S c) ix statuses tickets (<[req := None]> req2entry)
        (complentries ++ [entry]) w
  end.

(** [for (c = 0; c < ncompl; ++c)]: the completed tickets. *)
Fixpoint finish_loop (useCompletionManager : bool) (tickets : list Ticket)
    (complentries : list nat) (contexts : list TaskContext) w :
    outcome (list TaskContext * world) :=
  match complentries with
  | [] => Ok (contexts, w)
  | entry :: complentries =>
      t ← read (tickets !! entry) "tickets[entry]";
      '(contexts, w) ← finish useCompletionManager t contexts w;
      finish_loop useCompletionManager tickets complentries contexts w
  end.

(** [for (r = 0; r < nreqs; ++r)]: the other tickets go to the arrays. *)
Fixpoint append_loop (requests : list request) (req2entry : list (option nat))
    (tickets : list Ticket) (pending : nat) (a : Internals) : outcome (nat * Internals) :=
  match requests, req2entry with
  | r :: requests, Some entry :: req2entry =>
      t ← read (tickets !! entry) "tickets[entry]";
      '(ticket, a) ← allocateTicket max pending t a;
      a ← associateRequest max pending r ticket 0 a;
      append_loop requests req2entry tickets (S pending) a
  | _ :: requests, None :: req2entry => append_loop requests req2entry tickets pending a
  | _, _ => Ok (pending, a)
  end.

(** The part of [transferOperations] up to the notification of the tasks:
    the tickets, the requests and the entry of each active request. *)
Definition start_operations `{!OpType Op} (immediate : TestingApproach) (operations : list ptr) w :
    outcome (list Ticket * list request * list (option nat) * world) :=
  let use := isEnabled w in
  '(tickets, requests, req2entry, complentries, w) ← issue_loop (Op:=Op) 0 operations [] [] [] [] w;
  '(ix, requests, statuses, w) ←
    (if 0 <? length requests then internalTestRequests immediate requests w
     else Ok ([], requests, [], w));
  '(req2entry, complentries, w) ←
    filter_loop 0 ix statuses tickets (Some <$> req2entry) complentries w;
  '(contexts, w) ← finish_loop use tickets complentries [] w;
  w ← hand_over use contexts w;
  Ok (tickets, requests, req2entry, w).

Definition transferOperations `{!OpType Op} (operations : list ptr) m w :
    outcome (TicketManager * world) :=
  _ ← assert (length operations <=? BatchSize) "count <= BatchSize";
  _ ← assert (_pending m + length operations <=? get (_capacityCtrl m))
        "_pending + count <= _capacityCtrl.get()";
  '(tickets, requests, req2entry, w) ←
    start_operations (Op:=Op) (_immediateTesting m) operations w;
  '(pending, a) ← append_loop requests req2entry tickets (_pending m) (_arrays m);
  w ← op_free (Op:=Op) operations w;
  Ok (set_arrays pending a m, w).

(** ** Draining the pre-queues *)

(** Pop up to [n] operations from one of the queues and transfer them. *)
Definition take_operations {Q} `{!OpQueue Q ptr} `{!OpType Op} (n : nat) (q : Q)
    (set_queue : Q → TicketManager → TicketManager) m w : outcome (nat * TicketManager * world) :=
  '(ops, q) ← q_pop (n `min` BatchSize) q;
  let m := set_queue q m in
  '(m, w) ← (if 0 <? length ops then transferOperations (Op:=Op) ops m w else Ok (m, w));
  Ok (length ops, m, w).

Definition take_p2p (n : nat) m w : outcome (nat * TicketManager * world) :=
  take_operations (Op:=Operation) n (_p2pOperations m) set_p2p m w.
Definition take_coll (n : nat) m w : outcome (nat * TicketManager * world) :=
  take_operations (Op:=CollOperation) n (_collOperations m) set_coll m w.

(** The [do ... while] loop, with [ntotal] operations transferred so far. *)
Fixpoint check_queues (fuel navailable ntotal : nat) m w :
    outcome (nat * TicketManager * world) :=
  match fuel with
  | 0 => Undef "internalCheckOperationQueues does not terminate"
  | S fuel =>
      '(np2p, m, w) ← take_p2p (navailable - ntotal) m w;
      let ntotal := ntotal + np2p in
      '(ncoll, m, w) ← take_coll (navailable - ntotal) m w;
      let ntotal := ntotal + ncoll in
      if (ntotal <? navailable) && ((0 <? np2p) || (0 <? ncoll))
      then check_queues fuel navailable ntotal m w
      else Ok (ntotal, m, w)
  end.

Definition internalCheckOperationQueues (maximum : nat) m w :
    outcome (nat * TicketManager * world) :=
  let navailable := (get (_capacityCtrl m) - _pending m) `min` maximum in
  check_queues (S navailable) navailable 0 m w.

(** ** Polling *)

(** The [do ... while (completed > 0 || inserted > 0)] loop. *)
Fixpoint check_loop (fuel totalCompleted : nat) m w : outcome (nat * TicketManager * world) :=
  match fuel with
  | 0 => Undef "checkRequests does not terminate"
  | S fuel =>
      '(inserted, m, w) ←
        (if _pending m <? get (_capacityCtrl m)
         then internalCheckOperationQueues (BatchSize * 2) m w else Ok (0, m, w));
      '(completed, m, w) ←
        (if 0 <? _pending m then internalCheckRequests m w else Ok (0, m, w));
      let totalCompleted := totalCompleted + completed in
      if (0 <? completed) || (0 <? inserted) then check_loop fuel totalCompleted m w
      else Ok (totalCompleted, m, w)
  end.

(** Operations the manager knows of and has not finished. *)
Definition workload m : nat :=
  2 * (length (q_contents (_p2pOperations m)) + length (q_contents (_collOperations m))) +
  _pending m.

(** [checkRequests(pending)] at time [now]: the completed requests and the
    number that is added to [pending].  The fuel is one more than the number
    of iterations that can do something. *)
Definition checkRequests (now : Z) m w : outcome (nat * nat * TicketManager * world) :=
  '(totalCompleted, m, w) ← check_loop (S (workload m)) 0 m w;
  let m := set_ctrl (evaluate (Z.of_nat (_pending m)) (Z.of_nat totalCompleted) now
                       (_capacityCtrl m)) m in
  Ok (totalCompleted, _pending m, m, w).
End manager.
Arguments TicketManager _ _ : clear implicits.
