(* ===== verification/OperationManager.v ===== *)
(** * Delegating operations

    [OperationManager::process] ([src/src/common/OperationManager.hpp]) and
    [TicketManager::addOperation] ([src/src/common/TicketManager.hpp]): what a
    task does when it calls a task-aware operation. *)

From S2P Require Import Prelude Queues Allocator World Interface Tickets Operations StringSupport CapacityCtrl TicketManager.

Section delegation.
Context `{SpscLib, AlpiLib, MpiLib} {QP QC : Type} `{!OpQueue QP ptr, !OpQueue QC ptr}.
Implicit Types (w : world) (m : TicketManager QP QC).

(** [addOperation(operation)], one attempt on logical CPU [cpu]: [false] says
    that the pre-queue is full and the task spins. *)
Definition addOperation_p2p (cpu : nat) (operation : ptr) m :
    outcome (bool * TicketManager QP QC) :=
  '(pushed, q) ← q_push cpu operation (_p2pOperations m); Ok (pushed, set_p2p q m).
Definition addOperation_coll (cpu : nat) (operation : ptr) m :
    outcome (bool * TicketManager QP QC) :=
  '(pushed, q) ← q_push cpu operation (_collOperations m); Ok (pushed, set_coll q m).

(** The part of [process] before the operation is pushed: the context of the
    current task [task], its event, and the operation built from the task
    handle by [make]. *)
Definition begin_operation `{!OpType Op} (cpu : nat) (nature : OpNature) (task : task_handle_t)
    (make : task_handle_t → Op) w : outcome (TaskContext * ptr * world) :=
  c ← newContext (bool_decide (nature = BLK)) task;
  w ← bindEvents c 1 w;
  '(p, w) ← op_new cpu (make (_taskHandle c)) w;
  Ok (c, p, w).

(** The part after it: a blocking task waits. *)
Definition end_operation (c : TaskContext) w : outcome world :=
  if _blocking c then waitEventsCompletion c w else Ok w.

(** [process] when the first push goes through. *)
Definition process_with `{!OpType Op} (add : nat → ptr → TicketManager QP QC →
    outcome (bool * TicketManager QP QC)) (cpu : nat) (nature : OpNature) (task : task_handle_t)
    (make : task_handle_t → Op) m w : outcome (bool * TicketManager QP QC * world) :=
  '(c, p, w) ← begin_operation cpu nature task make w;
  '(pushed, m) ← add cpu p m;
  if (pushed : bool) then w ← end_operation c w; Ok (true, m, w) else Ok (false, m, w).

Definition process_p2p (cpu : nat) (nature : OpNature) (task : task_handle_t)
    (make : task_handle_t → Operation) := process_with addOperation_p2p cpu nature task make.
Definition process_coll (cpu : nat) (nature : OpNature) (task : task_handle_t)
    (make : task_handle_t → CollOperation) := process_with addOperation_coll cpu nature task make.
End delegation.
