(* ===== verification/ManagerProofs.v ===== *)
(** * Correctness of the ticket manager

    What a run of the ticket manager does to the world ([progress]), to its
    queues and to its arrays ([mstep]), the invariant it keeps ([minv]), and
    the proofs for each of the functions of [TicketManager.v]. *)

From S2P Require Import Prelude Queues Allocator World Interface Tickets Operations StringSupport CapacityCtrl TicketManager.

(** ** Effects on the world *)

(** A finished operation: its request, its ticket, and the status MPI reported,
    unless the operation had completed when it was issued. *)
Notation finished := (request * Ticket * option status)%type.

Definition write_statuses (m : gmap Z status) (l : list (pointer * status)) : gmap Z status :=
  foldl (λ m '(a, s), <[a := s]> m) m l.

Section progress.
Context `{SpscLib}.
Implicit Types w : world.

(** From [w] to [w'] the operations [iss] were issued, MPI reported the
    completions [rep], the tasks [told] were notified and the statuses [sts]
    were written, and nothing else happened. *)
Record progress w w' (iss : list (mpi_call * request)) (rep : list (request * status))
    (told : list TaskContext) (sts : list (pointer * status)) : Prop := {
  pg_issues : issues (w_trace w') = issues (w_trace w) ++ iss;
  pg_reports : reports (w_trace w') = reports (w_trace w) ++ rep;
  pg_bound : bound (w_trace w') = bound (w_trace w);
  pg_told : delivered w' ≡ₚ delivered w ++ told;
  pg_status : w_status w' = write_statuses (w_status w) sts;
  pg_enabled : w_enabled w' = w_enabled w;
  pg_capacity : spsc_capacity (w_queue w') = spsc_capacity (w_queue w);
  pg_queue : length (spsc_contents (w_queue w')) ≤ length (spsc_contents (w_queue w)) + length told;
}.

Lemma progress_refl w : progress w w [] [] [] [].
Proof. split; rewrite ?app_nil_r; try done. lia. Qed.

Lemma progress_trans w1 w2 w3 iss iss' rep rep' told told' sts sts' :
  progress w1 w2 iss rep told sts → progress w2 w3 iss' rep' told' sts' →
  progress w1 w3 (iss ++ iss') (rep ++ rep') (told ++ told') (sts ++ sts').
Proof.
  intros [A1 A2 A0 A3 A4 A5 A6 A7] [B1 B2 B0 B3 B4 B5 B6 B7]. split.
  - by rewrite B1, A1, app_assoc.
  - by rewrite B2, A2, app_assoc.
  - congruence.
  - by rewrite B3, A3, app_assoc.
  - unfold write_statuses in *. by rewrite foldl_app, <-A4, <-B4.
  - congruence.
  - congruence.
  - rewrite length_app. lia.
Qed.

Lemma progress_told w w' iss rep told told' sts :
  told ≡ₚ told' → progress w w' iss rep told sts → progress w w' iss rep told' sts.
Proof. intros Ht []. split; try done; by rewrite <-Ht. Qed.

(** The queue of the completion manager, if it is used, has room for [n] more
    contexts. *)
Definition fits (use : bool) (n : nat) w : Prop :=
  use = false ∨ length (spsc_contents (w_queue w)) + n ≤ spsc_capacity (w_queue w).

Lemma fits_progress use n n' w w' iss rep told sts :
  progress w w' iss rep told sts → length told + n' ≤ n → fits use n w → fits use n' w'.
Proof. intros [] Hn [|Hf]; [by left|right]. lia. Qed.

Lemma fits_mono use n n' w : n' ≤ n → fits use n w → fits use n' w.
Proof. intros Hn [|Hf]; [by left|right]. lia. Qed.
End progress.

Section effects.
Context `{SpscLib, !SpscLaws, AlpiLib, MpiLib}.
Implicit Types w : world.

Lemma progress_tests w w' rep : only_tests w w' rep → progress w w' [] rep [] [].
Proof.
  intros ((es & Htr & Hn & Hi & Hb & Hr) & (_ & _ & _ & _ & Hen) & Hst & Hq).
  split; rewrite ?Htr, ?issues_app, ?reports_app, ?bound_app, ?Hi, ?Hr, ?Hb, ?Hq, ?app_nil_r; try done.
  - unfold delivered. by rewrite Htr, Hq, notified_app, Hn, app_nil_r.
  - simpl. lia.
Qed.

Lemma progress_issue w c r : progress w (w_log (EvIssue c r) w) [(c, r)] [] [] [].
Proof.
  split; simpl; rewrite ?issues_app, ?reports_app, ?bound_app, ?app_nil_r; try done.
  - unfold delivered. simpl. by rewrite notified_app, app_nil_r.
  - lia.
Qed.

Lemma progress_alpi w e c :
  event_contexts (EvAlpi e) = [c] → progress w (w_log (EvAlpi e) w) [] [] [c] [].
Proof.
  intros He. split; cbn [w_trace w_log]; rewrite ?issues_app, ?reports_app, ?bound_app, ?app_nil_r; try done.
  { change (bound (w_trace w) ++ event_bound (EvAlpi e) ++ [] = bound (w_trace w)).
    rewrite (notifying_quiet _ _ He). by rewrite app_nil_r. }
  - rewrite (delivered_log _ _ _ He). solve_Permutation.
  - cbn [w_queue w_log]. lia.
Qed.

Lemma progress_objects `{!OpType Op, !OpTypeLaws Op} w m a :
  progress w (op_set (Op:=Op) m a w) [] [] [] [].
Proof.
  split; rewrite ?app_nil_r, ?op_trace_set, ?op_status_set, ?op_enabled_set, ?op_queue_set; try done.
  - unfold delivered. by rewrite op_trace_set, op_queue_set.
  - lia.
Qed.

(** The status of a ticket, if wanted, is written where the ticket says. *)
Definition status_of (t : Ticket) (st : status) : list (pointer * status) :=
  if ignoreStatus t then [] else [(_firstStatus t, st)].

Lemma save_status_post F t statuses c st w :
  statuses !! c = Some st → status_ok t →
  post F (λ w', progress w w' [] [] [] (status_of t st) ∧ same_objects w w')
    (save_status t statuses c 0 w).
Proof.
  intros Hc Hok. unfold save_status, status_of.
  destruct (ignoreStatus t) eqn:Hig; [split; [apply progress_refl|done]|].
  rewrite Hc. destruct Hok as [|Hne]; [congruence|]. unfold storeStatus.
  apply Z.eqb_neq in Hne. cbn [read mbind outcome_bind]. rewrite Hne. simpl.
  split; [|done]. split; simpl; rewrite ?app_nil_r; try done; [by rewrite Z.add_0_r|lia].
Qed.

(** A failure can only come from MPI, the runtime or the completion queue: this
    is a world in which [n] operations can be finished without one. *)
Definition reliable (n : nat) w : Prop := mpi_ok ∧ alpi_ok ∧ fits (w_enabled w) n w.

Lemma reliable_mono n n' w (F : Prop) : n' ≤ n → F ∨ reliable n w → F ∨ reliable n' w.
Proof. intros Hn [|(? & ? & ?)]; [by left|right]. split_and!; try done. by eapply fits_mono. Qed.

Lemma reliable_progress n n' w w' iss rep told sts (F : Prop) :
  progress w w' iss rep told sts → length told + n' ≤ n → F ∨ reliable n w → F ∨ reliable n' w'.
Proof.
  intros Hp Hn [|(? & ? & Hf)]; [by left|right]. split_and!; try done.
  rewrite (pg_enabled _ _ _ _ _ _ Hp). by eapply fits_progress.
Qed.

Lemma finish_post F use t contexts w :
  F ∨ alpi_ok →
  post F (λ '(contexts', w'), ∃ told, progress w w' [] [] told [] ∧ same_objects w w' ∧
      told ++ contexts' ≡ₚ contexts ++ [_taskContext t] ∧ (use = false → contexts' = contexts))
    (finish use t contexts w).
Proof.
  intros HF. unfold finish. destruct use.
  - simpl. exists []. split_and!; try done. apply progress_refl.
  - eapply post_bind; [by apply completeEvents_post|].
    intros w' _ (e & -> & He). simpl. exists [_taskContext t]. split_and!; try done.
    + by apply progress_alpi.
    + solve_Permutation.
Qed.

Lemma hand_over_post F use contexts w :
  F ∨ fits use (length contexts) w → (use = false → contexts = []) →
  post F (λ w', progress w w' [] [] contexts [] ∧ same_objects w w') (hand_over use contexts w).
Proof.
  intros HF Hctx. unfold hand_over. destruct use; cbn [andb].
  2:{ rewrite Hctx by done. split; [apply progress_refl|done]. }
  destruct (Nat.ltb_spec 0 (length contexts)) as [|Hz].
  2:{ destruct contexts; [|simpl in *; lia]. split; [apply progress_refl|done]. }
  eapply post_mono; [apply transfer_post; destruct HF as [|[|]]; [by left|done|right; lia]|].
  intros w' (q & -> & Hq & Hcap). split; [|done]. split; simpl; rewrite ?app_nil_r; try done.
  - unfold delivered. simpl. by rewrite Hq, app_assoc.
  - by rewrite Hq, length_app.
Qed.

Lemma finish_loop_post F use tickets entries ts contexts w :
  F ∨ alpi_ok →
  Forall2 (λ e t, tickets !! e = Some t) entries ts →
  post F (λ '(contexts', w'), ∃ told, progress w w' [] [] told [] ∧ same_objects w w' ∧
      told ++ contexts' ≡ₚ contexts ++ (_taskContext <$> ts) ∧
      (use = false → contexts' = contexts))
    (finish_loop use tickets entries contexts w).
Proof.
  intros HF Hts. revert contexts w. induction Hts as [|e t entries ts He Hts IH];
    intros contexts w; simpl.
  { exists []. rewrite app_nil_r. split_and!; try done. apply progress_refl. }
  rewrite He. simpl. eapply post_bind; [by apply finish_post|].
  intros [contexts1 w1] _ (told1 & Hp1 & Hs1 & Hc1 & Hu1).
  eapply post_mono; [apply IH|]. intros [contexts2 w2] (told2 & Hp2 & Hs2 & Hc2 & Hu2).
  exists (told1 ++ told2). split_and!.
  - apply (progress_trans _ _ _ _ _ _ _ _ _ _ _ Hp1 Hp2).
  - by etransitivity.
  - rewrite <-app_assoc, Hc2, app_assoc, Hc1. by rewrite <-app_assoc.
  - intros Hu. by rewrite Hu2, Hu1.
Qed.
End effects.

(** ** Finished operations *)

Section finished.
Context `{SpscLib, MpiLib}.

Definition fin_context (f : finished) : TaskContext := _taskContext f.1.2.
Definition fin_report (f : finished) : option (request * status) := (λ s, (f.1.1, s)) <$> f.2.
Definition fin_status (f : finished) : list (pointer * status) :=
  match f.2 with Some s => status_of f.1.2 s | None => [] end.

(** Only an operation that had completed when it was issued is finished without a
    report of MPI. *)
Definition fin_ok (f : finished) : Prop := f.2 = None → f.1.1 = REQUEST_NULL.

(** The requests [ps] with the statuses [sts] that were reported for them. *)
Definition with_status (ps : list (request * Ticket)) (sts : list status) : list finished :=
  zip ps (Some <$> sts).

Lemma with_status_reports ps sts : omap fin_report (with_status ps sts) = zip ps.*1 sts.
Proof.
  revert sts. induction ps as [|p ps IH]; intros [|s sts]; try done.
  unfold with_status in *. csimpl. by rewrite IH.
Qed.

Lemma with_status_ok ps sts : Forall fin_ok (with_status ps sts).
Proof.
  unfold with_status. revert sts. induction ps as [|p ps IH]; intros [|s sts]; simpl; constructor; [done|].
  apply IH.
Qed.

Lemma with_status_fst ps sts : length ps = length sts → (with_status ps sts).*1 = ps.
Proof. intros. apply fst_zip. rewrite length_fmap. lia. Qed.

Lemma with_status_contexts ps sts :
  length ps = length sts →
  fin_context <$> with_status ps sts = (λ p, _taskContext p.2) <$> ps.
Proof.
  intros Hl. rewrite <-(with_status_fst ps sts Hl) at 2. by rewrite <-list_fmap_compose.
Qed.
End finished.

(** The effect of finishing operations. *)
Notation finishes w w' iss fin :=
  (progress w w' iss (omap fin_report fin) (fin_context <$> fin) (fin ≫= fin_status)).

Section finished_proofs.
Context `{SpscLib, MpiLib}.
Implicit Types w : world.

Lemma finishes_trans w1 w2 w3 iss1 iss2 fin1 fin2 :
  finishes w1 w2 iss1 fin1 → finishes w2 w3 iss2 fin2 →
  finishes w1 w3 (iss1 ++ iss2) (fin1 ++ fin2).
Proof. rewrite omap_app, fmap_app, bind_app. apply progress_trans. Qed.
End finished_proofs.

(** ** Checking the requests in flight *)

Section check.
Context `{SpscLib, !SpscLaws, AlpiLib, MpiLib, !MpiLaws}.
Implicit Types w : world.

Lemma complete_batch_post F use checked c ix statuses a ps sts contexts w :
  F ∨ alpi_ok →
  Forall2 (λ i p, _mappings a !! (i + checked) = Some (mkMapping (i + checked) 0) ∧
    _tickets a !! (i + checked) = Some p.2 ∧ status_ok p.2) ix ps →
  drop c statuses = sts → length sts = length ps →
  post F (λ '(contexts', w'), ∃ told,
      progress w w' [] [] told (with_status ps sts ≫= fin_status) ∧ same_objects w w' ∧
      told ++ contexts' ≡ₚ contexts ++ ((λ p, _taskContext p.2) <$> ps) ∧
      (use = false → contexts' = contexts))
    (complete_batch use checked c ix statuses a contexts w).
Proof.
  intros HF Hps. revert c sts contexts w.
  induction Hps as [|i p ix ps (Hm & Ht & Hok) Hps IH]; intros c sts contexts w Hdrop Hlen.
  { simpl. exists []. rewrite app_nil_r. split_and!; try done. apply progress_refl. }
  destruct sts as [|st sts]; [done|].
  assert (statuses !! c = Some st) as Hst.
  { rewrite <-(Nat.add_0_r c), <-lookup_drop, Hdrop. done. }
  assert (drop (S c) statuses = sts) as Hdrop'.
  { rewrite <-Nat.add_1_r, <-drop_drop, Hdrop. done. }
  simpl. unfold getLocalPositionInTicket, getAssociatedTicket. rewrite Hm. simpl. rewrite Ht. simpl.
  eapply post_bind; [by apply save_status_post|]. intros w1 _ [Hp1 Hs1].
  eapply post_bind; [by apply finish_post|].
  intros [contexts2 w2] _ (told2 & Hp2 & Hs2 & Hc2 & Hu2).
  eapply post_mono; [apply (IH _ sts); [done|by injection Hlen]|].
  intros [contexts3 w3] (told3 & Hp3 & Hs3 & Hc3 & Hu3).
  exists (told2 ++ told3). split_and!.
  - pose proof (progress_trans _ _ _ _ _ _ _ _ _ _ _ (progress_trans _ _ _ _ _ _ _ _ _ _ _
      Hp1 Hp2) Hp3) as Hp. simpl in Hp. rewrite app_nil_r in Hp. exact Hp.
  - etransitivity; [done|]. by etransitivity.
  - rewrite <-app_assoc, Hc3, app_assoc, Hc2. by rewrite <-app_assoc.
  - intros Hu. by rewrite Hu3, Hu2.
Qed.

Section batches.
Context (a0 : Internals) (n : nat).
Context (Hok : arrays_ok a0 n).
Context (Hactive : ∀ i r, i < n → _requests a0 !! i = Some r → r ≠ REQUEST_NULL).
Context (Hstatus : ∀ i t, i < n → _tickets a0 !! i = Some t → status_ok t).

(** The arrays while batches are checked: the requests found completed, all
    behind [checked], are null, everything else is as it was. *)
Record batch_inv (checked : nat) (indices : list nat) (a : Internals) : Prop := {
  bi_sorted : StronglySorted lt indices;
  bi_range : Forall (λ i, i < checked) indices;
  bi_mappings : _mappings a = _mappings a0;
  bi_tickets : _tickets a = _tickets a0;
  bi_requests i : i < n →
    _requests a !! i = if decide (i ∈ indices) then Some REQUEST_NULL else _requests a0 !! i;
}.

Lemma batch_slice checked indices a count :
  batch_inv checked indices a → checked + count ≤ n →
  ∃ reqs, slice (_requests a) checked count = Some reqs ∧ length reqs = count ∧
    Forall (λ r, r ≠ MPI_REQUEST_NULL) reqs ∧
    ∀ i, i < count → reqs !! i = _requests a0 !! (i + checked).
Proof.
  intros Hi Hle.
  assert (∀ i, checked ≤ i < n → _requests a !! i = _requests a0 !! i) as Hsame.
  { intros i Hr. rewrite (bi_requests _ _ _ Hi) by lia. rewrite decide_False; [done|].
    pose proof (bi_range _ _ _ Hi) as Hlt. rewrite Forall_forall in Hlt.
    intros Hin%Hlt. lia. }
  destruct (slice_is_Some (_requests a) checked count) as [reqs Hreqs].
  { intros i Hr. rewrite Hsame by lia. destruct (Hok i) as (? & ? & -> & _); [lia|done]. }
  pose proof (slice_length _ _ _ _ Hreqs) as Hlen.
  assert (∀ i, i < count → reqs !! i = _requests a0 !! (i + checked)) as Hl.
  { intros i Hlt. rewrite <-(slice_lookup _ _ _ _ i Hreqs), Hsame by lia. f_equal. lia. }
  exists reqs. split_and!; try done. apply Forall_lookup. intros i r Hr.
  pose proof (lookup_lt_Some _ _ _ Hr). rewrite Hl in Hr by lia.
  by eapply (Hactive (i + checked)); [lia|].
Qed.

Lemma batch_store checked indices a count reqs reqs' ix :
  batch_inv checked indices a → checked + count ≤ n → length reqs = count →
  (∀ i, i < count → reqs !! i = _requests a0 !! (i + checked)) →
  StronglySorted lt ix → Forall (λ i, i < length reqs) ix → marked ix reqs reqs' →
  batch_inv (checked + count) (indices ++ ((λ i, i + checked) <$> ix))
    (mkInternals (store checked reqs' (_requests a)) (_mappings a) (_tickets a)).
Proof.
  intros [Hs Hr Hm Ht Hreq] Hle Hlen Hl Hsx Hrx [Hlen' Hmk]. split; simpl; try done.
  - apply StronglySorted_app_2; [| |].
    + intros x y Hx (i & -> & _)%list_elem_of_fmap. rewrite Forall_forall in Hr.
      specialize (Hr x Hx). lia.
    + done.
    + clear -Hsx. induction Hsx as [|i ix Hs IH Hi]; csimpl; constructor; [done|].
      apply Forall_fmap. eapply Forall_impl; [done|]. simpl. lia.
  - apply Forall_app. split; [eapply Forall_impl; [done|]; simpl; lia|].
    apply Forall_fmap. eapply Forall_impl; [done|]. simpl. lia.
  - intros i Hi. rewrite lookup_store, Hlen'.
    assert (∀ j, checked ≤ j → j ∈ (λ i, i + checked) <$> ix ↔ (j - checked) ∈ ix) as Hfm.
    { intros j Hj. rewrite list_elem_of_fmap. split.
      - intros (k & -> & Hk). by replace (k + checked - checked) with k by lia.
      - intros Hk. exists (j - checked). split; [lia|done]. }
    rewrite Forall_forall in Hr, Hrx. case_decide as Hin.
    + rewrite Hmk by lia. rewrite Hl by lia. replace (i - checked + checked) with i by lia.
      specialize (Hfm i ltac:(lia)).
      assert (i ∉ indices) by (intros Hx%Hr; lia).
      repeat case_decide; set_solver.
    + rewrite Hreq by done.
      assert (i ∉ (λ i, i + checked) <$> ix).
      { intros (k & -> & Hk%Hrx)%list_elem_of_fmap. lia. }
      repeat case_decide; set_solver.
Qed.

(** The requests and tickets of the completed indices. *)
Lemma batch_entries checked indices a count reqs ix :
  batch_inv checked indices a → checked + count ≤ n → length reqs = count →
  (∀ i, i < count → reqs !! i = _requests a0 !! (i + checked)) →
  Forall (λ i, i < count) ix →
  ∃ ps, Forall2 (λ i p, entry a0 i = Some p) ((λ i, i + checked) <$> ix) ps ∧
    omap (reqs !!.) ix = ps.*1 ∧
    Forall2 (λ i p, _mappings a !! (i + checked) = Some (mkMapping (i + checked) 0) ∧
      _tickets a !! (i + checked) = Some p.2 ∧ status_ok p.2) ix ps.
Proof.
  intros Hi Hle Hlen Hl. induction 1 as [|i ix Hix _ (ps & Hps & Hom & Hps')].
  { exists []. by split_and!; csimpl. }
  destruct (arrays_ok_entry a0 n (i + checked) Hok ltac:(lia)) as (r & t & He & Hr & Hm & Ht).
  exists ((r, t) :: ps). split_and!.
  - csimpl. by constructor.
  - csimpl. rewrite Hl, Hr by done. by rewrite Hom.
  - constructor; [|done]. rewrite (bi_mappings _ _ _ Hi), (bi_tickets _ _ _ Hi).
    split_and!; [done..|]. eapply (Hstatus (i + checked)); [lia|done].
Qed.

(** What checking the batches from [checked] on establishes. *)
Definition batches_post (indices : list nat) w : list nat * Internals * world → Prop :=
  λ '(indices', a', w'), ∃ new fin,
    indices' = indices ++ new ∧ batch_inv n indices' a' ∧
    Forall2 (λ i f, entry a0 i = Some f.1) new fin ∧
    Forall fin_ok fin ∧ finishes w w' [] fin ∧ same_objects w w'.

Lemma check_batches_post F fuel use approach checked indices a w :
  F ∨ (mpi_ok ∧ alpi_ok ∧ fits use (n - checked) w) → orderly approach →
  batch_inv checked indices a → checked < n → n ≤ fuel + checked →
  post F (batches_post indices w) (check_batches fuel use approach n checked indices a w).
Proof.
  intros HF Hord. revert checked indices a w HF.
  induction fuel as [|fuel IH]; intros checked indices a w HF Hi Hlt Hfuel; [lia|].
  cbn [check_batches]. set (count := (n - checked) `min` BatchSize).
  assert (0 < count ∧ checked + count ≤ n) as [Hcount Hle] by (unfold count, BatchSize; lia).
  destruct (batch_slice _ _ _ count Hi Hle) as (reqs & -> & Hlen & Hact & Hl).
  cbn [read mbind outcome_bind].
  eapply post_bind; [apply internalTestRequests_post; [naive_solver|done|]|].
  { intros ->. simpl in Hlen. lia. }
  intros [[[ix reqs'] sts] w1] _ (Ht & Hw1 & Hsorted). specialize (Hsorted Hord).
  pose proof (batch_store _ _ _ count reqs reqs' ix Hi Hle Hlen Hl Hsorted
    (tested_range _ _ _ _ Ht) (tested_marked _ _ _ _ Ht)) as Hi'.
  pose proof (tested_range _ _ _ _ Ht) as Hrange. rewrite Hlen in Hrange.
  destruct (batch_entries _ _ _ count reqs ix Hi Hle Hlen Hl Hrange) as (ps & Hps & Hom & Hps').
  assert (length sts = length ps) as Hlps.
  { rewrite (tested_statuses _ _ _ _ Ht). by eapply Forall2_length. }
  assert (length ps ≤ count) as Hpsn.
  { rewrite <-(Forall2_length _ _ _ Hps'). by apply sorted_length. }
  eapply post_bind; [apply (complete_batch_post F use checked 0 ix sts _ ps sts); try done|].
  { naive_solver. }
  intros [contexts w2] _ (told & Hp2 & Hs2 & Hc2 & Hu2).
  assert (length told + length contexts = length ps) as Hlc.
  { apply Permutation_length in Hc2. rewrite !length_app, length_fmap in Hc2. exact Hc2. }
  eapply post_bind; [apply hand_over_post; [|done]|].
  { destruct HF as [|(_ & _ & HF)]; [by left|right]. eapply fits_progress; [exact Hp2|instantiate (1 := n - checked); lia|].
    eapply fits_progress; [by apply progress_tests|simpl; done|done]. }
  intros w3 _ [Hp3 Hs3].
  set (fin := with_status ps sts).
  assert (finishes w w3 [] fin ∧ same_objects w w3) as [Hfin Hsame].
  { split; [|etransitivity; [apply Hw1|etransitivity; done]].
    pose proof (progress_trans _ _ _ _ _ _ _ _ _ _ _ (progress_tests _ _ _ Hw1)
      (progress_trans _ _ _ _ _ _ _ _ _ _ _ Hp2 Hp3)) as Hp.
    unfold reported in Hp. rewrite Hom in Hp. simpl in Hp. rewrite !app_nil_r in Hp.
    unfold fin. rewrite with_status_reports, with_status_contexts by done.
    eapply progress_told; [|exact Hp]. by rewrite Hc2. }
  assert (Forall2 (λ i f, entry a0 i = Some f.1) ((λ i, i + checked) <$> ix) fin) as Hent.
  { apply (Forall2_fmap_r fst (λ i p, entry a0 i = Some p)).
    unfold fin. by rewrite with_status_fst. }
  destruct (Nat.ltb_spec (checked + count) n).
  - eapply post_mono; [apply IH; [|done|lia|lia]|].
    { destruct HF as [|(? & ? & HF)]; [by left|right]. split_and!; [done..|].
      eapply fits_progress; [exact Hfin| |exact HF]. rewrite length_fmap. unfold fin.
      rewrite <-(length_fmap fst), with_status_fst by done. lia. }
    intros [[indices' a'] w4] (new & fin' & -> & Hi'' & Hent' & Hok' & Hfin' & Hsame').
    exists (((λ i, i + checked) <$> ix) ++ new), (fin ++ fin').
    split_and!; [by rewrite app_assoc|done|by apply Forall2_app| | |].
    + apply Forall_app. split; [apply with_status_ok|done].
    + exact (finishes_trans _ _ _ [] [] _ _ Hfin Hfin').
    + by etransitivity.
  - simpl. eexists _, fin. split_and!; try done; [|apply with_status_ok]. by replace n with (checked + count) by lia.
Qed.
End batches.
End check.

(** ** The manager *)

(** An operation that was transferred: its call, its request and its ticket. *)
Notation transferred := (mpi_call * request * Ticket)%type.
Notation tr_issue := (λ x : transferred, (x.1.1, x.1.2)).
Notation tr_op := (λ x : transferred, (x.1.1, x.2)).
Notation tr_entry := (λ x : transferred, (x.1.2, x.2)).

Section invariant.
Context `{SpscLib, AlpiLib, MpiLib} {QP QC : Type} `{!OpQueue QP ptr, !OpQueue QC ptr}.
Implicit Types (w : world) (m : TicketManager QP QC).

Definition m_inflight m : list (request * Ticket) := inflight (_arrays m) (_pending m).

(** The calls and tickets of the operations that wait in the pre-queues. *)
Definition queued m w : list (mpi_call * Ticket) :=
  queued_data (Op:=Operation) w (q_contents (_p2pOperations m)) ++
  queued_data (Op:=CollOperation) w (q_contents (_collOperations m)).

(** The invariant of the manager; [pp] and [pc] are the operations that tasks
    have allocated and not pushed yet.  The requests in flight are tested with an
    approach that returns ascending indices. *)
Record manager_inv (pp pc : list ptr) m w : Prop := {
  mi_order : orderly (_generalTesting m);
  mi_ctrl : ctrl_ok (_capacityCtrl m);
  mi_pending : _pending m ≤ get (_capacityCtrl m);
  mi_arrays : arrays_ok (_arrays m) (_pending m);
  mi_inflight : Forall (λ p, p.1 ≠ REQUEST_NULL ∧ status_ok p.2) (m_inflight m);
  mi_p2p : q_inv (_p2pOperations m);
  mi_coll : q_inv (_collOperations m);
  mi_p2p_objects : objects_ok (Op:=Operation) w (q_contents (_p2pOperations m) ++ pp);
  mi_coll_objects : objects_ok (Op:=CollOperation) w (q_contents (_collOperations m) ++ pc);
}.

(** The manager transferred the operations [tr] from its queues to MPI and
    finished [fin], some of them possibly from [tr]. *)
Record mstep m w m' w' (tr : list transferred) (fin : list finished) : Prop := {
  ms_world : finishes w w' (tr_issue <$> tr) fin;
  ms_queued : queued m w ≡ₚ (tr_op <$> tr) ++ queued m' w';
  ms_inflight : m_inflight m ++ (tr_entry <$> tr) ≡ₚ m_inflight m' ++ fin.*1;
  ms_ctrl : _capacityCtrl m' = _capacityCtrl m;
  ms_fin : Forall fin_ok fin;
}.

Context `{!SpscLaws} {pp pc : list ptr}.
Notation minv := (manager_inv pp pc).

Lemma mstep_refl m w : mstep m w m w [] [].
Proof. split; csimpl; rewrite ?app_nil_r; try done. apply progress_refl. Qed.

Lemma mstep_trans m1 w1 m2 w2 m3 w3 tr1 tr2 fin1 fin2 :
  mstep m1 w1 m2 w2 tr1 fin1 → mstep m2 w2 m3 w3 tr2 fin2 →
  mstep m1 w1 m3 w3 (tr1 ++ tr2) (fin1 ++ fin2).
Proof.
  intros [A1 A2 A3 A4 A5] [B1 B2 B3 B4 B5]. split.
  - rewrite (fmap_app tr_issue). exact (finishes_trans _ _ _ _ _ _ _ A1 B1).
  - by rewrite fmap_app, A2, B2, app_assoc.
  - rewrite !fmap_app, app_assoc, A3, <-app_assoc, (Permutation_app_comm (fin1.*1)), app_assoc, B3.
    rewrite <-app_assoc. by rewrite (Permutation_app_comm (fin2.*1)).
  - congruence.
  - by apply Forall_app.
Qed.

Lemma inflight_at m w i :
  minv m w → i < _pending m →
  ∃ r t, entry (_arrays m) i = Some (r, t) ∧ _requests (_arrays m) !! i = Some r ∧
    _tickets (_arrays m) !! i = Some t ∧ r ≠ REQUEST_NULL ∧ status_ok t.
Proof.
  intros Hi Hlt. destruct (arrays_ok_entry _ _ i (mi_arrays _ _ _ _ Hi) Hlt) as (r & t & He & Hr & _ & Ht).
  exists r, t. pose proof (mi_inflight _ _ _ _ Hi) as Hf. rewrite Forall_forall in Hf.
  destruct (Hf (r, t)) as [? ?]; [|done].
  apply list_elem_of_omap. exists i. split; [apply elem_of_seq; lia|done].
Qed.

Lemma length_queued m w :
  minv m w → length (queued m w) =
    length (q_contents (_p2pOperations m)) + length (q_contents (_collOperations m)).
Proof.
  intros Hi. unfold queued. rewrite length_app, !length_queued_data; [done|..].
  - exact (proj1 (objects_ok_app _ _ _ (mi_coll_objects _ _ _ _ Hi))).
  - exact (proj1 (objects_ok_app _ _ _ (mi_p2p_objects _ _ _ _ Hi))).
Qed.

Lemma workload_eq m w :
  minv m w → workload m = 2 * length (queued m w) + length (m_inflight m).
Proof.
  intros Hi. unfold workload, m_inflight. rewrite (length_queued m w Hi).
  by rewrite (inflight_length _ _ (mi_arrays _ _ _ _ Hi)).
Qed.

(** The operations that are not finished. *)
Definition unfinished m : nat :=
  length (q_contents (_p2pOperations m)) + length (q_contents (_collOperations m)) + _pending m.

Lemma mstep_unfinished m w m' w' tr fin :
  minv m w → minv m' w' → mstep m w m' w' tr fin → length fin + unfinished m' = unfinished m.
Proof.
  intros Hi Hi' [_ Hq%Permutation_length Hf%Permutation_length _ _]. unfold unfinished.
  rewrite <-(length_queued _ _ Hi), <-(length_queued _ _ Hi').
  unfold m_inflight in Hf. rewrite !length_app, !length_fmap, !inflight_length in * by (apply Hi || apply Hi'). lia.
Qed.

Lemma mstep_workload m w m' w' tr fin :
  minv m w → minv m' w' → mstep m w m' w' tr fin →
  workload m' + length tr + length fin = workload m.
Proof.
  intros Hi Hi' [_ Hq%Permutation_length Hf%Permutation_length _ _].
  rewrite (workload_eq _ _ Hi), (workload_eq _ _ Hi').
  rewrite !length_app, !length_fmap in *. lia.
Qed.
End invariant.

(** ** internalCheckRequests *)

Section check_requests.
Context `{SpscLib, !SpscLaws, AlpiLib, MpiLib, !MpiLaws}.
Context {QP QC : Type} `{!OpQueue QP ptr, !OpQueue QC ptr} {pp pc : list ptr}.
Implicit Types (w : world) (m : TicketManager QP QC).
Notation minv := (manager_inv pp pc).

Lemma objects_ok_eq `{!OpType Op} w w' ps :
  op_heap (Op:=Op) w' = op_heap w → op_alloc (Op:=Op) w' = op_alloc w →
  objects_ok (Op:=Op) w ps → objects_ok (Op:=Op) w' ps.
Proof. intros Heq1 Heq2 [Ha Hh]. split; by rewrite ?Heq1, ?Heq2. Qed.

Lemma queued_data_eq `{!OpType Op} w w' ps :
  op_heap (Op:=Op) w' = op_heap w → queued_data (Op:=Op) w' ps = queued_data (Op:=Op) w ps.
Proof. intros Heq. unfold queued_data. by rewrite Heq. Qed.

Lemma objects_ok_same `{!OpType Op, !OpTypeLaws Op} w w' ps :
  same_objects w w' → objects_ok (Op:=Op) w ps → objects_ok (Op:=Op) w' ps.
Proof. intros Hs. destruct (op_same w w' Hs). by apply objects_ok_eq. Qed.

Lemma queued_data_same `{!OpType Op, !OpTypeLaws Op} w w' ps :
  same_objects w w' → queued_data (Op:=Op) w' ps = queued_data (Op:=Op) w ps.
Proof. intros Hs. destruct (op_same w w' Hs). by apply queued_data_eq. Qed.

(** Removing the completed requests from the arrays. *)
Lemma compact_batches m w indices a (fin : list finished) :
  minv m w → 0 < _pending m → batch_inv (_arrays m) (_pending m) (_pending m) indices a →
  Forall2 (λ i f, entry (_arrays m) i = Some f.1) indices fin →
  ∃ a', compact max indices (_pending m) a = Ok a' ∧
    arrays_ok a' (_pending m - length indices) ∧
    m_inflight m ≡ₚ inflight a' (_pending m - length indices) ++ fin.*1.
Proof.
  intros Hi Hpos Hb Hfin. set (n := _pending m) in *.
  assert (arrays_ok a n) as Ha.
  { intros i Hlt. destruct (mi_arrays _ _ _ _ Hi i Hlt) as (r & t & Hr & Hm & Ht).
    rewrite (bi_mappings _ _ _ _ _ Hb), (bi_tickets _ _ _ _ _ Hb), (bi_requests _ _ _ _ _ Hb), Hr by done.
    case_decide; naive_solver. }
  assert (n ≤ max) as Hmax.
  { pose proof (mi_pending _ _ _ _ Hi). pose proof (get_le_max _ (mi_ctrl _ _ _ _ Hi)). unfold n. lia. }
  destruct (compact_spec max n indices Hmax (bi_sorted _ _ _ _ _ Hb) (bi_range _ _ _ _ _ Hb) a Hpos Ha)
    as (a' & Heq & Ha' & Hinf).
  exists a'. split_and!; [done| |].
  - intros i Hlt. apply Ha'. lia.
  - rewrite Hinf. unfold m_inflight, inflight. fold n.
    pose proof (seq_filter_split n indices (StronglySorted_NoDup_lt _ (bi_sorted _ _ _ _ _ Hb))
      (bi_range _ _ _ _ _ Hb)) as Hp.
    transitivity (omap (entry (_arrays m)) (filter (λ i, i ∉ indices) (seq 0 n) ++ indices));
      [by rewrite <-Hp|]. rewrite omap_app. apply Permutation_app.
    + rewrite (omap_ext (entry (_arrays m)) (entry a)); [done|]. intros x [Hx Hx']%list_elem_of_filter.
      apply elem_of_seq in Hx'. unfold entry.
      rewrite (bi_mappings _ _ _ _ _ Hb), (bi_tickets _ _ _ _ _ Hb), (bi_requests _ _ _ _ _ Hb) by lia.
      by rewrite decide_False.
    + clear -Hfin. induction Hfin as [|i f indices fin He _ IH]; csimpl; [done|].
      rewrite He. by rewrite IH.
Qed.

(** The loop over the batches, from the manager's arrays. *)
Lemma all_batches_post F m w :
  F ∨ reliable (_pending m) w → minv m w → 0 < _pending m →
  post F (batches_post (_arrays m) (_pending m) [] w)
    (check_batches (_pending m) (isEnabled w) (_generalTesting m) (_pending m) 0 [] (_arrays m) w).
Proof.
  intros HF Hi Hpos. apply (check_batches_post (_arrays m) (_pending m)); try lia.
  - apply Hi.
  - intros i r Hlt Hr. destruct (inflight_at _ _ i Hi Hlt) as (r' & t & _ & ? & _ & ? & _). congruence.
  - intros i t Hlt Ht. destruct (inflight_at _ _ i Hi Hlt) as (r' & t' & _ & _ & ? & _ & ?). congruence.
  - by rewrite Nat.sub_0_r.
  - apply Hi.
  - split; (done || constructor).
Qed.

Lemma internalCheckRequests_post F m w :
  F ∨ reliable (_pending m) w → minv m w → 0 < _pending m →
  post F (λ '(completed, m', w'), minv m' w' ∧
      ∃ fin, completed = length fin ∧ mstep m w m' w' [] fin ∧ same_objects w w' ∧
        _p2pOperations m' = _p2pOperations m ∧ _collOperations m' = _collOperations m)
    (internalCheckRequests m w).
Proof.
  intros HF Hi Hpos. unfold internalCheckRequests.
  apply post_assert; [by apply Nat.ltb_lt|].
  eapply post_bind; [by apply all_batches_post|].
  intros [[indices a] w'] _ (new & fin & -> & Hb & Hent & Hok & Hfin & Hsame). simpl in Hb |- *.
  destruct (compact_batches m w new a fin Hi Hpos Hb Hent) as (a' & -> & Ha' & Hinf).
  simpl. split.
  - split; simpl; try apply Hi; try done.
    + pose proof (mi_pending _ _ _ _ Hi). lia.
    + pose proof (mi_inflight _ _ _ _ Hi) as Hf. rewrite Hinf in Hf. by apply Forall_app in Hf as [? _].
    + by eapply objects_ok_same; [|apply Hi].
    + by eapply objects_ok_same; [|apply Hi].
  - exists fin. split_and!; [by eapply Forall2_length| |done..].
    split; simpl; try done.
    + unfold queued. simpl. by rewrite !(queued_data_same w w') by done.
    + rewrite app_nil_r. exact Hinf.
Qed.
End check_requests.
