(* ===== verification/TransferProofs.v ===== *)
(** * Correctness of the transfer of operations

    [TicketManager::transferOperations]: the operations popped from a pre-queue
    are issued, tested once, and either finished or added to the arrays. *)

From S2P Require Import Prelude Queues Allocator World Interface Tickets Operations StringSupport CapacityCtrl TicketManager ManagerProofs.

(** ** Issuing a batch *)

Section issuing.
Context `{SpscLib, !SpscLaws, AlpiLib, MpiLib} {Op : Type} `{!OpType Op, !OpTypeLaws Op}.
Implicit Types (w : world) (tr : list transferred).

(** The arrays of [transferOperations] after the operations [tr] have been
    issued: every operation is either among the active requests or among the
    entries completed at once. *)
Record issue_inv tr (tickets : list Ticket) (requests : list request)
    (req2entry complentries : list nat) : Prop := {
  ii_tickets : tickets = (λ x, x.2) <$> tr;
  ii_requests : Forall2 (λ r e, ∃ c t, tr !! e = Some (c, r, t)) requests req2entry;
  ii_active : Forall (λ r, r ≠ REQUEST_NULL) requests;
  ii_compl : Forall (λ e, ∃ c t, tr !! e = Some (c, REQUEST_NULL, t)) complentries;
  ii_entries : req2entry ++ complentries ≡ₚ seq 0 (length tr);
}.

Lemma issue_inv_nil : issue_inv [] [] [] [] [].
Proof. by split. Qed.

(** One more operation whose request is active. *)
Lemma issue_inv_active tr tickets requests req2entry complentries c r t :
  issue_inv tr tickets requests req2entry complentries → r ≠ REQUEST_NULL →
  issue_inv (tr ++ [(c, r, t)]) (tickets ++ [t]) (requests ++ [r])
    (req2entry ++ [length tr]) complentries.
Proof.
  intros [A1 A2 A3 A4 A5] Hr. split.
  - by rewrite fmap_app, A1.
  - apply Forall2_app.
    + eapply Forall2_impl; [exact A2|]. intros r' e (c' & t' & He). exists c', t'.
      by apply lookup_app_l_Some.
    + constructor; [|done]. exists c, t. by rewrite lookup_app_r, Nat.sub_diag by lia.
  - by apply Forall_app; repeat constructor.
  - eapply Forall_impl; [exact A4|]. intros e (c' & t' & He). exists c', t'.
    by apply lookup_app_l_Some.
  - rewrite length_app, Nat.add_1_r, seq_S, <-A5. solve_Permutation.
Qed.

(** One more operation that completed when it was issued. *)
Lemma issue_inv_null tr tickets requests req2entry complentries c t :
  issue_inv tr tickets requests req2entry complentries →
  issue_inv (tr ++ [(c, REQUEST_NULL, t)]) (tickets ++ [t]) requests req2entry
    (complentries ++ [length tr]).
Proof.
  intros [A1 A2 A3 A4 A5]. split.
  - by rewrite fmap_app, A1.
  - eapply Forall2_impl; [exact A2|]. intros r' e (c' & t' & He). exists c', t'.
    by apply lookup_app_l_Some.
  - done.
  - apply Forall_app. split.
    + eapply Forall_impl; [exact A4|]. intros e (c' & t' & He). exists c', t'.
      by apply lookup_app_l_Some.
    + constructor; [|done]. exists c, t. by rewrite lookup_app_r, Nat.sub_diag by lia.
  - rewrite length_app, Nat.add_1_r, seq_S, <-A5. solve_Permutation.
Qed.

Definition issue_result tr w (ops : list ptr) :
    list Ticket * list request * list nat * list nat * world → Prop :=
  λ '(tickets, requests, req2entry, complentries, w'), ∃ new,
    issue_inv (tr ++ new) tickets requests req2entry complentries ∧
    tr_op <$> new = queued_data (Op:=Op) w ops ∧
    Forall (λ x : transferred, status_ok x.2) new ∧
    progress w w' (tr_issue <$> new) [] [] [] ∧ same_objects w w'.

Lemma issue_loop_post F ops tr tickets requests req2entry complentries w :
  F ∨ mpi_ok → issue_inv tr tickets requests req2entry complentries →
  (∀ p, p ∈ ops → ∃ o, op_heap (Op:=Op) w !! p = Some o ∧ op_ok o) →
  post F (issue_result tr w ops)
    (issue_loop (Op:=Op) (length tr) ops tickets requests req2entry complentries w).
Proof.
  intros HF. revert tr tickets requests req2entry complentries w.
  induction ops as [|p ops IH]; intros tr tickets requests req2entry complentries w Hi Hops.
  { simpl. exists []. rewrite app_nil_r. split_and!; try done. apply progress_refl. }
  destruct (Hops p) as (o & Hp & c & t & Hc & Ht & Hok); [set_solver|].
  cbn [issue_loop]. rewrite Hp. cbn [read mbind outcome_bind]. rewrite Ht.
  cbn [read mbind outcome_bind]. unfold op_issue. rewrite Hc.
  eapply post_bind; [by apply issue_post|]. intros [r w1] _ ->.
  assert (∀ p, p ∈ ops → ∃ o, op_heap (Op:=Op) (w_log (EvIssue c r) w) !! p = Some o ∧ op_ok o)
    as Hops'.
  { intros p' Hp'. destruct (op_same w (w_log (EvIssue c r) w)) as [-> _]; [done|].
    apply Hops. set_solver. }
  assert (issue_inv (tr ++ [(c, r, t)]) (tickets ++ [t])
      (if bool_decide (r ≠ REQUEST_NULL) then requests ++ [r] else requests)
      (if bool_decide (r ≠ REQUEST_NULL) then req2entry ++ [length tr] else req2entry)
      (if bool_decide (r ≠ REQUEST_NULL) then complentries else complentries ++ [length tr]))
    as Hi'.
  { case_bool_decide as Hr; [by apply issue_inv_active|]. subst r.
    by apply issue_inv_null. }
  assert (post F (issue_result tr w (p :: ops)) (issue_loop (Op:=Op) (length (tr ++ [(c, r, t)])) ops
      (tickets ++ [t])
      (if bool_decide (r ≠ REQUEST_NULL) then requests ++ [r] else requests)
      (if bool_decide (r ≠ REQUEST_NULL) then req2entry ++ [length tr] else req2entry)
      (if bool_decide (r ≠ REQUEST_NULL) then complentries else complentries ++ [length tr])
      (w_log (EvIssue c r) w))) as Hpost.
  { eapply post_mono; [by apply IH|].
    intros [[[[tickets' requests'] r2e'] compl'] w2] (new & Hi2 & Hdata & Hst & Hpg & Hs).
    exists ((c, r, t) :: new). rewrite <-app_assoc in Hi2. split_and!; [done| |by constructor| |].
    - csimpl. rewrite Hdata. unfold queued_data. csimpl. rewrite Hp. simpl. unfold op_data.
      rewrite Hc, Ht. destruct (op_same w (w_log (EvIssue c r) w)) as [-> _]; done.
    - exact (progress_trans _ _ _ _ _ _ _ _ _ _ _ (progress_issue w c r) Hpg).
    - by etransitivity. }
  rewrite length_app, Nat.add_1_r in Hpost. by case_bool_decide.
Qed.
End issuing.

(** ** The requests that completed at once *)

Section filtering.
Context `{SpscLib, !SpscLaws, AlpiLib, MpiLib}.
Implicit Types (w : world) (tr : list transferred).

Definition pair_at tr (e : nat) : option (request * Ticket) := tr_entry <$> tr !! e.

Definition clear (req2entry : list (option nat)) (ix : list nat) : list (option nat) :=
  foldl (λ l j, <[j := None]> l) req2entry ix.

Lemma length_clear req2entry ix : length (clear req2entry ix) = length req2entry.
Proof.
  unfold clear. revert req2entry. induction ix as [|j ix IH]; intros l; [done|]. simpl.
  by rewrite IH, length_insert.
Qed.

Lemma lookup_clear req2entry ix j :
  j < length req2entry →
  clear req2entry ix !! j = if decide (j ∈ ix) then Some None else req2entry !! j.
Proof.
  unfold clear. revert req2entry. induction ix as [|k ix IH]; intros l Hj; [done|]. simpl.
  rewrite IH by (by rewrite length_insert). destruct (decide (j = k)) as [->|].
  - rewrite list_lookup_insert_eq by done. repeat case_decide; set_solver.
  - rewrite list_lookup_insert_ne by done. repeat case_decide; set_solver.
Qed.

Lemma filter_loop_post F c ix statuses tickets req2entry complentries es ps sts w :
  NoDup ix → drop c statuses = sts → length sts = length ix →
  Forall2 (λ j e, req2entry !! j = Some (Some e)) ix es →
  Forall2 (λ e p, tickets !! e = Some p.2 ∧ status_ok p.2) es ps →
  post F (λ '(req2entry', complentries', w'), req2entry' = clear req2entry ix ∧
      complentries' = complentries ++ es ∧
      progress w w' [] [] [] (with_status ps sts ≫= fin_status) ∧ same_objects w w')
    (filter_loop c ix statuses tickets req2entry complentries w).
Proof.
  revert c req2entry complentries es ps sts w.
  induction ix as [|j ix IH]; intros c req2entry complentries es ps sts w Hnd Hdrop Hlen Hes Hps.
  { inversion Hes; subst es. inversion Hps; subst ps. simpl.
    rewrite app_nil_r. split_and!; try done. apply progress_refl. }
  destruct sts as [|st sts]; [done|].
  apply Forall2_cons_inv_l in Hes as (e & es' & He & Hes & ->).
  apply Forall2_cons_inv_l in Hps as (p & ps' & [Ht Hok] & Hps & ->).
  apply NoDup_cons in Hnd as [Hj Hnd].
  assert (statuses !! c = Some st) as Hst.
  { rewrite <-(Nat.add_0_r c), <-lookup_drop, Hdrop. done. }
  assert (drop (S c) statuses = sts) as Hdrop'.
  { rewrite <-Nat.add_1_r, <-drop_drop, Hdrop. done. }
  cbn [filter_loop]. rewrite He. cbn [mjoin option_join read mbind outcome_bind]. rewrite Ht.
  cbn [read mbind outcome_bind].
  eapply post_bind; [by apply save_status_post|]. intros w1 _ [Hp1 Hs1].
  eapply post_mono; [apply (IH _ _ _ es' ps' sts); try done|].
  - by injection Hlen.
  - eapply Forall2_impl; [|intros ? ? Hx; exact Hx].
    apply Forall2_same_length_lookup_2; [by eapply Forall2_length|].
    intros k j' e' Hk He'. rewrite list_lookup_insert_ne.
    + by eapply Forall2_lookup_lr in Hes.
    + intros ->. apply Hj. by eapply list_elem_of_lookup_2.
  - intros [[r2e' compl'] w2] (-> & -> & Hp2 & Hs2). split_and!; [done|by rewrite <-app_assoc| |].
    + exact (progress_trans _ _ _ _ _ _ _ _ _ _ _ Hp1 Hp2).
    + by etransitivity.
Qed.

(** ** Adding the others to the arrays *)

Lemma append_one a n r t :
  arrays_ok a n → n < max →
  ∃ a1 a2, allocateTicket max n t a = Ok (n, a1) ∧ associateRequest max n r n 0 a1 = Ok a2 ∧
    arrays_ok a2 (S n) ∧ inflight a2 (S n) = inflight a n ++ [(r, t)].
Proof.
  intros Ha Hn. unfold allocateTicket, associateRequest.
  rewrite (proj2 (Nat.ltb_lt _ _)) by done. cbn [assert mbind outcome_bind].
  eexists _, _. split_and!; [done..| |].
  - intros i Hi. simpl. destruct (decide (i = n)) as [->|].
    + exists r, t. by simplify_map_eq.
    + destruct (Ha i ltac:(lia)) as (r' & t' & ? & ? & ?). exists r', t'. by simplify_map_eq.
  - unfold inflight. rewrite seq_S, omap_app. f_equal.
    + apply omap_ext. intros i Hi%elem_of_seq.
      destruct (Ha i ltac:(lia)) as (r' & t' & H1' & H2' & H3'). unfold entry. simpl.
      rewrite !lookup_insert_ne by lia. rewrite H1', H2'. simpl.
      by rewrite lookup_insert_ne by lia.
    + csimpl. unfold entry. simpl. by simplify_map_eq.
Qed.

(** The pairs that the append loop visits. *)
Definition appended (tickets : list Ticket) (x : request * option nat) :
    option (request * Ticket) :=
  e ← x.2; t ← tickets !! e; Some (x.1, t).

Lemma append_loop_spec requests req2entry tickets n a :
  length requests = length req2entry →
  Forall (λ o, match o with Some e => e < length tickets | None => True end) req2entry →
  arrays_ok a n → n + length (omap (appended tickets) (zip requests req2entry)) ≤ max →
  ∃ a', append_loop requests req2entry tickets n a =
      Ok (n + length (omap (appended tickets) (zip requests req2entry)), a') ∧
    arrays_ok a' (n + length (omap (appended tickets) (zip requests req2entry))) ∧
    inflight a' (n + length (omap (appended tickets) (zip requests req2entry))) =
      inflight a n ++ omap (appended tickets) (zip requests req2entry).
Proof.
  revert req2entry n a. induction requests as [|r requests IH]; intros [|o req2entry] n a Hlen Hr Ha Hn;
    try done.
  { simpl. exists a. by rewrite Nat.add_0_r, app_nil_r. }
  apply Forall_cons in Hr as [Ho Hr]. injection Hlen as Hlen. cbn [append_loop].
  destruct o as [e|]; [|csimpl; by apply IH].
  destruct (lookup_lt_is_Some_2 tickets e Ho) as [t Ht].
  assert (omap (appended tickets) (zip (r :: requests) (Some e :: req2entry)) =
    (r, t) :: omap (appended tickets) (zip requests req2entry)) as Heq.
  { csimpl. unfold appended at 1. simpl. by rewrite Ht. }
  rewrite Heq in Hn |- *. cbn [length] in Hn |- *. rewrite Ht. cbn [read mbind outcome_bind].
  destruct (append_one a n r t Ha ltac:(lia)) as (a1 & a2 & -> & Has & Ha2 & Hinf).
  cbn [mbind outcome_bind]. rewrite Has. cbn [mbind outcome_bind].
  destruct (IH req2entry (S n) a2 Hlen Hr Ha2 ltac:(lia)) as (a' & -> & Ha' & Hinf').
  exists a'. rewrite <-Nat.add_succ_comm. split_and!; [done..|].
  by rewrite Hinf', Hinf, <-app_assoc.
Qed.
End filtering.

(** ** Every operation ends up in exactly one place *)

Section splitting.
Context `{SpscLib, !SpscLaws, AlpiLib, MpiLib}.
Context (tr : list transferred) (tickets : list Ticket) (requests : list request).
Context (req2entry complentries : list nat).
Context (Hi : issue_inv tr tickets requests req2entry complentries).
Context (Hst : Forall (λ x : transferred, status_ok x.2) tr).

(** The request and ticket of the [j]-th active request. *)
Definition active_pair (j : nat) : option (request * Ticket) := req2entry !! j ≫= pair_at tr.

Lemma active_pair_Some j :
  j < length requests →
  ∃ e c r t, requests !! j = Some r ∧ req2entry !! j = Some e ∧ tr !! e = Some (c, r, t) ∧
    tickets !! e = Some t ∧ status_ok t ∧ active_pair j = Some (r, t).
Proof.
  intros Hj. destruct (lookup_lt_is_Some_2 requests j Hj) as [r Hr].
  destruct (Forall2_lookup_l _ _ _ _ _ (ii_requests _ _ _ _ _ Hi) Hr) as (e & He & c & t & Htr).
  exists e, c, r, t. split_and!; try done.
  - by rewrite (ii_tickets _ _ _ _ _ Hi), list_lookup_fmap, Htr.
  - exact (Forall_lookup_1 _ _ _ _ Hst Htr).
  - unfold active_pair, pair_at. rewrite He. simpl. by rewrite Htr.
Qed.

Lemma compl_tickets :
  Forall2 (λ e t, tickets !! e = Some t) complentries (omap (pair_at tr) complentries).*2.
Proof.
  pose proof (ii_compl _ _ _ _ _ Hi) as Hc. pose proof (ii_tickets _ _ _ _ _ Hi) as Ht.
  clear -Ht Hc.
  induction Hc as [|e es (c & t & He) _ IH]; [constructor|]. csimpl.
  unfold pair_at at 1. rewrite He. csimpl. constructor; [|done].
  by rewrite Ht, list_lookup_fmap, He.
Qed.

Lemma active_entries ix :
  Forall (λ j, j < length requests) ix →
  ∃ es, Forall2 (λ j e, (Some <$> req2entry) !! j = Some (Some e)) ix es ∧
    Forall2 (λ e p, tickets !! e = Some p.2 ∧ status_ok p.2) es (omap active_pair ix) ∧
    omap (requests !!.) ix = (omap active_pair ix).*1.
Proof.
  induction 1 as [|j ix Hj _ (es & Hx1 & Hx2 & Hx3)]; [by exists []|].
  destruct (active_pair_Some j Hj) as (e & c & r & t & Hr & He & Htr & Ht & Hs & Hp).
  exists (e :: es). csimpl. rewrite Hp, Hr. csimpl. split_and!.
  - constructor; [|done]. by rewrite list_lookup_fmap, He.
  - by constructor.
  - by rewrite Hx3.
Qed.

Lemma clear_range ix :
  Forall (λ o, match o with Some e => e < length tickets | None => True end)
    (clear (Some <$> req2entry) ix).
Proof.
  apply Forall_lookup. intros j o Hj. pose proof (lookup_lt_Some _ _ _ Hj) as Hlt.
  rewrite length_clear in Hlt. rewrite lookup_clear, list_lookup_fmap in Hj by done.
  rewrite length_fmap, <-(Forall2_length _ _ _ (ii_requests _ _ _ _ _ Hi)) in Hlt.
  destruct (active_pair_Some j Hlt) as (e & c & r & t & _ & He & _ & Ht & _).
  rewrite He in Hj. simpl in Hj. case_decide; simplify_eq; [done|].
  by eapply lookup_lt_Some.
Qed.

Lemma appended_eq ix requests' :
  marked ix requests requests' →
  omap (appended tickets) (zip requests' (clear (Some <$> req2entry) ix)) =
    omap active_pair (filter (λ j, j ∉ ix) (seq 0 (length requests))).
Proof.
  intros [Hlen Hm]. pose proof (Forall2_length _ _ _ (ii_requests _ _ _ _ _ Hi)) as Hl.
  rewrite omap_seq, length_zip_with, length_clear, length_fmap, Hlen, <-Hl, Nat.min_id.
  apply omap_filter. intros j Hj%elem_of_seq.
  destruct (active_pair_Some j ltac:(lia)) as (e & c & r & t & Hr & He & Htr & Ht & _ & Hp).
  rewrite lookup_zip_with, Hm, lookup_clear, Hp by (rewrite ?length_fmap; lia).
  rewrite list_lookup_fmap, He, Hr. unfold appended.
  destruct (decide (j ∈ ix)); destruct (decide (j ∉ ix)); try done.
  simpl. by rewrite Ht.
Qed.

Lemma transferred_split ix :
  NoDup ix → Forall (λ j, j < length requests) ix →
  tr_entry <$> tr ≡ₚ
    omap active_pair (filter (λ j, j ∉ ix) (seq 0 (length requests))) ++
    (omap (pair_at tr) complentries ++ omap active_pair ix).
Proof.
  intros Hnd Hr.
  assert (tr_entry <$> tr = omap (pair_at tr) (seq 0 (length tr))) as ->.
  { symmetry. apply omap_fmap_Some, Forall2_same_length_lookup_2.
    - by rewrite length_seq, length_fmap.
    - intros i x y [-> Hx]%lookup_seq Hy. unfold pair_at. by rewrite <-list_lookup_fmap. }
  rewrite <-(ii_entries _ _ _ _ _ Hi), omap_app, (omap_seq _ req2entry).
  rewrite <-(Forall2_length _ _ _ (ii_requests _ _ _ _ _ Hi)).
  pose proof (seq_filter_split (length requests) ix Hnd Hr) as Hp.
  transitivity (omap active_pair (filter (λ j, j ∉ ix) (seq 0 (length requests)) ++ ix) ++
    omap (pair_at tr) complentries); [by rewrite <-Hp|].
  rewrite omap_app. solve_Permutation.
Qed.

(** The operations finished by the transfer. *)
Definition finished_now (ix : list nat) (sts : list status) : list finished :=
  ((λ p, (p, None)) <$> omap (pair_at tr) complentries) ++
  with_status (omap active_pair ix) sts.

Lemma finished_now_reports ix sts :
  Forall (λ j, j < length requests) ix →
  omap fin_report (finished_now ix sts) = reported requests ix sts.
Proof.
  intros Hr. destruct (active_entries ix Hr) as (es & _ & _ & Hreq).
  unfold finished_now. rewrite omap_app, with_status_reports. unfold reported. rewrite Hreq.
  generalize (omap (pair_at tr) complentries) as l. induction l; [done|]. by csimpl.
Qed.

Lemma finished_now_status ix sts :
  finished_now ix sts ≫= fin_status = with_status (omap active_pair ix) sts ≫= fin_status.
Proof.
  unfold finished_now. rewrite bind_app.
  generalize (omap (pair_at tr) complentries) as l. induction l; [done|]. by csimpl.
Qed.

Lemma finished_now_ok ix sts : Forall fin_ok (finished_now ix sts).
Proof.
  unfold finished_now. apply Forall_app. split; [|apply with_status_ok].
  pose proof (ii_compl _ _ _ _ _ Hi) as Hc. clear -Hc.
  induction Hc as [|e es (c & t & He) _ IH]; csimpl; [done|]. unfold pair_at at 1. rewrite He. csimpl.
  by constructor.
Qed.

Lemma finished_now_entries ix sts :
  length (omap active_pair ix) = length sts →
  (finished_now ix sts).*1 = omap (pair_at tr) complentries ++ omap active_pair ix.
Proof.
  intros Hl. unfold finished_now. rewrite fmap_app, with_status_fst by done. f_equal.
  rewrite <-list_fmap_compose. by apply list_fmap_id.
Qed.
End splitting.

(** ** transferOperations *)

Section transferring.
Context `{SpscLib, !SpscLaws, AlpiLib, MpiLib, !MpiLaws}.
Context {QP QC : Type} `{!OpQueue QP ptr, !OpQueue QC ptr}.
Implicit Types (w : world) (m : TicketManager QP QC).

Section any_type.
Context {Op : Type} `{!OpType Op, !OpTypeLaws Op}.

Record transfer_result (ops rest : list ptr) m w m' w' (tr : list transferred)
    (fin : list finished) : Prop := {
  tf_manager : m' = set_arrays (_pending m') (_arrays m') m;
  tf_pending : _pending m' ≤ _pending m + length ops;
  tf_arrays : arrays_ok (_arrays m') (_pending m');
  tf_new : ∃ new, m_inflight m' = m_inflight m ++ new ∧
    Forall (λ p, p.1 ≠ REQUEST_NULL ∧ status_ok p.2) new;
  tf_inflight : m_inflight m ++ (tr_entry <$> tr) ≡ₚ m_inflight m' ++ fin.*1;
  tf_data : tr_op <$> tr = queued_data (Op:=Op) w ops;
  tf_fin : Forall fin_ok fin;
  tf_world : finishes w w' (tr_issue <$> tr) fin;
  tf_frame : ∃ w1 a, same_objects w w1 ∧ Obj._ncaches a = Obj._ncaches (op_alloc (Op:=Op) w1) ∧
    w' = op_set (foldr delete (op_heap (Op:=Op) w1) ops) a w1;
  tf_objects : objects_ok (Op:=Op) w' rest;
  tf_rest p : p ∈ rest → op_heap (Op:=Op) w' !! p = op_heap (Op:=Op) w !! p;
}.

(** The immediate test of the active requests, if there are any. *)
Lemma immediate_test_post F approach requests w :
  F ∨ mpi_ok → Forall (λ r, r ≠ REQUEST_NULL) requests →
  post F (λ '(ix, requests', sts, w'), tested requests ix requests' sts ∧
      only_tests w w' (reported requests ix sts))
    (if 0 <? length requests then internalTestRequests approach requests w
     else Ok ([], requests, [], w)).
Proof.
  intros HF Hact. destruct (Nat.ltb_spec 0 (length requests)) as [Hpos|Hz].
  - eapply post_mono; [apply internalTestRequests_post; [done..|]; intros ->; simpl in Hpos; lia|].
    by intros [[[? ?] ?] ?] (? & ? & _).
  - destruct requests; [|simpl in *; lia]. simpl. split; [|apply only_tests_refl].
    split; [constructor|constructor|done|apply marked_refl].
Qed.

Lemma transferred_active tr tickets requests req2entry complentries (ix : list nat) :
  issue_inv tr tickets requests req2entry complentries →
  Forall (λ x : transferred, status_ok x.2) tr →
  Forall (λ p, p.1 ≠ REQUEST_NULL ∧ status_ok p.2)
    (omap (active_pair tr req2entry) (filter (λ j, j ∉ ix) (seq 0 (length requests)))).
Proof.
  intros Hi Hst. apply Forall_forall. intros p (j & Hj & Hp)%list_elem_of_omap.
  apply list_elem_of_filter in Hj as [_ Hj%elem_of_seq].
  destruct (active_pair_Some _ _ _ _ _ Hi Hst j ltac:(lia))
    as (e & c & r & t & Hr & _ & _ & _ & Hs & Hp').
  rewrite Hp' in Hp. simplify_eq. simpl. split; [|done].
  exact (Forall_lookup_1 _ _ _ _ (ii_active _ _ _ _ _ Hi) Hr).
Qed.

(** What starting [ops] establishes: the operations [tr] were issued, [fin]
    of them are finished and the [new] ones are active. *)
Definition start_result (ops : list ptr) w :
    list Ticket * list request * list (option nat) * world → Prop :=
  λ '(tickets, requests, req2entry, w'), ∃ tr fin new,
    length requests = length req2entry ∧
    Forall (λ o, match o with Some e => e < length tickets | None => True end) req2entry ∧
    omap (appended tickets) (zip requests req2entry) = new ∧
    Forall (λ p, p.1 ≠ REQUEST_NULL ∧ status_ok p.2) new ∧
    tr_entry <$> tr ≡ₚ new ++ fin.*1 ∧
    tr_op <$> tr = queued_data (Op:=Op) w ops ∧ Forall fin_ok fin ∧
    finishes w w' (tr_issue <$> tr) fin ∧ same_objects w w'.

Lemma start_operations_post F approach ops w :
  F ∨ reliable (length ops) w →
  (∀ p, p ∈ ops → ∃ o, op_heap (Op:=Op) w !! p = Some o ∧ op_ok o) →
  post F (start_result ops w) (start_operations (Op:=Op) approach ops w).
Proof.
  intros HF Hops. unfold start_operations.
  assert (F ∨ mpi_ok) as HFm by (destruct HF as [|(?&?&?)]; auto).
  assert (F ∨ alpi_ok) as HFa by (destruct HF as [|(?&?&?)]; auto).
  assert (F ∨ fits (isEnabled w) (length ops) w) as HFe by (destruct HF as [|(?&?&?)]; auto).
  eapply post_bind; [by apply (issue_loop_post F ops []); [|apply issue_inv_nil|]|].
  intros [[[[tickets requests] req2entry] complentries] w1] _ (tr & Hi & Hdata & Hst & Hp1 & Hs1).
  simpl in Hi.
  eapply post_bind; [by apply immediate_test_post; [|apply Hi]|].
  intros [[[ix requests'] sts] w2] _ [Ht Hw2].
  pose proof (tested_range _ _ _ _ Ht) as Hrange.
  destruct (active_entries _ _ _ _ _ Hi Hst ix Hrange) as (es & Hes & Hps & Hreq).
  assert (length (omap (active_pair tr req2entry) ix) = length sts) as Hlps.
  { rewrite <-(Forall2_length _ _ _ Hps), <-(Forall2_length _ _ _ Hes).
    by rewrite (tested_statuses _ _ _ _ Ht). }
  eapply post_bind; [eapply (filter_loop_post F 0 ix sts tickets _ complentries es _ sts); try done|].
  { apply (tested_nodup _ _ _ _ Ht). }
  { apply (tested_statuses _ _ _ _ Ht). }
  intros [[r2e' compl'] w3] _ (-> & -> & Hp3 & Hs3).
  set (fin := finished_now tr req2entry complentries ix sts).
  eapply post_bind; [apply (finish_loop_post F _ tickets (complentries ++ es) fin.*1.*2); [done|]|].
  { unfold fin. rewrite finished_now_entries, fmap_app by done.
    apply Forall2_app; [by apply (compl_tickets _ _ _ _ _ Hi)|].
    apply Forall2_fmap_r. eapply Forall2_impl; [done|]. by intros e p [? _]. }
  intros [contexts w4] _ (told & Hp4 & Hs4 & Hc4 & Hu4).
  assert (tr_entry <$> tr ≡ₚ omap (active_pair tr req2entry) (filter (λ j, j ∉ ix) (seq 0 (length requests))) ++
    fin.*1) as Hsplit.
  { unfold fin. rewrite finished_now_entries by done. apply (transferred_split _ _ _ _ _ Hi ix); [|done].
    apply (tested_nodup _ _ _ _ Ht). }
  pose proof (progress_trans _ _ _ _ _ _ _ _ _ _ _ Hp1 (progress_trans _ _ _ _ _ _ _ _ _ _ _
    (progress_tests _ _ _ Hw2) (progress_trans _ _ _ _ _ _ _ _ _ _ _ Hp3 Hp4))) as Hp14.
  eapply post_bind; [apply hand_over_post; [|done]|].
  { destruct HFe as [|HFe]; [by left|right]. eapply fits_progress; [exact Hp14| |exact HFe].
    apply Permutation_length in Hsplit, Hc4. apply (f_equal length) in Hdata.
    pose proof (length_omap_le (λ p, op_heap (Op:=Op) w !! p ≫= op_data) ops).
    unfold queued_data in Hdata.
    rewrite !length_app, !length_fmap in *. simpl in *. lia. }
  intros w5 _ [Hp5 Hs5]. simpl.
  eexists tr, fin, _. split_and!; [| |done| | |done|by apply (finished_now_ok _ _ _ _ _ Hi)| |].
  - rewrite length_clear, length_fmap, <-(Forall2_length _ _ _ (ii_requests _ _ _ _ _ Hi)).
    apply (tested_marked _ _ _ _ Ht).
  - by eapply clear_range.
  - rewrite (appended_eq _ _ _ _ _ Hi Hst ix requests' (tested_marked _ _ _ _ Ht)).
    exact (transferred_active tr tickets requests req2entry complentries ix Hi Hst).
  - rewrite (appended_eq _ _ _ _ _ Hi Hst ix requests' (tested_marked _ _ _ _ Ht)).
    exact Hsplit.
  - pose proof (progress_trans _ _ _ _ _ _ _ _ _ _ _ Hp14 Hp5) as Hp.
    cbn [app] in Hp. rewrite !app_nil_r in Hp. unfold fin in *.
    rewrite (finished_now_reports _ _ _ _ _ Hi Hst), finished_now_status by done.
    eapply progress_told; [|exact Hp]. rewrite Hc4. simpl.
    unfold fin_context. by rewrite <-!list_fmap_compose.
  - etransitivity; [exact Hs1|]. etransitivity; [apply Hw2|]. etransitivity; [exact Hs3|].
    by etransitivity.
Qed.

Lemma transferOperations_post F ops rest m w :
  F ∨ reliable (length ops) w → ctrl_ok (_capacityCtrl m) → arrays_ok (_arrays m) (_pending m) →
  length ops ≤ BatchSize → _pending m + length ops ≤ get (_capacityCtrl m) →
  objects_ok (Op:=Op) w (ops ++ rest) →
  post F (λ '(m', w'), ∃ tr fin, transfer_result ops rest m w m' w' tr fin)
    (transferOperations (Op:=Op) ops m w).
Proof.
  intros HF Hctrl Ha Hbatch Hcap Hobj. unfold transferOperations.
  apply post_assert; [by apply Nat.leb_le|]. apply post_assert; [by apply Nat.leb_le|].
  eapply post_bind; [apply start_operations_post; [done|]|].
  { intros p Hp. apply Hobj. set_solver. }
  intros [[[tickets requests] req2entry] w1] _
    (tr & fin & new & Hlen & Hr & Hnew & Hok & Hsplit & Hdata & Hfok & Hfin & Hs).
  assert (length new ≤ length ops) as Hle.
  { trans (length tr).
    - apply Permutation_length in Hsplit. rewrite length_fmap, length_app in Hsplit. lia.
    - rewrite <-(length_fmap tr_op), Hdata. apply length_omap_le. }
  pose proof (get_le_max _ Hctrl) as Hmax.
  destruct (append_loop_spec requests req2entry tickets (_pending m) (_arrays m) Hlen Hr Ha)
    as (a' & Heq & Ha' & Hinf); rewrite Hnew in *; [lia|].
  rewrite Heq. cbn [mbind outcome_bind].
  destruct (op_free_spec (Op:=Op) w1 ops rest) as (al & -> & Hobj' & Hq' & Hnc).
  { by eapply objects_ok_same. }
  cbn [mbind outcome_bind post]. exists tr, fin. split; cbn [_pending _arrays set_arrays]; try done.
  - lia.
  - by exists new.
  - unfold m_inflight. cbn [_pending _arrays set_arrays]. by rewrite Hinf, Hsplit, app_assoc.
  - pose proof (progress_trans _ _ _ _ _ _ _ _ _ _ _ Hfin
      (progress_objects (Op:=Op) w1 (foldr delete (op_heap w1) ops) al)) as Hp.
    by rewrite !app_nil_r in Hp.
  - by exists w1, al.
  - intros p Hp. rewrite Hq' by done. by destruct (op_same (Op:=Op) w w1 Hs) as [-> _].
Qed.

Lemma transfer_nothing rest m w :
  arrays_ok (_arrays m) (_pending m) → objects_ok (Op:=Op) w rest →
  transfer_result [] rest m w m w [] [].
Proof.
  intros Ha Ho. split; csimpl; rewrite ?app_nil_r; try done.
  - by destruct m.
  - lia.
  - exists []. by rewrite app_nil_r.
  - apply progress_refl.
  - exists w, (op_alloc (Op:=Op) w). split_and!; [done..|]. by rewrite op_set_id.
Qed.

(** What popping and transferring up to [n] operations establishes. *)
Definition take_result {Q} `{!OpQueue Q ptr} (extra : list ptr) (n : nat) (q : Q)
    (set_queue : Q → TicketManager QP QC → TicketManager QP QC) m w :
    nat * TicketManager QP QC * world → Prop :=
  λ '(k, m', w'), ∃ ops q' tr fin,
    transfer_result ops (q_contents q' ++ extra) (set_queue q' m) w m' w' tr fin ∧
    k = length tr ∧ length ops = k ∧ k ≤ n ∧ q_inv q' ∧ q_contents q ≡ₚ ops ++ q_contents q' ∧
    (∀ cpu, q_cpu q' cpu ↔ q_cpu q cpu) ∧ (0 < n → k = 0 → q_contents q' = []).

Lemma take_operations_post {Q} `{!OpQueue Q ptr, !OpQueueLaws Q ptr} F extra n (q : Q) set_queue m w :
  (∀ q m, _capacityCtrl (set_queue q m) = _capacityCtrl m ∧
    _pending (set_queue q m) = _pending m ∧ _arrays (set_queue q m) = _arrays m) →
  F ∨ reliable (length (q_contents q)) w → ctrl_ok (_capacityCtrl m) → arrays_ok (_arrays m) (_pending m) →
  _pending m + n ≤ get (_capacityCtrl m) → q_inv q →
  objects_ok (Op:=Op) w (q_contents q ++ extra) →
  post F (take_result extra n q set_queue m w) (take_operations (Op:=Op) n q set_queue m w).
Proof.
  intros Hset HF Hctrl Ha Hcap Hinv Hobj. unfold take_operations.
  destruct (q_pop_spec (n `min` BatchSize) q Hinv)
    as (ops & q' & Hpop & Hq & Hlen & Hperm & Hprog). pose proof (q_pop_cpu _ _ _ _ Hinv Hpop) as Hcpu.
  rewrite Hpop. cbn [mbind outcome_bind].
  destruct (Hset q' m) as (Hc & Hp & Harr).
  assert (objects_ok (Op:=Op) w (ops ++ (q_contents q' ++ extra))) as Hobj'.
  { eapply objects_ok_perm; [|exact Hobj]. by rewrite Hperm, app_assoc. }
  destruct (objects_ok_app _ _ _ Hobj') as [Hops Hrest].
  assert (0 < n → length ops = 0 → q_contents q' = []) as Hempty.
  { intros Hn Hz. apply nil_length_inv in Hz. subst ops. simpl in Hperm.
    destruct (q_contents q) eqn:Heq; [by apply Permutation_nil_l in Hperm|].
    destruct Hprog; [unfold BatchSize; lia|done..]. }
  destruct (Nat.ltb_spec 0 (length ops)) as [Hpos|Hz].
  - eapply post_bind.
    { apply (transferOperations_post F ops (q_contents q' ++ extra)); rewrite ?Hc, ?Hp, ?Harr; try (done || lia).
      eapply reliable_mono; [|exact HF]. apply Permutation_length in Hperm. rewrite length_app in Hperm. lia. }
    intros [m' w'] _ (tr & fin & Ht). simpl. exists ops, q', tr, fin.
    assert (length tr = length ops) as ->.
    { rewrite <-(length_fmap tr_op), (tf_data _ _ _ _ _ _ _ _ Ht). by apply length_queued_data. }
    split_and!; (done || lia).
  - simpl. exists ops, q', [], []. assert (ops = []) as -> by (apply nil_length_inv; lia).
    split_and!; try (done || (simpl; lia)). apply transfer_nothing; by rewrite ?Hp, ?Harr.
Qed.
End any_type.
End transferring.
