(* ===== verification/PollingProofs.v ===== *)
(** * Correctness of polling

    [TicketManager::internalCheckOperationQueues] and
    [TicketManager::checkRequests]: they keep the manager's invariant, lose and
    duplicate nothing, and terminate. *)

From S2P Require Import Prelude Queues Allocator World Interface Tickets Operations StringSupport CapacityCtrl TicketManager ManagerProofs TransferProofs.

Section polling.
Context `{SpscLib, !SpscLaws, AlpiLib, MpiLib, !MpiLaws}.
Context {QP QC : Type} `{!OpQueue QP ptr, !OpQueueLaws QP ptr, !OpQueue QC ptr, !OpQueueLaws QC ptr}.
Context {pp pc : list ptr}.
Implicit Types (w : world) (m : TicketManager QP QC).

Notation minv := (manager_inv pp pc).

(** The operations that tasks have not pushed yet stay as they are. *)
Definition same_transit w w' : Prop :=
  (∀ p, p ∈ pp → w_p2p w' !! p = w_p2p w !! p) ∧
  (∀ p, p ∈ pc → w_coll w' !! p = w_coll w !! p).

(** The same CPUs can use the pre-queues and the allocators. *)
Definition same_cpus m w m' w' : Prop :=
  (∀ cpu, q_cpu (_p2pOperations m') cpu ↔ q_cpu (_p2pOperations m) cpu) ∧
  (∀ cpu, q_cpu (_collOperations m') cpu ↔ q_cpu (_collOperations m) cpu) ∧
  Obj._ncaches (w_p2pAlloc w') = Obj._ncaches (w_p2pAlloc w) ∧
  Obj._ncaches (w_collAlloc w') = Obj._ncaches (w_collAlloc w).

Lemma same_cpus_refl m w : same_cpus m w m w.
Proof. done. Qed.

Lemma same_cpus_trans m1 w1 m2 w2 m3 w3 :
  same_cpus m1 w1 m2 w2 → same_cpus m2 w2 m3 w3 → same_cpus m1 w1 m3 w3.
Proof.
  intros (A1 & A2 & A3 & A4) (B1 & B2 & B3 & B4). split_and!; [..|congruence|congruence]; intros cpu.
  - by rewrite B1.
  - by rewrite B2.
Qed.

(** What every part of a poll does: it moves from one good state to another
    by transferring [tr] and finishing [fin]. *)
Record moves m w m' w' (tr : list transferred) (fin : list finished) : Prop := {
  mv_inv : minv m' w';
  mv_step : mstep m w m' w' tr fin;
  mv_transit : same_transit w w' ∧ same_cpus m w m' w';
}.

Lemma moves_refl m w : minv m w → moves m w m w [] [].
Proof. intros Hi. split; [done|apply mstep_refl|done]. Qed.

Lemma moves_trans m1 w1 m2 w2 m3 w3 tr1 tr2 fin1 fin2 :
  moves m1 w1 m2 w2 tr1 fin1 → moves m2 w2 m3 w3 tr2 fin2 →
  moves m1 w1 m3 w3 (tr1 ++ tr2) (fin1 ++ fin2).
Proof.
  intros [_ H1' [[T1 T2] C1]] [Hi H2' [[T3 T4] C2]]. split; [done|by eapply mstep_trans|].
  split; [|by eapply same_cpus_trans].
  split; intros p Hp; [rewrite T3, T1|rewrite T4, T2]; done.
Qed.

Lemma reliable_moves m w m' w' tr fin (F : Prop) :
  F ∨ reliable (unfinished m) w → minv m w → moves m w m' w' tr fin → F ∨ reliable (unfinished m') w'.
Proof.
  intros HF Hi [Hi' Hs _]. eapply reliable_progress; [exact (ms_world _ _ _ _ _ _ Hs)| |exact HF].
  rewrite length_fmap. pose proof (mstep_unfinished _ _ _ _ _ _ Hi Hi' Hs). lia.
Qed.

(** The same, for one pop from the queue with contents [qc]; the [other]
    queue stays as it is. *)
Definition took (n : nat) m w (qc other : TicketManager QP QC → list ptr) :
    nat * TicketManager QP QC * world → Prop :=
  λ '(k, m', w'), ∃ tr fin, moves m w m' w' tr fin ∧ length fin ≤ length tr ∧
    k = length tr ∧ k ≤ n ∧
    _pending m' ≤ _pending m + k ∧ other m' = other m ∧ (0 < n → k = 0 → qc m' = []).

Lemma inflight_grows m m' new :
  Forall (λ p, p.1 ≠ REQUEST_NULL ∧ status_ok p.2) (m_inflight m) →
  m_inflight m' = m_inflight m ++ new →
  Forall (λ p, p.1 ≠ REQUEST_NULL ∧ status_ok p.2) new →
  Forall (λ p, p.1 ≠ REQUEST_NULL ∧ status_ok p.2) (m_inflight m').
Proof. intros Hm -> Hn. by apply Forall_app. Qed.

Lemma finishes_only_new m m' new (tr : list transferred) (fin : list finished) :
  m_inflight m' = m_inflight m ++ new →
  m_inflight m ++ (tr_entry <$> tr) ≡ₚ m_inflight m' ++ fin.*1 → length fin ≤ length tr.
Proof.
  intros -> Hp%Permutation_length. rewrite !length_app, !length_fmap in Hp. lia.
Qed.

Lemma take_p2p_post F n m w :
  F ∨ reliable (unfinished m) w → minv m w → _pending m + n ≤ get (_capacityCtrl m) →
  post F (took n m w (λ m, q_contents (_p2pOperations m))
    (λ m, q_contents (_collOperations m))) (take_p2p n m w).
Proof.
  intros HF Hi Hcap. eapply post_mono; [apply (take_operations_post F pp); try done; try apply Hi;
    eapply reliable_mono; [|exact HF]; unfold unfinished; lia|].
  intros [[k m'] w'] (ops & q' & tr & fin & Ht & -> & Hl & Hn & Hq & Hperm & Hcpu & Hempty).
  destruct Ht as [-> Hp Ha (new & Hnew & Hok) Hinf Hdata Hfok Hw (w1 & a & Hs & Hnc & ->) Hobj' Hdata'].
  destruct Hs as (_ & Hc & Hpa & Hca & _).
  exists tr, fin. simpl in *. split_and!; [|by eapply finishes_only_new|done|done|lia|done|done].
  split; [split|split|split; [split|]]; simpl; try apply Hi; try done.
  - lia.
  - by eapply (inflight_grows m); [apply Hi|..].
  - eapply objects_ok_eq; [exact Hc|exact Hca|apply Hi].
  - unfold queued. simpl. rewrite Hdata, (queued_data_ext _ w (q_contents q')) by set_solver.
    rewrite (queued_data_perm _ _ _ Hperm), queued_data_app.
    rewrite (queued_data_eq (Op:=CollOperation) w (w_set_p2p _ _ _)) by done. by rewrite <-app_assoc.
  - intros p Hpp. apply Hdata'. set_solver.
  - by rewrite Hc.
  - simpl in Hnc. split_and!; [done|done|simpl; congruence|simpl; congruence].
Qed.

Lemma take_coll_post F n m w :
  F ∨ reliable (unfinished m) w → minv m w → _pending m + n ≤ get (_capacityCtrl m) →
  post F (took n m w (λ m, q_contents (_collOperations m))
    (λ m, q_contents (_p2pOperations m))) (take_coll n m w).
Proof.
  intros HF Hi Hcap. eapply post_mono; [apply (take_operations_post F pc); try done; try apply Hi;
    eapply reliable_mono; [|exact HF]; unfold unfinished; lia|].
  intros [[k m'] w'] (ops & q' & tr & fin & Ht & -> & Hl & Hn & Hq & Hperm & Hcpu & Hempty).
  destruct Ht as [-> Hp Ha (new & Hnew & Hok) Hinf Hdata Hfok Hw (w1 & a & Hs & Hnc & ->) Hobj' Hdata'].
  destruct Hs as (Hc & _ & Hca & Hpa & _).
  exists tr, fin. simpl in *. split_and!; [|by eapply finishes_only_new|done|done|lia|done|done].
  split; [split|split|split; [split|]]; simpl; try apply Hi; try done.
  - lia.
  - by eapply (inflight_grows m); [apply Hi|..].
  - eapply objects_ok_eq; [exact Hc|exact Hca|apply Hi].
  - unfold queued. simpl. rewrite Hdata, (queued_data_ext _ w (q_contents q')) by set_solver.
    rewrite (queued_data_perm _ _ _ Hperm), queued_data_app.
    rewrite (queued_data_eq (Op:=Operation) w (w_set_coll _ _ _)) by done. solve_Permutation.
  - by rewrite Hc.
  - intros p Hpp. apply Hdata'. set_solver.
  - simpl in Hnc. split_and!; [done|done|simpl; congruence|simpl; congruence].
Qed.

Lemma check_queues_post F fuel navailable ntotal m w :
  F ∨ reliable (unfinished m) w → minv m w → ntotal ≤ navailable →
  _pending m + (navailable - ntotal) ≤ get (_capacityCtrl m) → navailable < fuel + ntotal →
  post F (λ '(n, m', w'), ∃ tr fin, moves m w m' w' tr fin ∧ length fin ≤ length tr ∧
      n = ntotal + length tr ∧
      (n < navailable → q_contents (_p2pOperations m') = [] ∧ q_contents (_collOperations m') = []))
    (check_queues fuel navailable ntotal m w).
Proof.
  intros HF Hi. revert ntotal m w HF Hi.
  induction fuel as [|fuel IH]; intros ntotal m w HF Hi Hle Hcap Hfuel; [lia|]. cbn [check_queues].
  eapply post_bind; [by apply take_p2p_post|].
  intros [[np2p m1] w1] _ (tr1 & fin1 & Hm1 & Hf1 & Hn1 & Hle1 & Hp1 & _ & He1).
  pose proof (ms_ctrl _ _ _ _ _ _ (mv_step _ _ _ _ _ _ Hm1)) as Hc1.
  pose proof (reliable_moves _ _ _ _ _ _ F HF Hi Hm1) as HF1.
  eapply post_bind; [apply take_coll_post; [done|apply Hm1|rewrite Hc1; lia]|].
  intros [[ncoll m2] w2] _ (tr2 & fin2 & Hm2 & Hf2 & Hn2 & Hle2 & Hp2 & Ho2 & He2).
  pose proof (ms_ctrl _ _ _ _ _ _ (mv_step _ _ _ _ _ _ Hm2)) as Hc2.
  pose proof (reliable_moves _ _ _ _ _ _ F HF1 (mv_inv _ _ _ _ _ _ Hm1) Hm2) as HF2.
  pose proof (moves_trans _ _ _ _ _ _ _ _ _ _ Hm1 Hm2) as Hm.
  destruct ((ntotal + np2p + ncoll <? navailable) && ((0 <? np2p) || (0 <? ncoll))) eqn:Hcond.
  - apply andb_prop in Hcond as [Hlt%Nat.ltb_lt Hsome]. apply orb_prop in Hsome.
    rewrite !Nat.ltb_lt in Hsome.
    eapply post_mono; [apply IH; [done|apply Hm2|lia|rewrite Hc2, Hc1; lia|lia]|].
    intros [[n m3] w3] (tr3 & fin3 & Hm3 & Hf3 & Hn3 & He3). exists ((tr1 ++ tr2) ++ tr3), ((fin1 ++ fin2) ++ fin3).
    split_and!; [by eapply moves_trans|rewrite !length_app; lia|rewrite !length_app; lia|done].
  - simpl. exists (tr1 ++ tr2), (fin1 ++ fin2). split_and!; [done|rewrite !length_app; lia|rewrite length_app; lia|].
    intros Hlt. rewrite (proj2 (Nat.ltb_lt _ _)) in Hcond by done. simpl in Hcond.
    apply orb_false_elim in Hcond as [Hz1%Nat.ltb_ge Hz2%Nat.ltb_ge].
    split; [rewrite Ho2; apply He1; lia|apply He2; lia].
Qed.

(** Nothing is left in the queues, or no more requests may be in flight. *)
Definition drained m w : Prop := queued m w = [] ∨ _pending m = get (_capacityCtrl m).

Lemma queued_nil m w :
  q_contents (_p2pOperations m) = [] → q_contents (_collOperations m) = [] → queued m w = [].
Proof. unfold queued. by intros -> ->. Qed.

(** The first half of an iteration of [checkRequests]. *)
Lemma insert_post F m w :
  F ∨ reliable (unfinished m) w → minv m w →
  post F (λ '(inserted, m', w'), ∃ tr fin, moves m w m' w' tr fin ∧ length fin ≤ length tr ∧
      inserted = length tr ∧
      (inserted = 0 → drained m w))
    (if _pending m <? get (_capacityCtrl m)
     then internalCheckOperationQueues (BatchSize * 2) m w else Ok (0, m, w)).
Proof.
  intros HF Hi. destruct (Nat.ltb_spec (_pending m) (get (_capacityCtrl m))) as [Hlt|Hge].
  - unfold internalCheckOperationQueues. set (n := _ `min` _).
    assert (0 < n ≤ get (_capacityCtrl m) - _pending m) as Hn by (unfold n, BatchSize; lia).
    eapply post_mono; [apply check_queues_post; try done; lia|].
    intros [[k m'] w'] (tr & fin & Hm & Hf & -> & He). exists tr, fin. split_and!; [done..|].
    simpl. intros Hz. left. destruct He as [He1 He2]; [simpl; lia|].
    pose proof (ms_queued _ _ _ _ _ _ (mv_step _ _ _ _ _ _ Hm)) as Hq.
    rewrite (queued_nil m' w' He1 He2) in Hq. apply nil_length_inv in Hz. subst tr.
    by apply Permutation_nil_r in Hq.
  - simpl. exists [], []. split_and!; [by apply moves_refl|done|done|].
    intros _. right. pose proof (mi_pending _ _ _ _ Hi). lia.
Qed.

(** The second half. *)
Lemma complete_post F m w :
  F ∨ reliable (unfinished m) w → minv m w →
  post F (λ '(completed, m', w'), ∃ fin, moves m w m' w' [] fin ∧ completed = length fin)
    (if 0 <? _pending m then internalCheckRequests m w else Ok (0, m, w)).
Proof.
  intros HF Hi. destruct (Nat.ltb_spec 0 (_pending m)) as [Hlt|Hge].
  - eapply post_mono; [apply (internalCheckRequests_post (pp:=pp) (pc:=pc)); [|done..]|].
    { eapply reliable_mono; [|exact HF]. unfold unfinished. lia. }
    intros [[k m'] w'] (Hi' & fin & -> & (Hs & (Ho1 & Ho2 & Ho3 & Ho4 & _) & Hq1 & Hq2)).
    exists fin. split; [|done]. split; [done..|]. split; [split; intros p _; by rewrite ?Ho1, ?Ho2|].
    unfold same_cpus. by rewrite Hq1, Hq2, Ho3, Ho4.
  - simpl. exists []. split; [by apply moves_refl|done].
Qed.

(** An iteration that neither inserts nor completes anything changes nothing
    that matters. *)
Lemma drained_moves m w m' w' :
  minv m w → moves m w m' w' [] [] → drained m w → drained m' w'.
Proof.
  intros Hi [Hi' [_ Hq Hinf Hc _] _] [Hd|Hd].
  - left. simpl in Hq. rewrite Hd in Hq. by apply Permutation_nil_l in Hq.
  - right. rewrite Hc, <-Hd. apply Permutation_length in Hinf. unfold m_inflight in Hinf.
    csimpl in Hinf. rewrite !app_nil_r in Hinf.
    by rewrite !inflight_length in Hinf by (apply Hi || apply Hi').
Qed.

Lemma check_loop_post F fuel total m w :
  F ∨ reliable (unfinished m) w → minv m w → workload m < fuel →
  post F (λ '(n, m', w'), ∃ tr fin, moves m w m' w' tr fin ∧
      total ≤ n ≤ total + length fin ∧ length fin ≤ (n - total) + length tr ∧ drained m' w')
    (check_loop fuel total m w).
Proof.
  revert total m w. induction fuel as [|fuel IH]; intros total m w HF Hi Hfuel; [lia|].
  cbn [check_loop]. eapply post_bind; [by apply insert_post|].
  intros [[inserted m1] w1] _ (tr1 & fin1 & Hm1 & Hf1 & -> & Hd1).
  pose proof (reliable_moves _ _ _ _ _ _ F HF Hi Hm1) as HF1.
  eapply post_bind; [by apply complete_post; [|apply Hm1]|].
  intros [[completed m2] w2] _ (fin2 & Hm2 & ->).
  pose proof (moves_trans _ _ _ _ _ _ _ _ _ _ Hm1 Hm2) as Hm. rewrite app_nil_r in Hm.
  pose proof (mstep_workload _ _ _ _ _ _ Hi (mv_inv _ _ _ _ _ _ Hm1) (mv_step _ _ _ _ _ _ Hm1)) as Hw1.
  pose proof (mstep_workload _ _ _ _ _ _ (mv_inv _ _ _ _ _ _ Hm1) (mv_inv _ _ _ _ _ _ Hm2) (mv_step _ _ _ _ _ _ Hm2)) as Hw2.
  destruct ((0 <? length fin2) || (0 <? length tr1)) eqn:Hcond.
  - apply orb_prop in Hcond. rewrite !Nat.ltb_lt in Hcond.
    eapply post_mono; [apply IH; [eapply reliable_moves; [done|apply Hm1|done]|apply Hm2|lia]|].
    intros [[n m3] w3] (tr3 & fin3 & Hm3 & Hn & Hf & Hd). exists (tr1 ++ tr3), ((fin1 ++ fin2) ++ fin3).
    rewrite !length_app. split_and!; [by eapply moves_trans|lia..|done].
  - apply orb_false_elim in Hcond as [Hz2%Nat.ltb_ge Hz1%Nat.ltb_ge].
    assert (tr1 = []) as -> by (apply nil_length_inv; lia).
    assert (fin1 = []) as -> by (apply nil_length_inv; simpl in *; lia).
    assert (fin2 = []) as -> by (apply nil_length_inv; lia).
    simpl. exists [], []. split_and!; [done|simpl; lia..|].
    eapply drained_moves; [done|exact Hm|by apply Hd1].
Qed.

(** A new capacity that is not smaller keeps everything. *)
Lemma set_ctrl_inv m w ctrl :
  minv m w → ctrl_ok ctrl → get (_capacityCtrl m) ≤ get ctrl → minv (set_ctrl ctrl m) w.
Proof. intros [] Hok Hle. split; simpl; try done. lia. Qed.

(** What [checkRequests] establishes when it returns [n] completions with [k]
    requests in flight. *)
Record poll_result m w (n k : nat) m' w' (tr : list transferred) (fin : list finished) : Prop := {
  pr_inv : minv m' w';
  pr_world : finishes w w' (tr_issue <$> tr) fin;
  pr_queued : queued m w ≡ₚ (tr_op <$> tr) ++ queued m' w';
  pr_inflight : m_inflight m ++ (tr_entry <$> tr) ≡ₚ m_inflight m' ++ fin.*1;
  pr_fin : Forall fin_ok fin;
  pr_transit : same_transit w w' ∧ same_cpus m w m' w';
  pr_pending : k = _pending m';
  pr_completed : n ≤ length fin ≤ n + length tr;
  pr_drained : queued m' w' = [] ∨ k = get (_capacityCtrl m);
  pr_capacity : get (_capacityCtrl m) ≤ get (_capacityCtrl m');
}.

Lemma checkRequests_post F now m w :
  F ∨ reliable (unfinished m) w → minv m w →
  post F (λ '(n, k, m', w'), ∃ tr fin, poll_result m w n k m' w' tr fin) (checkRequests now m w).
Proof.
  intros HF Hi. unfold checkRequests.
  eapply post_bind; [apply check_loop_post; [done|done|lia]|].
  intros [[n m1] w1] _ (tr & fin & [Hi1 [Hw Hq Hinf Hc Hok] Ht] & Hn & Hf & Hd).
  set (ctrl := evaluate _ _ _ _).
  assert (get (_capacityCtrl m1) ≤ get ctrl) as Hcap by apply evaluate_get_mono, Hi1.
  exists tr, fin. split; try done.
  - apply set_ctrl_inv; [done|apply evaluate_ok, Hi1|done].
  - lia.
  - simpl. rewrite <-Hc. destruct Hd as [Hd|Hd]; [left; exact Hd|by right].
  - simpl. rewrite <-Hc. done.
Qed.

(** ** Parts of a poll *)

(** What a part of a poll does, or a whole one: the operations [tr] are issued
    and [fin] finished, and the capacity does not shrink. *)
Record polled m w m' w' (tr : list transferred) (fin : list finished) : Prop := {
  po_inv : minv m' w';
  po_world : finishes w w' (tr_issue <$> tr) fin;
  po_queued : queued m w ≡ₚ (tr_op <$> tr) ++ queued m' w';
  po_inflight : m_inflight m ++ (tr_entry <$> tr) ≡ₚ m_inflight m' ++ fin.*1;
  po_fin : Forall fin_ok fin;
  po_transit : same_transit w w' ∧ same_cpus m w m' w';
  po_capacity : get (_capacityCtrl m) ≤ get (_capacityCtrl m');
}.

Lemma poll_result_polled m w n k m' w' tr fin : poll_result m w n k m' w' tr fin → polled m w m' w' tr fin.
Proof. by intros []. Qed.

Lemma moves_polled m w m' w' tr fin : moves m w m' w' tr fin → polled m w m' w' tr fin.
Proof. intros [Hi [Hw Hq Hf Hc Hok] Ht]. split; try done. by rewrite Hc. Qed.

Lemma polled_workload m w m' w' tr fin :
  minv m w → polled m w m' w' tr fin →
  workload m' + length tr + length fin = workload m ∧ unfinished m' + length fin = unfinished m.
Proof.
  intros Hi [Hi' _ Hq%Permutation_length Hf%Permutation_length _ _ _].
  rewrite (workload_eq _ _ Hi), (workload_eq _ _ Hi'). unfold unfinished.
  pose proof (length_queued m w Hi). pose proof (length_queued m' w' Hi').
  pose proof (inflight_length _ _ (mi_arrays _ _ _ _ Hi)). pose proof (inflight_length _ _ (mi_arrays _ _ _ _ Hi')).
  unfold m_inflight in *. rewrite !length_app, !length_fmap in *. lia.
Qed.

(** The parts of a poll between which other threads run: a batch of operations
    from either pre-queue is issued, the requests in flight are checked, the
    capacity is adapted. *)
Inductive poll_part m w : TicketManager QP QC → world → Prop :=
| part_p2p n k m' w' :
    _pending m + n ≤ get (_capacityCtrl m) → take_p2p n m w = Ok (k, m', w') → poll_part m w m' w'
| part_coll n k m' w' :
    _pending m + n ≤ get (_capacityCtrl m) → take_coll n m w = Ok (k, m', w') → poll_part m w m' w'
| part_check n m' w' :
    0 < _pending m → internalCheckRequests m w = Ok (n, m', w') → poll_part m w m' w'
| part_evaluate pending completed now :
    poll_part m w (set_ctrl (evaluate pending completed now (_capacityCtrl m)) m) w.

Lemma poll_part_polled m w m' w' :
  minv m w → poll_part m w m' w' → ∃ tr fin, polled m w m' w' tr fin.
Proof.
  intros Hi [n k m1 w1 Hn Ht|n k m1 w1 Hn Ht|n m1 w1 Hp Hc|pending completed now].
  - pose proof (take_p2p_post True n m w (or_introl I) Hi Hn) as Hpost. rewrite Ht in Hpost.
    destruct Hpost as (tr & fin & Hm & _). exists tr, fin. by apply moves_polled.
  - pose proof (take_coll_post True n m w (or_introl I) Hi Hn) as Hpost. rewrite Ht in Hpost.
    destruct Hpost as (tr & fin & Hm & _). exists tr, fin. by apply moves_polled.
  - pose proof (complete_post True m w (or_introl I) Hi) as Hpost.
    rewrite (proj2 (Nat.ltb_lt _ _) Hp), Hc in Hpost.
    destruct Hpost as (fin & Hm & _). exists [], fin. by apply moves_polled.
  - exists [], []. pose proof (evaluate_get_mono pending completed now _ (mi_ctrl _ _ _ _ Hi)) as Hle.
    split; try done.
    + by apply set_ctrl_inv; [|apply evaluate_ok, Hi|].
    + apply progress_refl.
Qed.

(** Every poll is a sequence of such parts. *)
Notation parts := (rtc (λ x y : TicketManager QP QC * world, poll_part x.1 x.2 y.1 y.2)).

Lemma queues_in_parts fuel navailable ntotal m w n m' w' :
  minv m w → ntotal ≤ navailable → _pending m + (navailable - ntotal) ≤ get (_capacityCtrl m) →
  check_queues fuel navailable ntotal m w = Ok (n, m', w') → minv m' w' ∧ parts (m, w) (m', w').
Proof.
  revert ntotal m w. induction fuel as [|fuel IH]; intros ntotal m w Hi Hle Hcap Hr; [done|].
  cbn [check_queues] in Hr. apply bind_Ok in Hr as ([[k1 m1] w1] & Ht1 & Hr).
  apply bind_Ok in Hr as ([[k2 m2] w2] & Ht2 & Hr).
  pose proof (take_p2p_post True _ m w (or_introl I) Hi Hcap) as Hp1. rewrite Ht1 in Hp1.
  destruct Hp1 as (tr1 & fin1 & [Hi1 [_ _ _ Hc1 _] _] & _ & _ & Hk1 & Hpend1 & _).
  assert (_pending m1 + (navailable - (ntotal + k1)) ≤ get (_capacityCtrl m1)) as Hcap1 by (rewrite Hc1; lia).
  pose proof (take_coll_post True _ m1 w1 (or_introl I) Hi1 Hcap1) as Hp2. rewrite Ht2 in Hp2.
  destruct Hp2 as (tr2 & fin2 & [Hi2 [_ _ _ Hc2 _] _] & _ & _ & Hk2 & Hpend2 & _).
  assert (parts (m, w) (m2, w2)) as Hp.
  { apply (rtc_l _ _ (m1, w1)); [by eapply part_p2p|]. apply rtc_once. by eapply part_coll. }
  destruct (_ && _); [|by simplify_eq].
  apply IH in Hr as [Hi' Hp']; [|done|lia|rewrite Hc2, Hc1; lia]. split; [done|]. by etransitivity.
Qed.

Lemma loop_in_parts fuel total m w n m' w' :
  minv m w → check_loop fuel total m w = Ok (n, m', w') → minv m' w' ∧ parts (m, w) (m', w').
Proof.
  revert total m w. induction fuel as [|fuel IH]; intros total m w Hi Hr; [done|].
  cbn [check_loop] in Hr. apply bind_Ok in Hr as ([[ins m1] w1] & H1' & Hr).
  apply bind_Ok in Hr as ([[cm m2] w2] & H2' & Hr).
  assert (minv m1 w1 ∧ parts (m, w) (m1, w1)) as [Hi1 Hp1].
  { destruct (Nat.ltb_spec (_pending m) (get (_capacityCtrl m))); [|by simplify_eq].
    unfold internalCheckOperationQueues in H1'. eapply queues_in_parts; [done| | |exact H1']; lia. }
  assert (minv m2 w2 ∧ parts (m1, w1) (m2, w2)) as [Hi2 Hp2].
  { destruct (Nat.ltb_spec 0 (_pending m1)) as [Hlt|]; [|by simplify_eq].
    assert (poll_part m1 w1 m2 w2) as Hp by by eapply part_check.
    destruct (poll_part_polled _ _ _ _ Hi1 Hp) as (tr & fin & Hpo). split; [apply Hpo|by apply rtc_once]. }
  destruct (_ || _); [|simplify_eq; split; [done|by etransitivity]].
  apply IH in Hr as [Hi' Hp']; [|done]. split; [done|]. etransitivity; [done|]. by etransitivity.
Qed.

Lemma poll_in_parts now m w n k m' w' :
  minv m w → checkRequests now m w = Ok (n, k, m', w') → parts (m, w) (m', w').
Proof.
  intros Hi Hc. unfold checkRequests in Hc. apply bind_Ok in Hc as ([[n1 m1] w1] & Hl & Hc).
  apply loop_in_parts in Hl as [_ Hl]; [|done]. simplify_eq. etransitivity; [exact Hl|].
  apply rtc_once. apply part_evaluate.
Qed.
End polling.
