(* ===== verification/System.v ===== *)
(** * The library as a whole

    Tasks that delegate operations, the polling task and the completion task
    run concurrently.  Each of their atomic parts is a step of a transition
    system: a poll runs in one go ([step_poll]) or part by part, with steps of
    other threads between the parts ([step_part]; [poll_in_parts] shows that a
    poll consists of them).  An invariant over all runs accounts for every
    operation that was ever delegated. *)

From S2P Require Import Prelude Queues Allocator World Interface Tickets Operations StringSupport CapacityCtrl TicketManager OperationManager ManagerProofs TransferProofs PollingProofs.

Section system.
Context `{SpscLib, AlpiLib, MpiLib} {QP QC : Type} `{!OpQueue QP ptr, !OpQueue QC ptr}.
Implicit Types (w : world) (m : TicketManager QP QC).

(** The manager, the world, and the tasks inside [process]: the operations
    they have allocated and not pushed, with the contexts of the tasks, and
    the contexts of the blocking tasks that have pushed and not blocked yet.
    [s_delegated] is a ghost: the operations delegated so far. *)
Record system := mkSystem {
  s_manager : TicketManager QP QC;
  s_world : world;
  s_pp : list (ptr * TaskContext);
  s_pc : list (ptr * TaskContext);
  s_blocking : list TaskContext;
  s_delegated : list (mpi_call * Ticket);
}.

(** After the push a blocking task goes on to wait. *)
Definition enter_wait (c : TaskContext) (l : list TaskContext) : list TaskContext :=
  if _blocking c then c :: l else l.

Inductive sys_step : system → system → Prop :=
| step_begin_p2p m w pp pc bl d cpu nature task (make : task_handle_t → Operation) c p w' x :
    cpu < Obj._ncaches (w_p2pAlloc w) → op_ok (make task) → op_data (make task) = Some x →
    begin_operation cpu nature task make w = Ok (c, p, w') → _taskContext x.2 = c →
    sys_step (mkSystem m w pp pc bl d) (mkSystem m w' ((p, c) :: pp) pc bl (d ++ [x]))
| step_begin_coll m w pp pc bl d cpu nature task (make : task_handle_t → CollOperation) c p w' x :
    cpu < Obj._ncaches (w_collAlloc w) → op_ok (make task) → op_data (make task) = Some x →
    begin_operation cpu nature task make w = Ok (c, p, w') → _taskContext x.2 = c →
    sys_step (mkSystem m w pp pc bl d) (mkSystem m w' pp ((p, c) :: pc) bl (d ++ [x]))
| step_push_p2p m w pp1 pp2 pc bl d cpu p c m' :
    q_cpu (_p2pOperations m) cpu → addOperation_p2p cpu p m = Ok (true, m') →
    sys_step (mkSystem m w (pp1 ++ (p, c) :: pp2) pc bl d)
      (mkSystem m' w (pp1 ++ pp2) pc (enter_wait c bl) d)
| step_push_coll m w pp pc1 pc2 bl d cpu p c m' :
    q_cpu (_collOperations m) cpu → addOperation_coll cpu p m = Ok (true, m') →
    sys_step (mkSystem m w pp (pc1 ++ (p, c) :: pc2) bl d)
      (mkSystem m' w pp (pc1 ++ pc2) (enter_wait c bl) d)
| step_spin_p2p m w pp pc bl d cpu p m' :
    q_cpu (_p2pOperations m) cpu → addOperation_p2p cpu p m = Ok (false, m') →
    sys_step (mkSystem m w pp pc bl d) (mkSystem m' w pp pc bl d)
| step_spin_coll m w pp pc bl d cpu p m' :
    q_cpu (_collOperations m) cpu → addOperation_coll cpu p m = Ok (false, m') →
    sys_step (mkSystem m w pp pc bl d) (mkSystem m' w pp pc bl d)
| step_block m w pp pc bl1 bl2 d c w' :
    end_operation c w = Ok w' →
    sys_step (mkSystem m w pp pc (bl1 ++ c :: bl2) d) (mkSystem m w' pp pc (bl1 ++ bl2) d)
| step_poll m w pp pc bl d now n k m' w' :
    checkRequests now m w = Ok (n, k, m', w') →
    sys_step (mkSystem m w pp pc bl d) (mkSystem m' w' pp pc bl d)
| step_part m w pp pc bl d m' w' :
    poll_part m w m' w' → sys_step (mkSystem m w pp pc bl d) (mkSystem m' w' pp pc bl d)
| step_notify m w pp pc bl d n w' :
    process w = Ok (n, w') →
    sys_step (mkSystem m w pp pc bl d) (mkSystem m w' pp pc bl d).

(** ** The history of a run *)

(** [d] was delegated; [transit] of it is being pushed, some is queued and
    [tr] was issued; of that, some is in flight and [fin] is finished; what
    is finished was reported by MPI (or was complete when issued), its
    statuses are written over [st0] and its tasks are told. *)
Record history (st0 : gmap Z status) m w (transit d : list (mpi_call * Ticket))
    (tr : list transferred) (fin : list finished) : Prop := {
  h_delegated : d ≡ₚ transit ++ queued m w ++ (tr_op <$> tr);
  h_issues : issues (w_trace w) = tr_issue <$> tr;
  h_entries : tr_entry <$> tr ≡ₚ m_inflight m ++ fin.*1;
  h_finished : Forall fin_ok fin;
  h_reports : reports (w_trace w) = omap fin_report fin;
  h_told : delivered w ≡ₚ fin_context <$> fin;
  h_status : w_status w = write_statuses st0 (fin ≫= fin_status);
}.

(** The contexts of the operations delegated without blocking. *)
Definition nonblocking (d : list (mpi_call * Ticket)) : list TaskContext :=
  filter (λ c, _blocking c = false) ((λ x, _taskContext x.2) <$> d).

(** The operations that tasks are pushing. *)
Definition transit w (pp pc : list (ptr * TaskContext)) : list (mpi_call * Ticket) :=
  queued_data (Op:=Operation) w pp.*1 ++ queued_data (Op:=CollOperation) w pc.*1.

Record sys_inv (st0 : gmap Z status) (s : system) : Prop := {
  si_manager : manager_inv (s_pp s).*1 (s_pc s).*1 (s_manager s) (s_world s);
  si_history : ∃ tr fin,
    history st0 (s_manager s) (s_world s) (transit (s_world s) (s_pp s) (s_pc s))
      (s_delegated s) tr fin;
  si_bound : bound (w_trace (s_world s)) ≡ₚ nonblocking (s_delegated s);
}.
End system.
Arguments system {_} _ _.

Section system_proofs.
Context `{SpscLib, !SpscLaws, AlpiLib, MpiLib, !MpiLaws}.
Context {QP QC : Type} `{!OpQueue QP ptr, !OpQueueLaws QP ptr, !OpQueue QC ptr, !OpQueueLaws QC ptr}.
Implicit Types (w : world) (m : TicketManager QP QC) (s : system QP QC).

(** ** Steps that leave the objects alone *)

(** Such a step does not change what waits. *)
Lemma same_objects_queued w w' m : same_objects w w' → queued m w' = queued m w.
Proof. intros Hs. unfold queued. by rewrite !(queued_data_same w w') by done. Qed.

Lemma same_objects_inv w w' m pp pc :
  same_objects w w' → manager_inv pp pc m w → manager_inv pp pc m w'.
Proof. intros Hs []. split; try done; by eapply objects_ok_same. Qed.

(** A step that finishes, issues and reports nothing. *)
Record inert w w' : Prop := {
  in_issues : issues (w_trace w') = issues (w_trace w);
  in_reports : reports (w_trace w') = reports (w_trace w);
  in_told : delivered w' ≡ₚ delivered w;
  in_status : w_status w' = w_status w;
}.

Lemma inert_history st0 m w w' tn d tr fin :
  inert w w' → queued m w' = queued m w →
  history st0 m w tn d tr fin → history st0 m w' tn d tr fin.
Proof.
  intros [] Hq []. split; rewrite ?Hq, ?in_told0; done || congruence.
Qed.

Lemma inert_step st0 m w w' pp pc bl bl' d :
  inert w w' → same_objects w w' → bound (w_trace w') = bound (w_trace w) →
  sys_inv st0 (mkSystem m w pp pc bl d) → sys_inv st0 (mkSystem m w' pp pc bl' d).
Proof.
  intros Hin Hs Hb [Hm (tr & fin & Hh) Hbd]. simpl in *. split; simpl.
  - by eapply same_objects_inv.
  - exists tr, fin. unfold transit in *. simpl in *. rewrite !(queued_data_same w w') by done.
    eapply inert_history; [done| |done]. by apply same_objects_queued.
  - by rewrite Hb.
Qed.

Lemma inert_log w e :
  event_issues (EvAlpi e) = [] → event_contexts (EvAlpi e) = [] → inert w (w_log (EvAlpi e) w).
Proof.
  intros Hi Hc. split; cbn [w_trace w_log w_status]; rewrite ?issues_app, ?reports_app; try done.
  - by rewrite app_nil_r.
  - by rewrite app_nil_r.
  - unfold delivered. cbn [w_trace w_log w_queue]. rewrite notified_app.
    change (notified [EvAlpi e]) with (event_contexts (EvAlpi e) ++ []). rewrite Hc. simpl.
    by rewrite app_nil_r.
Qed.

Lemma block_step st0 m w w' pp pc bl1 bl2 d c :
  end_operation c w = Ok w' →
  sys_inv st0 (mkSystem m w pp pc (bl1 ++ c :: bl2) d) →
  sys_inv st0 (mkSystem m w' pp pc (bl1 ++ bl2) d).
Proof.
  intros He Hi. unfold end_operation, waitEventsCompletion, blockCurrentTask, alpi in He.
  destruct (_blocking c); simpl in He; [case_decide|]; simplify_eq;
    [|by eapply (inert_step st0 m w' w'); [split| | |]].
  eapply inert_step; [by apply inert_log|done| |done].
  cbn [w_trace w_log]. rewrite bound_app. by rewrite app_nil_r.
Qed.

Lemma notify_step st0 m w w' pp pc bl d n :
  process w = Ok (n, w') →
  sys_inv st0 (mkSystem m w pp pc bl d) → sys_inv st0 (mkSystem m w' pp pc bl d).
Proof.
  intros Hp Hi. pose proof (process_post True w (or_introl I)) as Hpost. rewrite Hp in Hpost.
  destruct Hpost as (_ & Hq & (es & Htr & Hn & His & Hr & Hb) & Hs & Hst).
  eapply inert_step; [|exact Hs| |exact Hi].
  - split; rewrite ?Htr, ?issues_app, ?reports_app, ?His, ?Hr, ?app_nil_r; try done.
    unfold delivered. rewrite Htr, Hq, notified_app, Hn. by rewrite app_nil_r.
  - by rewrite Htr, bound_app, Hb, app_nil_r.
Qed.

(** ** Polling *)

Lemma transit_same pp pc w w' :
  same_transit (pp:=pp.*1) (pc:=pc.*1) w w' → transit w' pp pc = transit w pp pc.
Proof.
  intros [Hp Hc]. unfold transit. simpl. f_equal; apply queued_data_ext; intros p Hin; simpl; auto.
Qed.

Lemma checkRequests_polled {pp pc} now m w n k m' w' :
  manager_inv pp pc m w → checkRequests now m w = Ok (n, k, m', w') →
  ∃ tr fin, polled (pp:=pp) (pc:=pc) m w m' w' tr fin.
Proof.
  intros Hm Hc. pose proof (checkRequests_post True now m w (or_introl I) Hm) as Hpost. rewrite Hc in Hpost.
  destruct Hpost as (tr & fin & Hp). exists tr, fin. by eapply poll_result_polled.
Qed.

Lemma polled_step st0 m w m' w' pp pc bl d :
  (∃ tr fin, polled (pp:=pp.*1) (pc:=pc.*1) m w m' w' tr fin) →
  sys_inv st0 (mkSystem m w pp pc bl d) → sys_inv st0 (mkSystem m' w' pp pc bl d).
Proof.
  intros (tr' & fin' & [Hm' [] Hq Hinf Hok [Ht _] _]) [Hm (tr & fin & []) Hb]. simpl in *. split; simpl.
  - done.
  - exists (tr ++ tr'), (fin ++ fin').
    rewrite (transit_same pp pc w w' Ht). split.
    + rewrite h_delegated0, Hq, fmap_app. solve_Permutation.
    + by rewrite pg_issues, h_issues0, fmap_app.
    + rewrite !fmap_app, h_entries0, <-app_assoc, (Permutation_app_comm (fin.*1)), app_assoc, Hinf.
      rewrite <-app_assoc. by rewrite (Permutation_app_comm (fin'.*1)).
    + by apply Forall_app.
    + by rewrite pg_reports, h_reports0, omap_app.
    + by rewrite pg_told, h_told0, fmap_app.
    + rewrite pg_status, h_status0, bind_app. unfold write_statuses. by rewrite foldl_app.
  - by rewrite pg_bound.
Qed.

(** ** Pushing *)

(** Moving an operation from a task to the queue, or none. *)
Lemma requeue_p2p st0 m w pp pp' pc bl bl' d q :
  q_inv q → q_contents q ++ pp'.*1 ≡ₚ q_contents (_p2pOperations m) ++ pp.*1 →
  sys_inv st0 (mkSystem m w pp pc bl d) → sys_inv st0 (mkSystem (set_p2p q m) w pp' pc bl' d).
Proof.
  intros Hq Hp [[] (tr & fin & []) Hb]. split; simpl in *; [|exists tr, fin|done].
  - split; simpl; try done. by eapply objects_ok_perm.
  - split; try done. rewrite h_delegated0. unfold transit, queued. simpl.
    apply (queued_data_perm (Op:=Operation) w) in Hp. rewrite !queued_data_app in Hp.
    rewrite <-!app_assoc, (Permutation_app_swap_app (queued_data w pc.*1)), app_assoc.
    rewrite (Permutation_app_comm (queued_data w pp.*1)), <-Hp. solve_Permutation.
Qed.

Lemma requeue_coll st0 m w pp pc pc' bl bl' d q :
  q_inv q → q_contents q ++ pc'.*1 ≡ₚ q_contents (_collOperations m) ++ pc.*1 →
  sys_inv st0 (mkSystem m w pp pc bl d) → sys_inv st0 (mkSystem (set_coll q m) w pp pc' bl' d).
Proof.
  intros Hq Hp [[] (tr & fin & []) Hb]. split; simpl in *; [|exists tr, fin|done].
  - split; simpl; try done. by eapply objects_ok_perm.
  - split; try done. rewrite h_delegated0. unfold transit, queued. simpl.
    apply (queued_data_perm (Op:=CollOperation) w) in Hp. rewrite !queued_data_app in Hp.
    rewrite <-!app_assoc. apply Permutation_app_head.
    rewrite (Permutation_app_swap_app (queued_data w pc.*1)).
    rewrite (app_assoc (queued_data w pc.*1)), (Permutation_app_comm (queued_data w pc.*1)), <-Hp.
    solve_Permutation.
Qed.

Lemma add_p2p_spec cpu p m pushed m' :
  q_inv (_p2pOperations m) → q_cpu (_p2pOperations m) cpu →
  addOperation_p2p cpu p m = Ok (pushed, m') →
  ∃ q, m' = set_p2p q m ∧ q_inv q ∧ q_contents q ≡ₚ
    if (pushed : bool) then p :: q_contents (_p2pOperations m) else q_contents (_p2pOperations m).
Proof.
  intros Hi Hc Ha. unfold addOperation_p2p in Ha.
  pose proof (q_push_spec cpu p (_p2pOperations m) Hi Hc) as Hp.
  destruct (q_push _ _ _) as [[b q]| |]; simplify_eq/=. by exists q.
Qed.

Lemma add_coll_spec cpu p m pushed m' :
  q_inv (_collOperations m) → q_cpu (_collOperations m) cpu →
  addOperation_coll cpu p m = Ok (pushed, m') →
  ∃ q, m' = set_coll q m ∧ q_inv q ∧ q_contents q ≡ₚ
    if (pushed : bool) then p :: q_contents (_collOperations m) else q_contents (_collOperations m).
Proof.
  intros Hi Hc Ha. unfold addOperation_coll in Ha.
  pose proof (q_push_spec cpu p (_collOperations m) Hi Hc) as Hp.
  destruct (q_push _ _ _) as [[b q]| |]; simplify_eq/=. by exists q.
Qed.

(** ** Allocating *)

Lemma begin_spec `{!OpType Op, !OpTypeLaws Op} cpu nature task (make : task_handle_t → Op) w c p w' ps :
  begin_operation cpu nature task make w = Ok (c, p, w') →
  objects_ok (Op:=Op) w ps → cpu < Obj._ncaches (op_alloc (Op:=Op) w) → op_ok (make task) →
  ∃ w1 a, inert w w1 ∧ same_objects w w1 ∧
    bound (w_trace w1) = bound (w_trace w) ++ (if _blocking c then [] else [c]) ∧
    w' = op_set (<[p := make task]> (op_heap w1)) a w1 ∧
    objects_ok (Op:=Op) w' (ps ++ [p]) ∧ p ∉ ps.
Proof.
  intros Hb Hobj Hcpu Hok. unfold begin_operation, newContext, bindEvents,
    increaseCurrentTaskEvents, alpi in Hb.
  destruct (negb (task =? nullptr)%Z); [|done]. simpl in Hb.
  apply bind_Ok in Hb as (w1 & Hw1 & Hb). apply bind_Ok in Hb as ([p' w2] & Hn & Hb).
  simpl in Hb. simplify_eq.
  assert (inert w w1 ∧ same_objects w w1 ∧ bound (w_trace w1) = bound (w_trace w) ++
    (if bool_decide (nature = BLK) then [] else [mkContext false task])) as (Hin & Hs & Hbd).
  { destruct nature; simpl in *; [|case_decide]; simplify_eq.
    - split_and!; [by split|done|by rewrite app_nil_r].
    - split_and!; [by apply inert_log|done|]. cbn [w_trace w_log]. by rewrite bound_app. }
  destruct (op_new_spec (Op:=Op) w1 ps cpu (make task)) as [(p' & a & Heq & Hobj' & Hfresh)|Hfail].
  - by eapply objects_ok_same.
  - by destruct (op_same (Op:=Op) w w1 Hs) as [_ ->].
  - done.
  - rewrite Hn in Heq. simplify_eq. exists w1, a. simpl. split_and!; try done.
    rewrite Hbd. by case_bool_decide.
  - by rewrite Hn in Hfail.
Qed.

Lemma nonblocking_snoc d x :
  nonblocking (d ++ [x]) =
    nonblocking d ++ (if _blocking (_taskContext x.2) then [] else [_taskContext x.2]).
Proof.
  unfold nonblocking. rewrite fmap_app, filter_app. f_equal. csimpl.
  destruct (_blocking (_taskContext x.2)) eqn:Hb.
  - by rewrite filter_cons_False by congruence.
  - by rewrite filter_cons_True by congruence.
Qed.

(** The history when [x] is delegated and waits in transit. *)
Lemma history_delegate st0 m w w' tn tn' d x tr fin :
  inert w w' → queued m w' ≡ₚ queued m w → tn' ≡ₚ x :: tn →
  history st0 m w tn d tr fin → history st0 m w' tn' (d ++ [x]) tr fin.
Proof.
  intros [] Hq Ht []. split; rewrite ?in_told0; try (done || congruence).
  rewrite Ht, Hq, h_delegated0. solve_Permutation.
Qed.

(** A task starts an operation: it waits, in transit, and nothing else changes. *)
Lemma begin_p2p_waits m w pp pc cpu nature task (make : task_handle_t → Operation) c p w' x :
  cpu < Obj._ncaches (w_p2pAlloc w) → op_ok (make task) → op_data (make task) = Some x →
  begin_operation cpu nature task make w = Ok (c, p, w') →
  manager_inv pp.*1 pc.*1 m w →
  manager_inv ((p, c) :: pp).*1 pc.*1 m w' ∧ inert w w' ∧ queued m w' ≡ₚ queued m w ∧
  transit w' ((p, c) :: pp) pc ≡ₚ x :: transit w pp pc ∧
  bound (w_trace w') = bound (w_trace w) ++ (if _blocking c then [] else [c]).
Proof.
  intros Hcpu Hok Hx Hb Hm.
  destruct (begin_spec (Op:=Operation) _ _ _ _ _ _ _ _ _ Hb (mi_p2p_objects _ _ _ _ Hm) Hcpu Hok)
    as (w1 & a & Hin & Hs & Hbound & -> & Hobj & [Hf1 Hf2]%not_elem_of_app).
  pose proof (same_objects_inv _ _ _ _ _ Hs Hm) as [? ? ? ? ? ? ? _ ?].
  pose proof (queued_data_insert (Op:=Operation) w1 _ p (make task) a Hf1) as Hd1.
  pose proof (queued_data_insert (Op:=Operation) w1 _ p (make task) a Hf2) as Hd2.
  rewrite (queued_data_same (Op:=Operation) w w1) in Hd1, Hd2 by done.
  pose proof (queued_data_same (Op:=CollOperation) w w1) as Hother. simpl in *. split_and!.
  - split; try done. eapply objects_ok_perm; [|exact Hobj]. solve_Permutation.
  - destruct Hin. by split.
  - unfold queued. rewrite Hd1. by rewrite <-Hother.
  - unfold transit. change (((p, c) :: pp).*1) with (p :: pp.*1).
    unfold queued_data at 1. cbn [omap list_omap]. simpl. rewrite lookup_insert_eq. simpl.
    rewrite Hx. unfold queued_data in Hd2 at 1. simpl in Hd2. rewrite Hd2. by rewrite <-Hother.
  - done.
Qed.

Lemma begin_p2p_step st0 m w pp pc bl d cpu nature task (make : task_handle_t → Operation) c p w' x :
  cpu < Obj._ncaches (w_p2pAlloc w) → op_ok (make task) → op_data (make task) = Some x →
  begin_operation cpu nature task make w = Ok (c, p, w') → _taskContext x.2 = c →
  sys_inv st0 (mkSystem m w pp pc bl d) →
  sys_inv st0 (mkSystem m w' ((p, c) :: pp) pc bl (d ++ [x])).
Proof.
  intros Hcpu Hok Hx Hb Hc [Hm (tr & fin & Hh) Hbd]. simpl in *.
  destruct (begin_p2p_waits _ _ _ _ _ _ _ _ _ _ _ _ Hcpu Hok Hx Hb Hm) as (Hm' & Hin & Hq & Ht & Hbound).
  split; simpl; [done| |by rewrite Hbound, Hbd, nonblocking_snoc, Hc].
  exists tr, fin. by eapply history_delegate.
Qed.

(** A task starts an operation: it waits, in transit, and nothing else changes. *)
Lemma begin_coll_waits m w pp pc cpu nature task (make : task_handle_t → CollOperation) c p w' x :
  cpu < Obj._ncaches (w_collAlloc w) → op_ok (make task) → op_data (make task) = Some x →
  begin_operation cpu nature task make w = Ok (c, p, w') →
  manager_inv pp.*1 pc.*1 m w →
  manager_inv pp.*1 ((p, c) :: pc).*1 m w' ∧ inert w w' ∧ queued m w' ≡ₚ queued m w ∧
  transit w' pp ((p, c) :: pc) ≡ₚ x :: transit w pp pc ∧
  bound (w_trace w') = bound (w_trace w) ++ (if _blocking c then [] else [c]).
Proof.
  intros Hcpu Hok Hx Hb Hm.
  destruct (begin_spec (Op:=CollOperation) _ _ _ _ _ _ _ _ _ Hb (mi_coll_objects _ _ _ _ Hm) Hcpu Hok)
    as (w1 & a & Hin & Hs & Hbound & -> & Hobj & [Hf1 Hf2]%not_elem_of_app).
  pose proof (same_objects_inv _ _ _ _ _ Hs Hm) as [? ? ? ? ? ? ? ? _].
  pose proof (queued_data_insert (Op:=CollOperation) w1 _ p (make task) a Hf1) as Hd1.
  pose proof (queued_data_insert (Op:=CollOperation) w1 _ p (make task) a Hf2) as Hd2.
  rewrite (queued_data_same (Op:=CollOperation) w w1) in Hd1, Hd2 by done.
  pose proof (queued_data_same (Op:=Operation) w w1) as Hother. simpl in *. split_and!.
  - split; try done. eapply objects_ok_perm; [|exact Hobj]. solve_Permutation.
  - destruct Hin. by split.
  - unfold queued. rewrite Hd1. by rewrite <-Hother.
  - unfold transit. change (((p, c) :: pc).*1) with (p :: pc.*1).
    unfold queued_data at 2. cbn [omap list_omap]. simpl. rewrite lookup_insert_eq. simpl.
    rewrite Hx. unfold queued_data in Hd2 at 1. simpl in Hd2. rewrite Hd2, <-Hother by done.
    by rewrite <-Permutation_middle.
  - done.
Qed.

Lemma begin_coll_step st0 m w pp pc bl d cpu nature task (make : task_handle_t → CollOperation) c p w' x :
  cpu < Obj._ncaches (w_collAlloc w) → op_ok (make task) → op_data (make task) = Some x →
  begin_operation cpu nature task make w = Ok (c, p, w') → _taskContext x.2 = c →
  sys_inv st0 (mkSystem m w pp pc bl d) →
  sys_inv st0 (mkSystem m w' pp ((p, c) :: pc) bl (d ++ [x])).
Proof.
  intros Hcpu Hok Hx Hb Hc [Hm (tr & fin & Hh) Hbd]. simpl in *.
  destruct (begin_coll_waits _ _ _ _ _ _ _ _ _ _ _ _ Hcpu Hok Hx Hb Hm) as (Hm' & Hin & Hq & Ht & Hbound).
  split; simpl; [done| |by rewrite Hbound, Hbd, nonblocking_snoc, Hc].
  exists tr, fin. by eapply history_delegate.
Qed.

(** ** Every run *)

Lemma step_inv st0 s s' : sys_step s s' → sys_inv st0 s → sys_inv st0 s'.
Proof.
  intros Hstep Hi. destruct Hstep.
  - by eapply begin_p2p_step.
  - by eapply begin_coll_step.
  - edestruct add_p2p_spec as (q & -> & Hq & Hp); [apply Hi|done..|].
    eapply requeue_p2p; [done| |exact Hi]. rewrite Hp, !fmap_app. csimpl. solve_Permutation.
  - edestruct add_coll_spec as (q & -> & Hq & Hp); [apply Hi|done..|].
    eapply requeue_coll; [done| |exact Hi]. rewrite Hp, !fmap_app. csimpl. solve_Permutation.
  - edestruct add_p2p_spec as (q & -> & Hq & Hp); [apply Hi|done..|].
    eapply requeue_p2p; [done| |exact Hi]. by rewrite Hp.
  - edestruct add_coll_spec as (q & -> & Hq & Hp); [apply Hi|done..|].
    eapply requeue_coll; [done| |exact Hi]. by rewrite Hp.
  - by eapply block_step.
  - eapply polled_step; [|exact Hi]. eapply checkRequests_polled; [apply Hi|done].
  - eapply polled_step; [|exact Hi]. eapply poll_part_polled; [apply Hi|done].
  - by eapply notify_step.
Qed.

Lemma run_inv st0 s s' : rtc sys_step s s' → sys_inv st0 s → sys_inv st0 s'.
Proof. induction 1; eauto using step_inv. Qed.

(** ** The initial state *)

(** Right after initialisation: nothing has happened, the queues are empty
    and no object is allocated. *)
Record fresh_world w : Prop := {
  fw_trace : w_trace w = [];
  fw_queue : spsc_contents (w_queue w) = [];
  fw_p2p : Obj.inv [] (w_p2pAlloc w);
  fw_coll : Obj.inv [] (w_collAlloc w);
}.

Record fresh_manager m : Prop := {
  fm_ctrl : ctrl_ok (_capacityCtrl m);
  fm_pending : _pending m = 0;
  fm_p2p : q_inv (_p2pOperations m) ∧ q_contents (_p2pOperations m) = [];
  fm_coll : q_inv (_collOperations m) ∧ q_contents (_collOperations m) = [];
}.

(** Nothing is unfinished, so that every failure is one of MPI or the runtime. *)
Lemma fresh_reliable m w : mpi_ok → alpi_ok → fresh_manager m → fresh_world w → reliable (unfinished m) w.
Proof.
  intros Hmpi Halpi [_ Hp [_ H1'] [_ H2']] [_ Hq _ _]. split_and!; [done..|right].
  unfold unfinished. rewrite Hp, H1', H2', Hq. simpl. lia.
Qed.

Lemma fresh_inv m w :
  orderly (_generalTesting m) → fresh_manager m → fresh_world w → sys_inv (w_status w) (mkSystem m w [] [] [] []).
Proof.
  intros Ho [Hc Hp [Hq1 He1] [Hq2 He2]] [Ht Hq Ha1 Ha2]. split; simpl.
  - split; try done.
    + lia.
    + rewrite Hp. intros i Hi. lia.
    + unfold m_inflight. by rewrite Hp.
    + rewrite He1. split; [by exists []|]. intros p Hin. set_solver.
    + rewrite He2. split; [by exists []|]. intros p Hin. set_solver.
  - exists [], []. split; csimpl; rewrite ?Ht; try done.
    + unfold queued. by rewrite He1, He2.
    + unfold m_inflight. by rewrite Hp.
    + unfold delivered. by rewrite Ht, Hq.
  - by rewrite Ht.
Qed.
End system_proofs.
