(* ===== verification/Demo.v ===== *)
(** * Concrete environments

    Instances of the parameters: an MPI library in which a request completes
    once enough has happened, a runtime that accepts every call, and the
    ticket manager with the queues of the library.  They show that the laws
    assumed of the parameters can hold and let the model be evaluated. *)

From S2P Require Import Prelude Queues MultiQueue Allocator World Interface Tickets Operations FortranInterface StringSupport CapacityCtrl TicketManager OperationManager ManagerProofs PollingProofs System.
Import ListSpsc.

(** The [k]-th request completes when [3 k] events have happened; its status
    is [100 + k]. *)
Definition demo_ready (t : list event) (r : request) : Prop := (3 * r ≤ Z.of_nat (length t))%Z.

#[export] Instance demo_ready_dec t r : Decision (demo_ready t r).
Proof. apply Z_le_dec. Defined.

#[export] Instance demo_mpi : MpiLib := {|
  MPI_REQUEST_NULL := 0%Z;
  MPI_STATUS_IGNORE := 1%Z;
  mpi_issue t _ := (0%Z, Z.of_nat (S (length (issues t))));
  mpi_test t r := {| to_err := 0%Z; to_flag := bool_decide (demo_ready t r);
    to_request := if decide (demo_ready t r) then 0%Z else r; to_status := (100 + r)%Z |};
  mpi_testany t reqs :=
    match list_find (demo_ready t) reqs with
    | Some (i, r) => {| ta_err := 0%Z; ta_index := Some i; ta_flag := true;
        ta_requests := <[i := 0%Z]> reqs; ta_status := (100 + r)%Z |}
    | None => {| ta_err := 0%Z; ta_index := None; ta_flag := false;
        ta_requests := reqs; ta_status := 0%Z |}
    end;
  mpi_testsome t reqs :=
    let ix := filter (λ i, demo_ready t (reqs !!! i)) (seq 0 (length reqs)) in
    {| ts_err := 0%Z; ts_outcount := Some (length ix); ts_indices := ix;
       ts_requests := (λ r, if decide (demo_ready t r) then 0%Z else r) <$> reqs;
       ts_statuses := (λ i, (100 + reqs !!! i)%Z) <$> ix |};
|}.

#[export] Instance demo_alpi : AlpiLib := {| alpi_error _ _ := 0%Z; alpi_error_string _ := "" |}.

Lemma StronglySorted_seq n k : StronglySorted lt (seq k n).
Proof.
  revert k. induction n as [|n IH]; intros k; simpl; constructor; [done|].
  apply Forall_forall. intros i Hi%elem_of_seq. lia.
Qed.

Lemma StronglySorted_filter (P : nat → Prop) `{∀ x, Decision (P x)} (l : list nat) :
  StronglySorted lt l → StronglySorted lt (filter P l).
Proof.
  induction 1 as [|x l _ IH Hx]; [constructor|]. rewrite filter_cons. case_decide; [|done].
  constructor; [done|]. rewrite Forall_forall in *.
  intros y [_ Hy]%list_elem_of_filter. auto.
Qed.

#[export] Instance demo_mpi_laws : MpiLaws.
Proof.
  split.
  - intros t r _ _. simpl. case_bool_decide; by case_decide.
  - intros t reqs _ _ _. simpl. destruct (list_find _ _) as [[i r]|] eqn:Hf; simpl; [|done].
    apply list_find_Some in Hf as (Hi & _ & _). pose proof (lookup_lt_Some _ _ _ Hi).
    exists i. split_and!; [done..|]. split; [by rewrite length_insert|]. intros j Hj.
    case_decide as Hin.
    + apply list_elem_of_singleton in Hin as ->. by apply list_lookup_insert_eq.
    + apply list_lookup_insert_ne. set_solver.
  - intros t reqs _ _ _. simpl. split_and!; [done|by rewrite length_fmap| | |].
    + apply NoDup_filter, NoDup_seq.
    + apply Forall_forall. intros i [_ Hi%elem_of_seq]%list_elem_of_filter. lia.
    + split; [by rewrite length_fmap|]. intros i Hi.
      destruct (lookup_lt_is_Some_2 reqs i Hi) as [r Hr].
      rewrite list_lookup_fmap, Hr. simpl.
      assert (i ∈ filter (λ i, demo_ready t (reqs !!! i)) (seq 0 (length reqs)) ↔ demo_ready t r) as Hiff.
      { rewrite list_elem_of_filter, elem_of_seq, (list_lookup_total_correct _ _ _ Hr).
        naive_solver lia. }
      repeat case_decide; naive_solver.
Qed.

Lemma demo_ascending : TestsomeAscending.
Proof. intros t reqs. apply StronglySorted_filter, StronglySorted_seq. Qed.

Lemma demo_mpi_ok : mpi_ok.
Proof. split_and!; try done. intros t rs. simpl. by destruct (list_find _ _) as [[? ?]|]. Qed.

Lemma demo_alpi_ok : alpi_ok.
Proof. done. Qed.

(** ** A small library instance *)

(** The value of a computation that is known to succeed. *)
Definition value_of {A : Type} (m : outcome A) : if is_ok m return Type then A else unit :=
  match m with Ok a => a | _ => tt end.

(** Four objects of each kind and two logical CPUs; short queues. *)
Definition demo_objects : Obj.ObjAllocator := value_of (Obj.new (B:=default_build) 4 2).

Definition demo_world : world :=
  mkWorld [] ∅ ∅ ∅ demo_objects demo_objects false (spsc_new 8).

Definition demo_p2p : MultiLockFreeQueue nat := value_of (MultiQueue.new (B:=default_build) 4 2 true).
Definition demo_coll : Boost.BoostLockFreeQueue nat := Boost.mkBoost true false (spsc_new 8).

Notation demo_manager_type :=
  (TicketManager (MultiLockFreeQueue nat) (Boost.BoostLockFreeQueue nat)).

(** Between one and four requests in flight, default testing. *)
Definition demo_env : manager_env :=
  {| env_testing := None; env_immediate := None; env_capacity := Some (str "1:4");
     env_timeout := None |}.

Definition demo_manager : demo_manager_type :=
  value_of (newManager demo_env demo_p2p demo_coll).

Lemma demo_objects_inv : Obj.inv [] demo_objects.
Proof.
  destruct (Obj.new_spec (B:=default_build) 4 2) as (st & Heq & Hi & _); [by apply Nat.leb_le|].
  assert (demo_objects = st) as ->; [|exact Hi]. vm_compute in Heq. injection Heq as <-. by vm_compute.
Qed.

Lemma demo_fresh_world : fresh_world demo_world.
Proof. split; try done; apply demo_objects_inv. Qed.

Lemma demo_fresh_manager : fresh_manager demo_manager.
Proof.
  split; [split; vm_compute; split; done|done| |done].
  destruct (MultiQueue.new_inv (A:=nat) (B:=default_build) 4 2 true) as (q & Heq & Hi & Hc & _);
    [lia|done|by split; apply Nat.leb_le|].
  assert (_p2pOperations demo_manager = q) as ->; [|done].
  vm_compute in Heq. injection Heq as <-. by vm_compute.
Qed.

Lemma demo_orderly approach : orderly approach.
Proof. intros _. exact demo_ascending. Qed.

Lemma demo_reliable n : reliable n demo_world.
Proof. split_and!; [apply demo_mpi_ok|apply demo_alpi_ok|by left]. Qed.

Lemma demo_inv : sys_inv ∅ (mkSystem demo_manager demo_world [] [] [] []).
Proof. exact (fresh_inv _ _ (demo_orderly _) demo_fresh_manager demo_fresh_world). Qed.

(** ** A run *)

(** Task 7 receives without blocking, with its status at address 200. *)
Definition demo_op (task : task_handle_t) : Operation :=
  newOperation task RECV NONBLK 500 8 2 1 42 91 200.

Definition demo_begun : TaskContext * nat * world :=
  value_of (begin_operation (Op:=Operation) 0 NONBLK 7 demo_op demo_world).
Definition demo_pushed : bool * demo_manager_type :=
  value_of (addOperation_p2p 0 demo_begun.1.2 demo_manager).
Definition demo_polled : nat * nat * demo_manager_type * world :=
  value_of (checkRequests 0 demo_pushed.2 demo_begun.2).

Definition demo_final : system (MultiLockFreeQueue nat) (Boost.BoostLockFreeQueue nat) :=
  mkSystem demo_polled.1.2 demo_polled.2 [] [] []
    [(Irecv 500 8 2 1 42 91, mkTicket (mkContext false 7) 200)].

Definition demo_queued : system (MultiLockFreeQueue nat) (Boost.BoostLockFreeQueue nat) :=
  mkSystem demo_pushed.2 demo_begun.2 [] [] []
    [(Irecv 500 8 2 1 42 91, mkTicket (mkContext false 7) 200)].

Lemma demo_delegates :
  rtc sys_step (mkSystem demo_manager demo_world [] [] [] []) demo_queued.
Proof.
  eapply rtc_l.
  { apply (step_begin_p2p _ _ _ _ _ _ 0 NONBLK 7 demo_op demo_begun.1.1 demo_begun.1.2 demo_begun.2
      (Irecv 500 8 2 1 42 91, mkTicket (mkContext false 7) 200)).
    - vm_compute. lia.
    - eexists _, _. split_and!; [done..|]. by right.
    - done.
    - by vm_compute.
    - by vm_compute. }
  apply rtc_once.
  apply (step_push_p2p _ _ [] [] _ _ _ 0 demo_begun.1.2 demo_begun.1.1 demo_pushed.2).
  - vm_compute. lia.
  - by vm_compute.
Qed.

Lemma demo_run : rtc sys_step (mkSystem demo_manager demo_world [] [] [] []) demo_final.
Proof.
  eapply rtc_r; [apply demo_delegates|].
  apply (step_poll _ _ _ _ _ _ 0 demo_polled.1.1.1 demo_polled.1.1.2). by vm_compute.
Qed.

Lemma demo_queued_inv : manager_inv [] [] demo_pushed.2 demo_begun.2.
Proof. exact (si_manager _ _ (run_inv ∅ _ _ demo_delegates demo_inv)). Qed.

(** The task was told, and the status of its request was stored. *)
Lemma demo_final_told :
  notified (w_trace (s_world demo_final)) = [mkContext false 7] ∧
  w_status (s_world demo_final) !! 200%Z = Some 101%Z.
Proof. split; by vm_compute. Qed.

(** Three requests tested with [MPI_Testany] after six events: the first two
    complete. *)
Lemma testing_approaches_sound_witness :
  let w := mkWorld (replicate 6 (EvAlpi (TaskBlock 1))) ∅ ∅ ∅ demo_objects demo_objects false
    (spsc_new 8) in
  post True (λ '(ix, reqs', sts, w'), tested [1; 2; 3]%Z ix reqs' sts ∧
      only_tests w w' (reported [1; 2; 3]%Z ix sts) ∧ StronglySorted lt ix)
    (internalTestRequests TestAny [1; 2; 3]%Z w) ∧
  (λ x : list nat * list Z * list Z * world, (x.1.1.1, x.1.1.2, x.1.2)) <$>
    internalTestRequests TestAny [1; 2; 3]%Z w = Ok ([0; 1], [0; 0; 3]%Z, [101; 102]%Z).
Proof.
  cbv zeta. split; [|by vm_compute].
  apply (testing_approaches_sound TestAny [1; 2; 3]%Z); [repeat constructor; done|done].
Defined.

(** The same requests in Fortran, tested with [MPI_Testsome]. *)
Lemma fortran_tests_agree_witness :
  let w := mkWorld (replicate 6 (EvAlpi (TaskBlock 1))) ∅ ∅ ∅ demo_objects demo_objects false
    (spsc_new 8) in
  F_testsome (H1:=derived_fortran) [1001; 1002; 1003]%Z w =
    c2f_testsome (H1:=derived_fortran) <$> testsome [1; 2; 3]%Z w ∧
  (λ x : list Z * list Z * list Z * world, (x.1.1.1, x.1.1.2)) <$>
    F_testsome (H1:=derived_fortran) [1001; 1002; 1003]%Z w =
    Ok ([0; 1], [1000; 1000; 1003])%Z.
Proof.
  cbv zeta. split; [|by vm_compute].
  exact (proj2 (proj2 (fortran_tests_agree (H2:=derived_fortran_laws) _)) [1; 2; 3]%Z).
Defined.
