(* ===== verification/Claims.v ===== *)
(** * Properties of the ticket manager and of the whole library

    The theorems about [TicketManager::checkRequests] and about the runs of the
    system of [System.v], and evaluations of each theorem on the instance of
    [Demo.v]. *)

From S2P Require Import Prelude Queues MultiQueue Allocator World Interface Tickets Operations StringSupport CapacityCtrl TicketManager OperationManager ManagerProofs TransferProofs PollingProofs System Demo.

(** ** Properties *)

Section claims.
Context `{SpscLib, !SpscLaws, AlpiLib, MpiLib, !MpiLaws}.
Context {QP QC : Type} `{!OpQueue QP ptr, !OpQueueLaws QP ptr, !OpQueue QC ptr, !OpQueueLaws QC ptr}.
Implicit Types (w : world) (m : TicketManager QP QC) (s : system QP QC).

Definition outstanding s : list TaskContext :=
  ((λ x, _taskContext x.2) <$> transit (s_world s) (s_pp s) (s_pc s)) ++
  ((λ x, _taskContext x.2) <$> queued (s_manager s) (s_world s)) ++
  ((λ x, _taskContext x.2) <$> m_inflight (s_manager s)) ++
  spsc_contents (w_queue (s_world s)).

(** Whatever was delegated is still outstanding or its task was notified. *)
Lemma delegated_split st0 s :
  sys_inv st0 s →
  (λ x, _taskContext x.2) <$> s_delegated s ≡ₚ outstanding s ++ notified (w_trace (s_world s)).
Proof.
  intros [_ (tr & fin & [Hd _ He _ _ Ht _]) _]. unfold outstanding. rewrite Hd, !fmap_app.
  assert ((λ x : mpi_call * Ticket, _taskContext x.2) <$> (tr_op <$> tr) ≡ₚ
    ((λ x, _taskContext x.2) <$> m_inflight (s_manager s)) ++ delivered (s_world s)) as ->.
  { rewrite Ht.
    assert ((λ x : mpi_call * Ticket, _taskContext x.2) <$> (tr_op <$> tr) =
      (λ x : request * Ticket, _taskContext x.2) <$> (tr_entry <$> tr)) as ->.
    { by rewrite <-!list_fmap_compose. }
    rewrite He, fmap_app. apply Permutation_app_head.
    unfold fin_context. by rewrite <-list_fmap_compose. }
  unfold delivered. solve_Permutation.
Qed.

(** C1: in every run of the library, from initialisation, with any interleaving
    of tasks, polling and the completion task, every operation that a task
    delegated is in exactly one place: being pushed, in a pre-queue, in flight
    (its request paired with its own ticket) or finished. MPI was given exactly
    the calls of the operations that left the queues, in that order; an
    operation is finished only when MPI reported its request, or had completed
    it when it was issued; its status, if wanted, was written where the task
    asked; and exactly the tasks of finished operations were told. Requests are
    tested with MPI_Test or MPI_Testany, for every MPI library, or with
    MPI_Testsome, the default, for a library that returns its indices in
    ascending order, which the MPI standard does not promise. *)
Theorem run_accounts_for_operations m0 w0 s :
  orderly (_generalTesting m0) → fresh_manager m0 → fresh_world w0 → rtc sys_step (mkSystem m0 w0 [] [] [] []) s →
  ∃ tr fin, history (w_status w0) (s_manager s) (s_world s)
    (transit (s_world s) (s_pp s) (s_pc s)) (s_delegated s) tr fin.
Proof. intros Ho Hm Hw Hr. by apply (run_inv _ _ _ Hr (fresh_inv _ _ Ho Hm Hw)). Qed.

(** In every run, the events that non-blocking operations bound to their
    tasks are balanced: each was fulfilled exactly once, or belongs to an
    operation that is still outstanding.  So the counter of a task reaches
    zero exactly when all its operations have completed. *)
Theorem event_counters_balance m0 w0 s :
  orderly (_generalTesting m0) → fresh_manager m0 → fresh_world w0 → rtc sys_step (mkSystem m0 w0 [] [] [] []) s →
  bound (w_trace (s_world s)) ≡ₚ
    filter (λ c, _blocking c = false) (outstanding s ++ notified (w_trace (s_world s))).
Proof.
  intros Ho Hm Hw Hr. pose proof (run_inv _ _ _ Hr (fresh_inv _ _ Ho Hm Hw)) as Hi.
  rewrite (si_bound _ _ Hi). unfold nonblocking. by rewrite (delegated_split _ _ Hi).
Qed.

(** In every run a task is notified at most once for each operation it
    delegated, never for another task's operation. *)
Theorem no_spurious_notification m0 w0 s :
  orderly (_generalTesting m0) → fresh_manager m0 → fresh_world w0 → rtc sys_step (mkSystem m0 w0 [] [] [] []) s →
  notified (w_trace (s_world s)) ⊆+ (λ x, _taskContext x.2) <$> s_delegated s.
Proof.
  intros Ho Hm Hw Hr. pose proof (run_inv _ _ _ Hr (fresh_inv _ _ Ho Hm Hw)) as Hi.
  rewrite (delegated_split _ _ Hi). apply submseteq_inserts_l. done.
Qed.

(** C6: a poll reaches no undefined state: no assertion fails, no uninitialised
    or freed memory is read, no loop runs forever. If it returns, it kept the
    manager's invariant; the operations [tr] left the pre-queues and were
    issued, the operations [fin] were finished with their statuses and
    notifications, and the requests in flight are those before and those of [tr]
    without those of [fin], each with its own ticket. It returns when neither MPI
    nor the runtime reports an error and the queue of the completion manager, if
    it is used, has room. Requests are tested with
    MPI_Test or MPI_Testany, for every MPI library, or with MPI_Testsome, the
    default, for a library that returns its indices in ascending order, which
    the MPI standard does not promise. *)
Theorem poll_exactly_once pp pc now m w :
  manager_inv pp pc m w →
  post True (λ '(n, k, m', w'), ∃ tr fin, poll_result (pp:=pp) (pc:=pc) m w n k m' w' tr fin)
    (checkRequests now m w) ∧
  (reliable (unfinished m) w → is_ok (checkRequests now m w) = true).
Proof.
  intros Hi. split; [apply checkRequests_post; [by left|done]|]. intros Hr.
  destruct (post_False_Ok _ _ (checkRequests_post (pp:=pp) (pc:=pc) False now m w (or_intror Hr) Hi)) as (x & -> & _).
  done.
Qed.

(** When neither MPI nor the runtime reports an error and the queue of the
    completion manager, if it is used, has room for the operations that are not
    finished, a poll that runs alone returns, and then either no operation is
    left in the pre-queues or as many requests are in flight as the capacity
    allowed. *)
Theorem poll_returns pp pc now m w :
  reliable (unfinished m) w → manager_inv pp pc m w →
  ∃ n k m' w', checkRequests now m w = Ok (n, k, m', w') ∧
    k = length (m_inflight m') ∧ k ≤ get (_capacityCtrl m) ∧
    (queued m' w' = [] ∨ k = get (_capacityCtrl m)).
Proof.
  intros Hr Hi. unfold checkRequests.
  destruct (post_False_Ok _ _ (check_loop_post False (S (workload m)) 0 m w (or_intror Hr) Hi
    ltac:(lia))) as ([[n m1] w1] & -> & tr & fin & [Hi1 [_ _ _ Hc _] _] & _ & _ & Hd).
  eexists _, _, _, _. split; [done|]. simpl. rewrite <-Hc. split_and!.
  - symmetry. apply inflight_length, Hi1.
  - apply Hi1.
  - destruct Hd as [Hd|Hd]; [by left|by right].
Qed.

End claims.

Section startup.
Context `{SpscLib, !SpscLaws, AlpiLib, MpiLib}.

(** The objects that start-up constructs, the ticket manager with its two
    pre-queues and the two allocators, form an initial state of the runs
    above, whatever the environment variables, as long as their construction
    does not stop the program; and the approach to general testing is one
    that tests. *)
Theorem startup_is_fresh {B : Build} e qcap ncpus ff mp bf n1 n2 size st enabled
    (p2p : MultiLockFreeQueue ptr) a1 a2 m :
  MultiQueue.new qcap ncpus ff = Ok p2p → Obj.new n1 ncpus = Ok a1 → Obj.new n2 ncpus = Ok a2 →
  newManager e p2p (Boost.new (A:=ptr) mp bf) = Ok m →
  0 < qcap → (Z.of_nat qcap < u64_modulus)%Z → 0 < ncpus →
  fresh_manager m ∧ fresh_world (mkWorld [] st ∅ ∅ a1 a2 enabled (spsc_new size)) ∧
  _generalTesting m ≠ None_.
Proof.
  intros Hq Ha1 Ha2 Hm Hc1 Hc2 Hn.
  assert (ncpus ≤ MultiQueue.MaxQueues) as Hmax.
  { unfold MultiQueue.new in Hq. destruct (Nat.ltb_spec MultiQueue.MaxQueues ncpus); [done|lia]. }
  destruct (MultiQueue.new_inv (A:=ptr) qcap ncpus ff Hc1 Hc2 ltac:(lia)) as (q & Hq' & Hi & He & _).
  rewrite Hq in Hq'. simplify_eq.
  assert (∀ n a, Obj.new n ncpus = Ok a → Obj.inv [] a) as Hobj.
  { intros n a Ha. destruct (Obj.new_spec n ncpus) as (a' & Ha' & Hinv & _); [|congruence].
    unfold Obj.new in Ha. destruct (Nat.ltb_spec Obj.MaxCaches ncpus); [done|lia]. }
  unfold newManager in Hm. repeat (apply bind_Ok in Hm as (? & ? & Hm)). simplify_eq.
  split_and!.
  - split; simpl; [by eapply newCtrl_ok|done|done|]. split; [done|]. apply spsc_new_spec.
  - split; simpl; [done|apply spsc_new_spec|by eapply Hobj..].
  - simpl. intros ->. done.
Qed.
End startup.

(** ** Evaluations *)

Section evaluations.
Import ListSpsc.

Lemma run_accounts_for_operations_witness :
  ∃ tr fin, history ∅ (s_manager demo_final) (s_world demo_final)
    (transit (s_world demo_final) [] []) (s_delegated demo_final) tr fin ∧
    length fin = 1 ∧ length tr = 1.
Proof.
  destruct (run_accounts_for_operations _ _ _ (demo_orderly _) demo_fresh_manager demo_fresh_world demo_run)
    as (tr & fin & Hh).
  exists tr, fin. split; [exact Hh|]. destruct Hh as [_ Hi _ _ Hr Ht _]. split.
  - apply Permutation_length in Ht. rewrite length_fmap in Ht. rewrite <-Ht. by vm_compute.
  - apply (f_equal length) in Hi. rewrite length_fmap in Hi. rewrite <-Hi. by vm_compute.
Defined.

Lemma event_counters_balance_witness :
  bound (w_trace (s_world demo_final)) = [mkContext false 7] ∧
  bound (w_trace (s_world demo_final)) ≡ₚ
    filter (λ c, _blocking c = false)
      (outstanding demo_final ++ notified (w_trace (s_world demo_final))).
Proof.
  split; [by vm_compute|].
  exact (event_counters_balance _ _ _ (demo_orderly _) demo_fresh_manager demo_fresh_world demo_run).
Defined.

Lemma no_spurious_notification_witness :
  notified (w_trace (s_world demo_final)) = [mkContext false 7] ∧
  notified (w_trace (s_world demo_final)) ⊆+
    (λ x, _taskContext x.2) <$> s_delegated demo_final.
Proof.
  split; [by vm_compute|].
  exact (no_spurious_notification _ _ _ (demo_orderly _) demo_fresh_manager demo_fresh_world demo_run).
Defined.

Lemma demo_begun_reliable n : reliable n demo_begun.2.
Proof. split_and!; [apply demo_mpi_ok|apply demo_alpi_ok|left; by vm_compute]. Qed.

Lemma poll_exactly_once_witness :
  post True (λ '(n, k, m', w'), ∃ tr fin,
      poll_result (pp:=[]) (pc:=[]) demo_pushed.2 demo_begun.2 n k m' w' tr fin)
    (checkRequests 0 demo_pushed.2 demo_begun.2) ∧
  is_ok (checkRequests 0 demo_pushed.2 demo_begun.2) = true.
Proof.
  destruct (poll_exactly_once [] [] 0 _ _ demo_queued_inv) as [Hp Hok].
  split; [exact Hp|exact (Hok (demo_begun_reliable _))].
Defined.

Lemma poll_returns_witness :
  queued demo_pushed.2 demo_begun.2 ≠ [] ∧
  ∃ n k m' w', checkRequests 0 demo_pushed.2 demo_begun.2 = Ok (n, k, m', w') ∧
    k = length (m_inflight m') ∧ k ≤ get (_capacityCtrl demo_pushed.2) ∧
    (queued m' w' = [] ∨ k = get (_capacityCtrl demo_pushed.2)).
Proof.
  split; [by vm_compute|].
  exact (poll_returns [] [] 0 _ _ (demo_begun_reliable _) demo_queued_inv).
Defined.

Lemma demo_newManager (coll : Boost.BoostLockFreeQueue nat) :
  ∃ m, newManager demo_env demo_p2p coll = Ok m.
Proof. eexists. by vm_compute. Qed.

Lemma startup_is_fresh_witness : ∃ m,
  newManager demo_env demo_p2p (Boost.new true false) = Ok m ∧
  fresh_manager m ∧ fresh_world demo_world ∧ _generalTesting m ≠ None_.
Proof.
  destruct (demo_newManager (Boost.new true false)) as [m Hm]. exists m. split; [exact Hm|].
  apply (startup_is_fresh (B:=default_build) demo_env 4 2 true true false 4 4 8 ∅ false demo_p2p demo_objects
    demo_objects m); [by vm_compute..|exact Hm|lia|reflexivity|lia].
Defined.
End evaluations.
