(* ===== verification/Contract.v ===== *)
(** * The contract of the tasking interface

    [src/src/common/ALPI.hpp] documents how a library may use the tasking
    runtime: each block of a task has a matching unblock, which may come first
    but by at most one call; an event of a task may be decreased only after it
    was increased.  This file states that contract and shows that every run of
    the library keeps it, provided that tasks behave as the runtime runs them: a
    task starts an operation only while it runs, that is neither inside another
    operation nor blocked. *)

From S2P Require Import Prelude Queues MultiQueue Allocator World Interface Tickets Operations StringSupport CapacityCtrl TicketManager OperationManager ManagerProofs TransferProofs PollingProofs System Demo Claims.

(** ** The contract *)

(** The calls for a task in a trace: how often it was blocked and unblocked and
    by how much its events were increased and decreased. *)
Definition blocks (t : task_handle_t) : list event → nat := sum_list_with (λ e,
  match e with EvAlpi (TaskBlock u) => if decide (u = t) then 1 else 0 | _ => 0 end).
Definition unblocks (t : task_handle_t) : list event → nat := sum_list_with (λ e,
  match e with EvAlpi (TaskUnblock u) => if decide (u = t) then 1 else 0 | _ => 0 end).
Definition increased (t : task_handle_t) : list event → nat := sum_list_with (λ e,
  match e with
  | EvAlpi (TaskEventsIncrease u n) => if decide (u = t) then Z.to_nat n else 0 | _ => 0
  end).
Definition decreased (t : task_handle_t) : list event → nat := sum_list_with (λ e,
  match e with
  | EvAlpi (TaskEventsDecrease u n) => if decide (u = t) then Z.to_nat n else 0 | _ => 0
  end).

(** Whether the documentation allows a call after [past].  A task blocks or
    increases its events itself, so it must be running; it can be unblocked
    once ahead of the matching block; its events never fall below zero. *)
Definition call_ok (past : list event) (c : alpi_call) : Prop :=
  match c with
  | TaskBlock t => blocks t past ≤ unblocks t past
  | TaskUnblock t => unblocks t past ≤ blocks t past
  | TaskEventsIncrease t n => blocks t past ≤ unblocks t past ∧ (0 < n)%Z
  | TaskEventsDecrease t n => decreased t past + Z.to_nat n ≤ increased t past ∧ (0 < n)%Z
  end.

#[global] Instance call_ok_dec past c : Decision (call_ok past c).
Proof. destruct c; simpl; apply _. Defined.

(** Every call of the trace was allowed when it was made. *)
Definition contract (trace : list event) : Prop :=
  ∀ past c rest, trace = past ++ EvAlpi c :: rest → call_ok past c.

Lemma contract_nil : contract [].
Proof. intros past c rest H. by destruct past. Qed.

(** Extending a trace, call by call. *)
Lemma contract_app t es :
  contract t → (∀ past c rest, es = past ++ EvAlpi c :: rest → call_ok (t ++ past) c) →
  contract (t ++ es).
Proof.
  intros Ht Hes past c rest Heq. apply app_eq_inv in Heq as [(k & Hk' & Hk)|(k & -> & Hk)].
  - destruct k as [|e k].
    + rewrite app_nil_r in Hk'. rewrite <-Hk', <-(app_nil_r t). by apply (Hes [] c rest).
    + simplify_eq/=. by apply (Ht past c k).
  - by apply (Hes k c rest).
Qed.

Lemma contract_snoc t c : contract t → call_ok t c → contract (t ++ [EvAlpi c]).
Proof.
  intros Ht Hc. apply contract_app; [done|]. intros past c' rest Heq.
  destruct past as [|? []]; simplify_eq/=. by rewrite app_nil_r.
Qed.

(** ** Counting contexts *)

Definition occ (c : TaskContext) (l : list TaskContext) : nat := length (filter (λ x, x = c) l).

Lemma occ_app c l1 l2 : occ c (l1 ++ l2) = occ c l1 + occ c l2.
Proof. unfold occ. by rewrite filter_app, length_app. Qed.

Lemma occ_cons c x l : occ c (x :: l) = (if decide (x = c) then 1 else 0) + occ c l.
Proof. unfold occ. rewrite filter_cons. by case_decide. Qed.

#[global] Instance occ_perm c : Proper ((≡ₚ) ==> eq) (occ c).
Proof. intros l1 l2 Hp. unfold occ. by rewrite Hp. Qed.

Lemma occ_replicate c x n : occ c (replicate n x) = if decide (x = c) then n else 0.
Proof.
  induction n as [|n IH]; simpl; [by case_decide|]. rewrite occ_cons, IH. by case_decide.
Qed.

Lemma occ_filter_true t l : occ (mkContext false t) (filter (λ c, _blocking c = false) l) =
  occ (mkContext false t) l.
Proof.
  induction l as [|c l IH]; [done|]. rewrite filter_cons.
  case_decide as Hb; rewrite !occ_cons, ?IH; [done|]. case_decide; [by subst|done].
Qed.

(** The counts of a trace, by the contexts that its events notify and bind. *)
Lemma unblocks_notified t tr : unblocks t tr = occ (mkContext true t) (notified tr).
Proof.
  induction tr as [|e tr IH]; [done|]. unfold notified. csimpl.
  rewrite occ_app. f_equal; [|exact IH]. destruct e as [| |[u|u|u n|u n]]; simpl; try done.
  - rewrite occ_cons. by repeat case_decide; simplify_eq.
  - rewrite occ_replicate. by case_decide.
Qed.

Lemma decreased_notified t tr : decreased t tr = occ (mkContext false t) (notified tr).
Proof.
  induction tr as [|e tr IH]; [done|]. unfold notified. csimpl.
  rewrite occ_app. f_equal; [|exact IH]. destruct e as [| |[u|u|u n|u n]]; simpl; try done.
  rewrite occ_replicate. by repeat case_decide; simplify_eq.
Qed.

Lemma increased_bound t tr : increased t tr = occ (mkContext false t) (bound tr).
Proof.
  induction tr as [|e tr IH]; [done|]. unfold bound. csimpl.
  rewrite occ_app. f_equal; [|exact IH]. destruct e as [| |[u|u|u n|u n]]; simpl; try done.
  rewrite occ_replicate. by repeat case_decide; simplify_eq.
Qed.

(** ** Events of polling *)

(** What polling adds to the trace: it issues, tests and completes, and neither
    blocks a task nor binds events. *)
Definition polling_event (e : event) : Prop :=
  match e with
  | EvAlpi (TaskBlock _) | EvAlpi (TaskEventsIncrease _ _) => False
  | EvAlpi (TaskEventsDecrease _ n) => n = 1%Z
  | _ => True
  end.

Section polling_events.
Context `{SpscLib, AlpiLib, MpiLib}.
Implicit Types w : world.

Definition adds_polling w w' : Prop :=
  ∃ es, w_trace w' = w_trace w ++ es ∧ Forall polling_event es.

#[export] Instance adds_polling_preorder : PreOrder adds_polling.
Proof.
  split.
  - intros w. exists []. by rewrite app_nil_r.
  - intros w1 w2 w3 (es & E1 & F1) (es' & E2 & F2). exists (es ++ es').
    rewrite E2, E1, app_assoc. split; [done|]. by apply Forall_app.
Qed.

Lemma adds_polling_log w e : polling_event e → adds_polling w (w_log e w).
Proof. intros He. exists [e]. by repeat constructor. Qed.

Lemma adds_polling_same w w' : w_trace w' = w_trace w → adds_polling w w'.
Proof. intros Ht. exists []. by rewrite app_nil_r. Qed.

(** [polls f w m]: if [m] returns, the world [f] of its result only adds such
    events to [w]. *)
Definition polls {A} (f : A → world) (w : world) (m : outcome A) : Prop :=
  match m with Ok a => adds_polling w (f a) | _ => True end.

Lemma polls_bind {A B} (f : A → world) (g : B → world) w m (k : A → outcome B) :
  polls f w m → (∀ a, polls g (f a) (k a)) → polls g w (m ≫= k).
Proof.
  destruct m as [a| |]; [|done..]. cbn [mbind outcome_bind]. intros Ha Hk. specialize (Hk a).
  unfold polls in *. destruct (k a); [by etransitivity|done..].
Qed.

(** A step that does not touch the world. *)
Lemma polls_pure {A B} (g : B → world) w (m : outcome A) (k : A → outcome B) :
  (∀ a, polls g w (k a)) → polls g w (m ≫= k).
Proof. destruct m as [a| |]; [|done..]. intros Hk. apply Hk. Qed.
End polling_events.

(** Walks through the binds of a goal [polls g w m]. *)
Ltac polls_step :=
  match goal with
  | |- polls _ _ (Ok _) => simpl; reflexivity
  | |- polls _ _ (Fail _) => exact I
  | |- polls _ _ (Undef _) => exact I
  | |- polls _ _ (assert _ _ ≫= _) => apply polls_pure; let x := fresh "x" in intros x
  | |- polls _ _ (fail_if _ _ ≫= _) => apply polls_pure; let x := fresh "x" in intros x
  | |- polls _ _ (read _ _ ≫= _) => apply polls_pure; let x := fresh "x" in intros x
  end.

Lemma blocks_app t a b : blocks t (a ++ b) = blocks t a + blocks t b.
Proof. apply sum_list_with_app. Qed.
Lemma unblocks_app t a b : unblocks t (a ++ b) = unblocks t a + unblocks t b.
Proof. apply sum_list_with_app. Qed.
Lemma increased_app t a b : increased t (a ++ b) = increased t a + increased t b.
Proof. apply sum_list_with_app. Qed.
Lemma decreased_app t a b : decreased t (a ++ b) = decreased t a + decreased t b.
Proof. apply sum_list_with_app. Qed.

Lemma quiet_counts l t : Forall polling_event l → blocks t l = 0 ∧ increased t l = 0.
Proof.
  induction 1 as [|e l He _ [IH1 IH2]]; [done|]. simpl. rewrite IH1, IH2.
  by destruct e as [| |[]].
Qed.

Section polling_frame.
Context `{SpscLib, AlpiLib, MpiLib} {QP QC : Type} `{!OpQueue QP ptr, !OpQueue QC ptr}.
Implicit Types (w : world) (m : TicketManager QP QC).

Lemma complete_polls t w : polls id w (complete t w).
Proof.
  unfold complete, completeEvents, decreaseTaskEvents, unblockTask, alpi. polls_step.
  destruct (_blocking _); simpl; case_decide; simpl; try done; by apply adds_polling_log.
Qed.

Lemma test_polls r w : polls (λ x, x.2) w (test r w).
Proof. unfold test. polls_step. simpl. by apply adds_polling_log. Qed.

Lemma testany_polls rs w : polls (λ x, x.2) w (testany rs w).
Proof.
  unfold testany. polls_step. destruct (ta_flag _); [destruct (ta_index _)|]; simpl; try done;
    by apply adds_polling_log.
Qed.

Lemma testsome_polls rs w : polls (λ x, x.2) w (testsome rs w).
Proof.
  unfold testsome. polls_step. destruct (ts_outcount _); simpl; [by apply adds_polling_log|done].
Qed.

Lemma testany_loop_polls fuel p rs ix sts w :
  polls (λ x, x.2) w (testany_loop fuel p rs ix sts w).
Proof.
  revert p rs ix sts w. induction fuel as [|fuel IH]; intros p rs ix sts w; simpl;
    destruct (_ <=? _); simpl; try done.
  eapply polls_bind; [apply testany_polls|]. intros [[[[i|] rest] st] w']; simpl; [apply IH|done].
Qed.

Lemma test_loop_polls r done_ todo ix sts w :
  polls (λ x, x.2) w (test_loop r done_ todo ix sts w).
Proof.
  revert r done_ ix sts w. induction todo as [|req todo IH]; intros r done_ ix sts w; simpl; [done|].
  eapply polls_bind; [apply test_polls|]. intros [[[[] req'] st] w']; simpl; apply IH.
Qed.

Lemma internalTestRequests_polls approach rs w :
  polls (λ x, x.2) w (internalTestRequests approach rs w).
Proof.
  destruct approach; [apply test_loop_polls|apply testsome_polls|apply testany_loop_polls|].
  by simpl.
Qed.

Lemma save_status_polls t sts c local w : polls id w (save_status t sts c local w).
Proof.
  unfold save_status, storeStatus. destruct (ignoreStatus t); [by simpl|]. repeat polls_step.
  simpl. by apply adds_polling_same.
Qed.

Lemma finish_polls use t cs w : polls (λ x, x.2) w (finish use t cs w).
Proof.
  unfold finish. destruct use; [by simpl|]. eapply polls_bind; [apply complete_polls|].
  intros w'. by simpl.
Qed.

Lemma hand_over_polls use cs w : polls id w (hand_over use cs w).
Proof.
  unfold hand_over, transfer. destruct (_ && _); [|by simpl]. destruct (spsc_push _ _) as [n q].
  case_decide; [|done]. simpl. by apply adds_polling_same.
Qed.

Lemma complete_batch_polls use checked c ix sts a cs w :
  polls (λ x, x.2) w (complete_batch use checked c ix sts a cs w).
Proof.
  revert c cs w. induction ix as [|i ix IH]; intros c cs w; simpl; [done|].
  do 2 (apply polls_pure; intros ?). eapply polls_bind; [apply save_status_polls|]. intros w1.
  eapply polls_bind; [apply finish_polls|]. intros [cs' w2]. apply IH.
Qed.

Lemma check_batches_polls fuel use approach pending checked ix a w :
  polls (λ x, x.2) w (check_batches fuel use approach pending checked ix a w).
Proof.
  revert checked ix a w. induction fuel as [|fuel IH]; intros checked ix a w; simpl; [done|].
  polls_step. eapply polls_bind; [apply internalTestRequests_polls|]. intros [[[ix' rs] sts] w1].
  eapply polls_bind; [apply complete_batch_polls|]. intros [cs w2].
  eapply polls_bind; [apply hand_over_polls|]. intros w3. destruct (_ <? _); [apply IH|by simpl].
Qed.

Lemma internalCheckRequests_polls m w : polls (λ x, x.2) w (internalCheckRequests m w).
Proof.
  unfold internalCheckRequests. polls_step. eapply polls_bind; [apply check_batches_polls|].
  intros [[ix a] w1]. apply polls_pure. intros ?. by simpl.
Qed.

Section transfer_frame.
Context `{!OpType Op, !OpTypeLaws Op}.

Lemma op_issue_polls (o : Op) w : polls (λ x, x.2) w (op_issue o w).
Proof.
  unfold op_issue, issue_call. apply polls_pure. intros c. destruct (mpi_issue _ c) as [err r].
  polls_step. simpl. by apply adds_polling_log.
Qed.

Lemma issue_loop_polls e ops ts rs r2e ce w :
  polls (λ x, x.2) w (issue_loop (Op:=Op) e ops ts rs r2e ce w).
Proof.
  revert e ts rs r2e ce w. induction ops as [|p ops IH]; intros e ts rs r2e ce w; simpl; [done|].
  do 2 (apply polls_pure; intros ?). eapply polls_bind; [apply op_issue_polls|]. intros [r w1].
  case_bool_decide; apply IH.
Qed.

Lemma filter_loop_polls c ix sts ts r2e ce w :
  polls (λ x, x.2) w (filter_loop c ix sts ts r2e ce w).
Proof.
  revert c r2e ce w. induction ix as [|i ix IH]; intros c r2e ce w; simpl; [done|].
  do 2 (apply polls_pure; intros ?). eapply polls_bind; [apply save_status_polls|]. intros w1.
  apply IH.
Qed.

Lemma finish_loop_polls use ts ce cs w : polls (λ x, x.2) w (finish_loop use ts ce cs w).
Proof.
  revert cs w. induction ce as [|e ce IH]; intros cs w; simpl; [done|]. polls_step.
  eapply polls_bind; [apply finish_polls|]. intros [cs' w1]. apply IH.
Qed.

Lemma transferOperations_polls ops m w :
  polls (λ x, x.2) w (transferOperations (Op:=Op) ops m w).
Proof.
  unfold transferOperations. do 2 polls_step.
  eapply (polls_bind (λ x, x.2)).
  { unfold start_operations. eapply polls_bind; [apply issue_loop_polls|].
    intros [[[[ts rs] r2e] ce] w1]. eapply (polls_bind (λ x, x.2)).
    { destruct (_ <? _); [apply internalTestRequests_polls|by simpl]. }
    intros [[[ix rs'] sts] w2]. eapply polls_bind; [apply filter_loop_polls|].
    intros [[r2e' ce'] w3]. eapply polls_bind; [apply finish_loop_polls|]. intros [cs w4].
    eapply polls_bind; [apply hand_over_polls|]. intros w5. by simpl. }
  intros [[[ts rs] r2e] w1]. apply polls_pure. intros [pending a].
  eapply (polls_bind id); [|intros w2; by simpl].
  unfold op_free. apply polls_pure. intros a'. simpl. apply adds_polling_same, op_trace_set.
Qed.

Lemma take_operations_polls {Q} `{!OpQueue Q ptr} n (q : Q) set_queue m w :
  polls (λ x, x.2) w (take_operations (Op:=Op) n q set_queue m w).
Proof.
  unfold take_operations. apply polls_pure. intros [ops q']. eapply (polls_bind (λ x, x.2)).
  - destruct (_ <? _); [apply transferOperations_polls|by simpl].
  - intros [m' w']. by simpl.
Qed.
End transfer_frame.

Lemma check_queues_polls fuel n ntotal m w : polls (λ x, x.2) w (check_queues fuel n ntotal m w).
Proof.
  revert ntotal m w. induction fuel as [|fuel IH]; intros ntotal m w; simpl; [done|].
  eapply polls_bind; [apply (take_operations_polls (Op:=Operation))|]. intros [[np m1] w1].
  eapply polls_bind; [apply (take_operations_polls (Op:=CollOperation))|]. intros [[nc m2] w2].
  destruct (_ && _); [apply IH|by simpl].
Qed.

Lemma check_loop_polls fuel n m w : polls (λ x, x.2) w (check_loop fuel n m w).
Proof.
  revert n m w. induction fuel as [|fuel IH]; intros n m w; simpl; [done|].
  eapply (polls_bind (λ x, x.2)).
  { destruct (_ <? _); [apply check_queues_polls|by simpl]. }
  intros [[ins m1] w1]. eapply (polls_bind (λ x, x.2)).
  { destruct (_ <? _); [apply internalCheckRequests_polls|by simpl]. }
  intros [[compl m2] w2]. destruct (_ || _); [apply IH|by simpl].
Qed.

(** A poll and the completion task only add such events. *)
Lemma checkRequests_polls now m w n k m' w' :
  checkRequests now m w = Ok (n, k, m', w') → adds_polling w w'.
Proof.
  intros Hc. unfold checkRequests in Hc. apply bind_Ok in Hc as ([[n1 m1] w1] & Hl & Hc).
  simplify_eq. pose proof (check_loop_polls (S (workload m)) 0 m w) as Hp. by rewrite Hl in Hp.
Qed.

Lemma poll_part_polls m w m' w' : poll_part m w m' w' → adds_polling w w'.
Proof.
  intros [n k m1 w1 _ Ht|n k m1 w1 _ Ht|n m1 w1 _ Hc|pending completed now].
  - pose proof (take_operations_polls (Op:=Operation) n (_p2pOperations m) set_p2p m w) as Hp.
    unfold take_p2p in Ht. by rewrite Ht in Hp.
  - pose proof (take_operations_polls (Op:=CollOperation) n (_collOperations m) set_coll m w) as Hp.
    unfold take_coll in Ht. by rewrite Ht in Hp.
  - pose proof (internalCheckRequests_polls m w) as Hp. by rewrite Hc in Hp.
  - by apply adds_polling_same.
Qed.

Lemma process_polls w n w' : process w = Ok (n, w') → adds_polling w w'.
Proof.
  unfold process. destruct (_ =? 0); [by intros [= _ <-]; apply adds_polling_same|]. destruct (spsc_pop _ _) as [cs q].
  intros Hp. apply bind_Ok in Hp as (w1 & Hc & Hp). simplify_eq.
  assert (∀ l w, polls id w (consume_all l w)) as Hall.
  { induction l as [|c l IH]; intros w2; simpl; [done|]. eapply polls_bind; [|intros w3; apply IH].
    apply (complete_polls (mkTicket c 0)). }
  specialize (Hall cs (w_set_queue q w)). by rewrite Hc in Hall.
Qed.
End polling_frame.

(** ** Tasks that run one operation at a time *)

Section discipline.
Context `{SpscLib, !SpscLaws, AlpiLib, MpiLib, !MpiLaws}.
Context {QP QC : Type} `{!OpQueue QP ptr, !OpQueueLaws QP ptr, !OpQueue QC ptr, !OpQueueLaws QC ptr}.
Implicit Types (w : world) (m : TicketManager QP QC) (s : system QP QC).

(** The contexts of the tasks that are inside an operation. *)
Definition inside s : list TaskContext := (s_pp s).*2 ++ (s_pc s).*2 ++ s_blocking s.

(** A task runs while it is not inside an operation and every block of it has
    been matched. *)
Definition running (t : task_handle_t) s : Prop :=
  blocks t (w_trace (s_world s)) ≤ unblocks t (w_trace (s_world s)) ∧
  ∀ c, c ∈ inside s → _taskHandle c ≠ t.

(** A step in which only running tasks start operations. *)
Definition task_step s s' : Prop :=
  sys_step s s' ∧
  ∀ x, s_delegated s' = s_delegated s ++ [x] → running (_taskHandle (_taskContext x.2)) s.

Lemma task_step_sys s s' : rtc task_step s s' → rtc sys_step s s'.
Proof. induction 1 as [|s1 s2 s3 [Hs _] _ IH]; [done|]. by eapply rtc_l. Qed.

(** A task is inside at most one blocking operation, has blocked for all others
    it delegated, and has been told of all but at most one of them. *)
Definition contexts s : list TaskContext := (λ x, _taskContext x.2) <$> s_delegated s.

Record tasks_inv s : Prop := {
  ti_once t : occ (mkContext true t) (inside s) ≤ 1;
  ti_blocks t : occ (mkContext true t) (contexts s) =
    occ (mkContext true t) (inside s) + blocks t (w_trace (s_world s));
  ti_told t : occ (mkContext true t) (contexts s) ≤ unblocks t (w_trace (s_world s)) + 1;
  ti_contract : contract (w_trace (s_world s));
}.

(** No task is told more often than it delegated. *)
Lemma told_bound st0 s t :
  sys_inv st0 s →
  unblocks t (w_trace (s_world s)) ≤ occ (mkContext true t) (contexts s) ∧
  decreased t (w_trace (s_world s)) ≤ increased t (w_trace (s_world s)).
Proof.
  intros Hi. pose proof (delegated_split _ _ Hi) as Hd.
  assert (occ (mkContext false t) (contexts s) = increased t (w_trace (s_world s))) as Hf.
  { rewrite increased_bound, (si_bound _ _ Hi). unfold nonblocking. by rewrite occ_filter_true. }
  rewrite <-Hf, unblocks_notified, decreased_notified. unfold contexts. rewrite Hd, !occ_app. lia.
Qed.

(** Polling keeps the contract. *)
Lemma polling_call_ok past c rest tr :
  Forall polling_event (past ++ EvAlpi c :: rest) →
  (∀ t, unblocks t (tr ++ past ++ EvAlpi c :: rest) ≤ 1 + blocks t tr) →
  (∀ t, decreased t (tr ++ past ++ EvAlpi c :: rest) ≤
        increased t (tr ++ past ++ EvAlpi c :: rest)) →
  call_ok (tr ++ past) c.
Proof.
  intros Hall HU HD. pose proof Hall as [Hp [He _]%Forall_cons]%Forall_app.
  destruct c as [t|t|t n|t n]; simpl in *; try done; specialize (HU t); specialize (HD t).
  - rewrite unblocks_app, blocks_app, (proj1 (quiet_counts past t Hp)).
    rewrite !unblocks_app in HU. simpl in HU. rewrite decide_True in HU by done. lia.
  - subst n. rewrite decreased_app, increased_app, (proj2 (quiet_counts past t Hp)).
    rewrite increased_app, (proj2 (quiet_counts _ t Hall)), !decreased_app in HD.
    simpl in HD. rewrite decide_True in HD by done. lia.
Qed.

Lemma polling_tasks_inv st0 m m' w w' pp pc bl d :
  adds_polling w w' → sys_inv st0 (mkSystem m' w' pp pc bl d) →
  tasks_inv (mkSystem m w pp pc bl d) → tasks_inv (mkSystem m' w' pp pc bl d).
Proof.
  intros (es & Hes & Hpoll) Hi' [Honce Hbl Htold Hcon]. unfold inside, contexts in *. simpl in *.
  assert (∀ t, unblocks t (w_trace w ++ es) ≤ 1 + blocks t (w_trace w) ∧
    decreased t (w_trace w ++ es) ≤ increased t (w_trace w ++ es)) as Hbound.
  { intros t. destruct (told_bound _ _ t Hi') as [HU HD]. unfold contexts in HU. simpl in HU, HD.
    rewrite Hes in HU, HD. specialize (Honce t). specialize (Hbl t). lia. }
  split; unfold inside, contexts; simpl; rewrite ?Hes.
  - done.
  - intros t. rewrite blocks_app, (proj1 (quiet_counts es t Hpoll)), Nat.add_0_r. apply Hbl.
  - intros t. rewrite unblocks_app. specialize (Htold t). lia.
  - apply contract_app; [done|]. intros past c rest ->.
    by eapply polling_call_ok; [done|..]; intros t; apply Hbound.
Qed.

(** ** Starting an operation *)

Lemma begin_trace `{!OpType Op, !OpTypeLaws Op} cpu nature task (make : task_handle_t → Op) w c p w' :
  begin_operation cpu nature task make w = Ok (c, p, w') →
  _taskHandle c = task ∧
  w_trace w' = w_trace w ++
    (if _blocking c then [] else [EvAlpi (TaskEventsIncrease task 1)]).
Proof.
  intros Hb. unfold begin_operation, newContext, bindEvents, increaseCurrentTaskEvents, alpi in Hb.
  destruct (negb _); [|done]. simpl in Hb. apply bind_Ok in Hb as (w1 & Hw1 & Hb).
  apply bind_Ok in Hb as ([p' w2] & Hn & Hb). simplify_eq. split; [done|].
  unfold op_new in Hn. apply bind_Ok in Hn as ([p' a] & _ & Hn). simplify_eq.
  rewrite op_trace_set. destruct nature; simpl in *; [by simplify_eq; rewrite app_nil_r|].
  by case_decide; simplify_eq.
Qed.

Lemma occ_inside_other t s : running t s → occ (mkContext true t) (inside s) = 0.
Proof.
  intros [_ Hr]. induction (inside s) as [|c l IH]; [done|]. rewrite occ_cons.
  rewrite decide_False, IH; [done| |]; [set_solver|]. intros ->. by apply (Hr (mkContext true t)); [set_solver|].
Qed.

(** A running task enters an operation. *)
Lemma begin_tasks_inv m w w' pp pc pp' pc' bl d c x :
  pp'.*2 ++ pc'.*2 ≡ₚ c :: pp.*2 ++ pc.*2 → _taskContext x.2 = c →
  w_trace w' = w_trace w ++
    (if _blocking c then [] else [EvAlpi (TaskEventsIncrease (_taskHandle c) 1)]) →
  running (_taskHandle c) (mkSystem m w pp pc bl d) →
  tasks_inv (mkSystem m w pp pc bl d) → tasks_inv (mkSystem m w' pp' pc' bl (d ++ [x])).
Proof.
  intros Hin Hx Htr Hrun [Honce Hbl Htold Hcon].
  pose proof (occ_inside_other _ _ Hrun) as Hz. destruct Hrun as [Hrun _]. simpl in *.
  assert (∀ t, occ (mkContext true t) (inside (mkSystem m w' pp' pc' bl (d ++ [x]))) =
    occ (mkContext true t) [c] + occ (mkContext true t) (inside (mkSystem m w pp pc bl d))) as Hins.
  { intros t. unfold inside. simpl. rewrite !app_assoc, (occ_app _ (pp'.*2 ++ _)), Hin.
    rewrite !occ_cons, !occ_app. change (occ (mkContext true t) []) with 0. lia. }
  assert (∀ t, occ (mkContext true t) (contexts (mkSystem m w' pp' pc' bl (d ++ [x]))) =
    occ (mkContext true t) (contexts (mkSystem m w pp pc bl d)) + occ (mkContext true t) [c]) as Hctx.
  { intros t. unfold contexts. simpl. rewrite fmap_app, occ_app. csimpl. by rewrite Hx. }
  assert (∀ t, blocks t (w_trace w') = blocks t (w_trace w) ∧
    unblocks t (w_trace w') = unblocks t (w_trace w)) as Hcnt.
  { intros t. rewrite Htr. unfold blocks, unblocks. rewrite !sum_list_with_app.
    destruct (_blocking c); simpl; lia. }
  split; simpl.
  - intros t. rewrite Hins, occ_cons. case_decide as Hc; [|simpl; apply Honce].
    rewrite Hc in Hz. simpl in Hz. rewrite Hz. done.
  - intros t. rewrite Hins, Hctx, Hbl, (proj1 (Hcnt t)). simpl. lia.
  - intros t. rewrite Hctx, (proj2 (Hcnt t)), occ_cons. case_decide as Hc; [|simpl; rewrite Nat.add_0_r; apply Htold].
    rewrite Hc in Hz, Hrun. simpl in Hz, Hrun. rewrite Hbl, Hz. change (occ _ []) with 0. simpl. lia.
  - rewrite Htr. destruct (_blocking c); [by rewrite app_nil_r|]. by apply contract_snoc.
Qed.

(** ** Pushing and blocking *)

Lemma occ_enter_wait t c l :
  occ (mkContext true t) (enter_wait c l) = occ (mkContext true t) [c] + occ (mkContext true t) l.
Proof.
  unfold enter_wait. destruct c as [[] u]; cbn [_blocking]; rewrite !occ_cons;
    change (occ (mkContext true t) []) with 0; [lia|]. by rewrite decide_False.
Qed.

(** A step that keeps the world and moves contexts between the places inside. *)
Lemma move_tasks_inv m m' w pp pp' pc pc' bl bl' d :
  (∀ t, occ (mkContext true t) (pp'.*2 ++ pc'.*2 ++ bl') =
        occ (mkContext true t) (pp.*2 ++ pc.*2 ++ bl)) →
  tasks_inv (mkSystem m w pp pc bl d) → tasks_inv (mkSystem m' w pp' pc' bl' d).
Proof.
  intros Hin [Honce Hbl Htold Hcon]. unfold inside in *. simpl in *.
  split; unfold inside; simpl; [|..|done]; intros t; rewrite ?Hin; auto.
Qed.

Lemma block_tasks_inv m w w' pp pc bl1 bl2 d c :
  end_operation c w = Ok w' →
  tasks_inv (mkSystem m w pp pc (bl1 ++ c :: bl2) d) →
  tasks_inv (mkSystem m w' pp pc (bl1 ++ bl2) d).
Proof.
  intros He Hi. unfold end_operation, waitEventsCompletion, blockCurrentTask, alpi in He.
  destruct c as [[] u]; simpl in He; [case_decide|]; simplify_eq.
  2:{ eapply move_tasks_inv; [|exact Hi]. intros t. rewrite !occ_app, occ_cons.
      rewrite decide_False by done. lia. }
  destruct Hi as [Honce Hbl Htold Hcon]. unfold inside in *. simpl in *.
  assert (∀ t, occ (mkContext true t) (pp.*2 ++ pc.*2 ++ bl1 ++ mkContext true u :: bl2) =
    (if decide (u = t) then 1 else 0) + occ (mkContext true t) (pp.*2 ++ pc.*2 ++ bl1 ++ bl2)) as Hin.
  { intros t. rewrite !occ_app, occ_cons. repeat case_decide; simplify_eq; lia. }
  assert (∀ t, blocks t (w_trace w ++ [EvAlpi (TaskBlock u)]) =
    blocks t (w_trace w) + if decide (u = t) then 1 else 0) as Hb.
  { intros t. unfold blocks. rewrite sum_list_with_app. simpl. lia. }
  assert (∀ t, unblocks t (w_trace w ++ [EvAlpi (TaskBlock u)]) = unblocks t (w_trace w)) as Hu.
  { intros t. unfold unblocks. rewrite sum_list_with_app. simpl. lia. }
  split; unfold inside; cbn [s_pp s_pc s_blocking s_world w_log w_trace].
  - intros t. specialize (Honce t). rewrite Hin in Honce. lia.
  - intros t. specialize (Hbl t). rewrite Hin in Hbl. rewrite Hb. unfold contexts in *. simpl in *. lia.
  - intros t. rewrite Hu. apply Htold.
  - apply contract_snoc; [done|]. simpl. specialize (Hbl u). specialize (Htold u).
    rewrite Hin, decide_True in Hbl by done. unfold contexts in *. simpl in *. lia.
Qed.

(** ** Every step *)

Lemma tasks_inv_step st0 s s' :
  task_step s s' → sys_inv st0 s → tasks_inv s → tasks_inv s'.
Proof.
  intros [Hstep Hrun] Hi Ht. pose proof (step_inv st0 s s' Hstep Hi) as Hi'.
  destruct Hstep as [m w pp pc bl d cpu nature task make c p w' x Hcpu Hok Hx Hb Hc
    |m w pp pc bl d cpu nature task make c p w' x Hcpu Hok Hx Hb Hc
    |m w pp1 pp2 pc bl d cpu p c m' Hcpu Ha|m w pp pc1 pc2 bl d cpu p c m' Hcpu Ha
    |m w pp pc bl d cpu p m' Hcpu Ha|m w pp pc bl d cpu p m' Hcpu Ha
    |m w pp pc bl1 bl2 d c w' He|m w pp pc bl d now n k m' w' Hp|m w pp pc bl d m' w' Hp|m w pp pc bl d n w' Hp].
  - apply begin_trace in Hb as [Hh Htr]. specialize (Hrun x eq_refl). rewrite Hc in Hrun.
    eapply begin_tasks_inv; [|exact Hc|by rewrite Hh|exact Hrun|exact Ht]. done.
  - apply begin_trace in Hb as [Hh Htr]. specialize (Hrun x eq_refl). rewrite Hc in Hrun.
    eapply begin_tasks_inv; [|exact Hc|by rewrite Hh|exact Hrun|exact Ht]. csimpl. solve_Permutation.
  - eapply move_tasks_inv; [|exact Ht]. intros t. rewrite !fmap_app, !occ_app, occ_enter_wait. csimpl.
    rewrite !occ_cons. change (occ _ []) with 0. lia.
  - eapply move_tasks_inv; [|exact Ht]. intros t. rewrite !fmap_app, !occ_app, occ_enter_wait. csimpl.
    rewrite !occ_cons. change (occ _ []) with 0. lia.
  - by eapply move_tasks_inv; [|exact Ht].
  - by eapply move_tasks_inv; [|exact Ht].
  - by eapply block_tasks_inv.
  - eapply polling_tasks_inv; [exact (checkRequests_polls _ _ _ _ _ _ _ Hp)|exact Hi'|exact Ht].
  - eapply polling_tasks_inv; [exact (poll_part_polls _ _ _ _ Hp)|exact Hi'|exact Ht].
  - eapply polling_tasks_inv; [exact (process_polls _ _ _ Hp)|exact Hi'|exact Ht].
Qed.

Lemma tasks_inv_run st0 s s' :
  rtc task_step s s' → sys_inv st0 s → tasks_inv s → tasks_inv s'.
Proof.
  induction 1 as [|s1 s2 s3 Hs _ IH]; [done|]. intros Hi Ht. apply IH.
  - by apply (step_inv st0 s1 s2 (proj1 Hs)).
  - by apply (tasks_inv_step st0 s1 s2).
Qed.

Lemma fresh_tasks_inv m w : fresh_world w → tasks_inv (mkSystem m w [] [] [] []).
Proof.
  intros [Htr _ _ _]. split; simpl; rewrite ?Htr; [|done| |apply contract_nil];
    intros t; unfold occ; simpl; lia.
Qed.
End discipline.

(** ** The property *)

Section contract_claim.
Context `{SpscLib, !SpscLaws, AlpiLib, MpiLib, !MpiLaws}.
Context {QP QC : Type} `{!OpQueue QP ptr, !OpQueueLaws QP ptr, !OpQueue QC ptr, !OpQueueLaws QC ptr}.

(** In every run in which tasks start operations only while they run, every
    call that the library makes into the tasking runtime was allowed by its
    documented contract when it was made: a task blocks only when all its
    previous blocks were matched, it is unblocked at most once ahead of the
    matching block, events are bound only by running tasks, and no event is
    fulfilled that was not bound. *)
Theorem runtime_contract_respected (m0 : TicketManager QP QC) w0 s :
  orderly (_generalTesting m0) → fresh_manager m0 → fresh_world w0 → rtc task_step (mkSystem m0 w0 [] [] [] []) s →
  contract (w_trace (s_world s)).
Proof.
  intros Ho Hm Hw Hr.
  apply (tasks_inv_run _ _ _ Hr (fresh_inv _ _ Ho Hm Hw) (fresh_tasks_inv _ _ Hw)).
Qed.
End contract_claim.

Section contract_witness.
Import ListSpsc.

(** Task 7 of the run of [Demo.v] runs when it starts its operation. *)
Lemma demo_task_run : rtc task_step (mkSystem demo_manager demo_world [] [] [] []) demo_final.
Proof.
  eapply rtc_l; [|eapply rtc_l; [|apply rtc_once]].
  - split.
    + apply (step_begin_p2p _ _ _ _ _ _ 0 NONBLK 7 demo_op demo_begun.1.1 demo_begun.1.2 demo_begun.2
        (Irecv 500 8 2 1 42 91, mkTicket (mkContext false 7) 200));
        [vm_compute; lia| |done|by vm_compute..].
      eexists _, _. split_and!; [done..|]. by right.
    + intros x Hx. simplify_eq/=. split; [by vm_compute; lia|]. intros c Hc. by apply elem_of_nil in Hc.
  - split.
    + apply (step_push_p2p _ _ [] [] _ _ _ 0 demo_begun.1.2 demo_begun.1.1 demo_pushed.2);
        [vm_compute; lia|by vm_compute].
    + intros x Hx. by apply (f_equal length) in Hx.
  - split.
    + apply (step_poll _ _ _ _ _ _ 0 demo_polled.1.1.1 demo_polled.1.1.2). by vm_compute.
    + intros x Hx. by apply (f_equal length) in Hx.
Qed.

Lemma runtime_contract_respected_witness :
  contract (w_trace (s_world demo_final)) ∧
  increased 7 (w_trace (s_world demo_final)) = 1 ∧ decreased 7 (w_trace (s_world demo_final)) = 1.
Proof.
  split; [|by vm_compute].
  exact (runtime_contract_respected _ _ _ (demo_orderly _) demo_fresh_manager demo_fresh_world demo_task_run).
Defined.
End contract_witness.
