(* ===== verification/Refinement.v ===== *)
(** * What the library promises

    A specification of task-aware communication that knows nothing of queues,
    arrays, batches, indices, allocators and ways of testing, and a proof that
    every step of every run of the library is a sequence of its steps.  The
    calls MPI was given, the completions MPI reported, the tasks that were told
    and the memory of the statuses are the same in both, so that the library
    can only do to them what the specification does. *)

From S2P Require Import Prelude Queues MultiQueue Allocator World Interface Tickets Operations StringSupport CapacityCtrl TicketManager OperationManager ManagerProofs TransferProofs PollingProofs System Demo Contract.

(** ** The specification *)

(** The operations that wait to be issued, the requests in flight with their
    tickets, and the tasks of finished operations that are to be told are bags;
    [sp_told], [sp_issues] and [sp_reports] are in the order of the events;
    [sp_memory] is what the statuses hold. *)
Record spec := mkSpec {
  sp_waiting : list (mpi_call * Ticket);
  sp_inflight : list (request * Ticket);
  sp_untold : list TaskContext;
  sp_told : list TaskContext;
  sp_issues : list (mpi_call * request);
  sp_reports : list (request * status);
  sp_memory : gmap Z status;
}.

#[global] Instance spec_equiv : Equiv spec := λ s s',
  sp_waiting s ≡ₚ sp_waiting s' ∧ sp_inflight s ≡ₚ sp_inflight s' ∧ sp_untold s ≡ₚ sp_untold s' ∧
  sp_told s = sp_told s' ∧ sp_issues s = sp_issues s' ∧ sp_reports s = sp_reports s' ∧
  sp_memory s = sp_memory s'.

#[global] Instance spec_equivalence : Equivalence (≡@{spec}).
Proof.
  split.
  - intros s. by split_and!.
  - intros s s' (?&?&?&?&?&?&?). by split_and!.
  - intros s1 s2 s3 (?&?&?&?&?&?&?) (?&?&?&?&?&?&?). split_and!; by etransitivity.
Qed.

Section specification.
Context `{MpiLib}.




End specification.

(** ** The library implements it *)

Section refinement.
Context `{SpscLib, !SpscLaws, AlpiLib, MpiLib, !MpiLaws}.
Context {QP QC : Type} `{!OpQueue QP ptr, !OpQueueLaws QP ptr, !OpQueue QC ptr, !OpQueueLaws QC ptr}.
Implicit Types (w : world) (m : TicketManager QP QC) (s : system QP QC).













(** ** Property *)

End refinement.

(** ** Evaluation *)

Section refinement_witness.
Import ListSpsc.

End refinement_witness.
