(* ===== verification/Interleaving.v ===== *)
(** * A poll while other threads run

    [TicketManager::checkRequests] ([src/src/common/TicketManager.hpp]) step by
    step, with its place in its loops as a value, so that between its steps
    tasks can start and push operations and the completion task can run.  Run
    alone it does what [checkRequests] of [TicketManager.v] computes; run with
    others it returns after a number of steps that the work at its start and
    the pushes made meanwhile bound. *)

From S2P Require Import Prelude Queues MultiQueue Allocator World Interface Tickets Operations StringSupport CapacityCtrl TicketManager OperationManager ManagerProofs TransferProofs PollingProofs System Demo Claims.

(** ** The steps of a poll *)

(** At the head of the loop; in [internalCheckOperationQueues], about to take
    point-to-point operations or collectives ([ntotal] of [navailable] are
    transferred, [np2p] of them in this iteration); about to check the requests
    in flight; behind the loop; returned. *)
Inductive phase :=
| Head (totalCompleted : nat)
| TakeP2P (totalCompleted navailable ntotal : nat)
| TakeColl (totalCompleted navailable ntotal np2p : nat)
| CheckInFlight (totalCompleted inserted : nat)
| EvaluateCapacity (totalCompleted : nat)
| Returned (totalCompleted pending : nat).

Section machine.
Context `{SpscLib, AlpiLib, MpiLib} {QP QC : Type} `{!OpQueue QP ptr, !OpQueue QC ptr}.
Implicit Types (w : world) (m : TicketManager QP QC) (s : system QP QC).

Definition advance (now : Z) (ph : phase) m w : outcome (phase * TicketManager QP QC * world) :=
  match ph with
  | Head total =>
      if _pending m <? get (_capacityCtrl m)
      then Ok (TakeP2P total ((get (_capacityCtrl m) - _pending m) `min` (BatchSize * 2)) 0, m, w)
      else Ok (CheckInFlight total 0, m, w)
  | TakeP2P total navailable ntotal =>
      '(np2p, m, w) ← take_p2p (navailable - ntotal) m w;
      Ok (TakeColl total navailable (ntotal + np2p) np2p, m, w)
  | TakeColl total navailable ntotal np2p =>
      '(ncoll, m, w) ← take_coll (navailable - ntotal) m w;
      let ntotal := ntotal + ncoll in
      Ok (if (ntotal <? navailable) && ((0 <? np2p) || (0 <? ncoll))
          then TakeP2P total navailable ntotal else CheckInFlight total ntotal, m, w)
  | CheckInFlight total inserted =>
      '(completed, m, w) ←
        (if 0 <? _pending m then internalCheckRequests m w else Ok (0, m, w));
      Ok (if (0 <? completed) || (0 <? inserted) then Head (total + completed)
          else EvaluateCapacity (total + completed), m, w)
  | EvaluateCapacity total =>
      let m := set_ctrl (evaluate (Z.of_nat (_pending m)) (Z.of_nat total) now (_capacityCtrl m)) m in
      Ok (Returned total (_pending m), m, w)
  | Returned _ _ => Ok (ph, m, w)
  end.

Definition returned (ph : phase) : bool := match ph with Returned _ _ => true | _ => false end.

(** What only the holder of the lock of the ticket manager accesses. *)
Definition locked m := (_generalTesting m, _immediateTesting m, _capacityCtrl m, _pending m, _arrays m).

(** A step of a thread that does not hold the lock, which pushes [j] operations:
    one, if it is the end of a push, or none. *)
Definition others_step (j : nat) s s' : Prop :=
  sys_step s s' ∧ locked (s_manager s') = locked (s_manager s) ∧
  length (queued (s_manager s') (s_world s')) = length (queued (s_manager s) (s_world s)) + j.

(** [n] steps of the poll, and steps of other threads that pushed [k] operations. *)
Inductive poll_run : nat → nat → phase → system QP QC → phase → system QP QC → Prop :=
| run_start ph s : poll_run 0 0 ph s ph s
| run_poll n k ph0 s0 ph m w pp pc bl d now ph' m' w' :
    poll_run n k ph0 s0 ph (mkSystem m w pp pc bl d) → returned ph = false →
    advance now ph m w = Ok (ph', m', w') →
    poll_run (S n) k ph0 s0 ph' (mkSystem m' w' pp pc bl d)
| run_other n k ph0 s0 ph s j s' :
    poll_run n k ph0 s0 ph s → others_step j s s' → poll_run n (k + j) ph0 s0 ph s'.

(** What a poll relies on at each place: that the operations it may still take fit
    the capacity. *)
Definition phase_ok (ph : phase) m : Prop :=
  match ph with
  | TakeP2P _ navailable ntotal =>
      ntotal ≤ navailable ∧ _pending m + (navailable - ntotal) ≤ get (_capacityCtrl m)
  | TakeColl _ navailable ntotal np2p =>
      np2p ≤ ntotal ≤ navailable ∧ _pending m + (navailable - ntotal) ≤ get (_capacityCtrl m)
  | Returned _ pending => pending = _pending m
  | _ => True
  end.

(** The steps left if nothing happens: an iteration that did something goes
    around again. *)
Definition again (n cost : nat) : nat := if 0 <? n then cost else 0.
Definition distance (ph : phase) : nat :=
  match ph with
  | Head _ => 5
  | TakeP2P _ _ ntotal => 4 + again ntotal 5
  | TakeColl _ _ ntotal np2p => 3 + again ntotal 5 + again np2p 2
  | CheckInFlight _ inserted => 2 + again inserted 5
  | EvaluateCapacity _ => 1
  | Returned _ _ => 0
  end.
End machine.

Section machine_proofs.
Context `{SpscLib, !SpscLaws, AlpiLib, MpiLib, !MpiLaws}.
Context {QP QC : Type} `{!OpQueue QP ptr, !OpQueueLaws QP ptr, !OpQueue QC ptr, !OpQueueLaws QC ptr}.
Implicit Types (w : world) (m : TicketManager QP QC) (s : system QP QC).

(** A step of a poll keeps the invariants, and comes closer to the end or uses up
    some of the work. *)
Lemma advance_post F {pp pc} now ph m w :
  F ∨ reliable (unfinished m) w → manager_inv pp pc m w → phase_ok ph m → returned ph = false →
  post F (λ '(ph', m', w'), (∃ tr fin, polled (pp:=pp) (pc:=pc) m w m' w' tr fin) ∧ phase_ok ph' m' ∧
      distance ph' + 7 * workload m' < distance ph + 7 * workload m) (advance now ph m w).
Proof.
  intros HF Hi Hok Hret. destruct ph as [total|total nav nt|total nav nt np|total ins|total|]; [..|done];
    cbn [advance phase_ok] in *.
  - assert (∃ tr fin, polled (pp:=pp) (pc:=pc) m w m w tr fin) as Hp.
    { exists [], []. by apply moves_polled, moves_refl. }
    destruct (Nat.ltb_spec (_pending m) (get (_capacityCtrl m))); simpl; (split_and!; [exact Hp|lia..]) || (split_and!; [exact Hp|done|lia]).
  - destruct Hok as [Hle Hcap]. eapply post_bind; [by apply (take_p2p_post (pp:=pp) (pc:=pc))|].
    intros [[k m'] w'] _ (tr & fin & Hm & Hf & -> & Hk & Hpend & _). simpl.
    pose proof (mstep_workload _ _ _ _ _ _ Hi (mv_inv _ _ _ _ _ _ Hm) (mv_step _ _ _ _ _ _ Hm)) as Hw.
    pose proof (ms_ctrl _ _ _ _ _ _ (mv_step _ _ _ _ _ _ Hm)) as Hc.
    split_and!; [by exists tr, fin; apply moves_polled|lia|lia|rewrite Hc; lia|].
    unfold again. repeat case_match; rewrite ?Nat.ltb_lt, ?Nat.ltb_ge in *; lia.
  - destruct Hok as [Hle Hcap]. eapply post_bind; [by apply (take_coll_post (pp:=pp) (pc:=pc))|].
    intros [[k m'] w'] _ (tr & fin & Hm & Hf & -> & Hk & Hpend & _). simpl.
    pose proof (mstep_workload _ _ _ _ _ _ Hi (mv_inv _ _ _ _ _ _ Hm) (mv_step _ _ _ _ _ _ Hm)) as Hw.
    pose proof (ms_ctrl _ _ _ _ _ _ (mv_step _ _ _ _ _ _ Hm)) as Hc.
    split; [by exists tr, fin; apply moves_polled|].
    destruct (Nat.ltb_spec (nt + length tr) nav), (Nat.ltb_spec 0 np), (Nat.ltb_spec 0 (length tr));
      cbn [andb orb phase_ok distance]; (split; [done || (split; [lia|rewrite Hc; lia])|]);
      unfold again; repeat case_match; rewrite ?Nat.ltb_lt, ?Nat.ltb_ge in *; lia.
  - eapply post_bind; [by apply (complete_post (pp:=pp) (pc:=pc))|].
    intros [[k m'] w'] _ (fin & Hm & ->). simpl.
    pose proof (mstep_workload _ _ _ _ _ _ Hi (mv_inv _ _ _ _ _ _ Hm) (mv_step _ _ _ _ _ _ Hm)) as Hw. simpl in Hw.
    split; [by exists [], fin; apply moves_polled|].
    unfold again. destruct (Nat.ltb_spec 0 (length fin)), (Nat.ltb_spec 0 ins); simpl; (split; [done|lia]).
  - split_and!; [|done|simpl; unfold workload; simpl; lia].
    eapply poll_part_polled; [exact Hi|]. apply part_evaluate.
Qed.

(** What another thread does keeps the place of the poll, and each push adds two
    steps of the work. *)
Lemma others_step_ok st0 j s s' ph :
  others_step j s s' → sys_inv st0 s → phase_ok ph (s_manager s) →
  sys_inv st0 s' ∧ phase_ok ph (s_manager s') ∧ workload (s_manager s') = workload (s_manager s) + 2 * j.
Proof.
  intros (Hs & Hl & Hq) Hi Hok. pose proof (step_inv _ _ _ Hs Hi) as Hi'.
  assert (_pending (s_manager s') = _pending (s_manager s)) as Hp by (unfold locked in Hl; congruence).
  assert (_capacityCtrl (s_manager s') = _capacityCtrl (s_manager s)) as Hc by (unfold locked in Hl; congruence).
  split_and!; [done|destruct ph; simpl in *; rewrite ?Hp, ?Hc; done|].
  rewrite (length_queued _ _ (si_manager _ _ Hi)), (length_queued _ _ (si_manager _ _ Hi')) in Hq.
  unfold workload. rewrite Hp. lia.
Qed.

(** All steps of tasks and of the completion task are such steps. *)
Lemma other_threads st0 s s' :
  sys_inv st0 s → sys_step s s' →
  (∃ j, j ≤ 1 ∧ others_step j s s') ∨
  (∃ now n k, checkRequests now (s_manager s) (s_world s) = Ok (n, k, s_manager s', s_world s')) ∨
  poll_part (s_manager s) (s_world s) (s_manager s') (s_world s').
Proof.
  intros Hi Hs. pose proof (si_manager _ _ Hi) as Hm. pose proof (si_manager _ _ (step_inv _ _ _ Hs Hi)) as Hm'.
  unfold others_step. destruct Hs as
    [m w pp pc bl d cpu nature task make c p w' x Hcpu Hok Hx Hb Hc|m w pp pc bl d cpu nature task make c p w' x Hcpu Hok Hx Hb Hc
    |m w pp1 pp2 pc bl d cpu p c m' Hq Ha|m w pp pc1 pc2 bl d cpu p c m' Hq Ha
    |m w pp pc bl d cpu p m' Hq Ha|m w pp pc bl d cpu p m' Hq Ha
    |m w pp pc bl1 bl2 d c w' He|m w pp pc bl d now n k m' w' Hc|m w pp pc bl d m' w' Hp|m w pp pc bl d n w' Hp];
    simpl in *; rewrite ?(length_queued _ _ Hm), ?(length_queued _ _ Hm').
  - left. exists 0. split_and!; [lia|by eapply step_begin_p2p|done|lia].
  - left. exists 0. split_and!; [lia|by eapply step_begin_coll|done|lia].
  - left. exists 1. destruct (add_p2p_spec _ _ _ _ _ (mi_p2p _ _ _ _ Hm) Hq Ha) as (q & -> & _ & Hp).
    split_and!; [lia|by eapply step_push_p2p|done|]. simpl. apply Permutation_length in Hp. simpl in Hp. lia.
  - left. exists 1. destruct (add_coll_spec _ _ _ _ _ (mi_coll _ _ _ _ Hm) Hq Ha) as (q & -> & _ & Hp).
    split_and!; [lia|by eapply step_push_coll|done|]. simpl. apply Permutation_length in Hp. simpl in Hp. lia.
  - left. exists 0. destruct (add_p2p_spec _ _ _ _ _ (mi_p2p _ _ _ _ Hm) Hq Ha) as (q & -> & _ & Hp).
    split_and!; [lia|by eapply step_spin_p2p|done|]. simpl. apply Permutation_length in Hp. lia.
  - left. exists 0. destruct (add_coll_spec _ _ _ _ _ (mi_coll _ _ _ _ Hm) Hq Ha) as (q & -> & _ & Hp).
    split_and!; [lia|by eapply step_spin_coll|done|]. simpl. apply Permutation_length in Hp. lia.
  - left. exists 0. split_and!; [lia|by eapply step_block|done|lia].
  - right. left. by exists now, n, k.
  - by right; right.
  - left. exists 0. split_and!; [lia|by eapply step_notify|done|lia].
Qed.

(** ** Runs *)

Lemma poll_run_ok st0 n k ph0 s0 ph s :
  poll_run n k ph0 s0 ph s → sys_inv st0 s0 → phase_ok ph0 (s_manager s0) →
  sys_inv st0 s ∧ phase_ok ph (s_manager s) ∧
  n + distance ph + 7 * workload (s_manager s) ≤ distance ph0 + 7 * workload (s_manager s0) + 14 * k.
Proof.
  intros Hr Hi Hok. induction Hr as [ph s|n k ph0 s0 ph m w pp pc bl d now ph' m' w' _ IH Hret Ha|n k ph0 s0 ph s j s' _ IH Ho].
  - split_and!; [done|done|lia].
  - destruct (IH Hi Hok) as (Hi1 & Hok1 & Hn). pose proof (si_manager _ _ Hi1) as Hm. simpl in *.
    pose proof (advance_post True now ph m w (or_introl I) Hm Hok1 Hret) as Hp. rewrite Ha in Hp.
    destruct Hp as (Hpo & Hok' & Hd). split_and!; [by eapply polled_step|done|lia].
  - destruct (IH Hi Hok) as (Hi1 & Hok1 & Hn).
    destruct (others_step_ok _ _ _ _ _ Ho Hi1 Hok1) as (Hi2 & Hok2 & Hw). split_and!; [done|done|lia].
Qed.

(** Alone, a poll does what [checkRequests] computes. *)
Lemma queues_run ph0 s0 fuel total nav nt m w pp pc bl d a n m' w' :
  poll_run a 0 ph0 s0 (TakeP2P total nav nt) (mkSystem m w pp pc bl d) →
  check_queues fuel nav nt m w = Ok (n, m', w') →
  ∃ b, poll_run b 0 ph0 s0 (CheckInFlight total n) (mkSystem m' w' pp pc bl d).
Proof.
  revert nt m w a. induction fuel as [|fuel IH]; intros nt m w a Hr Hc; [done|].
  cbn [check_queues] in Hc. apply bind_Ok in Hc as ([[k1 m1] w1] & Ht1 & Hc).
  apply bind_Ok in Hc as ([[k2 m2] w2] & Ht2 & Hc).
  assert (poll_run (S a) 0 ph0 s0 (TakeColl total nav (nt + k1) k1) (mkSystem m1 w1 pp pc bl d)) as Hr1.
  { eapply (run_poll _ _ _ _ _ _ _ _ _ _ _ 0%Z); [exact Hr|done|]. simpl. by rewrite Ht1. }
  eapply (run_poll _ _ _ _ _ _ _ _ _ _ _ 0%Z) in Hr1; [|done|simpl; by rewrite Ht2].
  destruct (_ && _); [by eapply IH|]. simplify_eq. by eexists.
Qed.

Lemma check_loop_run ph0 s0 fuel total m w pp pc bl d a n m' w' :
  poll_run a 0 ph0 s0 (Head total) (mkSystem m w pp pc bl d) →
  check_loop fuel total m w = Ok (n, m', w') →
  ∃ b, poll_run b 0 ph0 s0 (EvaluateCapacity n) (mkSystem m' w' pp pc bl d).
Proof.
  revert total m w a. induction fuel as [|fuel IH]; intros total m w a Hr Hc; [done|].
  cbn [check_loop] in Hc. apply bind_Ok in Hc as ([[ins m1] w1] & Hins & Hc).
  apply bind_Ok in Hc as ([[cm m2] w2] & Hcm & Hc).
  assert (∃ b, poll_run b 0 ph0 s0 (CheckInFlight total ins) (mkSystem m1 w1 pp pc bl d)) as [b Hb].
  { destruct (_pending m <? get (_capacityCtrl m)) eqn:Hlt.
    - eapply (run_poll _ _ _ _ _ _ _ _ _ _ _ 0%Z) in Hr; [|done|simpl; by rewrite Hlt].
      eapply queues_run; [exact Hr|exact Hins].
    - simplify_eq. eexists. eapply (run_poll _ _ _ _ _ _ _ _ _ _ _ 0%Z); [exact Hr|done|]. simpl. by rewrite Hlt. }
  eapply (run_poll _ _ _ _ _ _ _ _ _ _ _ 0%Z) in Hb; [|done|cbn [advance]; by rewrite Hcm].
  destruct (_ || _); [by eapply IH|]. simplify_eq. by eexists.
Qed.

Lemma alone_run now m w pp pc bl d n k m' w' :
  checkRequests now m w = Ok (n, k, m', w') →
  ∃ b, poll_run b 0 (Head 0) (mkSystem m w pp pc bl d) (Returned n k) (mkSystem m' w' pp pc bl d).
Proof.
  unfold checkRequests. intros Hc. apply bind_Ok in Hc as ([[n1 m1] w1] & Hl & Hc).
  eapply check_loop_run in Hl as [b Hb]; [|apply run_start]. simplify_eq.
  eexists. by eapply (run_poll _ _ _ _ _ _ _ _ _ _ _ now) in Hb.
Qed.

(** ** Property *)

(** C7: a poll returns, alone and while other threads run. Alone, when neither
    MPI nor the runtime reports an error and the queue of the completion
    manager, if it is used, has room for the operations that are not finished,
    it returns, and then no operation is left in the pre-queues or as many
    requests are in flight as the capacity allowed. With steps of other threads
    in between, in which [k] operations are pushed, it makes at most 5 + 7
    [workload] + 14 [k] steps, none of which is undefined, and as long as it has
    not returned and the same conditions hold it makes the next one; when it has
    returned, it reported the number of requests in flight. Requests are tested
    with MPI_Test or MPI_Testany, for every MPI library, or with MPI_Testsome,
    the default, for a library that returns its indices in ascending order,
    which the MPI standard does not promise. *)
Theorem poll_terminates st0 s :
  sys_inv st0 s →
  (∀ now, reliable (unfinished (s_manager s)) (s_world s) →
   ∃ n k m' w', checkRequests now (s_manager s) (s_world s) = Ok (n, k, m', w') ∧
     (∃ b, poll_run b 0 (Head 0) s (Returned n k) (mkSystem m' w' (s_pp s) (s_pc s) (s_blocking s) (s_delegated s))) ∧
     k = length (m_inflight m') ∧ k ≤ get (_capacityCtrl (s_manager s)) ∧
     (queued m' w' = [] ∨ k = get (_capacityCtrl (s_manager s)))) ∧
  ∀ n k ph s', poll_run n k (Head 0) s ph s' →
    n ≤ 5 + 7 * workload (s_manager s) + 14 * k ∧
    (returned ph = false → ∀ now,
       post True (λ _, True) (advance now ph (s_manager s') (s_world s')) ∧
       (reliable (unfinished (s_manager s')) (s_world s') →
        is_ok (advance now ph (s_manager s') (s_world s')) = true)) ∧
    (∀ total pending, ph = Returned total pending → pending = length (m_inflight (s_manager s'))).
Proof.
  intros Hi. pose proof (si_manager _ _ Hi) as Hm. split.
  - intros now Hr. destruct (poll_returns _ _ now _ _ Hr Hm) as (n & k & m' & w' & Hc & Hres).
    exists n, k, m', w'. split; [done|]. split; [|done]. destruct s. by eapply alone_run.
  - intros n k ph s' Hr. destruct (poll_run_ok st0 _ _ _ _ _ _ Hr Hi I) as (Hi' & Hok & Hn).
    pose proof (si_manager _ _ Hi') as Hm'. split_and!; [simpl in Hn; lia| |].
    + intros Hret now. split.
      * eapply post_mono; [by apply (advance_post True now ph _ _ (or_introl I) Hm')|done].
      * intros Hrel. destruct (post_False_Ok _ _ (advance_post False now ph _ _ (or_intror Hrel) Hm' Hok Hret)) as (x & -> & _).
        done.
    + intros total pending ->. simpl in Hok. rewrite Hok. symmetry. apply inflight_length, Hm'.
Qed.
End machine_proofs.

(** ** Evaluation *)

Section interleaving_witness.
Import ListSpsc.

(** The receive of [Demo.v] is allocated and not pushed. *)
Definition demo_allocated : system (MultiLockFreeQueue nat) (Boost.BoostLockFreeQueue nat) :=
  mkSystem demo_manager demo_begun.2 [(demo_begun.1.2, demo_begun.1.1)] [] []
    [(Irecv 500 8 2 1 42 91, mkTicket (mkContext false 7) 200)].

Lemma demo_allocated_run : rtc sys_step (mkSystem demo_manager demo_world [] [] [] []) demo_allocated.
Proof.
  apply rtc_once. apply (step_begin_p2p demo_manager demo_world [] [] [] [] 0 NONBLK 7 demo_op demo_begun.1.1 demo_begun.1.2 demo_begun.2
    (Irecv 500 8 2 1 42 91, mkTicket (mkContext false 7) 200)).
  - vm_compute. lia.
  - eexists _, _. split_and!; [done..|]. by right.
  - done.
  - by vm_compute.
  - by vm_compute.
Qed.

(** The next steps of a poll that no other thread interrupts. *)
Fixpoint advances (n : nat) (ph : phase) (m : demo_manager_type) (w : world) : outcome (phase * demo_manager_type * world) :=
  match n with
  | 0 => Ok (ph, m, w)
  | S n => '(ph, m, w) ← advance 0 ph m w;
           if returned ph then Ok (ph, m, w) else advances n ph m w
  end.

Lemma advances_run n a k ph0 s0 ph m w pp pc bl d ph' m' w' :
  poll_run a k ph0 s0 ph (mkSystem m w pp pc bl d) → returned ph = false → advances n ph m w = Ok (ph', m', w') →
  ∃ b, poll_run b k ph0 s0 ph' (mkSystem m' w' pp pc bl d).
Proof.
  revert a ph m w. induction n as [|n IH]; intros a ph m w Hr Hret Ha; simpl in Ha; [simplify_eq; by eexists|].
  apply bind_Ok in Ha as ([[ph1 m1] w1] & Ha1 & Ha). eapply run_poll in Hr; [|done|exact Ha1].
  destruct (returned ph1) eqn:Hret1; [simplify_eq; by eexists|by eapply IH].
Qed.

Definition demo_interrupted : outcome (phase * demo_manager_type * world) :=
  advances 20 (TakeP2P 0 1 0) demo_pushed.2 demo_begun.2.

(** A poll that has seen that there is room when the receive is pushed takes it
    and returns with its request completed. *)
Lemma poll_terminates_witness :
  ∃ n m w, poll_run n 1 (Head 0) demo_allocated (Returned 1 0) (mkSystem m w [] [] [] (s_delegated demo_final)) ∧
    notified (w_trace w) = [mkContext false 7] ∧ n ≤ 5 + 14.
Proof.
  assert (poll_run 1 0 (Head 0) demo_allocated (TakeP2P 0 1 0) demo_allocated) as Hr.
  { apply (run_poll 0 0 _ _ (Head 0) demo_manager demo_begun.2 _ _ _ _ 0%Z); [apply run_start|done|by vm_compute]. }
  apply (run_other _ _ _ _ _ _ 1 demo_queued) in Hr.
  2:{ split; [|by vm_compute]. apply (step_push_p2p _ _ [] [] _ _ _ 0 demo_begun.1.2 demo_begun.1.1 demo_pushed.2);
        [vm_compute; lia|by vm_compute]. }
  destruct demo_interrupted as [[[ph m] w]| |] eqn:Ha; [|by vm_compute in Ha..].
  destruct (advances_run _ _ _ _ _ _ _ _ _ _ _ _ _ _ _ Hr eq_refl Ha) as [n Hn].
  assert (ph = Returned 1 0 ∧ notified (w_trace w) = [mkContext false 7]) as [-> Htold].
  { clear -Ha. vm_compute in Ha. injection Ha as <- _ <-. done. }
  exists n, m, w. split; [exact Hn|]. split; [exact Htold|].
  destruct (poll_terminates ∅ demo_allocated (run_inv ∅ _ _ demo_allocated_run demo_inv)) as [_ Hb].
  destruct (Hb _ _ _ _ Hn) as [Hle _]. exact Hle.
Defined.
End interleaving_witness.
