(* ===== verification/Ordering.v ===== *)
(** * The order in which operations reach MPI

    MPI matches messages, and collectives of a communicator, by the order in
    which they are issued (the README, Q3 and Q4).  The library defers the
    operations, so this file follows them: each pre-queue keeps the operations
    of a _lane_ in order, the ring of a CPU in
    [src/src/common/util/MultiLockFreeQueue.hpp] and the whole queue in
    [src/src/common/util/BoostLockFreeQueue.hpp], and
    [src/src/common/TicketManager.hpp] issues what it pops in that order. *)

From S2P Require Import Prelude Queues MultiQueue Allocator World Interface Tickets Operations StringSupport CapacityCtrl TicketManager OperationManager ManagerProofs TransferProofs PollingProofs System Demo.

(** ** Tagged lists *)

(** What a list of elements with tags holds under one tag, in order. *)
Definition tagged {K A} `{EqDecision K} (k : K) (l : list (K * A)) : list A :=
  (filter (λ p, p.1 = k) l).*2.

Section tagged.
Context {K A : Type} `{EqDecision K}.
Implicit Types (k : K) (l : list (K * A)).

Lemma tagged_app k l1 l2 : tagged k (l1 ++ l2) = tagged k l1 ++ tagged k l2.
Proof. unfold tagged. by rewrite filter_app, fmap_app. Qed.

Lemma tagged_cons k p l :
  tagged k (p :: l) = (if decide (p.1 = k) then [p.2] else []) ++ tagged k l.
Proof. unfold tagged. rewrite filter_cons. by case_decide. Qed.

Lemma elem_of_tagged k x l : x ∈ tagged k l ↔ (k, x) ∈ l.
Proof.
  unfold tagged. rewrite list_elem_of_fmap. split.
  - intros ([k' x'] & -> & [Hk Hin]%list_elem_of_filter). simpl in *. by subst.
  - intros Hin. exists (k, x). split; [done|]. by apply list_elem_of_filter.
Qed.

Lemma tagged_constant k k' (xs : list A) :
  tagged k (pair k' <$> xs) = if decide (k' = k) then xs else [].
Proof.
  induction xs as [|x xs IH]; [by case_decide|]. csimpl. rewrite tagged_cons, IH. simpl.
  by case_decide.
Qed.
End tagged.

(** ** Queues with lanes *)

(** [q_lane q l] is what lane [l] holds, oldest first; a producer on [cpu] adds
    to the lane [q_lane_of q cpu]. *)
Class OpLanes (Q A : Type) := {
  q_lane : Q → nat → list A;
  q_lane_of : Q → nat → nat;
}.

Class OpLanesLaws (Q A : Type) `{OpQueue Q A, !OpLanes Q A} := {
  q_lane_contents (q : Q) (l : nat) (x : A) : q_inv q → x ∈ q_lane q l → x ∈ q_contents q;
  q_lane_push cpu x (q q' : Q) pushed :
    q_inv q → q_cpu q cpu → q_push cpu x q = Ok (pushed, q') →
    ∀ l, q_lane q' l =
      q_lane q l ++ (if (pushed : bool) then tagged l [(q_lane_of q cpu, x)] else []);
  q_lane_pop n (q q' : Q) vs :
    q_inv q → q_pop n q = Ok (vs, q') →
    ∃ ps : list (nat * A), ps.*2 = vs ∧ ∀ l, q_lane q l = tagged l ps ++ q_lane q' l;
}.

(** The collective pre-queue has a single lane: its producers take turns. *)
Section boost_lanes.
Context `{SpscLib, !SpscLaws} {A : Type}.

#[export] Instance boost_lanes : OpLanes (Boost.BoostLockFreeQueue A) A := {|
  q_lane b l := if decide (l = 0) then Boost.contents b else [];
  q_lane_of _ _ := 0;
|}.

#[export] Instance boost_lanes_laws : OpLanesLaws (Boost.BoostLockFreeQueue A) A.
Proof.
  split; simpl.
  - intros q l x _ Hx. by case_decide; [|apply elem_of_nil in Hx].
  - intros _ x q q' pushed _ _ Hp l. rewrite tagged_cons, app_nil_r. simpl.
    pose proof (Boost.push_one_post x q) as Hc. destruct (Boost.push [] [x] q) as [[[k vs] b]| |]; simplify_eq/=.
    rewrite Hc. rewrite (decide_ext (0 = l) (l = 0)) by lia.
    repeat case_decide; case_bool_decide; by rewrite ?app_nil_r.
  - intros n q q' vs _ Hp. exists (pair 0 <$> vs). split.
    + rewrite <-list_fmap_compose. by rewrite list_fmap_id.
    + intros l. rewrite tagged_constant, (decide_ext (0 = l) (l = 0)) by lia.
      case_decide; [|done]. rewrite (Boost.pop_contents n q). by injection Hp as ->.
Qed.
End boost_lanes.

(** The point-to-point pre-queue has a lane for each logical CPU. *)
Section multi_lanes.
Context {A : Type}.
Implicit Types s : MultiLockFreeQueue A.

#[export] Instance multi_lanes : OpLanes (MultiLockFreeQueue A) A := {|
  q_lane s k := if decide (k < MultiQueue._queues s) then MultiQueue.contents s k else [];
  q_lane_of _ cpu := cpu;
|}.

(** The elements a pop takes, with the lanes they come from. *)
Definition taken_lanes (a : nat → nat) s (ks : list nat) : list (nat * A) :=
  ks ≫= λ k, pair k <$> take (a k) (MultiQueue.contents s k).

Lemma taken_lanes_elements a s ks : (taken_lanes a s ks).*2 = MultiQueue.taken a s ks.
Proof.
  unfold taken_lanes, MultiQueue.taken. induction ks as [|k ks IH]; [done|]. csimpl.
  rewrite fmap_app, IH, <-list_fmap_compose. by rewrite list_fmap_id.
Qed.

Lemma tagged_taken_lanes a s ks l :
  NoDup ks → tagged l (taken_lanes a s ks) =
    if decide (l ∈ ks) then take (a l) (MultiQueue.contents s l) else [].
Proof.
  unfold taken_lanes. induction 1 as [|k ks Hk _ IH]; [done|]. csimpl.
  rewrite tagged_app, tagged_constant, IH. destruct (decide (k = l)) as [->|Hne].
  - rewrite decide_False by done. rewrite decide_True by set_solver. by rewrite app_nil_r.
  - by rewrite (decide_ext (l ∈ k :: ks) (l ∈ ks)) by set_solver.
Qed.

#[export] Instance multi_lanes_laws : OpLanesLaws (MultiLockFreeQueue A) A.
Proof.
  split; simpl.
  - intros s l x _ Hx. case_decide as Hl; [|by apply elem_of_nil in Hx].
    apply list_elem_of_join. exists (MultiQueue.contents s l). split; [done|].
    apply list_elem_of_fmap. exists l. split; [done|]. apply elem_of_seq. lia.
  - intros cpu x s s' pushed Hs Hk Hp l. rewrite tagged_cons, app_nil_r. simpl.
    destruct (MultiQueue.tryPush_spec s x cpu Hs Hk) as (b & s1 & Heq & _ & (_ & Hq & _) & Hother & Hb).
    unfold MultiQueue.push in Hp. rewrite (proj2 (Nat.ltb_lt _ _)), Heq in Hp by done. simpl in Hp.
    assert (s1 = s' ∧ b = pushed) as [-> ->]
      by (destruct b; [by simplify_eq|]; destruct (MultiQueue._fullFailure s1); by simplify_eq).
    rewrite Hq. destruct (decide (cpu = l)) as [->|Hne].
    + rewrite !decide_True by done. destruct pushed; [done|]. rewrite app_nil_r. apply Hb.
    + case_decide; [|by destruct pushed]. rewrite Hother by done. by destruct pushed; rewrite app_nil_r.
  - intros n s s' vs Hs Hp.
    destruct (MultiQueue.policy_pop_spec CyclicRoundRobin n s Hs)
      as (a & s1 & Heq & _ & (_ & Hq & _) & Hpop & _).
    cbn [MultiQueue.pop] in Heq. rewrite Hp in Heq. simplify_eq.
    eexists. split; [apply taken_lanes_elements|]. intros l.
    pose proof (MultiQueue.inv_current _ Hs) as Hcur.
    rewrite tagged_taken_lanes by (apply NoDup_cycle; lia). rewrite Hq.
    rewrite (decide_ext (l ∈ cycle _ _ _) (l < MultiQueue._queues s)) by (by apply elem_of_cycle).
    case_decide; [|done]. rewrite Hpop by done. by rewrite take_drop.
Qed.
End multi_lanes.

(** ** Polling issues in order *)

(** Where an operation waits: a lane of one of the two pre-queues. *)
Inductive source := P2p (lane : nat) | Coll (lane : nat).

#[global] Instance source_eq_dec : EqDecision source.
Proof. solve_decision. Defined.

#[global] Instance P2p_inj : Inj (=) (=) P2p.
Proof. by intros l l' [= ->]. Qed.
#[global] Instance Coll_inj : Inj (=) (=) Coll.
Proof. by intros l l' [= ->]. Qed.

Notation op_log := (list (source * (mpi_call * Ticket))).

(** Which calls are collectives. *)
Definition is_collective (c : mpi_call) : bool :=
  match c with
  | Isend _ _ _ _ _ _ | Ibsend _ _ _ _ _ _ | Irsend _ _ _ _ _ _ | Issend _ _ _ _ _ _
  | Irecv _ _ _ _ _ _ => false
  | _ => true
  end.

Lemma op_data_call `{SpscLib, MpiLib, !OpType Op} (o : Op) x : op_data o = Some x → op_call o = Ok x.1.
Proof. unfold op_data. by destruct (op_call o), (op_ticket o); intros [= <-]. Qed.

Lemma p2p_call_kind `{SpscLib, MpiLib} (o : Operation) x : op_data o = Some x → is_collective x.1 = false.
Proof.
  intros Hc%op_data_call. simpl in Hc. unfold Operation_call in Hc.
  by destruct (_code o); simplify_eq; rewrite <-Hc.
Qed.

Lemma coll_call_kind `{SpscLib, MpiLib} (o : CollOperation) x : op_data o = Some x → is_collective x.1 = true.
Proof.
  intros Hc%op_data_call. simpl in Hc. unfold CollOperation_call in Hc.
  destruct (c_code o); repeat (apply bind_Ok in Hc as (? & _ & Hc)); simplify_eq; by rewrite <-Hc.
Qed.

Section order.
Context `{SpscLib, !SpscLaws, AlpiLib, MpiLib, !MpiLaws}.
Context {QP QC : Type} `{!OpQueue QP ptr, !OpQueueLaws QP ptr, !OpQueue QC ptr, !OpQueueLaws QC ptr}.
Context `{!OpLanes QP ptr, !OpLanesLaws QP ptr, !OpLanes QC ptr, !OpLanesLaws QC ptr}.
Implicit Types (w : world) (m : TicketManager QP QC) (s : system QP QC) (log : op_log).

(** The operations of a source, the next to be popped first. *)
Definition waiting (src : source) m w : list (mpi_call * Ticket) :=
  match src with
  | P2p l => queued_data (Op:=Operation) w (q_lane (_p2pOperations m) l)
  | Coll l => queued_data (Op:=CollOperation) w (q_lane (_collOperations m) l)
  end.

(** The calls that were given to MPI, in order. *)
Definition issued w : list mpi_call := (issues (w_trace w)).*1.

(** [log] was issued, and left its sources from the front. *)
Definition in_order m w m' w' log : Prop :=
  issued w' = issued w ++ log.*2.*1 ∧
  ∀ src, waiting src m w = tagged src log ++ waiting src m' w'.

Lemma in_order_refl m w : in_order m w m w [].
Proof. split; [by rewrite app_nil_r|done]. Qed.

Lemma in_order_trans m1 w1 m2 w2 m3 w3 log1 log2 :
  in_order m1 w1 m2 w2 log1 → in_order m2 w2 m3 w3 log2 → in_order m1 w1 m3 w3 (log1 ++ log2).
Proof.
  intros [I1 W1] [I2 W2]. split.
  - by rewrite I2, I1, !fmap_app, app_assoc.
  - intros src. by rewrite W1, W2, tagged_app, app_assoc.
Qed.

(** The operations at tagged addresses, with the sources they come from. *)
Definition data_log {Op} `{!OpType Op} (src : nat → source) w (ps : list (nat * ptr)) : op_log :=
  omap (λ p, pair (src p.1) <$> (op_heap (Op:=Op) w !! p.2 ≫= op_data)) ps.

Lemma data_log_data `{!OpType Op} src w ps :
  (data_log (Op:=Op) src w ps).*2 = queued_data (Op:=Op) w ps.*2.
Proof.
  unfold data_log, queued_data. induction ps as [|[l p] ps IH]; [done|]. csimpl.
  destruct (op_heap w !! p ≫= op_data); csimpl; by rewrite IH.
Qed.

Lemma data_log_tagged `{!OpType Op} src `{!Inj (=) (=) src} w ps l :
  tagged (src l) (data_log (Op:=Op) src w ps) = queued_data (Op:=Op) w (tagged l ps).
Proof.
  unfold data_log, queued_data. induction ps as [|[l' p] ps IH]; [done|]. csimpl.
  rewrite tagged_cons, omap_app, <-IH. simpl.
  destruct (op_heap w !! p ≫= op_data) eqn:Hp; csimpl.
  - rewrite tagged_cons. simpl. repeat case_decide; simplify_eq; csimpl; by rewrite ?Hp.
  - case_decide; csimpl; by rewrite ?Hp.
Qed.

Lemma data_log_other `{!OpType Op} src w ps src' :
  (∀ l, src l ≠ src') → tagged src' (data_log (Op:=Op) src w ps) = [].
Proof.
  intros Hne. unfold data_log. induction ps as [|[l p] ps IH]; [done|]. csimpl.
  destruct (op_heap w !! p ≫= op_data); csimpl; [|done]. rewrite tagged_cons. simpl.
  by rewrite decide_False.
Qed.

Lemma tr_issued (tr : list transferred) : (tr_issue <$> tr).*1 = (tr_op <$> tr).*1.
Proof. by rewrite <-!list_fmap_compose. Qed.

(** Popping from one of the queues and transferring what was popped. *)
Lemma take_in_order {Q} `{!OpQueue Q ptr, !OpQueueLaws Q ptr, !OpLanes Q ptr, !OpLanesLaws Q ptr}
    `{!OpType Op, !OpTypeLaws Op} extra n (q : Q) set_queue m w k m' w' :
  (∀ q m, _capacityCtrl (set_queue q m) = _capacityCtrl m ∧
    _pending (set_queue q m) = _pending m ∧ _arrays (set_queue q m) = _arrays m) →
  ctrl_ok (_capacityCtrl m) → arrays_ok (_arrays m) (_pending m) →
  _pending m + n ≤ get (_capacityCtrl m) → q_inv q →
  objects_ok (Op:=Op) w (q_contents q ++ extra) →
  take_operations (Op:=Op) n q set_queue m w = Ok (k, m', w') →
  ∃ q' ps, m' = set_arrays (_pending m') (_arrays m') (set_queue q' m) ∧
    issued w' = issued w ++ (queued_data (Op:=Op) w ps.*2).*1 ∧
    (∀ l, q_lane q l = tagged l ps ++ q_lane q' l) ∧
    (∀ l, queued_data (Op:=Op) w' (q_lane q' l) = queued_data (Op:=Op) w (q_lane q' l)) ∧
    ∃ w1 h a, same_objects w w1 ∧ w' = op_set (Op:=Op) h a w1.
Proof.
  intros Hset Hctrl Ha Hcap Hinv Hobj Ht. unfold take_operations in Ht.
  destruct (q_pop_spec (n `min` BatchSize) q Hinv) as (ops & q' & Hpop & Hq & Hlen & Hperm & _).
  destruct (q_lane_pop _ _ _ _ Hinv Hpop) as (ps & <- & Hlanes).
  rewrite Hpop in Ht. cbn [mbind outcome_bind] in Ht. apply bind_Ok in Ht as ([m1 w1] & Ht & [= _ <- <-]).
  destruct (Hset q' m) as (Hc & Hp & Harr). exists q', ps.
  destruct (Nat.ltb_spec 0 (length ps.*2)) as [Hpos|Hz].
  2:{ assert (ps = []) as -> by (apply nil_length_inv; rewrite length_fmap in Hz; lia).
      simplify_eq. split_and!; try done.
      - by destruct (set_queue q' m).
      - by rewrite app_nil_r.
      - exists w1, (op_heap (Op:=Op) w1), (op_alloc (Op:=Op) w1). by rewrite op_set_id. }
  pose proof (transferOperations_post (Op:=Op) True ps.*2 (q_contents q' ++ extra) (set_queue q' m) w
    (or_introl I)) as Hpost.
  rewrite Ht, Hc, Hp, Harr in Hpost.
  destruct Hpost as (tr & fin & [Hm _ _ _ _ Hdata _ Hw (w2 & a & Hs & _ & Hw') _ Hrest]); try (done || lia).
  { eapply objects_ok_perm; [|exact Hobj]. by rewrite Hperm, app_assoc. }
  split_and!; [exact Hm| |exact Hlanes| |by eexists _, _, _].
  - unfold issued. rewrite (pg_issues _ _ _ _ _ _ Hw), fmap_app, tr_issued. by rewrite Hdata.
  - intros l. apply queued_data_ext. intros p Hin. apply Hrest, elem_of_app. left.
    by eapply q_lane_contents.
Qed.

Section poll.
Context {pp pc : list ptr}.
Notation minv := (manager_inv pp pc).

Lemma take_p2p_in_order n m w k m' w' :
  minv m w → _pending m + n ≤ get (_capacityCtrl m) → take_p2p n m w = Ok (k, m', w') →
  ∃ log, in_order m w m' w' log.
Proof.
  intros Hi Hcap Ht.
  destruct (take_in_order (Op:=Operation) pp n (_p2pOperations m) set_p2p m w k m' w')
    as (q' & ps & Hm & His & Hlane & Hrest & w1 & h & a & Hs & Hw); try done; try apply Hi.
  exists (data_log (Op:=Operation) P2p w ps). split; [by rewrite data_log_data|].
  intros [l|l]; simpl; rewrite Hm; simpl.
  - rewrite (data_log_tagged P2p), Hrest, <-queued_data_app. by rewrite Hlane.
  - rewrite data_log_other by done. rewrite Hw. simpl. by rewrite <-(queued_data_same w w1) by done.
Qed.

Lemma take_coll_in_order n m w k m' w' :
  minv m w → _pending m + n ≤ get (_capacityCtrl m) → take_coll n m w = Ok (k, m', w') →
  ∃ log, in_order m w m' w' log.
Proof.
  intros Hi Hcap Ht.
  destruct (take_in_order (Op:=CollOperation) pc n (_collOperations m) set_coll m w k m' w')
    as (q' & ps & Hm & His & Hlane & Hrest & w1 & h & a & Hs & Hw); try done; try apply Hi.
  exists (data_log (Op:=CollOperation) Coll w ps). split; [by rewrite data_log_data|].
  intros [l|l]; simpl; rewrite Hm; simpl.
  - rewrite data_log_other by done. rewrite Hw. simpl. by rewrite <-(queued_data_same w w1) by done.
  - rewrite (data_log_tagged Coll), Hrest, <-queued_data_app. by rewrite Hlane.
Qed.

Lemma check_queues_in_order fuel navailable ntotal m w n m' w' :
  minv m w → ntotal ≤ navailable → _pending m + (navailable - ntotal) ≤ get (_capacityCtrl m) →
  check_queues fuel navailable ntotal m w = Ok (n, m', w') → ∃ log, in_order m w m' w' log.
Proof.
  revert ntotal m w. induction fuel as [|fuel IH]; intros ntotal m w Hi Hle Hcap Hc; [done|].
  cbn [check_queues] in Hc. apply bind_Ok in Hc as ([[np m1] w1] & E1 & Hc).
  apply bind_Ok in Hc as ([[nc m2] w2] & E2 & Hc).
  pose proof (take_p2p_post True _ m w (or_introl I) Hi Hcap) as P1. rewrite E1 in P1.
  destruct P1 as (tr1 & fin1 & [Hi1 Hs1 _] & _ & _ & Hn1 & Hp1 & _ & _).
  pose proof (ms_ctrl _ _ _ _ _ _ Hs1) as Hc1.
  pose proof (take_coll_post True (navailable - (ntotal + np)) m1 w1 (or_introl I) Hi1) as P2.
  rewrite E2, Hc1 in P2.
  destruct P2 as (tr2 & fin2 & [Hi2 Hs2 _] & _ & _ & Hn2 & Hp2 & _ & _); [lia|].
  pose proof (ms_ctrl _ _ _ _ _ _ Hs2) as Hc2.
  destruct (take_p2p_in_order _ _ _ _ _ _ Hi Hcap E1) as [log1 L1].
  destruct (take_coll_in_order (navailable - (ntotal + np)) m1 w1 _ _ _ Hi1 ltac:(rewrite Hc1; lia) E2) as [log2 L2].
  pose proof (in_order_trans _ _ _ _ _ _ _ _ L1 L2) as L12.
  destruct (_ && _); [|simplify_eq; by eexists].
  destruct (IH (ntotal + np + nc) _ _ Hi2 ltac:(lia) ltac:(rewrite Hc2, Hc1; lia) Hc) as [log3 L3].
  eexists. by eapply in_order_trans.
Qed.

(** Testing the requests in flight issues nothing and leaves the queues alone. *)
Lemma internalCheckRequests_in_order m w n m' w' :
  minv m w → 0 < _pending m → internalCheckRequests m w = Ok (n, m', w') → in_order m w m' w' [].
Proof.
  intros Hi Hpos Hc.
  pose proof (internalCheckRequests_post True m w (or_introl I) Hi Hpos) as P. rewrite Hc in P.
  destruct P as (_ & fin & _ & Hs & Ho & _). split.
  - unfold issued. by rewrite (pg_issues _ _ _ _ _ _ (ms_world _ _ _ _ _ _ Hs)), fmap_app.
  - unfold internalCheckRequests in Hc. apply bind_Ok in Hc as (? & _ & Hc).
    apply bind_Ok in Hc as ([[ix a] w1] & _ & Hc). apply bind_Ok in Hc as (a' & _ & [= _ <- <-]).
    intros [l|l]; simpl; by rewrite <-(queued_data_same w w1) by done.
Qed.

Lemma check_loop_in_order fuel total m w n m' w' :
  minv m w → check_loop fuel total m w = Ok (n, m', w') → ∃ log, in_order m w m' w' log.
Proof.
  revert total m w. induction fuel as [|fuel IH]; intros total m w Hi Hc; [done|].
  cbn [check_loop] in Hc. apply bind_Ok in Hc as ([[np m1] w1] & E1 & Hc).
  apply bind_Ok in Hc as ([[nc m2] w2] & E2 & Hc).
  pose proof (insert_post True m w (or_introl I) Hi) as P1. rewrite E1 in P1.
  destruct P1 as (tr1 & fin1 & [Hi1 _ _] & _).
  pose proof (complete_post True m1 w1 (or_introl I) Hi1) as P2. rewrite E2 in P2.
  destruct P2 as (fin2 & [Hi2 _ _] & _).
  assert (∃ log, in_order m w m1 w1 log) as [log1 L1].
  { destruct (Nat.ltb_spec (_pending m) (get (_capacityCtrl m))); [|simplify_eq; eexists; apply in_order_refl].
    eapply check_queues_in_order; [done| | |exact E1]; lia. }
  assert (in_order m1 w1 m2 w2 []) as L2.
  { destruct (Nat.ltb_spec 0 (_pending m1)); [by eapply internalCheckRequests_in_order|].
    simplify_eq. apply in_order_refl. }
  pose proof (in_order_trans _ _ _ _ _ _ _ _ L1 L2) as L12.
  destruct (_ || _); [|simplify_eq; by eexists].
  destruct (IH _ _ _ Hi2 Hc) as [log3 L3]. eexists. by eapply in_order_trans.
Qed.

(** A poll issues what it takes from the pre-queues source by source in order. *)
Lemma checkRequests_in_order now m w n k m' w' :
  minv m w → checkRequests now m w = Ok (n, k, m', w') → ∃ log, in_order m w m' w' log.
Proof.
  intros Hi Hc. unfold checkRequests in Hc. apply bind_Ok in Hc as ([[n1 m1] w1] & Hl & [= _ _ <- <-]).
  destruct (check_loop_in_order _ _ _ _ _ _ _ Hi Hl) as [log [Hi1 Hw]]. exists log. split; [done|].
  intros src. rewrite Hw. by destruct src.
Qed.

Lemma poll_part_in_order m w m' w' : minv m w → poll_part m w m' w' → ∃ log, in_order m w m' w' log.
Proof.
  intros Hi [n k m1 w1 Hn Ht|n k m1 w1 Hn Ht|n m1 w1 Hp Hc|pending completed now].
  - by eapply take_p2p_in_order.
  - by eapply take_coll_in_order.
  - exists []. by eapply internalCheckRequests_in_order.
  - exists []. split; [by rewrite app_nil_r|by intros []].
Qed.
End poll.

(** ** Runs with their pushes *)

(** The steps of [System.v] with the log of the pushes so far: a task that gets
    its operation into a pre-queue adds it, with its source, at the end.  In
    the other steps no task gets past its push. *)
Inductive logged_step : system QP QC * op_log → system QP QC * op_log → Prop :=
| logged_push_p2p m w pp1 pp2 pc bl d cpu p c m' x log :
    q_cpu (_p2pOperations m) cpu → addOperation_p2p cpu p m = Ok (true, m') →
    w_p2p w !! p ≫= op_data = Some x →
    logged_step (mkSystem m w (pp1 ++ (p, c) :: pp2) pc bl d, log)
      (mkSystem m' w (pp1 ++ pp2) pc (enter_wait c bl) d,
       log ++ [(P2p (q_lane_of (_p2pOperations m) cpu), x)])
| logged_push_coll m w pp pc1 pc2 bl d cpu p c m' x log :
    q_cpu (_collOperations m) cpu → addOperation_coll cpu p m = Ok (true, m') →
    w_coll w !! p ≫= op_data = Some x →
    logged_step (mkSystem m w pp (pc1 ++ (p, c) :: pc2) bl d, log)
      (mkSystem m' w pp (pc1 ++ pc2) (enter_wait c bl) d,
       log ++ [(Coll (q_lane_of (_collOperations m) cpu), x)])
| logged_other s s' log :
    sys_step s s' → length (s_pp s) ≤ length (s_pp s') → length (s_pc s) ≤ length (s_pc s') →
    logged_step (s, log) (s', log).

Lemma logged_step_sys x y : logged_step x y → sys_step x.1 y.1.
Proof. destruct 1; simpl; [by eapply step_push_p2p|by eapply step_push_coll|done]. Qed.

Lemma objects_data `{!OpType Op} w ps p :
  objects_ok (Op:=Op) w ps → p ∈ ps → ∃ x, op_heap (Op:=Op) w !! p ≫= op_data = Some x.
Proof.
  intros [_ Hok] Hp. destruct (Hok p Hp) as (o & -> & c & t & Hc & Ht & _). exists (c, t). simpl.
  unfold op_data. by rewrite Hc, Ht.
Qed.

(** No step of the system is left out. *)
Lemma sys_step_logged st0 s s' log :
  sys_inv st0 s → sys_step s s' → ∃ log', logged_step (s, log) (s', log').
Proof.
  intros Hi Hstep. pose proof Hstep as Hs. destruct Hs; try (eexists; apply logged_other; [done|done|done]).
  - eexists. apply logged_other; simpl; [done|lia|lia].
  - eexists. apply logged_other; simpl; [done|lia|lia].
  - destruct (objects_data _ _ p (mi_p2p_objects _ _ _ _ (si_manager _ _ Hi))) as [x Hx].
    { simpl. rewrite fmap_app. set_solver. }
    eexists. by eapply logged_push_p2p.
  - destruct (objects_data _ _ p (mi_coll_objects _ _ _ _ (si_manager _ _ Hi))) as [x Hx].
    { simpl. rewrite fmap_app. set_solver. }
    eexists. by eapply logged_push_coll.
Qed.

(** A step that changes neither the queues nor what they point to, and that
    issues nothing. *)
Lemma in_order_same m w w' :
  issues (w_trace w') = issues (w_trace w) →
  (∀ p, p ∈ q_contents (_p2pOperations m) → w_p2p w' !! p = w_p2p w !! p) →
  (∀ p, p ∈ q_contents (_collOperations m) → w_coll w' !! p = w_coll w !! p) →
  q_inv (_p2pOperations m) → q_inv (_collOperations m) → in_order m w m w' [].
Proof.
  intros Hiss Hp Hc Hqp Hqc. split; [by unfold issued; rewrite Hiss, app_nil_r|].
  intros [l|l]; simpl; apply queued_data_ext; simpl; intros p Hin; symmetry;
    [apply Hp|apply Hc]; by eapply q_lane_contents.
Qed.

Lemma in_order_objects m w w' :
  issues (w_trace w') = issues (w_trace w) → same_objects w w' →
  q_inv (_p2pOperations m) → q_inv (_collOperations m) → in_order m w m w' [].
Proof. intros Hiss (Hp & Hc & _). apply in_order_same; [done|by rewrite Hp|by rewrite Hc]. Qed.

Lemma push_p2p_waiting cpu p m w pushed m' src :
  q_inv (_p2pOperations m) → q_cpu (_p2pOperations m) cpu → addOperation_p2p cpu p m = Ok (pushed, m') →
  waiting src m' w = waiting src m w ++
    (if pushed then tagged src (data_log (Op:=Operation) P2p w [(q_lane_of (_p2pOperations m) cpu, p)])
     else []).
Proof.
  intros Hq Hcpu Ha. unfold addOperation_p2p in Ha. apply bind_Ok in Ha as ([b q] & Hpush & [= -> <-]).
  pose proof (q_lane_push _ _ _ _ _ Hq Hcpu Hpush) as Hl.
  destruct src as [l|l]; cbn [waiting _p2pOperations _collOperations set_p2p set_coll].
  - rewrite Hl, queued_data_app. destruct pushed; [|done]. by rewrite (data_log_tagged P2p).
  - destruct pushed; [rewrite data_log_other by done|]; by rewrite app_nil_r.
Qed.

Lemma push_coll_waiting cpu p m w pushed m' src :
  q_inv (_collOperations m) → q_cpu (_collOperations m) cpu → addOperation_coll cpu p m = Ok (pushed, m') →
  waiting src m' w = waiting src m w ++
    (if pushed then tagged src (data_log (Op:=CollOperation) Coll w [(q_lane_of (_collOperations m) cpu, p)])
     else []).
Proof.
  intros Hq Hcpu Ha. unfold addOperation_coll in Ha. apply bind_Ok in Ha as ([b q] & Hpush & [= -> <-]).
  pose proof (q_lane_push _ _ _ _ _ Hq Hcpu Hpush) as Hl.
  destruct src as [l|l]; cbn [waiting _p2pOperations _collOperations set_p2p set_coll].
  - destruct pushed; [rewrite data_log_other by done|]; by rewrite app_nil_r.
  - rewrite Hl, queued_data_app. destruct pushed; [|done]. by rewrite (data_log_tagged Coll).
Qed.

(** Steps without a push. *)
Lemma other_in_order st0 s s' :
  sys_inv st0 s → sys_step s s' → length (s_pp s) ≤ length (s_pp s') →
  length (s_pc s) ≤ length (s_pc s') →
  ∃ log, in_order (s_manager s) (s_world s) (s_manager s') (s_world s') log.
Proof.
  intros Hi Hstep Hpp Hpc. pose proof (si_manager _ _ Hi) as Hm.
  pose proof (mi_p2p _ _ _ _ Hm) as Hqp. pose proof (mi_coll _ _ _ _ Hm) as Hqc.
  destruct Hstep as [m w pp pc bl d cpu nature task make c p w' x Hcpu Hok Hx Hb Hc
    |m w pp pc bl d cpu nature task make c p w' x Hcpu Hok Hx Hb Hc
    |m w pp1 pp2 pc bl d cpu p c m' Hcpu Ha|m w pp pc1 pc2 bl d cpu p c m' Hcpu Ha
    |m w pp pc bl d cpu p m' Hcpu Ha|m w pp pc bl d cpu p m' Hcpu Ha
    |m w pp pc bl1 bl2 d c w' He|m w pp pc bl d now n k m' w' Hp|m w pp pc bl d m' w' Hp|m w pp pc bl d n w' Hp]; simpl in *.
  - destruct (begin_spec (Op:=Operation) _ _ _ _ _ _ _ _ _ Hb (mi_p2p_objects _ _ _ _ Hm) Hcpu Hok)
      as (w1 & a & Hin & (Ho1 & Ho2 & _) & _ & -> & _ & [Hf _]%not_elem_of_app).
    exists []. apply in_order_same; simpl; try done; [apply Hin| |by rewrite Ho2].
    intros p' Hp'. rewrite lookup_insert_ne, Ho1 by congruence. done.
  - destruct (begin_spec (Op:=CollOperation) _ _ _ _ _ _ _ _ _ Hb (mi_coll_objects _ _ _ _ Hm) Hcpu Hok)
      as (w1 & a & Hin & (Ho1 & Ho2 & _) & _ & -> & _ & [Hf _]%not_elem_of_app).
    exists []. apply in_order_same; simpl; try done; [apply Hin|by rewrite Ho1|].
    intros p' Hp'. rewrite lookup_insert_ne, Ho2 by congruence. done.
  - rewrite !length_app in Hpp. simpl in Hpp. lia.
  - rewrite !length_app in Hpc. simpl in Hpc. lia.
  - exists []. split; [by rewrite app_nil_r|]. intros src. symmetry.
    by rewrite (push_p2p_waiting _ _ _ w _ _ src Hqp Hcpu Ha), app_nil_r.
  - exists []. split; [by rewrite app_nil_r|]. intros src. symmetry.
    by rewrite (push_coll_waiting _ _ _ w _ _ src Hqc Hcpu Ha), app_nil_r.
  - exists []. unfold end_operation, waitEventsCompletion, blockCurrentTask, alpi in He.
    destruct (_blocking c); simpl in He; [case_decide|]; simplify_eq; [|apply in_order_refl].
    apply in_order_objects; try done. cbn [w_trace w_log]. by rewrite issues_app, app_nil_r.
  - by eapply checkRequests_in_order.
  - by eapply poll_part_in_order.
  - exists []. pose proof (process_post True w (or_introl I)) as Hpost. rewrite Hp in Hpost.
    destruct Hpost as (_ & _ & (es & Htr & _ & His & _ & _) & Hs & _).
    apply in_order_objects; try done. by rewrite Htr, issues_app, His, app_nil_r.
Qed.

(** What was pushed on each source is what was issued from it followed by what
    waits there. *)
Definition ordered (s : system QP QC) (pushes log : op_log) : Prop :=
  issued (s_world s) = log.*2.*1 ∧
  ∀ src, tagged src pushes = tagged src log ++ waiting src (s_manager s) (s_world s).

Lemma ordered_in_order s s' pushes log log' :
  ordered s pushes log → in_order (s_manager s) (s_world s) (s_manager s') (s_world s') log' →
  ordered s' pushes (log ++ log').
Proof.
  intros [Hi Hp] [Hi' Hp']. split; [by rewrite Hi', Hi, !fmap_app|].
  intros src. by rewrite Hp, Hp', tagged_app, app_assoc.
Qed.

Lemma ordered_push s m' w pp pc bl d pushes log src0 x :
  ordered s pushes log → s_world s = w →
  (∀ src, waiting src m' w = waiting src (s_manager s) w ++ tagged src [(src0, x)]) →
  ordered (mkSystem m' w pp pc bl d) (pushes ++ [(src0, x)]) log.
Proof.
  intros [Hi Hp] <- Hw. split; [done|]. intros src. simpl. by rewrite tagged_app, Hp, Hw, app_assoc.
Qed.

Lemma ordered_step st0 x y :
  logged_step x y → sys_inv st0 x.1 → (∃ log, ordered x.1 x.2 log) → ∃ log, ordered y.1 y.2 log.
Proof.
  intros Hstep Hi [log Ho]. pose proof (si_manager _ _ Hi) as Hm.
  destruct Hstep as [m w pp1 pp2 pc bl d cpu p c m' x pushes Hcpu Ha Hx
    |m w pp pc1 pc2 bl d cpu p c m' x pushes Hcpu Ha Hx|s s' pushes Hs Hpp Hpc]; simpl in *.
  - exists log. eapply ordered_push; [exact Ho|done|]. intros src.
    rewrite (push_p2p_waiting _ _ _ _ _ _ _ (mi_p2p _ _ _ _ Hm) Hcpu Ha). simpl.
    unfold data_log. csimpl. by rewrite Hx.
  - exists log. eapply ordered_push; [exact Ho|done|]. intros src.
    rewrite (push_coll_waiting _ _ _ _ _ _ _ (mi_coll _ _ _ _ Hm) Hcpu Ha). simpl.
    unfold data_log. csimpl. by rewrite Hx.
  - destruct (other_in_order _ _ _ Hi Hs Hpp Hpc) as [log' Hl]. eexists. by eapply ordered_in_order.
Qed.

Lemma ordered_run st0 x y :
  rtc logged_step x y → sys_inv st0 x.1 → (∃ log, ordered x.1 x.2 log) → ∃ log, ordered y.1 y.2 log.
Proof.
  induction 1 as [|x y z Hs _ IH]; [done|]. intros Hi Ho. apply IH.
  - eapply step_inv; [by apply logged_step_sys|done].
  - by eapply ordered_step.
Qed.

(** ** Kinds of operations *)

(** Each source holds calls of its kind, pushed through one of its lanes. *)
Definition of_source (e : source * (mpi_call * Ticket)) : Prop :=
  match e.1 with
  | P2p l => is_collective e.2.1 = false
  | Coll l => is_collective e.2.1 = true ∧ ∃ (q : QC) cpu, l = q_lane_of q cpu
  end.

Lemma pushes_of_source x y : rtc logged_step x y → Forall of_source x.2 → Forall of_source y.2.
Proof.
  induction 1 as [|x y z Hs _ IH]; [done|]. intros Hx. apply IH.
  destruct Hs as [m w pp1 pp2 pc bl d cpu p c m' x pushes _ _ Hd
    |m w pp pc1 pc2 bl d cpu p c m' x pushes _ _ Hd|]; [..|done];
    (apply Forall_app; split; [done|]; repeat constructor).
  - apply bind_Some in Hd as (o & _ & Hd). by eapply p2p_call_kind.
  - apply bind_Some in Hd as (o & _ & Hd). by eapply coll_call_kind.
  - by eexists _, _.
Qed.

Lemma fresh_ordered m0 w0 :
  fresh_manager m0 → fresh_world w0 → ordered (mkSystem m0 w0 [] [] [] []) [] [].
Proof.
  intros [_ _ [Hp Ep] [Hc Ec]] [Ht _ _ _]. split; [unfold issued; simpl; by rewrite Ht|].
  intros [l|l]; simpl.
  - replace (q_lane (_p2pOperations m0) l) with (@nil ptr); [done|]. symmetry. apply elem_of_nil_inv.
    intros x Hx. apply (q_lane_contents _ _ _ Hp) in Hx. rewrite Ep in Hx. by apply elem_of_nil in Hx.
  - replace (q_lane (_collOperations m0) l) with (@nil ptr); [done|]. symmetry. apply elem_of_nil_inv.
    intros x Hx. apply (q_lane_contents _ _ _ Hc) in Hx. rewrite Ec in Hx. by apply elem_of_nil in Hx.
Qed.
End order.

(** ** Properties *)

Lemma single_lane_collectives `{SpscLib} (log : op_log) :
  Forall (of_source (QC:=Boost.BoostLockFreeQueue ptr)) log →
  filter is_collective log.*2.*1 = (tagged (Coll 0) log).*1.
Proof.
  induction 1 as [|[[l|l] x] log Hx _ IH]; [done|..]; csimpl; rewrite filter_cons, tagged_cons, IH;
    unfold of_source in Hx; simpl in *.
  - rewrite decide_False by (rewrite Hx; intros []). done.
  - destruct Hx as (Hx & _ & _ & ->). rewrite decide_True by (rewrite Hx; exact I). done.
Qed.

Section order_claims.
Context `{SpscLib, !SpscLaws, AlpiLib, MpiLib, !MpiLaws}.

(** C9: in every run the calls given to MPI are, one by one, the operations that
    tasks pushed, and from each source (the ring of a logical CPU, for
    point-to-point operations) they are given in the order of the pushes: what
    was pushed there is what was issued from there followed by what still waits
    there. Requests are tested with MPI_Test or MPI_Testany, for every MPI
    library, or with MPI_Testsome, the default, for a library that returns its
    indices in ascending order, which the MPI standard does not promise. *)
Theorem operations_issued_in_push_order {QP QC : Type}
    `{!OpQueue QP ptr, !OpQueueLaws QP ptr, !OpLanes QP ptr, !OpLanesLaws QP ptr}
    `{!OpQueue QC ptr, !OpQueueLaws QC ptr, !OpLanes QC ptr, !OpLanesLaws QC ptr}
    (m0 : TicketManager QP QC) w0 s pushes :
  orderly (_generalTesting m0) → fresh_manager m0 → fresh_world w0 →
  rtc logged_step (mkSystem m0 w0 [] [] [] [], []) (s, pushes) →
  ∃ log : op_log, (issues (w_trace (s_world s))).*1 = log.*2.*1 ∧
    ∀ src, tagged src pushes = tagged src log ++ waiting src (s_manager s) (s_world s).
Proof.
  intros Ho Hm Hw Hr. apply (ordered_run _ _ _ Hr (fresh_inv _ _ Ho Hm Hw)).
  exists []. by apply fresh_ordered.
Qed.

(** C10: in every run of the library with its queues, the collectives given to
    MPI, with those that wait in the collective pre-queue after them, are the
    collectives that tasks pushed, in the order of the pushes, whatever CPUs the
    tasks ran on: two collectives are never swapped. Requests are tested with
    MPI_Test or MPI_Testany, for every MPI library, or with MPI_Testsome, the
    default, for a library that returns its indices in ascending order, which
    the MPI standard does not promise. *)
Theorem collectives_issued_in_push_order
    (m0 : TicketManager (MultiLockFreeQueue ptr) (Boost.BoostLockFreeQueue ptr)) w0 s pushes :
  orderly (_generalTesting m0) → fresh_manager m0 → fresh_world w0 →
  rtc logged_step (mkSystem m0 w0 [] [] [] [], []) (s, pushes) →
  filter is_collective (issues (w_trace (s_world s))).*1 ++
    (queued_data (Op:=CollOperation) (s_world s)
       (Boost.contents (_collOperations (s_manager s)))).*1 =
    filter is_collective pushes.*2.*1.
Proof.
  intros Ho Hm Hw Hr. assert (Forall (of_source (QC:=Boost.BoostLockFreeQueue ptr)) pushes) as Hk.
  { by apply (pushes_of_source _ _ Hr). }
  destruct (ordered_run _ _ _ Hr (fresh_inv _ _ Ho Hm Hw)) as [log [Hi Hl]].
  { exists []. by apply fresh_ordered. }
  unfold issued in Hi. simpl in Hi. rewrite Hi, (single_lane_collectives pushes) by done.
  rewrite (single_lane_collectives log).
  - pose proof (Hl (Coll 0)) as H0'. simpl in H0'. by rewrite H0', fmap_app.
  - rewrite Forall_forall in *. intros [src x] Hin. apply Hk, elem_of_tagged. rewrite Hl.
    apply elem_of_app. left. by apply elem_of_tagged.
Qed.
End order_claims.

(** ** Evaluations *)

Section order_witness.
Import ListSpsc.
Notation demo_system := (system (MultiLockFreeQueue nat) (Boost.BoostLockFreeQueue nat)).

(** Four objects of each kind, two in the cache of each CPU. *)
Definition order_objects : Obj.ObjAllocator :=
  Obj.mkObj 4 2 [Stack.mkStack (store 0 [0; 1] ∅) 2; Stack.mkStack (store 0 [2; 3] ∅) 2] (spsc_new 4).
Definition order_world : world :=
  mkWorld [] ∅ ∅ ∅ order_objects order_objects false (spsc_new 8).

Lemma order_fresh_world : fresh_world order_world.
Proof.
  assert (Obj.inv [] order_objects) as Hi; [|by split].
  split; [by vm_compute| |done| |done].
  - repeat constructor; try (vm_compute; lia);
      intros [|[|i]] Hl; vm_compute in Hl |- *; (by eexists) || lia.
  - intros [|[|k]] Hk s Hs; vm_compute in Hk; [lia..|done].
Qed.

(** Task 7 on CPU 1 enters a barrier and then task 8 on CPU 0 a broadcast. *)
Definition barrier_op (task : task_handle_t) : CollOperation :=
  newColl task BARRIER NONBLK 91 0 0 0 0 0 0 0 0.
Definition bcast_op (task : task_handle_t) : CollOperation :=
  newColl task BCAST NONBLK 91 0 0 0 500 8 2 0 3.

Definition coll1 : TaskContext * nat * world :=
  value_of (begin_operation (Op:=CollOperation) 1 NONBLK 7 barrier_op order_world).
Definition coll1_pushed : bool * demo_manager_type :=
  value_of (addOperation_coll 1 coll1.1.2 demo_manager).
Definition coll2 : TaskContext * nat * world :=
  value_of (begin_operation (Op:=CollOperation) 0 NONBLK 8 bcast_op coll1.2).
Definition coll2_pushed : bool * demo_manager_type :=
  value_of (addOperation_coll 0 coll2.1.2 coll1_pushed.2).
Definition coll_polled : nat * nat * demo_manager_type * world :=
  value_of (checkRequests 0 coll2_pushed.2 coll2.2).

Definition coll_pushes : op_log :=
  [(Coll 0, (Ibarrier 91, mkTicket (mkContext false 7) 1));
   (Coll 0, (Ibcast 500 8 2 3 91, mkTicket (mkContext false 8) 1))].

Definition coll_final : demo_system :=
  mkSystem coll_polled.1.2 coll_polled.2 [] [] [] coll_pushes.*2.

Lemma coll_run :
  rtc logged_step (mkSystem demo_manager order_world [] [] [] [], []) (coll_final, coll_pushes).
Proof.
  eapply rtc_l; [|eapply rtc_l; [|eapply rtc_l; [|eapply rtc_l; [|apply rtc_once]]]].
  - apply logged_other; simpl; [|lia|].
    + apply (step_begin_coll demo_manager order_world [] [] [] [] 1 NONBLK 7 barrier_op coll1.1.1 coll1.1.2 coll1.2
        (Ibarrier 91, mkTicket (mkContext false 7) 1)); [vm_compute; lia| |by vm_compute..].
      eexists _, _. split_and!; [done..|]. by left.
    + simpl. lia.
  - apply (logged_push_coll demo_manager coll1.2 [] [] [] [] _ 1 coll1.1.2 coll1.1.1 coll1_pushed.2
      (Ibarrier 91, mkTicket (mkContext false 7) 1)); [done|by vm_compute..].
  - apply logged_other; simpl; [|lia|].
    + apply (step_begin_coll coll1_pushed.2 coll1.2 [] [] [] _ 0 NONBLK 8 bcast_op coll2.1.1 coll2.1.2 coll2.2
        (Ibcast 500 8 2 3 91, mkTicket (mkContext false 8) 1)); [vm_compute; lia| |by vm_compute..].
      eexists _, _. split_and!; [done..|]. by left.
    + simpl. lia.
  - apply (logged_push_coll coll1_pushed.2 coll2.2 [] [] [] [] _ 0 coll2.1.2 coll2.1.1 coll2_pushed.2
      (Ibcast 500 8 2 3 91, mkTicket (mkContext false 8) 1)); [done|by vm_compute..].
  - apply logged_other; [|done|done].
    apply (step_poll _ _ _ _ _ _ 0 coll_polled.1.1.1 coll_polled.1.1.2). by vm_compute.
Qed.

Lemma collectives_issued_in_push_order_witness :
  (issues (w_trace (s_world coll_final))).*1 = [Ibarrier 91; Ibcast 500 8 2 3 91] ∧
  filter is_collective (issues (w_trace (s_world coll_final))).*1 ++
    (queued_data (Op:=CollOperation) (s_world coll_final)
       (Boost.contents (_collOperations (s_manager coll_final)))).*1 =
    [Ibarrier 91; Ibcast 500 8 2 3 91].
Proof.
  split; [by vm_compute|].
  exact (collectives_issued_in_push_order _ _ _ _ (demo_orderly _) demo_fresh_manager order_fresh_world coll_run).
Defined.

(** Task 7 sends on CPU 1, moves to CPU 0 and sends again, to the same rank with
    the same tag. *)
Definition send_op (buffer : Z) (task : task_handle_t) : Operation :=
  newOperation task SEND NONBLK buffer 8 2 1 42 91 1.
Definition send_data (buffer : Z) : mpi_call * Ticket :=
  (Isend buffer 8 2 1 42 91, mkTicket (mkContext false 7) 1).

Definition send1 : TaskContext * nat * world :=
  value_of (begin_operation (Op:=Operation) 1 NONBLK 7 (send_op 500) order_world).
Definition send1_pushed : bool * demo_manager_type :=
  value_of (addOperation_p2p 1 send1.1.2 demo_manager).
Definition send2 : TaskContext * nat * world :=
  value_of (begin_operation (Op:=Operation) 0 NONBLK 7 (send_op 600) send1.2).
Definition send2_pushed : bool * demo_manager_type :=
  value_of (addOperation_p2p 0 send2.1.2 send1_pushed.2).
Definition send_polled : nat * nat * demo_manager_type * world :=
  value_of (checkRequests 0 send2_pushed.2 send2.2).

Definition send_pushes : op_log := [(P2p 1, send_data 500); (P2p 0, send_data 600)].
Definition send_final : demo_system :=
  mkSystem send_polled.1.2 send_polled.2 [] [] [] send_pushes.*2.

Lemma send_run :
  rtc logged_step (mkSystem demo_manager order_world [] [] [] [], []) (send_final, send_pushes).
Proof.
  eapply rtc_l; [|eapply rtc_l; [|eapply rtc_l; [|eapply rtc_l; [|apply rtc_once]]]].
  - apply logged_other; simpl; [| |lia].
    + apply (step_begin_p2p demo_manager order_world [] [] [] [] 1 NONBLK 7 (send_op 500) send1.1.1 send1.1.2
        send1.2 (send_data 500)); [vm_compute; lia| |by vm_compute..].
      eexists _, _. split_and!; [done..|]. by left.
    + simpl. lia.
  - apply (logged_push_p2p demo_manager send1.2 [] [] [] [] _ 1 send1.1.2 send1.1.1 send1_pushed.2
      (send_data 500)); [vm_compute; lia|by vm_compute..].
  - apply logged_other; simpl; [| |lia].
    + apply (step_begin_p2p send1_pushed.2 send1.2 [] [] [] _ 0 NONBLK 7 (send_op 600) send2.1.1 send2.1.2
        send2.2 (send_data 600)); [vm_compute; lia| |by vm_compute..].
      eexists _, _. split_and!; [done..|]. by left.
    + simpl. lia.
  - apply (logged_push_p2p send1_pushed.2 send2.2 [] [] [] [] _ 0 send2.1.2 send2.1.1 send2_pushed.2
      (send_data 600)); [vm_compute; lia|by vm_compute..].
  - apply logged_other; [|done|done].
    apply (step_poll _ _ _ _ _ _ 0 send_polled.1.1.1 send_polled.1.1.2). by vm_compute.
Qed.

Lemma operations_issued_in_push_order_witness :
  ∃ log : op_log, (issues (w_trace (s_world send_final))).*1 = log.*2.*1 ∧
    ∀ src, tagged src send_pushes = tagged src log ++ waiting src (s_manager send_final) (s_world send_final).
Proof.
  exact (operations_issued_in_push_order _ _ _ _ (demo_orderly _) demo_fresh_manager order_fresh_world send_run).
Defined.

(** The order is not kept across CPUs.  In this run one task sends twice to
    the same rank, with the same tag and communicator; between the two calls
    it moves from CPU 1 to CPU 0, whose ring is visited first, and MPI is given
    the second message before the first, so they are matched in that order. *)
Theorem migrating_task_overtakes :
  rtc logged_step (mkSystem demo_manager order_world [] [] [] [], []) (send_final, send_pushes) ∧
  (λ x : source * (mpi_call * Ticket), (x.2.1, _taskContext x.2.2)) <$> send_pushes =
    [(Isend 500 8 2 1 42 91, mkContext false 7); (Isend 600 8 2 1 42 91, mkContext false 7)] ∧
  (issues (w_trace (s_world send_final))).*1 =
    [Isend 600 8 2 1 42 91; Isend 500 8 2 1 42 91].
Proof. split; [exact send_run|]. split; by vm_compute. Qed.
End order_witness.
