(* ===== verification/Runtime.v ===== *)
(** * What a task may rely on when it goes on

    The tasking runtime resumes a blocked task only when its blocks are matched,
    and completes a task, releasing its dependencies, only when its events are
    fulfilled ([src/src/common/ALPI.hpp], [alpi_task_block],
    [alpi_task_events_increase]).  Here the two sides meet: over all runs of the
    library with such a runtime, a task that goes on finds its operations
    served by MPI, and a task whose operations are served is not held back. *)

From S2P Require Import Prelude Queues MultiQueue Allocator World Interface Tickets Operations StringSupport CapacityCtrl TicketManager OperationManager ManagerProofs TransferProofs PollingProofs System Demo Claims Contract Ordering.

Section runtime.
Context `{SpscLib, !SpscLaws, AlpiLib, MpiLib, !MpiLaws}.
Context {QP QC : Type} `{!OpQueue QP ptr, !OpQueueLaws QP ptr, !OpQueue QC ptr, !OpQueueLaws QC ptr}.
Implicit Types (w : world) (m : TicketManager QP QC) (s : system QP QC).

(** ** Counters and outstanding operations *)

(** A task that is between operations. *)
Definition outside (t : task_handle_t) s : Prop := ∀ c, c ∈ inside s → _taskHandle c ≠ t.

(** Its event counter in the runtime. *)
Definition no_events (t : task_handle_t) s : Prop :=
  increased t (w_trace (s_world s)) = decreased t (w_trace (s_world s)).

Lemma occ_outside t b s : outside t s → occ (mkContext b t) (inside s) = 0.
Proof.
  unfold outside. induction (inside s) as [|c l IH]; intros Ho; [done|]. rewrite occ_cons, IH by set_solver.
  rewrite decide_False; [done|]. intros ->. by apply (Ho (mkContext b t)); [set_solver|].
Qed.

Lemma occ_zero c l : occ c l = 0 ↔ c ∉ l.
Proof.
  induction l as [|x l IH]; [by split; [set_solver|]|]. rewrite occ_cons. case_decide; [set_solver by lia|].
  rewrite Nat.add_0_l, IH. set_solver.
Qed.

(** How often a task was blocked and by how much its events were increased, by
    what was done for it and what is outstanding. *)
Lemma counters_outstanding st0 s t :
  sys_inv st0 s → tasks_inv s → outside t s →
  blocks t (w_trace (s_world s)) =
    unblocks t (w_trace (s_world s)) + occ (mkContext true t) (outstanding s) ∧
  increased t (w_trace (s_world s)) =
    decreased t (w_trace (s_world s)) + occ (mkContext false t) (outstanding s).
Proof.
  intros Hi Ht Ho. pose proof (delegated_split _ _ Hi) as Hd. split.
  - pose proof (ti_blocks _ Ht t) as Hb. rewrite (occ_outside t true s Ho) in Hb. unfold contexts in Hb.
    rewrite Hd, occ_app, <-unblocks_notified in Hb. lia.
  - rewrite increased_bound, (si_bound _ _ Hi). unfold nonblocking.
    rewrite occ_filter_true, Hd, occ_app, <-decreased_notified. lia.
Qed.

(** ** Served operations *)

(** MPI was given the call of [x] and reported its request, whose status was
    [written] where the task asked for it, or had completed it at once. *)
Definition served (written : list (pointer * status)) s (x : mpi_call * Ticket) : Prop :=
  ∃ r, (x.1, r) ∈ issues (w_trace (s_world s)) ∧
    (r = REQUEST_NULL ∨
     ∃ st, (r, st) ∈ reports (w_trace (s_world s)) ∧
       (ignoreStatus x.2 = false → (_firstStatus x.2, st) ∈ written)).

(** An operation whose context is not outstanding is finished. *)
Lemma finished_served st0 s :
  sys_inv st0 s →
  ∃ written, w_status (s_world s) = write_statuses st0 written ∧
    ∀ x, x ∈ s_delegated s → _taskContext x.2 ∉ outstanding s → served written s x.
Proof.
  intros [_ (tr & fin & [Hd His He Hok Hr _ Hst]) _]. exists (fin ≫= fin_status). split; [done|].
  intros x Hx Hout. unfold outstanding in Hout. rewrite !not_elem_of_app in Hout.
  destruct Hout as (Ht & Hq & Hf & _). rewrite Hd, !elem_of_app in Hx.
  destruct Hx as [Hx|[Hx|Hx]].
  { destruct Ht. apply list_elem_of_fmap. by exists x. }
  { destruct Hq. apply list_elem_of_fmap. by exists x. }
  apply list_elem_of_fmap in Hx as ([[c r] t] & -> & Hy). simpl in *. exists r. split.
  { rewrite His. apply list_elem_of_fmap. by exists (c, r, t). }
  assert ((r, t) ∈ m_inflight (s_manager s) ++ fin.*1) as Hin.
  { rewrite <-He. apply list_elem_of_fmap. by exists (c, r, t). }
  apply elem_of_app in Hin as [Hin|Hin].
  { destruct Hf. apply list_elem_of_fmap. by exists (r, t). }
  apply list_elem_of_fmap in Hin as ([[r' t'] [st|]] & [= -> ->] & Hin).
  - right. exists st. split.
    + rewrite Hr. apply list_elem_of_omap. by exists (r', t', Some st).
    + intros Hig. apply list_elem_of_bind. exists (r', t', Some st). split; [|done].
      unfold fin_status, status_of. simpl in Hig |- *. rewrite Hig. by left.
  - left. rewrite Forall_forall in Hok. by apply (Hok _ Hin).
Qed.

(** ** Blocking calls and the order of issue *)

Context `{!OpLanes QP ptr, !OpLanesLaws QP ptr, !OpLanes QC ptr, !OpLanesLaws QC ptr}.

(** Runs with their pushes in which only running tasks start operations. *)
Definition task_logged_step (x y : system QP QC * op_log) : Prop :=
  logged_step x y ∧ task_step x.1 y.1.

Lemma task_logged_inv st0 x y :
  rtc task_logged_step x y → sys_inv st0 x.1 → tasks_inv x.1 → (∃ log, ordered x.1 x.2 log) →
  sys_inv st0 y.1 ∧ tasks_inv y.1 ∧ ∃ log, ordered y.1 y.2 log.
Proof.
  induction 1 as [|x y z [Hl Ht] _ IH]; [done|]. intros Hi Hti Ho. apply IH.
  - by eapply step_inv; [apply Ht|].
  - by eapply tasks_inv_step.
  - by eapply ordered_step.
Qed.

Lemma task_logged_task x y : rtc task_logged_step x y → rtc task_step x.1 y.1.
Proof. induction 1 as [|x y z [_ Hs] _ IH]; [done|]. by eapply rtc_l. Qed.

(** What waits is outstanding. *)
Lemma waiting_outstanding st0 s src x :
  sys_inv st0 s → x ∈ waiting src (s_manager s) (s_world s) → _taskContext x.2 ∈ outstanding s.
Proof.
  intros Hi Hx. pose proof (si_manager _ _ Hi) as Hm. unfold outstanding. rewrite !elem_of_app.
  right. left. apply list_elem_of_fmap. exists x. split; [done|]. unfold queued. apply elem_of_app.
  destruct src as [l|l]; simpl in Hx; unfold queued_data in *;
    apply list_elem_of_omap in Hx as (p & Hp & Hx); [left|right]; apply list_elem_of_omap; exists p;
    (split; [|done]; eapply q_lane_contents; [apply Hm|done]).
Qed.

(** If nothing of [l2] has the property of [x], a list that ends in [l2] splits
    at [x] before it. *)
Lemma split_before {A} (P : A → Prop) (l1 l2 before after : list A) x :
  P x → Forall (λ y, ¬ P y) l2 → before ++ x :: after = l1 ++ l2 →
  ∃ rest, l1 = before ++ x :: rest.
Proof.
  intros Hx Hl Heq. apply app_eq_inv in Heq as [(k & -> & Hk)|(k & -> & Hk)].
  - subst l2. apply Forall_app in Hl as [_ Hl]. by apply Forall_cons in Hl as [? _].
  - destruct k as [|y k]; simpl in Hk; [subst l2|injection Hk as -> ->; by exists k].
    by apply Forall_cons in Hl as [? _].
Qed.
End runtime.

(** ** Properties *)

Section runtime_claims.
Context `{SpscLib, !SpscLaws, AlpiLib, MpiLib, !MpiLaws}.
Context {QP QC : Type} `{!OpQueue QP ptr, !OpQueueLaws QP ptr, !OpQueue QC ptr, !OpQueueLaws QC ptr}.

(** In every run in which tasks behave as the runtime runs them, when a task
    runs, after its blocks were matched, every operation it delegated in
    blocking mode has been given to MPI, MPI has reported its completion (or
    completed it at once), and its status was written where the task asked for
    it; when besides the events of the task are fulfilled, so that it can
    complete and release its dependencies, this holds of all its operations. *)
Theorem task_goes_on_only_when_served (m0 : TicketManager QP QC) w0 s t :
  orderly (_generalTesting m0) → fresh_manager m0 → fresh_world w0 → rtc task_step (mkSystem m0 w0 [] [] [] []) s →
  running t s →
  ∃ written, w_status (s_world s) = write_statuses (w_status w0) written ∧
    ∀ x, x ∈ s_delegated s → _taskHandle (_taskContext x.2) = t →
      _blocking (_taskContext x.2) = true ∨ no_events t s → served written s x.
Proof.
  intros Ho Hm Hw Hr [Hrun Hout]. pose proof (fresh_inv _ _ Ho Hm Hw) as Hi0.
  pose proof (run_inv _ _ _ (task_step_sys _ _ Hr) Hi0) as Hi.
  pose proof (tasks_inv_run _ _ _ Hr Hi0 (fresh_tasks_inv _ _ Hw)) as Ht.
  destruct (counters_outstanding _ _ t Hi Ht Hout) as [Hb He].
  destruct (finished_served _ _ Hi) as (written & Hst & Hserved). exists written. split; [done|].
  intros [c [[[] u] a]] Hx Hu Hcase; simpl in Hu, Hcase; subst u; apply Hserved; [done| |done|];
    apply occ_zero; simpl; [lia|]. destruct Hcase as [|Hcase]; [done|]. unfold no_events in Hcase. lia.
Qed.

(** Conversely no task is held back: in such a run a task that is between
    operations can run exactly when none of its blocking operations is
    outstanding, and its events are fulfilled exactly when none of its
    non-blocking operations is. *)
Theorem task_not_held_back (m0 : TicketManager QP QC) w0 s t :
  orderly (_generalTesting m0) → fresh_manager m0 → fresh_world w0 → rtc task_step (mkSystem m0 w0 [] [] [] []) s →
  outside t s →
  (running t s ↔ mkContext true t ∉ outstanding s) ∧
  (no_events t s ↔ mkContext false t ∉ outstanding s).
Proof.
  intros Ho Hm Hw Hr Hout. pose proof (fresh_inv _ _ Ho Hm Hw) as Hi0.
  pose proof (run_inv _ _ _ (task_step_sys _ _ Hr) Hi0) as Hi.
  pose proof (tasks_inv_run _ _ _ Hr Hi0 (fresh_tasks_inv _ _ Hw)) as Ht.
  destruct (counters_outstanding _ _ t Hi Ht Hout) as [Hb He].
  rewrite <-!occ_zero. unfold running, no_events. split; split; [intros [? _]; lia| |lia..].
  intros Hz. split; [lia|done].
Qed.

Context `{!OpLanes QP ptr, !OpLanesLaws QP ptr, !OpLanes QC ptr, !OpLanesLaws QC ptr}.

(** C15: a blocking operation keeps the program order of its task across CPUs:
    when a task runs again after a blocking operation, on whatever CPU it was
    resumed, that operation and everything that was pushed before it on the same
    source has already been given to MPI, in that order. Requests are tested
    with MPI_Test or MPI_Testany, for every MPI library, or with MPI_Testsome,
    the default, for a library that returns its indices in ascending order,
    which the MPI standard does not promise. *)
Theorem blocking_call_flushes (m0 : TicketManager QP QC) w0 s pushes t src before x after :
  orderly (_generalTesting m0) → fresh_manager m0 → fresh_world w0 →
  rtc task_logged_step (mkSystem m0 w0 [] [] [] [], []) (s, pushes) → running t s →
  tagged src pushes = before ++ x :: after → _taskContext x.2 = mkContext true t →
  ∃ log rest, (issues (w_trace (s_world s))).*1 = log.*2.*1 ∧ tagged src log = before ++ x :: rest.
Proof.
  intros Ho Hm Hw Hr [Hrun Hout] Hp Hx.
  destruct (task_logged_inv _ _ _ Hr (fresh_inv _ _ Ho Hm Hw) (fresh_tasks_inv _ _ Hw))
    as (Hi & Ht & log & His & Hl); [exists []; by apply fresh_ordered|]. simpl in *.
  destruct (counters_outstanding _ _ t Hi Ht Hout) as [Hb _].
  rewrite Hl in Hp. symmetry in Hp.
  assert (mkContext true t ∉ outstanding s) as Hno by (apply occ_zero; lia).
  assert (Forall (λ y, _taskContext y.2 ≠ mkContext true t) (waiting src (s_manager s) (s_world s))) as Hw'.
  { apply Forall_forall. intros y Hy Heq. apply Hno. rewrite <-Heq. by eapply waiting_outstanding. }
  destruct (split_before (λ y, _taskContext y.2 = mkContext true t) _ _ _ _ _ Hx Hw' Hp) as [rest Hrest].
  by exists log, rest.
Qed.
End runtime_claims.

(** ** Evaluations *)

Section runtime_witness.
Import ListSpsc.

(** Task 7 sends without blocking and then receives in blocking mode, both on
    CPU 1; it blocks, and a poll serves both operations. *)
Definition recv_op (task : task_handle_t) : Operation :=
  newOperation task RECV BLK 700 8 2 1 42 91 200.
Definition recv_data : mpi_call * Ticket :=
  (Irecv 700 8 2 1 42 91, mkTicket (mkContext true 7) 200).

(** The value of a computation, [d] if it fails. *)
Definition ok_or {A} (d : A) (r : outcome A) : A := match r with Ok a => a | _ => d end.

Definition recv2 : TaskContext * nat * world :=
  ok_or send1 (begin_operation (Op:=Operation) 1 BLK 7 recv_op send1.2).
Definition recv2_pushed : bool * demo_manager_type :=
  ok_or send1_pushed (addOperation_p2p 1 recv2.1.2 send1_pushed.2).
Definition recv2_blocked : world := ok_or recv2.2 (end_operation recv2.1.1 recv2.2).
Definition recv2_polled : nat * nat * demo_manager_type * world :=
  ok_or (0, 0, recv2_pushed.2, recv2_blocked) (checkRequests 0 recv2_pushed.2 recv2_blocked).

Definition recv_pushes : op_log := [(P2p 1, send_data 500); (P2p 1, recv_data)].

(** The states of the run. *)
Notation demo_system := (system (MultiLockFreeQueue nat) (Boost.BoostLockFreeQueue nat)).
Definition recv_s0 : demo_system := mkSystem demo_manager order_world [] [] [] [].
Definition recv_s1 : demo_system :=
  mkSystem demo_manager send1.2 [(send1.1.2, send1.1.1)] [] [] [send_data 500].
Definition recv_s2 : demo_system :=
  mkSystem send1_pushed.2 send1.2 [] [] (enter_wait send1.1.1 []) [send_data 500].
Definition recv_s3 : demo_system :=
  mkSystem send1_pushed.2 recv2.2 [(recv2.1.2, recv2.1.1)] [] [] [send_data 500; recv_data].
Definition recv_s4 : demo_system :=
  mkSystem recv2_pushed.2 recv2.2 [] [] (enter_wait recv2.1.1 []) [send_data 500; recv_data].
Definition recv_s5 : demo_system :=
  mkSystem recv2_pushed.2 recv2_blocked [] [] [] [send_data 500; recv_data].
Definition recv_final : demo_system :=
  mkSystem recv2_polled.1.2 recv2_polled.2 [] [] [] [send_data 500; recv_data].

Lemma recv_step1 : sys_step recv_s0 recv_s1.
Proof.
  apply (step_begin_p2p demo_manager order_world [] [] [] [] 1 NONBLK 7 (send_op 500) send1.1.1
    send1.1.2 send1.2 (send_data 500)); [vm_compute; lia| |by vm_compute..].
  eexists _, _. split_and!; [done..|]. by left.
Qed.

Lemma recv_step2 : sys_step recv_s1 recv_s2.
Proof.
  apply (step_push_p2p _ _ [] [] _ _ _ 1 send1.1.2 send1.1.1 send1_pushed.2);
    [vm_compute; lia|by vm_compute].
Qed.

Lemma recv_step3 : sys_step recv_s2 recv_s3.
Proof.
  apply (step_begin_p2p send1_pushed.2 send1.2 [] [] [] [send_data 500] 1 BLK 7 recv_op recv2.1.1
    recv2.1.2 recv2.2 recv_data); [vm_compute; lia| |by vm_compute..].
  eexists _, _. split_and!; [done..|]. by right.
Qed.

Lemma recv_step4 : sys_step recv_s3 recv_s4.
Proof.
  apply (step_push_p2p _ _ [] [] _ _ _ 1 recv2.1.2 recv2.1.1 recv2_pushed.2);
    [vm_compute; lia|by vm_compute].
Qed.

Lemma recv_step5 : sys_step recv_s4 recv_s5.
Proof. apply (step_block _ _ _ _ [] [] _ recv2.1.1). by vm_compute. Qed.

Lemma recv_step6 : sys_step recv_s5 recv_final.
Proof. apply (step_poll _ _ _ _ _ _ 0 recv2_polled.1.1.1 recv2_polled.1.1.2). by vm_compute. Qed.

Lemma recv_outside s : s_pp s = [] → s_pc s = [] → s_blocking s = [] → outside 7 (s : demo_system).
Proof. intros Hp Hc Hb c Hin. unfold inside in Hin. rewrite Hp, Hc, Hb in Hin. by apply elem_of_nil in Hin. Qed.

(** A step that delegates nothing needs no running task. *)
Lemma task_step_quiet {QP QC} `{!OpQueue QP ptr, !OpQueue QC ptr} (s s' : system QP QC) :
  sys_step s s' → s_delegated s' = s_delegated s → task_step s s'.
Proof.
  intros Hs Hd. split; [done|]. intros x Hx. rewrite Hd in Hx. apply (f_equal length) in Hx.
  rewrite length_app in Hx. simpl in Hx. lia.
Qed.

(** A running task delegates [x]. *)
Lemma task_step_delegates {QP QC} `{!OpQueue QP ptr, !OpQueue QC ptr} (s s' : system QP QC) x :
  sys_step s s' → s_delegated s' = s_delegated s ++ [x] →
  running (_taskHandle (_taskContext x.2)) s → task_step s s'.
Proof.
  intros Hs Hd Hr. split; [done|]. intros x' Hx. rewrite Hd in Hx. by apply app_inj_tail in Hx as [_ ->].
Qed.

Lemma recv_run : rtc task_logged_step (recv_s0, []) (recv_final, recv_pushes).
Proof.
  apply (rtc_l _ _ (recv_s1, [])); [|apply (rtc_l _ _ (recv_s2, [(P2p 1, send_data 500)]));
    [|apply (rtc_l _ _ (recv_s3, [(P2p 1, send_data 500)])); [|apply (rtc_l _ _ (recv_s4, recv_pushes));
    [|apply (rtc_l _ _ (recv_s5, recv_pushes)); [|apply rtc_once]]]]].
  - split; [apply logged_other; [exact recv_step1|simpl; lia..]|].
    apply (task_step_delegates _ _ (send_data 500) recv_step1 eq_refl).
    split; [by vm_compute; lia|by apply recv_outside].
  - split; [|exact (task_step_quiet _ _ recv_step2 eq_refl)].
    change (logged_step (recv_s1, []) (recv_s2, [(P2p (q_lane_of (_p2pOperations demo_manager) 1), send_data 500)])).
    apply (logged_push_p2p demo_manager send1.2 [] [] [] [] [send_data 500] 1 send1.1.2 send1.1.1
      send1_pushed.2 (send_data 500) []); [vm_compute; lia|by vm_compute..].
  - split; [apply logged_other; [exact recv_step3|simpl; lia..]|].
    apply (task_step_delegates _ _ recv_data recv_step3 eq_refl).
    split; [by vm_compute; lia|by apply recv_outside].
  - split; [|exact (task_step_quiet _ _ recv_step4 eq_refl)].
    change (logged_step (recv_s3, [(P2p 1, send_data 500)]) (recv_s4, [(P2p 1, send_data 500)] ++
      [(P2p (q_lane_of (_p2pOperations send1_pushed.2) 1), recv_data)])).
    apply (logged_push_p2p send1_pushed.2 recv2.2 [] [] [] [] [send_data 500; recv_data] 1 recv2.1.2
      recv2.1.1 recv2_pushed.2 recv_data [(P2p 1, send_data 500)]); [vm_compute; lia|by vm_compute..].
  - split; [apply logged_other; [exact recv_step5|apply le_n..]|exact (task_step_quiet _ _ recv_step5 eq_refl)].
  - split; [apply logged_other; [exact recv_step6|apply le_n..]|exact (task_step_quiet _ _ recv_step6 eq_refl)].
Qed.

Lemma recv_final_outside : outside 7 recv_final.
Proof. by apply recv_outside. Qed.

Lemma recv_final_running : running 7 recv_final.
Proof. split; [by vm_compute; lia|exact recv_final_outside]. Qed.

Lemma task_goes_on_only_when_served_witness :
  ∃ written, w_status (s_world recv_final) = write_statuses ∅ written ∧
    served written recv_final (send_data 500) ∧ served written recv_final recv_data.
Proof.
  destruct (task_goes_on_only_when_served _ _ _ 7 (demo_orderly _) demo_fresh_manager order_fresh_world
    (task_logged_task _ _ recv_run) recv_final_running) as (written & Hst & Hs).
  exists written. split; [exact Hst|]. split; apply Hs; [left|reflexivity| |right; left|reflexivity|].
  - right. vm_compute. reflexivity.
  - left. reflexivity.
Defined.

Lemma task_not_held_back_witness :
  mkContext true 7 ∉ outstanding recv_final ∧
  (running 7 recv_final ↔ mkContext true 7 ∉ outstanding recv_final) ∧
  (no_events 7 recv_final ↔ mkContext false 7 ∉ outstanding recv_final).
Proof.
  pose proof (task_not_held_back _ _ _ 7 (demo_orderly _) demo_fresh_manager order_fresh_world
    (task_logged_task _ _ recv_run) recv_final_outside) as H1.
  split; [|exact H1]. apply (proj1 H1), recv_final_running.
Defined.

Lemma blocking_call_flushes_witness :
  ∃ (log : op_log) rest, (issues (w_trace (s_world recv_final))).*1 = log.*2.*1 ∧
    tagged (P2p 1) log = [send_data 500; recv_data] ++ rest.
Proof.
  exact (blocking_call_flushes _ _ _ _ 7 (P2p 1) [send_data 500] recv_data [] (demo_orderly _) demo_fresh_manager
    order_fresh_world recv_run recv_final_running eq_refl eq_refl).
Defined.
End runtime_witness.
