(* ===== verification/Liveness.v ===== *)
(** * Draining

    MPI completes a request that is tested again and again, though not at once.
    With that, polling drains the library: after some number of rounds of the
    polling task and the completion task, every operation that waited in the
    pre-queues and every request in flight is finished and its task told. *)

From S2P Require Import Prelude Queues MultiQueue Allocator World Interface Tickets Operations StringSupport CapacityCtrl TicketManager OperationManager ManagerProofs PollingProofs System Demo Claims Contract.

(** ** The progress of MPI *)

(** How often a request was tested. *)
Definition tests_of (r : request) : list event → nat := sum_list_with (λ e,
  match e with EvTest rs _ _ => if decide (r ∈ rs) then 1 else 0 | _ => 0 end).

Lemma tests_of_app r es es' : tests_of r (es ++ es') = tests_of r es + tests_of r es'.
Proof. apply sum_list_with_app. Qed.

Lemma tests_of_length r es : tests_of r es ≤ length es.
Proof.
  unfold tests_of. induction es as [|e es IH]; simpl; [done|]. destruct e; try lia. case_decide; lia.
Qed.

(** How often a request occurs. *)
Definition times (r : request) (l : list request) : nat := length (filter (λ x, x = r) l).

Lemma times_app r l l' : times r (l ++ l') = times r l + times r l'.
Proof. unfold times. by rewrite filter_app, length_app. Qed.

Lemma times_perm r l l' : l ≡ₚ l' → times r l = times r l'.
Proof. unfold times. by intros ->. Qed.

Lemma times_pos r l : r ∈ l → 0 < times r l.
Proof.
  unfold times. intros Hin. assert (r ∈ filter (λ x, x = r) l) as Hf by by apply list_elem_of_filter.
  destruct (filter _ l); [by apply elem_of_nil in Hf|simpl; lia].
Qed.

(** MPI was given a call with this request and has not reported it. *)
Definition in_progress (t : list event) (r : request) : Prop :=
  times r (reports t).*1 < times r (issues t).*2.

(** Every test of requests that include [r] finds one that completed. *)
Definition completes `{MpiLib} (t : list event) (r : request) : Prop :=
  to_flag (mpi_test t r) = true ∧
  (∀ reqs, r ∈ reqs → Forall (λ r, r ≠ MPI_REQUEST_NULL) reqs → ta_flag (mpi_testany t reqs) = true) ∧
  (∀ reqs, r ∈ reqs → Forall (λ r, r ≠ MPI_REQUEST_NULL) reqs → ts_indices (mpi_testsome t reqs) ≠ []).

(** The progress rule of the MPI standard, in a program whose operations are
    matched by their partners: a test that is repeated with the same request
    eventually succeeds.  How many tests it takes may depend on the request and
    on all that happened before. *)
Class MpiFair `{MpiLib} : Prop := mpi_fair t r :
  r ≠ MPI_REQUEST_NULL → in_progress t r →
  ∃ n, ∀ es, r ∉ (reports es).*1 → n ≤ tests_of r es → completes (t ++ es) r.

(** ** The first test of a poll *)

Section tests.
Context `{SpscLib, MpiLib, !MpiLaws}.
Implicit Types w : world.

(** Both loops only add to the indices. *)
Lemma testany_loop_grows fuel processed reqs ix sts w ix' reqs' sts' w' :
  testany_loop fuel processed reqs ix sts w = Ok (ix', reqs', sts', w') → ∃ more, ix' = ix ++ more.
Proof.
  revert processed reqs ix sts w. induction fuel as [|fuel IH]; intros processed reqs ix sts w Hr;
    cbn [testany_loop] in Hr; destruct (length reqs <=? processed);
    try (simplify_eq; exists []; by rewrite app_nil_r).
  apply bind_Ok in Hr as ([[[found rest] st] w1] & _ & Hr). destruct found as [i|].
  - destruct (IH _ _ _ _ _ Hr) as [more ->]. exists ([i + processed] ++ more). by rewrite app_assoc.
  - simplify_eq. exists []. by rewrite app_nil_r.
Qed.

Lemma test_loop_grows r dn todo ix sts w ix' reqs' sts' w' :
  test_loop r dn todo ix sts w = Ok (ix', reqs', sts', w') →
  (∃ more, ix' = ix ++ more) ∧ ∃ es, w_trace w' = w_trace w ++ es.
Proof.
  revert r dn ix sts w. induction todo as [|q todo IH]; intros r dn ix sts w Hr;
    cbn [test_loop] in Hr; [simplify_eq; split; exists []; by rewrite app_nil_r|].
  apply bind_Ok in Hr as ([[[flag req] st] w1] & Ht & Hr).
  assert (∃ e, w_trace w1 = w_trace w ++ [e]) as [e He].
  { unfold test in Ht. apply bind_Ok in Ht as (? & _ & Ht). simplify_eq. by eexists. }
  destruct flag; destruct (IH _ _ _ _ _ Hr) as [[more ->] [es Hes]]; rewrite He, <-app_assoc in Hes.
  - split; [exists ([r] ++ more); by rewrite app_assoc|by eexists].
  - by split; eexists.
Qed.

(** Testing requests of which the first is [r]: if nothing completed, [r] was
    tested and is not one that completes. *)
Lemma first_test approach r reqs w reqs' sts w' :
  approach ≠ None_ → Forall (λ r, r ≠ MPI_REQUEST_NULL) (r :: reqs) →
  internalTestRequests approach (r :: reqs) w = Ok ([], reqs', sts, w') →
  ¬ completes (w_trace w) r ∧ ∃ es, w_trace w' = w_trace w ++ es ∧ 0 < tests_of r es.
Proof.
  intros Ha HF Ht. assert (r ∈ r :: reqs) as Hin by left. destruct approach; simpl in Ht; [| | |done].
  - apply bind_Ok in Ht as ([[[flag req] st] w1] & Htest & Ht). unfold test in Htest.
    apply bind_Ok in Htest as (? & _ & Htest). simplify_eq.
    destruct (to_flag (mpi_test (w_trace w) r)) eqn:Hflag; apply test_loop_grows in Ht as [[more Hm] [es Hes]];
      [by destruct more|].
    split; [intros [Hc _]; congruence|]. eexists. rewrite Hes. cbn [w_trace w_log].
    split; [by rewrite <-app_assoc|]. cbn. rewrite decide_True by set_solver. lia.
  - unfold testsome in Ht. apply bind_Ok in Ht as (? & Herr%fail_if_Ok & Ht).
    apply bool_decide_eq_false, dec_stable in Herr.
    destruct (mpi_testsome_law (w_trace w) (r :: reqs) HF ltac:(done) Herr) as (Hc & _). rewrite Hc in Ht.
    rewrite take_ge in Ht by done. simplify_eq. split; [intros (_ & _ & Hc'); by apply (Hc' _ Hin HF)|].
    eexists. split; [done|]. cbn. rewrite decide_True by done. lia.
  - apply bind_Ok in Ht as ([[[found rest] st] w1] & Htest & Ht).
    unfold testany in Htest. apply bind_Ok in Htest as (? & _ & Htest).
    destruct (ta_flag (mpi_testany (w_trace w) (r :: reqs))) eqn:Hflag.
    { destruct (ta_index _); simplify_eq. by apply testany_loop_grows in Ht as [more Hm]. }
    simplify_eq. split; [intros (_ & Hc & _); by rewrite (Hc _ Hin HF) in Hflag|].
    eexists. split; [done|]. cbn. rewrite decide_True by done. lia.
Qed.
End tests.

Section draining.
Context `{SpscLib, !SpscLaws, AlpiLib, MpiLib, !MpiLaws}.
Context {QP QC : Type} `{!OpQueue QP ptr, !OpQueueLaws QP ptr, !OpQueue QC ptr, !OpQueueLaws QC ptr}.
Context {pp pc : list ptr}.
Implicit Types (w : world) (m : TicketManager QP QC).
Notation minv := (manager_inv pp pc).

(** The request at the first position. *)
Definition head_request m : option request := _requests (_arrays m) !! 0.

Lemma check_batches_grows fuel use approach pending checked indices a w ix a' w' :
  check_batches fuel use approach pending checked indices a w = Ok (ix, a', w') →
  ∃ more, ix = indices ++ more.
Proof.
  revert checked indices a w. induction fuel as [|fuel IH]; intros checked indices a w Hr; [done|].
  cbn [check_batches] in Hr. apply bind_Ok in Hr as (reqs & _ & Hr).
  apply bind_Ok in Hr as ([[[jx reqs'] sts] w1] & _ & Hr).
  apply bind_Ok in Hr as ([cs w2] & _ & Hr). apply bind_Ok in Hr as (w3 & _ & Hr).
  destruct (_ <? _); [|by simplify_eq; eexists].
  destruct (IH _ _ _ _ Hr) as [more ->]. rewrite <-app_assoc. by eexists.
Qed.

(** The requests in flight are active. *)
Lemma slice_active m w count reqs :
  minv m w → slice (_requests (_arrays m)) 0 count = Some reqs → count ≤ _pending m →
  Forall (λ r, r ≠ MPI_REQUEST_NULL) reqs.
Proof.
  intros Hi Hs Hle. apply Forall_lookup. intros i r Hr.
  assert (i < count) as Hlt by (apply slice_length in Hs; apply lookup_lt_Some in Hr; lia).
  rewrite <-(slice_lookup _ _ _ _ i Hs Hlt) in Hr. simpl in Hr.
  destruct (inflight_at _ _ i Hi ltac:(lia)) as (r' & t & _ & Hr' & _ & Hn & _).
  rewrite Hr' in Hr. injection Hr as <-. exact Hn.
Qed.

(** The requests in flight are tested and none has completed: the request at the
    first position was tested, is not one that completes, and stays there. *)
Lemma check_idle m w m' w' r :
  minv m w → _generalTesting m ≠ None_ → head_request m = Some r →
  internalCheckRequests m w = Ok (0, m', w') →
  ¬ completes (w_trace w) r ∧ head_request m' = Some r ∧
  ∃ es, w_trace w' = w_trace w ++ es ∧ 0 < tests_of r es.
Proof.
  intros Hi Hg Hh Hr. unfold internalCheckRequests in Hr.
  apply bind_Ok in Hr as (? & Hp%assert_Ok%Nat.ltb_lt & Hr).
  apply bind_Ok in Hr as ([[ix a] w1] & Hb & Hr). apply bind_Ok in Hr as (a' & Hc & Hr). simplify_eq.
  destruct ix; [|done]. simpl in *. unfold compact in Hc. simpl in Hc. injection Hc as <-.
  assert (_requests a !! 0 = Some r) as Ha.
  { pose proof (all_batches_post True m w (or_introl I) Hi Hp) as Hpost. rewrite Hb in Hpost.
    destruct Hpost as (new & fin & _ & Hbi & _). rewrite (bi_requests _ _ _ _ _ Hbi) by done. exact Hh. }
  destruct (_pending m) as [|k] eqn:Hk; [lia|]. cbn [check_batches] in Hb.
  apply bind_Ok in Hb as (reqs & Hs%read_Ok & Hb).
  apply bind_Ok in Hb as ([[[jx reqs'] sts] w2] & Ht & Hb).
  apply bind_Ok in Hb as ([cs w3] & Hcb & Hb). apply bind_Ok in Hb as (w4 & Ho & Hb).
  assert (jx = []) as ->.
  { assert (∃ more, [] = ((λ i, i + 0) <$> jx) ++ more) as [more Hm].
    { destruct (_ <? _); [by eapply check_batches_grows|simplify_eq; exists []; by rewrite app_nil_r]. }
    by destruct jx. }
  simpl in Hcb. injection Hcb as <- <-. unfold hand_over in Ho. rewrite andb_false_r in Ho. injection Ho as <-.
  assert (∃ rest, reqs = r :: rest) as [rest ->].
  { pose proof (slice_lookup _ _ _ _ 0 Hs ltac:(unfold BatchSize; lia)) as Hl. simpl in Hl.
    unfold head_request in Hh. rewrite Hh in Hl. destruct reqs; simplify_eq/=. by eexists. }
  apply first_test in Ht as (Hnc & es & Hes & Hpos); [|done|eapply slice_active; [done|exact Hs|rewrite Hk; lia]].
  split_and!; [done|exact Ha|].
  assert (adds_polling w2 w') as (es' & Hes' & _).
  { destruct (_ <? _); [|simplify_eq; exists []; by rewrite app_nil_r].
    pose proof (check_batches_polls k (isEnabled w) (_generalTesting m) (S k) (0 + (S k - 0) `min` BatchSize)
      ([] ++ []) (mkInternals (store 0 reqs' (_requests (_arrays m))) (_mappings (_arrays m)) (_tickets (_arrays m))) w2) as Hpo.
    simpl in Hpo, Hb. rewrite Hb in Hpo. exact Hpo. }
  exists (es ++ es'). rewrite Hes', Hes, <-app_assoc, tests_of_app. split; [done|lia].
Qed.

(** The approach to testing is fixed. *)
Lemma transfer_testing `{!OpType Op} ops m w m' w' :
  transferOperations (Op:=Op) ops m w = Ok (m', w') → _generalTesting m' = _generalTesting m.
Proof.
  unfold transferOperations. intros Hr. do 2 (apply bind_Ok in Hr as (? & _ & Hr)).
  apply bind_Ok in Hr as ([[[? ?] ?] ?] & _ & Hr). apply bind_Ok in Hr as ([? ?] & _ & Hr).
  apply bind_Ok in Hr as (? & _ & Hr). by simplify_eq.
Qed.

Lemma take_testing {Q} `{!OpQueue Q ptr} `{!OpType Op} n (q : Q) set_queue m w k m' w' :
  (∀ q, _generalTesting (set_queue q m) = _generalTesting m) →
  take_operations (Op:=Op) n q set_queue m w = Ok (k, m', w') →
  _generalTesting m' = _generalTesting m.
Proof.
  intros Hset Hr. unfold take_operations in Hr. apply bind_Ok in Hr as ([ops q'] & _ & Hr).
  apply bind_Ok in Hr as ([m1 w1] & Ht & Hr). simplify_eq.
  destruct (0 <? length ops); [|by simplify_eq].
  apply transfer_testing in Ht. by rewrite Ht.
Qed.

Lemma check_queues_testing fuel navailable ntotal m w k m' w' :
  check_queues fuel navailable ntotal m w = Ok (k, m', w') → _generalTesting m' = _generalTesting m.
Proof.
  revert ntotal m w. induction fuel as [|fuel IH]; intros ntotal m w Hr; [done|].
  cbn [check_queues] in Hr. apply bind_Ok in Hr as ([[n1 m1] w1] & Ht1%take_testing & Hr); [|done].
  apply bind_Ok in Hr as ([[n2 m2] w2] & Ht2%take_testing & Hr); [|done].
  destruct (_ && _); [apply IH in Hr|simplify_eq]; congruence.
Qed.

Lemma check_loop_testing fuel total m w n m' w' :
  check_loop fuel total m w = Ok (n, m', w') → _generalTesting m' = _generalTesting m.
Proof.
  revert total m w. induction fuel as [|fuel IH]; intros total m w Hr; [done|].
  cbn [check_loop] in Hr. apply bind_Ok in Hr as ([[ins m1] w1] & Hins & Hr).
  apply bind_Ok in Hr as ([[cm m2] w2] & Hcm & Hr).
  assert (_generalTesting m1 = _generalTesting m) as H1'.
  { destruct (_pending m <? _); [by eapply check_queues_testing|by simplify_eq]. }
  assert (_generalTesting m2 = _generalTesting m1) as H2'.
  { destruct (0 <? _pending m1); [|by simplify_eq]. unfold internalCheckRequests in Hcm.
    apply bind_Ok in Hcm as (? & _ & Hcm). apply bind_Ok in Hcm as ([[? ?] ?] & _ & Hcm).
    apply bind_Ok in Hcm as (? & _ & Hcm). by simplify_eq. }
  destruct (_ || _); [apply IH in Hr|simplify_eq]; congruence.
Qed.

Lemma checkRequests_testing now m w n k m' w' :
  checkRequests now m w = Ok (n, k, m', w') → _generalTesting m' = _generalTesting m.
Proof.
  unfold checkRequests. intros Hr. apply bind_Ok in Hr as ([[n1 m1] w1] & Hl%check_loop_testing & Hr). by simplify_eq.
Qed.

(** ** A poll in which nothing happens *)

Lemma take_idle {Q} `{!OpQueue Q ptr} `{!OpType Op} n (q : Q) set_queue m w m' w' :
  take_operations (Op:=Op) n q set_queue m w = Ok (0, m', w') → w' = w ∧ ∃ q', m' = set_queue q' m.
Proof.
  unfold take_operations. intros Hr. apply bind_Ok in Hr as ([ops q'] & _ & Hr).
  apply bind_Ok in Hr as ([m1 w1] & Ht & Hr). simplify_eq. destruct ops; [|done]. simplify_eq/=. eauto.
Qed.

Lemma check_queues_ge fuel navailable ntotal m w n m' w' :
  check_queues fuel navailable ntotal m w = Ok (n, m', w') → ntotal ≤ n.
Proof.
  revert ntotal m w. induction fuel as [|fuel IH]; intros ntotal m w Hr; [done|].
  cbn [check_queues] in Hr. apply bind_Ok in Hr as ([[n1 m1] w1] & _ & Hr).
  apply bind_Ok in Hr as ([[n2 m2] w2] & _ & Hr). destruct (_ && _); [apply IH in Hr|simplify_eq]; lia.
Qed.

(** Nothing but the pre-queues, whose counters may be refreshed, differs. *)
Definition same_requests m m' : Prop :=
  _arrays m' = _arrays m ∧ _pending m' = _pending m ∧ _generalTesting m' = _generalTesting m.

Lemma insert_idle m w m' w' :
  (if _pending m <? get (_capacityCtrl m)
   then internalCheckOperationQueues (BatchSize * 2) m w else Ok (0, m, w)) = Ok (0, m', w') →
  w' = w ∧ same_requests m m'.
Proof.
  destruct (_ <? _); [|by intros [= -> ->]]. unfold internalCheckOperationQueues. cbn [check_queues].
  intros Hr. apply bind_Ok in Hr as ([[n1 m1] w1] & H1' & Hr). apply bind_Ok in Hr as ([[n2 m2] w2] & H2' & Hr).
  assert (n1 = 0 ∧ n2 = 0) as [-> ->].
  { destruct (_ && _); [apply check_queues_ge in Hr|simplify_eq]; lia. }
  apply take_idle in H1' as [-> [q1 ->]]. apply take_idle in H2' as [-> [q2 ->]].
  rewrite andb_false_r in Hr. by simplify_eq.
Qed.

(** A poll that does not reduce the work tests the requests in flight once. *)
Lemma poll_idle now m w n k m' w' :
  minv m w → checkRequests now m w = Ok (n, k, m', w') → workload m ≤ workload m' →
  ∃ m1, minv m1 w ∧ same_requests m m1 ∧
    (if 0 <? _pending m1 then internalCheckRequests m1 w else Ok (0, m1, w)) =
      Ok (0, set_ctrl (_capacityCtrl m1) m', w').
Proof.
  intros Hi Hc Hle. unfold checkRequests in Hc. apply bind_Ok in Hc as ([[n1 m3] w3] & Hl & Hc).
  assert (workload m' = workload m3) as Hw3 by by simplify_eq.
  cbn [check_loop] in Hl. apply bind_Ok in Hl as ([[ins m1] w1] & Hins & Hl).
  apply bind_Ok in Hl as ([[cm m2] w2] & Hcm & Hl).
  pose proof (insert_post True m w (or_introl I) Hi) as Hp1. rewrite Hins in Hp1.
  destruct Hp1 as (tr1 & fin1 & Hm1 & _ & -> & _). pose proof (mv_inv _ _ _ _ _ _ Hm1) as Hi1.
  pose proof (complete_post True m1 w1 (or_introl I) Hi1) as Hp2. rewrite Hcm in Hp2.
  destruct Hp2 as (fin2 & Hm2 & ->). pose proof (mv_inv _ _ _ _ _ _ Hm2) as Hi2.
  pose proof (mstep_workload _ _ _ _ _ _ Hi Hi1 (mv_step _ _ _ _ _ _ Hm1)) as Hw1.
  pose proof (mstep_workload _ _ _ _ _ _ Hi1 Hi2 (mv_step _ _ _ _ _ _ Hm2)) as Hw2.
  destruct ((0 <? length fin2) || (0 <? length tr1)) eqn:Hcond.
  { apply orb_prop in Hcond. rewrite !Nat.ltb_lt in Hcond.
    pose proof (check_loop_post True (workload m) (0 + length fin2) m2 w2 (or_introl I) Hi2 ltac:(lia)) as Hp3.
    rewrite Hl in Hp3. destruct Hp3 as (tr3 & fin3 & Hm3 & _).
    pose proof (mstep_workload _ _ _ _ _ _ Hi2 (mv_inv _ _ _ _ _ _ Hm3) (mv_step _ _ _ _ _ _ Hm3)). lia. }
  apply orb_false_elim in Hcond as [Hz2%Nat.ltb_ge Hz1%Nat.ltb_ge].
  assert (length tr1 = 0) as Hz1' by lia. rewrite Hz1' in Hins. apply insert_idle in Hins as [-> Hs].
  assert (length fin2 = 0) as Hz2' by lia. rewrite Hz2' in Hcm.
  exists m1. split_and!; [done..|]. rewrite Hcm. simplify_eq. simpl.
  pose proof (ms_ctrl _ _ _ _ _ _ (mv_step _ _ _ _ _ _ Hm2)) as <-. by destruct m3.
Qed.
End draining.

(** ** Rounds *)

Section rounds.
Context `{SpscLib, AlpiLib, MpiLib} {QP QC : Type} `{!OpQueue QP ptr, !OpQueue QC ptr}.

(** The polling task polls once, then the completion task runs once. *)
Definition round (now : Z) (s : system QP QC) : outcome (system QP QC) :=
  '(_, _, m, w) ← checkRequests now (s_manager s) (s_world s);
  '(_, w) ← process w;
  Ok (mkSystem m w (s_pp s) (s_pc s) (s_blocking s) (s_delegated s)).

(** [n] rounds, the [i]-th at time [now i]. *)
Fixpoint rounds (now : nat → Z) (n : nat) (s : system QP QC) : outcome (system QP QC) :=
  match n with
  | 0 => Ok s
  | S n => s ← round (now 0) s; rounds (λ i, now (S i)) n s
  end.

Lemma rounds_app now a b s s1 :
  rounds now a s = Ok s1 → rounds now (a + b) s = rounds (λ i, now (a + i)) b s1.
Proof.
  revert now s. induction a as [|a IH]; intros now s Hr; simpl in *; [by simplify_eq|].
  apply bind_Ok in Hr as (s2 & Hs & Hr). rewrite Hs. simpl. by rewrite (IH (λ i, now (S i))).
Qed.

(** Polling drains if it goes on for a while. *)
Definition work (s : system QP QC) : nat := workload (s_manager s).
End rounds.

Section eventually.
Context `{SpscLib, !SpscLaws, AlpiLib, MpiLib, !MpiLaws, !MpiFair}.
Context {QP QC : Type} `{!OpQueue QP ptr, !OpQueueLaws QP ptr, !OpQueue QC ptr, !OpQueueLaws QC ptr}.
Context (st0 : gmap Z status).
Implicit Types (w : world) (m : TicketManager QP QC) (s : system QP QC).

(** A state from which rounds return and can make progress. *)
Record live s : Prop := {
  lv_inv : sys_inv st0 s;
  lv_reliable : reliable (unfinished (s_manager s)) (s_world s);
  lv_testing : _generalTesting (s_manager s) ≠ None_;
  lv_capacity : 0 < get (_capacityCtrl (s_manager s));
}.

Lemma process_capacity w n w' : process w = Ok (n, w') → spsc_capacity (w_queue w') = spsc_capacity (w_queue w).
Proof.
  unfold process. destruct (_ =? 0); [by intros [= _ <-]|].
  pose proof (spsc_pop_spec (spsc_read_available (w_queue w)) (w_queue w)) as (_ & _ & Hcap).
  destruct (spsc_pop _ _) as [cs q]; cbn [fst snd] in *. intros Hr. apply bind_Ok in Hr as (w1 & Hc & [= _ <-]).
  pose proof (consume_all_post True cs (w_set_queue q w) (or_introl I)) as Hp. rewrite Hc in Hp.
  destruct Hp as (es & _ & _ & _ & _ & _ & ->). exact Hcap.
Qed.

(** What a round does. *)
Lemma round_live now s :
  live s → ∃ n k m1 w1 j w2 tr fin, let s' := mkSystem m1 w2 (s_pp s) (s_pc s) (s_blocking s) (s_delegated s) in
    checkRequests now (s_manager s) (s_world s) = Ok (n, k, m1, w1) ∧ process w1 = Ok (j, w2) ∧
    round now s = Ok s' ∧ live s' ∧
    poll_result (pp:=(s_pp s).*1) (pc:=(s_pc s).*1) (s_manager s) (s_world s) n k m1 w1 tr fin ∧
    work s' + length tr + length fin = work s ∧
    spsc_contents (w_queue w2) = [] ∧ same_objects w1 w2 ∧
    ∃ es, w_trace w2 = w_trace w1 ++ es ∧ reports es = [].
Proof.
  intros [Hi Hr Hg Hcap]. destruct s as [m w pp pc bl d]; simpl in *. pose proof (si_manager _ _ Hi) as Hm. simpl in Hm.
  destruct (post_False_Ok _ _ (checkRequests_post False now m w (or_intror Hr) Hm))
    as ([[[n k] m1] w1] & Hc & tr & fin & Hp).
  destruct (post_False_Ok _ _ (process_post False w1 (or_intror (proj1 (proj2 Hr)))))
    as ([j w2] & Hpr & _ & Hq2 & (es & Hes & _ & _ & Hrep & _) & Hsame & _).
  destruct (polled_workload _ _ _ _ _ _ Hm (poll_result_polled _ _ _ _ _ _ _ _ Hp)) as [Hwork Hun].
  exists n, k, m1, w1, j, w2, tr, fin. cbv zeta. split_and!; try done; [| |by exists es].
  - unfold round. simpl. rewrite Hc. simpl. by rewrite Hpr.
  - split; simpl.
    + eapply (step_inv st0 (mkSystem m1 w1 pp pc bl d)); [by eapply step_notify|].
      eapply step_inv; [by eapply step_poll|exact Hi].
    + destruct Hr as (Hmpi & Halpi & Hf). split_and!; [done..|]. destruct Hsame as (_ & _ & _ & _ & ->).
      pose proof (pr_world _ _ _ _ _ _ _ _ Hp) as Hw. rewrite (pg_enabled _ _ _ _ _ _ Hw).
      destruct Hf as [|Hf]; [by left|right]. rewrite Hq2, (process_capacity _ _ _ Hpr), (pg_capacity _ _ _ _ _ _ Hw).
      simpl. lia.
    + by rewrite (checkRequests_testing _ _ _ _ _ _ _ Hc).
    + pose proof (pr_capacity _ _ _ _ _ _ _ _ Hp). lia.
Qed.

(** A request in flight is one that MPI works on. *)
Lemma head_in_progress s :
  sys_inv st0 s → 0 < _pending (s_manager s) →
  ∃ r, head_request (s_manager s) = Some r ∧ r ≠ MPI_REQUEST_NULL ∧ in_progress (w_trace (s_world s)) r.
Proof.
  intros Hi Hp. pose proof (si_manager _ _ Hi) as Hm.
  destruct (inflight_at _ _ 0 Hm Hp) as (r & t & He & Hr & _ & Hn & _). exists r. split_and!; [done..|].
  destruct (si_history _ _ Hi) as (tr & fin & [_ His Hent _ Hrep _ _]). unfold in_progress.
  assert ((issues (w_trace (s_world s))).*2 ≡ₚ (m_inflight (s_manager s)).*1 ++ fin.*1.*1) as ->%(times_perm r).
  { rewrite His. apply (fmap_Permutation fst) in Hent. rewrite fmap_app in Hent. rewrite <-Hent.
    by rewrite <-!list_fmap_compose. }
  rewrite Hrep, times_app.
  assert (times r (omap fin_report fin).*1 ≤ times r fin.*1.*1) as Hle.
  { clear. unfold times. induction fin as [|[[q t] [st|]] fin IH]; [done|..]; csimpl; rewrite !filter_cons;
      repeat case_decide; csimpl; lia. }
  assert (r ∈ (m_inflight (s_manager s)).*1) as Hin%times_pos; [|lia].
  apply list_elem_of_fmap. exists (r, t). split; [done|]. apply list_elem_of_omap. exists 0.
  split; [apply elem_of_seq; lia|done].
Qed.

(** A round finishes or issues something, or tests a request that is not ready. *)
Lemma round_tests now s r :
  live s → 0 < _pending (s_manager s) → head_request (s_manager s) = Some r →
  ∃ s', round now s = Ok s' ∧ live s' ∧ s_pp s' = s_pp s ∧ s_pc s' = s_pc s ∧
    (work s' < work s ∨
     work s' = work s ∧ ¬ completes (w_trace (s_world s)) r ∧ 0 < _pending (s_manager s') ∧
     head_request (s_manager s') = Some r ∧
     ∃ es, w_trace (s_world s') = w_trace (s_world s) ++ es ∧ reports es = [] ∧ 0 < tests_of r es).
Proof.
  intros Hl Hpos Hh.
  destruct (round_live now s Hl) as (k1 & k2 & m1 & w1 & k3 & w2 & tr & fin & Hc & _ & Hround & Hl' & Hp & Hw & _ & _ & es2 & Hes2 & Hrep2).
  eexists. split_and!; [exact Hround|done|done|done|]. pose proof (si_manager _ _ (lv_inv _ Hl)) as Hm.
  destruct (decide (0 < length tr + length fin)); [left; lia|right].
  assert (length tr = 0 ∧ length fin = 0) as [->%nil_length_inv ->%nil_length_inv] by lia.
  unfold work in *. simpl in *. rewrite !Nat.add_0_r in Hw.
  destruct (poll_idle _ _ _ _ _ _ _ Hm Hc ltac:(lia)) as (m0 & Hm0 & (Ha & Hpe & Hg) & Hcheck).
  rewrite Hpe, (proj2 (Nat.ltb_lt _ _) Hpos) in Hcheck.
  destruct (check_idle (pp:=(s_pp s).*1) (pc:=(s_pc s).*1) m0 (s_world s) _ _ r Hm0 ltac:(rewrite Hg; apply Hl)
    ltac:(unfold head_request in *; by rewrite Ha) Hcheck) as (Hnc & Hh' & es1 & Hes1 & Ht1).
  assert (reports es1 = []) as Hr1.
  { pose proof (pg_reports _ _ _ _ _ _ (pr_world _ _ _ _ _ _ _ _ Hp)) as Hr. rewrite Hes1, reports_app in Hr.
    simpl in Hr. by apply app_inv_head in Hr. }
  split_and!; [done|done| |exact Hh'|].
  - pose proof (pr_inflight _ _ _ _ _ _ _ _ Hp) as Hinf%Permutation_length. csimpl in Hinf.
    rewrite !app_nil_r in Hinf. unfold m_inflight in Hinf.
    rewrite (inflight_length _ _ (mi_arrays _ _ _ _ Hm)) in Hinf.
    rewrite (inflight_length _ _ (mi_arrays _ _ _ _ (pr_inv _ _ _ _ _ _ _ _ Hp))) in Hinf. lia.
  - exists (es1 ++ es2). rewrite Hes2, Hes1, <-app_assoc, reports_app, Hr1, Hrep2, tests_of_app.
    split_and!; [done..|lia].
Qed.

(** Rounds that test a request often enough to complete something. *)
Lemma rounds_wait n r t0 :
  (∀ es, r ∉ (reports es).*1 → n ≤ tests_of r es → completes (t0 ++ es) r) →
  ∀ j now s es, live s → 0 < _pending (s_manager s) → head_request (s_manager s) = Some r →
  w_trace (s_world s) = t0 ++ es → reports es = [] → n ≤ tests_of r es + j →
  ∃ N s', rounds now N s = Ok s' ∧ live s' ∧ work s' < work s ∧ s_pp s' = s_pp s ∧ s_pc s' = s_pc s.
Proof.
  intros Hfair. induction j as [|j IH]; intros now s es Hl Hpos Hh Ht Hrep Hn;
    destruct (round_tests (now 0) s r Hl Hpos Hh) as (s1 & Hround & Hl1 & Hpp & Hpc & [Hlt|(Hw & Hnc & Hpos1 & Hh1 & es1 & Hes1 & Hrep1 & Ht1)]);
    try (exists 1, s1; split_and!; [simpl; by rewrite Hround|done..]).
  - destruct Hnc. rewrite Ht. apply Hfair; [rewrite Hrep; by apply not_elem_of_nil|lia].
  - destruct (IH (λ i, now (S i)) s1 (es ++ es1) Hl1 Hpos1 Hh1) as (N & s' & Hrs & Hl2 & Hlt & Hpp2 & Hpc2).
    + by rewrite Hes1, Ht, app_assoc.
    + by rewrite reports_app, Hrep, Hrep1.
    + rewrite tests_of_app. lia.
    + exists (S N), s'. simpl. rewrite Hround. simpl. split_and!; [done..|lia|congruence|congruence].
Qed.

(** After some rounds there is less to do. *)
Lemma rounds_progress now s :
  live s → 0 < work s →
  ∃ N s', rounds now N s = Ok s' ∧ live s' ∧ work s' < work s ∧ s_pp s' = s_pp s ∧ s_pc s' = s_pc s.
Proof.
  intros Hl Hw. pose proof (lv_inv _ Hl) as Hi. pose proof (si_manager _ _ Hi) as Hm.
  destruct (decide (0 < _pending (s_manager s))) as [Hpos|Hz].
  - destruct (head_in_progress s Hi Hpos) as (r & Hh & Hn & Hip). destruct (mpi_fair _ _ Hn Hip) as [n Hfair].
    apply (rounds_wait n r _ Hfair n now s []); [done..|by rewrite app_nil_r|done|simpl; lia].
  - destruct (round_live (now 0) s Hl) as (k1 & k2 & m1 & w1 & k3 & w2 & tr & fin & Hc & _ & Hround & Hl' & Hp & Hwork & _).
    exists 1. eexists. split_and!; [simpl; by rewrite Hround|done| |done|done].
    destruct (decide (0 < length tr + length fin)); [lia|].
    assert (length tr = 0 ∧ length fin = 0) as [->%nil_length_inv ->%nil_length_inv] by lia.
    destruct Hp as [Hi1 _ Hq Hinf _ _ -> _ Hd _]. csimpl in Hq. csimpl in Hinf. rewrite !app_nil_r in Hinf.
    apply Permutation_length in Hinf, Hq. unfold m_inflight in Hinf.
    rewrite (inflight_length _ _ (mi_arrays _ _ _ _ Hm)), (inflight_length _ _ (mi_arrays _ _ _ _ Hi1)) in Hinf.
    unfold work in Hw. rewrite (workload_eq _ _ Hm) in Hw. unfold m_inflight in Hw.
    rewrite (inflight_length _ _ (mi_arrays _ _ _ _ Hm)) in Hw. pose proof (lv_capacity _ Hl).
    destruct Hd as [Hd|Hd]; [rewrite Hd in Hq; simpl in Hq|]; lia.
Qed.

(** Polling drains: after some number of rounds nothing waits and nothing is in
    flight, and the completion queue is empty. *)
Lemma drain now s :
  live s → ∃ N s', rounds now N s = Ok s' ∧ live s' ∧ s_pp s' = s_pp s ∧ s_pc s' = s_pc s ∧
    queued (s_manager s') (s_world s') = [] ∧ m_inflight (s_manager s') = [] ∧
    spsc_contents (w_queue (s_world s')) = [].
Proof.
  remember (work s) as n eqn:Hn. revert now s Hn. induction (lt_wf n) as [n _ IH]; intros now s Hn Hl.
  destruct (decide (0 < work s)) as [Hpos|Hz].
  - destruct (rounds_progress now s Hl Hpos) as (N & s1 & Hr & Hl1 & Hlt & Hpp & Hpc).
    destruct (IH (work s1) ltac:(lia) (λ i, now (N + i)) s1 eq_refl Hl1) as (N' & s2 & Hr2 & Hl2 & Hpp2 & Hpc2 & Hd).
    exists (N + N'), s2. rewrite (rounds_app _ _ _ _ _ Hr).
    split_and!; [done|done|congruence|congruence|apply Hd..].
  - destruct (round_live (now 0) s Hl) as (k1 & k2 & m1 & w1 & k3 & w2 & tr & fin & Hc & _ & Hround & Hl' & Hp & Hw & Hq & _).
    exists 1. eexists. split_and!; [simpl; by rewrite Hround|done|done|done|..|exact Hq];
      pose proof (si_manager _ _ (lv_inv _ Hl')) as Hm'; unfold work in Hw; simpl in *;
      rewrite (workload_eq _ _ Hm') in Hw; apply nil_length_inv; unfold work in Hz; lia.
Qed.
End eventually.

(** The library of [Demo.v], in which a request completes after a while, makes
    progress. *)
Lemma demo_fair : MpiFair.
Proof.
  intros t r _ _. exists (Z.to_nat (3 * r)). intros es _ Hn. pose proof (tests_of_length r es).
  assert (demo_ready (t ++ es) r) as Hr by (unfold demo_ready; rewrite length_app; lia).
  split_and!; simpl.
  - by apply bool_decide_eq_true.
  - intros reqs Hin _. destruct (list_find_elem_of (demo_ready (t ++ es)) reqs r Hin Hr) as [[i q] ->]. done.
  - intros reqs [i Hi]%list_elem_of_lookup _ Hnil. apply (not_elem_of_nil i). rewrite <-Hnil.
    apply list_elem_of_filter. rewrite (list_lookup_total_correct _ _ _ Hi). split; [done|].
    apply elem_of_seq. apply lookup_lt_Some in Hi. lia.
Qed.
