(* ===== verification/Alpi.v ===== *)
(** * The tasking runtime that the interface documents

    [src/src/common/ALPI.hpp] declares the functions that a tasking runtime
    provides and documents what they do.  This file turns the documentation into
    a small runtime: tasks that run, block, hold events and complete.  Composed
    with the library it gives a closed system, in which nothing is assumed of
    the order of events: a task starts an operation only when the runtime lets
    it run.  The theorems show that the runtime accepts every call that the
    library makes and that tasks wait exactly for their operations. *)

From S2P Require Import Prelude Queues MultiQueue Allocator World Interface Tickets Operations StringSupport CapacityCtrl TicketManager OperationManager ManagerProofs TransferProofs PollingProofs System Demo Claims Contract Liveness Ordering Runtime.

(** ** The interface *)

Inductive alpi_error_t :=
| ALPI_SUCCESS
| ALPI_ERR_VERSION
| ALPI_ERR_NOT_INITIALIZED
| ALPI_ERR_PARAMETER
| ALPI_ERR_OUT_OF_MEMORY
| ALPI_ERR_OUTSIDE_TASK
| ALPI_ERR_UNKNOWN
| ALPI_ERR_FEATURE_UNKNOWN
| ALPI_ERR_MAX.

#[global] Instance alpi_error_eq_dec : EqDecision alpi_error_t.
Proof. solve_decision. Defined.

(** The values of the enumerators. *)
Definition alpi_code (e : alpi_error_t) : Z :=
  match e with
  | ALPI_SUCCESS => 0
  | ALPI_ERR_VERSION => 1
  | ALPI_ERR_NOT_INITIALIZED => 2
  | ALPI_ERR_PARAMETER => 3
  | ALPI_ERR_OUT_OF_MEMORY => 4
  | ALPI_ERR_OUTSIDE_TASK => 5
  | ALPI_ERR_UNKNOWN => 6
  | ALPI_ERR_FEATURE_UNKNOWN => 7
  | ALPI_ERR_MAX => 8
  end.

Definition ALPI_FEATURE_BLOCKING : Z := Z.shiftl 1 0.
Definition ALPI_FEATURE_EVENTS : Z := Z.shiftl 1 1.
Definition ALPI_FEATURE_RESOURCES : Z := Z.shiftl 1 2.
Definition ALPI_FEATURE_SUSPEND : Z := Z.shiftl 1 3.

(** A task: whether it is blocked, how many unblocks came ahead of their blocks,
    its external events, and whether its body has finished. *)
Record rt_task := mkTask {
  rt_blocked : bool;
  rt_ahead : nat;
  rt_events : nat;
  rt_finished : bool;
}.

Definition new_task : rt_task := mkTask false 0 0 false.

(** A task completes, and releases its dependencies, when it has finished its
    body and all its events have been fulfilled. *)
Definition completed (k : rt_task) : bool := rt_finished k && (rt_events k =? 0).

(** The tasks of the runtime, the number of its CPUs and the features it
    supports. *)
Record rts := mkRts {
  rt_tasks : gmap Z rt_task;
  rt_cpus : nat;
  rt_features : Z;
}.
Implicit Types (rt : rts) (k : rt_task) (t : task_handle_t).

Definition update t k rt : rts := mkRts (<[t := k]> (rt_tasks rt)) (rt_cpus rt) (rt_features rt).

(** [self] is the task that runs on the calling thread, if there is one. *)
Definition alpi_task_self (self : option Z) : Z := default nullptr self.

Definition alpi_feature_check (feature_bitmask : Z) rt : alpi_error_t :=
  if decide (Z.land feature_bitmask (rt_features rt) = feature_bitmask) then ALPI_SUCCESS
  else ALPI_ERR_FEATURE_UNKNOWN.

Definition alpi_task_block (self : option Z) t rt : alpi_error_t * rts :=
  match self, rt_tasks rt !! t with
  | None, _ => (ALPI_ERR_OUTSIDE_TASK, rt)
  | Some u, Some k =>
      if decide (u = t) then
        match rt_ahead k with
        | S n => (ALPI_SUCCESS, update t (mkTask false n (rt_events k) (rt_finished k)) rt)
        | 0 => (ALPI_SUCCESS, update t (mkTask true 0 (rt_events k) (rt_finished k)) rt)
        end
      else (ALPI_ERR_PARAMETER, rt)
  | Some _, None => (ALPI_ERR_PARAMETER, rt)
  end.

Definition alpi_task_unblock t rt : alpi_error_t * rts :=
  match rt_tasks rt !! t with
  | None => (ALPI_ERR_PARAMETER, rt)
  | Some k =>
      if rt_blocked k
      then (ALPI_SUCCESS, update t (mkTask false (rt_ahead k) (rt_events k) (rt_finished k)) rt)
      else (ALPI_SUCCESS, update t (mkTask false (S (rt_ahead k)) (rt_events k) (rt_finished k)) rt)
  end.

Definition alpi_task_events_increase (self : option Z) t (increment : nat) rt : alpi_error_t * rts :=
  match self, rt_tasks rt !! t with
  | None, _ => (ALPI_ERR_OUTSIDE_TASK, rt)
  | Some u, Some k =>
      if decide (u = t) then
        (ALPI_SUCCESS, update t (mkTask (rt_blocked k) (rt_ahead k) (rt_events k + increment) (rt_finished k)) rt)
      else (ALPI_ERR_PARAMETER, rt)
  | Some _, None => (ALPI_ERR_PARAMETER, rt)
  end.

Definition alpi_task_events_test (self : option Z) t rt : alpi_error_t * option Z :=
  match self, rt_tasks rt !! t with
  | None, _ => (ALPI_ERR_OUTSIDE_TASK, None)
  | Some u, Some k =>
      if decide (u = t) then (ALPI_SUCCESS, Some (if rt_events k =? 0 then 0%Z else 1%Z))
      else (ALPI_ERR_PARAMETER, None)
  | Some _, None => (ALPI_ERR_PARAMETER, None)
  end.

Definition alpi_task_events_decrease t (decrement : nat) rt : alpi_error_t * rts :=
  match rt_tasks rt !! t with
  | None => (ALPI_ERR_PARAMETER, rt)
  | Some k =>
      (ALPI_SUCCESS, update t (mkTask (rt_blocked k) (rt_ahead k) (rt_events k - decrement) (rt_finished k)) rt)
  end.

Definition alpi_cpu_count rt : nat := rt_cpus rt.

(** What the documentation demands of the caller: only one unblock may precede
    its block, and a task has zero or a positive number of events. *)
Definition obligation (c : alpi_call) rt : Prop :=
  match c with
  | TaskUnblock t => match rt_tasks rt !! t with Some k => rt_blocked k = true ∨ rt_ahead k = 0 | None => True end
  | TaskEventsDecrease t n =>
      match rt_tasks rt !! t with Some k => Z.to_nat n ≤ rt_events k | None => True end
  | _ => True
  end.

#[global] Instance obligation_dec c rt : Decision (obligation c rt).
Proof. destruct c; simpl; try apply _; destruct (rt_tasks rt !! _); apply _. Defined.

(** A call of the library: tasks block themselves and increase their own events;
    polling, which is a task of its own, does the rest. *)
Definition do_call (c : alpi_call) rt : alpi_error_t * rts :=
  match c with
  | TaskBlock t => alpi_task_block (Some t) t rt
  | TaskUnblock t => alpi_task_unblock t rt
  | TaskEventsIncrease t n => alpi_task_events_increase (Some t) t (Z.to_nat n) rt
  | TaskEventsDecrease t n => alpi_task_events_decrease t (Z.to_nat n) rt
  end.

(** The runtime after the calls of a trace, unless one of them returned an error
    or broke an obligation. *)
Fixpoint replay (es : list event) rt : option rts :=
  match es with
  | [] => Some rt
  | EvAlpi c :: es =>
      if decide (obligation c rt) then
        match do_call c rt with
        | (ALPI_SUCCESS, rt) => replay es rt
        | _ => None
        end
      else None
  | _ :: es => replay es rt
  end.

(** ** The runtime and the calls *)

(** The state of every task, by the calls that were made for it. *)
Definition task_of (c : alpi_call) : Z :=
  match c with
  | TaskBlock t | TaskUnblock t | TaskEventsIncrease t _ | TaskEventsDecrease t _ => t
  end.

Definition counts (tr : list event) rt : Prop := ∀ t k, rt_tasks rt !! t = Some k →
  rt_blocked k = bool_decide (unblocks t tr < blocks t tr) ∧
  rt_ahead k = unblocks t tr - blocks t tr ∧
  rt_events k = increased t tr - decreased t tr ∧
  blocks t tr ≤ unblocks t tr + 1 ∧ decreased t tr ≤ increased t tr.

Lemma update_lookup t t' k rt :
  rt_tasks (update t k rt) !! t' = if decide (t = t') then Some k else rt_tasks rt !! t'.
Proof. unfold update. simpl. case_decide; subst; [apply lookup_insert_eq|by apply lookup_insert_ne]. Qed.

(** The counters after one more call. *)
Lemma counts_snoc t tr c :
  blocks t (tr ++ [EvAlpi c]) = blocks t tr + blocks t [EvAlpi c] ∧
  unblocks t (tr ++ [EvAlpi c]) = unblocks t tr + unblocks t [EvAlpi c] ∧
  increased t (tr ++ [EvAlpi c]) = increased t tr + increased t [EvAlpi c] ∧
  decreased t (tr ++ [EvAlpi c]) = decreased t tr + decreased t [EvAlpi c].
Proof. by rewrite blocks_app, unblocks_app, increased_app, decreased_app. Qed.

(** A call that updates the task it is about as the counters do. *)
Lemma counts_update tr rt c k' :
  counts tr rt →
  (let t := task_of c in let tr' := tr ++ [EvAlpi c] in
   rt_blocked k' = bool_decide (unblocks t tr' < blocks t tr') ∧
   rt_ahead k' = unblocks t tr' - blocks t tr' ∧
   rt_events k' = increased t tr' - decreased t tr' ∧
   blocks t tr' ≤ unblocks t tr' + 1 ∧ decreased t tr' ≤ increased t tr') →
  counts (tr ++ [EvAlpi c]) (update (task_of c) k' rt).
Proof.
  intros Hc Hk t k. rewrite update_lookup. case_decide as Ht; [by intros [= <-]; subst|]. intros Hl.
  destruct (counts_snoc t tr c) as (-> & -> & -> & ->). specialize (Hc t k Hl).
  assert (blocks t [EvAlpi c] = 0 ∧ unblocks t [EvAlpi c] = 0 ∧ increased t [EvAlpi c] = 0 ∧
    decreased t [EvAlpi c] = 0) as (-> & -> & -> & ->).
  { destruct c; simpl in *; rewrite ?decide_False by done; done. }
  by rewrite !Nat.add_0_r.
Qed.

Lemma update_mono t t' k rt :
  is_Some (rt_tasks rt !! t') → is_Some (rt_tasks (update t k rt) !! t').
Proof. rewrite update_lookup. case_decide; [by eexists|done]. Qed.

(** The runtime forgets no task. *)
Lemma do_call_mono c rt t :
  is_Some (rt_tasks rt !! t) → is_Some (rt_tasks (do_call c rt).2 !! t).
Proof.
  intros Ht. destruct c as [u|u|u n|u n]; cbn [do_call];
    unfold alpi_task_block, alpi_task_unblock, alpi_task_events_increase, alpi_task_events_decrease;
    destruct (rt_tasks rt !! u) as [k|]; try done.
  - rewrite decide_True by done. destruct (rt_ahead k); by apply update_mono.
  - destruct (rt_blocked k); by apply update_mono.
  - rewrite decide_True by done. by apply update_mono.
  - by apply update_mono.
Qed.

(** Solves a goal about the fields of a task and the counters. *)
Ltac counter :=
  match goal with
  | |- true = bool_decide _ => symmetry; apply bool_decide_eq_true_2
  | |- false = bool_decide _ => symmetry; apply bool_decide_eq_false_2
  | Hb : rt_blocked ?k = _ |- rt_blocked ?k = _ => rewrite Hb; apply bool_decide_ext
  | _ => idtac
  end; lia.

(** The runtime accepts a call that the contract allows, about a task it
    knows. *)
Lemma do_call_accepted tr rt c :
  counts tr rt → call_ok tr c → is_Some (rt_tasks rt !! task_of c) →
  obligation c rt ∧ ∃ rt', do_call c rt = (ALPI_SUCCESS, rt') ∧ counts (tr ++ [EvAlpi c]) rt'.
Proof.
  intros Hc Hok [k Hk]. pose proof (Hc _ _ Hk) as (Hb & Ha & He & Hle & Hde).
  destruct (counts_snoc (task_of c) tr c) as (Eb & Eu & Ei & Ed).
  destruct c as [t|t|t n|t n]; cbn [task_of call_ok] in *;
    cbn [blocks unblocks increased decreased sum_list_with] in Eb, Eu, Ei, Ed; simpl in Eb, Eu, Ei, Ed;
    cbn [do_call obligation];
    unfold alpi_task_block, alpi_task_unblock, alpi_task_events_increase, alpi_task_events_decrease;
    rewrite Hk, ?decide_True by done.
  - split; [done|].
    destruct (rt_ahead k) as [|a] eqn:Hak; (eexists; split; [done|]);
      apply (counts_update _ _ (TaskBlock t)); try done; cbn -[blocks unblocks]; rewrite Eb, Eu, Ei, Ed, ?decide_True by done;
      split_and!; counter.
  - split; [rewrite Hb, bool_decide_eq_true; lia|]. rewrite Hb.
    case_bool_decide; (eexists; split; [done|]);
      apply (counts_update _ _ (TaskUnblock t)); try done; cbn; rewrite Eb, Eu, Ei, Ed, ?decide_True by done;
      split_and!; counter.
  - split; [done|]. eexists; split; [done|].
    apply (counts_update _ _ (TaskEventsIncrease t n)); try done; cbn; rewrite Eb, Eu, Ei, Ed, ?decide_True by done;
    split_and!; counter.
  - split; [rewrite He; lia|]. eexists; split; [done|].
    apply (counts_update _ _ (TaskEventsDecrease t n)); try done; cbn; rewrite Eb, Eu, Ei, Ed, ?decide_True by done;
    split_and!; counter.
Qed.

(** ** Replaying a trace *)

(** An event that is not a call changes no counter. *)
Lemma counts_other tr rt e :
  (∀ c, e ≠ EvAlpi c) → counts tr rt → counts (tr ++ [e]) rt.
Proof.
  intros He Hc t k Hk. specialize (Hc t k Hk).
  rewrite blocks_app, unblocks_app, increased_app, decreased_app.
  destruct e as [| |c]; [..|by destruct (He c)]; simpl; by rewrite !Nat.add_0_r.
Qed.

Lemma do_call_finished c rt t k' :
  rt_tasks (do_call c rt).2 !! t = Some k' →
  ∃ k, rt_tasks rt !! t = Some k ∧ rt_finished k' = rt_finished k.
Proof.
  assert (∀ u k0 k1, rt_tasks rt !! u = Some k0 → rt_finished k1 = rt_finished k0 →
    rt_tasks (update u k1 rt) !! t = Some k' →
    ∃ k, rt_tasks rt !! t = Some k ∧ rt_finished k' = rt_finished k) as Hup.
  { intros u k0 k1 Hk0 Hf. rewrite update_lookup. case_decide; [intros [= <-]; subst|]; eauto. }
  destruct c as [u|u|u n|u n]; cbn [do_call];
    unfold alpi_task_block, alpi_task_unblock, alpi_task_events_increase, alpi_task_events_decrease;
    destruct (rt_tasks rt !! u) as [k|] eqn:Hu; rewrite ?decide_True by done; eauto.
  - destruct (rt_ahead k); (apply (Hup u k); [exact Hu|reflexivity]).
  - destruct (rt_blocked k); (apply (Hup u k); [exact Hu|reflexivity]).
  - (apply (Hup u k); [exact Hu|reflexivity]).
  - (apply (Hup u k); [exact Hu|reflexivity]).
Qed.

(** Calls that the contract allows, about tasks that the runtime knows, are all
    accepted. *)
Lemma replay_accepted es tr rt :
  counts tr rt → contract (tr ++ es) → (∀ c, EvAlpi c ∈ es → is_Some (rt_tasks rt !! task_of c)) →
  ∃ rt', replay es rt = Some rt' ∧ counts (tr ++ es) rt' ∧
    (∀ t, is_Some (rt_tasks rt !! t) → is_Some (rt_tasks rt' !! t)) ∧
    (∀ t k', rt_tasks rt' !! t = Some k' →
       ∃ k, rt_tasks rt !! t = Some k ∧ rt_finished k' = rt_finished k).
Proof.
  revert tr rt. induction es as [|e es IH]; intros tr rt Hc Hok Hin.
  { exists rt. rewrite app_nil_r. split_and!; eauto. }
  assert (tr ++ e :: es = (tr ++ [e]) ++ es) as Happ by (by rewrite <-app_assoc).
  rewrite Happ in *. destruct e as [c r|rs ix sts|c].
  1,2: apply IH; [by apply counts_other|exact Hok|intros c' Hc'; apply Hin; by right].
  assert (call_ok tr c) as Hcall by (apply (Hok tr c es); by rewrite <-app_assoc).
  destruct (do_call_accepted tr rt c Hc Hcall) as (Hob & rt1 & Hdo & Hc1); [apply Hin; by left|].
  pose proof (do_call_mono c rt) as Hm. pose proof (do_call_finished c rt) as Hf. rewrite Hdo in Hm, Hf. simpl in Hm, Hf.
  destruct (IH (tr ++ [EvAlpi c]) rt1 Hc1 Hok) as (rt' & Hr & Hc' & Hm' & Hf').
  { intros c' Hc'. apply Hm, Hin. by right. }
  exists rt'. simpl. rewrite decide_True, Hdo by done. split_and!; [done..|by auto|].
  intros t k' Hk'. destruct (Hf' t k' Hk') as (k1 & Hk1 & ->). by apply Hf.
Qed.

(** ** The library and the runtime together *)

Section joint.
Context `{SpscLib, !SpscLaws, AlpiLib, MpiLib, !MpiLaws}.
Context {QP QC : Type} `{!OpQueue QP ptr, !OpQueueLaws QP ptr, !OpQueue QC ptr, !OpQueueLaws QC ptr}.
Implicit Types (s : system QP QC).

(** The runtime runs a task that is not blocked and whose body goes on. *)
Definition runs t rt : Prop :=
  ∃ k, rt_tasks rt !! t = Some k ∧ rt_blocked k = false ∧ rt_finished k = false.

(** A step of the library, whose calls the runtime carries out, in which a task
    starts an operation only when the runtime runs it and it is between
    operations; the creation of a task; the end of the body of a task.  [None]
    is a runtime that has refused a call or was misused. *)
Inductive joint_step : system QP QC * option rts → system QP QC * option rts → Prop :=
| joint_library s s' rt es :
    sys_step s s' → w_trace (s_world s') = w_trace (s_world s) ++ es →
    (∀ x, s_delegated s' = s_delegated s ++ [x] →
       runs (_taskHandle (_taskContext x.2)) rt ∧ outside (_taskHandle (_taskContext x.2)) s) →
    joint_step (s, Some rt) (s', replay es rt)
| joint_spawn s rt t :
    rt_tasks rt !! t = None → joint_step (s, Some rt) (s, Some (update t new_task rt))
| joint_finish s rt t k :
    rt_tasks rt !! t = Some k → rt_blocked k = false → outside t s →
    joint_step (s, Some rt) (s, Some (update t (mkTask false (rt_ahead k) (rt_events k) true) rt)).

(** Every step of the library extends the trace. *)
Lemma sys_step_trace s s' :
  sys_step s s' → ∃ es, w_trace (s_world s') = w_trace (s_world s) ++ es.
Proof.
  assert (∀ tr : list event, ∃ es, tr = tr ++ es) as Hnil by (intros tr; exists []; by rewrite app_nil_r).
  destruct 1 as [m w pp pc bl d cpu nature task make c p w' x Hcpu Hok Hx Hb Hc
    |m w pp pc bl d cpu nature task make c p w' x Hcpu Hok Hx Hb Hc| | | | 
    |m w pp pc bl1 bl2 d c w' He|m w pp pc bl d now n k m' w' Hp|m w pp pc bl d m' w' Hp|m w pp pc bl d n w' Hp]; simpl; auto.
  - apply begin_trace in Hb as [_ Htr]. eauto.
  - apply begin_trace in Hb as [_ Htr]. eauto.
  - unfold end_operation, waitEventsCompletion, blockCurrentTask, alpi in He.
    destruct (_blocking c); simpl in He; [case_decide|]; simplify_eq; simpl; eauto.
  - destruct (checkRequests_polls _ _ _ _ _ _ _ Hp) as (es & -> & _). eauto.
  - destruct (poll_part_polls _ _ _ _ Hp) as (es & -> & _). eauto.
  - destruct (process_polls _ _ _ Hp) as (es & -> & _). eauto.
Qed.

Lemma sys_step_delegates s s' :
  sys_step s s' → s_delegated s' = s_delegated s ∨ ∃ x, s_delegated s' = s_delegated s ++ [x].
Proof. destruct 1; simpl; eauto. Qed.

(** A task that starts nothing stays outside. *)
Lemma outside_step t s s' :
  sys_step s s' → (∀ x, s_delegated s' = s_delegated s ++ [x] → _taskHandle (_taskContext x.2) ≠ t) →
  outside t s → outside t s'.
Proof.
  intros Hs Hx Ho c Hc. unfold outside, inside in *.
  destruct Hs as [m w pp pc bl d cpu nature task make c' p w' x Hcpu Hok Hd Hb Hc'
    |m w pp pc bl d cpu nature task make c' p w' x Hcpu Hok Hd Hb Hc'
    |m w pp1 pp2 pc bl d cpu p c' m' Hcpu Ha|m w pp pc1 pc2 bl d cpu p c' m' Hcpu Ha
    | | |m w pp pc bl1 bl2 d c' w' He| | |]; simpl in *; auto.
  - specialize (Hx x eq_refl). rewrite Hc' in Hx. destruct (decide (c = c')) as [->|Hne]; [done|].
    apply Ho. csimpl in Hc. set_solver.
  - specialize (Hx x eq_refl). rewrite Hc' in Hx. destruct (decide (c = c')) as [->|Hne]; [done|].
    apply Ho. csimpl in Hc. set_solver.
  - apply Ho. rewrite fmap_app in Hc |- *. csimpl. unfold enter_wait in Hc. destruct (_blocking c'); set_solver.
  - apply Ho. rewrite fmap_app in Hc |- *. csimpl. unfold enter_wait in Hc. destruct (_blocking c'); set_solver.
  - apply Ho. set_solver.
Qed.

(** ** Invariant *)

Record joint_inv (st0 : gmap Z status) s rt : Prop := {
  ji_sys : sys_inv st0 s;
  ji_tasks : tasks_inv s;
  ji_counts : counts (w_trace (s_world s)) rt;
  ji_known x : x ∈ s_delegated s → is_Some (rt_tasks rt !! _taskHandle (_taskContext x.2));
  ji_finished t k : rt_tasks rt !! t = Some k → rt_finished k = true →
    outside t s ∧ blocks t (w_trace (s_world s)) ≤ unblocks t (w_trace (s_world s));
}.

Lemma occ_contexts b t s :
  0 < occ (mkContext b t) (contexts s) → ∃ x, x ∈ s_delegated s ∧ _taskContext x.2 = mkContext b t.
Proof.
  intros Hpos. destruct (decide (mkContext b t ∈ contexts s)) as [Hin|Hn]; [|apply occ_zero in Hn; lia].
  apply list_elem_of_fmap in Hin as (x & Hx & Hin). by exists x.
Qed.

(** How many operations a task delegated, by the calls made for it. *)
Lemma contexts_counts st0 s t :
  sys_inv st0 s → tasks_inv s →
  blocks t (w_trace (s_world s)) ≤ occ (mkContext true t) (contexts s) ∧
  unblocks t (w_trace (s_world s)) ≤ occ (mkContext true t) (contexts s) ∧
  increased t (w_trace (s_world s)) = occ (mkContext false t) (contexts s) ∧
  decreased t (w_trace (s_world s)) ≤ occ (mkContext false t) (contexts s).
Proof.
  intros Hi Ht. destruct (told_bound _ _ t Hi) as [HU HD]. pose proof (ti_blocks _ Ht t) as Hb.
  assert (increased t (w_trace (s_world s)) = occ (mkContext false t) (contexts s)) as Hf.
  { rewrite increased_bound, (si_bound _ _ Hi). unfold nonblocking. by rewrite occ_filter_true. }
  lia.
Qed.

(** Calls are made only for tasks that delegated operations. *)
Lemma calls_known st0 s c :
  sys_inv st0 s → tasks_inv s → EvAlpi c ∈ w_trace (s_world s) →
  ∃ x, x ∈ s_delegated s ∧ _taskHandle (_taskContext x.2) = task_of c.
Proof.
  intros Hi Ht Hc. apply list_elem_of_split in Hc as (past & rest & Htr).
  pose proof (ti_contract _ Ht past c rest Htr) as Hok.
  assert (∃ b, 0 < occ (mkContext b (task_of c)) (contexts s)) as [b Hb].
  { destruct (contexts_counts st0 s (task_of c) Hi Ht) as (Hb & Hu & Hin & Hde). rewrite Htr in Hb, Hu, Hin, Hde.
    destruct c as [t|t|t n|t n]; simpl in *.
    - exists true. rewrite blocks_app in Hb. simpl in Hb. rewrite decide_True in Hb by done. lia.
    - exists true. rewrite unblocks_app in Hu. simpl in Hu. rewrite decide_True in Hu by done. lia.
    - exists false. rewrite increased_app in Hin. simpl in Hin. rewrite decide_True in Hin by done. lia.
    - exists false. rewrite decreased_app in Hde. simpl in Hde. rewrite decide_True in Hde by done. lia. }
  destruct (occ_contexts _ _ _ Hb) as (x & Hx & Hctx). exists x. by rewrite Hctx.
Qed.

(** A task that the runtime runs is a running task of [Contract.v]. *)
Lemma runs_running st0 s rt t : joint_inv st0 s rt → runs t rt → outside t s → running t s.
Proof.
  intros Hi (k & Hk & Hb & _) Ho. destruct (ji_counts _ _ _ Hi t k Hk) as (Hbl & _). rewrite Hb in Hbl.
  symmetry in Hbl. apply bool_decide_eq_false in Hbl. split; [lia|done].
Qed.

(** The invariant is about known tasks only: a new one has made no calls. *)
Lemma spawn_inv st0 s rt t :
  rt_tasks rt !! t = None → joint_inv st0 s rt → joint_inv st0 s (update t new_task rt).
Proof.
  intros Hn [Hs Ht Hc Hk Hf]. split; try done.
  - intros u k. rewrite update_lookup. destruct (decide (t = u)) as [<-|Hu]; [intros Heq; injection Heq as <-|apply Hc].
    destruct (contexts_counts _ _ t Hs Ht) as (Hb & Hub & Hin & Hde).
    assert (∀ b, occ (mkContext b t) (contexts s) = 0) as Hz.
    { intros b. destruct (decide (0 < occ (mkContext b t) (contexts s))) as [Hp|]; [|lia].
      destruct (occ_contexts _ _ _ Hp) as (x & Hx & Hctx). apply Hk in Hx. rewrite Hctx in Hx. simpl in Hx.
      rewrite Hn in Hx. by apply is_Some_None in Hx. }
    rewrite !Hz in *. simpl. split_and!; try lia. symmetry. apply bool_decide_eq_false_2. lia.
  - intros x Hx. by apply update_mono, Hk.
  - intros u k. rewrite update_lookup. destruct (decide (t = u)) as [<-|Hu]; [intros Heq; by injection Heq as <-|apply Hf].
Qed.

Lemma finish_inv st0 s rt t k :
  rt_tasks rt !! t = Some k → rt_blocked k = false → outside t s →
  joint_inv st0 s rt →
  joint_inv st0 s (update t (mkTask false (rt_ahead k) (rt_events k) true) rt).
Proof.
  intros Hk Hb Ho [Hs Ht Hc Hkn Hf]. pose proof (Hc t k Hk) as (Hbl & Hrest). split; try done.
  - intros u k'. rewrite update_lookup. destruct (decide (t = u)) as [<-|Hu]; [intros Heq; injection Heq as <-|apply Hc]. simpl.
    split; [by rewrite <-Hb|done].
  - intros x Hx. by apply update_mono, Hkn.
  - intros u k'. rewrite update_lookup. destruct (decide (t = u)) as [<-|Hu]; [intros Heq _; clear Heq|apply Hf].
    split; [done|]. rewrite Hb in Hbl. symmetry in Hbl. apply bool_decide_eq_false in Hbl. lia.
Qed.

Lemma library_inv st0 s s' rt es :
  sys_step s s' → w_trace (s_world s') = w_trace (s_world s) ++ es →
  (∀ x, s_delegated s' = s_delegated s ++ [x] →
     runs (_taskHandle (_taskContext x.2)) rt ∧ outside (_taskHandle (_taskContext x.2)) s) →
  joint_inv st0 s rt → ∃ rt', replay es rt = Some rt' ∧ joint_inv st0 s' rt'.
Proof.
  intros Hstep Htr Hrun Hi. pose proof Hi as [Hs Ht Hc Hk Hf].
  assert (task_step s s') as Htask.
  { split; [done|]. intros x Hx. destruct (Hrun x Hx). by eapply runs_running. }
  pose proof (step_inv _ _ _ Hstep Hs) as Hs'. pose proof (tasks_inv_step _ _ _ Htask Hs Ht) as Ht'.
  assert (∀ x, x ∈ s_delegated s' → is_Some (rt_tasks rt !! _taskHandle (_taskContext x.2))) as Hk'.
  { intros x Hx. destruct (sys_step_delegates _ _ Hstep) as [Hd|[y Hd]]; rewrite Hd in Hx; [auto|].
    apply elem_of_app in Hx as [Hx| ->%list_elem_of_singleton]; [auto|].
    destruct (Hrun y Hd) as [(k & -> & _) _]. by eexists. }
  destruct (replay_accepted es (w_trace (s_world s)) rt Hc) as (rt' & Hr & Hc' & Hm' & Hf').
  { rewrite <-Htr. apply Ht'. }
  { intros c Hin. destruct (calls_known _ _ c Hs' Ht') as (x & Hx & <-); [|auto].
    rewrite Htr. apply elem_of_app. by right. }
  exists rt'. split; [done|]. split; [done..|by rewrite Htr|by auto|].
  intros t k' Hkt Hfin. destruct (Hf' t k' Hkt) as (k & Hkk & Heq). rewrite Hfin in Heq. symmetry in Heq.
  destruct (Hf t k Hkk Heq) as [Ho Hle].
  assert (∀ x, s_delegated s' = s_delegated s ++ [x] → _taskHandle (_taskContext x.2) ≠ t) as Hne.
  { intros x Hx Hxt. destruct (Hrun x Hx) as [(k2 & Hk2 & _ & Hnf) _]. rewrite Hxt in Hk2. congruence. }
  pose proof (outside_step t s s' Hstep Hne Ho) as Ho'. split; [done|].
  pose proof (ti_blocks _ Ht t) as Hb. pose proof (ti_blocks _ Ht' t) as Hb'.
  rewrite (occ_outside t true s Ho) in Hb. rewrite (occ_outside t true s' Ho') in Hb'.
  assert (occ (mkContext true t) (contexts s') = occ (mkContext true t) (contexts s)) as Hsame.
  { unfold contexts. destruct (sys_step_delegates _ _ Hstep) as [->|[x Hx]]; [done|]. rewrite Hx, fmap_app, occ_app.
    csimpl. rewrite occ_cons, decide_False; [change (occ _ []) with 0; lia|]. intros Heq'. apply (Hne x Hx). by rewrite Heq'. }
  rewrite Htr in *. rewrite unblocks_app. lia.
Qed.

Lemma joint_run st0 x y :
  rtc joint_step x y → (∃ rt, x.2 = Some rt ∧ joint_inv st0 x.1 rt) →
  ∃ rt, y.2 = Some rt ∧ joint_inv st0 y.1 rt.
Proof.
  induction 1 as [|x y z Hs _ IH]; [done|]. intros (rt & Hrt & Hi). apply IH.
  destruct Hs as [s s' rt0 es Hs Htr Hrun|s rt0 t Hn|s rt0 t k Hk Hb Ho]; simpl in *; simplify_eq.
  - by eapply library_inv.
  - eexists. split; [done|]. by apply spawn_inv.
  - eexists. split; [done|]. by apply finish_inv.
Qed.

Lemma joint_fresh m0 w0 cpus features :
  orderly (_generalTesting m0) → fresh_manager m0 → fresh_world w0 →
  joint_inv (w_status w0) (mkSystem m0 w0 [] [] [] []) (mkRts ∅ cpus features).
Proof.
  intros Hord Hm Hw. split; [by apply fresh_inv|by apply fresh_tasks_inv|..].
  - by intros t k Hk.
  - intros x Hx. by apply elem_of_nil in Hx.
  - by intros t k Hk.
Qed.
End joint.

(** ** Properties *)

Section joint_claims.
Context `{SpscLib, !SpscLaws, AlpiLib, MpiLib, !MpiLaws}.
Context {QP QC : Type} `{!OpQueue QP ptr, !OpQueueLaws QP ptr, !OpQueue QC ptr, !OpQueueLaws QC ptr}.
Context (m0 : TicketManager QP QC) (w0 : world) (cpus : nat) (features : Z).

(** C4: in every run of the library with the documented runtime, whatever tasks
    are created and in whatever order they and polling run, the runtime accepts
    every call that the library makes: none returns an error, no event counter
    falls below zero, and no task is ever unblocked more than once ahead of its
    block. Requests are tested with MPI_Test or MPI_Testany, for every MPI
    library, or with MPI_Testsome, the default, for a library that returns its
    indices in ascending order, which the MPI standard does not promise. *)
Theorem runtime_accepts_library s o :
  orderly (_generalTesting m0) → fresh_manager m0 → fresh_world w0 →
  rtc joint_step (mkSystem m0 w0 [] [] [] [], Some (mkRts ∅ cpus features)) (s, o) →
  ∃ rt, o = Some rt ∧ ∀ t k, rt_tasks rt !! t = Some k → rt_ahead k ≤ 1.
Proof.
  intros Hord Hm Hw Hr.
  destruct (joint_run (w_status w0) _ _ Hr) as (rt & Hrt & Hi); [by eexists; split; [|by apply joint_fresh]|].
  exists rt. split; [done|]. intros t k Hk. destruct (ji_counts _ _ _ Hi t k Hk) as (_ & -> & _).
  destruct (told_bound _ _ t (ji_sys _ _ _ Hi)) as [HU _]. simpl in *.
  pose proof (ti_blocks _ (ji_tasks _ _ _ Hi) t). pose proof (ti_once _ (ji_tasks _ _ _ Hi) t). lia.
Qed.

(** C3: in such a run, when the runtime completes a task, which releases its
    dependencies, every operation that the task delegated, in either mode, has
    been given to MPI, its completion was reported by MPI (or it had completed
    at once), and its status was written where the task asked for it. Requests
    are tested with MPI_Test or MPI_Testany, for every MPI library, or with
    MPI_Testsome, the default, for a library that returns its indices in
    ascending order, which the MPI standard does not promise. *)
Theorem completed_task_served s rt t k :
  orderly (_generalTesting m0) → fresh_manager m0 → fresh_world w0 →
  rtc joint_step (mkSystem m0 w0 [] [] [] [], Some (mkRts ∅ cpus features)) (s, Some rt) →
  rt_tasks rt !! t = Some k → completed k = true →
  ∃ written, w_status (s_world s) = write_statuses (w_status w0) written ∧
    ∀ x, x ∈ s_delegated s → _taskHandle (_taskContext x.2) = t → served written s x.
Proof.
  intros Hord Hm Hw Hr Hk Hcomp.
  destruct (joint_run (w_status w0) _ _ Hr) as (rt' & [= <-] & Hi); [by eexists; split; [|by apply joint_fresh]|].
  simpl in Hi. apply andb_prop in Hcomp as [Hfin Hev%Nat.eqb_eq].
  destruct (ji_finished _ _ _ Hi t k Hk Hfin) as [Ho Hle].
  destruct (counters_outstanding _ _ t (ji_sys _ _ _ Hi) (ji_tasks _ _ _ Hi) Ho) as [Hb He].
  destruct (ji_counts _ _ _ Hi t k Hk) as (_ & _ & Hevents & _).
  destruct (finished_served _ _ (ji_sys _ _ _ Hi)) as (written & Hst & Hs). exists written. split; [done|].
  intros [c [[[] u] a]] Hx Hu; simpl in Hu; subst u; apply Hs; try done; apply occ_zero; simpl; lia.
Qed.

(** C5: in such a run a task between operations waits exactly for its
    operations: it is blocked in the runtime exactly while one of its blocking
    operations is outstanding, and its events are as many as its non-blocking
    operations that are outstanding; so while it is not blocked, its blocking
    operations have been served. Requests are tested with MPI_Test or
    MPI_Testany, for every MPI library, or with MPI_Testsome, the default, for a
    library that returns its indices in ascending order, which the MPI standard
    does not promise. *)
Theorem tasks_wait_for_operations s rt t k :
  orderly (_generalTesting m0) → fresh_manager m0 → fresh_world w0 →
  rtc joint_step (mkSystem m0 w0 [] [] [] [], Some (mkRts ∅ cpus features)) (s, Some rt) →
  rt_tasks rt !! t = Some k → outside t s →
  (rt_blocked k = true ↔ mkContext true t ∈ outstanding s) ∧
  rt_events k = occ (mkContext false t) (outstanding s) ∧
  (rt_blocked k = false →
   ∃ written, w_status (s_world s) = write_statuses (w_status w0) written ∧
     ∀ x, x ∈ s_delegated s → _taskContext x.2 = mkContext true t → served written s x).
Proof.
  intros Hord Hm Hw Hr Hk Ho.
  destruct (joint_run (w_status w0) _ _ Hr) as (rt' & [= <-] & Hi); [by eexists; split; [|by apply joint_fresh]|].
  simpl in Hi. destruct (counters_outstanding _ _ t (ji_sys _ _ _ Hi) (ji_tasks _ _ _ Hi) Ho) as [Hb He].
  destruct (ji_counts _ _ _ Hi t k Hk) as (Hbl & _ & Hev & _).
  assert (rt_blocked k = true ↔ mkContext true t ∈ outstanding s) as Hiff.
  { rewrite Hbl, bool_decide_eq_true. pose proof (occ_zero (mkContext true t) (outstanding s)) as Hz.
    destruct (decide (mkContext true t ∈ outstanding s)) as [Hin|Hn].
    - split; [done|intros _]. destruct (decide (occ (mkContext true t) (outstanding s) = 0)); [naive_solver|lia].
    - apply Hz in Hn. split; [lia|naive_solver]. }
  split; [exact Hiff|]. split; [lia|]. intros Hf.
  destruct (finished_served _ _ (ji_sys _ _ _ Hi)) as (written & Hst & Hs). exists written. split; [done|].
  intros x Hx Hctx. apply Hs; [done|]. rewrite Hctx, <-Hiff, Hf. done.
Qed.
End joint_claims.

(** ** Release of all tasks *)

Section joint_progress.
Context `{SpscLib, !SpscLaws, AlpiLib, MpiLib, !MpiLaws, !MpiFair}.
Context {QP QC : Type} `{!OpQueue QP ptr, !OpQueueLaws QP ptr, !OpQueue QC ptr, !OpQueueLaws QC ptr}.

(** A step of the library in which nothing is delegated. *)
Lemma joint_quiet st0 (s s' : system QP QC) rt :
  sys_step s s' → s_delegated s' = s_delegated s → joint_inv st0 s rt →
  ∃ rt', joint_step (s, Some rt) (s', Some rt') ∧ joint_inv st0 s' rt'.
Proof.
  intros Hs Hd Hi. destruct (sys_step_trace _ _ Hs) as [es Htr].
  assert (∀ x, s_delegated s' = s_delegated s ++ [x] →
    runs (_taskHandle (_taskContext x.2)) rt ∧ outside (_taskHandle (_taskContext x.2)) s) as Hx.
  { intros x Hx. rewrite Hd in Hx. apply (f_equal length) in Hx. rewrite length_app in Hx. simpl in Hx. lia. }
  destruct (library_inv st0 s s' rt es Hs Htr Hx Hi) as (rt' & Hr & Hi'). exists rt'. split; [|done].
  rewrite <-Hr. by apply joint_library.
Qed.

Lemma joint_rounds st0 now N (s s' : system QP QC) rt :
  rounds now N s = Ok s' → joint_inv st0 s rt →
  ∃ rt', rtc joint_step (s, Some rt) (s', Some rt') ∧ joint_inv st0 s' rt'.
Proof.
  revert now s rt. induction N as [|N IH]; intros now s rt Hr Hi; simpl in Hr; [simplify_eq; by exists rt|].
  apply bind_Ok in Hr as (s1 & Hs & Hr). unfold round in Hs.
  apply bind_Ok in Hs as ([[[n k] m1] w1] & Hc & Hs). apply bind_Ok in Hs as ([j w2] & Hp & [= <-]).
  destruct s as [m w pp pc bl d]; simpl in *.
  destruct (joint_quiet _ _ _ rt (step_poll m w pp pc bl d (now 0) n k m1 w1 Hc) eq_refl Hi) as (rt1 & Hs1 & Hi1).
  destruct (joint_quiet _ _ _ rt1 (step_notify m1 w1 pp pc bl d j w2 Hp) eq_refl Hi1) as (rt2 & Hs2 & Hi2).
  destruct (IH _ _ _ Hr Hi2) as (rt3 & Hs3 & Hi3). exists rt3. split; [|done].
  eapply rtc_l; [exact Hs1|]. by eapply rtc_l.
Qed.

(** C11: no task waits forever. In every run of the library with the documented
    runtime, from a state in which no task is in the middle of a push, there is
    a number of rounds, each a poll and a run of the completion task, that all
    return and after which every task is released: no task that is between
    operations is blocked, and all events are fulfilled. MPI is assumed to
    complete, sooner or later, requests that are tested again and again, and
    neither MPI nor the runtime to report errors; the capacity is positive; and
    the queue of the completion manager, if it is used, has room for the
    operations that are not finished. Requests are tested with MPI_Test or
    MPI_Testany, for every MPI library, or with MPI_Testsome, the default, for a
    library that returns its indices in ascending order, which the MPI standard
    does not promise. *)
Theorem poll_releases_tasks (m0 : TicketManager QP QC) w0 cpus features s rt now :
  orderly (_generalTesting m0) → fresh_manager m0 → fresh_world w0 →
  rtc joint_step (mkSystem m0 w0 [] [] [] [], Some (mkRts ∅ cpus features)) (s, Some rt) →
  s_pp s = [] → s_pc s = [] → reliable (unfinished (s_manager s)) (s_world s) →
  _generalTesting (s_manager s) ≠ None_ → 0 < get (_capacityCtrl (s_manager s)) →
  ∃ N s' rt', rounds now N s = Ok s' ∧ rtc joint_step (s, Some rt) (s', Some rt') ∧
    ∀ t k, rt_tasks rt' !! t = Some k → outside t s' → rt_blocked k = false ∧ rt_events k = 0.
Proof.
  intros Hord Hm Hw Hr Hpp Hpc Hrel Hg Hcap.
  destruct (joint_run (w_status w0) _ _ Hr) as (rt' & [= <-] & Hi); [by eexists; split; [|by apply joint_fresh]|].
  simpl in Hi.
  destruct (drain (w_status w0) now s) as (N & s' & Hrs & Hl & Hpp' & Hpc' & Hq & Hinf & Hcq);
    [split; [apply Hi|done..]|].
  destruct (joint_rounds _ _ _ _ _ _ Hrs Hi) as (rt' & Hsteps & Hi'). exists N, s', rt'. split_and!; [done..|].
  intros t k Hk Ho. destruct (counters_outstanding _ _ t (ji_sys _ _ _ Hi') (ji_tasks _ _ _ Hi') Ho) as [Hb He].
  destruct (ji_counts _ _ _ Hi' t k Hk) as (Hbl & _ & Hev & _).
  assert (outstanding s' = []) as Hnone.
  { unfold outstanding, transit. by rewrite Hpp', Hpc', Hpp, Hpc, Hq, Hinf, Hcq. }
  rewrite Hnone in Hb, He. change (occ _ []) with 0 in Hb, He. split; [|lia].
  rewrite Hbl. apply bool_decide_eq_false_2. lia.
Qed.
End joint_progress.

(** ** Evaluations *)

Section joint_witness.
Import ListSpsc.

(** The runtime with two CPUs and task 7 in a given state. *)
Definition rt7 (blocked : bool) (ahead events : nat) (finished : bool) : rts :=
  mkRts {[7%Z := mkTask blocked ahead events finished]} 2 15.

(** The steps of the run of [Runtime.v] with the calls they make. *)
Lemma joint_recv `{AlpiLib, MpiLib} (s s' : system (MultiLockFreeQueue nat) (Boost.BoostLockFreeQueue nat)) rt rt' es :
  sys_step s s' → w_trace (s_world s') = w_trace (s_world s) ++ es → replay es rt = Some rt' →
  s_delegated s' = s_delegated s ∨
    (s_pp s = [] ∧ s_pc s = [] ∧ s_blocking s = [] ∧ runs 7 rt ∧
     ∃ x, s_delegated s' = s_delegated s ++ [x] ∧ _taskHandle (_taskContext x.2) = 7%Z) →
  joint_step (s, Some rt) (s', Some rt').
Proof.
  intros Hs Htr Hr Hd. rewrite <-Hr. apply joint_library; [done..|]. intros x Hx.
  destruct Hd as [Hd|(Hp & Hc & Hb & Hrun & y & Hd & Hy)].
  - rewrite Hd in Hx. apply (f_equal length) in Hx. rewrite length_app in Hx. simpl in Hx. lia.
  - rewrite Hd in Hx. apply app_inj_tail in Hx as [_ ->]. rewrite Hy. split; [done|by apply recv_outside].
Qed.

Lemma joint_run_recv :
  rtc joint_step (recv_s0, Some (mkRts ∅ 2 15)) (recv_final, Some (rt7 false 0 0 true)).
Proof.
  eapply rtc_l; [exact (joint_spawn recv_s0 (mkRts ∅ 2 15) 7 eq_refl)|].
  eapply rtc_l; [apply (joint_recv recv_s0 recv_s1 (rt7 false 0 0 false) (rt7 false 0 1 false)
    [EvAlpi (TaskEventsIncrease 7 1)] recv_step1); [by vm_compute|by vm_compute|]|].
  { right. split_and!; [reflexivity..|by eexists|by exists (send_data 500)]. }
  eapply rtc_l; [apply (joint_recv recv_s1 recv_s2 _ (rt7 false 0 1 false) [] recv_step2);
    [by vm_compute|by vm_compute|left; reflexivity]|].
  eapply rtc_l; [apply (joint_recv recv_s2 recv_s3 (rt7 false 0 1 false) (rt7 false 0 1 false) []
    recv_step3); [by vm_compute|by vm_compute|]|].
  { right. split_and!; [reflexivity..|by eexists|by exists recv_data]. }
  eapply rtc_l; [apply (joint_recv recv_s3 recv_s4 _ (rt7 false 0 1 false) [] recv_step4);
    [by vm_compute|by vm_compute|left; reflexivity]|].
  eapply rtc_l; [apply (joint_recv recv_s4 recv_s5 _ (rt7 true 0 1 false)
    [EvAlpi (TaskBlock 7)] recv_step5); [by vm_compute|by vm_compute|left; reflexivity]|].
  eapply rtc_l; [apply (joint_recv recv_s5 recv_final _ (rt7 false 0 0 false)
    (drop 2 (w_trace (s_world recv_final))) recv_step6); [by vm_compute|by vm_compute|left; reflexivity]|].
  apply rtc_once.
  exact (joint_finish recv_final (rt7 false 0 0 false) 7 _ eq_refl eq_refl recv_final_outside).
Qed.

Lemma runtime_accepts_library_witness :
  ∃ rt, Some (rt7 false 0 0 true) = Some rt ∧ ∀ t k, rt_tasks rt !! t = Some k → rt_ahead k ≤ 1.
Proof.
  exact (runtime_accepts_library demo_manager order_world 2 15 recv_final _ (demo_orderly _) demo_fresh_manager
    order_fresh_world joint_run_recv).
Defined.

Lemma completed_task_served_witness :
  ∃ written, w_status (s_world recv_final) = write_statuses ∅ written ∧
    served written recv_final (send_data 500) ∧ served written recv_final recv_data.
Proof.
  destruct (completed_task_served demo_manager order_world 2 15 recv_final (rt7 false 0 0 true) 7
    (mkTask false 0 0 true) (demo_orderly _) demo_fresh_manager order_fresh_world joint_run_recv eq_refl eq_refl)
    as (written & Hst & Hs).
  exists written. split; [exact Hst|]. split; apply Hs; [left|reflexivity|right; left|reflexivity].
Defined.

Lemma tasks_wait_for_operations_witness :
  mkContext true 7 ∉ outstanding recv_final ∧ occ (mkContext false 7) (outstanding recv_final) = 0.
Proof.
  destruct (tasks_wait_for_operations demo_manager order_world 2 15 recv_final (rt7 false 0 0 true) 7
    (mkTask false 0 0 true) (demo_orderly _) demo_fresh_manager order_fresh_world joint_run_recv eq_refl recv_final_outside)
    as (Hb & He & _).
  split; [|symmetry; exact He]. intros Hin%Hb. discriminate Hin.
Defined.
End joint_witness.

(** The receive of [Demo.v], queued and waiting for a message: task 7 has an event
    until MPI completes the request, which takes some rounds. *)
Section release_witness.
Import ListSpsc.

Notation demo_system := (system (MultiLockFreeQueue nat) (Boost.BoostLockFreeQueue nat)).
Notation demo_data := (Irecv 500 8 2 1 42 91, mkTicket (mkContext false 7) 200).
Definition demo_s0 : demo_system := mkSystem demo_manager demo_world [] [] [] [].
Definition demo_s1 : demo_system :=
  mkSystem demo_manager demo_begun.2 [(demo_begun.1.2, demo_begun.1.1)] [] [] [demo_data].

Lemma demo_joint_run :
  rtc joint_step (demo_s0, Some (mkRts ∅ 2 15)) (demo_queued, Some (rt7 false 0 1 false)).
Proof.
  eapply rtc_l; [exact (joint_spawn demo_s0 (mkRts ∅ 2 15) 7 eq_refl)|].
  eapply rtc_l; [|apply rtc_once].
  - apply (joint_recv demo_s0 demo_s1 (rt7 false 0 0 false) (rt7 false 0 1 false)
      [EvAlpi (TaskEventsIncrease 7 1)]); [|by vm_compute|by vm_compute|].
    + apply (step_begin_p2p demo_manager demo_world [] [] [] [] 0 NONBLK 7 demo_op demo_begun.1.1
        demo_begun.1.2 demo_begun.2 demo_data); [vm_compute; lia| |by vm_compute..].
      eexists _, _. split_and!; [done..|]. by right.
    + right. split_and!; [reflexivity..|by eexists|by exists demo_data].
  - apply (joint_recv demo_s1 demo_queued _ (rt7 false 0 1 false) []); [|by vm_compute|by vm_compute|left; reflexivity].
    apply (step_push_p2p _ _ [] [] _ _ _ 0 demo_begun.1.2 demo_begun.1.1 demo_pushed.2);
      [vm_compute; lia|by vm_compute].
Qed.

Lemma poll_releases_tasks_witness :
  ∃ N s' rt', rounds (λ _, 0%Z) N demo_queued = Ok s' ∧
    rtc joint_step (demo_queued, Some (rt7 false 0 1 false)) (s', Some rt') ∧
    ∀ t k, rt_tasks rt' !! t = Some k → outside t s' → rt_blocked k = false ∧ rt_events k = 0.
Proof.
  exact (poll_releases_tasks (H4:=demo_fair) demo_manager demo_world 2 15 demo_queued (rt7 false 0 1 false)
    (λ _, 0%Z) (demo_orderly _) demo_fresh_manager demo_fresh_world demo_joint_run eq_refl eq_refl
    (demo_begun_reliable _) ltac:(by vm_compute) ltac:(apply Nat.ltb_lt; vm_compute; reflexivity)).
Defined.
End release_witness.
