(* ===== verification/Polling.v ===== *)
(** * The polling functions

    [Polling::polling] and [Polling::completions]
    ([src/src/common/polling/Polling.hpp]) in a build for C: what the two
    polling tasks run, and how long they wait before the next call. *)

From S2P Require Import Prelude Queues MultiQueue Allocator World Interface Tickets Operations StringSupport CapacityCtrl PollingPeriod TicketManager ManagerProofs PollingProofs System Demo.

Section polling_functions.
Context `{Doubles, SpscLib, AlpiLib, MpiLib} {QP QC : Type} `{!OpQueue QP ptr, !OpQueue QC ptr}.
Implicit Types (w : world) (m : TicketManager QP QC) (c : PollingPeriodCtrl).

(** The period, in microseconds, with [_periodCtrl], the ticket manager and the
    world afterwards; [now] is the time of the call. *)
Definition polling (now : Z) c m w : outcome (Z * PollingPeriodCtrl * TicketManager QP QC * world) :=
  '(completed, pending, m, w) ← checkRequests now m w;
  '(period, c) ← getPeriod (Z.of_nat completed) c;
  Ok (period, c, m, w).

Definition completions c w : outcome (Z * PollingPeriodCtrl * world) :=
  '(completed, w) ← process w;
  '(period, c) ← getPeriod (Z.of_nat completed) c;
  Ok (period, c, w).
End polling_functions.

Section polling_function_proofs.
Context `{Doubles, SpscLib, !SpscLaws, AlpiLib, MpiLib, !MpiLaws}.
Context {QP QC : Type} `{!OpQueue QP ptr, !OpQueueLaws QP ptr, !OpQueue QC ptr, !OpQueueLaws QC ptr}.
Implicit Types (w : world) (m : TicketManager QP QC) (c : PollingPeriodCtrl).

(** The completion task notifies every task that was handed over, in order. *)
Lemma completions_notify (F : Prop) mn mx c w :
  F ∨ alpi_ok → (10 ≤ mx < 2 ^ 51)%Z → period_inv mn mx c →
  post F (λ '(period, c', w'), (mn ≤ period ≤ mx)%Z ∧ period_inv mn mx c' ∧
      spsc_contents (w_queue w') = [] ∧
      notified (w_trace w') = notified (w_trace w) ++ spsc_contents (w_queue w))
    (completions c w).
Proof.
  intros HF Hmx Hc. unfold completions. eapply post_bind; [by apply process_post|].
  intros [n w'] _ (_ & Hq & (es & Htr & Hn & _) & _).
  destruct (getPeriod_inv mn mx (Z.of_nat n) c Hmx Hc) as (p & c' & -> & Hb & Hc').
  simpl. split_and!; [lia..|done|done|]. by rewrite Htr, notified_app, Hn.
Qed.

(** A call of the polling function reaches no undefined state and can only
    stop the program where a poll can; when MPI and the runtime report no error
    it returns.  What it did is a poll, and the period it asks for is within
    the configured bounds. *)
Theorem polling_returns (F : Prop) pp pc mn mx now c m w :
  F ∨ reliable (unfinished m) w → manager_inv pp pc m w → (10 ≤ mx < 2 ^ 51)%Z → period_inv mn mx c →
  post F (λ '(period, c', m', w'), (mn ≤ period ≤ mx)%Z ∧ period_inv mn mx c' ∧
      ∃ n k tr fin, poll_result (pp:=pp) (pc:=pc) m w n k m' w' tr fin)
    (polling now c m w).
Proof.
  intros HF Hm Hmx Hc. unfold polling. eapply post_bind; [by apply (checkRequests_post (pp:=pp) (pc:=pc))|].
  intros [[[n k] m'] w'] _ (tr & fin & Hp).
  destruct (getPeriod_inv mn mx (Z.of_nat n) c Hmx Hc) as (p & c' & -> & Hb & Hc').
  simpl. split_and!; [lia..|done|]. by exists n, k, tr, fin.
Qed.
End polling_function_proofs.

Section polling_witness.
Import ListSpsc.
#[local] Existing Instance demo_doubles.

Lemma polling_returns_witness : ∃ period c' m' w',
  polling 0 (demo_period "5:100") demo_pushed.2 demo_begun.2 = Ok (period, c', m', w') ∧
  (5 ≤ period ≤ 100)%Z.
Proof.
  assert (reliable (unfinished demo_pushed.2) demo_begun.2) as Hr.
  { split_and!; [apply demo_mpi_ok|apply demo_alpi_ok|by left]. }
  pose proof (polling_returns False [] [] 5 100 0 (demo_period "5:100") demo_pushed.2 demo_begun.2
    (or_intror Hr) demo_queued_inv ltac:(split; [discriminate|reflexivity])
    (newPeriodCtrl_inv "TAMPI_POLLING_PERIOD" (Some (str "5:100")) (demo_period "5:100") eq_refl
      ltac:(split; [discriminate|reflexivity]))) as Hp.
  destruct (post_False_Ok _ _ Hp) as ([[[p c'] m'] w'] & Heq & Hb & _).
  exists p, c', m', w'. split; [exact Heq|exact Hb].
Defined.
End polling_witness.
