(* ===== verification/Tasking.v ===== *)
(** * The tasking runtime

    [TaskingModel::initialize] ([src/src/common/TaskingModel.cpp]), the loading
    of symbols ([src/src/common/Symbol.hpp]), and the life of a polling
    instance: [registerPolling], [genericPolling], [suspendPolling],
    [genericCompleted] and [unregisterPolling]
    ([src/src/common/TaskingModel.hpp]). *)

From S2P Require Import Prelude ErrorHandler Symbols.

(** ** Constants of the tasking interface *)

Definition ALPI_VERSION_MAJOR : Z := 1.

(** [alpi_error_t] *)
Definition ALPI_SUCCESS : Z := 0.
Definition ALPI_ERR_VERSION : Z := 1.

(** ** The symbols of the runtime *)

(** What the runtime answers: the version it provides with the code of
    [alpi_version_get], the codes of [alpi_version_check] for version 1.0 and
    of [alpi_feature_check] for suspension, and its descriptions of codes. *)
Record runtime := mkRuntime {
  rt_version : Z * Z;
  rt_version_error : Z;
  rt_version_check : Z;
  rt_feature_check : Z;
  rt_error_string : Z → string;
}.

(** The static symbols of [TaskingModel]. *)
Definition alpi_names : list string :=
  ["alpi_error_string"; "alpi_info_get"; "alpi_feature_check"; "alpi_version_check";
   "alpi_version_get"; "alpi_task_self"; "alpi_task_block"; "alpi_task_unblock";
   "alpi_task_waitfor_ns"; "alpi_task_events_increase"; "alpi_task_events_test";
   "alpi_task_events_decrease"; "alpi_task_spawn"; "alpi_cpu_count"; "alpi_cpu_logical_id";
   "alpi_cpu_system_id"; "alpi_task_suspend_mode_set"; "alpi_task_suspend"]%string.

(** [ALPISymbol::processFailure]: only [alpi_error_string] itself has no symbol
    that describes errors. *)
Definition processFailure {A} (rt : runtime) (t : symbols) (name : string) (error : Z) : outcome A :=
  if decide (name = "alpi_error_string") then
    fail [RStr "Failed "; RStr name; RStr ": "; RStr "No description"]
  else
    _ ← invoke_named "alpi_error_string" t;
    fail [RStr "Failed "; RStr name; RStr ": "; RStr (rt_error_string rt error)].

(** [ALPISymbol::operator()] of a function that returned [err]. *)
Definition alpi_invoke (rt : runtime) (t : symbols) (name : string) (err : Z) : outcome unit :=
  _ ← invoke_named name t;
  if decide (err = 0)%Z then Ok tt else processFailure rt t name err.

(** The symbols that [initialize] loads, in its order, with whether each is
    mandatory. *)
Definition alpi_symbols (requireTaskBlockingAPI requireTaskEventsAPI : bool) :
    list (string * bool) :=
  [("alpi_error_string", true); ("alpi_info_get", false); ("alpi_feature_check", false);
   ("alpi_version_check", true); ("alpi_version_get", true); ("alpi_task_self", true)]%string ++
  (if requireTaskBlockingAPI
   then [("alpi_task_block", true); ("alpi_task_unblock", true)]%string else []) ++
  [("alpi_task_waitfor_ns", true)]%string ++
  (if requireTaskEventsAPI
   then [("alpi_task_events_increase", true); ("alpi_task_events_test", false);
         ("alpi_task_events_decrease", true)]%string else []) ++
  [("alpi_task_spawn", true); ("alpi_cpu_count", true); ("alpi_cpu_logical_id", true);
   ("alpi_cpu_system_id", true); ("alpi_task_suspend", false);
   ("alpi_task_suspend_mode_set", false)]%string.

Inductive polling_function := suspendPolling | genericPolling.
#[global] Instance polling_function_eq_dec : EqDecision polling_function.
Proof. solve_decision. Defined.

(** The static members of [TaskingModel], and what was printed to the error
    stream. *)
Record TaskingModel := mkTasking {
  tm_symbols : symbols;
  pollingFunction : option polling_function;
  tm_stderr : list string;
}.

Definition newTasking : TaskingModel := mkTasking (unloaded alpi_names) None [].

(** The check of the versions. *)
Definition check_version (rt : runtime) (t : symbols) : outcome unit :=
  _ ← alpi_invoke rt t "alpi_version_get" (rt_version_error rt);
  _ ← invoke_named "alpi_version_check" t;
  _ ← failIf (bool_decide (rt_version_check rt = ALPI_ERR_VERSION))
        [RStr ("Incompatible ALPI tasking interface versions:" +:+ endl);
         RStr "	Expected: "; RInt ALPI_VERSION_MAJOR; RStr "."; RInt 0; RStr endl;
         RStr "	Provided: "; RInt (rt_version rt).1; RStr "."; RInt (rt_version rt).2];
  if decide (rt_version_check rt = 0)%Z then Ok tt
  else processFailure rt t "alpi_version_check" (rt_version_check rt).

(** Whether the runtime supports suspension; older runtimes cannot be asked. *)
Definition suspend_supported (rt : runtime) (t : symbols) : outcome bool :=
  let featureCheckAvailable :=
    bool_decide (1 < (rt_version rt).1 ∨ ((rt_version rt).1 = 1 ∧ 2 ≤ (rt_version rt).2))%Z in
  if featureCheckAvailable then
    _ ← invoke_named "alpi_feature_check" t; Ok (bool_decide (ALPI_SUCCESS = rt_feature_check rt))
  else Ok false.

(** The polling mode that the user asked for, given whether suspension is
    supported: whether to use it, and what is printed. *)
Definition select_polling (pollingMode : string) (useSuspendPolling : bool) (err : list string) :
    outcome (bool * list string) :=
  if decide (pollingMode = "suspend") then
    _ ← failIf (negb useSuspendPolling)
          [RStr "Use of suspend polling API was forced, but the ALPI implementor does not support it"];
    Ok (useSuspendPolling, err)
  else if decide (pollingMode = "blocking") then
    Ok (false, warnIf useSuspendPolling [RStr "Using blocking polling mode instead of suspend"] err)
  else if decide (pollingMode = "auto") then
    Ok (useSuspendPolling, warnIf (negb useSuspendPolling)
          [RStr "ALPI suspend not supported by tasking model, Using blocking polling implementation"] err)
  else
    fail [RStr "Unknown polling mode requested: "; RStr pollingMode;
          RStr (endl +:+ "	Expected one of: suspend, blocking or auto." +:+ endl)].

(** [TaskingModel::initialize]; [pollingMode] is the value of
    TAMPI_POLLING_MODE, or its default. *)
Definition initialize_tasking (dlsym : linker) (rt : runtime) (pollingMode : string)
    (requireTaskBlockingAPI requireTaskEventsAPI : bool) (s : TaskingModel) : outcome TaskingModel :=
  if negb requireTaskBlockingAPI && negb requireTaskEventsAPI then Ok s else
  t ← load_list dlsym First (alpi_symbols requireTaskBlockingAPI requireTaskEventsAPI) (tm_symbols s);
  _ ← check_version rt t;
  useSuspendPolling ← suspend_supported rt t;
  '(useSuspendPolling, err) ← select_polling pollingMode useSuspendPolling (tm_stderr s);
  Ok (mkTasking t (Some (if (useSuspendPolling : bool) then suspendPolling else genericPolling)) err).

(** ** Pausing the polling task *)

(** The calls that pause it; [ALPISymbol::operator()] stops the program when one
    returns an error. *)
Inductive pause_call :=
| TaskSelf
| TaskWaitfor (ns : Z)
| TaskSuspendModeSet (mode args : Z)
| TaskSuspend.

Definition ALPI_SUSPEND_SUBMIT : Z := 1.
Definition ALPI_SUSPEND_TIMEOUT_SUBMIT : Z := 2.

(** [suspendCurrentWithTimeout(timeout_ns)] *)
Definition suspendCurrentWithTimeout (timeout_ns : Z) : list pause_call :=
  TaskSelf ::
  (if (timeout_ns =? 0)%Z then [TaskSuspendModeSet ALPI_SUSPEND_SUBMIT 0]
   else [TaskSuspendModeSet ALPI_SUSPEND_TIMEOUT_SUBMIT timeout_ns]) ++ [TaskSuspend].

(** What each polling function does after the polling function of the instance
    asked for [target] microseconds; [target * 1000] is an unsigned product. *)
Definition polling_pause (f : polling_function) (target : Z) : list pause_call :=
  match f with
  | genericPolling => [TaskWaitfor (u64 (target * 1000))]
  | suspendPolling => suspendCurrentWithTimeout (u64 (target * 1000))
  end.

(** The time that a pause takes at least, in nanoseconds. *)
Definition pause_time (l : list pause_call) : Z :=
  foldr (λ c acc, match c with
    | TaskSelf => 0
    | TaskWaitfor ns => ns
    | TaskSuspendModeSet mode args => if decide (mode = ALPI_SUSPEND_TIMEOUT_SUBMIT) then args else 0
    | TaskSuspend => 0
    end + acc)%Z 0%Z l.

(** Both functions pause for the microseconds asked, which do not overflow
    below 2^54. *)
Lemma polling_pause_time f target :
  (0 ≤ target < 2 ^ 54)%Z → pause_time (polling_pause f target) = (target * 1000)%Z.
Proof.
  intros Ht. assert (u64 (target * 1000) = (target * 1000)%Z) as Hu.
  { apply u64_small. unfold is_u64, u64_modulus. lia. }
  unfold polling_pause, suspendCurrentWithTimeout. rewrite Hu.
  destruct f; [|simpl; lia]. destruct (Z.eqb_spec (target * 1000) 0); simpl; lia.
Qed.

(** ** A polling instance *)

(** Where the polling task of an instance is: spawned, calling the polling
    function, between two calls, returned from its body, and completed (the
    runtime called [genericCompleted]). *)
Inductive task_place := Spawned | Calling | Paused | Returned | Completed.
#[global] Instance task_place_eq_dec : EqDecision task_place.
Proof. solve_decision. Defined.

(** Where the thread that unregisters the instance is. *)
Inductive unregister_place := NotCalled | Waiting | Deleted.

(** The instance with its two atomics; reading or writing it after [delete] is
    recorded in [use_after_free]. *)
Record polling := mkPolling {
  _mustFinish : bool;
  _finished : bool;
  place : task_place;
  unregister : unregister_place;
  use_after_free : bool;
}.

Definition newPolling : polling := mkPolling false false Spawned NotCalled false.

Definition freed (p : polling) : bool := match unregister p with Deleted => true | _ => false end.
Definition touch (p : polling) : bool := use_after_free p || freed p.

(** The steps of the polling task and of the thread that unregisters it, in any
    interleaving.  [genericPolling] tests [_mustFinish] before every call;
    [suspendPolling] does so each time the runtime resumes the task, and
    returns otherwise. *)
Inductive polling_step : polling → polling → Prop :=
| poll_call p : place p = Spawned ∨ place p = Paused → _mustFinish p = false →
    polling_step p (mkPolling (_mustFinish p) (_finished p) Calling (unregister p) (touch p))
| poll_pause p : place p = Calling →
    polling_step p (mkPolling (_mustFinish p) (_finished p) Paused (unregister p) (use_after_free p))
| poll_return p : place p = Spawned ∨ place p = Paused → _mustFinish p = true →
    polling_step p (mkPolling (_mustFinish p) (_finished p) Returned (unregister p) (touch p))
| poll_completed p : place p = Returned →
    polling_step p (mkPolling (_mustFinish p) true Completed (unregister p) (touch p))
| unregister_notify p : unregister p = NotCalled →
    polling_step p (mkPolling true (_finished p) (place p) Waiting (use_after_free p))
| unregister_delete p : unregister p = Waiting → _finished p = true →
    polling_step p (mkPolling (_mustFinish p) (_finished p) (place p) Deleted (use_after_free p)).

(** The flags say where the two threads are. *)
Record polling_inv (p : polling) : Prop := {
  pi_finished : _finished p = true ↔ place p = Completed;
  pi_must : _mustFinish p = true ↔ unregister p ≠ NotCalled;
  pi_returned : place p = Returned ∨ place p = Completed → _mustFinish p = true;
  pi_deleted : unregister p = Deleted → place p = Completed;
  pi_safe : use_after_free p = false;
}.

Lemma polling_inv_new : polling_inv newPolling.
Proof. split; simpl; naive_solver. Qed.

Lemma polling_inv_step p p' : polling_step p p' → polling_inv p → polling_inv p'.
Proof.
  intros Hs [Hf Hm Hr Hd Hu].
  destruct Hs as [p Hp Hmf|p Hp|p Hp Hmf|p Hp|p Hn|p Hw Hfi]; destruct p as [mf fi pl un uf];
    simpl in *; subst uf; split; unfold touch, freed; simpl in *;
    destruct un, mf, fi; try specialize (Hd eq_refl); intuition congruence.
Qed.

Lemma polling_inv_run p p' : rtc polling_step p p' → polling_inv p → polling_inv p'.
Proof. induction 1; eauto using polling_inv_step. Qed.

(** Once notified, the number of steps left is bounded. *)
Definition polling_measure (p : polling) : nat :=
  match place p with
  | Calling => 4 | Spawned | Paused => 3 | Returned => 2 | Completed => 1
  end + match unregister p with NotCalled => 2 | Waiting => 1 | Deleted => 0 end.

Lemma polling_progress p :
  polling_inv p → unregister p = Waiting →
  (∀ p', polling_step p p' → polling_measure p' < polling_measure p) ∧
  (∃ p', polling_step p p').
Proof.
  intros [Hf Hm Hr Hd Hs] Hu. assert (_mustFinish p = true) as Hmust by (apply Hm; by rewrite Hu).
  split.
  - intros p' Hstep. unfold polling_measure.
    destruct Hstep as [p Hp Hmf|p Hp|p Hp Hmf|p Hp|p Hn|p Hw Hfi]; simpl in *; try congruence.
    + rewrite Hp. lia.
    + destruct Hp as [-> | ->]; lia.
    + rewrite Hp. lia.
    + rewrite Hw. destruct (place p); lia.
  - destruct (place p) eqn:Hp.
    + eexists. apply poll_return; auto.
    + eexists. by apply poll_pause.
    + eexists. apply poll_return; auto.
    + eexists. by apply poll_completed.
    + eexists. apply unregister_delete; [done|]. by apply Hf.
Qed.

(** ** Properties *)

(** Membership in a list of constants, by computation. *)
Ltac in_list := apply (bool_decide_unpack _); vm_compute.

(** The symbols are those of the linker, or not loaded. *)
Definition tasking_ok (dlsym : linker) (s : TaskingModel) : Prop :=
  resolved dlsym First (tm_symbols s) ∧
  ∀ name, name ∈ alpi_names → is_Some (tm_symbols s !! name).

Lemma newTasking_ok dlsym : tasking_ok dlsym newTasking.
Proof.
  split; [apply unloaded_resolved|]. intros name Hn. cbn [tm_symbols newTasking].
  by rewrite unloaded_lookup.
Qed.

Lemma alpi_symbols_names blk evs x : x ∈ alpi_symbols blk evs → x.1 ∈ alpi_names.
Proof.
  assert (Forall (λ x, x.1 ∈ alpi_names) (alpi_symbols blk evs)) as HF.
  { destruct blk, evs; apply (bool_decide_unpack _); by vm_compute. }
  rewrite Forall_forall in HF. apply HF.
Qed.

(** What is loaded for every mode. *)
Lemma alpi_symbols_base blk evs x : x ∈ alpi_symbols false false → x ∈ alpi_symbols blk evs.
Proof.
  assert (Forall (λ x, x ∈ alpi_symbols blk evs) (alpi_symbols false false)) as HF.
  { destruct blk, evs; apply (bool_decide_unpack _); by vm_compute. }
  rewrite Forall_forall in HF. apply HF.
Qed.

(** A symbol that was loaded from the linker. *)
Definition bound_to (dlsym : linker) (attr : SymbolAttr) (t : symbols) (name : string) : Prop :=
  is_Some (dlsym attr name) ∧ t !! name = Some (mkSymbol name (dlsym attr name)).

Lemma invoke_bound dlsym attr t name : bound_to dlsym attr t name → ∃ a, invoke_named name t = Ok a.
Proof.
  intros [[a Ha] Ht]. exists a. unfold invoke_named, invoke. rewrite Ht. simpl. by rewrite Ha.
Qed.

(** The symbols after [initialize] has loaded them. *)
Lemma load_alpi dlsym blk evs s :
  tasking_ok dlsym s →
  post (∃ name, (name, true) ∈ alpi_symbols blk evs ∧ dlsym First name = None)
    (λ t, resolved dlsym First t ∧ (∀ name, name ∈ alpi_names → is_Some (t !! name)) ∧
      (∀ name, bound_to dlsym First (tm_symbols s) name → bound_to dlsym First t name) ∧
      (∀ name, (name, true) ∈ alpi_symbols blk evs → bound_to dlsym First t name) ∧
      (∀ name m, (name, m) ∈ alpi_symbols blk evs → is_Some (dlsym First name) →
         bound_to dlsym First t name))
    (load_list dlsym First (alpi_symbols blk evs) (tm_symbols s)).
Proof.
  intros [Hr Hn]. pose proof (load_list_post dlsym First (alpi_symbols blk evs) _ Hr) as Hp.
  destruct (load_list _ _ _ _) as [t| |]; simpl in Hp |- *;
    [|apply Hp; intros x Hx; by apply Hn, (alpi_symbols_names blk evs)..].
  destruct Hp as (Hr' & Hl & Ho); [intros x Hx; by apply Hn, (alpi_symbols_names blk evs)|].
  assert (∀ name, name ∈ (alpi_symbols blk evs).*1 → t !! name = Some (mkSymbol name (dlsym First name))) as Hin.
  { intros name ([n m] & -> & Hx)%list_elem_of_fmap. by apply (Hl n m). }
  split_and!; [done| | | |].
  - intros name Hname. destruct (decide (name ∈ (alpi_symbols blk evs).*1)); [by rewrite Hin|].
    rewrite Ho by done. by apply Hn.
  - intros name [Hs Hb]. split; [done|]. destruct (decide (name ∈ (alpi_symbols blk evs).*1)); [by apply Hin|].
    by rewrite Ho.
  - intros name Hx. destruct (Hl _ _ Hx) as [Ht Hs]. by split; [apply Hs|].
  - intros name m Hx Hs. destruct (Hl _ _ Hx) as [Ht _]. by split.
Qed.

Lemma processFailure_fails {A} (F : Prop) dlsym rt t name err :
  F → bound_to dlsym First t "alpi_error_string" →
  post F (λ _ : A, False) (processFailure rt t name err).
Proof.
  intros HF Hb. unfold processFailure. case_decide; [done|].
  by destruct (invoke_bound _ _ _ _ Hb) as [a ->].
Qed.

Lemma check_version_post dlsym rt t :
  bound_to dlsym First t "alpi_error_string" → bound_to dlsym First t "alpi_version_get" →
  bound_to dlsym First t "alpi_version_check" →
  post (rt_version_error rt ≠ 0%Z ∨ rt_version_check rt ≠ 0%Z)
    (λ _, rt_version_error rt = 0%Z ∧ rt_version_check rt = 0%Z) (check_version rt t).
Proof.
  intros He Hg Hc. unfold check_version, alpi_invoke.
  destruct (invoke_bound _ _ _ _ Hg) as [a ->], (invoke_bound _ _ _ _ Hc) as [a' Ha'].
  cbn [mbind outcome_bind]. rewrite Ha'.
  eapply (post_bind _ (λ _, rt_version_error rt = 0%Z)).
  { case_decide; [done|]. eapply post_mono; [eapply processFailure_fails; [by left|done]|]. done. }
  intros _ _ Hv. cbn [mbind outcome_bind].
  apply post_failIf; [intros ->%bool_decide_eq_true; by right|]. intros _.
  case_decide; [done|]. eapply post_mono; [eapply processFailure_fails; [by right|done]|]. done.
Qed.

(** A runtime that can be asked whether it supports suspension, and does. *)
Definition supports_suspend (rt : runtime) : Prop :=
  rt_feature_check rt = ALPI_SUCCESS ∧
  (1 < (rt_version rt).1 ∨ ((rt_version rt).1 = 1 ∧ 2 ≤ (rt_version rt).2))%Z.

(** What [initialize] demands of the linker, of the runtime and of the user. *)
Definition startable (dlsym : linker) (rt : runtime) (mode : string) (blk evs : bool) : Prop :=
  (∀ name, (name, true) ∈ alpi_symbols blk evs → is_Some (dlsym First name)) ∧
  rt_version_error rt = 0%Z ∧ rt_version_check rt = 0%Z ∧
  mode ∈ ["suspend"; "blocking"; "auto"] ∧ (mode = "suspend" → supports_suspend rt).

Lemma select_polling_post rt mode use err :
  (use = true ↔ supports_suspend rt) →
  post (¬ (mode ∈ ["suspend"; "blocking"; "auto"] ∧ (mode = "suspend" → supports_suspend rt)))
    (λ x, (x.1 = true ↔ supports_suspend rt ∧ mode ≠ "blocking") ∧
      mode ∈ ["suspend"; "blocking"; "auto"] ∧ (mode = "suspend" → supports_suspend rt))
    (select_polling mode use err).
Proof.
  intros Hu. unfold select_polling. destruct (decide (mode = "suspend")) as [->|Hns].
  - apply post_failIf; [intros Hn%negb_true_iff; intros [_ Hs]|intros Hn%negb_false_iff].
    + specialize (Hs eq_refl). apply Hu in Hs. congruence.
    + simpl. split_and!; [naive_solver|by in_list|naive_solver].
  - destruct (decide (mode = "blocking")) as [->|]; simpl; [split_and!; [naive_solver|by in_list|done]|].
    destruct (decide (mode = "auto")) as [->|]; simpl; [split_and!; [naive_solver|by in_list|done]|].
    intros [Hm _]. set_solver.
Qed.

(** What holds whenever [initialize] returns. *)
Lemma initialize_tasking_Ok dlsym rt mode blk evs s s' :
  tasking_ok dlsym s → initialize_tasking dlsym rt mode blk evs s = Ok s' →
  tasking_ok dlsym s' ∧
  (∀ name, bound_to dlsym First (tm_symbols s) name → bound_to dlsym First (tm_symbols s') name) ∧
  (blk || evs = true →
    (∀ name, (name, true) ∈ alpi_symbols blk evs → bound_to dlsym First (tm_symbols s') name) ∧
    is_Some (pollingFunction s')).
Proof.
  intros Hok Hi. unfold initialize_tasking in Hi. rewrite <-negb_orb in Hi.
  destruct (blk || evs); cbn [negb] in Hi; [|by simplify_eq].
  pose proof (load_alpi dlsym blk evs s Hok) as Hl. apply bind_Ok in Hi as (t & Ht & Hi).
  rewrite Ht in Hl. destruct Hl as (Hr & Hn & Hold & Hman & _).
  apply bind_Ok in Hi as (u & _ & Hi). apply bind_Ok in Hi as (use & _ & Hi).
  apply bind_Ok in Hi as ([use' err] & _ & Hi). simplify_eq. by split_and!.
Qed.

(** Both ways in which [initialize] ends. *)
Lemma initialize_tasking_post dlsym rt mode blk evs s :
  tasking_ok dlsym s →
  (is_Some (dlsym First "alpi_feature_check") ∨ (rt_version rt).1 < 1 ∨
   ((rt_version rt).1 = 1 ∧ (rt_version rt).2 < 2))%Z →
  post (blk || evs = true ∧ ¬ startable dlsym rt mode blk evs)
    (λ s', tasking_ok dlsym s' ∧
      (∀ name, bound_to dlsym First (tm_symbols s) name → bound_to dlsym First (tm_symbols s') name) ∧
      if blk || evs then
        startable dlsym rt mode blk evs ∧
        (∀ name m, (name, m) ∈ alpi_symbols blk evs → is_Some (dlsym First name) →
           bound_to dlsym First (tm_symbols s') name) ∧
        ∃ f, pollingFunction s' = Some f ∧ (f = suspendPolling ↔ supports_suspend rt ∧ mode ≠ "blocking")
      else s' = s)
    (initialize_tasking dlsym rt mode blk evs s).
Proof.
  intros Hok Hfeature. unfold initialize_tasking. rewrite <-negb_orb.
  destruct (blk || evs) eqn:Hmodes; simpl; [|by split_and!].
  eapply post_bind.
  { eapply post_weaken; [|by apply load_alpi]. intros (name & Hin & Hno). split; [done|].
    intros [Hall _]. destruct (Hall _ Hin). congruence. }
  intros t _ (Hr & Hn & Hold & Hman & Hopt).
  assert (∀ name, (name, true) ∈ alpi_symbols false false → bound_to dlsym First t name) as Hbase.
  { intros name Hin. apply Hman. by apply alpi_symbols_base. }
  eapply post_bind.
  { eapply post_weaken; [|apply (check_version_post dlsym); apply Hbase; by in_list].
    intros Hv. split; [done|]. intros (_ & ? & ? & _). naive_solver. }
  intros _ _ [Hve Hvc].
  eapply (post_bind _ (λ use : bool, use = true ↔ supports_suspend rt)).
  { unfold suspend_supported, supports_suspend. case_bool_decide as Hver; [|simpl; naive_solver].
    destruct Hfeature as [Hf|Hold']; [|lia].
    destruct (invoke_bound dlsym First t "alpi_feature_check") as [a ->].
    { apply (Hopt _ false); [destruct blk, evs; by in_list|done]. }
    simpl. rewrite bool_decide_eq_true. naive_solver. }
  intros use _ Huse. eapply post_bind.
  { eapply post_weaken; [|by apply select_polling_post]. intros Hm. split; [done|].
    intros (_ & _ & _ & Hm'). by apply Hm. }
  intros [use' err] _ (Hu & Hm & Hs). simpl in *. split_and!; [done|done| |done|].
  - split_and!; [|done..]. intros name Hin. by apply Hman.
  - eexists. split; [done|]. rewrite <-Hu. by destruct use'.
Qed.

(** C32: [TaskingModel::initialize] never calls a symbol that was not loaded
    (provided that a runtime of version 1.2 or later has the
    [alpi_feature_check] that version introduced).  It returns exactly when no
    mode is required or all of this holds: the linker finds the mandatory
    symbols of the modes, the runtime reports compatible versions, the polling
    mode is a known one, and suspend polling is supported if it was asked for.
    Every runtime symbol of the enabled modes, the mandatory ones and the optional
    ones that exist, is then bound to its first occurrence, symbols bound before
    stay bound, and suspend polling is
    selected exactly when the runtime supports it and the user did not ask for
    blocking polling. *)
Theorem tasking_initialized dlsym rt mode blk evs s :
  tasking_ok dlsym s →
  (is_Some (dlsym First "alpi_feature_check") ∨ (rt_version rt).1 < 1 ∨
   ((rt_version rt).1 = 1 ∧ (rt_version rt).2 < 2))%Z →
  post (blk || evs = true ∧ ¬ startable dlsym rt mode blk evs)
    (λ s', tasking_ok dlsym s' ∧
      (∀ name, bound_to dlsym First (tm_symbols s) name → bound_to dlsym First (tm_symbols s') name) ∧
      if blk || evs then
        startable dlsym rt mode blk evs ∧
        (∀ name m, (name, m) ∈ alpi_symbols blk evs → is_Some (dlsym First name) →
           bound_to dlsym First (tm_symbols s') name) ∧
        ∃ f, pollingFunction s' = Some f ∧ (f = suspendPolling ↔ supports_suspend rt ∧ mode ≠ "blocking")
      else s' = s)
    (initialize_tasking dlsym rt mode blk evs s).
Proof. apply initialize_tasking_post. Qed.

(** A linker that finds every symbol, and a runtime of version 1.2 without
    suspension. *)
Definition demo_linker : linker := λ _ _, Some 1%Z.
Definition demo_runtime : runtime := mkRuntime (1, 2)%Z 0 0 7 (λ _, "").

Lemma demo_tasking :
  ∃ s', initialize_tasking demo_linker demo_runtime "auto" true true newTasking = Ok s' ∧
    pollingFunction s' = Some genericPolling.
Proof. eexists. split; [vm_compute; reflexivity|reflexivity]. Qed.

Lemma tasking_initialized_witness :
  ∃ s', initialize_tasking demo_linker demo_runtime "auto" true true newTasking = Ok s' ∧
    pollingFunction s' = Some genericPolling ∧
    bound_to demo_linker First (tm_symbols s') "alpi_task_block".
Proof.
  pose proof (tasking_initialized demo_linker demo_runtime "auto" true true newTasking
    (newTasking_ok _) (or_introl (mk_is_Some _ _ eq_refl))) as Hp.
  destruct demo_tasking as (s' & Hs & Hf). rewrite Hs in Hp. exists s'. split; [exact Hs|].
  split; [exact Hf|]. destruct Hp as (_ & _ & _ & Hb & _). apply (Hb _ true); [by in_list|done].
Defined.

(** However the polling task and [unregisterPolling] interleave, the
    instance is not touched after it is deleted, and once it is deleted the
    polling function is not running and will not be called again. *)
Theorem polling_not_used_after_unregister p :
  rtc polling_step newPolling p →
  use_after_free p = false ∧
  (unregister p = Deleted → place p = Completed ∧ ∀ p', ¬ polling_step p p').
Proof.
  intros Hr. pose proof (polling_inv_run _ _ Hr polling_inv_new) as [Hf Hm Hret Hd Hs].
  split; [done|]. intros Hu. split; [by apply Hd|]. intros p' Hstep.
  specialize (Hd Hu).
  destruct Hstep as [p Hp Hmf|p Hp|p Hp Hmf|p Hp|p Hn|p Hw Hfi]; intuition congruence.
Qed.

(** An instance that was spawned, called once, notified and deleted. *)
Definition demo_polling : polling := mkPolling true true Completed Deleted false.

Lemma demo_polling_run : rtc polling_step newPolling demo_polling.
Proof.
  eapply rtc_l; [apply poll_call; auto|]. eapply rtc_l; [by apply poll_pause|].
  eapply rtc_l; [by apply unregister_notify|]. eapply rtc_l; [apply poll_return; auto|].
  eapply rtc_l; [by apply poll_completed|]. eapply rtc_l; [by apply unregister_delete|]. done.
Qed.

Lemma polling_not_used_after_unregister_witness :
  unregister demo_polling = Deleted ∧ ∀ p', ¬ polling_step demo_polling p'.
Proof.
  split; [reflexivity|].
  exact (proj2 (proj2 (polling_not_used_after_unregister demo_polling demo_polling_run) eq_refl)).
Defined.

(** [unregisterPolling] returns: after it has notified the instance, every
    step of either thread brings the deletion closer, some step is always
    possible, and no run of more than five steps is. *)
Theorem unregister_terminates p :
  rtc polling_step newPolling p → unregister p = Waiting →
  (∃ p', polling_step p p') ∧ polling_measure p ≤ 5 ∧
  ∀ p', polling_step p p' → polling_measure p' < polling_measure p.
Proof.
  intros Hr Hu. pose proof (polling_inv_run _ _ Hr polling_inv_new) as Hi.
  destruct (polling_progress p Hi Hu) as [Hdec Hex]. split_and!; [done| |done].
  unfold polling_measure. rewrite Hu. destruct (place p); lia.
Qed.

Lemma unregister_terminates_witness :
  let p := mkPolling true false Calling Waiting false in
  (∃ p', polling_step p p') ∧ polling_measure p = 5.
Proof.
  split; [|reflexivity].
  apply (unregister_terminates (mkPolling true false Calling Waiting false)); [|reflexivity].
  eapply rtc_l; [apply poll_call; auto|]. eapply rtc_l; [by apply unregister_notify|]. done.
Defined.
