(* ===== verification/PollingTask.v ===== *)
(** * The polling task in the runtime

    The body of a polling task, statement by statement ([genericPolling],
    [suspendPolling], [genericCompleted], [registerPolling] and
    [unregisterPolling] of [src/src/common/TaskingModel.hpp]), run by a runtime
    that spawns, pauses, suspends and completes tasks the way
    [src/src/common/ALPI.hpp] documents.  The two bodies are quite different
    (one is a loop inside one execution of the body, the other an execution of
    the body for every poll); the theorems show that they are the same polling
    loop, that polling goes on until it is unregistered and that it then ends,
    and that the life of an instance is the one of [Tasking.v]. *)

From S2P Require Import Prelude ErrorHandler Symbols Tasking.

(** ** The runtime *)

Definition ALPI_SUSPEND_NONE : Z := 0.
Definition ALPI_SUSPEND_EVENT_SUBMIT : Z := 3.

(** Where the body of a polling task is: at the test of [_mustFinish], in the
    function of the instance, before the calls that pause the task, and at its
    end. *)
Inductive body_place := AtTest | InFunction | Pausing (calls : list pause_call) | AtEnd.

(** What the runtime does with the task: it is submitted and will run its body
    from the start, runs it, is blocked in [alpi_task_waitfor_ns] before the
    rest of its body, will be submitted when a timeout passes, is suspended
    for good, will be submitted when its events are fulfilled, has finished its
    body, and was completed (the completion callback was called). *)
Inductive task_state :=
| Submitted
| Running (b : body_place)
| BlockedFor (ns : Z) (calls : list pause_call)
| TimedSubmit (ns : Z)
| SuspendedForGood
| EventSubmit
| BodyFinished
| CallbackCalled.

Record rtask := mkRtask {
  k_state : task_state;
  k_suspended : bool;
  k_mode : Z * Z;
  k_events : nat;
}.

(** [alpi_task_spawn] *)
Definition spawned : rtask := mkRtask Submitted false (ALPI_SUSPEND_NONE, 0%Z) 0.

Definition goto (s : task_state) (k : rtask) : rtask := mkRtask s (k_suspended k) (k_mode k) (k_events k).

(** What can be seen from outside: the function was called and asked for
    [target] microseconds; the task was paused for [ns] nanoseconds. *)
Inductive poll_event := Called (target : Z) | PausedFor (ns : Z).

(** The calls of the body that pause it; [rest] are those that follow. *)
Definition alpi_task_waitfor_ns (ns : Z) (rest : list pause_call) (k : rtask) : rtask :=
  goto (BlockedFor ns rest) k.
Definition alpi_task_suspend_mode_set (mode args : Z) (k : rtask) : rtask :=
  mkRtask (k_state k) (k_suspended k) (mode, args) (k_events k).
Definition alpi_task_suspend (k : rtask) : rtask :=
  mkRtask (k_state k) true (k_mode k) (k_events k).

Definition pause (c : pause_call) (rest : list pause_call) (k : rtask) : rtask * list poll_event :=
  match c with
  | TaskSelf => (goto (Running (Pausing rest)) k, [])
  | TaskWaitfor ns => (alpi_task_waitfor_ns ns rest k, [PausedFor ns])
  | TaskSuspendModeSet mode args =>
      (goto (Running (Pausing rest)) (alpi_task_suspend_mode_set mode args k), [])
  | TaskSuspend => (goto (Running (Pausing rest)) (alpi_task_suspend k), [])
  end.

(** The body returned: a task that was marked as suspended executes its suspend
    mode instead of finishing. *)
Definition body_returned (k : rtask) : rtask * list poll_event :=
  if k_suspended k then
    let unmarked s := mkRtask s false (k_mode k) (k_events k) in
    let '(mode, args) := k_mode k in
    if decide (mode = ALPI_SUSPEND_SUBMIT) then (unmarked Submitted, [PausedFor 0])
    else if decide (mode = ALPI_SUSPEND_TIMEOUT_SUBMIT) then (unmarked (TimedSubmit args), [PausedFor args])
    else if decide (mode = ALPI_SUSPEND_EVENT_SUBMIT) then (unmarked EventSubmit, [])
    else (unmarked SuspendedForGood, [])
  else (goto BodyFinished k, []).

(** ** The library *)

(** A polling instance; [i_stale] says that it was used after it was deleted. *)
Record instance := mkInstance {
  i_mustFinish : bool;
  i_finished : bool;
  i_deleted : bool;
  i_stale : bool;
}.

Definition newInstance : instance := mkInstance false false false false.
Definition use (i : instance) : instance :=
  mkInstance (i_mustFinish i) (i_finished i) (i_deleted i) (i_stale i || i_deleted i).

(** Where a thread that unregisters the instance is: before the call, at the
    test of [_finished], in [alpi_task_waitfor_ns], before [delete], and behind
    it. *)
Inductive unregister_at := Before | TestFinished | Sleeping | Deleting | After.

Record psys := mkPsys {
  p_task : rtask;
  p_inst : instance;
  p_unreg : unregister_at;
  p_trace : list poll_event;
}.

(** [registerPolling] *)
Definition registerPolling : psys := mkPsys spawned newInstance Before [].

(** The statement after the pauses: the loop of [genericPolling] starts again,
    [suspendPolling] returns. *)
Definition after_pause (f : polling_function) : body_place :=
  match f with genericPolling => AtTest | suspendPolling => AtEnd end.

(** The next statement of the body of the task or the next step of the runtime
    for it; the function of the instance asks for [target]. *)
Definition task_act (f : polling_function) (target : Z) (s : psys) : option psys :=
  let k := p_task s in
  let i := p_inst s in
  let go k := Some (mkPsys k i (p_unreg s) (p_trace s)) in
  match k_state k with
  | Submitted => go (goto (Running AtTest) k)
  | Running AtTest =>
      Some (mkPsys (goto (Running (if i_mustFinish i then AtEnd else InFunction)) k) (use i)
              (p_unreg s) (p_trace s))
  | Running InFunction =>
      Some (mkPsys (goto (Running (Pausing (polling_pause f target))) k) i (p_unreg s)
              (p_trace s ++ [Called target]))
  | Running (Pausing (c :: rest)) =>
      let '(k, es) := pause c rest k in Some (mkPsys k i (p_unreg s) (p_trace s ++ es))
  | Running (Pausing []) => go (goto (Running (after_pause f)) k)
  | Running AtEnd => let '(k, es) := body_returned k in Some (mkPsys k i (p_unreg s) (p_trace s ++ es))
  | BlockedFor _ rest => go (goto (Running (Pausing rest)) k)
  | TimedSubmit _ => go (goto Submitted k)
  | SuspendedForGood => None
  | EventSubmit => if k_events k =? 0 then go (goto Submitted k) else None
  | BodyFinished =>
      (* genericCompleted *)
      if k_events k =? 0 then
        Some (mkPsys (goto CallbackCalled k)
                (mkInstance (i_mustFinish i) true (i_deleted i) (i_stale i || i_deleted i))
                (p_unreg s) (p_trace s))
      else None
  | CallbackCalled => None
  end.

(** The next statement of [unregisterPolling]: what it does to the instance and
    where it is then. *)
Definition unregister_next (i : instance) (u : unregister_at) : option (instance * unregister_at) :=
  match u with
  | Before => Some (mkInstance true (i_finished i) (i_deleted i) (i_stale i), TestFinished)
  | TestFinished => Some (i, if i_finished i then Deleting else Sleeping)
  | Sleeping => Some (i, TestFinished)
  | Deleting => Some (mkInstance (i_mustFinish i) (i_finished i) true (i_stale i), After)
  | After => None
  end.

Definition unregister_act (s : psys) : option psys :=
  '(i, u) ← unregister_next (p_inst s) (p_unreg s);
  Some (mkPsys (p_task s) i u (p_trace s)).

Inductive run_step (f : polling_function) (s : psys) : psys → Prop :=
| run_task target s' : is_u64 target → task_act f target s = Some s' → run_step f s s'
| run_unregister s' : unregister_act s = Some s' → run_step f s s'.

(** Statements of the task alone, with the answers of the function. *)
Fixpoint task_run (f : polling_function) (targets : list Z) (s : psys) : option psys :=
  match targets with
  | [] => Some s
  | target :: targets => s' ← task_act f target s; task_run f targets s'
  end.

(** ** The polling loop *)

(** What both bodies are meant to be:
    [while (!mustFinish) pause(function()); finished = true]. *)
Inductive phase := Looping | Function | Pause (ns : Z) | Ended | Finished.

Record loop := mkLoop {
  l_phase : phase;
  l_inst : instance;
  l_unreg : unregister_at;
  l_trace : list poll_event;
}.

Inductive loop_step : loop → loop → Prop :=
| loop_call i u tr : i_mustFinish i = false →
    loop_step (mkLoop Looping i u tr) (mkLoop Function (use i) u tr)
| loop_return i u tr target : is_u64 target →
    loop_step (mkLoop Function i u tr) (mkLoop (Pause (u64 (target * 1000))) i u (tr ++ [Called target]))
| loop_pause i u tr ns :
    loop_step (mkLoop (Pause ns) i u tr) (mkLoop Looping i u (tr ++ [PausedFor ns]))
| loop_end i u tr : i_mustFinish i = true →
    loop_step (mkLoop Looping i u tr) (mkLoop Ended (use i) u tr)
| loop_finish i u tr :
    loop_step (mkLoop Ended i u tr)
      (mkLoop Finished (mkInstance (i_mustFinish i) true (i_deleted i) (i_stale i || i_deleted i)) u tr)
| loop_unregister ph i u tr i' u' : unregister_next i u = Some (i', u') →
    loop_step (mkLoop ph i u tr) (mkLoop ph i' u' tr).

(** The states of the task that are the same place of the loop. *)
Definition mode_of (ns : Z) : Z * Z :=
  if (ns =? 0)%Z then (ALPI_SUSPEND_SUBMIT, 0%Z) else (ALPI_SUSPEND_TIMEOUT_SUBMIT, ns).

Inductive at_phase : polling_function → rtask → phase → Prop :=
| ap_submitted f m : at_phase f (mkRtask Submitted false m 0) Looping
| ap_test f m : at_phase f (mkRtask (Running AtTest) false m 0) Looping
| ap_blocked m ns : at_phase genericPolling (mkRtask (BlockedFor ns []) false m 0) Looping
| ap_resumed m : at_phase genericPolling (mkRtask (Running (Pausing [])) false m 0) Looping
| ap_timed m ns : at_phase suspendPolling (mkRtask (TimedSubmit ns) false m 0) Looping
| ap_function f m : at_phase f (mkRtask (Running InFunction) false m 0) Function
| ap_waitfor m ns :
    at_phase genericPolling (mkRtask (Running (Pausing [TaskWaitfor ns])) false m 0) (Pause ns)
| ap_self m ns :
    at_phase suspendPolling (mkRtask (Running (Pausing (suspendCurrentWithTimeout ns))) false m 0) (Pause ns)
| ap_modeset m ns :
    at_phase suspendPolling (mkRtask (Running (Pausing [TaskSuspendModeSet (mode_of ns).1 (mode_of ns).2; TaskSuspend]))
      false m 0) (Pause ns)
| ap_suspend ns :
    at_phase suspendPolling (mkRtask (Running (Pausing [TaskSuspend])) false (mode_of ns) 0) (Pause ns)
| ap_marked ns : at_phase suspendPolling (mkRtask (Running (Pausing [])) true (mode_of ns) 0) (Pause ns)
| ap_body ns : at_phase suspendPolling (mkRtask (Running AtEnd) true (mode_of ns) 0) (Pause ns)
| ap_end f m : at_phase f (mkRtask (Running AtEnd) false m 0) Ended
| ap_finished f m : at_phase f (mkRtask BodyFinished false m 0) Ended
| ap_completed f m : at_phase f (mkRtask CallbackCalled false m 0) Finished.
#[local] Hint Constructors at_phase loop_step : tampi.

Lemma ap_pause f m target :
  at_phase f (mkRtask (Running (Pausing (polling_pause f target))) false m 0) (Pause (u64 (target * 1000))).
Proof. destruct f; constructor. Qed.
#[local] Hint Resolve ap_pause : tampi.

(** The calls that suspend the task, and the mode when the body returns. *)
Lemma suspend_calls ns :
  suspendCurrentWithTimeout ns = [TaskSelf; TaskSuspendModeSet (mode_of ns).1 (mode_of ns).2; TaskSuspend].
Proof. unfold suspendCurrentWithTimeout, mode_of. by destruct (ns =? 0)%Z. Qed.

Lemma body_returned_suspended ns :
  ∃ s m, body_returned (mkRtask (Running AtEnd) true (mode_of ns) 0) = (mkRtask s false m 0, [PausedFor ns]) ∧
    (s = Submitted ∨ s = TimedSubmit ns).
Proof.
  unfold body_returned, mode_of. simpl. destruct (Z.eqb_spec ns 0) as [->|?]; eauto 10.
Qed.

(** The loop of a state whose task is at a phase. *)
Definition loop_of (ph : phase) (s : psys) : loop := mkLoop ph (p_inst s) (p_unreg s) (p_trace s).

(** A statement of either body is a step of the loop or none. *)
Lemma task_act_loop f target s s' ph :
  is_u64 target → at_phase f (p_task s) ph → task_act f target s = Some s' →
  ∃ ph', at_phase f (p_task s') ph' ∧ rtc loop_step (loop_of ph s) (loop_of ph' s').
Proof.
  destruct s as [k i u tr]; simpl. intros Ht Hp Ha.
  destruct Hp; unfold task_act in Ha; simpl in Ha; try discriminate; unfold loop_of.
  8: rewrite suspend_calls in Ha; simpl in Ha; unfold goto in Ha; simpl in Ha.
  9: unfold goto in Ha; simpl in Ha.
  12: destruct (body_returned_suspended ns) as (st & m & Hb & Hst); rewrite Hb in Ha.
  all: try (simplify_eq/=; rewrite ?app_nil_r; eexists; split; [|done]; unfold goto; simpl; by eauto with tampi).
  - destruct (i_mustFinish i) eqn:Hm; simplify_eq/=; eexists; (split; [|apply rtc_once; by eauto with tampi]);
      unfold goto; simpl; eauto with tampi.
  - simplify_eq/=. eexists. split; [|apply rtc_once; by eauto with tampi]. unfold goto. simpl. eauto with tampi.
  - simplify_eq/=. eexists. split; [|apply rtc_once; by eauto with tampi]. unfold goto. simpl. eauto with tampi.
  - rewrite app_nil_r in Ha. simplify_eq/=. exists (Pause ns). split; [|done]. pose proof (ap_modeset m ns) as Hap.
    unfold mode_of in Hap. by destruct (ns =? 0)%Z.
  - rewrite <-surjective_pairing, app_nil_r in Ha. simplify_eq/=. eexists. split; [|done]. eauto with tampi.
  - simplify_eq/=. eexists. split; [|apply rtc_once; by eauto with tampi]. destruct Hst as [->| ->]; eauto with tampi.
  - simplify_eq/=. eexists. split; [|apply rtc_once; by eauto with tampi]. unfold goto. simpl. eauto with tampi.
Qed.

Lemma run_step_loop f s s' ph :
  run_step f s s' → at_phase f (p_task s) ph →
  ∃ ph', at_phase f (p_task s') ph' ∧ rtc loop_step (loop_of ph s) (loop_of ph' s').
Proof.
  intros [target s1 Ht Ha|s1 Ha] Hp; [by eapply task_act_loop|].
  unfold unregister_act in Ha. destruct (unregister_next _ _) as [[i u]|] eqn:Hu; [|discriminate].
  simplify_eq/=. exists ph. split; [done|]. apply rtc_once. by constructor.
Qed.

(** Every run of either body is a run of the loop. *)
Lemma run_loop f s s' ph :
  rtc (run_step f) s s' → at_phase f (p_task s) ph →
  ∃ ph', at_phase f (p_task s') ph' ∧ rtc loop_step (loop_of ph s) (loop_of ph' s').
Proof.
  intros Hr. revert ph. induction Hr as [|s s1 s' Hs _ IH]; intros ph Hp; [by eauto using rtc_refl|].
  destruct (run_step_loop _ _ _ _ Hs Hp) as (ph1 & Hp1 & Hl1).
  destruct (IH ph1 Hp1) as (ph' & Hp' & Hl'). exists ph'. split; [done|]. by etrans.
Qed.

Lemma task_run_steps f targets s s' :
  Forall is_u64 targets → task_run f targets s = Some s' → rtc (run_step f) s s'.
Proof.
  intros Hf. revert s. induction Hf as [|t ts Ht _ IH]; intros s Hr; simpl in Hr; [by simplify_eq|].
  destruct (task_act f t s) as [s1|] eqn:Ha; simpl in Hr; [|discriminate].
  eapply rtc_l; [by eapply run_task|]. by apply IH.
Qed.

(** Some statements of the task, the function asking for [target] each time. *)
Definition task_steps (f : polling_function) (target : Z) (n : nat) (s : psys) : option psys :=
  task_run f (replicate n target) s.

Lemma task_steps_run f target n s s' :
  is_u64 target → task_steps f target n s = Some s' → rtc (run_step f) s s'.
Proof. intros Ht. apply task_run_steps. by apply Forall_replicate. Qed.

Lemma task_run_app f ts ts' s : task_run f (ts ++ ts') s = s' ← task_run f ts s; task_run f ts' s'.
Proof. revert s. induction ts as [|t ts IH]; intros s; simpl; [done|]. by destruct (task_act f t s); simpl. Qed.

Lemma task_steps_add f target n n' s s' s'' :
  task_steps f target n s = Some s' → task_steps f target n' s' = Some s'' →
  task_steps f target (n + n') s = Some s''.
Proof. unfold task_steps. intros H1 H2. by rewrite replicate_add, task_run_app, H1. Qed.

Lemma is_u64_0 : is_u64 0.
Proof. unfold is_u64, u64_modulus. lia. Qed.
#[local] Hint Resolve is_u64_0 : tampi.

(** From every state of a phase the task gets to its next statement that counts:
    to the test, behind the pause, and to the callback. *)
Lemma to_test f target k i u tr :
  at_phase f k Looping →
  ∃ n m, n ≤ 2 ∧ task_steps f target n (mkPsys k i u tr) = Some (mkPsys (mkRtask (Running AtTest) false m 0) i u tr).
Proof.
  intros Hp. inversion Hp; subst.
  1: exists 1. 2: exists 0. 3: exists 2. 4: exists 1. 5: exists 2. all: eexists; split; [lia|reflexivity].
Qed.

Lemma to_pause f target k i u tr ns :
  at_phase f k (Pause ns) →
  ∃ n k', n ≤ 5 ∧ task_steps f target n (mkPsys k i u tr) = Some (mkPsys k' i u (tr ++ [PausedFor ns])) ∧
    at_phase f k' Looping.
Proof.
  assert (∀ m, ∃ k', task_act suspendPolling m (mkPsys (mkRtask (Running AtEnd) true (mode_of ns) 0) i u tr) =
    Some (mkPsys k' i u (tr ++ [PausedFor ns])) ∧ at_phase suspendPolling k' Looping) as Hend.
  { intros m'. unfold task_act. cbn [k_state p_task]. destruct (body_returned_suspended ns) as (st & m & Hb & Hst).
    rewrite Hb. eexists. split; [reflexivity|]. destruct Hst as [->| ->]; constructor. }
  destruct (Hend target) as (k' & Ha & Hk). intros Hp. inversion Hp; subst.
  - exists 1, (mkRtask (BlockedFor ns []) false m 0). split_and!; [lia|reflexivity|constructor].
  - exists 5, k'. split_and!; [lia| |done]. rewrite suspend_calls. unfold task_steps. simpl. unfold goto; simpl.
    rewrite !app_nil_r, <-surjective_pairing. unfold goto. simpl. by rewrite Ha.
  - exists 4, k'. split_and!; [lia| |done]. unfold task_steps. simpl. unfold goto; simpl. rewrite app_nil_r.
    rewrite <-surjective_pairing, app_nil_r. unfold goto. simpl. by rewrite Ha.
  - exists 3, k'. split_and!; [lia| |done]. unfold task_steps. simpl. unfold goto; simpl. rewrite app_nil_r. unfold goto. simpl. by rewrite Ha.
  - exists 2, k'. split_and!; [lia| |done]. unfold task_steps. simpl. unfold goto. simpl. by rewrite Ha.
  - exists 1, k'. split_and!; [lia| |done]. unfold task_steps. simpl. by rewrite Ha.
Qed.

Lemma to_callback f target k i u tr :
  at_phase f k Ended →
  ∃ n m, n ≤ 2 ∧ task_steps f target n (mkPsys k i u tr) =
    Some (mkPsys (mkRtask CallbackCalled false m 0)
            (mkInstance (i_mustFinish i) true (i_deleted i) (i_stale i || i_deleted i)) u tr).
Proof.
  intros Hp. inversion Hp; subst; [exists 2|exists 1]; eexists; (split; [lia|]); [|reflexivity].
  unfold task_steps. simpl. by rewrite app_nil_r.
Qed.

(** Conversely either body can follow every run of the loop. *)
Lemma loop_step_run f l l' s :
  loop_step l l' → at_phase f (p_task s) (l_phase l) → loop_of (l_phase l) s = l →
  ∃ s', rtc (run_step f) s s' ∧ at_phase f (p_task s') (l_phase l') ∧ loop_of (l_phase l') s' = l'.
Proof.
  destruct s as [k i u tr]. intros Hs Hp Hl.
  destruct Hs as [i0 u0 tr0 Hm|i0 u0 tr0 t Ht|i0 u0 tr0 ns|i0 u0 tr0 Hm|i0 u0 tr0|ph i0 u0 tr0 i' u' Hu];
    unfold loop_of in *; simpl in *; injection Hl as <- <- <-.
  - destruct (to_test f 0 k i u tr Hp) as (n & m & _ & Hn). eexists. split.
    + etrans; [by eapply task_steps_run; [apply is_u64_0|]|]. apply rtc_once. apply (run_task _ _ 0); [apply is_u64_0|reflexivity].
    + simpl. rewrite Hm. split; [constructor|done].
  - inversion Hp; subst. eexists. split; [apply rtc_once, (run_task _ _ t); [done|reflexivity]|].
    split; [apply ap_pause|done].
  - destruct (to_pause f 0 k i u tr ns Hp) as (n & k' & _ & Hn & Hk). eexists. split; [by eapply task_steps_run; [apply is_u64_0|]|].
    by split.
  - destruct (to_test f 0 k i u tr Hp) as (n & m & _ & Hn). eexists. split.
    + etrans; [by eapply task_steps_run; [apply is_u64_0|]|]. apply rtc_once. apply (run_task _ _ 0); [apply is_u64_0|reflexivity].
    + simpl. rewrite Hm. split; [constructor|done].
  - destruct (to_callback f 0 k i u tr Hp) as (n & m & _ & Hn). eexists. split; [by eapply task_steps_run; [apply is_u64_0|]|].
    split; [constructor|done].
  - exists (mkPsys k i' u' tr). split; [|done]. apply rtc_once, run_unregister. unfold unregister_act. simpl.
    by rewrite Hu.
Qed.

Lemma loop_run f l l' s :
  rtc loop_step l l' → at_phase f (p_task s) (l_phase l) → loop_of (l_phase l) s = l →
  ∃ s', rtc (run_step f) s s' ∧ at_phase f (p_task s') (l_phase l') ∧ loop_of (l_phase l') s' = l'.
Proof.
  intros Hr. revert s. induction Hr as [l|l l1 l' Hs _ IH]; intros s Hp Hl; [by eauto using rtc_refl|].
  destruct (loop_step_run f _ _ s Hs Hp Hl) as (s1 & Hr1 & Hp1 & Hl1).
  destruct (IH s1 Hp1 Hl1) as (s' & Hr' & Hp' & Hl'). exists s'. split; [|done]. by etrans.
Qed.

(** ** Invariants of the loop *)

(** What the function and the pauses do, one after the other. *)
Definition paced (targets : list Z) : list poll_event :=
  targets ≫= λ t, [Called t; PausedFor (u64 (t * 1000))].

Record loop_inv (l : loop) : Prop := {
  li_deleted : i_deleted (l_inst l) = true ↔ l_unreg l = After;
  li_deleting : l_unreg l = Deleting ∨ l_unreg l = After → i_finished (l_inst l) = true;
  li_must : i_mustFinish (l_inst l) = true ↔ l_unreg l ≠ Before;
  li_paced : ∃ targets, Forall is_u64 targets ∧
    match l_phase l with
    | Pause ns => ∃ t, is_u64 t ∧ ns = u64 (t * 1000) ∧ l_trace l = paced targets ++ [Called t]
    | _ => l_trace l = paced targets
    end;
}.

Lemma loop_inv_step l l' : loop_step l l' → loop_inv l → loop_inv l'.
Proof.
  intros Hs [Hd Hf Hm (ts & Hts & Htr)].
  destruct Hs as [i u tr Hb|i u tr t Ht|i u tr ns|i u tr Hb|i u tr|ph i u tr i' u' Hu]; simpl in *.
  - split; simpl; [done..|]. by exists ts.
  - split; simpl; [done..|]. exists ts. split; [done|]. exists t. by rewrite Htr.
  - split; simpl; [done..|]. destruct Htr as (t & Ht & -> & ->). exists (ts ++ [t]).
    split; [by apply Forall_app_2; [|apply Forall_singleton]|]. unfold paced. rewrite bind_app. simpl. by rewrite <-app_assoc.
  - split; simpl; [done..|]. by exists ts.
  - split; simpl; [done|naive_solver|done|]. by exists ts.
  - split; [..|by exists ts]; destruct i as [must fin del st], u; simpl in *; try discriminate Hu; injection Hu as <- <-;
      simpl in *; try destruct fin; intuition congruence.
Qed.

Lemma loop_inv_run l l' : rtc loop_step l l' → loop_inv l → loop_inv l'.
Proof. induction 1; eauto using loop_inv_step. Qed.

Definition loop_start : loop := loop_of Looping registerPolling.

Lemma loop_inv_start : loop_inv loop_start.
Proof. split; simpl; [intuition congruence..|]. by exists []. Qed.

(** What is known of every state that is reached. *)
Lemma reached f s :
  rtc (run_step f) registerPolling s →
  ∃ ph, at_phase f (p_task s) ph ∧ rtc loop_step loop_start (loop_of ph s) ∧ loop_inv (loop_of ph s).
Proof.
  intros Hr. destruct (run_loop _ _ _ Looping Hr) as (ph & Hp & Hl); [constructor|].
  exists ph. split_and!; [done..|]. eapply loop_inv_run, loop_inv_start. done.
Qed.

(** The instance of [Tasking.v]. *)
Definition place_of (ph : phase) (tr : list poll_event) : task_place :=
  match ph with
  | Looping => match tr with [] => Spawned | _ => Paused end
  | Function => Calling
  | Pause _ => Paused
  | Ended => Returned
  | Finished => Completed
  end.

Definition unregister_of (u : unregister_at) : unregister_place :=
  match u with Before => NotCalled | After => Deleted | _ => Waiting end.

Definition polling_of (l : loop) : polling :=
  mkPolling (i_mustFinish (l_inst l)) (i_finished (l_inst l)) (place_of (l_phase l) (l_trace l))
    (unregister_of (l_unreg l)) (i_stale (l_inst l)).

Lemma touch_polling_of l : loop_inv l → touch (polling_of l) = i_stale (l_inst l) || i_deleted (l_inst l).
Proof.
  intros [Hd _ _ _]. unfold touch, freed, polling_of. simpl. f_equal.
  destruct (l_unreg l), (i_deleted _); simpl; intuition congruence.
Qed.

Lemma loop_step_polling l l' :
  loop_step l l' → loop_inv l → rtc polling_step (polling_of l) (polling_of l').
Proof.
  intros Hs Hi. pose proof (touch_polling_of l Hi) as Ht. destruct Hi as [Hd Hf Hm (ts & _ & Htr)].
  destruct Hs as [i u tr Hb|i u tr t _|i u tr ns|i u tr Hb|i u tr|ph i u tr i' u' Hu]; simpl in *.
  - apply rtc_once. unfold polling_of at 2. simpl. rewrite <-Ht.
    apply (poll_call (polling_of (mkLoop Looping i u tr))); [destruct tr; auto|done].
  - apply rtc_once. apply (poll_pause (polling_of (mkLoop Function i u tr))). done.
  - destruct Htr as (t & _ & _ & ->). unfold polling_of. simpl.
    destruct (paced ts); done.
  - apply rtc_once. unfold polling_of at 2. simpl. rewrite <-Ht.
    apply (poll_return (polling_of (mkLoop Looping i u tr))); [destruct tr; auto|done].
  - apply rtc_once. unfold polling_of at 2. simpl. rewrite <-Ht.
    by apply (poll_completed (polling_of (mkLoop Ended i u tr))).
  - destruct u; simpl in Hu; simplify_eq/=.
    + apply rtc_once. by apply (unregister_notify (polling_of (mkLoop ph i Before tr))).
    + unfold polling_of. simpl. by destruct (i_finished _).
    + done.
    + apply rtc_once. by apply (unregister_delete (polling_of (mkLoop ph i Deleting tr))); [|apply Hf; left].
Qed.

Lemma loop_polling l l' :
  rtc loop_step l l' → loop_inv l → rtc polling_step (polling_of l) (polling_of l').
Proof.
  induction 1 as [|l l1 l' Hs _ IH]; intros Hi; [done|]. etrans; [by apply loop_step_polling|].
  by apply IH, (loop_inv_step l).
Qed.

Lemma reached_polling s ph :
  rtc loop_step loop_start (loop_of ph s) →
  rtc polling_step newPolling (polling_of (loop_of ph s)) ∧ polling_inv (polling_of (loop_of ph s)).
Proof.
  intros Hl. assert (rtc polling_step newPolling (polling_of (loop_of ph s))) as Hr.
  { exact (loop_polling _ _ Hl loop_inv_start). }
  split; [done|]. exact (polling_inv_run _ _ Hr polling_inv_new).
Qed.

(** ** Progress *)

(** From the test or any other place of the loop to the function. *)
Lemma test_calls f target k i u tr :
  at_phase f k Looping → i_mustFinish i = false →
  ∃ n s', 1 ≤ n ≤ 3 ∧ task_steps f target n (mkPsys k i u tr) = Some s' ∧
    k_state (p_task s') = Running InFunction.
Proof.
  intros Hp Hm. destruct (to_test f target k i u tr Hp) as (n & m & Hn & Hs). eexists (n + 1), _. split_and!; [lia..| |].
  - eapply task_steps_add; [exact Hs|reflexivity].
  - simpl. by rewrite Hm.
Qed.

Lemma pause_calls f target k i u tr ns :
  at_phase f k (Pause ns) → i_mustFinish i = false →
  ∃ n s', 1 ≤ n ≤ 8 ∧ task_steps f target n (mkPsys k i u tr) = Some s' ∧
    k_state (p_task s') = Running InFunction.
Proof.
  intros Hp Hm. destruct (to_pause f target k i u tr ns Hp) as (n1 & k' & Hn1 & Hs1 & Hk).
  destruct (test_calls f target k' i u (tr ++ [PausedFor ns]) Hk Hm) as (n2 & s' & Hn2 & Hs2 & Hf).
  exists (n1 + n2), s'. split_and!; [lia..| |done]. by eapply task_steps_add.
Qed.

Lemma calls_again f target k i u tr ph :
  at_phase f k ph → i_mustFinish i = false → ph ≠ Ended → ph ≠ Finished →
  ∃ n s', 1 ≤ n ≤ 9 ∧ task_steps f target n (mkPsys k i u tr) = Some s' ∧
    k_state (p_task s') = Running InFunction.
Proof.
  intros Hp Hm He Hf. destruct ph; [| | |done..].
  - destruct (test_calls f target k i u tr Hp Hm) as (n & s' & ? & ?). exists n, s'. split; [lia|done].
  - inversion Hp; subst.
    destruct (pause_calls f target _ i u (tr ++ [Called target]) _ (ap_pause f m target) Hm) as (n & s' & ? & Hs & ?).
    exists (1 + n), s'. split_and!; [lia..| |done]. by eapply task_steps_add; [reflexivity|].
  - destruct (pause_calls f target k i u tr ns Hp Hm) as (n & s' & ? & ?). exists n, s'. split; [lia|done].
Qed.

(** From any place to the completion callback, when the instance must finish. *)
Definition ends_within (bound : nat) f target k i u tr (quiet : Prop) : Prop :=
  ∃ n m i' es, n ≤ bound ∧
    task_steps f target n (mkPsys k i u tr) = Some (mkPsys (mkRtask CallbackCalled false m 0) i' u (tr ++ es)) ∧
    i_finished i' = true ∧ (quiet → ∀ t, Called t ∉ es).

Lemma ended_ends f target k i u tr : at_phase f k Ended → ends_within 2 f target k i u tr True.
Proof.
  intros Hp. destruct (to_callback f target k i u tr Hp) as (n & m & Hn & Hs).
  eexists n, m, _, []. rewrite app_nil_r. split_and!; [done|exact Hs|done|]. intros _ t ?%not_elem_of_nil. done.
Qed.

Lemma looping_ends f target k i u tr :
  at_phase f k Looping → i_mustFinish i = true → ends_within 5 f target k i u tr True.
Proof.
  intros Hp Hm. destruct (to_test f target k i u tr Hp) as (n1 & m1 & Hn1 & Hs1).
  destruct (ended_ends f target (mkRtask (Running AtEnd) false m1 0) (use i) u tr) as (n & m & i' & es & Hn & Hs & Hx);
    [constructor|]. exists (n1 + (1 + n)), m, i', es. split; [lia|]. split; [|done].
  eapply task_steps_add; [exact Hs1|]. eapply task_steps_add; [|exact Hs]. unfold task_steps. simpl. by rewrite Hm.
Qed.

Lemma pause_ends f target k i u tr ns :
  at_phase f k (Pause ns) → i_mustFinish i = true → ends_within 10 f target k i u tr True.
Proof.
  intros Hp Hm. destruct (to_pause f target k i u tr ns Hp) as (n1 & k' & Hn1 & Hs1 & Hk).
  destruct (looping_ends f target k' i u (tr ++ [PausedFor ns]) Hk Hm) as (n & m & i' & es & Hn & Hs & Hf & Hes).
  exists (n1 + n), m, i', (PausedFor ns :: es). split; [lia|]. split_and!; [|done|].
  - rewrite cons_middle, app_assoc. by eapply task_steps_add.
  - intros _ t [?|?]%elem_of_cons; [done|]. by eapply Hes.
Qed.

Lemma ends f target k i u tr ph :
  at_phase f k ph → i_mustFinish i = true → (ph = Finished → i_finished i = true) →
  ends_within 12 f target k i u tr (k_state k ≠ Running InFunction).
Proof.
  intros Hp Hm Hfin.
  assert (∀ b, b ≤ 12 → ends_within b f target k i u tr True →
    ends_within 12 f target k i u tr (k_state k ≠ Running InFunction)) as Hweak.
  { intros b Hb (n & m & i' & es & ? & ? & ? & ?). exists n, m, i', es. split_and!; [lia|done|done|naive_solver]. }
  destruct ph.
  - apply (Hweak 5); [lia|]. by apply looping_ends.
  - inversion Hp; subst.
    destruct (pause_ends f target _ i u (tr ++ [Called target]) _ (ap_pause f m target) Hm)
      as (n & m' & i' & es & ? & Hs & ? & _).
    exists (1 + n), m', i', (Called target :: es). split; [lia|]. split_and!; [|done|by intros []].
    rewrite cons_middle, app_assoc. by eapply task_steps_add; [reflexivity|].
  - apply (Hweak 10); [lia|]. by eapply pause_ends.
  - apply (Hweak 2); [lia|]. by apply ended_ends.
  - inversion Hp; subst. exists 0, m, i, []. rewrite app_nil_r. split_and!; [lia|done|auto|].
    intros _ t ?%not_elem_of_nil. done.
Qed.

(** Once the instance is finished, [unregisterPolling] gets to its end. *)
Lemma unregister_returns s :
  p_unreg s ≠ Before → i_finished (p_inst s) = true →
  ∃ s', rtc (λ a b, unregister_act a = Some b) s s' ∧ p_unreg s' = After.
Proof.
  destruct s as [k [must fin del st] u tr]; simpl. intros Hu ->.
  set (last := mkPsys k (mkInstance must true true st) After tr).
  destruct u; [done|exists last..|exists (mkPsys k (mkInstance must true del st) After tr)]; (split; [|reflexivity]).
  - do 2 (eapply rtc_l; [reflexivity|]). simpl. reflexivity.
  - do 3 (eapply rtc_l; [reflexivity|]). simpl. reflexivity.
  - eapply rtc_l; [reflexivity|]. simpl. reflexivity.
  - reflexivity.
Qed.

(** ** Properties *)

(** C19: [genericPolling], a loop in one execution of the body, and
    [suspendPolling], one execution for every poll that suspends the task
    before it returns, are the same to the outside: whatever one of them does,
    interleaved with [unregisterPolling] in any way, the other can do, with the
    same calls and pauses and the same instance; and what they do is to call the
    function and then pause for the time it asked for, again and again. *)
Theorem polling_functions_equivalent f g s :
  rtc (run_step f) registerPolling s →
  (∃ s', rtc (run_step g) registerPolling s' ∧
     p_trace s' = p_trace s ∧ p_inst s' = p_inst s ∧ p_unreg s' = p_unreg s) ∧
  ∃ targets, Forall is_u64 targets ∧
    (p_trace s = paced targets ∨ ∃ t, p_trace s = paced targets ++ [Called t]).
Proof.
  intros Hr. destruct (reached _ _ Hr) as (ph & _ & Hl & Hi). split.
  - destruct (loop_run g _ _ registerPolling Hl) as (s' & Hr' & _ & Hs'); [constructor|done|].
    exists s'. split; [done|]. unfold loop_of in Hs'. simpl in Hs'. by injection Hs' as -> -> ->.
  - destruct (li_paced _ Hi) as (ts & Hts & Htr). exists ts. split; [done|].
    destruct ph; simpl in Htr; naive_solver.
Qed.

(** C20: a polling task in the documented runtime, with either body, lives the
    life of an instance of [Tasking.v]: every run of its statements and those
    of [unregisterPolling] is a run of the steps there; so the instance is never
    used after it was deleted, and when [unregisterPolling] has returned the
    runtime has completed the task and does nothing more for it. *)
Theorem polling_task_refines f s :
  rtc (run_step f) registerPolling s →
  (∃ p, rtc polling_step newPolling p ∧
     _mustFinish p = i_mustFinish (p_inst s) ∧ _finished p = i_finished (p_inst s) ∧
     unregister p = unregister_of (p_unreg s) ∧
     (place p = Calling ↔ k_state (p_task s) = Running InFunction) ∧
     (place p = Completed ↔ k_state (p_task s) = CallbackCalled)) ∧
  i_stale (p_inst s) = false ∧
  (p_unreg s = After → ∀ s', ¬ run_step f s s').
Proof.
  intros Hr. destruct (reached _ _ Hr) as (ph & Hp & Hl & Hi).
  destruct (reached_polling _ _ Hl) as [Hrun [Hf Hm Hret Hd Hsafe]].
  split; [|split; [done|]].
  - eexists. split; [exact Hrun|]. split_and!; [done..| |];
      (destruct Hp; simpl; try (destruct (p_trace s)); intuition congruence).
  - simpl in *. intros Hu s' Hs. rewrite Hu in Hd. specialize (Hd eq_refl).
    destruct Hs as [t s' _ Ha|s' Ha].
    + revert Ha. unfold task_act. destruct Hp; simpl in Hd |- *; by try destruct (p_trace s).
    + unfold unregister_act in Ha. rewrite Hu in Ha. discriminate.
Qed.

(** C21: polling goes on until it is unregistered, and then ends.  From every state
    that is reached, while [unregisterPolling] has not been called, the task
    alone gets to call the function of the instance, again, within nine of
    its statements; once it has been called, the task is completed within
    twelve, in which the function is not called any more (a call that is under
    way returns), and then [unregisterPolling] returns. *)
Theorem polling_goes_on_until_unregistered f s target :
  rtc (run_step f) registerPolling s →
  (p_unreg s = Before →
   ∃ n s', 1 ≤ n ≤ 9 ∧ task_steps f target n s = Some s' ∧
     k_state (p_task s') = Running InFunction) ∧
  (p_unreg s ≠ Before →
   ∃ n s' es s'', n ≤ 12 ∧ task_steps f target n s = Some s' ∧
     k_state (p_task s') = CallbackCalled ∧ p_trace s' = p_trace s ++ es ∧
     (k_state (p_task s) ≠ Running InFunction → ∀ t, Called t ∉ es) ∧
     rtc (λ a b, unregister_act a = Some b) s' s'' ∧ p_unreg s'' = After).
Proof.
  intros Hr. destruct (reached _ _ Hr) as (ph & Hp & Hl & Hi).
  destruct (reached_polling _ _ Hl) as [_ [Hf _ Hret _ _]]. pose proof (li_must _ Hi) as Hmust.
  destruct s as [k i u tr]; simpl in *. split; intros Hu.
  - assert (i_mustFinish i = false) as Hm by (apply not_true_iff_false; intros ?%Hmust; done).
    apply (calls_again f target k i u tr ph Hp Hm); intros ->; simpl in Hret; rewrite Hret in Hm; auto; discriminate.
  - assert (i_mustFinish i = true) as Hm by by apply Hmust.
    assert (ph = Finished → i_finished i = true) as Hfin by (intros ->; by apply Hf).
    destruct (ends f target k i u tr ph Hp Hm Hfin) as (n & m & i' & es & Hn & Hs & Hfin' & Hes).
    destruct (unregister_returns (mkPsys (mkRtask CallbackCalled false m 0) i' u (tr ++ es))) as (s'' & Hs'' & Ha);
      [done..|]. by exists n, (mkPsys (mkRtask CallbackCalled false m 0) i' u (tr ++ es)), es, s''.
Qed.

(** A run of [suspendPolling]: one call that asks for 100 microseconds, one for
    none, after which [unregisterPolling] is called. *)
Definition demo_psys : psys :=
  mkPsys (mkRtask Submitted false (ALPI_SUSPEND_SUBMIT, 0%Z) 0) (mkInstance true false false false) TestFinished
    [Called 100; PausedFor 100000; Called 0; PausedFor 0].

Lemma demo_run_ok : rtc (run_step suspendPolling) registerPolling demo_psys.
Proof.
  eapply rtc_r.
  - eapply (task_run_steps _ [0; 0; 100; 0; 0; 0; 0; 0; 0; 0; 0; 0; 0; 0; 0; 0; 0]%Z); [|by vm_compute].
    repeat (apply Forall_cons; split; [unfold is_u64, u64_modulus; lia|]). apply Forall_nil. done.
  - apply run_unregister. by vm_compute.
Qed.

Lemma polling_functions_equivalent_witness :
  ∃ s', rtc (run_step genericPolling) registerPolling s' ∧
    p_trace s' = [Called 100; PausedFor 100000; Called 0; PausedFor 0] ∧ i_mustFinish (p_inst s') = true.
Proof.
  destruct (proj1 (polling_functions_equivalent suspendPolling genericPolling demo_psys demo_run_ok))
    as (s' & Hr & Ht & Hi & _).
  exists s'. split; [exact Hr|]. split; [exact Ht|]. rewrite Hi. reflexivity.
Defined.

Lemma polling_task_refines_witness :
  ∃ p, rtc polling_step newPolling p ∧ _mustFinish p = true ∧ unregister p = Waiting.
Proof.
  destruct (proj1 (polling_task_refines suspendPolling demo_psys demo_run_ok)) as (p & Hr & Hm & _ & Hu & _).
  exists p. split; [exact Hr|]. split; [exact Hm|exact Hu].
Defined.

Lemma polling_goes_on_until_unregistered_witness :
  ∃ n s', n ≤ 12 ∧ task_steps suspendPolling 7 n demo_psys = Some s' ∧
    k_state (p_task s') = CallbackCalled.
Proof.
  destruct (proj2 (polling_goes_on_until_unregistered suspendPolling demo_psys 7 demo_run_ok)
    ltac:(discriminate)) as (n & s' & es & s'' & Hn & Hs & Hk & _).
  exists n, s'. split; [exact Hn|]. split; [exact Hs|exact Hk].
Defined.
