(* ===== verification/Environment.v ===== *)
(** * The environment

    [Environment] ([src/src/common/Environment.hpp]) with the parts of
    [Polling] ([src/src/common/polling/Polling.hpp]) and [Allocator]
    ([src/src/common/Allocator.cpp]) it starts and stops, and the entry points
    that use it ([src/src/c/InitFinalize.cpp], [src/src/c/Utils.cpp]). The
    static state of the parts it initialises, [Interface], [TaskingModel] and
    [Instrument], belongs to the state here. *)

From S2P Require Import Prelude ErrorHandler Instrument Symbols Tasking.

(** ** State *)

(** The constants of the MPI library that are used, with what the MPI standard
    says of them. *)
Class ThreadLevels := {
  MPI_THREAD_SINGLE : Z;
  MPI_THREAD_MULTIPLE : Z;
  MPI_ERR_ARG : Z;
  thread_levels_ordered : (MPI_THREAD_SINGLE < MPI_THREAD_MULTIPLE)%Z;
  err_arg_nonzero : MPI_ERR_ARG ≠ 0%Z;
}.

Section environment.
Context `{Build, ThreadLevels}.

Definition MPI_TASK_MULTIPLE : Z := MPI_THREAD_MULTIPLE + 1.

Definition TAMPI_PROPERTY_BLOCKING_MODE : Z := 1.
Definition TAMPI_PROPERTY_NONBLOCKING_MODE : Z := 2.
Definition TAMPI_PROPERTY_AUTO_INIT : Z := 3.
Definition TAMPI_PROPERTY_THREAD_TASKAWARE : Z := 4.

(** The run-time configuration: the linker, what MPI provides to the languages
    the library is built for, the runtime, whether ovni is available, and the
    variables TAMPI_POLLING_MODE, TAMPI_POLLING_TASK_COMPLETION (which
    [CompletionManager::isEnabled] returns) and TAMPI_INSTRUMENT. *)
Record config := mkConfig {
  cf_linker : linker;
  cf_mpi : Lang → option mpi_world;
  cf_runtime : runtime;
  cf_ovni : bool;
  cf_mode : string;
  cf_completion : bool;
  cf_instrument : string;
}.

(** The static state of the parts that the environment initialises. *)
Record Externals := mkExternals {
  x_c : MpiInterface;
  x_fortran : MpiInterface;
  x_tasking : TaskingModel;
  x_backend : Backend;
}.

Definition newExternals : Externals :=
  mkExternals (newInterface C) (newInterface Fortran) newTasking None.

(** [struct State], with the static members of [Polling] and the instances of
    the allocators.  A thread that never set its task-awareness has the
    default, true.  Polling instances are numbered as they are created;
    [registered] are those not unregistered. *)
Record State := mkState {
  preinitialized : bool;
  initialized : bool;
  autoInitialize : bool;
  nativeThreadLevel : Z;
  threadTaskAwareness : gmap nat bool;
  blockingMode : bool;
  nonBlockingMode : bool;
  _pollingInstance : option nat;
  _completionPollingInstance : option nat;
  registered : list nat;
  next_instance : nat;
  allocators : bool;
  externs : Externals;
}.
Implicit Types s : State.

Definition newState : State :=
  mkState false false true MPI_THREAD_SINGLE ∅ false false None None [] 0 false newExternals.

Definition isBlockingEnabled s : bool := blockingMode s.
Definition isNonBlockingEnabled s : bool := nonBlockingMode s.
Definition taskAware (thread : nat) s : bool := default true (threadTaskAwareness s !! thread).
Definition isBlockingEnabledForCurrentThread (thread : nat) s : bool :=
  taskAware thread s && isBlockingEnabled s.

(** ** Properties *)

(** [getProperty]: [None] when it returns an error. *)
Definition getProperty (thread : nat) (property : Z) s : option Z :=
  if decide (property = TAMPI_PROPERTY_BLOCKING_MODE) then Some (Z.b2z (blockingMode s))
  else if decide (property = TAMPI_PROPERTY_NONBLOCKING_MODE) then Some (Z.b2z (nonBlockingMode s))
  else if decide (property = TAMPI_PROPERTY_THREAD_TASKAWARE) then Some (Z.b2z (taskAware thread s))
  else if decide (property = TAMPI_PROPERTY_AUTO_INIT) then Some (Z.b2z (autoInitialize s))
  else None.

Definition setProperty (thread : nat) (property value : Z) s : option State :=
  if decide (property = TAMPI_PROPERTY_BLOCKING_MODE) then None
  else if decide (property = TAMPI_PROPERTY_NONBLOCKING_MODE) then None
  else if decide (property = TAMPI_PROPERTY_THREAD_TASKAWARE) then
    Some (mkState (preinitialized s) (initialized s) (autoInitialize s) (nativeThreadLevel s)
            (<[thread := bool_decide (value ≠ 0)%Z]> (threadTaskAwareness s))
            (blockingMode s) (nonBlockingMode s) (_pollingInstance s)
            (_completionPollingInstance s) (registered s) (next_instance s) (allocators s) (externs s))
  else if decide (property = TAMPI_PROPERTY_AUTO_INIT) then
    if preinitialized s then None
    else Some (mkState (preinitialized s) (initialized s) (bool_decide (value ≠ 0)%Z)
                 (nativeThreadLevel s) (threadTaskAwareness s) (blockingMode s)
                 (nonBlockingMode s) (_pollingInstance s) (_completionPollingInstance s)
                 (registered s) (next_instance s) (allocators s) (externs s))
  else None.

Definition isAutoInitializeEnabled s : bool := autoInitialize s.

(** ** Initialisation *)

Definition set_externs (x : Externals) s : State :=
  mkState (preinitialized s) (initialized s) (autoInitialize s) (nativeThreadLevel s)
    (threadTaskAwareness s) (blockingMode s) (nonBlockingMode s) (_pollingInstance s)
    (_completionPollingInstance s) (registered s) (next_instance s) (allocators s) x.

(** [Interface<Lang>::initialize] if the library is built for the language. *)
Definition initialize_interface (cf : config) (lang : Lang) (i : MpiInterface) :
    outcome MpiInterface :=
  match cf_mpi cf lang with
  | Some mw => Interface_initialize (cf_linker cf) lang mw i
  | None => Ok i
  end.

Definition preinitialize (cf : config) (provided : Z) s : outcome State :=
  _ ← assert (negb (preinitialized s)) "!_state.preinitialized";
  _ ← assert (negb (initialized s)) "!_state.initialized";
  let x := externs s in
  c ← initialize_interface cf C (x_c x);
  fortran ← initialize_interface cf Fortran (x_fortran x);
  Ok (mkState true (initialized s) (autoInitialize s) provided (threadTaskAwareness s)
        (blockingMode s) (nonBlockingMode s) (_pollingInstance s) (_completionPollingInstance s)
        (registered s) (next_instance s) (allocators s)
        (mkExternals c fortran (x_tasking x) (x_backend x))).

Definition shouldEnableBlocking (level : Z) : bool :=
  if DISABLE_BLOCKING_MODE then false else bool_decide (level = MPI_TASK_MULTIPLE).
Definition shouldEnableNonBlocking (level : Z) : bool :=
  if DISABLE_NONBLOCKING_MODE then false
  else bool_decide (level = MPI_TASK_MULTIPLE ∨ level = MPI_THREAD_MULTIPLE).

Definition shouldInitialize (automatic : bool) s : outcome bool :=
  _ ← fail_if (negb (preinitialized s)) "Intializing TAMPI before MPI is invalid";
  _ ← fail_if (negb automatic && autoInitialize s)
        "Explicitly initializing TAMPI is invalid by default";
  Ok (negb automatic || autoInitialize s).

(** [Polling::initialize]; [completion] is [CompletionManager::isEnabled()]. *)
Definition Polling_initialize (completion : bool) s : State :=
  let n := next_instance s in
  if completion then
    mkState (preinitialized s) (initialized s) (autoInitialize s) (nativeThreadLevel s)
      (threadTaskAwareness s) (blockingMode s) (nonBlockingMode s) (Some n) (Some (S n))
      (S n :: n :: registered s) (S (S n)) (allocators s) (externs s)
  else
    mkState (preinitialized s) (initialized s) (autoInitialize s) (nativeThreadLevel s)
      (threadTaskAwareness s) (blockingMode s) (nonBlockingMode s) (Some n)
      (_completionPollingInstance s) (n :: registered s) (S n) (allocators s) (externs s).

Definition unregisterPolling (instance : option nat) (l : list nat) : outcome (list nat) :=
  n ← read instance "instance != nullptr";
  Ok (filter (λ i, i ≠ n) l).

Definition Polling_finalize (completion : bool) s : outcome State :=
  l ← unregisterPolling (_pollingInstance s) (registered s);
  l ← (if completion then unregisterPolling (_completionPollingInstance s) l else Ok l);
  Ok (mkState (preinitialized s) (initialized s) (autoInitialize s) (nativeThreadLevel s)
        (threadTaskAwareness s) (blockingMode s) (nonBlockingMode s) (_pollingInstance s)
        (_completionPollingInstance s) l (next_instance s) (allocators s) (externs s)).

Definition set_allocators (b : bool) s : State :=
  mkState (preinitialized s) (initialized s) (autoInitialize s) (nativeThreadLevel s)
    (threadTaskAwareness s) (blockingMode s) (nonBlockingMode s) (_pollingInstance s)
    (_completionPollingInstance s) (registered s) (next_instance s) b (externs s).

Definition set_modes (blocking nonBlocking init : bool) s : State :=
  mkState (preinitialized s) init (autoInitialize s) (nativeThreadLevel s)
    (threadTaskAwareness s) blocking nonBlocking (_pollingInstance s)
    (_completionPollingInstance s) (registered s) (next_instance s) (allocators s) (externs s).

Context (cf : config).

(** [InterfaceAny]: the interface for C, if the library is built for it. *)
Definition InterfaceAny s : MpiInterface :=
  match cf_mpi cf C with Some _ => x_c (externs s) | None => x_fortran (externs s) end.

(** [Environment::initialize(required, provided, automatic)]; [provided] is
    the value at the address given, returned as it is afterwards. *)
Definition initialize (required provided : Z) (automatic : bool) s : outcome (Z * State) :=
  let enableBlocking := shouldEnableBlocking required in
  let enableNonBlocking := shouldEnableNonBlocking required in
  init ← shouldInitialize automatic s;
  if negb init then Ok (provided, s) else
  let multiple := bool_decide (nativeThreadLevel s = MPI_THREAD_MULTIPLE) in
  let enableBlocking := enableBlocking && multiple in
  let enableNonBlocking := enableNonBlocking && multiple in
  let rank := if_rank (InterfaceAny s) in
  let nranks := if_nranks (InterfaceAny s) in
  let x := externs s in
  tasking ← initialize_tasking (cf_linker cf) (cf_runtime cf) (cf_mode cf) enableBlocking
              enableNonBlocking (x_tasking x);
  backend ← Instrument_initialize (cf_ovni cf) (cf_instrument cf) rank nranks (x_backend x);
  let s := set_externs (mkExternals (x_c x) (x_fortran x) tasking backend) s in
  let s := if enableBlocking || enableNonBlocking
           then Polling_initialize (cf_completion cf) (set_allocators true s) else s in
  let s := set_modes enableBlocking enableNonBlocking true s in
  Ok (if enableBlocking then MPI_TASK_MULTIPLE else nativeThreadLevel s, s).

Definition shouldFinalize (automatic : bool) s : outcome bool :=
  if automatic && negb (autoInitialize s) then Ok (initialized s)
  else
    _ ← fail_if (negb automatic && autoInitialize s)
          "Explicitly initializing TAMPI is invalid by default";
    _ ← fail_if (negb (initialized s)) "Finalizing TAMPI before initializing is invalid";
    Ok true.

Definition finalize (automatic : bool) s : outcome State :=
  fin ← shouldFinalize automatic s;
  if negb fin then Ok s else
  let x := externs s in
  let s := set_externs (mkExternals (x_c x) (x_fortran x) (x_tasking x)
             (Instrument_finalize (x_backend x))) s in
  s ← (if blockingMode s || nonBlockingMode s then
         s ← Polling_finalize (cf_completion cf) s; Ok (set_allocators false s)
       else Ok s);
  Ok (set_modes false false false s).

(** ** Entry points *)

(** What MPI's own functions return: the error code of the initialisation and
    the thread level it provides. *)
Record native_init := mkNative { ni_err : Z; ni_provided : Z }.

(** [MPI_Query_thread]; [native] is what MPI's own function returns. *)
Definition MPI_Query_thread (thread : nat) (native : native_init) s : Z * Z :=
  match getProperty thread TAMPI_PROPERTY_BLOCKING_MODE s with
  | None => (MPI_ERR_ARG, ni_provided native)
  | Some blocking =>
      if decide (blocking ≠ 0)%Z then (0%Z, MPI_TASK_MULTIPLE)
      else (ni_err native, ni_provided native)
  end.

(** [MPI_Init]; [native] is the result of MPI's own [MPI_Init] and [query]
    that of its [MPI_Query_thread].  The result is the error code. *)
Definition MPI_Init (thread : nat) (native query : native_init) s : outcome (Z * State) :=
  if decide (ni_err native ≠ 0)%Z then Ok (ni_err native, s) else
  let '(err, provided) := MPI_Query_thread thread query s in
  if decide (err ≠ 0)%Z then Ok (err, s) else
  s ← preinitialize cf provided s;
  '(_, s) ← initialize provided provided true s;
  Ok (0%Z, s).

(** [MPI_Init_thread]; the result is the error code and [*provided]. *)
Definition MPI_Init_thread (native : Z → native_init) (required : Z) s :
    outcome (Z * Z * State) :=
  _ ← fail_if (negb (isAutoInitializeEnabled s) && bool_decide (required = MPI_TASK_MULTIPLE))
        "The MPI_TASK_MULTIPLE must be passed to TAMPI_Init";
  let irequired := if decide (required = MPI_TASK_MULTIPLE) then MPI_THREAD_MULTIPLE else required in
  let r := native irequired in
  if decide (ni_err r ≠ 0)%Z then Ok (ni_err r, ni_provided r, s) else
  s ← preinitialize cf (ni_provided r) s;
  '(provided, s) ← initialize required (ni_provided r) true s;
  Ok (0%Z, provided, s).

Definition MPI_Finalize (err : Z) s : outcome (Z * State) :=
  if decide (err ≠ 0)%Z then Ok (err, s) else s ← finalize true s; Ok (0%Z, s).

Definition TAMPI_Init (required provided : Z) s : outcome (Z * State) :=
  initialize required provided false s.

Definition TAMPI_Finalize s : outcome State := finalize false s.

Definition TAMPI_Property_get (thread : nat) (property : Z) s : Z * option Z :=
  match getProperty thread property s with
  | Some v => (0%Z, Some v)
  | None => (MPI_ERR_ARG, None)
  end.

Definition TAMPI_Property_set (thread : nat) (property value : Z) s : Z * State :=
  match setProperty thread property value s with
  | Some s' => (0%Z, s')
  | None => (MPI_ERR_ARG, s)
  end.

Definition TAMPI_Blocking_enabled (thread : nat) s : Z * option Z :=
  TAMPI_Property_get thread TAMPI_PROPERTY_BLOCKING_MODE s.
Definition TAMPI_Nonblocking_enabled (thread : nat) s : Z * option Z :=
  TAMPI_Property_get thread TAMPI_PROPERTY_NONBLOCKING_MODE s.

(** ** Runs *)

(** The calls an application can make.  MPI itself is initialised at most
    once, which is the application's obligation; [explicit_once] says that
    [TAMPI_Init] is not called while the library is initialised. *)
Inductive env_step (explicit_once : bool) : State → State → Prop :=
| env_set thread property value s :
    env_step explicit_once s (TAMPI_Property_set thread property value s).2
| env_init thread native query s err s' :
    preinitialized s = false → MPI_Init thread native query s = Ok (err, s') →
    env_step explicit_once s s'
| env_init_thread native required s err provided s' :
    preinitialized s = false → MPI_Init_thread native required s = Ok (err, provided, s') →
    env_step explicit_once s s'
| env_finalize err s code s' :
    MPI_Finalize err s = Ok (code, s') → env_step explicit_once s s'
| env_tampi_init required provided s provided' s' :
    (explicit_once = true → initialized s = false) →
    TAMPI_Init required provided s = Ok (provided', s') → env_step explicit_once s s'
| env_tampi_finalize s s' : TAMPI_Finalize s = Ok s' → env_step explicit_once s s'.

Definition x_interface (lang : Lang) (x : Externals) : MpiInterface :=
  match lang with C => x_c x | Fortran => x_fortran x end.

(** At least one of the modes is on. *)
Definition task_aware s : bool := blockingMode s || nonBlockingMode s.

(** The symbols that can be called: all MPI functions of the languages the
    library is built for once MPI is initialised, and the functions of the
    runtime that the enabled modes need. *)
Record externs_inv s : Prop := {
  xi_tasking : tasking_ok (cf_linker cf) (x_tasking (externs s));
  xi_runtime : task_aware s = true →
    (∀ name, (name, true) ∈ alpi_symbols (blockingMode s) (nonBlockingMode s) →
       bound_to (cf_linker cf) First (tm_symbols (x_tasking (externs s))) name) ∧
    is_Some (pollingFunction (x_tasking (externs s)));
  xi_interface lang : interface_ok (cf_linker cf) lang (x_interface lang (externs s));
  xi_mpi lang f : preinitialized s = true → cf_mpi cf lang ≠ None → f ∈ load_order →
    bound_to (cf_linker cf) Next (if_symbols (x_interface lang (externs s))) (Names lang f);
}.

(** What the modes say about the rest of the state. *)
Record env_inv s : Prop := {
  ei_preinit : initialized s = true → preinitialized s = true;
  ei_modes : task_aware s = true →
    initialized s = true ∧ nativeThreadLevel s = MPI_THREAD_MULTIPLE;
  ei_blocking : blockingMode s = true →
    DISABLE_BLOCKING_MODE = false ∧ nonBlockingMode s = negb DISABLE_NONBLOCKING_MODE;
  ei_nonblocking : nonBlockingMode s = true → DISABLE_NONBLOCKING_MODE = false;
  ei_polling : registered s =
    if task_aware s then
      (if cf_completion cf then match _completionPollingInstance s with Some n => [n] | None => [] end
       else []) ++ match _pollingInstance s with Some n => [n] | None => [] end
    else [];
  ei_allocators : allocators s = task_aware s;
  ei_instances : task_aware s = true →
    is_Some (_pollingInstance s) ∧ (cf_completion cf = true → is_Some (_completionPollingInstance s));
  ei_externs : externs_inv s;
}.
End environment.

Section env_proofs.
Context `{Build, ThreadLevels} (cf : config).
Implicit Types s : State.

Lemma newState_inv : env_inv cf newState.
Proof.
  split; simpl; try naive_solver. split; simpl; [apply newTasking_ok|done| |done].
  intros []; apply newInterface_ok.
Qed.

(** Nothing but the start of MPI and of the library changes the symbols, and
    what is bound stays bound while fewer modes are on. *)
Lemma externs_inv_off s s' :
  x_tasking (externs s') = x_tasking (externs s) →
  (∀ lang, x_interface lang (externs s') = x_interface lang (externs s)) →
  preinitialized s' = preinitialized s → task_aware s' = false →
  externs_inv cf s → externs_inv cf s'.
Proof.
  intros Ht Hx Hp Hn [Hok _ Hi Hm]. split; rewrite ?Ht, ?Hp, ?Hn; [done|done| |].
  - intros lang. by rewrite Hx.
  - intros lang f. rewrite Hx. apply Hm.
Qed.

Lemma externs_inv_same s s' :
  externs s' = externs s → preinitialized s' = preinitialized s →
  nonBlockingMode s' = nonBlockingMode s → blockingMode s' = blockingMode s →
  externs_inv cf s → externs_inv cf s'.
Proof. unfold task_aware. intros Hx Hp Hn Hb [Ht Hr Hi Hm]. unfold task_aware in Hr. split; unfold task_aware; rewrite ?Hx, ?Hp, ?Hn, ?Hb; done. Qed.

Lemma initialize_interface_ok lang i i' :
  interface_ok (cf_linker cf) lang i → initialize_interface cf lang i = Ok i' →
  interface_ok (cf_linker cf) lang i' ∧
  (cf_mpi cf lang ≠ None → ∀ f, f ∈ load_order →
     bound_to (cf_linker cf) Next (if_symbols i') (Names lang f)).
Proof.
  intros Hi Hinit. unfold initialize_interface in Hinit.
  destruct (cf_mpi cf lang) as [mw|]; [|by simplify_eq].
  pose proof (Interface_initialize_post (cf_linker cf) lang mw i Hi) as Hp. rewrite Hinit in Hp.
  by destruct Hp.
Qed.

(** The library can only be initialised when no mode is on. *)
Lemma not_initialized_off s :
  env_inv cf s → initialized s = false →
  blockingMode s = false ∧ nonBlockingMode s = false ∧ registered s = [] ∧ allocators s = false.
Proof.
  intros [Hp Hm Hb Hnb Hr Ha Hi] Hn. destruct (task_aware s) eqn:Hta.
  { destruct Hm as [? _]; [done|]. congruence. }
  apply orb_false_elim in Hta as [-> ->]. done.
Qed.

Lemma preinitialize_inv provided s s' :
  env_inv cf s → preinitialize cf provided s = Ok s' →
  env_inv cf s' ∧ preinitialized s' = true ∧ initialized s' = false ∧
  nativeThreadLevel s' = provided ∧ autoInitialize s' = autoInitialize s.
Proof.
  intros Hi Hp. unfold preinitialize in Hp. destruct (preinitialized s) eqn:Hpre; [done|].
  destruct (initialized s) eqn:Hini; [done|]. simpl in Hp.
  apply bind_Ok in Hp as (c & Hc & Hp). apply bind_Ok in Hp as (fo & Hfo & Hp). simplify_eq.
  destruct (not_initialized_off s Hi Hini) as (Hb & Hn & Hr & Ha).
  destruct (ei_externs _ _ Hi) as [Ht _ Hif _].
  destruct (initialize_interface_ok C _ _ (Hif C) Hc) as [Hc1 Hc2].
  destruct (initialize_interface_ok Fortran _ _ (Hif Fortran) Hfo) as [Hf1 Hf2].
  split; [|done]. split; unfold task_aware; simpl; rewrite ?Hb, ?Hn, ?Hr, ?Ha; [done..|].
  split; unfold task_aware; simpl; rewrite ?Hb, ?Hn; [done|done|by intros []|]. intros [] f _ Hl Hf; auto.
Qed.

Lemma initialize_inv required provided automatic s provided' s' :
  env_inv cf s → initialized s = false ∨ shouldInitialize automatic s = Ok false →
  initialize cf required provided automatic s = Ok (provided', s') → env_inv cf s'.
Proof.
  intros Hi Hini Hinit. unfold initialize in Hinit.
  apply bind_Ok in Hinit as (init & Hsh & Hinit).
  destruct init; cbn [negb] in Hinit; [|by simplify_eq].
  destruct Hini as [Hini|Hini]; [|congruence].
  assert (preinitialized s = true) as Hpre.
  { unfold shouldInitialize in Hsh. by destruct (preinitialized s). }
  apply bind_Ok in Hinit as (tm & Htm & Hinit). apply bind_Ok in Hinit as (be & _ & Hinit). simplify_eq.
  destruct (not_initialized_off s Hi Hini) as (Hb & Hn & Hr & Ha).
  set (multiple := bool_decide (nativeThreadLevel s = MPI_THREAD_MULTIPLE)) in *.
  assert (∀ sx, externs sx = mkExternals (x_c (externs s)) (x_fortran (externs s)) tm be →
    preinitialized sx = true → blockingMode sx = shouldEnableBlocking required && multiple →
    nonBlockingMode sx = shouldEnableNonBlocking required && multiple → externs_inv cf sx) as Hext.
  { intros sx Hx Hpx Hbx Hnx. destruct (ei_externs _ _ Hi) as [Ht _ Hif Hmp].
    apply (initialize_tasking_Ok (cf_linker cf)) in Htm as (Htm & _ & Hbound); [|done].
    split; unfold task_aware; rewrite ?Hx, ?Hpx, ?Hbx, ?Hnx; [done|done|by intros []; apply (Hif C) || apply (Hif Fortran)|].
    - intros lang f _ Hl Hf. specialize (Hmp lang f Hpre Hl Hf). by destruct lang. }
  clear Htm Hi.
  assert (shouldEnableBlocking required = true → DISABLE_BLOCKING_MODE = false ∧
    shouldEnableNonBlocking required = negb DISABLE_NONBLOCKING_MODE) as Hmodes.
  { unfold shouldEnableBlocking, shouldEnableNonBlocking. destruct DISABLE_BLOCKING_MODE; [done|].
    rewrite bool_decide_eq_true. intros ->. rewrite bool_decide_eq_true_2 by auto. by destruct DISABLE_NONBLOCKING_MODE. }
  assert (shouldEnableNonBlocking required = true → DISABLE_NONBLOCKING_MODE = false) as Hmodes'.
  { unfold shouldEnableNonBlocking. by destruct DISABLE_NONBLOCKING_MODE. }
  destruct (shouldEnableBlocking required), (shouldEnableNonBlocking required);
    unfold multiple in *; case_bool_decide as Hlevel; simpl in *; unfold Polling_initialize;
    destruct (cf_completion cf) eqn:Hc;
    (split; [..|by apply Hext]); clear Hext; unfold task_aware; simpl; rewrite ?Hc, ?Hr, ?Ha; naive_solver.
Qed.

Lemma finalize_inv automatic s s' :
  env_inv cf s → finalize cf automatic s = Ok s' → env_inv cf s'.
Proof.
  intros Hi Hf. unfold finalize in Hf. apply bind_Ok in Hf as (fin & _ & Hf).
  destruct fin; cbn [negb] in Hf; [|by simplify_eq].
  apply bind_Ok in Hf as (s1 & Hs1 & Hf). simplify_eq.
  assert (preinitialized s1 = preinitialized s ∧ registered s1 = [] ∧ allocators s1 = false ∧
    x_tasking (externs s1) = x_tasking (externs s) ∧
    ∀ lang, x_interface lang (externs s1) = x_interface lang (externs s)) as (Hp & Hr & Ha & Ht & Hx).
  { destruct Hi as [_ _ _ _ Hr Ha Hin _]. simpl in Hs1. fold (task_aware s) in Hs1.
    destruct (task_aware s) eqn:Hor.
    - destruct (Hin eq_refl) as [[n Hn] Hc]. unfold Polling_finalize in Hs1.
      simpl in Hs1. rewrite Hn in Hr, Hs1. simpl in Hs1. destruct (cf_completion cf).
      + destruct (Hc eq_refl) as [c Hc']. rewrite Hc' in Hr, Hs1. simpl in Hs1. simplify_eq. simpl.
        split_and!; [done| |done|done|by intros []]. rewrite Hr. simpl. rewrite !filter_cons.
        repeat case_decide; rewrite ?filter_cons, ?filter_nil; repeat case_decide; naive_solver.
      + simplify_eq/=. split_and!; [done| |done|done|by intros []]. rewrite Hr. simpl.
        rewrite filter_cons. case_decide; naive_solver.
    - simplify_eq. split_and!; [done..|by intros []]. }
  split; simpl; [done..|].
  by apply (externs_inv_off s); [..|apply (ei_externs _ _ Hi)].
Qed.

Lemma set_inv thread property value s :
  env_inv cf s → env_inv cf (TAMPI_Property_set thread property value s).2.
Proof.
  intros Hi. unfold TAMPI_Property_set, setProperty. do 2 (case_decide; [done|]).
  pose proof Hi as [? ? ? ? ? ? ? Hx].
  case_decide; [split; [done..|by apply (externs_inv_same s)]|]. case_decide; [|done].
  destruct (preinitialized s) eqn:Hp; [done|].
  split; simpl; [intuition congruence|done..|by apply (externs_inv_same s)].
Qed.

Lemma auto_init_inv required provided s s1 provided' s' :
  env_inv cf s → preinitialize cf provided s = Ok s1 →
  initialize cf required provided true s1 = Ok (provided', s') → env_inv cf s'.
Proof.
  intros Hi Hp Hinit. destruct (preinitialize_inv _ _ _ Hi Hp) as (Hi1 & _ & Hn & _).
  eapply initialize_inv; [exact Hi1|by left|exact Hinit].
Qed.

Lemma env_inv_step s s' : env_step cf true s s' → env_inv cf s → env_inv cf s'.
Proof.
  intros Hs Hi. destruct Hs as [thread property value s|thread native query s err s' Hp Hc
    |native required s err provided s' Hp Hc|err s code s' Hc|required provided s provided' s' Ho Hc
    |s s' Hc].
  - by apply set_inv.
  - unfold MPI_Init in Hc. case_decide; [by simplify_eq|].
    destruct (MPI_Query_thread thread query s) as [err' provided]. case_decide; [by simplify_eq|].
    apply bind_Ok in Hc as (s1 & Hp1 & Hc). apply bind_Ok in Hc as ([p s2] & Hinit & Hc).
    simplify_eq. by eapply auto_init_inv.
  - unfold MPI_Init_thread in Hc. apply bind_Ok in Hc as (u & _ & Hc). cbv zeta in Hc.
    destruct (decide (ni_err _ ≠ 0%Z)); [by simplify_eq|].
    apply bind_Ok in Hc as (s1 & Hp1 & Hc). apply bind_Ok in Hc as ([p s2] & Hinit & Hc).
    simplify_eq. by eapply auto_init_inv.
  - unfold MPI_Finalize in Hc. case_decide; [by simplify_eq|].
    apply bind_Ok in Hc as (s1 & Hf & Hc). simplify_eq. by eapply finalize_inv.
  - eapply initialize_inv; [done| |exact Hc]. left. by apply Ho.
  - by eapply finalize_inv.
Qed.

Lemma env_inv_run s s' : rtc (env_step cf true) s s' → env_inv cf s → env_inv cf s'.
Proof. induction 1; eauto using env_inv_step. Qed.
End env_proofs.

(** ** Claims *)

Section env_claims.
Context `{Build, ThreadLevels} (cf : config).
Implicit Types s : State.

(** C29: in every state that an application can reach without calling
    [TAMPI_Init] twice in a row, and in a library built with either mode left
    out or with both, a mode that is left out is never on, and the blocking
    mode is on only together with the non-blocking one if that is built; a mode
    is on only while the library is initialised
    and MPI provides MPI_THREAD_MULTIPLE; and exactly while a mode is on the
    allocators exist and the polling task (and the completion task, if
    configured) is registered, once; while a mode is on, a polling function is
    selected and every runtime function that the mode calls is bound, and once
    MPI is initialised every MPI function of the languages that the library is
    built for. *)
Theorem modes_invariant s :
  rtc (env_step cf true) newState s → env_inv cf s.
Proof. intros Hr. exact (env_inv_run cf _ _ Hr (newState_inv cf)). Qed.

(** Finalising, by either entry point, from a reachable state leaves the
    library off: no mode, no registered polling task, no allocator. *)
Theorem finalize_stops_everything automatic s s' :
  env_inv cf s → finalize cf automatic s = Ok s' →
  initialized s' = false ∧ blockingMode s' = false ∧ nonBlockingMode s' = false ∧
  registered s' = [] ∧ allocators s' = false.
Proof.
  intros Hi Hf. pose proof (finalize_inv cf _ _ _ Hi Hf) as Hi'.
  assert (initialized s' = false) as Hn.
  { unfold finalize in Hf. apply bind_Ok in Hf as (fin & Hsh & Hf).
    destruct fin; cbn [negb] in Hf.
    - apply bind_Ok in Hf as (s1 & _ & Hf). by simplify_eq.
    - simplify_eq. unfold shouldFinalize in Hsh.
      destruct (automatic && negb (autoInitialize s')); [by simplify_eq|].
      apply bind_Ok in Hsh as (u1 & _ & Hsh). by apply bind_Ok in Hsh as (u2 & _ & Hsh). }
  destruct (not_initialized_off cf s' Hi' Hn) as (? & ? & ? & ?). by split_and!.
Qed.

(** C36: a property that can be set is read back as set, by the thread that set
    it for the per-thread one, and nothing else a thread can read changes; the
    mode properties can never be set, automatic initialisation only before
    MPI is initialised, and a rejected call changes nothing. *)
Theorem property_set_get thread property value s :
  match setProperty thread property value s with
  | Some s' =>
      (property = TAMPI_PROPERTY_THREAD_TASKAWARE ∨
       (property = TAMPI_PROPERTY_AUTO_INIT ∧ preinitialized s = false)) ∧
      getProperty thread property s' = Some (Z.b2z (bool_decide (value ≠ 0)%Z)) ∧
      ∀ thread' property',
        property' ≠ property ∨ (property = TAMPI_PROPERTY_THREAD_TASKAWARE ∧ thread' ≠ thread) →
        getProperty thread' property' s' = getProperty thread' property' s
  | None =>
      (property ≠ TAMPI_PROPERTY_THREAD_TASKAWARE ∧
       (property = TAMPI_PROPERTY_AUTO_INIT → preinitialized s = true)) ∧
      TAMPI_Property_set thread property value s = (MPI_ERR_ARG, s)
  end.
Proof.
  unfold TAMPI_Property_set, setProperty.
  destruct (decide (property = TAMPI_PROPERTY_BLOCKING_MODE)) as [->|N1]; [done|].
  destruct (decide (property = TAMPI_PROPERTY_NONBLOCKING_MODE)) as [->|N2]; [done|].
  destruct (decide (property = TAMPI_PROPERTY_THREAD_TASKAWARE)) as [->|N3].
  { split_and!; [by left| |].
    { unfold getProperty. do 2 rewrite decide_False by done. rewrite decide_True by done.
      unfold taskAware. simpl. by rewrite lookup_insert_eq. }
    intros t p Hp. unfold getProperty, taskAware. simpl.
    destruct (decide (p = TAMPI_PROPERTY_THREAD_TASKAWARE)) as [->|]; [|done].
    destruct Hp as [|[_ Hne]]; [done|]. by rewrite lookup_insert_ne. }
  destruct (decide (property = TAMPI_PROPERTY_AUTO_INIT)) as [->|N4]; [|done].
  destruct (preinitialized s); [done|]. split_and!; [by right|unfold getProperty; by do 3 (rewrite decide_False by done)|].
  intros t p [Hp|[? _]]; [|done]. unfold getProperty, taskAware. simpl.
  by repeat case_decide.
Qed.

(** C30: when MPI_Init_thread succeeds, the blocking mode is on exactly when it
    is built, MPI_TASK_MULTIPLE was required, MPI provides MPI_THREAD_MULTIPLE
    (which is what it is asked for) and automatic initialisation is on; then
    MPI_TASK_MULTIPLE is provided, and otherwise what MPI provides.  The
    non-blocking mode is on exactly when it is built, MPI_TASK_MULTIPLE or
    MPI_THREAD_MULTIPLE was required, MPI provides MPI_THREAD_MULTIPLE and
    automatic initialisation is on. *)
Theorem init_thread_provides native required s err provided s' :
  env_inv cf s → preinitialized s = false →
  MPI_Init_thread cf native required s = Ok (err, provided, s') → err = 0%Z →
  let irequired := if decide (required = MPI_TASK_MULTIPLE) then MPI_THREAD_MULTIPLE else required in
  let level := ni_provided (native irequired) in
  let possible := level = MPI_THREAD_MULTIPLE ∧ autoInitialize s = true in
  (blockingMode s' = true ↔
     DISABLE_BLOCKING_MODE = false ∧ required = MPI_TASK_MULTIPLE ∧ possible) ∧
  (nonBlockingMode s' = true ↔
     DISABLE_NONBLOCKING_MODE = false ∧
     (required = MPI_TASK_MULTIPLE ∨ required = MPI_THREAD_MULTIPLE) ∧ possible) ∧
  provided = (if blockingMode s' then MPI_TASK_MULTIPLE else level).
Proof.
  intros Hi Hpre Hc Herr. cbv zeta. unfold MPI_Init_thread in Hc.
  apply bind_Ok in Hc as (u & _ & Hc). cbv zeta in Hc.
  destruct (decide (ni_err _ ≠ 0%Z)) as [|_]; [by simplify_eq|].
  apply bind_Ok in Hc as (s1 & Hp & Hc). apply bind_Ok in Hc as ([p s2] & Hinit & Hc). simplify_eq.
  destruct (preinitialize_inv cf _ _ _ Hi Hp) as (Hi1 & Hp1 & Hn1 & Hl1 & Ha1).
  unfold initialize in Hinit. apply bind_Ok in Hinit as (init & Hsh & Hinit).
  unfold shouldInitialize in Hsh. rewrite Hp1 in Hsh. simpl in Hsh. simplify_eq.
  destruct (not_initialized_off cf _ Hi1 Hn1) as (Hb & Hnb & _ & _). rewrite <-Ha1.
  destruct (autoInitialize s1) eqn:Ha; simpl in Hinit; simplify_eq.
  - apply bind_Ok in Hinit as (tm & _ & Hinit). apply bind_Ok in Hinit as (be & _ & Hinit).
    rewrite Hl1 in Hinit. simplify_eq. cbn [set_modes blockingMode nonBlockingMode].
    split_and!.
    + rewrite andb_true_iff, bool_decide_eq_true. unfold shouldEnableBlocking.
      destruct DISABLE_BLOCKING_MODE; rewrite ?bool_decide_eq_true; naive_solver.
    + rewrite andb_true_iff, bool_decide_eq_true. unfold shouldEnableNonBlocking.
      destruct DISABLE_NONBLOCKING_MODE; rewrite ?bool_decide_eq_true; naive_solver.
    + destruct (shouldEnableBlocking required), (shouldEnableNonBlocking required);
        case_bool_decide; simpl; unfold Polling_initialize; destruct (cf_completion cf); simpl; by rewrite ?Hl1.
  - rewrite Hb, Hnb. naive_solver.
Qed.

(** Initialising twice is not rejected.  With automatic initialisation
    off, a second [TAMPI_Init] registers a second polling task and forgets the
    first, which stays registered after [TAMPI_Finalize]. *)
Theorem double_init_leaks_polling s p1 s1 p2 s2 s3 :
  env_inv cf s → initialized s = false → autoInitialize s = false →
  nativeThreadLevel s = MPI_THREAD_MULTIPLE → cf_completion cf = false →
  TAMPI_Init cf MPI_TASK_MULTIPLE 0 s = Ok (p1, s1) →
  TAMPI_Init cf MPI_TASK_MULTIPLE 0 s1 = Ok (p2, s2) →
  TAMPI_Finalize cf s2 = Ok s3 →
  DISABLE_BLOCKING_MODE = false → initialized s3 = false ∧ registered s3 = [next_instance s].
Proof.
  intros Hi Hn Ha Hl Hc H1 H2 H3 Hd.
  destruct (not_initialized_off cf s Hi Hn) as (_ & _ & Hr & _).
  unfold TAMPI_Init, initialize, shouldInitialize in H1, H2.
  apply bind_Ok in H1 as (b1 & Hb1 & H1). apply bind_Ok in H2 as (b2 & Hb2 & H2).
  destruct (preinitialized s) eqn:Hp; [|done]. rewrite Ha in Hb1. simpl in Hb1. simplify_eq.
  unfold shouldEnableBlocking in H1, H2. rewrite Hd in H1, H2.
  rewrite !bool_decide_eq_true_2 in H1 by auto. simpl in H1. rewrite Hc in H1.
  apply bind_Ok in H1 as (t1 & _ & H1). apply bind_Ok in H1 as (b1 & _ & H1). simplify_eq.
  simpl in *.
  rewrite Hp, Ha in Hb2. simpl in Hb2. simplify_eq.
  rewrite !bool_decide_eq_true_2 in H2 by auto. simpl in H2. rewrite Hc in H2.
  apply bind_Ok in H2 as (t2 & _ & H2). apply bind_Ok in H2 as (b2 & _ & H2). simplify_eq.
  simpl in *.
  unfold TAMPI_Finalize, finalize, shouldFinalize, Polling_finalize in H3. simpl in H3.
  rewrite Ha, Hc in H3. simpl in H3. simplify_eq. simpl. split; [done|].
  rewrite Hr, filter_cons_False, filter_cons_True by lia. done.
Qed.
End env_claims.

Section env_witnesses.
(** MPICH's constants, and a runtime without completion task. *)
Lemma demo_err_arg : 12%Z ≠ 0%Z.
Proof. done. Qed.

#[local] Existing Instance default_build.
#[local] Instance demo_levels : ThreadLevels := {|
  MPI_THREAD_SINGLE := 0; MPI_THREAD_MULTIPLE := 3; MPI_ERR_ARG := 12;
  thread_levels_ordered := eq_refl; err_arg_nonzero := demo_err_arg |}.

(** A process of a run with four ranks, in an executable that is linked with
    everything and uses C only. *)
Definition demo_mpi_world : mpi_world := mkMpiWorld 0 1 1 (Some 2%Z) (Some 4%Z).

Definition demo_config : config :=
  mkConfig demo_linker (λ lang, match lang with C => Some demo_mpi_world | Fortran => None end)
    demo_runtime false "auto" false "none".
Definition demo_native (level : Z) : native_init := mkNative 0 level.

(** The value of a run that ends, and [d] of one that does not. *)
Definition value_of {A} (d : A) (o : outcome A) : A := match o with Ok a => a | _ => d end.

Lemma value_of_Ok {A} (d : A) (o : outcome A) :
  match o with Ok _ => true | _ => false end = true → o = Ok (value_of d o).
Proof. by destruct o. Qed.

(** Initialised by MPI_Init_thread(MPI_TASK_MULTIPLE). *)
Definition demo_init : Z * Z * State :=
  value_of (1%Z, 0%Z, newState) (MPI_Init_thread demo_config demo_native 4 newState).
Definition demo_on : State := demo_init.2.

Lemma demo_on_init : MPI_Init_thread demo_config demo_native 4 newState = Ok (0%Z, 4%Z, demo_on).
Proof.
  assert (demo_init.1 = (0%Z, 4%Z)) as Hp by (vm_compute; reflexivity).
  rewrite <-Hp. unfold demo_on. rewrite <-surjective_pairing. apply value_of_Ok.
  vm_compute. reflexivity.
Qed.

Lemma demo_on_reachable : rtc (env_step demo_config true) newState demo_on.
Proof.
  apply rtc_once. exact (env_init_thread _ _ demo_native 4 newState 0 4 demo_on eq_refl demo_on_init).
Qed.

Lemma modes_invariant_witness : env_inv demo_config demo_on ∧ blockingMode demo_on = true.
Proof.
  split; [exact (modes_invariant demo_config demo_on demo_on_reachable)|vm_compute; reflexivity].
Defined.

Lemma finalize_stops_everything_witness :
  ∃ s', finalize demo_config true demo_on = Ok s' ∧ registered s' = [] ∧ blockingMode s' = false.
Proof.
  destruct (finalize demo_config true demo_on) as [s'| |] eqn:Hf; [|vm_compute in Hf; discriminate..].
  exists s'. split; [reflexivity|].
  destruct (finalize_stops_everything demo_config true demo_on s'
    (env_inv_run demo_config _ _ demo_on_reachable (newState_inv demo_config)) Hf)
    as (_ & Hb & _ & Hr & _).
  split; [exact Hr|exact Hb].
Defined.

Lemma init_thread_provides_witness :
  ∃ s', MPI_Init_thread demo_config demo_native 4 newState = Ok (0%Z, 4%Z, s') ∧
    blockingMode s' = true ∧ nonBlockingMode s' = true.
Proof.
  exists demo_on. split; [exact demo_on_init|].
  destruct (init_thread_provides demo_config demo_native 4 newState 0 4 demo_on
    (newState_inv demo_config) eq_refl demo_on_init eq_refl) as (Hb & Hn & _).
  split; [apply Hb; by auto|apply Hn; by auto].
Defined.

(** MPI is initialised with automatic initialisation off. *)
Definition demo_off : State := (TAMPI_Property_set 0 TAMPI_PROPERTY_AUTO_INIT 0 newState).2.
Definition demo_init_off : Z * Z * State :=
  value_of (1%Z, 0%Z, newState) (MPI_Init_thread demo_config demo_native 3 demo_off).
Definition demo_explicit : State := demo_init_off.2.

Lemma demo_explicit_init :
  MPI_Init_thread demo_config demo_native 3 demo_off = Ok (0%Z, 3%Z, demo_explicit).
Proof.
  assert (demo_init_off.1 = (0%Z, 3%Z)) as Hp by (vm_compute; reflexivity).
  rewrite <-Hp. unfold demo_explicit. rewrite <-surjective_pairing. apply value_of_Ok.
  vm_compute. reflexivity.
Qed.

Lemma demo_explicit_inv : env_inv demo_config demo_explicit.
Proof.
  apply (env_inv_run demo_config newState); [|apply newState_inv].
  eapply rtc_l; [apply (env_set _ _ 0 TAMPI_PROPERTY_AUTO_INIT 0)|]. apply rtc_once.
  exact (env_init_thread _ _ demo_native 3 demo_off 0 3 demo_explicit eq_refl demo_explicit_init).
Qed.

Definition demo_first : Z * State := value_of (0%Z, newState) (TAMPI_Init demo_config 4 0 demo_explicit).
Definition demo_second : Z * State := value_of (0%Z, newState) (TAMPI_Init demo_config 4 0 demo_first.2).

Lemma demo_double_init :
  ∃ p1 s1 p2 s2 s3, TAMPI_Init demo_config 4 0 demo_explicit = Ok (p1, s1) ∧
    TAMPI_Init demo_config 4 0 s1 = Ok (p2, s2) ∧ TAMPI_Finalize demo_config s2 = Ok s3.
Proof.
  exists demo_first.1, demo_first.2, demo_second.1, demo_second.2,
    (value_of newState (TAMPI_Finalize demo_config demo_second.2)).
  rewrite <-!surjective_pairing.
  split; [|split]; apply value_of_Ok; vm_compute; reflexivity.
Qed.

Lemma double_init_leaks_polling_witness :
  ∃ p1 s1 p2 s2 s3, TAMPI_Init demo_config 4 0 demo_explicit = Ok (p1, s1) ∧
    TAMPI_Init demo_config 4 0 s1 = Ok (p2, s2) ∧ TAMPI_Finalize demo_config s2 = Ok s3 ∧
    registered s3 = [next_instance demo_explicit].
Proof.
  destruct demo_double_init as (p1 & s1 & p2 & s2 & s3 & H1 & H2 & H3). exists p1, s1, p2, s2, s3.
  split; [exact H1|]. split; [exact H2|]. split; [exact H3|].
  refine (proj2 (double_init_leaks_polling demo_config demo_explicit p1 s1 p2 s2 s3
    demo_explicit_inv _ _ _ _ H1 H2 H3 _)); vm_compute; reflexivity.
Defined.
End env_witnesses.
