(* ===== verification/CApi.v ===== *)
(** * The application interface

    The task-aware wrappers of the MPI operations and their TAMPI counterparts
    ([src/src/c/*.cpp]): what each call does, given the modes of the
    environment, and what running it does. *)

From S2P Require Import Prelude Queues MultiQueue Allocator World Interface Tickets Operations StringSupport CapacityCtrl TicketManager OperationManager ManagerProofs PollingProofs System Demo Tasking Environment.

(** ** The wrappers *)

(** What a wrapper does: delegate an operation of the given nature, call the MPI
    function of the same name found by [dlsym], or stop with a message. *)
Inductive action :=
| ActP2P (nature : OpNature) (make : task_handle_t → Operation)
| ActColl (nature : OpNature) (make : task_handle_t → CollOperation)
| Native (name : string) (args : list Z)
| ActFail (msg : string).

Section wrappers.
Context `{ThreadLevels, MpiLib} (MPI_OP_NULL MPI_DATATYPE_NULL : Z).
Implicit Types (s : State) (thread : nat).

Definition MPI_Send thread s (buf count datatype dest tag comm : Z) : action :=
  if isBlockingEnabledForCurrentThread thread s then
    ActP2P BLK (λ task, newOperation task SEND BLK buf count datatype dest tag comm STATUS_IGNORE)
  else Native "MPI_Send" [buf; count; datatype; dest; tag; comm].

Definition TAMPI_Isend s (buf count datatype dest tag comm : Z) : action :=
  if isNonBlockingEnabled s then
    ActP2P NONBLK (λ task, newOperation task SEND NONBLK buf count datatype dest tag comm STATUS_IGNORE)
  else ActFail "TAMPI_Isend not enabled".

Definition MPI_Bsend thread s (buf count datatype dest tag comm : Z) : action :=
  if isBlockingEnabledForCurrentThread thread s then
    ActP2P BLK (λ task, newOperation task BSEND BLK buf count datatype dest tag comm STATUS_IGNORE)
  else Native "MPI_Bsend" [buf; count; datatype; dest; tag; comm].

Definition TAMPI_Ibsend s (buf count datatype dest tag comm : Z) : action :=
  if isNonBlockingEnabled s then
    ActP2P NONBLK (λ task, newOperation task BSEND NONBLK buf count datatype dest tag comm STATUS_IGNORE)
  else ActFail "TAMPI_Ibsend not enabled".

Definition MPI_Rsend thread s (buf count datatype dest tag comm : Z) : action :=
  if isBlockingEnabledForCurrentThread thread s then
    ActP2P BLK (λ task, newOperation task RSEND BLK buf count datatype dest tag comm STATUS_IGNORE)
  else Native "MPI_Rsend" [buf; count; datatype; dest; tag; comm].

Definition TAMPI_Irsend s (buf count datatype dest tag comm : Z) : action :=
  if isNonBlockingEnabled s then
    ActP2P NONBLK (λ task, newOperation task RSEND NONBLK buf count datatype dest tag comm STATUS_IGNORE)
  else ActFail "TAMPI_Irsend not enabled".

Definition MPI_Ssend thread s (buf count datatype dest tag comm : Z) : action :=
  if isBlockingEnabledForCurrentThread thread s then
    ActP2P BLK (λ task, newOperation task SSEND BLK buf count datatype dest tag comm STATUS_IGNORE)
  else Native "MPI_Ssend" [buf; count; datatype; dest; tag; comm].

Definition TAMPI_Issend s (buf count datatype dest tag comm : Z) : action :=
  if isNonBlockingEnabled s then
    ActP2P NONBLK (λ task, newOperation task SSEND NONBLK buf count datatype dest tag comm STATUS_IGNORE)
  else ActFail "TAMPI_Issend not enabled".

Definition MPI_Recv thread s (buf count datatype source tag comm status : Z) : action :=
  if isBlockingEnabledForCurrentThread thread s then
    ActP2P BLK (λ task, newOperation task RECV BLK buf count datatype source tag comm status)
  else Native "MPI_Recv" [buf; count; datatype; source; tag; comm; status].

Definition TAMPI_Irecv s (buf count datatype source tag comm status : Z) : action :=
  if isNonBlockingEnabled s then
    ActP2P NONBLK (λ task, newOperation task RECV NONBLK buf count datatype source tag comm status)
  else ActFail "TAMPI_Irecv not enabled".

Definition MPI_Allgather thread s (sendbuf sendcount sendtype recvbuf recvcount recvtype comm : Z) : action :=
  if isBlockingEnabledForCurrentThread thread s then
    ActColl BLK (λ task, newColl task ALLGATHER BLK comm sendbuf sendcount sendtype recvbuf recvcount recvtype MPI_OP_NULL 0)
  else Native "MPI_Allgather" [sendbuf; sendcount; sendtype; recvbuf; recvcount; recvtype; comm].

Definition TAMPI_Iallgather s (sendbuf sendcount sendtype recvbuf recvcount recvtype comm : Z) : action :=
  if isNonBlockingEnabled s then
    ActColl NONBLK (λ task, newColl task ALLGATHER NONBLK comm sendbuf sendcount sendtype recvbuf recvcount recvtype MPI_OP_NULL 0)
  else ActFail "TAMPI_Iallgather not enabled".

Definition MPI_Allgatherv thread s (sendbuf sendcount sendtype recvbuf recvcounts displs recvtype comm : Z) : action :=
  if isBlockingEnabledForCurrentThread thread s then
    ActColl BLK (λ task, newColl_recvv task ALLGATHERV BLK comm sendbuf sendcount sendtype recvbuf recvcounts displs recvtype MPI_OP_NULL 0)
  else Native "MPI_Allgatherv" [sendbuf; sendcount; sendtype; recvbuf; recvcounts; displs; recvtype; comm].

Definition TAMPI_Iallgatherv s (sendbuf sendcount sendtype recvbuf recvcounts displs recvtype comm : Z) : action :=
  if isNonBlockingEnabled s then
    ActColl NONBLK (λ task, newColl_recvv task ALLGATHERV NONBLK comm sendbuf sendcount sendtype recvbuf recvcounts displs recvtype MPI_OP_NULL 0)
  else ActFail "TAMPI_Iallgatherv not enabled".

Definition MPI_Allreduce thread s (sendbuf recvbuf count datatype op comm : Z) : action :=
  if isBlockingEnabledForCurrentThread thread s then
    ActColl BLK (λ task, newColl task ALLREDUCE BLK comm sendbuf count datatype recvbuf count datatype op 0)
  else Native "MPI_Allreduce" [sendbuf; recvbuf; count; datatype; op; comm].

Definition TAMPI_Iallreduce s (sendbuf recvbuf count datatype op comm : Z) : action :=
  if isNonBlockingEnabled s then
    ActColl NONBLK (λ task, newColl task ALLREDUCE NONBLK comm sendbuf count datatype recvbuf count datatype op 0)
  else ActFail "TAMPI_Iallreduce not enabled".

Definition MPI_Alltoall thread s (sendbuf sendcount sendtype recvbuf recvcount recvtype comm : Z) : action :=
  if isBlockingEnabledForCurrentThread thread s then
    ActColl BLK (λ task, newColl task ALLTOALL BLK comm sendbuf sendcount sendtype recvbuf recvcount recvtype MPI_OP_NULL 0)
  else Native "MPI_Alltoall" [sendbuf; sendcount; sendtype; recvbuf; recvcount; recvtype; comm].

Definition TAMPI_Ialltoall s (sendbuf sendcount sendtype recvbuf recvcount recvtype comm : Z) : action :=
  if isNonBlockingEnabled s then
    ActColl NONBLK (λ task, newColl task ALLTOALL NONBLK comm sendbuf sendcount sendtype recvbuf recvcount recvtype MPI_OP_NULL 0)
  else ActFail "TAMPI_Ialltoall not enabled".

Definition MPI_Alltoallv thread s (sendbuf sendcounts sdispls sendtype recvbuf recvcounts rdispls recvtype comm : Z) : action :=
  if isBlockingEnabledForCurrentThread thread s then
    ActColl BLK (λ task, newColl_v task ALLTOALLV BLK comm sendbuf sendcounts sdispls sendtype recvbuf recvcounts rdispls recvtype MPI_OP_NULL 0)
  else Native "MPI_Alltoallv" [sendbuf; sendcounts; sdispls; sendtype; recvbuf; recvcounts; rdispls; recvtype; comm].

Definition TAMPI_Ialltoallv s (sendbuf sendcounts sdispls sendtype recvbuf recvcounts rdispls recvtype comm : Z) : action :=
  if isNonBlockingEnabled s then
    ActColl NONBLK (λ task, newColl_v task ALLTOALLV NONBLK comm sendbuf sendcounts sdispls sendtype recvbuf recvcounts rdispls recvtype MPI_OP_NULL 0)
  else ActFail "TAMPI_Ialltoallv not enabled".

Definition MPI_Alltoallw thread s (sendbuf sendcounts sdispls sendtypes recvbuf recvcounts rdispls recvtypes comm : Z) : action :=
  if isBlockingEnabledForCurrentThread thread s then
    ActColl BLK (λ task, newColl_w task ALLTOALLW BLK comm sendbuf sendcounts sdispls sendtypes recvbuf recvcounts rdispls recvtypes MPI_OP_NULL 0)
  else ActFail "TAMPI: MPI_Alltoallw not supported".

Definition TAMPI_Ialltoallw s (sendbuf sendcounts sdispls sendtypes recvbuf recvcounts rdispls recvtypes comm : Z) : action :=
  if isNonBlockingEnabled s then
    ActColl NONBLK (λ task, newColl_w task ALLTOALLW NONBLK comm sendbuf sendcounts sdispls sendtypes recvbuf recvcounts rdispls recvtypes MPI_OP_NULL 0)
  else ActFail "TAMPI_Ialltoallw not enabled".

Definition MPI_Barrier thread s (comm : Z) : action :=
  if isBlockingEnabledForCurrentThread thread s then
    ActColl BLK (λ task, newColl task BARRIER BLK comm nullptr 0 MPI_DATATYPE_NULL nullptr 0 MPI_DATATYPE_NULL MPI_OP_NULL 0)
  else Native "MPI_Barrier" [comm].

Definition TAMPI_Ibarrier s (comm : Z) : action :=
  if isNonBlockingEnabled s then
    ActColl NONBLK (λ task, newColl task BARRIER NONBLK comm nullptr 0 MPI_DATATYPE_NULL nullptr 0 MPI_DATATYPE_NULL MPI_OP_NULL 0)
  else ActFail "TAMPI_Ibarrier not enabled".

Definition MPI_Bcast thread s (buffer count datatype root comm : Z) : action :=
  if isBlockingEnabledForCurrentThread thread s then
    ActColl BLK (λ task, newColl task BCAST BLK comm nullptr 0 MPI_DATATYPE_NULL buffer count datatype MPI_OP_NULL root)
  else Native "MPI_Bcast" [buffer; count; datatype; root; comm].

Definition TAMPI_Ibcast s (buffer count datatype root comm : Z) : action :=
  if isNonBlockingEnabled s then
    ActColl NONBLK (λ task, newColl task BCAST NONBLK comm nullptr 0 MPI_DATATYPE_NULL buffer count datatype MPI_OP_NULL root)
  else ActFail "TAMPI_Ibcast not enabled".

Definition MPI_Exscan thread s (sendbuf recvbuf count datatype op comm : Z) : action :=
  if isBlockingEnabledForCurrentThread thread s then
    ActColl BLK (λ task, newColl task EXSCAN BLK comm sendbuf count datatype recvbuf 0 MPI_DATATYPE_NULL op 0)
  else Native "MPI_Exscan" [sendbuf; recvbuf; count; datatype; op; comm].

Definition TAMPI_Iexscan s (sendbuf recvbuf count datatype op comm : Z) : action :=
  if isNonBlockingEnabled s then
    ActColl NONBLK (λ task, newColl task EXSCAN NONBLK comm sendbuf count datatype recvbuf 0 MPI_DATATYPE_NULL op 0)
  else ActFail "TAMPI_Iexscan not enabled".

Definition MPI_Gather thread s (sendbuf sendcount sendtype recvbuf recvcount recvtype root comm : Z) : action :=
  if isBlockingEnabledForCurrentThread thread s then
    ActColl BLK (λ task, newColl task GATHER BLK comm sendbuf sendcount sendtype recvbuf recvcount recvtype MPI_OP_NULL root)
  else Native "MPI_Gather" [sendbuf; sendcount; sendtype; recvbuf; recvcount; recvtype; root; comm].

Definition TAMPI_Igather s (sendbuf sendcount sendtype recvbuf recvcount recvtype root comm : Z) : action :=
  if isNonBlockingEnabled s then
    ActColl NONBLK (λ task, newColl task GATHER NONBLK comm sendbuf sendcount sendtype recvbuf recvcount recvtype MPI_OP_NULL root)
  else ActFail "TAMPI_Igather not enabled".

Definition MPI_Gatherv thread s (sendbuf sendcount sendtype recvbuf recvcounts displs recvtype root comm : Z) : action :=
  if isBlockingEnabledForCurrentThread thread s then
    ActColl BLK (λ task, newColl_recvv task GATHERV BLK comm sendbuf sendcount sendtype recvbuf recvcounts displs recvtype MPI_OP_NULL root)
  else Native "MPI_Gatherv" [sendbuf; sendcount; sendtype; recvbuf; recvcounts; displs; recvtype; root; comm].

Definition TAMPI_Igatherv s (sendbuf sendcount sendtype recvbuf recvcounts displs recvtype root comm : Z) : action :=
  if isNonBlockingEnabled s then
    ActColl NONBLK (λ task, newColl_recvv task GATHERV NONBLK comm sendbuf sendcount sendtype recvbuf recvcounts displs recvtype MPI_OP_NULL root)
  else ActFail "TAMPI_Igatherv not enabled".

Definition MPI_Reduce thread s (sendbuf recvbuf count datatype op root comm : Z) : action :=
  if isBlockingEnabledForCurrentThread thread s then
    ActColl BLK (λ task, newColl task REDUCE BLK comm sendbuf count datatype recvbuf count datatype op root)
  else Native "MPI_Reduce" [sendbuf; recvbuf; count; datatype; op; root; comm].

Definition TAMPI_Ireduce s (sendbuf recvbuf count datatype op root comm : Z) : action :=
  if isNonBlockingEnabled s then
    ActColl NONBLK (λ task, newColl task REDUCE NONBLK comm sendbuf count datatype recvbuf count datatype op root)
  else ActFail "TAMPI_Ireduce not enabled".

Definition MPI_Reduce_scatter thread s (sendbuf recvbuf recvcounts datatype op comm : Z) : action :=
  if isBlockingEnabledForCurrentThread thread s then
    ActColl BLK (λ task, newColl_recvv task REDUCESCATTER BLK comm sendbuf 0 datatype recvbuf recvcounts nullptr MPI_DATATYPE_NULL op 0)
  else Native "MPI_Reduce_scatter" [sendbuf; recvbuf; recvcounts; datatype; op; comm].

Definition TAMPI_Ireduce_scatter s (sendbuf recvbuf recvcounts datatype op comm : Z) : action :=
  if isNonBlockingEnabled s then
    ActColl NONBLK (λ task, newColl_recvv task REDUCESCATTER NONBLK comm sendbuf 0 datatype recvbuf recvcounts nullptr MPI_DATATYPE_NULL op 0)
  else ActFail "TAMPI_Ireduce_scatter not enabled".

Definition MPI_Reduce_scatter_block thread s (sendbuf recvbuf recvcount datatype op comm : Z) : action :=
  if isBlockingEnabledForCurrentThread thread s then
    ActColl BLK (λ task, newColl task REDUCESCATTERBLOCK BLK comm sendbuf 0 datatype recvbuf recvcount MPI_DATATYPE_NULL op 0)
  else Native "MPI_Reduce_scatter_block" [sendbuf; recvbuf; recvcount; datatype; op; comm].

Definition TAMPI_Ireduce_scatter_block s (sendbuf recvbuf recvcount datatype op comm : Z) : action :=
  if isNonBlockingEnabled s then
    ActColl NONBLK (λ task, newColl task REDUCESCATTERBLOCK NONBLK comm sendbuf 0 datatype recvbuf recvcount MPI_DATATYPE_NULL op 0)
  else ActFail "TAMPI_Ireduce_scatter_block not enabled".

Definition MPI_Scan thread s (sendbuf recvbuf count datatype op comm : Z) : action :=
  if isBlockingEnabledForCurrentThread thread s then
    ActColl BLK (λ task, newColl task SCAN BLK comm sendbuf count datatype recvbuf 0 MPI_DATATYPE_NULL op 0)
  else Native "MPI_Scan" [sendbuf; recvbuf; count; datatype; op; comm].

Definition TAMPI_Iscan s (sendbuf recvbuf count datatype op comm : Z) : action :=
  if isNonBlockingEnabled s then
    ActColl NONBLK (λ task, newColl task SCAN NONBLK comm sendbuf count datatype recvbuf 0 MPI_DATATYPE_NULL op 0)
  else ActFail "TAMPI_Iscan not enabled".

Definition MPI_Scatter thread s (sendbuf sendcount sendtype recvbuf recvcount recvtype root comm : Z) : action :=
  if isBlockingEnabledForCurrentThread thread s then
    ActColl BLK (λ task, newColl task SCATTER BLK comm sendbuf sendcount sendtype recvbuf recvcount recvtype MPI_OP_NULL root)
  else Native "MPI_Scatter" [sendbuf; sendcount; sendtype; recvbuf; recvcount; recvtype; root; comm].

Definition TAMPI_Iscatter s (sendbuf sendcount sendtype recvbuf recvcount recvtype root comm : Z) : action :=
  if isNonBlockingEnabled s then
    ActColl NONBLK (λ task, newColl task SCATTER NONBLK comm sendbuf sendcount sendtype recvbuf recvcount recvtype MPI_OP_NULL root)
  else ActFail "TAMPI_Iscatter not enabled".

Definition MPI_Scatterv thread s (sendbuf sendcounts displs sendtype recvbuf recvcount recvtype root comm : Z) : action :=
  if isBlockingEnabledForCurrentThread thread s then
    ActColl BLK (λ task, newColl_sendv task SCATTERV BLK comm sendbuf sendcounts displs sendtype recvbuf recvcount recvtype MPI_OP_NULL root)
  else Native "MPI_Scatterv" [sendbuf; sendcounts; displs; sendtype; recvbuf; recvcount; recvtype; root; comm].

Definition TAMPI_Iscatterv s (sendbuf sendcounts displs sendtype recvbuf recvcount recvtype root comm : Z) : action :=
  if isNonBlockingEnabled s then
    ActColl NONBLK (λ task, newColl_sendv task SCATTERV NONBLK comm sendbuf sendcounts displs sendtype recvbuf recvcount recvtype MPI_OP_NULL root)
  else ActFail "TAMPI_Iscatterv not enabled".

(** ** Requests ([src/src/c/Wait.cpp]) *)

Definition MPI_Wait thread s (request status : Z) : action :=
  if isBlockingEnabledForCurrentThread thread s
  then ActFail "MPI_Wait with task-aware behavior not supported"
  else Native "MPI_Wait" [request; status].

Definition MPI_Waitall thread s (count array_of_requests array_of_statuses : Z) : action :=
  if isBlockingEnabledForCurrentThread thread s
  then ActFail "MPI_Waitall with task-aware behavior not supported"
  else Native "MPI_Waitall" [count; array_of_requests; array_of_statuses].

Definition TAMPI_Iwait (request status : Z) : action := ActFail "TAMPI_Iwait not supported".
Definition TAMPI_Iwaitall (count array_of_requests array_of_statuses : Z) : action :=
  ActFail "TAMPI: TAMPI_Iwaitall not supported".

(** ** All operations at once *)

(** The blocking wrapper, the non-blocking one and MPI's own function for the
    operation [u], with its arguments; [status] is that of a receive. *)
Definition call_blocking thread s (u : mpi_call) (status : pointer) : action :=
  match u with
  | Isend x0 x1 x2 x3 x4 x5 => MPI_Send thread s x0 x1 x2 x3 x4 x5
  | Ibsend x0 x1 x2 x3 x4 x5 => MPI_Bsend thread s x0 x1 x2 x3 x4 x5
  | Irsend x0 x1 x2 x3 x4 x5 => MPI_Rsend thread s x0 x1 x2 x3 x4 x5
  | Issend x0 x1 x2 x3 x4 x5 => MPI_Ssend thread s x0 x1 x2 x3 x4 x5
  | Irecv x0 x1 x2 x3 x4 x5 => MPI_Recv thread s x0 x1 x2 x3 x4 x5 status
  | Iallgather x0 x1 x2 x3 x4 x5 x6 => MPI_Allgather thread s x0 x1 x2 x3 x4 x5 x6
  | Iallgatherv x0 x1 x2 x3 x4 x5 x6 x7 => MPI_Allgatherv thread s x0 x1 x2 x3 x4 x5 x6 x7
  | Iallreduce x0 x1 x2 x3 x4 x5 => MPI_Allreduce thread s x0 x1 x2 x3 x4 x5
  | Ialltoall x0 x1 x2 x3 x4 x5 x6 => MPI_Alltoall thread s x0 x1 x2 x3 x4 x5 x6
  | Ialltoallv x0 x1 x2 x3 x4 x5 x6 x7 x8 => MPI_Alltoallv thread s x0 x1 x2 x3 x4 x5 x6 x7 x8
  | Ialltoallw x0 x1 x2 x3 x4 x5 x6 x7 x8 => MPI_Alltoallw thread s x0 x1 x2 x3 x4 x5 x6 x7 x8
  | Ibarrier x0 => MPI_Barrier thread s x0
  | Ibcast x0 x1 x2 x3 x4 => MPI_Bcast thread s x0 x1 x2 x3 x4
  | Iexscan x0 x1 x2 x3 x4 x5 => MPI_Exscan thread s x0 x1 x2 x3 x4 x5
  | Igather x0 x1 x2 x3 x4 x5 x6 x7 => MPI_Gather thread s x0 x1 x2 x3 x4 x5 x6 x7
  | Igatherv x0 x1 x2 x3 x4 x5 x6 x7 x8 => MPI_Gatherv thread s x0 x1 x2 x3 x4 x5 x6 x7 x8
  | Ireduce x0 x1 x2 x3 x4 x5 x6 => MPI_Reduce thread s x0 x1 x2 x3 x4 x5 x6
  | Ireduce_scatter x0 x1 x2 x3 x4 x5 => MPI_Reduce_scatter thread s x0 x1 x2 x3 x4 x5
  | Ireduce_scatter_block x0 x1 x2 x3 x4 x5 => MPI_Reduce_scatter_block thread s x0 x1 x2 x3 x4 x5
  | Iscan x0 x1 x2 x3 x4 x5 => MPI_Scan thread s x0 x1 x2 x3 x4 x5
  | Iscatter x0 x1 x2 x3 x4 x5 x6 x7 => MPI_Scatter thread s x0 x1 x2 x3 x4 x5 x6 x7
  | Iscatterv x0 x1 x2 x3 x4 x5 x6 x7 x8 => MPI_Scatterv thread s x0 x1 x2 x3 x4 x5 x6 x7 x8
  end.

Definition call_nonblocking s (u : mpi_call) (status : pointer) : action :=
  match u with
  | Isend x0 x1 x2 x3 x4 x5 => TAMPI_Isend s x0 x1 x2 x3 x4 x5
  | Ibsend x0 x1 x2 x3 x4 x5 => TAMPI_Ibsend s x0 x1 x2 x3 x4 x5
  | Irsend x0 x1 x2 x3 x4 x5 => TAMPI_Irsend s x0 x1 x2 x3 x4 x5
  | Issend x0 x1 x2 x3 x4 x5 => TAMPI_Issend s x0 x1 x2 x3 x4 x5
  | Irecv x0 x1 x2 x3 x4 x5 => TAMPI_Irecv s x0 x1 x2 x3 x4 x5 status
  | Iallgather x0 x1 x2 x3 x4 x5 x6 => TAMPI_Iallgather s x0 x1 x2 x3 x4 x5 x6
  | Iallgatherv x0 x1 x2 x3 x4 x5 x6 x7 => TAMPI_Iallgatherv s x0 x1 x2 x3 x4 x5 x6 x7
  | Iallreduce x0 x1 x2 x3 x4 x5 => TAMPI_Iallreduce s x0 x1 x2 x3 x4 x5
  | Ialltoall x0 x1 x2 x3 x4 x5 x6 => TAMPI_Ialltoall s x0 x1 x2 x3 x4 x5 x6
  | Ialltoallv x0 x1 x2 x3 x4 x5 x6 x7 x8 => TAMPI_Ialltoallv s x0 x1 x2 x3 x4 x5 x6 x7 x8
  | Ialltoallw x0 x1 x2 x3 x4 x5 x6 x7 x8 => TAMPI_Ialltoallw s x0 x1 x2 x3 x4 x5 x6 x7 x8
  | Ibarrier x0 => TAMPI_Ibarrier s x0
  | Ibcast x0 x1 x2 x3 x4 => TAMPI_Ibcast s x0 x1 x2 x3 x4
  | Iexscan x0 x1 x2 x3 x4 x5 => TAMPI_Iexscan s x0 x1 x2 x3 x4 x5
  | Igather x0 x1 x2 x3 x4 x5 x6 x7 => TAMPI_Igather s x0 x1 x2 x3 x4 x5 x6 x7
  | Igatherv x0 x1 x2 x3 x4 x5 x6 x7 x8 => TAMPI_Igatherv s x0 x1 x2 x3 x4 x5 x6 x7 x8
  | Ireduce x0 x1 x2 x3 x4 x5 x6 => TAMPI_Ireduce s x0 x1 x2 x3 x4 x5 x6
  | Ireduce_scatter x0 x1 x2 x3 x4 x5 => TAMPI_Ireduce_scatter s x0 x1 x2 x3 x4 x5
  | Ireduce_scatter_block x0 x1 x2 x3 x4 x5 => TAMPI_Ireduce_scatter_block s x0 x1 x2 x3 x4 x5
  | Iscan x0 x1 x2 x3 x4 x5 => TAMPI_Iscan s x0 x1 x2 x3 x4 x5
  | Iscatter x0 x1 x2 x3 x4 x5 x6 x7 => TAMPI_Iscatter s x0 x1 x2 x3 x4 x5 x6 x7
  | Iscatterv x0 x1 x2 x3 x4 x5 x6 x7 x8 => TAMPI_Iscatterv s x0 x1 x2 x3 x4 x5 x6 x7 x8
  end.

Definition native_call (u : mpi_call) (status : pointer) : action :=
  match u with
  | Isend x0 x1 x2 x3 x4 x5 => Native "MPI_Send" [x0; x1; x2; x3; x4; x5]
  | Ibsend x0 x1 x2 x3 x4 x5 => Native "MPI_Bsend" [x0; x1; x2; x3; x4; x5]
  | Irsend x0 x1 x2 x3 x4 x5 => Native "MPI_Rsend" [x0; x1; x2; x3; x4; x5]
  | Issend x0 x1 x2 x3 x4 x5 => Native "MPI_Ssend" [x0; x1; x2; x3; x4; x5]
  | Irecv x0 x1 x2 x3 x4 x5 => Native "MPI_Recv" [x0; x1; x2; x3; x4; x5; status]
  | Iallgather x0 x1 x2 x3 x4 x5 x6 => Native "MPI_Allgather" [x0; x1; x2; x3; x4; x5; x6]
  | Iallgatherv x0 x1 x2 x3 x4 x5 x6 x7 => Native "MPI_Allgatherv" [x0; x1; x2; x3; x4; x5; x6; x7]
  | Iallreduce x0 x1 x2 x3 x4 x5 => Native "MPI_Allreduce" [x0; x1; x2; x3; x4; x5]
  | Ialltoall x0 x1 x2 x3 x4 x5 x6 => Native "MPI_Alltoall" [x0; x1; x2; x3; x4; x5; x6]
  | Ialltoallv x0 x1 x2 x3 x4 x5 x6 x7 x8 => Native "MPI_Alltoallv" [x0; x1; x2; x3; x4; x5; x6; x7; x8]
  | Ialltoallw x0 x1 x2 x3 x4 x5 x6 x7 x8 => Native "MPI_Alltoallw" [x0; x1; x2; x3; x4; x5; x6; x7; x8]
  | Ibarrier x0 => Native "MPI_Barrier" [x0]
  | Ibcast x0 x1 x2 x3 x4 => Native "MPI_Bcast" [x0; x1; x2; x3; x4]
  | Iexscan x0 x1 x2 x3 x4 x5 => Native "MPI_Exscan" [x0; x1; x2; x3; x4; x5]
  | Igather x0 x1 x2 x3 x4 x5 x6 x7 => Native "MPI_Gather" [x0; x1; x2; x3; x4; x5; x6; x7]
  | Igatherv x0 x1 x2 x3 x4 x5 x6 x7 x8 => Native "MPI_Gatherv" [x0; x1; x2; x3; x4; x5; x6; x7; x8]
  | Ireduce x0 x1 x2 x3 x4 x5 x6 => Native "MPI_Reduce" [x0; x1; x2; x3; x4; x5; x6]
  | Ireduce_scatter x0 x1 x2 x3 x4 x5 => Native "MPI_Reduce_scatter" [x0; x1; x2; x3; x4; x5]
  | Ireduce_scatter_block x0 x1 x2 x3 x4 x5 => Native "MPI_Reduce_scatter_block" [x0; x1; x2; x3; x4; x5]
  | Iscan x0 x1 x2 x3 x4 x5 => Native "MPI_Scan" [x0; x1; x2; x3; x4; x5]
  | Iscatter x0 x1 x2 x3 x4 x5 x6 x7 => Native "MPI_Scatter" [x0; x1; x2; x3; x4; x5; x6; x7]
  | Iscatterv x0 x1 x2 x3 x4 x5 x6 x7 x8 => Native "MPI_Scatterv" [x0; x1; x2; x3; x4; x5; x6; x7; x8]
  end.
End wrappers.

(** ** Running a wrapper *)

Section run.
Context `{SpscLib, AlpiLib, MpiLib} {QP QC : Type} `{!OpQueue QP ptr, !OpQueue QC ptr}.
Implicit Types (w : world) (m : TicketManager QP QC).

(** What the task [task], on logical CPU [cpu], does to the library: MPI's own
    functions do not use its state. *)
Definition run_action (cpu : nat) (task : task_handle_t) (a : action) m w :
    outcome (bool * TicketManager QP QC * world) :=
  match a with
  | ActP2P nature make => process_p2p cpu nature task make m w
  | ActColl nature make => process_coll cpu nature task make m w
  | Native _ _ => Ok (true, m, w)
  | ActFail msg => Fail msg
  end.

(** Where the status of the operation [u] is wanted: only receives have one. *)
Definition wanted_status (u : mpi_call) (status : pointer) : pointer :=
  match u with Irecv _ _ _ _ _ _ => status | _ => STATUS_IGNORE end.

Definition ticket_for (nature : OpNature) (task : task_handle_t) (u : mpi_call)
    (status : pointer) : Ticket :=
  mkTicket (mkContext (bool_decide (nature = BLK)) task) (wanted_status u status).

(** Which pre-queue and allocator an operation uses. *)
Definition is_p2p (u : mpi_call) : bool :=
  match u with
  | Isend _ _ _ _ _ _ | Ibsend _ _ _ _ _ _ | Irsend _ _ _ _ _ _ | Issend _ _ _ _ _ _
  | Irecv _ _ _ _ _ _ => true
  | _ => false
  end.

(** The reasons for which delegating the call [u] from logical CPU [cpu] may stop
    the program: the runtime returns an error, the allocator of the operation
    has no object left for this CPU, or the pre-queue of the operation, which is
    full, is configured to fail. *)
Definition refused (cpu : nat) (u : mpi_call) m w : Prop :=
  (∃ t c, alpi_error t c ≠ 0%Z) ∨
  (if is_p2p u
   then (∃ msg, Obj.alloc cpu (w_p2pAlloc w) = Fail msg) ∨ (∃ p msg, q_push cpu p (_p2pOperations m) = Fail msg)
   else (∃ msg, Obj.alloc cpu (w_collAlloc w) = Fail msg) ∨ (∃ p msg, q_push cpu p (_collOperations m) = Fail msg)).

(** [a] delegates exactly the call [u] on behalf of its task. *)
Definition delegates (nature : OpNature) (u : mpi_call) (status : pointer) (a : action) : Prop :=
  match a with
  | ActP2P n make => is_p2p u = true ∧ n = nature ∧ ∀ task, (task ≠ nullptr)%Z →
      op_data (make task) = Some (u, ticket_for nature task u status)
  | ActColl n make => is_p2p u = false ∧ n = nature ∧ ∀ task, (task ≠ nullptr)%Z →
      op_data (make task) = Some (u, ticket_for nature task u status)
  | _ => False
  end.

Lemma op_data_ok `{!OpType Op} (o : Op) u t :
  op_data o = Some (u, t) → status_ok t → op_ok o.
Proof.
  unfold op_data. intros Hd Hs. destruct (op_call o) eqn:Hc; [|done..].
  destruct (op_ticket o) eqn:Ht; simplify_eq. by exists u, t.
Qed.

Lemma wanted_status_ok nature task u status :
  (status ≠ nullptr ∨ status = STATUS_IGNORE)%Z → status_ok (ticket_for nature task u status).
Proof.
  assert (∀ c, status_ok (mkTicket c STATUS_IGNORE)) as Hign.
  { intros c. left. unfold ignoreStatus. simpl. by rewrite bool_decide_eq_true_2. }
  intros Hs. destruct u; try apply Hign. destruct Hs as [? | ->]; [by right|apply Hign].
Qed.
End run.

Section wrapper_proofs.
Context `{ThreadLevels, SpscLib, !SpscLaws, AlpiLib, MpiLib}.
Context (MPI_OP_NULL MPI_DATATYPE_NULL : Z).
Context {QP QC : Type} `{!OpQueue QP ptr, !OpQueueLaws QP ptr, !OpQueue QC ptr, !OpQueueLaws QC ptr}.
Implicit Types (w : world) (m : TicketManager QP QC) (s : State).
Notation blocking := (call_blocking MPI_OP_NULL MPI_DATATYPE_NULL).
Notation nonblocking := (call_nonblocking MPI_OP_NULL MPI_DATATYPE_NULL).

Ltac head_of t := lazymatch t with ?f _ => head_of f | _ => t end.

(** Each wrapper selects its operation by evaluation. *)
Ltac solve_delegates Hs :=
  lazymatch goal with |- delegates _ _ _ ?a => let h := head_of a in unfold h end;
  rewrite Hs; split; [done|]; split; [done|]; intros task Ht%Z.eqb_neq;
  unfold op_data; simpl;
  unfold Ticket_of_Operation, Ticket_of_CollOperation, newContext; simpl; by rewrite Ht.

Lemma blocking_delegates thread s u status :
  isBlockingEnabledForCurrentThread thread s = true →
  delegates BLK u status (blocking thread s u status).
Proof.
  intros Hs. destruct u; unfold call_blocking; solve_delegates Hs.
Qed.

Lemma nonblocking_delegates s u status :
  isNonBlockingEnabled s = true → delegates NONBLK u status (nonblocking s u status).
Proof.
  intros Hs. destruct u; unfold call_nonblocking; solve_delegates Hs.
Qed.

(** ** A wrapper is a sequence of steps of the system *)

Lemma process_with_inv `{!OpType Op} add cpu nature task (make : task_handle_t → Op) m w
    pushed m' w' :
  process_with add cpu nature task make m w = Ok (pushed, m', w') →
  let c := mkContext (bool_decide (nature = BLK)) task in
  (task ≠ nullptr)%Z ∧ ∃ p w1, begin_operation cpu nature task make w = Ok (c, p, w1) ∧
    add cpu p m = Ok (pushed, m') ∧ if (pushed : bool) then end_operation c w1 = Ok w' else w' = w1.
Proof.
  unfold process_with. intros Hp. apply bind_Ok in Hp as ([[c p] w1] & Hb & Hp).
  apply bind_Ok in Hp as ([b m1] & Ha & Hp). cbv zeta.
  assert ((task ≠ nullptr)%Z ∧ c = mkContext (bool_decide (nature = BLK)) task) as [Ht ->].
  { unfold begin_operation, newContext in Hb. destruct (task =? nullptr)%Z eqn:Ht; [done|].
    apply Z.eqb_neq in Ht. split; [done|]. simpl in Hb.
    apply bind_Ok in Hb as (? & _ & Hb). apply bind_Ok in Hb as ([??] & _ & Hb).
    simpl in Hb. by simplify_eq. }
  split; [done|]. exists p, w1. destruct b; simplify_eq; [|done].
  apply bind_Ok in Hp as (w2 & He & Hp). by simplify_eq.
Qed.

(** Pushing and, if the task blocks, waiting. *)
Lemma push_then_wait (s1 : system QP QC) m w w' pp pc bl d c :
  rtc sys_step s1 (mkSystem m w pp pc (enter_wait c bl) d) → end_operation c w = Ok w' →
  rtc sys_step s1 (mkSystem m w' pp pc bl d).
Proof.
  intros Hr He. unfold enter_wait, end_operation in *. destruct (_blocking c) eqn:Hc.
  - eapply rtc_r; [exact Hr|]. apply (step_block _ _ _ _ [] bl). unfold end_operation. by rewrite Hc.
  - by simplify_eq.
Qed.

Lemma run_delegates cpu task nature u status a m w pp pc bl d pushed m' w' :
  delegates nature u status a → (status ≠ nullptr ∨ status = STATUS_IGNORE)%Z →
  cpu < Obj._ncaches (w_p2pAlloc w) → cpu < Obj._ncaches (w_collAlloc w) →
  q_cpu (_p2pOperations m) cpu → q_cpu (_collOperations m) cpu →
  run_action cpu task a m w = Ok (pushed, m', w') →
  ∃ pp' pc', rtc sys_step (mkSystem m w pp pc bl d)
      (mkSystem m' w' pp' pc' bl (d ++ [(u, ticket_for nature task u status)])) ∧
    (pushed = true → pp' = pp ∧ pc' = pc).
Proof.
  intros Hd Hs Hc1 Hc2 Hq1 Hq2 Hr.
  destruct a as [n make|n make| |]; [| |done..]; destruct Hd as (_ & -> & Hdata); simpl in Hr;
    apply process_with_inv in Hr as (Ht & p & w1 & Hb & Ha & He);
    specialize (Hdata task Ht);
    pose proof (op_data_ok _ _ _ Hdata (wanted_status_ok _ _ _ _ Hs)) as Hok.
  - assert (sys_step (mkSystem m w pp pc bl d) _) as Hbegin
      by (by eapply (step_begin_p2p _ _ _ _ _ _ cpu)).
    destruct pushed; [exists pp, pc|subst; eexists _, pc]; (split; [|done]).
    + eapply push_then_wait; [|exact He]. eapply rtc_l; [exact Hbegin|].
      by eapply rtc_once, (step_push_p2p _ _ [] pp).
    + eapply rtc_l; [exact Hbegin|]. by eapply rtc_once, step_spin_p2p.
  - assert (sys_step (mkSystem m w pp pc bl d) _) as Hbegin
      by (by eapply (step_begin_coll _ _ _ _ _ _ cpu)).
    destruct pushed; [exists pp, pc|subst; exists pp; eexists]; (split; [|done]).
    + eapply push_then_wait; [|exact He]. eapply rtc_l; [exact Hbegin|].
      by eapply rtc_once, (step_push_coll _ _ _ [] pc).
    + eapply rtc_l; [exact Hbegin|]. by eapply rtc_once, step_spin_coll.
Qed.

(** Nothing of [process] reaches an undefined state, and it stops only when the
    runtime, the allocator or the pre-queue makes it. *)
Lemma process_with_safe `{!OpType Op, !OpTypeLaws Op} (F : Prop) add cpu nature task
    (make : task_handle_t → Op) m w ps :
  (task ≠ nullptr)%Z → objects_ok (Op:=Op) w ps → cpu < Obj._ncaches (op_alloc (Op:=Op) w) →
  op_ok (make task) → (∀ p, post F (λ _, True) (add cpu p m)) →
  (∀ t c, alpi_error t c ≠ 0%Z → F) → (∀ msg, Obj.alloc cpu (op_alloc (Op:=Op) w) = Fail msg → F) →
  post F (λ _, True) (process_with add cpu nature task make m w).
Proof.
  intros Ht%Z.eqb_neq Hobj Hcpu Hok Hadd Halpi Halloc. unfold process_with.
  apply (post_bind _ (λ x, x.1.1 = mkContext (bool_decide (nature = BLK)) task)).
  - unfold begin_operation, newContext. rewrite Ht. simpl.
    apply (post_bind _ (same_objects w)).
    + unfold bindEvents, increaseCurrentTaskEvents, alpi. simpl.
      destruct (negb _); [case_decide|]; simpl; [done|by eapply Halpi|done].
    + intros w1 _ Hs. pose proof (objects_ok_same _ _ _ Hs Hobj) as Hobj1.
      destruct (op_same (Op:=Op) w w1 Hs) as [_ Hal].
      assert (cpu < Obj._ncaches (op_alloc (Op:=Op) w1)) as Hcpu1 by by rewrite Hal.
      destruct (op_new_spec (Op:=Op) w1 ps cpu _ Hobj1 Hcpu1 Hok) as [(p & a & -> & _)|Hfail]; [done|].
      rewrite Hfail. simpl. unfold op_new in Hfail. rewrite Hal in Hfail.
      destruct (Obj.alloc cpu (op_alloc w)) as [[??]|msg|] eqn:Ha; [done| |done]. by eapply Halloc.
  - intros [[c p] w1] _ Hc. simpl in Hc. subst. eapply post_bind; [apply Hadd|].
    intros [b m1] _ _. destruct b; [|done]. apply (post_bind _ (λ _, True)); [|done].
    unfold end_operation, waitEventsCompletion, blockCurrentTask, alpi. simpl.
    destruct (bool_decide _); simpl; [case_decide|]; simpl; [done|by eapply Halpi|done].
Qed.

(** Pushing stops only when the pre-queue does. *)
Lemma push_post {Q} `{!OpQueue Q ptr, !OpQueueLaws Q ptr} (F : Prop) cpu p (q : Q) :
  q_inv q → q_cpu q cpu → (∀ msg, q_push cpu p q = Fail msg → F) →
  post F (λ _, True) (q_push cpu p q).
Proof.
  intros Hi Hc HF. pose proof (q_push_spec cpu p q Hi Hc) as Hp.
  destruct (q_push cpu p q) as [x|msg|] eqn:Hq; simpl in *; [done|by eapply HF|done].
Qed.

Lemma run_action_safe cpu task nature u status a m w pp pc :
  delegates nature u status a → (status ≠ nullptr ∨ status = STATUS_IGNORE)%Z →
  (task ≠ nullptr)%Z → manager_inv pp pc m w →
  cpu < Obj._ncaches (w_p2pAlloc w) → cpu < Obj._ncaches (w_collAlloc w) →
  q_cpu (_p2pOperations m) cpu → q_cpu (_collOperations m) cpu →
  post (refused cpu u m w) (λ _, True) (run_action cpu task a m w).
Proof.
  intros Hd Hs Ht Hm Hc1 Hc2 Hq1 Hq2.
  destruct a as [n make|n make| |]; [| |done..]; destruct Hd as (Hk & -> & Hdata); simpl; unfold refused; rewrite Hk;
    pose proof (op_data_ok _ _ _ (Hdata task Ht) (wanted_status_ok _ _ _ _ Hs)) as Hok.
  - eapply process_with_safe; [done|apply Hm|done|done| |eauto|eauto]. intros p.
    eapply post_bind; [apply push_post; [apply Hm|done|eauto]|by intros [??]].
  - eapply process_with_safe; [done|apply Hm|done|done| |eauto|eauto]. intros p.
    eapply post_bind; [apply push_post; [apply Hm|done|eauto]|by intros [??]].
Qed.

(** The task-aware call as a whole. *)
Lemma run_delegates_post cpu task nature u status a m w pp pc bl d :
  delegates nature u status a → (status ≠ nullptr ∨ status = STATUS_IGNORE)%Z →
  (task ≠ nullptr)%Z → manager_inv pp.*1 pc.*1 m w →
  cpu < Obj._ncaches (w_p2pAlloc w) → cpu < Obj._ncaches (w_collAlloc w) →
  q_cpu (_p2pOperations m) cpu → q_cpu (_collOperations m) cpu →
  post (refused cpu u m w) (λ '(pushed, m', w'), ∃ pp' pc',
      rtc sys_step (mkSystem m w pp pc bl d)
        (mkSystem m' w' pp' pc' bl (d ++ [(u, ticket_for nature task u status)])) ∧
      (pushed = true → pp' = pp ∧ pc' = pc))
    (run_action cpu task a m w).
Proof.
  intros Hd Hs Ht Hm Hc1 Hc2 Hq1 Hq2.
  pose proof (run_action_safe cpu task nature u status a m w _ _ Hd Hs Ht Hm Hc1 Hc2 Hq1 Hq2).
  destruct (run_action _ _ _ _ _) as [[[pushed m'] w']| |] eqn:Hr; [|done..].
  by eapply run_delegates.
Qed.

(** ** Properties *)

(** C13: when blocking mode is enabled for the calling thread, each of the 22
    blocking MPI operations, called by a task on one of the CPUs that the library
    was started with, with any arguments (the status of
    a receive being an address other than null, or MPI_STATUS_IGNORE),
    delegates exactly that operation: the call returns unless the runtime
    reports an error, the allocator of the operation has no object left or its
    pre-queue, being full, is configured to fail; and then it ran as steps of
    the system after which one more operation is accounted for, the same MPI
    call with the same arguments, with a ticket that blocks this task and, for
    a receive, has the status address given.  No union member is read that was
    not written, no assertion fails and no undefined state is reached. *)
Theorem blocking_call_runs thread s u status cpu task m w pp pc bl d :
  isBlockingEnabledForCurrentThread thread s = true →
  (status ≠ nullptr ∨ status = STATUS_IGNORE)%Z → (task ≠ nullptr)%Z →
  manager_inv pp.*1 pc.*1 m w →
  cpu < Obj._ncaches (w_p2pAlloc w) → cpu < Obj._ncaches (w_collAlloc w) →
  q_cpu (_p2pOperations m) cpu → q_cpu (_collOperations m) cpu →
  post (refused cpu u m w) (λ '(pushed, m', w'), ∃ pp' pc',
      rtc sys_step (mkSystem m w pp pc bl d)
        (mkSystem m' w' pp' pc' bl
          (d ++ [(u, mkTicket (mkContext true task) (wanted_status u status))])) ∧
      (pushed = true → pp' = pp ∧ pc' = pc))
    (run_action cpu task (blocking thread s u status) m w).
Proof.
  intros Hs. exact (run_delegates_post cpu task BLK u status _ m w pp pc bl d
    (blocking_delegates thread s u status Hs)).
Qed.

(** C14: when non-blocking mode is enabled, each of the 22 TAMPI_I operations,
    called by a task on one of the CPUs of the library, with any arguments (the status of TAMPI_Irecv being an
    address other than null, or MPI_STATUS_IGNORE), delegates exactly that
    operation with a ticket that fulfils an event of this task: it returns
    unless the runtime reports an error, the allocator has no object left or
    the pre-queue, being full, is configured to fail. *)
Theorem nonblocking_call_runs s u status cpu task m w pp pc bl d :
  isNonBlockingEnabled s = true →
  (status ≠ nullptr ∨ status = STATUS_IGNORE)%Z → (task ≠ nullptr)%Z →
  manager_inv pp.*1 pc.*1 m w →
  cpu < Obj._ncaches (w_p2pAlloc w) → cpu < Obj._ncaches (w_collAlloc w) →
  q_cpu (_p2pOperations m) cpu → q_cpu (_collOperations m) cpu →
  post (refused cpu u m w) (λ '(pushed, m', w'), ∃ pp' pc',
      rtc sys_step (mkSystem m w pp pc bl d)
        (mkSystem m' w' pp' pc' bl
          (d ++ [(u, mkTicket (mkContext false task) (wanted_status u status))])) ∧
      (pushed = true → pp' = pp ∧ pc' = pc))
    (run_action cpu task (nonblocking s u status) m w).
Proof.
  intros Hs. exact (run_delegates_post cpu task NONBLK u status _ m w pp pc bl d
    (nonblocking_delegates s u status Hs)).
Qed.

(** C37: without blocking mode for the calling thread, whether the non-blocking
    mode is on or not, a blocking operation is MPI's own function with the same
    arguments, except MPI_Alltoallw, which stops the program; and without
    non-blocking mode, whether the blocking mode is on or not, every TAMPI_I
    operation stops the program. *)
Theorem disabled_calls thread s u status :
  (isBlockingEnabledForCurrentThread thread s = false →
   blocking thread s u status =
     (if u is Ialltoallw _ _ _ _ _ _ _ _ _ then ActFail "TAMPI: MPI_Alltoallw not supported"
      else native_call u status)) ∧
  (isNonBlockingEnabled s = false → ∃ msg, nonblocking s u status = ActFail msg).
Proof.
  split; intros Hm; destruct u; unfold call_blocking, call_nonblocking, native_call;
    match goal with
    | |- ?a = _ => let h := head_of a in unfold h
    | |- ∃ _, ?b = _ => let h := head_of b in unfold h
    end; rewrite Hm; eauto.
Qed.
End wrapper_proofs.

Section wrapper_witnesses.
Import ListSpsc.

(** Task 7 broadcasts, blocking, on the instance of [Demo.v]. *)
Definition demo_bcast : mpi_call := Ibcast 500 8 2 0 91.

Lemma blocking_call_runs_witness : ∃ m' w',
  run_action 0 7 (call_blocking 0 0 1 demo_on demo_bcast STATUS_IGNORE)
    demo_manager demo_world = Ok (true, m', w') ∧
  rtc sys_step (mkSystem demo_manager demo_world [] [] [] [])
    (mkSystem m' w' [] [] [] [(demo_bcast, mkTicket (mkContext true 7) STATUS_IGNORE)]).
Proof.
  pose proof (blocking_call_runs 0 0 1 demo_on demo_bcast STATUS_IGNORE 0 7
    demo_manager demo_world [] [] [] [] eq_refl (or_intror eq_refl) ltac:(done)
    (si_manager _ _ demo_inv)
    ltac:(apply Nat.ltb_lt; vm_compute; reflexivity)
    ltac:(apply Nat.ltb_lt; vm_compute; reflexivity)
    ltac:(apply Nat.ltb_lt; vm_compute; reflexivity) I) as Hp.
  destruct (run_action _ _ _ _ _) as [[[b m'] w']| |] eqn:Hr; [|by vm_compute in Hr..].
  destruct b; [|by vm_compute in Hr].
  destruct Hp as (pp' & pc' & Hs & Heq). destruct (Heq eq_refl) as [-> ->].
  exists m', w'. by split.
Defined.

Lemma nonblocking_call_runs_witness : ∃ m' w',
  run_action 0 7 (call_nonblocking 0 0 demo_on (Irecv 500 8 2 1 42 91) 200)
    demo_manager demo_world = Ok (true, m', w') ∧
  rtc sys_step (mkSystem demo_manager demo_world [] [] [] [])
    (mkSystem m' w' [] [] [] [(Irecv 500 8 2 1 42 91, mkTicket (mkContext false 7) 200)]).
Proof.
  assert (200 ≠ nullptr)%Z as Hst by (vm_compute; discriminate).
  pose proof (nonblocking_call_runs 0 0 demo_on (Irecv 500 8 2 1 42 91) 200 0 7
    demo_manager demo_world [] [] [] [] eq_refl (or_introl Hst) ltac:(done)
    (si_manager _ _ demo_inv)
    ltac:(apply Nat.ltb_lt; vm_compute; reflexivity)
    ltac:(apply Nat.ltb_lt; vm_compute; reflexivity)
    ltac:(apply Nat.ltb_lt; vm_compute; reflexivity) I) as Hp.
  destruct (run_action _ _ _ _ _) as [[[b m'] w']| |] eqn:Hr; [|by vm_compute in Hr..].
  destruct b; [|by vm_compute in Hr].
  destruct Hp as (pp' & pc' & Hs & Heq). destruct (Heq eq_refl) as [-> ->].
  exists m', w'. by split.
Defined.

(** Before initialisation both modes are off. *)
Lemma disabled_calls_witness :
  call_blocking 0 0 1 (newState (H0:=demo_levels)) demo_bcast STATUS_IGNORE =
    Native "MPI_Bcast" [500; 8; 2; 0; 91]%Z ∧
  ∃ msg, call_nonblocking 0 0 (newState (H0:=demo_levels)) demo_bcast
    STATUS_IGNORE = ActFail msg.
Proof.
  destruct (disabled_calls 0 0 1 (newState (H0:=demo_levels)) demo_bcast STATUS_IGNORE) as [Hb Hn].
  split; [exact (Hb eq_refl)|exact (Hn eq_refl)].
Defined.
End wrapper_witnesses.
