(* ===== verification/Startup.v ===== *)
(** * From the environment of the process to a library that polls

    What the library constructs before it runs, from the environment variables
    of the process: the static objects ([src/src/common/Environment.cpp],
    [src/src/common/instrument/Instrument.cpp]), the allocators
    ([src/src/common/Allocator.cpp]) and the ticket manager with its pre-queues
    ([src/src/common/TicketManager.hpp]); and the runs from there, in which the
    two polling tasks ask for the period of their next call. *)

From Stdlib Require Import Ascii.
From S2P Require Import Prelude Queues MultiQueue Allocator World Interface Tickets Operations StringSupport CapacityCtrl PollingPeriod TicketManager OperationManager ManagerProofs PollingProofs System Demo Claims Polling.

(** ** Construction *)

(** [std::getenv] *)
Notation environment := (string → option (list ascii)).

(** The capacities of the allocators, of the point-to-point pre-queue (a default
    argument of its template) and of the queue of the completion manager. *)
Definition OperationCapacity : nat := 64 * 1000.
Definition CollOperationCapacity : nat := 8 * 1000.
Definition QueueCapacity : nat := 32 * 1024.
Definition CompletionSize : nat := 32 * 1024.

(** The static objects that are constructed from environment variables. *)
Record Statics := mkStatics {
  _periodCtrl : PollingPeriodCtrl;
  _completionPeriodCtrl : PollingPeriodCtrl;
  _pollingMode : EnvironmentVariable (list ascii);
  _enabled : EnvironmentVariable bool;
  _instrument : EnvironmentVariable (list ascii);
}.

Section startup.
Context `{Build, Doubles, SpscLib}.

Definition static_init (getenv : environment) : outcome Statics :=
  periodCtrl ← newPeriodCtrl "TAMPI_POLLING_PERIOD" (getenv "TAMPI_POLLING_PERIOD");
  completionPeriodCtrl ← newPeriodCtrl "TAMPI_POLLING_TASK_COMPLETION_PERIOD"
                           (getenv "TAMPI_POLLING_TASK_COMPLETION_PERIOD");
  Ok (mkStatics periodCtrl completionPeriodCtrl
        (newEnv parse_string "TAMPI_POLLING_MODE" (str "auto") (getenv "TAMPI_POLLING_MODE")).1
        (newEnv parse_bool "TAMPI_POLLING_TASK_COMPLETION" true (getenv "TAMPI_POLLING_TASK_COMPLETION")).1
        (newEnv parse_string "TAMPI_INSTRUMENT" (str "none") (getenv "TAMPI_INSTRUMENT")).1).

(** Whether a full pre-queue stops the program; each class has its default. *)
Definition full_failure (getenv : environment) (defaultValue : bool) : bool :=
  _value (newEnv parse_bool "TAMPI_QUEUES_FULL_FAILURE" defaultValue (getenv "TAMPI_QUEUES_FULL_FAILURE")).1.

Definition manager_variables (getenv : environment) : manager_env :=
  {| env_testing := getenv "TAMPI_REQUESTS_TESTING";
     env_immediate := getenv "TAMPI_REQUESTS_IMMEDIATE_TESTING";
     env_capacity := getenv "TAMPI_CAPACITY";
     env_timeout := getenv "TAMPI_CAPACITY_TIMEOUT" |}.

(** [TicketManager<C>::get()] the first time: the constructor with its members. *)
Definition newTicketManager (getenv : environment) (ncpus : nat) :
    outcome (TicketManager (MultiLockFreeQueue ptr) (Boost.BoostLockFreeQueue ptr)) :=
  p2p ← MultiQueue.new QueueCapacity ncpus (full_failure getenv true);
  newManager (manager_variables getenv) p2p (Boost.new true (full_failure getenv false)).

(** Everything, on a runtime with [ncpus] CPUs; [memory] is what the statuses of
    the program hold. *)
Definition startup (getenv : environment) (ncpus : nat) (memory : gmap Z status) :
    outcome (Statics * TicketManager (MultiLockFreeQueue ptr) (Boost.BoostLockFreeQueue ptr) * world) :=
  statics ← static_init getenv;
  operations ← Obj.new OperationCapacity ncpus;
  collOperations ← Obj.new CollOperationCapacity ncpus;
  m ← newTicketManager getenv ncpus;
  Ok (statics, m,
      mkWorld [] memory ∅ ∅ operations collOperations (_value (_enabled statics)) (spsc_new CompletionSize)).
End startup.

(** ** Runs with the controllers of the polling periods *)

Section library.
Context `{Doubles, SpscLib, AlpiLib, MpiLib}.
Context {QP QC : Type} `{!OpQueue QP ptr, !OpQueue QC ptr}.

(** The system, the two controllers, and the periods asked for so far. *)
Record library := mkLibrary {
  lib_system : system QP QC;
  lib_period : PollingPeriodCtrl;
  lib_completion : PollingPeriodCtrl;
  lib_periods : list Z;
  lib_completion_periods : list Z;
}.

(** A step of a task; a call of [Polling::polling]; one of
    [Polling::completions]. *)
Inductive lib_step : library → library → Prop :=
| lib_task s s' c1 c2 ps1 ps2 :
    sys_step s s' → lib_step (mkLibrary s c1 c2 ps1 ps2) (mkLibrary s' c1 c2 ps1 ps2)
| lib_polling m w pp pc bl d c1 c2 ps1 ps2 now period c1' m' w' :
    polling now c1 m w = Ok (period, c1', m', w') →
    lib_step (mkLibrary (mkSystem m w pp pc bl d) c1 c2 ps1 ps2)
      (mkLibrary (mkSystem m' w' pp pc bl d) c1' c2 (ps1 ++ [period]) ps2)
| lib_completions m w pp pc bl d c1 c2 ps1 ps2 period c2' w' :
    completions c2 w = Ok (period, c2', w') →
    lib_step (mkLibrary (mkSystem m w pp pc bl d) c1 c2 ps1 ps2)
      (mkLibrary (mkSystem m w' pp pc bl d) c1 c2' ps1 (ps2 ++ [period])).
End library.
Arguments library {_} _ _ : assert.

Lemma queue_capacity_bounds : 0 < QueueCapacity ∧ (Z.of_nat QueueCapacity < u64_modulus)%Z.
Proof. unfold QueueCapacity, u64_modulus. lia. Qed.

#[local] Opaque OperationCapacity CollOperationCapacity QueueCapacity CompletionSize.

Section startup_proofs.
Context `{Build, Doubles, SpscLib, !SpscLaws}.

Lemma parseCapacities_Undef v msg :
  parseCapacities v = Undef msg → msg = "uninitialised capacity"%string.
Proof.
  unfold parseCapacities, extracted.
  destruct (getlines ":" v) as [|c0 [|c1 [|]]]; [done|..|done]; repeat destruct (extract_u64 _) as [|[|]]; simpl; congruence.
Qed.

(** The only undefined value that construction can meet. *)
Lemma newManager_Undef {QP QC} e (p2p : QP) (coll : QC) msg :
  newManager e p2p coll = Undef msg →
  ∃ v, env_capacity e = Some v ∧ parseCapacities v = Undef "uninitialised capacity".
Proof.
  assert (∀ name v d, parseTestingOption name v d ≠ Undef msg) as Ht.
  { intros name v d. unfold parseTestingOption. destruct v; simpl; repeat case_decide; done. }
  unfold newManager. destruct (parseTestingOption _ (env_testing e) _) eqn:Hgen; simpl; [|done|naive_solver].
  destruct (parseTestingOption _ (env_immediate e) _) eqn:Himm; simpl; [|done|naive_solver].
  unfold newCtrl. destruct (env_capacity e) as [v|]; simpl; [|by case_bool_decide].
  destruct (parseCapacities v) as [[mn mx]| |msg'] eqn:Hp; simpl; [|done|].
  - repeat (case_bool_decide; simpl; try done).
  - intros _. exists v. by rewrite (parseCapacities_Undef _ _ Hp) in Hp.
Qed.

Lemma startup_Ok getenv ncpus memory st m w :
  startup getenv ncpus memory = Ok (st, m, w) →
  static_init getenv = Ok st ∧ w_enabled w = _value (_enabled st) ∧ w_status w = memory ∧
  ncpus ≤ MultiQueue.MaxQueues ∧
  (0 < ncpus → fresh_manager m ∧ fresh_world w ∧ _generalTesting m ≠ None_).
Proof.
  unfold startup. intros Hs. apply bind_Ok in Hs as (st' & Hst & Hs). apply bind_Ok in Hs as (a1 & Ha1 & Hs).
  apply bind_Ok in Hs as (a2 & Ha2 & Hs). apply bind_Ok in Hs as (m' & Hm & Hs).
  injection Hs as -> -> <-. unfold newTicketManager in Hm. apply bind_Ok in Hm as (p2p & Hp & Hm).
  split_and!; [done..| |].
  { unfold MultiQueue.new in Hp. by destruct (Nat.ltb_spec MultiQueue.MaxQueues ncpus). }
  intros Hn.
  eapply startup_is_fresh; [exact Hp|exact Ha1|exact Ha2|exact Hm|..|done];
    [apply queue_capacity_bounds..].
Qed.

Lemma startup_starts getenv ncpus memory st p2p m :
  static_init getenv = Ok st → ncpus ≤ MultiQueue.MaxQueues →
  MultiQueue.new QueueCapacity ncpus (full_failure getenv true) = Ok p2p →
  newManager (manager_variables getenv) p2p (Boost.new (A:=ptr) true (full_failure getenv false)) = Ok m →
  ∃ w, startup getenv ncpus memory = Ok (st, m, w) ∧ w_enabled w = _value (_enabled st).
Proof.
  intros Hst Hn Hp Hm.
  destruct (Obj.new_spec OperationCapacity ncpus) as (a1 & Ha1 & _); [exact Hn|].
  destruct (Obj.new_spec CollOperationCapacity ncpus) as (a2 & Ha2 & _); [exact Hn|].
  unfold startup, newTicketManager. rewrite Hst. simpl. rewrite Ha1. simpl. rewrite Ha2. simpl.
  rewrite Hp. simpl. rewrite Hm. simpl. by eexists.
Qed.
End startup_proofs.

Section library_proofs.
Context `{Doubles, SpscLib, !SpscLaws, AlpiLib, MpiLib, !MpiLaws}.
Context {QP QC : Type} `{!OpQueue QP ptr, !OpQueueLaws QP ptr, !OpQueue QC ptr, !OpQueueLaws QC ptr}.

(** [mn1], [mx1] and [mn2], [mx2] are the bounds of the two periods. *)
Context (mn1 mx1 mn2 mx2 : Z) (Hmx1 : (10 ≤ mx1 < 2 ^ 51)%Z) (Hmx2 : (10 ≤ mx2 < 2 ^ 51)%Z).

Record library_inv st0 (l : library QP QC) : Prop := {
  lb_system : sys_inv st0 (lib_system l);
  lb_period : period_inv mn1 mx1 (lib_period l);
  lb_completion : period_inv mn2 mx2 (lib_completion l);
  lb_periods : Forall (λ p, mn1 ≤ p ≤ mx1)%Z (lib_periods l);
  lb_completion_periods : Forall (λ p, mn2 ≤ p ≤ mx2)%Z (lib_completion_periods l);
}.

Lemma library_inv_step st0 l l' : lib_step l l' → library_inv st0 l → library_inv st0 l'.
Proof using All.
  intros Hs [Hsys H1' H2' F1 F2].
  destruct Hs as [s s' c1 c2 ps1 ps2 Hstep|m w pp pc bl d c1 c2 ps1 ps2 now p c1' m' w' Hp|m w pp pc bl d c1 c2 ps1 ps2 p c2' w' Hp];
    simpl in *.
  - split; simpl; [by eapply step_inv|done..].
  - unfold polling in Hp. apply bind_Ok in Hp as ([[[n k] m1] w1] & Hc & Hp). apply bind_Ok in Hp as ([p1 c] & Hg & Hp).
    injection Hp as -> -> -> ->.
    destruct (getPeriod_inv mn1 mx1 (Z.of_nat n) c1 Hmx1 H1') as (p' & c' & Hg' & Hb & Hi). rewrite Hg in Hg'.
    injection Hg' as -> ->. split; simpl; [|done..| |done].
    + eapply step_inv; [by eapply step_poll|done].
    + by apply Forall_app_2; [|apply Forall_singleton].
  - unfold completions in Hp. apply bind_Ok in Hp as ([n w1] & Hc & Hp). apply bind_Ok in Hp as ([p1 c] & Hg & Hp).
    injection Hp as -> -> ->.
    destruct (getPeriod_inv mn2 mx2 (Z.of_nat n) c2 Hmx2 H2') as (p' & c' & Hg' & Hb & Hi). rewrite Hg in Hg'.
    injection Hg' as -> ->. split; simpl; [|done..|].
    + eapply step_inv; [by eapply step_notify|done].
    + by apply Forall_app_2; [|apply Forall_singleton].
Qed.

(** A step of the library is one of the system. *)
Lemma lib_step_system (l l' : library QP QC) : lib_step l l' → sys_step (lib_system l) (lib_system l').
Proof using Type.
  intros [s s' c1 c2 ps1 ps2 Hs|m w pp pc bl d c1 c2 ps1 ps2 now p c1' m' w' Hp|m w pp pc bl d c1 c2 ps1 ps2 p c2' w' Hp];
    simpl; [done|..].
  - unfold polling in Hp. apply bind_Ok in Hp as ([[[n k] m1] w1] & Hc & Hp). apply bind_Ok in Hp as ([p1 c] & _ & Hp).
    injection Hp as _ _ -> ->. by eapply step_poll.
  - unfold completions in Hp. apply bind_Ok in Hp as ([n w1] & Hc & Hp). apply bind_Ok in Hp as ([p1 c] & _ & Hp).
    injection Hp as _ _ ->. by eapply step_notify.
Qed.

Lemma lib_run_system (l l' : library QP QC) : rtc lib_step l l' → rtc sys_step (lib_system l) (lib_system l').
Proof using Type. induction 1; [done|]. eapply rtc_l; [by apply lib_step_system|done]. Qed.

Lemma library_inv_run st0 l l' : rtc lib_step l l' → library_inv st0 l → library_inv st0 l'.
Proof using All. induction 1; eauto using library_inv_step. Qed.
End library_proofs.

(** ** Properties *)

Section startup_claims.
Context `{Build, Doubles, SpscLib, !SpscLaws}.

(** C35: whatever the environment variables and the number of CPUs, start-up
    either stops the program with a message or leaves a library in an initial
    state of the runs, with an approach to testing that tests and no more CPUs
    than the library is built for; the one exception is a TAMPI_CAPACITY with an empty component, which
    leaves a capacity uninitialised. *)
Theorem startup_ready getenv ncpus memory :
  0 < ncpus →
  match startup getenv ncpus memory with
  | Ok (st, m, w) => fresh_manager m ∧ fresh_world w ∧ _generalTesting m ≠ None_ ∧
      w_enabled w = _value (_enabled st) ∧ w_status w = memory ∧ ncpus ≤ MultiQueue.MaxQueues
  | Fail _ => True
  | Undef _ => ∃ v, getenv "TAMPI_CAPACITY" = Some v ∧ parseCapacities v = Undef "uninitialised capacity"
  end.
Proof.
  intros Hn. destruct (startup getenv ncpus memory) as [[[st m] w]| |msg] eqn:Hs; [|done|].
  - destruct (startup_Ok _ _ _ _ _ _ Hs) as (_ & He & Hmem & Hmax & Hf). destruct (Hf Hn) as (Hm & Hw & Hg).
    done.
  - unfold startup in Hs.
    assert (static_init getenv ≠ Undef msg) as Hst.
    { unfold static_init, newPeriodCtrl. intros Hu.
      repeat (first [destruct (parse3 _ _ _ _ _) as [[[? ?] ?]|]|case_bool_decide|destruct (_ <? _)%Z]; simpl in Hu; try done). }
    destruct (static_init getenv); simpl in Hs; [|done|congruence].
    unfold Obj.new in Hs. destruct (_ <? _); simpl in Hs; [done|].
    unfold newTicketManager, MultiQueue.new in Hs. destruct (_ <? _); simpl in Hs; [done|].
    destruct (newManager _ _ _) eqn:Hm; simpl in Hs; [done|done|]. exact (newManager_Undef _ _ _ _ Hm).
Qed.

End startup_claims.

Section library_claims.
Context `{Build, Doubles, SpscLib, !SpscLaws, AlpiLib, MpiLib, !MpiLaws}.

(** C34: from every start-up whose maximum periods are at least 10 and below
    2^51 microseconds, in every run of tasks and of the two polling tasks, every
    period a polling task asks for is within its configured bounds, and in every
    state that is reached the polling function and the completion function
    return, with such a period, when MPI and the runtime report no errors and
    the queue of the completion manager, if it is used, has room for the
    operations that are not finished. Requests are tested with MPI_Test or
    MPI_Testany, for every MPI library, or with MPI_Testsome, the default, for a
    library that returns its indices in ascending order, which the MPI standard
    does not promise. *)
Theorem started_library_polls getenv ncpus memory st m w (l : library _ _) now :
  0 < ncpus → startup getenv ncpus memory = Ok (st, m, w) → orderly (_generalTesting m) →
  let c1 := _periodCtrl st in let c2 := _completionPeriodCtrl st in
  (10 ≤ pp_maxPeriod c1 < 2 ^ 51)%Z → (10 ≤ pp_maxPeriod c2 < 2 ^ 51)%Z →
  rtc lib_step (mkLibrary (mkSystem m w [] [] [] []) c1 c2 [] []) l →
  Forall (λ p, pp_minPeriod c1 ≤ p ≤ pp_maxPeriod c1)%Z (lib_periods l) ∧
  Forall (λ p, pp_minPeriod c2 ≤ p ≤ pp_maxPeriod c2)%Z (lib_completion_periods l) ∧
  (reliable (unfinished (s_manager (lib_system l))) (s_world (lib_system l)) →
   (∃ p c m' w', polling now (lib_period l) (s_manager (lib_system l)) (s_world (lib_system l)) = Ok (p, c, m', w') ∧
      pp_minPeriod c1 ≤ p ≤ pp_maxPeriod c1)%Z ∧
   (∃ p c w', completions (lib_completion l) (s_world (lib_system l)) = Ok (p, c, w') ∧
      pp_minPeriod c2 ≤ p ≤ pp_maxPeriod c2)%Z).
Proof.
  intros Hn Hs Hord c1 c2 Hm1 Hm2 Hr.
  destruct (startup_Ok _ _ _ _ _ _ Hs) as (Hst & _ & _ & _ & Hf). destruct (Hf Hn) as (Hm & Hw & _).
  unfold static_init in Hst. apply bind_Ok in Hst as (c1' & Hc1 & Hst). apply bind_Ok in Hst as (c2' & Hc2 & Hst).
  injection Hst as <-. simpl in c1, c2. subst c1 c2.
  destruct (library_inv_run (pp_minPeriod c1') _ (pp_minPeriod c2') _ Hm1 Hm2 (w_status w) _ _ Hr) as [Hsys Hi1 Hi2 HF1 HF2].
  { split; simpl; [by apply fresh_inv|by eapply newPeriodCtrl_inv..|done|done]. }
  split_and!; [done..|]. intros Hrel. split.
  - destruct (post_False_Ok _ _ (polling_returns False _ _ _ _ now _ _ _ (or_intror Hrel) (si_manager _ _ Hsys) Hm1 Hi1))
      as ([[[p c] m'] w'] & Hp & Hb & _). by exists p, c, m', w'.
  - destruct (post_False_Ok _ _ (completions_notify False _ _ _ (s_world (lib_system l)) (or_intror (proj1 (proj2 Hrel))) Hm2 Hi2))
      as ([[p c] w'] & Hp & Hb & _). by exists p, c, w'.
Qed.
End library_claims.

(** ** Evaluations *)

Section startup_witness.
Import ListSpsc.
#[local] Existing Instance default_build.
#[local] Existing Instance demo_doubles.

(** Variables that make the polling period dynamic; completions are left to the
    completion task, as by default. *)
Definition demo_variables : environment := λ name,
  if decide (name = "TAMPI_POLLING_PERIOD"%string) then Some (str "5:100") else None.

Lemma demo_started : ∃ st m w, startup demo_variables 2 ∅ = Ok (st, m, w) ∧
  pp_minPeriod (_periodCtrl st) = 5%Z ∧ pp_maxPeriod (_periodCtrl st) = 100%Z ∧
  pp_maxPeriod (_completionPeriodCtrl st) = 100%Z ∧ w_enabled w = true.
Proof.
  assert (∃ st, static_init demo_variables = Ok st ∧ pp_minPeriod (_periodCtrl st) = 5%Z ∧
    pp_maxPeriod (_periodCtrl st) = 100%Z ∧ pp_maxPeriod (_completionPeriodCtrl st) = 100%Z ∧
    _value (_enabled st) = true) as (st & Hst & H5 & H100 & Hc & Hen) by (eexists; by vm_compute).
  assert (∃ p, MultiQueue.new (A:=ptr) QueueCapacity 2 (full_failure demo_variables true) = Ok p) as [p2p Hp]
    by (eexists; reflexivity).
  assert (∃ m, newManager (manager_variables demo_variables) p2p
    (Boost.new (A:=ptr) true (full_failure demo_variables false)) = Ok m) as [m Hm] by (eexists; reflexivity).
  destruct (startup_starts demo_variables 2 ∅ st p2p m Hst ltac:(by apply Nat.leb_le) Hp Hm)
    as (w & Hs & Hw). exists st, m, w. rewrite Hen in Hw. done.
Qed.

Lemma startup_ready_witness :
  ∃ st m w, startup demo_variables 2 ∅ = Ok (st, m, w) ∧ fresh_manager m ∧ fresh_world w ∧
    _generalTesting m ≠ None_ ∧ w_enabled w = _value (_enabled st) ∧ w_status w = ∅ ∧
    2 ≤ MultiQueue.MaxQueues.
Proof.
  destruct demo_started as (st & m & w & Hs & _). exists st, m, w. split; [exact Hs|].
  pose proof (startup_ready demo_variables 2 ∅ ltac:(lia)) as Hr. rewrite Hs in Hr. exact Hr.
Defined.

Lemma started_library_polls_witness :
  ∃ st m w, startup demo_variables 2 ∅ = Ok (st, m, w) ∧
    ∃ p c m' w', polling 0 (_periodCtrl st) m w = Ok (p, c, m', w') ∧ (5 ≤ p ≤ 100)%Z.
Proof.
  destruct demo_started as (st & m & w & Hs & H5 & H100 & Hc & _).
  exists st, m, w. split; [exact Hs|].
  destruct (started_library_polls demo_variables 2 ∅ st m w
    (mkLibrary (mkSystem m w [] [] [] []) (_periodCtrl st) (_completionPeriodCtrl st) [] []) 0)
    as (_ & _ & Hrun); [lia|exact Hs|exact (demo_orderly _)|rewrite H100; lia|rewrite Hc; lia|apply rtc_refl|].
  rewrite H5, H100 in Hrun. apply Hrun.
  destruct (startup_Ok _ _ _ _ _ _ Hs) as (_ & _ & _ & _ & Hf). destruct (Hf ltac:(lia)) as (Hfm & Hfw & _).
  exact (fresh_reliable m w demo_mpi_ok demo_alpi_ok Hfm Hfw).
Defined.
End startup_witness.
