(* ===== verification/RuntimeStart.v ===== *)
(** * Starting on the runtime that the interface documents

    [TaskingModel::initialize] and the queries of [TaskingModel]
    ([src/src/common/TaskingModel.hpp]) on a runtime that reports its version,
    features, CPUs and running tasks as [src/src/common/ALPI.hpp] documents.
    Which versions are compatible, how codes are described and where tasks run
    is up to the runtime. *)

From S2P Require Import Prelude Queues World ErrorHandler Symbols Tasking Alpi.

(** ** The queries of the interface *)

Definition ALPI_VERSION_MINOR : Z := 2.

(** A runtime: its tasks, CPUs and features, the version of the interface that
    it provides and the versions compatible with it, its descriptions of codes,
    the CPU of each task that is running, and the system's number of each CPU. *)
Record provider := mkProvider {
  pv_rts : rts;
  pv_version : Z * Z;
  pv_compatible : Z * Z → bool;
  pv_description : alpi_error_t → string;
  pv_running : gmap Z nat;
  pv_system : nat → Z;
}.
Implicit Types (p : provider) (self : option Z).

(** All the errors of [alpi_error_t]. *)
Definition alpi_errors : list alpi_error_t :=
  [ALPI_SUCCESS; ALPI_ERR_VERSION; ALPI_ERR_NOT_INITIALIZED; ALPI_ERR_PARAMETER;
   ALPI_ERR_OUT_OF_MEMORY; ALPI_ERR_OUTSIDE_TASK; ALPI_ERR_UNKNOWN; ALPI_ERR_FEATURE_UNKNOWN].

Definition alpi_error_string p (error : Z) : string :=
  match filter (λ e, alpi_code e = error) alpi_errors with
  | e :: _ => pv_description p e
  | [] => "Error code not recognized"
  end.

Definition alpi_version_check p (major minor : Z) : alpi_error_t :=
  if pv_compatible p (major, minor) then ALPI_SUCCESS else ALPI_ERR_VERSION.

(** The functions that write to a pointer, given one that is valid: the code and
    what was written. *)
Definition alpi_version_get p : alpi_error_t * (Z * Z) := (ALPI_SUCCESS, pv_version p).

Definition alpi_cpu_logical_id p self : alpi_error_t * nat :=
  match self ≫= (pv_running p !!.) with
  | Some cpu => (ALPI_SUCCESS, cpu)
  | None => (ALPI_ERR_OUTSIDE_TASK, 0)
  end.

Definition alpi_cpu_system_id p self : alpi_error_t * Z :=
  match self ≫= (pv_running p !!.) with
  | Some cpu => (ALPI_SUCCESS, pv_system p cpu)
  | None => (ALPI_ERR_OUTSIDE_TASK, 0%Z)
  end.

(** The logical numbers are below the number of CPUs. *)
Definition provider_ok p : Prop := map_Forall (λ _ cpu, cpu < alpi_cpu_count (pv_rts p)) (pv_running p).

(** What [TaskingModel::initialize] learns from such a runtime. *)
Definition answers p : runtime :=
  mkRuntime (alpi_version_get p).2 (alpi_code (alpi_version_get p).1)
    (alpi_code (alpi_version_check p ALPI_VERSION_MAJOR 0))
    (alpi_code (alpi_feature_check ALPI_FEATURE_SUSPEND (pv_rts p))) (alpi_error_string p).

(** The version of the interface that introduced a function. *)
Definition since (name : string) : Z * Z :=
  if decide (name ∈ ["alpi_info_get"; "alpi_feature_check"]) then (1, 2)%Z
  else if decide (name ∈ ["alpi_task_events_test"; "alpi_task_suspend"; "alpi_task_suspend_mode_set"])
  then (1, 1)%Z else (1, 0)%Z.

Definition version_le (v v' : Z * Z) : Prop := (v.1 < v'.1 ∨ (v.1 = v'.1 ∧ v.2 ≤ v'.2))%Z.

(** The linker finds the functions of the version that the runtime provides. *)
Definition provides (dlsym : linker) p : Prop :=
  ∀ name, name ∈ alpi_names → version_le (since name) (pv_version p) → is_Some (dlsym First name).

(** ** The queries of the library *)

(** A call that writes one value. *)
Definition query {A} p (t : symbols) (name : string) (r : alpi_error_t * A) : outcome A :=
  _ ← alpi_invoke (answers p) t name (alpi_code r.1); Ok r.2.

Definition getCurrentTask p (t : symbols) self : outcome Z :=
  query p t "alpi_task_self" (ALPI_SUCCESS, alpi_task_self self).

Definition getNumLogicalCPUs p (t : symbols) : outcome nat :=
  query p t "alpi_cpu_count" (ALPI_SUCCESS, alpi_cpu_count (pv_rts p)).

Definition getCurrentLogicalCPU p (t : symbols) self : outcome nat :=
  query p t "alpi_cpu_logical_id" (alpi_cpu_logical_id p self).

Definition getCurrentSystemCPU p (t : symbols) self : outcome Z :=
  query p t "alpi_cpu_system_id" (alpi_cpu_system_id p self).

(** ** Lemmas *)

Lemma query_success {A} dlsym p t name (a : A) :
  bound_to dlsym First t name → query p t name (ALPI_SUCCESS, a) = Ok a.
Proof. intros Hb. unfold query, alpi_invoke. by destruct (invoke_bound _ _ _ _ Hb) as [? ->]. Qed.

(** The mandatory functions are those of the first version. *)
Lemma mandatory_since blk evs name :
  (name, true) ∈ alpi_symbols blk evs → name ∈ alpi_names ∧ since name = (1, 0)%Z.
Proof.
  intros Hin. assert (Forall (λ x, x.2 = true → x.1 ∈ alpi_names ∧ since x.1 = (1, 0)%Z)
    (alpi_symbols blk evs)) as HF by (destruct blk, evs; repeat constructor; by intros; in_list).
  rewrite Forall_forall in HF. by apply (HF (name, true)).
Qed.

Lemma feature_code p :
  alpi_code (alpi_feature_check ALPI_FEATURE_SUSPEND (pv_rts p)) = Tasking.ALPI_SUCCESS ↔
  Z.testbit (rt_features (pv_rts p)) 3 = true.
Proof.
  unfold alpi_feature_check.
  assert (Z.land ALPI_FEATURE_SUSPEND (rt_features (pv_rts p)) = ALPI_FEATURE_SUSPEND ↔
    Z.testbit (rt_features (pv_rts p)) 3 = true) as <-; [|by case_decide].
  split.
  - intros Heq. assert (Z.testbit ALPI_FEATURE_SUSPEND 3 = true) as Hb by done.
    rewrite <-Heq, Z.land_spec in Hb. by apply andb_true_iff in Hb as [_ Hb].
  - intros Hb. apply Z.bits_inj'. intros i Hi. rewrite Z.land_spec.
    change ALPI_FEATURE_SUSPEND with (2 ^ 3)%Z. rewrite Z.pow2_bits_eqb by lia.
    destruct (Z.eqb_spec 3 i) as [<-|]; [by rewrite Hb|done].
Qed.

(** A runtime with the optional feature. *)
Definition suspends p : Prop :=
  version_le (1, 2)%Z (pv_version p) ∧ Z.testbit (rt_features (pv_rts p)) 3 = true.

#[global] Instance suspends_dec p : Decision (suspends p).
Proof. unfold suspends, version_le. apply _. Defined.

Lemma suspends_supports p : suspends p ↔ supports_suspend (answers p).
Proof.
  unfold suspends, supports_suspend. simpl. rewrite feature_code. unfold version_le. simpl. naive_solver.
Qed.

(** Such a runtime has nothing to refuse but its version and the polling mode. *)
Lemma documented_startable dlsym p mode blk evs :
  provides dlsym p → version_le (1, 0)%Z (pv_version p) →
  pv_compatible p (1, 0)%Z = true → mode ∈ ["suspend"; "blocking"; "auto"] →
  (mode = "suspend" → suspends p) → startable dlsym (answers p) mode blk evs.
Proof.
  intros Hprov Hver Hc Hm Hs. split_and!; [|done| |done|by rewrite <-suspends_supports].
  - intros name Hin. destruct (mandatory_since _ _ _ Hin) as [Hn Hsn]. apply Hprov; [done|by rewrite Hsn].
  - simpl. unfold alpi_version_check. change ALPI_VERSION_MAJOR with 1%Z. by rewrite Hc.
Qed.

Lemma startable_documented dlsym p mode blk evs :
  startable dlsym (answers p) mode blk evs →
  pv_compatible p (1, 0)%Z = true ∧ mode ∈ ["suspend"; "blocking"; "auto"] ∧ (mode = "suspend" → suspends p).
Proof.
  intros (_ & _ & Hc & Hm & Hs). split_and!; [|done|by rewrite suspends_supports].
  simpl in Hc. unfold alpi_version_check in Hc. change ALPI_VERSION_MAJOR with 1%Z in Hc.
  by destruct (pv_compatible p (1, 0)%Z).
Qed.

(** What the body of a polling task calls to pause. *)
Definition pause_symbols (f : polling_function) : list string :=
  match f with
  | suspendPolling => ["alpi_task_self"; "alpi_task_suspend_mode_set"; "alpi_task_suspend"]
  | genericPolling => ["alpi_task_waitfor_ns"]
  end.

Lemma pause_symbols_loaded f blk evs name :
  name ∈ pause_symbols f →
  (∃ m, (name, m) ∈ alpi_symbols blk evs) ∧ name ∈ alpi_names ∧
  since name = if decide (f = suspendPolling ∧ name ≠ "alpi_task_self"%string) then (1, 1)%Z else (1, 0)%Z.
Proof.
  intros Hin. assert (Forall (λ name, name ∈ (alpi_symbols blk evs).*1 ∧ name ∈ alpi_names ∧
    since name = if decide (f = suspendPolling ∧ name ≠ "alpi_task_self"%string) then (1, 1)%Z else (1, 0)%Z)
    (pause_symbols f)) as HF by (destruct f, blk, evs; repeat constructor; by in_list).
  rewrite Forall_forall in HF. destruct (HF _ Hin) as (Hn & ? & ?). split_and!; [|done..].
  apply list_elem_of_fmap in Hn as ([n m] & -> & Hn). by exists m.
Qed.

(** ** Properties *)

(** C31: on a runtime that behaves as documented and provides the functions of
    its version, [TaskingModel::initialize] stops the program exactly when the
    runtime is not compatible with version 1.0, the polling mode is unknown, or
    suspension was forced and the runtime has not the feature.  Otherwise the
    polling tasks suspend exactly when the runtime has the feature and blocking
    polling was not asked for, and all functions that they then call are
    loaded.  From then on, the library finds the handle of the running task and
    a number of its CPU that is below the number of CPUs it is told. *)
Theorem starts_on_documented_runtime dlsym p mode blk evs s :
  tasking_ok dlsym s → provider_ok p → provides dlsym p → version_le (1, 0)%Z (pv_version p) →
  blk || evs = true →
  post (pv_compatible p (1, 0)%Z = false ∨ mode ∉ ["suspend"; "blocking"; "auto"] ∨
        (mode = "suspend" ∧ ¬ suspends p))
    (λ s', (pv_compatible p (1, 0)%Z = true ∧ mode ∈ ["suspend"; "blocking"; "auto"] ∧
        (mode = "suspend" → suspends p)) ∧
      (∃ f, pollingFunction s' = Some f ∧ (f = suspendPolling ↔ suspends p ∧ mode ≠ "blocking") ∧
        ∀ name, name ∈ pause_symbols f → bound_to dlsym First (tm_symbols s') name) ∧
      ∀ task cpu, pv_running p !! task = Some cpu →
        getCurrentTask p (tm_symbols s') (Some task) = Ok task ∧
        getCurrentLogicalCPU p (tm_symbols s') (Some task) = Ok cpu ∧
        ∃ n, getNumLogicalCPUs p (tm_symbols s') = Ok n ∧ cpu < n)
    (initialize_tasking dlsym (answers p) mode blk evs s).
Proof.
  intros Hok Hp Hprov Hver Hmodes.
  eapply post_mono; [eapply post_weaken; [|apply initialize_tasking_post; [done|]]|].
  - intros [_ Hns]. destruct (pv_compatible p (1, 0)%Z) eqn:Hc; [right|by left].
    destruct (decide (mode ∈ ["suspend"; "blocking"; "auto"])) as [Hm|]; [right|by left].
    destruct (decide (mode = "suspend" ∧ ¬ suspends p)) as [|Hs]; [done|]. destruct Hns.
    apply documented_startable; [done..|]. intros ->. destruct (decide (suspends p)); naive_solver.
  - simpl. destruct (decide (version_le (1, 2)%Z (pv_version p))) as [Hv|Hv].
    + left. apply Hprov; [by in_list|done].
    + right. unfold version_le in *. simpl in *. lia.
  - rewrite Hmodes. intros s' (_ & _ & Hst & Hb & f & Hf & Hsel). rewrite <-suspends_supports in Hsel.
    assert (∀ name, (name, true) ∈ alpi_symbols false false → bound_to dlsym First (tm_symbols s') name) as Hbase.
    { intros name Hin%(alpi_symbols_base blk evs). apply (Hb _ true); [done|]. by apply Hst. }
    split_and!.
    + by apply (startable_documented _ _ _ _ _ Hst).
    + by apply (startable_documented _ _ _ _ _ Hst).
    + by apply (startable_documented _ _ _ _ _ Hst).
    + exists f. split_and!; [done|done|]. intros name Hin.
      destruct (pause_symbols_loaded f blk evs name Hin) as ([m Hm] & Hn & Hs). apply (Hb _ m); [done|].
      apply Hprov; [done|]. rewrite Hs. case_decide as Hd; [|done].
      destruct (proj1 Hsel (proj1 Hd)) as [[Hv _] _]. unfold version_le in *. simpl in *. lia.
    + intros task cpu Hrun. unfold getCurrentTask, getCurrentLogicalCPU, getNumLogicalCPUs, alpi_cpu_logical_id.
      simpl. rewrite Hrun. erewrite !query_success by (apply Hbase; by in_list). split_and!; [done..|].
      eexists. split; [done|]. by apply (Hp task).
Qed.

(** A runtime of version 1.2 with suspension and two CPUs, on which task 7 runs
    on the second one. *)
Definition demo_provider : provider :=
  mkProvider (mkRts {[7%Z := new_task]} 2 ALPI_FEATURE_SUSPEND) (1, ALPI_VERSION_MINOR)%Z
    (λ v, bool_decide (v.1 = 1)%Z) (λ _, "") {[7%Z := 1]} (λ cpu, (10 + Z.of_nat cpu)%Z).

Lemma demo_provider_ok : provider_ok demo_provider.
Proof. apply map_Forall_singleton. simpl. lia. Qed.

(** The messages and the choice, for a start with the default mode. *)
Example demo_provider_starts :
  ∃ s', initialize_tasking demo_linker (answers demo_provider) "auto" true true newTasking = Ok s' ∧
    pollingFunction s' = Some suspendPolling ∧ tm_stderr s' = [] ∧
    getCurrentSystemCPU demo_provider (tm_symbols s') (Some 7%Z) = Ok 11%Z ∧
    (∃ msg, getCurrentLogicalCPU demo_provider (tm_symbols s') None = Fail msg).
Proof. eexists. split; [vm_compute; reflexivity|]. split_and!; [done..|]. eexists. vm_compute. reflexivity. Qed.

Lemma starts_on_documented_runtime_witness :
  ∃ s', initialize_tasking demo_linker (answers demo_provider) "auto" true true newTasking = Ok s' ∧
    bound_to demo_linker First (tm_symbols s') "alpi_task_suspend" ∧
    getCurrentLogicalCPU demo_provider (tm_symbols s') (Some 7%Z) = Ok 1.
Proof.
  assert (version_le (1, 0)%Z (pv_version demo_provider)) as Hv by (right; split; [reflexivity|done]).
  pose proof (starts_on_documented_runtime demo_linker demo_provider "auto" true true newTasking
    (newTasking_ok _) demo_provider_ok (λ _ _ _, mk_is_Some _ _ eq_refl) Hv eq_refl) as Hp.
  destruct demo_provider_starts as (s' & Hs & Hf & _). rewrite Hs in Hp. exists s'. split; [exact Hs|].
  destruct Hp as (_ & (f & Hf' & _ & Hb) & Hrun). rewrite Hf in Hf'. injection Hf' as <-.
  split; [apply Hb; by in_list|]. apply (Hrun 7%Z 1). reflexivity.
Defined.
