(* ===== verification/Safety.v ===== *)
(** * No undefined behaviour

    The invariants of the components put together: in every run of the library
    from a successful start-up, whatever a task, the polling task or the
    completion task does next, on any logical CPU of the runtime, it fails no
    assertion, reads nothing that was not written and overruns no array.  What
    the runs assume of logical CPU numbers is shown to hold for the numbers
    that the runtime documents. *)

From S2P Require Import Prelude Queues MultiQueue Allocator World Interface Tickets Operations StringSupport CapacityCtrl PollingPeriod TicketManager OperationManager ManagerProofs TransferProofs PollingProofs System Demo Claims Polling Symbols Tasking Environment CApi Startup.

(** ** The CPUs stay the same *)

Section cpus.
Context `{SpscLib, !SpscLaws, AlpiLib, MpiLib, !MpiLaws}.
Context {QP QC : Type} `{!OpQueue QP ptr, !OpQueueLaws QP ptr, !OpQueue QC ptr, !OpQueueLaws QC ptr}.
Implicit Types (w : world) (m : TicketManager QP QC) (s : system QP QC).

Lemma alloc_ncaches cpu a p a' : Obj.alloc cpu a = Ok (p, a') → Obj._ncaches a' = Obj._ncaches a.
Proof.
  unfold Obj.alloc. intros Ha. apply bind_Ok in Ha as (? & _ & Ha). apply bind_Ok in Ha as (stack & _ & Ha).
  apply bind_Ok in Ha as ([o stack'] & _ & Ha). destruct o as [o|]; [by simplify_eq|].
  destruct (spsc_pop _ _) as [[|o objects] central]; [done|].
  case_decide; [by simplify_eq|]. apply bind_Ok in Ha as (stack'' & _ & Ha). by simplify_eq.
Qed.

(** Starting an operation on behalf of a task. *)
Lemma begin_ncaches `{!OpType Op, !OpTypeLaws Op} cpu nature task (make : task_handle_t → Op) w c p w' :
  begin_operation cpu nature task make w = Ok (c, p, w') →
  ∃ w1 h a, same_objects w w1 ∧ Obj._ncaches a = Obj._ncaches (op_alloc (Op:=Op) w1) ∧
    w' = op_set (Op:=Op) h a w1.
Proof.
  unfold begin_operation. intros Hb. apply bind_Ok in Hb as (c' & _ & Hb).
  apply bind_Ok in Hb as (w1 & Hw1 & Hb). apply bind_Ok in Hb as ([p' w2] & Hn & Hb).
  injection Hb as _ _ <-. unfold op_new in Hn. apply bind_Ok in Hn as ([p1 a] & Ha & Hn).
  injection Hn as _ <-. exists w1. do 2 eexists. split_and!; [|by eapply alloc_ncaches|reflexivity].
  unfold bindEvents, increaseCurrentTaskEvents, alpi in Hw1.
  simpl in Hw1. destruct (negb (_blocking c')); [case_decide|]; by simplify_eq.
Qed.

Lemma same_cpus_objects m w w' : same_objects w w' → same_cpus m w m w'.
Proof. intros (_ & _ & H1' & H2' & _). unfold same_cpus. by rewrite H1', H2'. Qed.

Lemma push_p2p_cpus cpu p m m' pushed w :
  q_inv (_p2pOperations m) → q_cpu (_p2pOperations m) cpu → addOperation_p2p cpu p m = Ok (pushed, m') →
  same_cpus m w m' w.
Proof.
  intros Hi Hq Ha. unfold addOperation_p2p in Ha. apply bind_Ok in Ha as ([b q] & Hp & Ha). simplify_eq.
  split_and!; try done. by eapply q_push_cpu.
Qed.

Lemma push_coll_cpus cpu p m m' pushed w :
  q_inv (_collOperations m) → q_cpu (_collOperations m) cpu → addOperation_coll cpu p m = Ok (pushed, m') →
  same_cpus m w m' w.
Proof.
  intros Hi Hq Ha. unfold addOperation_coll in Ha. apply bind_Ok in Ha as ([b q] & Hp & Ha). simplify_eq.
  split_and!; try done. by eapply q_push_cpu.
Qed.

Lemma step_cpus st0 s s' :
  sys_step s s' → sys_inv st0 s → same_cpus (s_manager s) (s_world s) (s_manager s') (s_world s').
Proof.
  intros Hs Hi. pose proof (si_manager _ _ Hi) as Hm. destruct Hs as
    [m w pp pc bl d cpu nature task make c p w' x _ _ _ Hb _|m w pp pc bl d cpu nature task make c p w' x _ _ _ Hb _
    |m w pp1 pp2 pc bl d cpu p c m' Hq Ha|m w pp pc1 pc2 bl d cpu p c m' Hq Ha
    |m w pp pc bl d cpu p m' Hq Ha|m w pp pc bl d cpu p m' Hq Ha
    |m w pp pc bl1 bl2 d c w' He|m w pp pc bl d now n k m' w' Hc|m w pp pc bl d m' w' Hp|m w pp pc bl d n w' Hp]; simpl in *.
  - destruct (begin_ncaches _ _ _ _ _ _ _ _ Hb) as (w1 & h & a & (_ & _ & H1' & H2' & _) & Hn & ->).
    simpl in Hn. split_and!; simpl; try done; congruence.
  - destruct (begin_ncaches _ _ _ _ _ _ _ _ Hb) as (w1 & h & a & (_ & _ & H1' & H2' & _) & Hn & ->).
    simpl in Hn. split_and!; simpl; try done; congruence.
  - by eapply push_p2p_cpus; [apply Hm|..].
  - by eapply push_coll_cpus; [apply Hm|..].
  - by eapply push_p2p_cpus; [apply Hm|..].
  - by eapply push_coll_cpus; [apply Hm|..].
  - apply same_cpus_objects. unfold end_operation, waitEventsCompletion, blockCurrentTask, alpi in He.
    destruct (_blocking c); simpl in He; [case_decide|]; by simplify_eq.
  - destruct (checkRequests_polled _ _ _ _ _ _ _ Hm Hc) as (tr & fin & Hpo). exact (proj2 (po_transit _ _ _ _ _ _ Hpo)).
  - destruct (poll_part_polled _ _ _ _ Hm Hp) as (tr & fin & Hpo). exact (proj2 (po_transit _ _ _ _ _ _ Hpo)).
  - pose proof (process_post True w (or_introl I)) as Hpost. rewrite Hp in Hpost.
    destruct Hpost as (_ & _ & _ & Hs & _). by apply same_cpus_objects.
Qed.

Lemma run_cpus st0 s s' :
  rtc sys_step s s' → sys_inv st0 s → same_cpus (s_manager s) (s_world s) (s_manager s') (s_world s').
Proof.
  induction 1 as [|s s1 s' Hs _ IH]; intros Hi; [apply same_cpus_refl|].
  eapply same_cpus_trans; [by eapply step_cpus|]. apply IH. by eapply step_inv.
Qed.
End cpus.

(** The numbers 0 to [n] - 1 are logical CPUs after a start-up with [n] CPUs. *)
Definition cpu_ok {QP QC} `{SpscLib, !OpQueue QP ptr, !OpQueue QC ptr} (cpu : nat)
    (m : TicketManager QP QC) (w : world) : Prop :=
  cpu < Obj._ncaches (w_p2pAlloc w) ∧ cpu < Obj._ncaches (w_collAlloc w) ∧
  q_cpu (_p2pOperations m) cpu ∧ q_cpu (_collOperations m) cpu.

Lemma cpu_ok_same {QP QC} `{SpscLib, !OpQueue QP ptr, !OpQueue QC ptr} cpu (m m' : TicketManager QP QC) w w' :
  same_cpus m w m' w' → cpu_ok cpu m w → cpu_ok cpu m' w'.
Proof. intros (H1' & H2' & H3' & H4') (? & ? & ? & ?). split_and!; [lia|lia|by apply H1'|by apply H2']. Qed.

Lemma new_ncaches `{Build, SpscLib} capacity n a : Obj.new capacity n = Ok a → Obj._ncaches a = n.
Proof. unfold Obj.new. intros Ha. by apply bind_Ok in Ha as (? & _ & [= <-]). Qed.

Lemma new_queues `{Build} {A} capacity n ff (q : MultiLockFreeQueue A) :
  MultiQueue.new capacity n ff = Ok q → MultiQueue._queues q = n.
Proof. unfold MultiQueue.new. intros Hq. by apply bind_Ok in Hq as (? & _ & [= <-]). Qed.

#[local] Opaque OperationCapacity CollOperationCapacity QueueCapacity CompletionSize.

Lemma startup_cpu_ok `{Build, Doubles, SpscLib} getenv n memory st m w cpu :
  startup getenv n memory = Ok (st, m, w) → cpu < n → cpu_ok cpu m w.
Proof.
  unfold startup, newTicketManager, newManager. intros Hs Hc.
  apply bind_Ok in Hs as (st' & _ & Hs). apply bind_Ok in Hs as (a1 & Ha1 & Hs).
  apply bind_Ok in Hs as (a2 & Ha2 & Hs). apply bind_Ok in Hs as (m' & Hm & Hs). injection Hs as _ <- <-.
  apply bind_Ok in Hm as (p2p & Hp & Hm). do 4 (apply bind_Ok in Hm as (? & _ & Hm)). injection Hm as <-.
  split_and!; simpl; [rewrite (new_ncaches _ _ _ Ha1)|rewrite (new_ncaches _ _ _ Ha2)|rewrite (new_queues _ _ _ _ Hp)|]; done.
Qed.

(** ** Properties *)

(** A computation that returns or stops the program with a message. *)
Notation defined r := (post True (λ _, True) r).

Section safety.
Context `{Build, Doubles, ThreadLevels, SpscLib, !SpscLaws, AlpiLib, MpiLib, !MpiLaws}.
Context (MPI_OP_NULL MPI_DATATYPE_NULL : Z).

(** C2: from every start-up whose maximum polling periods are at least 10 and
    below 2^51 microseconds, in every state that a run of tasks and of the two
    polling tasks reaches, nothing that can happen next is undefined: calls of
    all wrappers by a task (whose handle is not null) on any of the CPUs, in
    either mode, with any arguments but a null status; another attempt to push;
    blocking a task; a call of the polling function, and each part of one
    between which other threads run; and a call of the completion function. Each
    of them returns, or stops the program with a message. Requests are tested
    with MPI_Test or MPI_Testany, for every MPI library, or with MPI_Testsome,
    the default, for a library that returns its indices in ascending order,
    which the MPI standard does not promise. *)
Theorem no_undefined_behaviour getenv n memory st m0 w0 (l : library _ _) :
  0 < n → startup getenv n memory = Ok (st, m0, w0) → orderly (_generalTesting m0) →
  let c1 := _periodCtrl st in let c2 := _completionPeriodCtrl st in
  (10 ≤ pp_maxPeriod c1 < 2 ^ 51)%Z → (10 ≤ pp_maxPeriod c2 < 2 ^ 51)%Z →
  rtc lib_step (mkLibrary (mkSystem m0 w0 [] [] [] []) c1 c2 [] []) l →
  let m := s_manager (lib_system l) in let w := s_world (lib_system l) in
  (∀ thread e u status cpu task, cpu < n → task ≠ nullptr → (status ≠ nullptr ∨ status = STATUS_IGNORE)%Z →
     (isBlockingEnabledForCurrentThread thread e = true →
      defined (run_action cpu task (call_blocking MPI_OP_NULL MPI_DATATYPE_NULL thread e u status) m w)) ∧
     (isNonBlockingEnabled e = true →
      defined (run_action cpu task (call_nonblocking MPI_OP_NULL MPI_DATATYPE_NULL e u status) m w))) ∧
  (∀ cpu p, cpu < n → defined (addOperation_p2p cpu p m) ∧ defined (addOperation_coll cpu p m)) ∧
  (∀ c, defined (end_operation c w)) ∧
  (∀ now, defined (Polling.polling now (lib_period l) m w)) ∧
  (∀ k, _pending m + k ≤ get (_capacityCtrl m) → defined (take_p2p k m w) ∧ defined (take_coll k m w)) ∧
  (0 < _pending m → defined (internalCheckRequests m w)) ∧
  defined (completions (lib_completion l) w).
Proof.
  intros Hn Hs Hord c1 c2 Hm1 Hm2 Hr m w.
  destruct (startup_Ok _ _ _ _ _ _ Hs) as (Hst & _ & _ & _ & Hf). destruct (Hf Hn) as (Hfm & Hfw & _).
  pose proof (fresh_inv _ _ Hord Hfm Hfw) as Hi0. pose proof (lib_run_system _ _ Hr) as Hsr.
  unfold static_init in Hst. apply bind_Ok in Hst as (c1' & Hc1 & Hst). apply bind_Ok in Hst as (c2' & Hc2 & Hst).
  assert (period_inv (pp_minPeriod c1) (pp_maxPeriod c1) c1 ∧ period_inv (pp_minPeriod c2) (pp_maxPeriod c2) c2) as [Hp1 Hp2].
  { injection Hst as <-. split; by eapply newPeriodCtrl_inv. }
  destruct (library_inv_run (pp_minPeriod c1) _ (pp_minPeriod c2) _ Hm1 Hm2 (w_status w0) _ _ Hr) as [Hi Hi1 Hi2 _ _];
    [done|]. clear Hst Hc1 Hc2.
  pose proof (si_manager _ _ Hi) as Hm. fold m in Hm. fold w in Hm.
  assert (∀ cpu, cpu < n → cpu_ok cpu m w) as Hcpu.
  { intros cpu Hc. eapply cpu_ok_same; [exact (run_cpus _ _ _ Hsr Hi0)|]. by eapply startup_cpu_ok. }
  split_and!.
  - intros thread e u status cpu task Hc Ht Hsta. destruct (Hcpu cpu Hc) as (H1' & H2' & H3' & H4').
    split; intros He; (eapply (post_weaken _ True); [done|]).
    + eapply run_action_safe; [by apply blocking_delegates|done|done|exact Hm|done..].
    + eapply run_action_safe; [by apply nonblocking_delegates|done|done|exact Hm|done..].
  - intros cpu p Hc. destruct (Hcpu cpu Hc) as (_ & _ & H3' & H4').
    split; (eapply post_bind; [apply q_push_spec; [apply Hm|done]|]); by intros [? ?].
  - intros c. unfold end_operation, waitEventsCompletion, blockCurrentTask, alpi.
    destruct (_blocking c); simpl; [case_decide|]; done.
  - intros now. eapply post_mono; [exact (polling_returns True _ _ _ _ now _ _ _ (or_introl I) Hm Hm1 Hi1)|done].
  - intros k Hk. split; (eapply post_mono; [|done]).
    + by apply (take_p2p_post True k m w (or_introl I) Hm).
    + by apply (take_coll_post True k m w (or_introl I) Hm).
  - intros Hk. pose proof (complete_post True m w (or_introl I) Hm) as Hp.
    rewrite (proj2 (Nat.ltb_lt _ _) Hk) in Hp. eapply post_mono; [exact Hp|done].
  - eapply post_mono; [exact (completions_notify True _ _ _ w (or_introl I) Hm2 Hi2)|done].
Qed.
End safety.

(** ** Evaluation *)

Section safety_witness.
Import ListSpsc.
#[local] Existing Instance default_build.
#[local] Existing Instance demo_doubles.
#[local] Existing Instance demo_levels.

(** A broadcast by a task on the second CPU, right after start-up. *)
Lemma no_undefined_behaviour_witness :
  ∃ st m w, startup demo_variables 2 ∅ = Ok (st, m, w) ∧
    defined (run_action 1 7 (call_blocking 0 0 1 demo_on demo_bcast STATUS_IGNORE) m w) ∧
    defined (Polling.polling 0 (_periodCtrl st) m w).
Proof.
  destruct demo_started as (st & m & w & Hs & _ & H100 & Hc & _). exists st, m, w. split; [exact Hs|].
  destruct (no_undefined_behaviour 0 0 demo_variables 2 ∅ st m w
    (mkLibrary (mkSystem m w [] [] [] []) (_periodCtrl st) (_completionPeriodCtrl st) [] []))
    as (Hcall & _ & _ & Hpoll & _);
    [lia|exact Hs|exact (demo_orderly _)|rewrite H100; lia|rewrite Hc; lia|apply rtc_refl|].
  split; [|exact (Hpoll 0%Z)].
  destruct (Hcall 1 demo_on demo_bcast STATUS_IGNORE 1 7%Z) as [Hb _]; [lia|discriminate|by right|].
  exact (Hb eq_refl).
Defined.
End safety_witness.
